(* ===== verification/_CoqProject ===== *)
-Q . S2P
Prelude.v
Prog.v
Crc.v
Encoding.v
Keys.v
Batch.v
OrdMap.v
Memtable.v
Sstable.v
SstableCorrect.v
Wal.v
Manifest.v
Db.v
DbCorrect.v
DbDurable.v
Engine.v
EngineApi.v
Mvcc.v
MvccCorrect.v
Percolator.v
TxnCorrect.v
Scan.v
ScanCorrect.v
EngineTheorems.v
RaftMessage.v
RaftStorage.v
RaftNode.v
RaftProto.v
RaftSafety.v
RaftInvariant.v
RaftRefine.v
RaftCluster.v
RaftReads.v
RaftTheorems.v
RaftWal.v
RaftWalTheorems.v
Cursor.v
PdRegion.v
PdRegionCorrect.v
PdTso.v
PdCluster.v
PdFsm.v
PdFsmCorrect.v
PdReplica.v
PdReplicaCorrect.v
PdTheorems.v
AntiEntropy.v
Ap.v
ApCorrect.v
ApTheorems.v
RaftCmd.v
RaftCmdCorrect.v
MemLock.v
ServerTheorems.v
CrossTxn.v
CrossTheorems.v
GroupActor.v
GroupActorCorrect.v
GroupCluster.v
GroupTheorems.v
Catalog.v
Grpc.v
RaftTransport.v
Format.v
KvService.v
KvDirect.v
KvTheorems.v
Client.v
ClientCache.v
ClientRouted.v
ClientCluster.v
ClientDirect.v
ClientTheorems.v
Upreplicate.v
Repair.v
PdService.v
PdLink.v
NodeAdmin.v
NodeTheorems.v
ServerFindings.v
