(* ===== verification/Prelude.v ===== *)
(** * Arcux: a verification library

    Arcux is a distributed key-value store.  A data node ([server/]) keeps regions of
    the keyspace in one storage engine ([engine/]).  A CP region is replicated by a
    Raft group ([raft/], durable on [raft-wal/]) whose log carries Percolator steps;
    an AP region is leaderless, stamped by a hybrid logical clock and merged by
    Last-Writer-Wins.  The placement driver ([pd/]) owns the region table, the table
    catalog, membership and the timestamp oracle, and is itself a Raft-replicated
    state machine.  [client/] is the client library; [rpc/] holds the generated wire
    types.

    ** Files, components and their sources

    Storage engine ([engine/src]).  [Encoding], [Keys], [Batch]: the byte codecs.
    [Crc], [OrdMap]: the checksum and the skip list, third-party code, as classes with
    the laws used and concrete instances.  [Memtable]; [Sstable], [SstableCorrect];
    [Wal]; [Manifest].  [Db]: the engine core ([db.rs]) with group
    commit, freeze, flush, merged reads and recovery; a [Core] is the mutable state, a
    [Disk] the directory, [Faults] the I/O failures of a group.  [DbCorrect],
    [DbDurable], [Engine]: reads implement one logical
    [Store]; groups are atomic transitions of it; a crash at any byte of the log
    recovers a prefix of the group.  [EngineApi]: the interface [EngineOps] /
    [EngineLaws] the upper layers are written against, discharged by the core.
    [Mvcc], [Percolator], [Scan] with [MvccCorrect], [TxnCorrect],
    [ScanCorrect]: snapshot reads, two-phase commit and range scans over
    that interface.  [EngineTheorems]: statements, witnesses, and
    evaluated counterexamples outside the hypotheses.

    Raft ([raft/src], [raft-wal/src]).  [RaftMessage], [RaftStorage], [RaftNode]: every
    method of the node over a [Storage] class.  [RaftProto] is the protocol as
    micro-steps, [RaftSafety] and [RaftInvariant] its inductive invariant,
    [RaftRefine] the proof that each operation of the node is a sequence of
    micro-steps, [RaftCluster] a group of nodes under an adversarial driver, [RaftReads]
    what the rounds of its reads say of it.  [RaftTheorems].  [RaftWal] is the durable
    storage, with the files of its directory, what of them is synced and what renames
    replaced; [RaftWalTheorems] shows that the node cannot tell storages apart, crash safety
    and refinement.

    Placement driver ([pd/src]).  [Cursor] (parsers and their laws, ordered maps),
    [PdRegion] / [PdRegionCorrect] (region registry and table prefixes), [PdTso],
    [PdCluster] (membership), [PdFsm] / [PdFsmCorrect] (commands, state machine,
    snapshots), [PdReplica] / [PdReplicaCorrect] (a replica and one turn of its actor),
    [PdTheorems].

    Data node ([server/src]).  [AntiEntropy] (digests, Merkle descent, adoption), [Ap]
    (clock, AP writes, replication, reconciliation, read repair), [ApCorrect] (the
    specification, states that merge by the later stamp, and its refinement),
    [ApTheorems].

    The CP path.  [RaftCmd]: the commands of a region's log and the state machine that
    applies them; [RaftCmdCorrect]; [MemLock]: writes in flight; [ServerTheorems].
    [CrossTxn] ([cross_txn.rs]): the coordinator and the readers over one engine per
    region; [CrossTheorems].  [GroupActor]
    ([raft_group.rs]): one turn of the actor of a replica, its replies and parked
    requests; [GroupActorCorrect]; [GroupCluster]: the replicas of a region, as an
    instance of the executions of [RaftCluster]; [GroupTheorems].
    [RaftTransport] ([raft_transport.rs], the sender and the service around it, and
    [pd/src/raft_wire.rs]): messages over RPCs.  [Upreplicate]: the
    membership changes planned by [upreplicate.rs] and [repair.rs]; [Repair]: the
    supervisor as a program.

    The client API.  [Catalog]: the node's copy of the tables.  [KvService]: the request
    handlers of [lib.rs] (get, put, delete, scan, transactions; direct, CP and AP) as
    programs of atomic steps and awaited answers, over the class [TimestampSource];
    [KvDirect], [KvTheorems]: the unreplicated node against a
    multi-version map.  [ServerFindings].  [Prog] holds such programs and their
    executions, with the rest of the system moving between two steps; [Grpc] the statuses
    of remote calls.

    Node and PD.  [PdService] ([pd/src/convert.rs], [raft_server.rs], [service.rs]): PD's requests; [PdLink] ([pd_link.rs]): a node's link to PD's leader.
    [NodeAdmin]: the administration of a node in [lib.rs], [multiraft.rs] and [ap.rs]:
    founding, joining and routing regions, heartbeats, reconciliation with PD, splits,
    merges and tables, opening a node; [NodeTheorems].  [Format] ([pd/src/format.rs]): the marker and the owner of a data
    directory.

    Client ([client/src/lib.rs]).  [Client]: every call of the library, direct, over a
    static cluster or routed through PD, as programs.  [ClientCache]: what nodes
    and PD answer, as the class [Network], and the routing cache against a search;
    [ClientRouted], [ClientCluster], [ClientDirect]: the three modes; [ClientDirect]
    discharges [Network] by the request handlers of [KvService].  [ClientTheorems].

    ** What the theorems show

    Engine: every execution with crashes refines an atomic durable store; recovery
    succeeds; I/O errors acknowledge nothing; tables answer as memtables; logs replay
    exactly their whole frames.  Transactions: commits are atomic at their timestamp,
    failed prewrites leave no trace, conflicts are detected exactly, snapshot reads are
    repeatable, scans return exactly the visible range; commit records have their value
    except where a primary is committed after its lock was lost.  Raft: election safety, log
    matching, leader completeness and state machine safety over executions with lost,
    repeated and reordered messages and crashes; a confirmed read covers what was applied
    before it was asked, if its node did not restart; a leader that hears nobody steps down.
    The durable storage never shows a hard state that was not saved, and, if renames are
    durable when they return, loses no completed call.  PD: the region table partitions the keyspace
    through splits and merges, timestamps of one oracle or actor never repeat,
    snapshots restore, the catalog tiles the keyspace.  AP:
    replicas whose versions have distinct stamps converge by delivery in any order, by one
    round of anti-entropy and by read repair, to the latest version of each key.
    CP: a transaction replicated step by step is the single-node one, and a resolve entry
    settles exactly its locks; a snapshot carries the committed value of the keys that are
    not locked; the replicas of a group under an adversarial network have applied the same
    entries; a request of an actor is answered at most once, a proposal exactly once.  A
    transaction across regions becomes visible in all of them at its primary's commit and
    never otherwise.
    Node: the direct client API, its requests served one after another, is a multi-version
    map.  Up-replication loses no voter and reaches its target once enough of its proposals
    are applied; a repair drops the dead voter and touches no other but the spare, which it
    leaves as a voter unless it mistook an uncommitted promotion for a committed one.  A
    message reaches a group as it was sent and its reply comes back.  A node that
    reconciles with PD serves every region it routes, with the configuration PD decided; its
    link, which its tasks share, finds PD's leader if at most one other call moves it
    meanwhile; a data directory has one owner for good.  Client: with a stale
    cache it still works on the nodes' multi-version map, it finds a cluster's leader, and
    its cache answers as a search would.


    ** Modelling conventions, bounds and fuel

    Rust integers are [N]; wrap-around is written out ([as_u32], [as_u64], [u64_add],
    [u64_shl]) in codecs, hashes, clocks and timestamps.  Raft terms, indices and
    tick counters, region ids and epochs, and the PD cursor are unbounded: they would
    need 2^64 operations to wrap.  Engine theorems hold for requests and memtables
    within the sizes stated ([small_op], 1 GiB tables), where [u32] offsets do not
    wrap.  Loops that are not structural take fuel: scans and commit lookups are
    proved to finish with some fuel ([scan_returns_range], [txn_status_exact],
    [scan_versions_run]), WAL reads take the length of the file, the Merkle descent
    twice the number of leaves.  Clock readings, random seeds, I/O failures, peers'
    answers and scheduling are inputs, so theorems quantify over them.  Error
    messages keep their literal text without interpolated values.

    Percolator, scan and AP statements assume that no key in use is a proper prefix of
    another: without it the code misreads keys ([EngineTheorems]).  Raft safety, the
    agreement of a region's replicas and the reads are stated for executions in which no
    membership change and no compaction enters a log; outside it the code is unsafe
    ([RaftTheorems]).  A group's actor compacts once 64 entries are applied, so the
    agreement reaches that far.

    A crash may lose any bytes that are not synced.  The engine's files are taken to keep their
    directory entries; for the Raft storage both cases are stated, since the code never
    syncs the directory.  Openings of one data directory ([Format]) are one after another:
    the window between the check and the write of two first starts at once is not
    represented.

    ** Not modelled

    gRPC channels, tokio tasks, command lines and log output: I/O and generated code
    around the operations above.  Threads are modelled by the serialization their
    locks and channels impose: the committer takes one group at a time, an actor one
    command at a time.  Of the sources,
    the programs [main.rs] of the node and of PD, the interactive shell
    [arcux.rs], the set-up of listeners, signals and background tasks, and the generated
    [rpc/] are not modelled.  Reconciliation is proved for one reconciliation of a node at a
    time and the direct API for one request at a time; overlapping handlers are programs of
    [KvService], but no theorem covers their interleaving.  [NodeTheorems], [PdLink],
    [Repair], [ApTheorems], [RaftTheorems], [RaftWalTheorems] and [ServerFindings] evaluate
    runs in which the code goes wrong where a condition above fails. *)

From stdpp Require Import base list numbers strings gmap sorting countable.
From Stdlib Require Import Strings.Byte.
From Stdlib Require Export Lia.

Open Scope N_scope.

(** * Tactics, hint databases *)

(** [codec]: round-trip facts used by [autorewrite]; [len]: length facts. *)
Create HintDb arcux.
Create Rewrite HintDb arcux.



(** Split the first [match] or [if] found in the goal (resp. in [H]). *)
Ltac case_goal :=
  match goal with
  | |- context [match ?x with _ => _ end] => destruct x eqn:?
  end.

(** * Record update

    [x <| f := v |>] is the record [x] with the field [f] replaced, as the
    source's [self.f = v].  A record opts in with an [Eta] instance that spells
    its eta-expansion. *)

Class Eta (R : Type) := eta : R → R.
Class Setter {R E : Type} (getter : R → E) := set_field : (E → E) → R → R.

Ltac derive_setter R getter :=
  let inst := constr:(_ : Eta R) in
  let e := eval hnf in inst in
  lazymatch eval pattern getter in e with
  | ?upd _ =>
    let t := eval cbv beta in (λ f, upd (λ r, f (getter r))) in exact t
  end.

#[export] Hint Extern 0 (@Setter ?R _ ?getter) => derive_setter R getter
  : typeclass_instances.

Declare Scope record_scope.
Open Scope record_scope.
Notation "x <| proj ::= f |>" := (set_field (getter:=proj) f x)
  (at level 1, f at level 99, left associativity) : record_scope.
Notation "x <| proj := v |>" := (set_field (getter:=proj) (λ _, v) x)
  (at level 1, v at level 99, left associativity) : record_scope.

(** * Machine integers *)

Definition u32_max : N := 4294967295.
Definition u64_max : N := 18446744073709551615.
(** [x as u32], [x as u64], and wrapping addition/multiplication on [u64]. *)
Definition as_u32 (x : N) : N := x mod 4294967296.
Definition as_u64 (x : N) : N := x mod 18446744073709551616.
Definition u64_add (a b : N) : N := as_u64 (a + b).
Definition u64_mul (a b : N) : N := as_u64 (a * b).
Definition u64_shl (a : N) (k : N) : N := as_u64 (N.shiftl a k).

Abbreviation is_u64 x := (x ≤ u64_max) (only parsing).
Abbreviation is_u32 x := (x ≤ u32_max) (only parsing).

Lemma as_u64_id x : is_u64 x → as_u64 x = x.
Proof. unfold as_u64, u64_max. intros. apply N.mod_small. lia. Qed.
Lemma as_u32_id x : is_u32 x → as_u32 x = x.
Proof. unfold as_u32, u32_max. intros. apply N.mod_small. lia. Qed.
Lemma as_u64_bound x : is_u64 (as_u64 x).
Proof.
  unfold as_u64, u64_max. pose proof (N.mod_lt x 18446744073709551616). lia.
Qed.
Lemma as_u32_bound x : is_u32 (as_u32 x).
Proof. unfold as_u32, u32_max. pose proof (N.mod_lt x 4294967296). lia. Qed.

(** * Bytes *)

Abbreviation bytes := (list byte).

#[export] Instance byte_eq_dec : EqDecision byte.
Proof. intros x y. exact (Byte.byte_eq_dec x y). Defined.

#[export] Program Instance byte_countable : Countable byte :=
  inj_countable Byte.to_N Byte.of_N _.
Next Obligation. intros x. apply Byte.of_to_N. Qed.

(** [x as u8]. *)
Definition byte_of_N (n : N) : byte :=
  match Byte.of_N (n mod 256) with Some b => b | None => x00 end.

Lemma to_N_byte_of_N n : Byte.to_N (byte_of_N n) = n mod 256.
Proof.
  unfold byte_of_N. destruct (Byte.of_N (n mod 256)) eqn:E.
  - by apply Byte.to_of_N.
  - apply Byte.of_N_None_iff in E. pose proof (N.mod_lt n 256). lia.
Qed.

Lemma byte_to_N_inj a b : Byte.to_N a = Byte.to_N b → a = b.
Proof. intros H. apply (f_equal Byte.of_N) in H. rewrite !Byte.of_to_N in H. congruence. Qed.

Lemma byte_of_to_N b : byte_of_N (Byte.to_N b) = b.
Proof.
  apply byte_to_N_inj. rewrite to_N_byte_of_N. apply N.mod_small.
  pose proof (Byte.to_N_bounded b). lia.
Qed.

(** ** Big-endian encodings ([to_be_bytes]/[from_be_bytes]) *)

Fixpoint be_bytes (k : nat) (n : N) : bytes :=
  match k with
  | O => []
  | S k' => byte_of_N (n / 256 ^ N.of_nat k') :: be_bytes k' n
  end.

Fixpoint be_N (l : bytes) : N :=
  match l with
  | [] => 0
  | b :: t => Byte.to_N b * 256 ^ N.of_nat (length t) + be_N t
  end.

Abbreviation u64_be := (be_bytes 8).
Abbreviation u32_be := (be_bytes 4).

Lemma length_be_bytes k n : length (be_bytes k n) = k.
Proof. induction k; simpl; auto. Qed.

Lemma be_N_bound l : be_N l < 256 ^ N.of_nat (length l).
Proof.
  induction l as [|b l IH]; cbn [be_N length]; [reflexivity|].
  rewrite Nat2N.inj_succ, N.pow_succ_r'. pose proof (Byte.to_N_bounded b). nia.
Qed.

Lemma be_N_be_bytes k n : be_N (be_bytes k n) = n mod 256 ^ N.of_nat k.
Proof.
  induction k as [|k IH]; cbn [be_N be_bytes]; [by rewrite N.mod_1_r|].
  rewrite IH, length_be_bytes, to_N_byte_of_N, Nat2N.inj_succ, N.pow_succ_r'.
  rewrite (N.mul_comm 256), N.Div0.mod_mul_r. lia.
Qed.

Lemma be_bytes_mod k n m : n mod 256 ^ N.of_nat k = m mod 256 ^ N.of_nat k →
  be_bytes k n = be_bytes k m.
Proof.
  revert n m. induction k as [|k IH]; intros n m H; [done|]. cbn [be_bytes].
  rewrite Nat2N.inj_succ, N.pow_succ_r', (N.mul_comm 256), !N.Div0.mod_mul_r in H.
  assert (Hp : 0 < 256 ^ N.of_nat k) by (apply N.neq_0_lt_0, N.pow_nonzero; lia).
  pose proof (N.mod_lt n (256 ^ N.of_nat k) ltac:(lia)) as B1.
  pose proof (N.mod_lt m (256 ^ N.of_nat k) ltac:(lia)) as B2.
  rewrite !(N.add_comm (_ mod _)) in H.
  apply N.div_mod_unique in H as [Hq Hr]; [|done..].
  rewrite (IH n m) by done. f_equal. apply byte_to_N_inj.
  by rewrite !to_N_byte_of_N.
Qed.

Lemma be_bytes_be_N l : be_bytes (length l) (be_N l) = l.
Proof.
  induction l as [|b l IH]; [done|]. cbn [length be_bytes be_N].
  assert (Hp : 256 ^ N.of_nat (length l) ≠ 0) by (apply N.pow_nonzero; lia).
  pose proof (be_N_bound l). f_equal.
  - rewrite N.div_add_l, N.div_small, N.add_0_r by lia. apply byte_of_to_N.
  - etransitivity; [|exact IH]. apply be_bytes_mod.
    rewrite (N.add_comm (_ * _)). by rewrite N.Div0.mod_add.
Qed.

Lemma be_N_u64 n : is_u64 n → be_N (u64_be n) = n.
Proof. unfold u64_max. intros. rewrite be_N_be_bytes. apply N.mod_small. cbn. lia. Qed.
Lemma be_N_u32 n : is_u32 n → be_N (u32_be n) = n.
Proof. unfold u32_max. intros. rewrite be_N_be_bytes. apply N.mod_small. cbn. lia. Qed.
Lemma be_N_u64_bound l : length l = 8%nat → is_u64 (be_N l).
Proof.
  intros H. pose proof (be_N_bound l) as B. rewrite H in B.
  unfold u64_max. cbn in B. lia.
Qed.
Lemma be_N_u32_bound l : length l = 4%nat → is_u32 (be_N l).
Proof.
  intros H. pose proof (be_N_bound l) as B. rewrite H in B.
  unfold u32_max. cbn in B. lia.
Qed.
Lemma u64_be_be_N l : length l = 8%nat → u64_be (be_N l) = l.
Proof. intros H. rewrite <- H at 1. apply be_bytes_be_N. Qed.
#[export] Hint Rewrite length_be_bytes : arcux.

(** ** Lexicographic order of byte strings ([Ord for [u8]]) *)

Fixpoint bytes_cmp (a b : bytes) : comparison :=
  match a, b with
  | [], [] => Eq
  | [], _ :: _ => Lt
  | _ :: _, [] => Gt
  | x :: a', y :: b' =>
    match Byte.to_N x ?= Byte.to_N y with Eq => bytes_cmp a' b' | c => c end
  end.

Definition bytes_ltb (a b : bytes) : bool :=
  match bytes_cmp a b with Lt => true | _ => false end.
Definition bytes_leb (a b : bytes) : bool :=
  match bytes_cmp a b with Gt => false | _ => true end.
Definition bytes_lt (a b : bytes) : Prop := bytes_cmp a b = Lt.
Definition bytes_le (a b : bytes) : Prop := bytes_cmp a b ≠ Gt.

#[export] Instance bytes_lt_dec a b : Decision (bytes_lt a b).
Proof. unfold bytes_lt. apply _. Defined.
#[export] Instance bytes_le_dec a b : Decision (bytes_le a b).
Proof. unfold bytes_le. apply _. Defined.

Lemma bytes_cmp_refl a : bytes_cmp a a = Eq.
Proof. induction a; cbn; [done|]. by rewrite N.compare_refl. Qed.

Lemma bytes_cmp_eq a b : bytes_cmp a b = Eq ↔ a = b.
Proof.
  split; [|intros ->; apply bytes_cmp_refl].
  revert b. induction a as [|x a IH]; intros [|y b]; cbn; try done.
  destruct (Byte.to_N x ?= Byte.to_N y) eqn:E; try done.
  apply N.compare_eq, byte_to_N_inj in E. intros H. f_equal; auto.
Qed.

Lemma bytes_cmp_antisym a b : bytes_cmp b a = CompOpp (bytes_cmp a b).
Proof.
  revert b. induction a as [|x a IH]; intros [|y b]; cbn; try done.
  rewrite (N.compare_antisym (Byte.to_N x)). destruct (Byte.to_N x ?= Byte.to_N y); cbn; auto.
Qed.

Lemma bytes_lt_trans a b c : bytes_lt a b → bytes_lt b c → bytes_lt a c.
Proof.
  unfold bytes_lt. revert b c.
  induction a as [|x a IH]; intros [|y b] [|z c]; cbn; try done.
  destruct (N.compare_spec (Byte.to_N x) (Byte.to_N y)),
    (N.compare_spec (Byte.to_N y) (Byte.to_N z)),
    (N.compare_spec (Byte.to_N x) (Byte.to_N z)); intros; try done; try lia; eauto.
Qed.

Lemma bytes_lt_irrefl a : ¬ bytes_lt a a.
Proof. unfold bytes_lt. by rewrite bytes_cmp_refl. Qed.

Lemma bytes_le_lt_eq a b : bytes_le a b ↔ bytes_lt a b ∨ a = b.
Proof.
  unfold bytes_le, bytes_lt. rewrite <- bytes_cmp_eq.
  destruct (bytes_cmp a b); intuition congruence.
Qed.

Lemma bytes_nlt_le a b : ¬ bytes_lt a b ↔ bytes_le b a.
Proof.
  unfold bytes_le, bytes_lt. rewrite (bytes_cmp_antisym a b).
  destruct (bytes_cmp a b); cbn; split; intros; try done; by intros ?.
Qed.
Lemma bytes_nle_lt a b : ¬ bytes_le a b ↔ bytes_lt b a.
Proof.
  rewrite <- bytes_nlt_le. destruct (decide (bytes_lt b a)); tauto.
Qed.

Lemma bytes_le_refl a : bytes_le a a.
Proof. apply bytes_le_lt_eq. auto. Qed.
Lemma bytes_le_trans a b c : bytes_le a b → bytes_le b c → bytes_le a c.
Proof. rewrite !bytes_le_lt_eq. intros [?| ->] [?| ->]; eauto using bytes_lt_trans. Qed.
Lemma bytes_lt_le_trans a b c : bytes_lt a b → bytes_le b c → bytes_lt a c.
Proof. rewrite bytes_le_lt_eq. intros ? [?| <-]; eauto using bytes_lt_trans. Qed.
Lemma bytes_le_lt_trans a b c : bytes_le a b → bytes_lt b c → bytes_lt a c.
Proof. rewrite bytes_le_lt_eq. intros [?| ->] ?; eauto using bytes_lt_trans. Qed.
Lemma bytes_lt_le a b : bytes_lt a b → bytes_le a b.
Proof. rewrite bytes_le_lt_eq. auto. Qed.
Lemma bytes_le_antisym a b : bytes_le a b → bytes_le b a → a = b.
Proof.
  rewrite !bytes_le_lt_eq. intros [H1|?] [H2|?]; try congruence.
  destruct (bytes_lt_irrefl a). eauto using bytes_lt_trans.
Qed.
Lemma bytes_lt_neq a b : bytes_lt a b → a ≠ b.
Proof. intros H ->. by apply bytes_lt_irrefl in H. Qed.

Lemma bytes_ltb_lt a b : bytes_ltb a b = true ↔ bytes_lt a b.
Proof. unfold bytes_ltb, bytes_lt. destruct (bytes_cmp a b); split; done. Qed.
Lemma bytes_leb_le a b : bytes_leb a b = true ↔ bytes_le a b.
Proof. unfold bytes_leb, bytes_le. destruct (bytes_cmp a b); split; done. Qed.
Lemma bytes_leb_gt a b : bytes_leb a b = false ↔ bytes_lt b a.
Proof.
  rewrite <- bytes_nle_lt, <- bytes_leb_le. by destruct (bytes_leb a b).
Qed.
Lemma bytes_ltb_ge a b : bytes_ltb a b = false ↔ bytes_le b a.
Proof.
  rewrite <- bytes_nlt_le, <- bytes_ltb_lt. by destruct (bytes_ltb a b).
Qed.

Lemma bytes_nil_le a : bytes_le [] a.
Proof. by destruct a. Qed.

Lemma bytes_cmp_app_l p a b : bytes_cmp (p ++ a) (p ++ b) = bytes_cmp a b.
Proof. induction p; cbn; [done|]. by rewrite N.compare_refl. Qed.

(** Strings of one length compare as the big-endian integers they spell. *)
Lemma bytes_cmp_be_N a b :
  length a = length b → bytes_cmp a b = (be_N a ?= be_N b).
Proof.
  revert b. induction a as [|x a IH]; intros [|y b] Hl; try done.
  injection Hl as Hl. cbn [bytes_cmp be_N]. rewrite (IH b Hl), Hl.
  pose proof (be_N_bound a). pose proof (be_N_bound b). rewrite Hl in *.
  set (w := 256 ^ N.of_nat (length b)) in *.
  destruct (N.compare_spec (Byte.to_N x) (Byte.to_N y)) as [E|E|E].
  - rewrite E. destruct (N.compare_spec (be_N a) (be_N b)), (N.compare_spec (Byte.to_N y * w + be_N a) (Byte.to_N y * w + be_N b)); congruence || lia.
  - symmetry. apply N.compare_lt_iff. nia.
  - symmetry. apply N.compare_gt_iff. nia.
Qed.

Lemma bytes_cmp_u64 a b :
  is_u64 a → is_u64 b → bytes_cmp (u64_be a) (u64_be b) = (a ?= b).
Proof.
  intros. rewrite bytes_cmp_be_N by by rewrite !length_be_bytes.
  by rewrite !be_N_u64.
Qed.

(** * Lists *)

(** Strengthening a filter so that it drops an element it kept. *)
Lemma length_filter_strict {A} (P Q : A → Prop) `{∀ x, Decision (P x), ∀ x, Decision (Q x)}
    (l : list A) x :
  (∀ y, P y → Q y) → x ∈ l → Q x → ¬ P x → (length (filter P l) < length (filter Q l))%nat.
Proof.
  intros HPQ Hx HQ HP.
  assert (Hle : ∀ l : list A, (length (filter P l) ≤ length (filter Q l))%nat).
  { intros l'. induction l' as [|y l' IH]; [done|]. rewrite !filter_cons.
    repeat case_decide; cbn; try lia. naive_solver. }
  induction Hx as [z l|z y l Hx IH]; rewrite !filter_cons.
  - rewrite decide_False, decide_True by done. cbn. specialize (Hle l). lia.
  - specialize (IH HQ HP). repeat case_decide; cbn; try lia. naive_solver.
Qed.

(** Enough fuel for each of finitely many runs is enough for all of them. *)
Lemma uniform_fuel (P : nat → nat → Prop) n :
  (∀ i, (i < n)%nat → ∃ f, ∀ fuel, (f ≤ fuel)%nat → P i fuel) →
  ∃ f, ∀ i fuel, (i < n)%nat → (f ≤ fuel)%nat → P i fuel.
Proof.
  induction n as [|n IH]; intros HP; [exists 0%nat; lia|].
  destruct IH as [f Hf]; [intros i Hi; apply HP; lia|]. destruct (HP n) as [g Hg]; [lia|].
  exists (max f g). intros i fuel Hi Hle. destruct (decide (i = n)) as [->|]; [apply Hg; lia|apply Hf; lia].
Qed.

(** * Slices *)

(** [&buf[lo..hi]], for ranges the code has checked. *)
Definition slice {A} (lo hi : nat) (l : list A) : list A := take (hi - lo) (drop lo l).

Lemma length_slice {A} lo hi (l : list A) :
  (hi ≤ length l)%nat → length (slice lo hi l) = (hi - lo)%nat.
Proof. intros. unfold slice. rewrite length_take, length_drop. lia. Qed.

Lemma slice_app {A} (p m s : list A) :
  slice (length p) (length p + length m) (p ++ m ++ s) = m.
Proof.
  unfold slice. rewrite drop_app_length, Nat.add_comm, Nat.add_sub.
  apply take_app_length.
Qed.

Lemma slice_app' {A} lo hi (p m s : list A) :
  lo = length p → hi = (length p + length m)%nat → slice lo hi (p ++ m ++ s) = m.
Proof. intros -> ->. apply slice_app. Qed.

Lemma slice_suffix {A} lo hi (p m : list A) :
  lo = length p → hi = (length p + length m)%nat → slice lo hi (p ++ m) = m.
Proof. intros -> ->. rewrite <- (app_nil_r m) at 2. apply slice_app. Qed.

(** * Results ([engine::error]) *)

(** Human-readable payloads keep their literal text; interpolated values of a
    [format!] are dropped. *)
Inductive Error :=
  | Io (msg : string)
  | Corruption (msg : string)
  | InvalidArgument (msg : string)
  | Conflict (msg : string)
  | KeyIsLocked (msg : string).

Inductive Result (A : Type) :=
  | Ok (a : A)
  | Err (e : Error).
Arguments Ok {_} _.
Arguments Err {_} _.

#[export] Instance error_eq_dec : EqDecision Error.
Proof. solve_decision. Defined.
#[export] Instance result_mret : MRet Result := @Ok.
#[export] Instance result_mbind : MBind Result :=
  λ A B f r, match r with Ok a => f a | Err e => Err e end.
#[export] Instance result_fmap : FMap Result :=
  λ A B f r, match r with Ok a => Ok (f a) | Err e => Err e end.

Definition is_ok {A} (r : Result A) : bool := match r with Ok _ => true | Err _ => false end.
(** [Option::ok_or_else]. *)
Definition ok_or {A} (o : option A) (e : Error) : Result A :=
  match o with Some a => Ok a | None => Err e end.

Lemma result_bind_ok {A B} (f : A → Result B) r b :
  r ≫= f = Ok b ↔ ∃ a, r = Ok a ∧ f a = Ok b.
Proof.
  destruct r; cbn; split; [eauto| |done|]; intros (?&?&?); congruence.
Qed.
