(* ===== verification/Prog.v ===== *)
(** Programs that run beside others: a sequence of atomic steps on a shared state and of
    calls whose answers are awaited.

    The request handlers of a data node, its link to the placement driver and the client
    library are such programs.  Before each step the rest of the system moves ([env]);
    [answers] says what a call may answer, and in which state. *)

From stdpp Require Import base list numbers.
From S2P Require Import Prelude.

Inductive Prog {Call : Type} (Answer : Call → Type) (S A : Type) : Type :=
  | Ret (a : A)
  | Step {B : Type} (f : S → S * B) (k : B → Prog Answer S A)
  | Await (c : Call) (k : Answer c → Prog Answer S A).
Arguments Ret {_ _ _ _} _.
Arguments Step {_ _ _ _ _} _ _.
Arguments Await {_ _ _ _} _ _.

Section programs.
Context {Call : Type} {Answer : Call → Type} {S : Type}.

Fixpoint prog_bind {A B} (p : Prog Answer S A) (k : A → Prog Answer S B) : Prog Answer S B :=
  match p with
  | Ret a => k a
  | Step f k' => Step f (λ b, prog_bind (k' b) k)
  | Await c k' => Await c (λ a, prog_bind (k' a) k)
  end.
End programs.

(** A program that may return early with an error of [X]. *)
Definition Fallible {Call : Type} (Answer : Call → Type) (X S A : Type) : Type := Prog Answer S (X + A).

Section fallible.
Context {Call : Type} {Answer : Call → Type} {X S : Type}.

#[export] Instance fallible_ret : MRet (Fallible Answer X S) := λ A a, Ret (inr a).
#[export] Instance fallible_bind : MBind (Fallible Answer X S) := λ A B k p,
  prog_bind p (λ r, match r with inr a => k a | inl x => Ret (inl x) end).

Definition k_fail {A} (x : X) : Fallible Answer X S A := Ret (inl x).
Definition k_lift {A} (r : X + A) : Fallible Answer X S A := Ret r.
Definition k_step {A} (f : S → S * A) : Fallible Answer X S A := Step f (λ a, Ret (inr a)).
Definition k_look {A} (f : S → A) : Fallible Answer X S A := k_step (λ s, (s, f s)).
Definition p_await (c : Call) : Fallible Answer X S (Answer c) := Await c (λ a, Ret (inr a)).
End fallible.

(** * Executions *)

Section semantics.
Context {Call : Type} {Answer : Call → Type} {S : Type}.
Context (env : S → S → Prop) (answers : ∀ c : Call, S → Answer c → S → Prop).

(** Every execution of the program from the state ends in a result and a state of [Q]. *)
Fixpoint wp {A} (p : Prog Answer S A) (Q : A → S → Prop) (s : S) : Prop :=
  match p with
  | Ret a => Q a s
  | Step f k => ∀ s1, env s s1 → wp (k (f s1).2) Q (f s1).1
  | Await c k => ∀ s1 a s2, env s s1 → answers c s1 a s2 → wp (k a) Q s2
  end.

Lemma wp_mono {A} (p : Prog Answer S A) (Q Q' : A → S → Prop) s :
  (∀ a s, Q a s → Q' a s) → wp p Q s → wp p Q' s.
Proof.
  intros HQ. revert s. induction p as [a|B f k IH|c k IH]; intros s; cbn; [apply HQ|..].
  - intros Hw s1 He. apply IH. by apply Hw.
  - intros Hw s1 a s2 He Ha. eapply IH. by eapply Hw.
Qed.

Lemma wp_prog_bind {A B} (p : Prog Answer S A) (k : A → Prog Answer S B) (Q : B → S → Prop) s :
  wp (prog_bind p k) Q s ↔ wp p (λ a, wp (k a) Q) s.
Proof.
  revert s. induction p as [a|X f k' IH|c k' IH]; intros s; cbn; [done|..].
  - split; intros Hw s1 He; apply IH; by apply Hw.
  - split; intros Hw s1 a s2 He Ha; eapply IH; by eapply Hw.
Qed.

(** The rest of a program after a result or an error. *)
Definition then_ {X A B} (k : A → Fallible Answer X S B) (Q : X + B → S → Prop) (r : X + A) (s : S) : Prop :=
  match r with inr a => wp (k a) Q s | inl x => Q (inl x) s end.

Lemma wp_bind {X A B} (p : Fallible Answer X S A) (k : A → Fallible Answer X S B) (Q : X + B → S → Prop) s :
  wp (p ≫= k) Q s ↔ wp p (then_ k Q) s.
Proof.
  unfold mbind, fallible_bind. rewrite wp_prog_bind. split; apply wp_mono; by intros [x|a] s'.
Qed.

Lemma wp_step {X A} (f : S → S * A) (Q : X + A → S → Prop) s :
  (∀ s1, env s s1 → Q (inr (f s1).2) (f s1).1) → wp (k_step f : Fallible Answer X S A) Q s.
Proof. done. Qed.

Lemma wp_look {X A} (f : S → A) (Q : X + A → S → Prop) s :
  (∀ s1, env s s1 → Q (inr (f s1)) s1) → wp (k_look f : Fallible Answer X S A) Q s.
Proof. done. Qed.

(** Some execution of the program from the state ends so. *)
Fixpoint may {A} (p : Prog Answer S A) (s : S) (r : A) (s' : S) : Prop :=
  match p with
  | Ret a => r = a ∧ s' = s
  | Step f k => ∃ s1, env s s1 ∧ may (k (f s1).2) (f s1).1 r s'
  | Await c k => ∃ s1 a s2, env s s1 ∧ answers c s1 a s2 ∧ may (k a) s2 r s'
  end.

Lemma may_wp {A} (p : Prog Answer S A) (Q : A → S → Prop) s r s' : may p s r s' → wp p Q s → Q r s'.
Proof.
  revert s. induction p as [a|B f k IH|c k IH]; intros s; cbn.
  - by intros [-> ->].
  - intros (s1 & He & Hm) Hw. by eapply IH, Hw.
  - intros (s1 & a & s2 & He & Ha & Hm) Hw. by eapply IH, (Hw s1 a s2).
Qed.

(** An execution in which nothing else moves, and [oracle] answers the calls. *)
Fixpoint run (oracle : ∀ c : Call, S → option (S * Answer c)) {A} (p : Prog Answer S A) (s : S) : option (S * A) :=
  match p with
  | Ret a => Some (s, a)
  | Step f k => let '(s, b) := f s in run oracle (k b) s
  | Await c k => '(s, a) ← oracle c s; run oracle (k a) s
  end.

Lemma run_may oracle {A} (p : Prog Answer S A) s s' a :
  (∀ s, env s s) → (∀ c s s' x, oracle c s = Some (s', x) → answers c s x s') →
  run oracle p s = Some (s', a) → may p s a s'.
Proof.
  intros He Ha. revert s. induction p as [x|B f k IH|c k IH]; intros s; cbn.
  - by intros [= <- <-].
  - intros Hr. exists s. split; [done|]. destruct (f s) as [s1 b]. by apply IH.
  - destruct (oracle c s) as [[s1 x]|] eqn:Ho; [|done]. cbn. intros Hr. exists s, x, s1. auto.
Qed.

Lemma run_wp oracle {A} (p : Prog Answer S A) s s' a (Q : A → S → Prop) :
  (∀ s, env s s) → (∀ c s s' x, oracle c s = Some (s', x) → answers c s x s') →
  run oracle p s = Some (s', a) → wp p Q s → Q a s'.
Proof.
  intros He Ha Hr. eapply may_wp, run_may; [apply He|apply Ha|exact Hr].
Qed.
End semantics.
