(* ===== verification/Crc.v ===== *)
(** CRC-32C.

    The [crc32c] crate is third-party code: the storage formats are parametric
    in the checksum function, of which only its type ([-> u32]) is used.
    [crc32c_castagnoli] computes the published polynomial and serves as the
    concrete instance. *)

From stdpp Require Import base list numbers.
From Stdlib Require Import Strings.Byte.
From S2P Require Import Prelude.

Class Crc32c := crc32c : bytes → N.

Class Crc32cLaws `{Crc32c} : Prop := {
  crc32c_u32 b : is_u32 (crc32c b);
}.

(** The four-byte trailer [crc.to_be_bytes()] decodes to the checksum. *)
Lemma be_N_crc `{Crc32cLaws} b : be_N (u32_be (crc32c b)) = crc32c b.
Proof. apply be_N_u32, crc32c_u32. Qed.

(** * Reference instance: reflected polynomial 0x82F63B78 *)

Definition crc_bit (c : N) : N :=
  if N.odd c then N.lxor (N.div2 c) 0x82f63b78 else N.div2 c.
Definition crc_byte (c : N) (b : byte) : N :=
  Nat.iter 8 crc_bit (N.lxor c (Byte.to_N b)).
Definition crc32c_castagnoli (b : bytes) : N :=
  as_u32 (N.lxor (fold_left crc_byte b 4294967295) 4294967295).

#[export] Instance crc32c_instance : Crc32c := crc32c_castagnoli.
#[export] Instance crc32c_instance_laws : Crc32cLaws.
Proof. split. intros b. apply as_u32_bound. Qed.

(** The check value of the CRC catalogue, over the digits "123456789". *)
Example crc32c_check :
  crc32c_castagnoli [x31;x32;x33;x34;x35;x36;x37;x38;x39] = 0xe3069283.
Proof. vm_compute. reflexivity. Qed.
