(* ===== verification/Encoding.v ===== *)
(** Low-level encodings shared by the WAL, the SSTables and the key codecs
    ([engine/src/encoding.rs]): descending timestamps and [u32]-length-prefixed
    byte strings. *)

From stdpp Require Import base list numbers.
From S2P Require Import Prelude.

(** * Descending timestamps *)

Definition TS_LEN : nat := 8.

Definition encode_ts (ts : N) : bytes := u64_be (u64_max - ts).

(** Called on slices of exactly [TS_LEN] bytes only ([copy_from_slice]). *)
Definition decode_ts (b : bytes) : N := u64_max - be_N b.

Lemma length_encode_ts ts : length (encode_ts ts) = 8%nat.
Proof. apply length_be_bytes. Qed.

Lemma decode_encode_ts ts : is_u64 ts → decode_ts (encode_ts ts) = ts.
Proof.
  intros H. unfold decode_ts, encode_ts. rewrite be_N_u64; unfold u64_max in *; lia.
Qed.

Lemma encode_decode_ts b : length b = 8%nat → encode_ts (decode_ts b) = b.
Proof.
  intros H. pose proof (be_N_u64_bound b H). unfold encode_ts, decode_ts.
  replace (u64_max - (u64_max - be_N b)) with (be_N b) by lia. by apply u64_be_be_N.
Qed.

Lemma decode_ts_bound b : is_u64 (decode_ts b).
Proof. unfold decode_ts, u64_max. lia. Qed.

(** Newer timestamps sort first. *)
Lemma encode_ts_cmp a b :
  is_u64 a → is_u64 b → bytes_cmp (encode_ts a) (encode_ts b) = (b ?= a).
Proof.
  intros. unfold encode_ts. rewrite bytes_cmp_u64 by (unfold u64_max in *; lia).
  destruct (N.compare_spec b a), (N.compare_spec (u64_max - a) (u64_max - b));
    done || lia.
Qed.

(** * Length-prefixed byte strings *)

Definition put_length_prefixed (buf b : bytes) : bytes :=
  buf ++ u32_be (as_u32 (N.of_nat (length b))) ++ b.

(** The cursor [*pos] is threaded: [Some (slice, pos')], or [None] with the
    cursor unmoved. *)
Definition get_length_prefixed (buf : bytes) (pos : nat) : option (bytes * nat) :=
  let start := pos in
  if (length buf <? start + 4)%nat then None else
  let len := N.to_nat (be_N (slice start (start + 4) buf)) in
  let data_start := (start + 4)%nat in
  let data_end := (data_start + len)%nat in
  if (length buf <? data_end)%nat then None else
  Some (slice data_start data_end buf, data_end).

(** What [put_length_prefixed] appends. *)
Definition lp (b : bytes) : bytes := u32_be (as_u32 (N.of_nat (length b))) ++ b.

Lemma put_length_prefixed_lp buf b : put_length_prefixed buf b = buf ++ lp b.
Proof. done. Qed.

Lemma length_lp b : length (lp b) = (4 + length b)%nat.
Proof. unfold lp. by rewrite length_app, length_be_bytes. Qed.

(** A byte string whose length the [u32] prefix can hold. *)
Definition fits (b : bytes) : Prop := is_u32 (N.of_nat (length b)).

Lemma be_N_lp_len b : fits b →
  N.to_nat (be_N (u32_be (as_u32 (N.of_nat (length b))))) = length b.
Proof. intros H. rewrite as_u32_id, be_N_u32 by done. lia. Qed.

Lemma get_put_length_prefixed p b s : fits b →
  get_length_prefixed (p ++ lp b ++ s) (length p)
  = Some (b, (length p + 4 + length b)%nat).
Proof.
  intros Hf. unfold get_length_prefixed.
  assert (Hl : length (p ++ lp b ++ s) = (length p + (4 + length b) + length s)%nat)
    by (rewrite !length_app, length_lp; lia).
  destruct (Nat.ltb_spec (length (p ++ lp b ++ s)) (length p + 4)); [lia|].
  assert (slice (length p) (length p + 4) (p ++ lp b ++ s)
    = u32_be (as_u32 (N.of_nat (length b)))) as ->.
  { unfold lp. rewrite <- app_assoc. apply slice_app'; [done|].
    by rewrite length_be_bytes. }
  rewrite be_N_lp_len by done.
  destruct (Nat.ltb_spec (length (p ++ lp b ++ s)) (length p + 4 + length b)); [lia|].
  do 2 f_equal. unfold lp. rewrite <- app_assoc, (app_assoc p).
  apply slice_app'; rewrite length_app, length_be_bytes; lia.
Qed.

(** A cut anywhere inside the last prefixed string is detected. *)
Lemma get_length_prefixed_torn p b n :
  fits b → (n < length (lp b))%nat →
  get_length_prefixed (p ++ take n (lp b)) (length p) = None.
Proof.
  intros Hf Hn. unfold get_length_prefixed. rewrite length_lp in Hn.
  assert (Hl : length (p ++ take n (lp b)) = (length p + n)%nat)
    by (rewrite length_app, length_take, length_lp; lia).
  destruct (Nat.ltb_spec (length (p ++ take n (lp b))) (length p + 4)); [done|].
  assert (slice (length p) (length p + 4) (p ++ take n (lp b))
    = u32_be (as_u32 (N.of_nat (length b)))) as ->.
  { unfold slice. rewrite drop_app_length, take_take. unfold lp.
    rewrite take_app_le by (rewrite length_be_bytes; lia).
    apply take_ge. rewrite length_be_bytes. lia. }
  rewrite be_N_lp_len by done.
  by destruct (Nat.ltb_spec (length (p ++ take n (lp b))) (length p + 4 + length b)); [|lia].
Qed.

(** The cursor only advances, and stays inside the buffer. *)
Lemma get_length_prefixed_pos buf pos b pos' :
  get_length_prefixed buf pos = Some (b, pos') →
  (pos + 4 ≤ pos')%nat ∧ (pos' ≤ length buf)%nat ∧ length b = (pos' - pos - 4)%nat.
Proof.
  unfold get_length_prefixed. intros H.
  destruct (Nat.ltb_spec (length buf) (pos + 4)); [done|].
  destruct (Nat.ltb_spec (length buf)
    (pos + 4 + N.to_nat (be_N (slice pos (pos + 4) buf)))); [done|].
  injection H as <- <-. rewrite length_slice by lia. lia.
Qed.
