(* ===== verification/Keys.v ===== *)
(** Column families and the MVCC key/value codecs ([engine/src/keys.rs]). *)

From stdpp Require Import base list numbers.
From Stdlib Require Import Strings.Byte.
From S2P Require Import Prelude Encoding.

(** * Column families *)

Inductive Cf := CfDefault | CfWrite | CfLock.

#[export] Instance cf_eq_dec : EqDecision Cf.
Proof. solve_decision. Defined.

(** [cf as u8]. *)
Definition cf_u8 (cf : Cf) : byte :=
  match cf with CfDefault => x00 | CfWrite => x01 | CfLock => x02 end.

Definition Cf_from_u8 (v : byte) : option Cf :=
  match v with
  | x00 => Some CfDefault
  | x01 => Some CfWrite
  | x02 => Some CfLock
  | _ => None
  end.

Definition Cf_ALL : list Cf := [CfDefault; CfWrite; CfLock].

Lemma Cf_from_to_u8 cf : Cf_from_u8 (cf_u8 cf) = Some cf.
Proof. by destruct cf. Qed.

(** * Data keys: [user_key ‖ encode_ts ts] *)

Definition encode_data_key (user_key : bytes) (ts : N) : bytes :=
  user_key ++ encode_ts ts.

Definition decode_data_key (key : bytes) : option (bytes * N) :=
  if (length key <? TS_LEN)%nat then None else
  let split := (length key - TS_LEN)%nat in
  Some (take split key, decode_ts (drop split key)).

Lemma length_encode_data_key uk ts :
  length (encode_data_key uk ts) = (length uk + 8)%nat.
Proof. unfold encode_data_key. by rewrite length_app, length_encode_ts. Qed.

Lemma decode_encode_data_key uk ts :
  is_u64 ts → decode_data_key (encode_data_key uk ts) = Some (uk, ts).
Proof.
  intros H. unfold decode_data_key. rewrite length_encode_data_key.
  unfold TS_LEN. destruct (Nat.ltb_spec (length uk + 8) 8); [lia|].
  rewrite Nat.add_sub. unfold encode_data_key.
  by rewrite take_app_length, drop_app_length, decode_encode_ts.
Qed.

Lemma encode_decode_data_key k uk ts :
  decode_data_key k = Some (uk, ts) → k = encode_data_key uk ts ∧ is_u64 ts.
Proof.
  unfold decode_data_key, TS_LEN. destruct (Nat.ltb_spec (length k) 8); [done|].
  intros [= <- <-]. split; [|apply decode_ts_bound].
  unfold encode_data_key. rewrite encode_decode_ts; [by rewrite take_drop|].
  rewrite length_drop. lia.
Qed.

Lemma encode_data_key_inj uk1 ts1 uk2 ts2 :
  is_u64 ts1 → is_u64 ts2 →
  encode_data_key uk1 ts1 = encode_data_key uk2 ts2 → uk1 = uk2 ∧ ts1 = ts2.
Proof.
  intros H1 H2 E. apply (f_equal decode_data_key) in E.
  rewrite !decode_encode_data_key in E by done. by injection E.
Qed.

(** Versions of one user key sort newest first. *)
Lemma encode_data_key_cmp uk a b :
  is_u64 a → is_u64 b →
  bytes_cmp (encode_data_key uk a) (encode_data_key uk b) = (b ?= a).
Proof.
  intros. unfold encode_data_key. rewrite bytes_cmp_app_l. by apply encode_ts_cmp.
Qed.

(** * Write-CF values *)

Definition encode_write_value (start_ts : N) : bytes := u64_be start_ts.

Definition decode_write_value (b : bytes) : option N :=
  if (length b =? 8)%nat then Some (be_N b) else None.

Lemma decode_encode_write_value ts :
  is_u64 ts → decode_write_value (encode_write_value ts) = Some ts.
Proof.
  intros. unfold decode_write_value, encode_write_value.
  by rewrite length_be_bytes, be_N_u64.
Qed.

(** * Default-CF values *)

Inductive Value := VPut (v : bytes) | VDelete.

#[export] Instance value_eq_dec : EqDecision Value.
Proof. solve_decision. Defined.

Definition VTAG_PUT : byte := x00.
Definition VTAG_DELETE : byte := x01.

Definition Value_encode (v : Value) : bytes :=
  match v with
  | VPut v => VTAG_PUT :: v
  | VDelete => [VTAG_DELETE]
  end.

Definition Value_decode (b : bytes) : option Value :=
  match b with
  | x00 :: rest => Some (VPut rest)
  | x01 :: _ => Some VDelete
  | _ => None
  end.

Definition Value_is_delete (v : Value) : bool :=
  match v with VDelete => true | VPut _ => false end.

Definition Value_into_option (v : Value) : option bytes :=
  match v with VPut v => Some v | VDelete => None end.

Lemma Value_decode_encode v : Value_decode (Value_encode v) = Some v.
Proof. by destruct v. Qed.

(** * Locks *)

Inductive LockKind := LockPut | LockDelete.

#[export] Instance lockkind_eq_dec : EqDecision LockKind.
Proof. solve_decision. Defined.

Definition lockkind_u8 (k : LockKind) : byte :=
  match k with LockPut => x00 | LockDelete => x01 end.

Record Lock := mkLock {
  lock_primary : bytes;
  lock_start_ts : N;
  lock_ttl : N;
  lock_kind : LockKind;
}.

#[export] Instance lock_eq_dec : EqDecision Lock.
Proof. solve_decision. Defined.

Definition Lock_encode (l : Lock) : bytes :=
  let out := [lockkind_u8 (lock_kind l)] in
  let out := out ++ u64_be (lock_start_ts l) in
  let out := out ++ u64_be (lock_ttl l) in
  put_length_prefixed out (lock_primary l).

Definition Lock_decode (b : bytes) : option Lock :=
  if (length b <? 1 + 8 + 8)%nat then None else
  kind ← match head b with
         | Some x00 => Some LockPut
         | Some x01 => Some LockDelete
         | _ => None
         end;
  let start_ts := be_N (slice 1 9 b) in
  let ttl := be_N (slice 9 17 b) in
  '(primary, _) ← get_length_prefixed b 17;
  Some (mkLock primary start_ts ttl kind).

Definition Lock_is_primary (l : Lock) (this_key : bytes) : bool :=
  bool_decide (lock_primary l = this_key).

(** Field widths a [Lock] value of the program always has. *)
Definition lock_wf (l : Lock) : Prop :=
  is_u64 (lock_start_ts l) ∧ is_u64 (lock_ttl l) ∧ fits (lock_primary l).

(** Decoding inverts encoding, also with bytes after the record. *)
Lemma Lock_decode_encode_app l s :
  lock_wf l → Lock_decode (Lock_encode l ++ s) = Some l.
Proof.
  intros (Hs & Ht & Hp). unfold Lock_decode, Lock_encode.
  rewrite put_length_prefixed_lp. set (k := [lockkind_u8 (lock_kind l)]).
  set (a := u64_be (lock_start_ts l)). set (t := u64_be (lock_ttl l)).
  assert (Ha : length a = 8%nat) by apply length_be_bytes.
  assert (Ht' : length t = 8%nat) by apply length_be_bytes.
  replace ((((k ++ a) ++ t) ++ lp (lock_primary l)) ++ s)
    with (k ++ a ++ t ++ lp (lock_primary l) ++ s) by by rewrite <- !app_assoc.
  destruct (Nat.ltb_spec (length (k ++ a ++ t ++ lp (lock_primary l) ++ s)) (1 + 8 + 8))
    as [H|H]; [rewrite !length_app in H; cbn in H; lia|].
  rewrite (slice_app' 1 9 k a) by (cbn; lia).
  assert (slice 9 17 (k ++ a ++ t ++ lp (lock_primary l) ++ s) = t) as ->.
  { rewrite (app_assoc k). apply slice_app'; rewrite length_app; cbn; lia. }
  assert (get_length_prefixed (k ++ a ++ t ++ lp (lock_primary l) ++ s) 17
    = Some (lock_primary l, (17 + 4 + length (lock_primary l))%nat)) as ->.
  { pose proof (get_put_length_prefixed (k ++ a ++ t) (lock_primary l) s Hp) as G.
    rewrite !length_app, <- !app_assoc in G. by rewrite Ha, Ht' in G. }
  unfold a, t. rewrite !be_N_u64 by done. by destruct l as [? ? ? []].
Qed.

Lemma Lock_decode_encode l : lock_wf l → Lock_decode (Lock_encode l) = Some l.
Proof. intros H. rewrite <- (app_nil_r (Lock_encode l)). by apply Lock_decode_encode_app. Qed.

Lemma Lock_decode_start b l : Lock_decode b = Some l → is_u64 (lock_start_ts l).
Proof.
  unfold Lock_decode. destruct (Nat.ltb_spec (length b) (1 + 8 + 8)) as [|Hl]; [done|].
  intros Hd. apply bind_Some in Hd as (k & _ & Hd). apply bind_Some in Hd as ([p n] & _ & Hd).
  injection Hd as <-. cbn [lock_start_ts].
  pose proof (be_N_bound (slice 1 9 b)) as Hb. rewrite length_slice in Hb by lia.
  change (256 ^ N.of_nat (9 - 1)) with 18446744073709551616 in Hb. unfold u64_max. lia.
Qed.
