(* ===== verification/Batch.v ===== *)
(** [WriteBatch], the engine's unit of atomicity, and its serialized body
    ([engine/src/batch.rs]). *)

From stdpp Require Import base list numbers.
From Stdlib Require Import Strings.Byte.
From S2P Require Import Prelude Encoding Keys.

Inductive WriteOp :=
  | WPut (cf : Cf) (key value : bytes)
  | WDelete (cf : Cf) (key : bytes).

#[export] Instance writeop_eq_dec : EqDecision WriteOp.
Proof. solve_decision. Defined.

Definition op_cf (op : WriteOp) : Cf :=
  match op with WPut cf _ _ | WDelete cf _ => cf end.
Definition op_key (op : WriteOp) : bytes :=
  match op with WPut _ k _ | WDelete _ k => k end.
Definition op_approx_size (op : WriteOp) : nat :=
  match op with
  | WPut _ k v => length k + length v + 16
  | WDelete _ k => length k + 16
  end%nat.

Record WriteBatch := mkBatch { ops : list WriteOp }.

#[export] Instance batch_eq_dec : EqDecision WriteBatch.
Proof. solve_decision. Defined.

Definition batch_new : WriteBatch := mkBatch [].
Definition batch_put (b : WriteBatch) (cf : Cf) (key value : bytes) : WriteBatch :=
  mkBatch (ops b ++ [WPut cf key value]).
Definition batch_delete (b : WriteBatch) (cf : Cf) (key : bytes) : WriteBatch :=
  mkBatch (ops b ++ [WDelete cf key]).
Definition batch_is_empty (b : WriteBatch) : bool :=
  match ops b with [] => true | _ => false end.
Definition batch_len (b : WriteBatch) : nat := length (ops b).
Definition batch_approx_size (b : WriteBatch) : nat :=
  sum_list (op_approx_size <$> ops b).

(** * Codec *)

Definition encode_op (buf : bytes) (op : WriteOp) : bytes :=
  match op with
  | WPut cf key value =>
    let buf := buf ++ [x00] in
    let buf := buf ++ [cf_u8 cf] in
    let buf := put_length_prefixed buf key in
    put_length_prefixed buf value
  | WDelete cf key =>
    let buf := buf ++ [x01] in
    let buf := buf ++ [cf_u8 cf] in
    put_length_prefixed buf key
  end.

Definition batch_encode (b : WriteBatch) : bytes :=
  fold_left encode_op (ops b) (u32_be (as_u32 (N.of_nat (length (ops b))))).

(** One iteration of the decoding loop: the operation at [pos] and the cursor
    after it. *)
Definition decode_op (buf : bytes) (pos : nat) : option (WriteOp * nat) :=
  op_tag ← buf !! pos;
  let pos := S pos in
  cfb ← buf !! pos;
  cf ← Cf_from_u8 cfb;
  let pos := S pos in
  '(key, pos) ← get_length_prefixed buf pos;
  match op_tag with
  | x00 => '(value, pos) ← get_length_prefixed buf pos; Some (WPut cf key value, pos)
  | x01 => Some (WDelete cf key, pos)
  | _ => None
  end.

Fixpoint decode_ops (buf : bytes) (pos : nat) (count : nat) : option (list WriteOp) :=
  match count with
  | O => Some []
  | S n =>
    '(op, pos) ← decode_op buf pos;
    rest ← decode_ops buf pos n;
    Some (op :: rest)
  end.

Definition batch_decode (buf : bytes) : option WriteBatch :=
  if (length buf <? 4)%nat then None else
  let count := N.to_nat (be_N (slice 0 4 buf)) in
  l ← decode_ops buf 4 count;
  Some (mkBatch l).

(** * Round trip *)

(** Byte string of one operation. *)
Definition op_bytes (op : WriteOp) : bytes := encode_op [] op.

Definition op_wf (op : WriteOp) : Prop :=
  match op with
  | WPut _ k v => fits k ∧ fits v
  | WDelete _ k => fits k
  end.

(** Sizes the [u32] counters can hold: at most [u32::MAX] operations, keys and
    values below 4 GiB. *)
Definition batch_wf (b : WriteBatch) : Prop :=
  is_u32 (N.of_nat (length (ops b))) ∧ Forall op_wf (ops b).

Lemma encode_op_app buf op : encode_op buf op = buf ++ op_bytes op.
Proof.
  destruct op; unfold op_bytes, encode_op, put_length_prefixed;
    by rewrite <- !app_assoc, ?app_nil_l, <- ?app_assoc.
Qed.

Lemma fold_encode_op l buf : fold_left encode_op l buf = buf ++ concat (op_bytes <$> l).
Proof.
  revert buf. induction l as [|op l IH]; intros buf; cbn; [by rewrite app_nil_r|].
  by rewrite IH, encode_op_app, <- app_assoc.
Qed.

Lemma length_op_bytes_pos op : (6 ≤ length (op_bytes op))%nat.
Proof.
  destruct op; unfold op_bytes, encode_op, put_length_prefixed;
    rewrite !length_app, ?length_be_bytes; cbn; lia.
Qed.

Lemma decode_op_bytes p op s : op_wf op →
  decode_op (p ++ op_bytes op ++ s) (length p)
  = Some (op, (length p + length (op_bytes op))%nat).
Proof.
  intros Hwf. unfold decode_op.
  set (t := match op with WPut _ _ _ => x00 | WDelete _ _ => x01 end).
  set (tail := match op with WPut _ k v => lp k ++ lp v | WDelete _ k => lp k end).
  assert (E : op_bytes op = t :: cf_u8 (op_cf op) :: tail).
  { destruct op; unfold op_bytes, encode_op, put_length_prefixed, t, tail, lp; cbn [op_cf];
      by rewrite <- !app_assoc. }
  rewrite E. cbn [app].
  rewrite (list_lookup_middle p _ t (length p) eq_refl). cbn [mbind option_bind].
  change (t :: cf_u8 (op_cf op) :: tail ++ s) with ([t] ++ cf_u8 (op_cf op) :: (tail ++ s)).
  rewrite (app_assoc p), (list_lookup_middle (p ++ [t]) _ _ (S (length p)))
    by (rewrite length_app; cbn; lia).
  cbn [mbind option_bind]. rewrite Cf_from_to_u8. cbn [mbind option_bind].
  change (cf_u8 (op_cf op) :: tail ++ s) with ([cf_u8 (op_cf op)] ++ (tail ++ s)).
  rewrite (app_assoc (p ++ [t])). set (q := (p ++ [t]) ++ [cf_u8 (op_cf op)]).
  assert (Hq : S (S (length p)) = length q)
    by (unfold q; rewrite !length_app; cbn; lia).
  rewrite Hq. destruct op as [cf k v|cf k]; cbn [op_wf] in Hwf; unfold t, tail in *; cbn [op_cf].
  - destruct Hwf as [Hk Hv]. rewrite <- (app_assoc (lp k)).
    rewrite get_put_length_prefixed by done. cbn [mbind option_bind].
    rewrite (app_assoc q). replace (length q + 4 + length k)%nat with (length (q ++ lp k))
      by (rewrite length_app, length_lp; lia).
    rewrite get_put_length_prefixed by done. cbn [mbind option_bind]. do 2 f_equal.
    cbn [length]. rewrite !length_app, !length_lp. lia.
  - rewrite get_put_length_prefixed by done. cbn [mbind option_bind]. do 2 f_equal. cbn [length]. rewrite length_lp. lia.
Qed.

Lemma decode_ops_bytes l p s : Forall op_wf l →
  decode_ops (p ++ concat (op_bytes <$> l) ++ s) (length p) (length l) = Some l.
Proof.
  intros H. revert p. induction H as [|op l Hop Hl IH]; intros p; [done|].
  cbn [fmap list_fmap concat length decode_ops]. rewrite <- app_assoc, decode_op_bytes by done.
  cbn. rewrite <- length_app, (app_assoc p). by rewrite IH.
Qed.

Lemma batch_decode_encode_app b s :
  batch_wf b → batch_decode (batch_encode b ++ s) = Some b.
Proof.
  intros [Hn Hl]. destruct b as [l]. cbn [ops] in *. unfold batch_decode, batch_encode.
  cbn [ops]. rewrite fold_encode_op, <- app_assoc. set (h := u32_be _).
  assert (Hh : length h = 4%nat) by apply length_be_bytes.
  destruct (Nat.ltb_spec (length (h ++ concat (op_bytes <$> l) ++ s)) 4) as [H|H];
    [rewrite length_app in H; lia|].
  assert (slice 0 4 (h ++ concat (op_bytes <$> l) ++ s) = h) as ->.
  { apply (slice_app' 0 4 [] h); [done|]. cbn. lia. }
  assert (be_N h = N.of_nat (length l)) as ->.
  { unfold h. by rewrite as_u32_id, be_N_u32. }
  rewrite Nat2N.id, <- Hh. by rewrite decode_ops_bytes.
Qed.

Lemma batch_decode_encode b : batch_wf b → batch_decode (batch_encode b) = Some b.
Proof.
  intros H. rewrite <- (app_nil_r (batch_encode b)). by apply batch_decode_encode_app.
Qed.
