(* ===== verification/OrdMap.v ===== *)
(** Key-ordered association lists, and the interface of the ordered map the
    memtable is built on.

    [crossbeam_skiplist::SkipMap] is a third-party container: the model is
    parametric in it.  [SkipMap] lists the operations [engine/src/memtable.rs]
    calls, [SkipMapLaws] their documented behaviour (an ordered map), and
    [gmap_skipmap] is an instance satisfying them. *)

From stdpp Require Import base list numbers gmap sorting.
From S2P Require Import Prelude.

(** * Key-ordered association lists *)

Section assoc.
Context {V : Type}.
Implicit Types (l : list (bytes * V)) (k from : bytes).

(** Strictly increasing keys. *)
Definition ksorted l : Prop := StronglySorted (λ a b, bytes_lt a.1 b.1) l.

Fixpoint alookup k l : option V :=
  match l with
  | [] => None
  | (k', v) :: t => if decide (k = k') then Some v else alookup k t
  end.

(** First entry with key [>= from]. *)
Fixpoint lower_bound from l : option (bytes * V) :=
  match l with
  | [] => None
  | (k, v) :: t => if bytes_leb from k then Some (k, v) else lower_bound from t
  end.

Lemma alookup_elem k v l : alookup k l = Some v → (k, v) ∈ l.
Proof.
  induction l as [|[k' v'] l IH]; cbn; [done|]. case_decide.
  - intros [= ->]. subst. left.
  - right. auto.
Qed.

Lemma ksorted_cons k v l :
  ksorted ((k, v) :: l) ↔ ksorted l ∧ ∀ k' v', (k', v') ∈ l → bytes_lt k k'.
Proof.
  unfold ksorted. split.
  - intros H. apply StronglySorted_inv in H as [H1 H2]. split; [done|].
    intros k' v' Hin. rewrite Forall_forall in H2. by apply (H2 (k', v')).
  - intros [H1 H2]. constructor; [done|]. apply Forall_forall. intros [k' v'] Hin.
    eapply H2. eauto.
Qed.

Lemma ksorted_app l1 l2 :
  ksorted (l1 ++ l2) ↔
  ksorted l1 ∧ ksorted l2 ∧
  ∀ k1 v1 k2 v2, (k1, v1) ∈ l1 → (k2, v2) ∈ l2 → bytes_lt k1 k2.
Proof.
  induction l1 as [|[k v] l1 IH]; cbn.
  - split; [|naive_solver]. intros. split_and!; [constructor|done|].
    intros ???? Hin. by apply elem_of_nil in Hin.
  - rewrite !ksorted_cons, IH. split.
    + intros [(H1 & H2 & H3) H4]. split_and!; try done.
      * intros k' v' Hin. eapply H4. rewrite elem_of_app. eauto.
      * intros k1 v1 k2 v2 Hin1 Hin2; apply elem_of_cons in Hin1 as [Heq|Hin]; [|eauto].
        injection Heq as -> ->. eapply H4. rewrite elem_of_app. eauto.
    + intros ([H1 H2] & H3 & H4). split_and!; try done.
      * intros. eapply H4; [right|]; eauto.
      * intros k' v' [Hin|Hin]%elem_of_app; [eauto|]. eapply H4; [left|]; eauto.
Qed.

Lemma alookup_sorted k v l : ksorted l → (k, v) ∈ l → alookup k l = Some v.
Proof.
  induction l as [|[k' v'] l IH]; cbn; intros Hs Hin; [by apply elem_of_nil in Hin|].
  apply ksorted_cons in Hs as [Hs Hlt]. apply elem_of_cons in Hin as [[= <- <-]|Hin].
  - by rewrite decide_True.
  - rewrite decide_False; [auto|]. intros ->. by apply Hlt, bytes_lt_irrefl in Hin.
Qed.

Lemma alookup_app k l1 l2 :
  alookup k (l1 ++ l2) = match alookup k l1 with Some v => Some v | None => alookup k l2 end.
Proof. induction l1 as [|[k' v'] l1 IH]; cbn; [done|]. by case_decide. Qed.

Lemma alookup_None k l : alookup k l = None ↔ ∀ v, (k, v) ∉ l.
Proof.
  induction l as [|[k' v'] l IH]; cbn.
  - split; [|done]. intros _ v Hin. by apply elem_of_nil in Hin.
  - case_decide as E.
    + subst. split; [done|]. intros H. destruct (H v'). left.
    + rewrite IH. split; intros H v Hin.
      * apply elem_of_cons in Hin as [[= -> ->]|Hin]; [done|]. by eapply H.
      * apply (H v). by right.
Qed.

Lemma lower_bound_Some from l k v :
  lower_bound from l = Some (k, v) → (k, v) ∈ l ∧ bytes_le from k.
Proof.
  induction l as [|[k' v'] l IH]; cbn; [done|].
  destruct (bytes_leb from k') eqn:E.
  - intros [= -> ->]. split; [left|]. by apply bytes_leb_le.
  - intros H. destruct (IH H). split; [by right|done].
Qed.

Lemma lower_bound_least from l k v k' v' :
  ksorted l → lower_bound from l = Some (k, v) →
  (k', v') ∈ l → bytes_le from k' → bytes_le k k'.
Proof.
  induction l as [|[k0 v0] l IH]; cbn; [done|]. intros Hs Hl Hin Hle.
  apply ksorted_cons in Hs as [Hs Hlt].
  destruct (bytes_leb from k0) eqn:E.
  - injection Hl as -> ->. apply elem_of_cons in Hin as [[= -> ->]|Hin].
    + apply bytes_le_refl.
    + apply bytes_lt_le. eauto.
  - apply elem_of_cons in Hin as [[= -> ->]|Hin]; [|eauto].
    apply bytes_leb_le in Hle. congruence.
Qed.

Lemma lower_bound_None from l k v :
  lower_bound from l = None → (k, v) ∈ l → bytes_lt k from.
Proof.
  induction l as [|[k0 v0] l IH]; cbn; intros Hl Hin; [by apply elem_of_nil in Hin|].
  destruct (bytes_leb from k0) eqn:E; [done|].
  apply elem_of_cons in Hin as [[= -> ->]|Hin]; [|eauto].
  by apply bytes_leb_gt.
Qed.

Lemma lower_bound_app from l1 l2 :
  lower_bound from (l1 ++ l2) =
  match lower_bound from l1 with Some e => Some e | None => lower_bound from l2 end.
Proof.
  induction l1 as [|[k v] l1 IH]; cbn; [done|]. by destruct (bytes_leb from k).
Qed.

Lemma lower_bound_skip from l :
  (∀ k v, (k, v) ∈ l → bytes_lt k from) → lower_bound from l = None.
Proof.
  induction l as [|[k v] l IH]; cbn; intros H; [done|].
  rewrite IH by (intros; eapply H; by right).
  assert (bytes_leb from k = false) as -> by (apply bytes_leb_gt; eapply H; left).
  done.
Qed.

(** A sorted list is determined by its lookups. *)
Lemma ksorted_ext l1 l2 :
  ksorted l1 → ksorted l2 → (∀ k, alookup k l1 = alookup k l2) → l1 = l2.
Proof.
  revert l2. induction l1 as [|[k1 v1] l1 IH]; intros [|[k2 v2] l2] S1 S2 H.
  - done.
  - specialize (H k2). cbn in H. by rewrite decide_True in H.
  - specialize (H k1). cbn in H. by rewrite decide_True in H.
  - apply ksorted_cons in S1 as [S1 L1], S2 as [S2 L2].
    assert (k1 = k2) as ->.
    { assert (Hm : ∀ ka va la kb vb lb,
        (∀ k' v', (k', v') ∈ la → bytes_lt ka k') →
        (∀ k, alookup k ((ka, va) :: la) = alookup k ((kb, vb) :: lb)) →
        bytes_le ka kb).
      { intros ka va la kb vb lb Hlt Ha. specialize (Ha kb). cbn in Ha.
        rewrite (decide_True (P:=kb=kb)) in Ha by done. apply bytes_le_lt_eq.
        case_decide; [by right|]. left. apply alookup_elem in Ha. eauto. }
      apply bytes_le_antisym; [apply (Hm k1 v1 l1 k2 v2 l2)|apply (Hm k2 v2 l2 k1 v1 l1)];
        try done. }
    pose proof (H k2) as Hv. cbn in Hv. rewrite !decide_True in Hv by done.
    injection Hv as ->. f_equal. apply IH; [done|done|]. intros k.
    destruct (decide (k = k2)) as [->|Hne].
    + trans (@None V); [|symmetry]; apply alookup_None; intros v Hin;
        [apply L1 in Hin|apply L2 in Hin]; by apply bytes_lt_irrefl in Hin.
    + specialize (H k). cbn in H. by rewrite !decide_False in H.
Qed.

(** Sorted lists with the same entries are equal. *)
Lemma ksorted_elem_ext l1 l2 :
  ksorted l1 → ksorted l2 → (∀ x, x ∈ l1 ↔ x ∈ l2) → l1 = l2.
Proof.
  intros Hs1 Hs2 Heq. apply ksorted_ext; [done|done|]. intros k.
  destruct (alookup k l1) as [v|] eqn:E1.
  - symmetry. apply alookup_sorted; [done|]. apply Heq. by apply alookup_elem.
  - destruct (alookup k l2) as [v|] eqn:E2; [|done].
    apply alookup_elem, Heq in E2. by rewrite (alookup_sorted _ _ _ Hs1 E2) in E1.
Qed.
End assoc.

(** * The ordered map used by the memtable *)

Class SkipMap (V M : Type) := {
  sm_new : M;
  sm_insert : bytes → V → M → M;
  sm_get : bytes → M → option V;
  (** [lower_bound(Bound::Included(from))]. *)
  sm_lower_bound : bytes → M → option (bytes * V);
  (** [iter()], in key order. *)
  sm_iter : M → list (bytes * V);
}.

Class SkipMapLaws (V M : Type) `{SkipMap V M} : Prop := {
  sm_iter_sorted m : ksorted (sm_iter m);
  sm_iter_new : sm_iter sm_new = [];
  sm_get_iter k m : sm_get k m = alookup k (sm_iter m);
  sm_get_insert k v m k' :
    sm_get k' (sm_insert k v m) = if decide (k' = k) then Some v else sm_get k' m;
  sm_lower_bound_iter from m : sm_lower_bound from m = lower_bound from (sm_iter m);
}.

(** ** An instance: a finite map iterated in key order *)

Section instance.
Context {V : Type}.

Definition key_le (a b : bytes * V) : Prop := bytes_le a.1 b.1.
#[local] Instance key_le_dec a b : Decision (key_le a b).
Proof. unfold key_le. apply _. Defined.
#[local] Instance key_le_trans : Transitive key_le.
Proof. intros a b c. unfold key_le. apply bytes_le_trans. Qed.
#[local] Instance key_le_total : Total key_le.
Proof.
  intros a b. unfold key_le. destruct (decide (bytes_le a.1 b.1)); [by left|right].
  by apply bytes_lt_le, bytes_nle_lt.
Qed.

Definition gmap_iter (m : gmap bytes V) : list (bytes * V) :=
  merge_sort key_le (map_to_list m).

#[export] Instance gmap_skipmap : SkipMap V (gmap bytes V) := {|
  sm_new := ∅;
  sm_insert k v m := <[k := v]> m;
  sm_get k m := m !! k;
  sm_lower_bound from m := lower_bound from (gmap_iter m);
  sm_iter := gmap_iter;
|}.

Lemma elem_of_gmap_iter (m : gmap bytes V) k v : (k, v) ∈ gmap_iter m ↔ m !! k = Some v.
Proof. unfold gmap_iter. by rewrite merge_sort_Permutation, elem_of_map_to_list. Qed.

Lemma sorted_le_ksorted (l : list (bytes * V)) :
  StronglySorted key_le l → NoDup l.*1 → ksorted l.
Proof.
  induction l as [|[k v] l IH]; intros Hs Hd; [constructor|].
  apply StronglySorted_inv in Hs as [Hs Hle]. cbn in Hd. apply NoDup_cons in Hd as [Hk Hd].
  apply ksorted_cons. split; [auto|]. intros k' v' Hin. rewrite Forall_forall in Hle.
  specialize (Hle _ Hin). unfold key_le in Hle. cbn in Hle.
  apply bytes_le_lt_eq in Hle as [?| ->]; [done|]. destruct Hk.
  apply list_elem_of_fmap. by exists (k', v').
Qed.

Lemma gmap_iter_sorted m : ksorted (gmap_iter m).
Proof.
  apply sorted_le_ksorted.
  - apply StronglySorted_merge_sort; apply _.
  - unfold gmap_iter. rewrite merge_sort_Permutation. apply NoDup_fst_map_to_list.
Qed.

#[export] Instance gmap_skipmap_laws : SkipMapLaws V (gmap bytes V).
Proof.
  split.
  - apply gmap_iter_sorted.
  - cbn. unfold gmap_iter. by rewrite map_to_list_empty.
  - intros k m. cbn. destruct (m !! k) as [v|] eqn:E; symmetry.
    + apply alookup_sorted; [apply gmap_iter_sorted|]. by apply elem_of_gmap_iter.
    + apply alookup_None. intros v Hin. apply elem_of_gmap_iter in Hin. congruence.
  - intros k v m k'. cbn. rewrite lookup_insert. repeat case_decide; congruence.
  - done.
Qed.
End instance.
