(* ===== verification/Memtable.v ===== *)
(** The in-memory write buffer: one ordered map per column family
    ([engine/src/memtable.rs]). *)

From stdpp Require Import base list numbers gmap.
From Stdlib Require Import Strings.Byte.
From S2P Require Import Prelude Keys Batch OrdMap.

(** A stored value; [MDelete] shadows lower levels, it is not mere absence. *)
Inductive MemValue := MPut (v : bytes) | MDelete.

#[export] Instance memvalue_eq_dec : EqDecision MemValue.
Proof. solve_decision. Defined.

Definition MV_PUT : byte := x00.
Definition MV_DELETE : byte := x01.

Definition into_present (v : MemValue) : option bytes :=
  match v with MPut v => Some v | MDelete => None end.

Definition MemValue_encode (v : MemValue) : bytes :=
  match v with
  | MPut v => MV_PUT :: v
  | MDelete => [MV_DELETE]
  end.

Definition MemValue_decode (b : bytes) : option MemValue :=
  match b with
  | x00 :: rest => Some (MPut rest)
  | x01 :: _ => Some MDelete
  | _ => None
  end.

Lemma MemValue_decode_encode v : MemValue_decode (MemValue_encode v) = Some v.
Proof. by destruct v. Qed.

Section memtable.
Context {M : Type} `{SkipMap MemValue M}.

(** [cfs: [SkipMap; 3]], indexed by [cf as usize]. *)
Record Memtable := mkMemtable {
  mt_default : M;
  mt_write : M;
  mt_lock : M;
  mt_size : nat;
  mt_max_seq : N;
}.

Definition Memtable_new : Memtable := mkMemtable sm_new sm_new sm_new 0 0.

Definition mt_cf (m : Memtable) (cf : Cf) : M :=
  match cf with CfDefault => mt_default m | CfWrite => mt_write m | CfLock => mt_lock m end.

(** In-place insertion into one of the maps. *)
Definition mt_insert (m : Memtable) (cf : Cf) (k : bytes) (v : MemValue) : Memtable :=
  let s := mt_size m in let q := mt_max_seq m in
  match cf with
  | CfDefault => mkMemtable (sm_insert k v (mt_default m)) (mt_write m) (mt_lock m) s q
  | CfWrite => mkMemtable (mt_default m) (sm_insert k v (mt_write m)) (mt_lock m) s q
  | CfLock => mkMemtable (mt_default m) (mt_write m) (sm_insert k v (mt_lock m)) s q
  end.

(** The loop body of [apply]: the memtable and the running byte count [added]. *)
Definition mt_apply_op (acc : Memtable * nat) (op : WriteOp) : Memtable * nat :=
  let '(m, added) := acc in
  match op with
  | WPut cf key value =>
    (mt_insert m cf key (MPut value), added + (length key + length value + 24))%nat
  | WDelete cf key => (mt_insert m cf key MDelete, added + (length key + 24))%nat
  end.

Definition mt_apply (m : Memtable) (seq : N) (batch : WriteBatch) : Memtable :=
  let '(m, added) := fold_left mt_apply_op (ops batch) (m, 0%nat) in
  mkMemtable (mt_default m) (mt_write m) (mt_lock m)
    (mt_size m + added) (N.max (mt_max_seq m) seq).

Definition mt_get_cf (m : Memtable) (cf : Cf) (key : bytes) : option MemValue :=
  sm_get key (mt_cf m cf).

Definition mt_seek_cf (m : Memtable) (cf : Cf) (from : bytes) : option (bytes * MemValue) :=
  sm_lower_bound from (mt_cf m cf).

Definition mt_iter_cf (m : Memtable) (cf : Cf) : list (bytes * MemValue) :=
  sm_iter (mt_cf m cf).

Definition mt_approx_size (m : Memtable) : nat := mt_size m.
Definition mt_is_empty (m : Memtable) : bool := (mt_size m =? 0)%nat.

(** * Behaviour *)

Context `{!SkipMapLaws MemValue M}.

(** What an operation stores under its key. *)
Definition op_value (op : WriteOp) : MemValue :=
  match op with WPut _ _ v => MPut v | WDelete _ _ => MDelete end.

(** The value the last operation of [l] on [(cf, k)] stores, if any. *)
Fixpoint ops_last (cf : Cf) (k : bytes) (l : list WriteOp) : option MemValue :=
  match l with
  | [] => None
  | op :: l' =>
    match ops_last cf k l' with
    | Some v => Some v
    | None => if decide (op_cf op = cf ∧ op_key op = k) then Some (op_value op) else None
    end
  end.

Lemma mt_get_insert m cf k v cf' k' :
  mt_get_cf (mt_insert m cf k v) cf' k'
  = if decide (cf = cf' ∧ k = k') then Some v else mt_get_cf m cf' k'.
Proof.
  unfold mt_get_cf. destruct cf, cf'; cbn;
    rewrite ?sm_get_insert; repeat case_decide; intuition congruence.
Qed.

Lemma mt_apply_op_fst acc op :
  (mt_apply_op acc op).1 = mt_insert acc.1 (op_cf op) (op_key op) (op_value op).
Proof. by destruct acc, op. Qed.

Lemma mt_get_apply_ops l acc cf k :
  mt_get_cf (fold_left mt_apply_op l acc).1 cf k
  = match ops_last cf k l with Some v => Some v | None => mt_get_cf acc.1 cf k end.
Proof.
  revert acc. induction l as [|op l IH]; intros acc; [done|]. cbn [fold_left ops_last].
  rewrite IH. destruct (ops_last cf k l); [done|].
  rewrite mt_apply_op_fst, mt_get_insert. by case_decide.
Qed.

(** Reading back after a batch: the batch's last write to the key, else the
    value from before. *)
Lemma mt_get_apply m seq b cf k :
  mt_get_cf (mt_apply m seq b) cf k
  = match ops_last cf k (ops b) with Some v => Some v | None => mt_get_cf m cf k end.
Proof.
  unfold mt_apply. pose proof (mt_get_apply_ops (ops b) (m, 0%nat) cf k) as E.
  destruct (fold_left mt_apply_op (ops b) (m, 0%nat)) as [m' a]. cbn [fst] in E.
  rewrite <- E. by destruct cf.
Qed.

Lemma mt_get_new cf k : mt_get_cf Memtable_new cf k = None.
Proof. unfold mt_get_cf. rewrite sm_get_iter. by destruct cf; cbn; rewrite sm_iter_new. Qed.

Lemma mt_iter_sorted m cf : ksorted (mt_iter_cf m cf).
Proof. apply sm_iter_sorted. Qed.

Lemma mt_get_iter m cf k : mt_get_cf m cf k = alookup k (mt_iter_cf m cf).
Proof. apply sm_get_iter. Qed.

Lemma mt_seek_iter m cf from : mt_seek_cf m cf from = lower_bound from (mt_iter_cf m cf).
Proof. apply sm_lower_bound_iter. Qed.

(** [approx_size] counts at least 24 bytes per operation, so a memtable is
    [is_empty] exactly when nothing was applied. *)
Lemma mt_apply_size m seq b :
  mt_size (mt_apply m seq b)
  = (mt_size m + sum_list ((λ op, match op with
       | WPut _ k v => length k + length v + 24
       | WDelete _ k => length k + 24 end) <$> ops b))%nat.
Proof.
  unfold mt_apply.
  assert (Hs : ∀ l acc, mt_size (fold_left mt_apply_op l acc).1 = mt_size acc.1 ∧
    (fold_left mt_apply_op l acc).2 = (acc.2 + sum_list ((λ op, match op with
       | WPut _ k v => length k + length v + 24
       | WDelete _ k => length k + 24 end) <$> l))%nat).
  { induction l as [|op l IH]; intros [m' a]; cbn; [split; [done|lia]|].
    destruct (IH (mt_apply_op (m', a) op)) as [E1 E2].
    destruct op as [[] k v|[] k]; cbn in *; rewrite E1, E2; split; (done || lia). }
  destruct (Hs (ops b) (m, 0%nat)) as [E1 E2].
  destruct (fold_left mt_apply_op (ops b) (m, 0%nat)) as [m' a]. cbn in *. lia.
Qed.

Lemma mt_apply_max_seq m seq b : mt_max_seq (mt_apply m seq b) = N.max (mt_max_seq m) seq.
Proof.
  unfold mt_apply.
  assert (Hs : ∀ l acc, mt_max_seq (fold_left mt_apply_op l acc).1 = mt_max_seq acc.1).
  { induction l as [|op l IH]; intros acc; cbn; [done|]. rewrite IH.
    destruct acc, op as [[] k v|[] k]; done. }
  specialize (Hs (ops b) (m, 0%nat)).
  destruct (fold_left mt_apply_op (ops b) (m, 0%nat)) as [m' a]. cbn in *. by rewrite Hs.
Qed.
End memtable.

Arguments Memtable M : clear implicits.
