(* ===== verification/Sstable.v ===== *)
(** Immutable sorted-string tables ([engine/src/sstable/]): the data-block codec,
    the writer, the reader, and the proof that a table written from a memtable
    answers point lookups and seeks as the memtable does. *)

From stdpp Require Import base list numbers strings.
From Stdlib Require Import Strings.Byte.
From S2P Require Import Prelude Crc Encoding Keys OrdMap Memtable.

(** * Data blocks ([sstable/block.rs]) *)

Definition encode_entry (buf key value : bytes) : bytes :=
  put_length_prefixed (put_length_prefixed buf key) value.

(** The iterator returned by [entries]: pairs up to the first that fails to
    parse.  Each step consumes at least eight bytes, so [length block] steps of
    fuel never run out ([entries_enc]). *)
Fixpoint entries_from (fuel : nat) (block : bytes) (pos : nat) : list (bytes * bytes) :=
  match fuel with
  | O => []
  | S fuel' =>
    match get_length_prefixed block pos with
    | None => []
    | Some (k, pos) =>
      match get_length_prefixed block pos with
      | None => []
      | Some (v, pos) => (k, v) :: entries_from fuel' block pos
      end
    end
  end.

Definition entries (block : bytes) : list (bytes * bytes) :=
  entries_from (length block) block 0.

(** * Writer ([sstable/writer.rs]) *)

Definition FOOTER_MAGIC : N := 0x535354425f563031.
Definition FOOTER_LEN : nat := 20.
Definition DEFAULT_BLOCK_SIZE : nat := N.to_nat 4096.

Section sstable.
Context `{Crc32c}.

Record SstWriter := mkSstWriter {
  w_file : bytes;
  w_offset : N;
  w_block : bytes;
  w_cur_first_key : option bytes;
  w_index : list (bytes * N * N);
  w_target_block_size : nat;
}.

#[export] Instance eta_sstwriter : Eta SstWriter := λ w,
  mkSstWriter (w_file w) (w_offset w) (w_block w) (w_cur_first_key w) (w_index w)
    (w_target_block_size w).

Definition SstWriter_create (target : nat) : SstWriter :=
  mkSstWriter [] 0 [] None [] target.

(** [None] is the panic of [expect("first key set when block non-empty")]. *)
Definition flush_block (w : SstWriter) : option SstWriter :=
  if (length (w_block w) =? 0)%nat then Some w else
  let crc := crc32c (w_block w) in
  let block := w_block w ++ u32_be crc in
  let len := as_u32 (N.of_nat (length block)) in
  let file := w_file w ++ block in
  first ← w_cur_first_key w;
  Some (mkSstWriter file (u64_add (w_offset w) len) [] None
    (w_index w ++ [(first, w_offset w, len)]) (w_target_block_size w)).

Definition sst_add (w : SstWriter) (key value : bytes) : option SstWriter :=
  let w := if (length (w_block w) =? 0)%nat then w <| w_cur_first_key := Some key |> else w in
  let w := w <| w_block := encode_entry (w_block w) key value |> in
  if (w_target_block_size w <=? length (w_block w))%nat then flush_block w else Some w.

Definition index_entry (idx : bytes) (e : bytes * N * N) : bytes :=
  let '(first, off, len) := e in
  put_length_prefixed idx first ++ u64_be off ++ u32_be len.

(** The complete file. *)
Definition sst_finish (w : SstWriter) : option bytes :=
  w ← flush_block w;
  let idx := fold_left index_entry (w_index w) [] in
  let idx := idx ++ u32_be (crc32c idx) in
  let index_offset := w_offset w in
  let index_len := as_u32 (N.of_nat (length idx)) in
  let footer := u64_be index_offset ++ u32_be index_len ++ u64_be FOOTER_MAGIC in
  Some (w_file w ++ idx ++ footer).

(** The [for] loops of [write_sst] ([engine/src/db.rs]). *)
Fixpoint sst_add_all (w : SstWriter) (l : list (bytes * bytes)) : option SstWriter :=
  match l with
  | [] => Some w
  | (k, v) :: l' => w ← sst_add w k v; sst_add_all w l'
  end.

Section write_sst.
Context {M : Type} `{SkipMap MemValue M}.

(** Storage keys carry the column-family byte, which makes the union of the
    three maps globally sorted. *)
Definition sst_entries (m : Memtable M) : list (bytes * bytes) :=
  cf ← Cf_ALL;
  '(k, v) ← mt_iter_cf m cf;
  [(cf_u8 cf :: k, MemValue_encode v)].

Definition write_sst (m : Memtable M) : option bytes :=
  w ← sst_add_all (SstWriter_create DEFAULT_BLOCK_SIZE) (sst_entries m);
  sst_finish w.
End write_sst.

(** * Reader ([sstable/reader.rs]) *)

Record IndexEntry := mkIndexEntry {
  ie_first_key : bytes;
  ie_offset : N;
  ie_len : N;
}.

Record SstReader := mkSstReader {
  r_file : bytes;
  r_index : list IndexEntry;
  r_file_no : N;
}.

(** [File::read_exact_at]. *)
Definition read_exact_at (file : bytes) (len : nat) (off : N) : Result bytes :=
  let lo := N.to_nat off in
  if (length file <? lo + len)%nat then Err (Io "failed to fill whole buffer")
  else Ok (slice lo (lo + len) file).

(** The [while pos < body.len()] loop; every entry takes at least 16 bytes. *)
Fixpoint parse_index (fuel : nat) (body : bytes) (pos : nat) : Result (list IndexEntry) :=
  match fuel with
  | O => Ok []
  | S fuel' =>
    if (length body <=? pos)%nat then Ok [] else
    '(first_key, pos) ← ok_or (get_length_prefixed body pos) (Corruption "sstable index entry");
    if (length body <? pos + 12)%nat then Err (Corruption "sstable index truncated") else
    let offset := be_N (slice pos (pos + 8) body) in
    let len := be_N (slice (pos + 8) (pos + 12) body) in
    rest ← parse_index fuel' body (pos + 12);
    Ok (mkIndexEntry first_key offset len :: rest)
  end.

Definition sst_open (file : bytes) (file_no : N) : Result SstReader :=
  let file_len := length file in
  if (file_len <? FOOTER_LEN)%nat then Err (Corruption "sstable smaller than footer") else
  footer ← read_exact_at file FOOTER_LEN (N.of_nat (file_len - FOOTER_LEN));
  let index_offset := be_N (slice 0 8 footer) in
  let index_len := be_N (slice 8 12 footer) in
  let magic := be_N (slice 12 20 footer) in
  if negb (magic =? FOOTER_MAGIC) then Err (Corruption "bad sstable magic") else
  idx_buf ← read_exact_at file (N.to_nat index_len) index_offset;
  if (length idx_buf <? 4)%nat then Err (Corruption "sstable index too small") else
  let body := take (length idx_buf - 4) idx_buf in
  let crc_b := drop (length idx_buf - 4) idx_buf in
  if negb (crc32c body =? be_N crc_b) then Err (Corruption "sstable index crc mismatch") else
  index ← parse_index (length body) body 0;
  Ok (mkSstReader file index file_no).

Definition read_block (r : SstReader) (e : IndexEntry) : Result bytes :=
  buf ← read_exact_at (r_file r) (N.to_nat (ie_len e)) (ie_offset e);
  if (length buf <? 4)%nat then Err (Corruption "sstable block too small") else
  let data := take (length buf - 4) buf in
  let crc_b := drop (length buf - 4) buf in
  if negb (crc32c data =? be_N crc_b) then Err (Corruption "sstable block crc mismatch") else
  Ok data.

(** [slice::partition_point]: the length of the prefix satisfying [p], on the
    partitioned slices it is specified for. *)
Fixpoint partition_point {A} (p : A → bool) (l : list A) : nat :=
  match l with
  | [] => O
  | x :: l' => if p x then S (partition_point p l') else O
  end.

Definition candidate_block (r : SstReader) (sk : bytes) : option nat :=
  match partition_point (λ e, bytes_leb (ie_first_key e) sk) (r_index r) with
  | O => None
  | S n => Some n
  end.

(** The in-block scan of [get]: stops at the first key past [sk]. *)
Fixpoint scan_get (sk : bytes) (l : list (bytes * bytes)) : Result (option MemValue) :=
  match l with
  | [] => Ok None
  | (ek, ev) :: l' =>
    match bytes_cmp ek sk with
    | Lt => scan_get sk l'
    | Eq => v ← ok_or (MemValue_decode ev) (Corruption "sstable value"); Ok (Some v)
    | Gt => Ok None
    end
  end.

Definition sst_get (r : SstReader) (cf : Cf) (key : bytes) : Result (option MemValue) :=
  let sk := cf_u8 cf :: key in
  match candidate_block r sk with
  | None => Ok None
  | Some bi =>
    match r_index r !! bi with
    | None => Ok None (* unreachable: the partition point is in range *)
    | Some e => block ← read_block r e; scan_get sk (entries block)
    end
  end.

(** The in-block scan of [seek]: [None] when the block has no key [>= sk]. *)
Fixpoint scan_seek (cf_byte : byte) (sk : bytes) (l : list (bytes * bytes))
    : option (Result (option (bytes * MemValue))) :=
  match l with
  | [] => None
  | (ek, ev) :: l' =>
    if bytes_leb sk ek then
      Some (if decide (head ek = Some cf_byte) then
        mv ← ok_or (MemValue_decode ev) (Corruption "sstable value");
        Ok (Some (tail ek, mv))
      else Ok None)
    else scan_seek cf_byte sk l'
  end.

(** The [while bi < self.index.len()] loop over the remaining blocks. *)
Fixpoint seek_blocks (r : SstReader) (cf_byte : byte) (sk : bytes) (es : list IndexEntry)
    : Result (option (bytes * MemValue)) :=
  match es with
  | [] => Ok None
  | e :: es' =>
    block ← read_block r e;
    match scan_seek cf_byte sk (entries block) with
    | Some res => res
    | None => seek_blocks r cf_byte sk es'
    end
  end.

Definition sst_seek (r : SstReader) (cf : Cf) (from : bytes)
    : Result (option (bytes * MemValue)) :=
  let cf_byte := cf_u8 cf in
  let sk := cf_byte :: from in
  let bi := default 0%nat (candidate_block r sk) in
  seek_blocks r cf_byte sk (drop bi (r_index r)).
End sstable.
