(* ===== verification/SstableCorrect.v ===== *)
(** Correctness of the SSTable format: a table written from a memtable opens, its [get] and
    [seek] agree with the memtable's, and for memtables of at most 1 GiB no offset wraps. *)

From stdpp Require Import base list numbers strings.
From Stdlib Require Import Strings.Byte.
From S2P Require Import Prelude Crc Encoding Keys OrdMap Memtable Sstable Batch.

Section correct.
Context `{Crc32c}.

(** * What the writer lays out *)

Abbreviation entry := (bytes * bytes)%type.

Definition enc_entry (e : entry) : bytes := lp e.1 ++ lp e.2.
Definition enc_entries (es : list entry) : bytes := concat (enc_entry <$> es).
Definition blk (es : list entry) : bytes :=
  enc_entries es ++ u32_be (crc32c (enc_entries es)).
Definition first_key (es : list entry) : bytes :=
  match es with [] => [] | (k, _) :: _ => k end.

Fixpoint idx_from (off : N) (chunks : list (list entry)) : list (bytes * N * N) :=
  match chunks with
  | [] => []
  | c :: cs =>
    let len := as_u32 (N.of_nat (length (blk c))) in
    (first_key c, off, len) :: idx_from (u64_add off len) cs
  end.
Fixpoint end_off (off : N) (chunks : list (list entry)) : N :=
  match chunks with
  | [] => off
  | c :: cs => end_off (u64_add off (as_u32 (N.of_nat (length (blk c))))) cs
  end.

Lemma idx_from_snoc off cs c :
  idx_from off (cs ++ [c])
  = idx_from off cs ++ [(first_key c, end_off off cs, as_u32 (N.of_nat (length (blk c))))].
Proof. revert off. induction cs as [|c' cs IH]; intros off; cbn; [done|]. by rewrite IH. Qed.
Lemma end_off_snoc off cs c :
  end_off off (cs ++ [c])
  = u64_add (end_off off cs) (as_u32 (N.of_nat (length (blk c)))).
Proof. revert off. induction cs as [|c' cs IH]; intros off; cbn; [done|]. by rewrite IH. Qed.

Lemma encode_entry_app buf k v : encode_entry buf k v = buf ++ enc_entry (k, v).
Proof. unfold encode_entry, enc_entry. rewrite !put_length_prefixed_lp. by rewrite <- app_assoc. Qed.

Lemma enc_entries_snoc es e : enc_entries (es ++ [e]) = enc_entries es ++ enc_entry e.
Proof.
  unfold enc_entries. rewrite fmap_app, concat_app. cbn. by rewrite app_nil_r.
Qed.

Lemma length_enc_entry e : (8 ≤ length (enc_entry e))%nat.
Proof. unfold enc_entry. rewrite length_app, !length_lp. lia. Qed.

Lemma length_enc_entries_pos es : es ≠ [] → (8 ≤ length (enc_entries es))%nat.
Proof.
  destruct es as [|e es]; [done|]. intros _. unfold enc_entries. cbn [fmap list_fmap concat].
  rewrite length_app. pose proof (length_enc_entry e). lia.
Qed.

(** * The writer's invariant *)

Record writer_inv (w : SstWriter) (chunks : list (list entry)) (cur : list entry) : Prop := {
  wi_file : w_file w = concat (blk <$> chunks);
  wi_offset : w_offset w = end_off 0 chunks;
  wi_index : w_index w = idx_from 0 chunks;
  wi_block : w_block w = enc_entries cur;
  wi_first : cur ≠ [] → w_cur_first_key w = Some (first_key cur);
  wi_chunks : Forall (λ c, c ≠ []) chunks;
}.

Lemma writer_inv_create t : writer_inv (SstWriter_create t) [] [].
Proof. by split. Qed.

(** The chunks after a flush. *)
Definition close_chunk (chunks : list (list entry)) (cur : list entry) :=
  match cur with [] => chunks | _ => chunks ++ [cur] end.

Lemma flush_block_inv w chunks cur :
  writer_inv w chunks cur →
  ∃ w', flush_block w = Some w' ∧ writer_inv w' (close_chunk chunks cur) [].
Proof.
  intros [Hf Ho Hi Hb Hk Hc]. unfold flush_block. rewrite Hb.
  destruct (Nat.eqb_spec (length (enc_entries cur)) 0) as [E|E].
  - destruct cur as [|e cur].
    + exists w. split; [done|]. by split.
    + pose proof (length_enc_entries_pos (e :: cur) ltac:(done)). lia.
  - assert (Hne : cur ≠ []) by by intros ->.
    rewrite Hk by done. cbn [mbind option_bind]. eexists. split; [done|].
    assert (close_chunk chunks cur = chunks ++ [cur]) as -> by by destruct cur.
    fold (blk cur). split; cbn.
    + rewrite fmap_app, concat_app, Hf. cbn. by rewrite app_nil_r.
    + by rewrite end_off_snoc, Ho.
    + by rewrite idx_from_snoc, Hi, Ho.
    + done.
    + done.
    + apply Forall_app. auto.
Qed.

Lemma sst_add_inv w chunks cur k v :
  writer_inv w chunks cur →
  ∃ w' chunks' cur', sst_add w k v = Some w' ∧ writer_inv w' chunks' cur' ∧
    concat chunks' ++ cur' = (concat chunks ++ cur) ++ [(k, v)].
Proof.
  intros Hi. unfold sst_add.
  set (w0 := if (length (w_block w) =? 0)%nat then _ else w).
  assert (H1 : writer_inv (w0 <| w_block := encode_entry (w_block w0) k v |>)
    chunks (cur ++ [(k, v)])).
  { destruct Hi as [Hf Ho Hix Hb Hk Hc].
    assert (Hwb : w_block w0 = w_block w) by (unfold w0; by destruct (_ =? _)%nat).
    split; cbn.
    - unfold w0. by destruct (_ =? _)%nat.
    - unfold w0. by destruct (_ =? _)%nat.
    - unfold w0. by destruct (_ =? _)%nat.
    - by rewrite Hwb, encode_entry_app, Hb, enc_entries_snoc.
    - intros _. unfold w0. rewrite Hb.
      destruct (Nat.eqb_spec (length (enc_entries cur)) 0) as [E|E].
      + destruct cur as [|e cur]; [done|].
        pose proof (length_enc_entries_pos (e :: cur) ltac:(done)). lia.
      + rewrite Hk by by intros ->. by destruct cur as [|[] ?].
    - done. }
  destruct (_ <=? _)%nat.
  - destruct (flush_block_inv _ _ _ H1) as (w' & -> & Hw').
    eexists _, _, _. split_and!; [done|exact Hw'|].
    rewrite app_nil_r. destruct cur as [|e cur]; cbn [close_chunk app];
      rewrite concat_app; cbn; by rewrite ?app_nil_r, <- ?app_assoc.
  - eexists _, _, _. split_and!; [done|exact H1|]. by rewrite app_assoc.
Qed.

Lemma sst_add_all_inv l w chunks cur :
  writer_inv w chunks cur →
  ∃ w' chunks' cur', sst_add_all w l = Some w' ∧ writer_inv w' chunks' cur' ∧
    concat chunks' ++ cur' = (concat chunks ++ cur) ++ l.
Proof.
  revert w chunks cur. induction l as [|[k v] l IH]; intros w chunks cur Hi; cbn [sst_add_all].
  - eexists _, _, _. split_and!; [done|done|]. by rewrite app_nil_r.
  - destruct (sst_add_inv w chunks cur k v Hi) as (w1 & c1 & u1 & -> & Hi1 & E1).
    cbn [mbind option_bind]. destruct (IH _ _ _ Hi1) as (w2 & c2 & u2 & -> & Hi2 & E2).
    eexists _, _, _. split_and!; [done|done|]. rewrite E2, E1. by rewrite <- app_assoc.
Qed.

Definition ie_bytes (e : bytes * N * N) : bytes :=
  let '(first, off, len) := e in lp first ++ u64_be off ++ u32_be len.
Definition idx_bytes (chunks : list (list entry)) : bytes :=
  concat (ie_bytes <$> idx_from 0 chunks).
Definition footer_bytes (off : N) (ilen : nat) : bytes :=
  u64_be off ++ u32_be (as_u32 (N.of_nat ilen)) ++ u64_be FOOTER_MAGIC.

(** The file of a table with the given data blocks. *)
Definition sst_file (chunks : list (list entry)) : bytes :=
  let ib := idx_bytes chunks ++ u32_be (crc32c (idx_bytes chunks)) in
  concat (blk <$> chunks) ++ ib ++ footer_bytes (end_off 0 chunks) (length ib).

Lemma fold_index_entry l buf : fold_left index_entry l buf = buf ++ concat (ie_bytes <$> l).
Proof.
  revert buf. induction l as [|[[f o] n] l IH]; intros buf; cbn; [by rewrite app_nil_r|].
  rewrite IH. unfold put_length_prefixed, lp. by rewrite <- !app_assoc.
Qed.

Lemma sst_finish_file w chunks cur :
  writer_inv w chunks cur → sst_finish w = Some (sst_file (close_chunk chunks cur)).
Proof.
  intros Hi. unfold sst_finish.
  destruct (flush_block_inv w chunks cur Hi) as (w' & -> & [Hf Ho Hix Hb Hk Hc]).
  cbn [mbind option_bind]. rewrite fold_index_entry, Hix, Ho, Hf. done.
Qed.

(** The writer never panics, and splits the entries into non-empty blocks. *)
Lemma sst_write_chunks t l :
  ∃ chunks, (w ← sst_add_all (SstWriter_create t) l; sst_finish w) = Some (sst_file chunks)
    ∧ concat chunks = l ∧ Forall (λ c, c ≠ []) chunks.
Proof.
  destruct (sst_add_all_inv l _ _ _ (writer_inv_create t)) as (w & cs & cur & -> & Hi & E).
  cbn in E. exists (close_chunk cs cur). cbn [mbind option_bind].
  rewrite (sst_finish_file _ _ _ Hi). split_and!; [done| |].
  - rewrite <- E. destruct cur; cbn; [by rewrite app_nil_r|].
    rewrite concat_app. cbn. by rewrite app_nil_r.
  - destruct Hi as [_ _ _ _ _ Hc]. destruct cur; [done|]. apply Forall_app. auto.
Qed.

(** * Reading it back *)

(** A table below 4 GiB: no length or offset wraps in its [u32] field. *)
Definition sized (file : bytes) : Prop := is_u32 (N.of_nat (length file)).

(** The decoded index, with exact offsets. *)
Fixpoint idx_exact (o : nat) (chunks : list (list entry)) : list IndexEntry :=
  match chunks with
  | [] => []
  | c :: cs =>
    mkIndexEntry (first_key c) (N.of_nat o) (N.of_nat (length (blk c)))
      :: idx_exact (o + length (blk c)) cs
  end.

Definition ie_tuple (e : IndexEntry) : bytes * N * N :=
  (ie_first_key e, ie_offset e, ie_len e).

Lemma idx_from_exact o chunks :
  is_u32 (N.of_nat (o + length (concat (blk <$> chunks)))) →
  idx_from (N.of_nat o) chunks = ie_tuple <$> idx_exact o chunks ∧
  end_off (N.of_nat o) chunks = N.of_nat (o + length (concat (blk <$> chunks))).
Proof.
  revert o. induction chunks as [|c cs IH]; intros o Hb; cbn [fmap list_fmap concat] in *.
  - cbn. split; [done|]. by rewrite Nat.add_0_r.
  - rewrite length_app in Hb. cbn [idx_from end_off idx_exact fmap list_fmap].
    rewrite as_u32_id by lia.
    assert (u64_add (N.of_nat o) (N.of_nat (length (blk c)))
      = N.of_nat (o + length (blk c))) as ->.
    { unfold u64_add. rewrite as_u64_id; unfold u64_max, u32_max in *; lia. }
    destruct (IH (o + length (blk c))%nat) as [E1 E2]; [unfold u32_max in *; lia|].
    rewrite E1, E2. split; [done|]. rewrite length_app. f_equal. lia.
Qed.

Lemma parse_index_bytes l p fuel :
  Forall (λ e, fits (ie_first_key e) ∧ is_u64 (ie_offset e) ∧ is_u32 (ie_len e)) l →
  (length l ≤ fuel)%nat →
  parse_index fuel (p ++ concat (ie_bytes <$> (ie_tuple <$> l))) (length p) = Ok l.
Proof.
  intros Hl. revert p fuel. induction Hl as [|[f o n] l (Hf & Ho & Hn) Hl IH]; intros p fuel Hfu.
  - destruct fuel; cbn [parse_index]; [done|]. cbn. rewrite app_nil_r.
    by destruct (Nat.leb_spec (length p) (length p)); [|lia].
  - cbn in Hf, Ho, Hn. destruct fuel as [|fuel]; [cbn in Hfu; lia|].
    cbn [fmap list_fmap concat ie_tuple ie_bytes ie_first_key ie_offset ie_len].
    set (tl := concat _). rewrite <- (app_assoc (lp f)).
    set (body := p ++ lp f ++ _).
    assert (Hbl : length body = (length p + (4 + length f) + 12 + length tl)%nat).
    { unfold body. rewrite !length_app, length_lp, !length_be_bytes. lia. }
    cbn [parse_index]. destruct (Nat.leb_spec (length body) (length p)); [lia|].
    assert (get_length_prefixed body (length p) = Some (f, (length p + 4 + length f)%nat))
      as -> by by apply get_put_length_prefixed.
    cbn [ok_or mbind result_mbind].
    destruct (Nat.ltb_spec (length body) (length p + 4 + length f + 12)); [lia|].
    assert (slice (length p + 4 + length f) (length p + 4 + length f + 8) body = u64_be o) as ->.
    { unfold body. rewrite (app_assoc p), <- (app_assoc (u64_be o)).
      apply slice_app'; rewrite length_app, length_lp, ?length_be_bytes; lia. }
    assert (slice (length p + 4 + length f + 8) (length p + 4 + length f + 12) body
      = u32_be n) as ->.
    { unfold body. rewrite (app_assoc p), <- (app_assoc (u64_be o)), (app_assoc (p ++ _)).
      apply slice_app'; rewrite !length_app, length_lp, !length_be_bytes; lia. }
    rewrite be_N_u64, be_N_u32 by done.
    specialize (IH (p ++ lp f ++ u64_be o ++ u32_be n) fuel ltac:(cbn in Hfu; lia)).
    rewrite !length_app, length_lp, !length_be_bytes in IH.
    replace (length p + 4 + length f + 12)%nat with (length p + (4 + length f + (8 + 4)))%nat by lia.
    assert (body = (p ++ lp f ++ u64_be o ++ u32_be n) ++ tl) as ->.
    { unfold body. by rewrite <- !app_assoc. }
    unfold tl. by rewrite IH.
Qed.

Lemma length_concat_elem {A} (l : list (list A)) x : x ∈ l → (length x ≤ length (concat l))%nat.
Proof.
  induction 1; cbn; rewrite length_app; lia.
Qed.

Lemma fits_entry es k v :
  (k, v) ∈ es → is_u32 (N.of_nat (length (enc_entries es))) → fits k ∧ fits v.
Proof.
  intros Hin Hb. assert (Hl : (length (enc_entry (k, v)) ≤ length (enc_entries es))%nat).
  { apply length_concat_elem, list_elem_of_fmap. by exists (k, v). }
  unfold enc_entry in Hl. rewrite length_app, !length_lp in Hl. cbn in Hl.
  unfold fits, u32_max in *. lia.
Qed.

Lemma entries_from_enc es p fuel :
  Forall (λ e, fits e.1 ∧ fits e.2) es → (length es ≤ fuel)%nat →
  entries_from fuel (p ++ enc_entries es) (length p) = es.
Proof.
  intros Hes. revert p fuel. induction Hes as [|[k v] es [Hk Hv] Hes IH]; intros p fuel Hf.
  - destruct fuel; [done|]. cbn [entries_from]. unfold enc_entries. cbn.
    rewrite app_nil_r. unfold get_length_prefixed.
    by destruct (Nat.ltb_spec (length p) (length p + 4)); [|lia].
  - destruct fuel as [|fuel]; [cbn in Hf; lia|]. cbn in Hk, Hv.
    unfold enc_entries. cbn [fmap list_fmap concat entries_from]. fold (enc_entries es).
    change (enc_entry (k, v)) with (lp k ++ lp v). rewrite <- (app_assoc (lp k)).
    rewrite get_put_length_prefixed by done. rewrite (app_assoc p).
    replace (length p + 4 + length k)%nat with (length (p ++ lp k))
      by (rewrite length_app, length_lp; lia).
    rewrite get_put_length_prefixed by done. rewrite (app_assoc (p ++ lp k)).
    replace (length (p ++ lp k) + 4 + length v)%nat with (length ((p ++ lp k) ++ lp v))
      by (rewrite (length_app (p ++ lp k)), (length_lp v); lia).
    f_equal. apply IH. cbn in Hf. lia.
Qed.

Lemma length_enc_entries es : (length es ≤ length (enc_entries es))%nat.
Proof.
  unfold enc_entries. induction es as [|e es IH]; cbn [fmap list_fmap concat length]; [lia|].
  rewrite length_app. pose proof (length_enc_entry e). lia.
Qed.

Lemma entries_enc es :
  is_u32 (N.of_nat (length (enc_entries es))) → entries (enc_entries es) = es.
Proof.
  intros Hb. unfold entries. apply (entries_from_enc es []).
  - apply Forall_forall. intros [k v] Hin. by eapply fits_entry.
  - apply length_enc_entries.
Qed.

Context `{!Crc32cLaws}.

Lemma sized_parts chunks :
  sized (sst_file chunks) →
  is_u32 (N.of_nat (length (concat (blk <$> chunks)))) ∧
  is_u32 (N.of_nat (length (idx_bytes chunks) + 4)).
Proof.
  unfold sized, sst_file, u32_max. rewrite !length_app, length_be_bytes. lia.
Qed.

Lemma sized_chunk chunks c :
  is_u32 (N.of_nat (length (concat (blk <$> chunks)))) → c ∈ chunks →
  is_u32 (N.of_nat (length (blk c))) ∧ is_u32 (N.of_nat (length (enc_entries c))).
Proof.
  intros Hs Hin. assert (Hl : (length (blk c) ≤ length (concat (blk <$> chunks)))%nat).
  { apply length_concat_elem, list_elem_of_fmap. by exists c. }
  assert (length (blk c) = length (enc_entries c) + 4)%nat.
  { unfold blk. by rewrite length_app, length_be_bytes. }
  unfold u32_max in *. lia.
Qed.

Lemma fits_first_key c : is_u32 (N.of_nat (length (enc_entries c))) → fits (first_key c).
Proof.
  destruct c as [|[k v] c]; [done|]. intros Hb.
  destruct (fits_entry ((k, v) :: c) k v); [left|done|done].
Qed.

Lemma idx_exact_wf o chunks :
  is_u32 (N.of_nat (o + length (concat (blk <$> chunks)))) →
  Forall (λ e, fits (ie_first_key e) ∧ is_u64 (ie_offset e) ∧ is_u32 (ie_len e))
    (idx_exact o chunks).
Proof.
  revert o. induction chunks as [|c cs IH]; intros o Hb; cbn [idx_exact]; [done|].
  cbn [fmap list_fmap concat] in Hb. rewrite length_app in Hb. constructor.
  - cbn. split_and!.
    + apply fits_first_key.
      assert (length (blk c) = length (enc_entries c) + 4)%nat
        by (unfold blk; by rewrite length_app, length_be_bytes).
      unfold u32_max in *. lia.
    + unfold u64_max, u32_max in *. lia.
    + unfold u32_max in *. lia.
  - apply IH. unfold u32_max in *. lia.
Qed.

Lemma length_idx_bytes_ge l : (length l ≤ length (concat (ie_bytes <$> l)))%nat.
Proof.
  induction l as [|[[f o] n] l IH]; cbn [fmap list_fmap concat length ie_bytes]; [lia|].
  rewrite !length_app, length_lp. lia.
Qed.

Lemma sst_open_file chunks n :
  sized (sst_file chunks) →
  sst_open (sst_file chunks) n = Ok (mkSstReader (sst_file chunks) (idx_exact 0 chunks) n).
Proof.
  intros Hs. destruct (sized_parts _ Hs) as [Hb Hi].
  destruct (idx_from_exact 0 chunks Hb) as [Eidx Eoff].
  unfold sst_open. set (file := sst_file chunks).
  set (ib := idx_bytes chunks ++ u32_be (crc32c (idx_bytes chunks))).
  set (blocks := concat (blk <$> chunks)) in *. set (ft := footer_bytes (end_off 0 chunks) (length ib)).
  assert (Ef : file = blocks ++ ib ++ ft) by done.
  assert (Hft : length ft = 20%nat).
  { unfold ft, footer_bytes. by rewrite !length_app, !length_be_bytes. }
  assert (Hib : length ib = (length (idx_bytes chunks) + 4)%nat).
  { unfold ib. by rewrite length_app, length_be_bytes. }
  assert (Hfl : length file = (length blocks + length ib + 20)%nat).
  { rewrite Ef, !length_app. lia. }
  unfold FOOTER_LEN, read_exact_at. destruct (Nat.ltb_spec (length file) 20); [lia|].
  rewrite Nat2N.id. destruct (Nat.ltb_spec (length file) (length file - 20 + 20)); [lia|].
  assert (slice (length file - 20) (length file - 20 + 20) file = ft) as ->.
  { rewrite Ef at 3. rewrite app_assoc. apply slice_suffix; rewrite length_app; lia. }
  cbn [mbind result_mbind].
  assert (slice 0 8 ft = u64_be (end_off 0 chunks)) as ->.
  { apply (slice_app' 0 8 []); [done|]. by rewrite length_be_bytes. }
  assert (slice 8 12 ft = u32_be (as_u32 (N.of_nat (length ib)))) as ->.
  { apply (slice_app' 8 12 (u64_be _)); by rewrite !length_be_bytes. }
  assert (slice 12 20 ft = u64_be FOOTER_MAGIC) as ->.
  { unfold ft, footer_bytes. rewrite app_assoc.
    apply slice_suffix; by rewrite length_app, !length_be_bytes. }
  rewrite be_N_u64 by (vm_compute; discriminate). rewrite N.eqb_refl. cbn [negb].
  change (N.of_nat 0) with 0 in Eoff. rewrite Eoff. fold blocks.
  rewrite as_u32_id, be_N_u32, be_N_u64 by (unfold u64_max, u32_max in *; lia).
  rewrite !Nat2N.id, Nat.add_0_l. destruct (Nat.ltb_spec (length file) (length blocks + length ib)); [lia|].
  assert (slice (length blocks) (length blocks + length ib) file = ib) as ->
    by (rewrite Ef; apply slice_app).
  cbn [mbind result_mbind]. destruct (Nat.ltb_spec (length ib) 4); [lia|].
  rewrite Hib, Nat.add_sub. unfold ib. rewrite take_app_length, drop_app_length.
  rewrite be_N_crc, N.eqb_refl. cbn [negb].
  assert (parse_index (length (idx_bytes chunks)) (idx_bytes chunks) 0 = Ok (idx_exact 0 chunks))
    as ->; [|done].
  unfold idx_bytes. change 0 with (N.of_nat 0) at 1 2. rewrite Eidx.
  apply (parse_index_bytes _ []); [by apply idx_exact_wf|].
  etransitivity; [|apply length_idx_bytes_ge]. by rewrite length_fmap.
Qed.

Lemma idx_exact_app o cs1 cs2 :
  idx_exact o (cs1 ++ cs2)
  = idx_exact o cs1 ++ idx_exact (o + length (concat (blk <$> cs1))) cs2.
Proof.
  revert o. induction cs1 as [|c cs1 IH]; intros o; cbn [app idx_exact fmap list_fmap concat].
  - by rewrite Nat.add_0_r.
  - by rewrite IH, length_app, Nat.add_assoc.
Qed.

Lemma length_idx_exact o cs : length (idx_exact o cs) = length cs.
Proof. revert o. induction cs; intros o; cbn; auto. Qed.

Lemma idx_exact_lookup cs1 c cs2 :
  idx_exact 0 (cs1 ++ c :: cs2) !! length cs1
  = Some (mkIndexEntry (first_key c) (N.of_nat (length (concat (blk <$> cs1))))
      (N.of_nat (length (blk c)))).
Proof.
  rewrite idx_exact_app. cbn [idx_exact].
  by rewrite lookup_app_r, length_idx_exact, Nat.sub_diag by by rewrite length_idx_exact.
Qed.

Lemma read_block_chunk cs1 c cs2 n :
  let file := sst_file (cs1 ++ c :: cs2) in
  sized file →
  read_block (mkSstReader file (idx_exact 0 (cs1 ++ c :: cs2)) n)
    (mkIndexEntry (first_key c) (N.of_nat (length (concat (blk <$> cs1))))
      (N.of_nat (length (blk c)))) = Ok (enc_entries c).
Proof.
  intros file Hs. unfold read_block, read_exact_at. cbn [r_file ie_len ie_offset].
  rewrite !Nat2N.id. set (p := concat (blk <$> cs1)).
  assert (∃ s, file = p ++ blk c ++ s) as [s Ef].
  { eexists. unfold file, sst_file. rewrite fmap_app, concat_app. cbn [fmap list_fmap concat].
    rewrite <- !app_assoc. reflexivity. }
  destruct (Nat.ltb_spec (length file) (length p + length (blk c))) as [Hlt|_].
  { rewrite Ef, !length_app in Hlt. lia. }
  rewrite Ef, slice_app. cbn [mbind result_mbind]. unfold blk.
  rewrite length_app, length_be_bytes.
  destruct (Nat.ltb_spec (length (enc_entries c) + 4) 4); [lia|].
  rewrite Nat.add_sub, take_app_length, drop_app_length, be_N_crc, N.eqb_refl. done.
Qed.

(** * Point lookups *)

Abbreviation leads sk := (λ c : list entry, bytes_leb (first_key c) sk).

Lemma partition_point_index sk o chunks :
  partition_point (λ e, bytes_leb (ie_first_key e) sk) (idx_exact o chunks)
  = partition_point (leads sk) chunks.
Proof.
  revert o. induction chunks as [|c cs IH]; intros o; cbn; [done|].
  by destruct (bytes_leb (first_key c) sk); [rewrite IH|].
Qed.

Lemma partition_point_split {A} (f : A → bool) l :
  ∃ l1 l2, l = l1 ++ l2 ∧ length l1 = partition_point f l ∧ Forall f l1 ∧
    match l2 with [] => True | x :: _ => f x = false end.
Proof.
  induction l as [|x l IH]; cbn.
  - by exists [], [].
  - destruct (f x) eqn:E.
    + destruct IH as (l1 & l2 & -> & Hl & Hf & Hh). exists (x :: l1), l2.
      split_and!; [done|cbn; lia| |done]. constructor; [by rewrite E|done].
    + by exists [], (x :: l).
Qed.

(** All keys of a sorted run of blocks are at least the first block's first key. *)
Lemma first_key_le c cs k v :
  c ≠ [] → ksorted (concat (c :: cs)) → (k, v) ∈ concat (c :: cs) → bytes_le (first_key c) k.
Proof.
  destruct c as [|[k0 v0] c]; [done|]. intros _. cbn. intros Hs Hin.
  apply ksorted_cons in Hs as [_ Hlt].
  apply elem_of_cons in Hin as [[= -> ->]|Hin]; [apply bytes_le_refl|].
  apply bytes_lt_le. eauto.
Qed.

(** Where the candidate block splits a sorted table: blocks before it hold
    smaller keys, blocks after it larger ones. *)
Lemma candidate_split sk chunks n :
  ksorted (concat chunks) → Forall (λ c, c ≠ []) chunks →
  partition_point (leads sk) chunks = S n →
  ∃ cs1 c cs2, chunks = cs1 ++ c :: cs2 ∧ length cs1 = n ∧
    (∀ k v, (k, v) ∈ concat cs1 → bytes_lt k sk) ∧
    (∀ k v, (k, v) ∈ concat cs2 → bytes_lt sk k).
Proof.
  intros Hs Hne Hp. destruct (partition_point_split (leads sk) chunks) as (l1 & l2 & -> & Hl & Hf & Hh).
  rewrite Hp in Hl. destruct l1 as [|c cs1 _] using rev_ind; [done|].
  rewrite length_app in Hl. cbn in Hl. exists cs1, c, l2.
  rewrite <- app_assoc in *. cbn [app] in *. rewrite concat_app in Hs. cbn [concat] in Hs.
  apply ksorted_app in Hs as (_ & Hs2 & Hlt).
  apply Forall_app in Hne as [_ Hne]. apply Forall_cons in Hne as [Hc Hne].
  apply Forall_app in Hf as [_ Hf]. apply Forall_cons in Hf as [Hf _].
  apply Is_true_eq_true, bytes_leb_le in Hf.
  split_and!; [done|lia| |].
  - intros k v Hin. destruct c as [|[k0 v0] c]; [done|].
    eapply bytes_lt_le_trans; [|exact Hf]. eapply Hlt; [exact Hin|]. left.
  - intros k v Hin. destruct l2 as [|c2 l2]; [by apply elem_of_nil in Hin|].
    apply ksorted_app in Hs2 as (_ & Hs2 & _). apply Forall_cons in Hne as [Hc2 _].
    apply bytes_leb_gt in Hh. eapply bytes_lt_le_trans; [exact Hh|].
    by eapply first_key_le.
Qed.

Lemma no_candidate sk chunks k v :
  ksorted (concat chunks) → Forall (λ c, c ≠ []) chunks →
  partition_point (leads sk) chunks = 0%nat →
  (k, v) ∈ concat chunks → bytes_lt sk k.
Proof.
  destruct chunks as [|c cs]; cbn [partition_point]; intros Hs Hne Hp Hin.
  - by apply elem_of_nil in Hin.
  - destruct (bytes_leb (first_key c) sk) eqn:E; [done|]. apply bytes_leb_gt in E.
    apply Forall_cons in Hne as [Hc _]. eapply bytes_lt_le_trans; [exact E|].
    by eapply first_key_le.
Qed.

Lemma scan_get_sorted sk l :
  ksorted l →
  scan_get sk l = match alookup sk l with
                  | None => Ok None
                  | Some ev => v ← ok_or (MemValue_decode ev) (Corruption "sstable value"); Ok (Some v)
                  end.
Proof.
  induction l as [|[k v] l IH]; cbn; intros Hs; [done|].
  apply ksorted_cons in Hs as [Hs Hlt]. destruct (bytes_cmp k sk) eqn:E.
  - apply bytes_cmp_eq in E as ->. by rewrite decide_True.
  - rewrite decide_False; [auto|]. intros ->. by rewrite bytes_cmp_refl in E.
  - rewrite decide_False by (intros ->; by rewrite bytes_cmp_refl in E).
    assert (alookup sk l = None) as ->; [|done]. apply alookup_None. intros v' Hin.
    apply Hlt in Hin. unfold bytes_lt in Hin. congruence.
Qed.

Lemma alookup_out (k : bytes) (l : list entry) :
  (∀ k' v, (k', v) ∈ l → k' ≠ k) → alookup k l = None.
Proof. intros Hk. apply alookup_None. intros v Hin. by eapply Hk. Qed.

Definition decode_opt (o : option bytes) : Result (option MemValue) :=
  match o with
  | None => Ok None
  | Some ev => v ← ok_or (MemValue_decode ev) (Corruption "sstable value"); Ok (Some v)
  end.

Lemma sst_get_chunks chunks n cf key :
  let file := sst_file chunks in
  sized file → ksorted (concat chunks) → Forall (λ c, c ≠ []) chunks →
  sst_get (mkSstReader file (idx_exact 0 chunks) n) cf key
  = decode_opt (alookup (cf_u8 cf :: key) (concat chunks)).
Proof.
  intros file Hs Hk Hne. unfold sst_get, candidate_block. cbn [r_index].
  set (sk := cf_u8 cf :: key). rewrite partition_point_index.
  destruct (partition_point (leads sk) chunks) as [|i] eqn:Hp.
  - rewrite alookup_out; [done|]. intros k' v Hin ->.
    by apply (no_candidate sk chunks sk v) in Hin; [apply bytes_lt_irrefl in Hin|..].
  - destruct (candidate_split sk chunks i Hk Hne Hp) as (cs1 & c & cs2 & -> & Hl & H1 & H2).
    unfold file in *. rewrite <- Hl, idx_exact_lookup, read_block_chunk by done. cbn [mbind result_mbind].
    rewrite entries_enc.
    2:{ destruct (sized_parts _ Hs) as [Hb _].
        by eapply sized_chunk; [exact Hb|apply elem_of_app; right; left]. }
    rewrite concat_app in Hk. cbn [concat] in Hk.
    apply ksorted_app in Hk as (_ & Hk & _). apply ksorted_app in Hk as (Hkc & _ & _).
    rewrite scan_get_sorted by done. unfold decode_opt.
    rewrite concat_app. cbn [concat]. rewrite !alookup_app.
    rewrite (alookup_out sk (concat cs1)), (alookup_out sk (concat cs2)).
    + by destruct (alookup sk c).
    + intros k' v Hin ->. by apply H2, bytes_lt_irrefl in Hin.
    + intros k' v Hin ->. by apply H1, bytes_lt_irrefl in Hin.
Qed.

(** * Seeks *)

(** The result [seek] derives from the first entry at or after the target. *)
Definition seek_result (cf_byte : byte) (o : option entry)
    : Result (option (bytes * MemValue)) :=
  match o with
  | None => Ok None
  | Some (ek, ev) =>
    if decide (head ek = Some cf_byte) then
      mv ← ok_or (MemValue_decode ev) (Corruption "sstable value");
      Ok (Some (tail ek, mv))
    else Ok None
  end.

Lemma scan_seek_lower cf_byte sk l :
  scan_seek cf_byte sk l
  = match lower_bound sk l with None => None | o => Some (seek_result cf_byte o) end.
Proof.
  induction l as [|[k v] l IH]; cbn; [done|]. by destruct (bytes_leb sk k).
Qed.

Lemma seek_blocks_lower cs1 cs2 n cf_byte sk :
  let file := sst_file (cs1 ++ cs2) in
  sized file →
  seek_blocks (mkSstReader file (idx_exact 0 (cs1 ++ cs2)) n) cf_byte sk
    (idx_exact (length (concat (blk <$> cs1))) cs2)
  = seek_result cf_byte (lower_bound sk (concat cs2)).
Proof.
  cbn zeta. revert cs1. induction cs2 as [|c cs2 IH]; intros cs1 Hs; [done|].
  cbn [idx_exact seek_blocks]. rewrite read_block_chunk by done. cbn [mbind result_mbind].
  rewrite entries_enc.
  2:{ destruct (sized_parts _ Hs) as [Hb _]. by eapply sized_chunk; [exact Hb|apply elem_of_app; right; left]. }
  rewrite scan_seek_lower. cbn [concat]. rewrite lower_bound_app.
  destruct (lower_bound sk c) as [[k v]|]; [done|].
  specialize (IH (cs1 ++ [c])). rewrite <- app_assoc in IH. cbn [app] in IH.
  rewrite <- IH by done. do 2 f_equal.
  rewrite fmap_app, concat_app, length_app. cbn. by rewrite app_nil_r.
Qed.

Lemma sst_seek_chunks chunks n cf from :
  let file := sst_file chunks in
  sized file → ksorted (concat chunks) → Forall (λ c, c ≠ []) chunks →
  sst_seek (mkSstReader file (idx_exact 0 chunks) n) cf from
  = seek_result (cf_u8 cf) (lower_bound (cf_u8 cf :: from) (concat chunks)).
Proof.
  intros file Hs Hk Hne. unfold sst_seek, candidate_block. cbn [r_index].
  set (sk := cf_u8 cf :: from). rewrite partition_point_index. unfold file in *.
  destruct (partition_point (leads sk) chunks) as [|i] eqn:Hp; cbn [from_option id].
  - rewrite drop_0. apply (seek_blocks_lower [] chunks n _ sk Hs).
  - destruct (candidate_split sk chunks i Hk Hne Hp) as (cs1 & c & cs2 & -> & Hl & H1 & H2).
    assert (drop i (idx_exact 0 (cs1 ++ c :: cs2))
      = idx_exact (length (concat (blk <$> cs1))) (c :: cs2)) as ->.
    { rewrite idx_exact_app. by apply drop_app_length'; rewrite length_idx_exact. }
    rewrite (seek_blocks_lower cs1 (c :: cs2)) by done.
    rewrite concat_app, lower_bound_app.
    by rewrite (lower_bound_skip sk (concat cs1)).
Qed.
End correct.

(** * From memtable to table *)

Section flush.
Context `{Crc32cLaws} {M : Type} `{SkipMapLaws MemValue M}.
Implicit Types (m : Memtable M).

(** Entries of one column family as they appear in the table. *)
Definition cf_entries m (cf : Cf) : list (bytes * bytes) :=
  (λ '(k, v), (cf_u8 cf :: k, MemValue_encode v)) <$> mt_iter_cf m cf.

Lemma sst_entries_cfs m :
  sst_entries m = cf_entries m CfDefault ++ cf_entries m CfWrite ++ cf_entries m CfLock.
Proof.
  assert (Hc : ∀ cf, ('(k, v) ← mt_iter_cf m cf; [(cf_u8 cf :: k, MemValue_encode v)])
    = cf_entries m cf).
  { intros cf. unfold cf_entries. induction (mt_iter_cf m cf) as [|[k v] l IH]; [done|].
    cbn. by rewrite <- IH. }
  unfold sst_entries. cbn [Cf_ALL mbind list_bind]. rewrite !Hc. by rewrite app_nil_r.
Qed.

Lemma elem_of_cf_entries m cf sk ev :
  (sk, ev) ∈ cf_entries m cf →
  ∃ k v, sk = cf_u8 cf :: k ∧ ev = MemValue_encode v ∧ (k, v) ∈ mt_iter_cf m cf.
Proof.
  unfold cf_entries. rewrite list_elem_of_fmap. intros ([k v] & [= -> ->] & Hin). eauto.
Qed.

Lemma bytes_cmp_cons x a b : bytes_cmp (x :: a) (x :: b) = bytes_cmp a b.
Proof. cbn. by rewrite N.compare_refl. Qed.

Lemma cf_entries_sorted m cf : ksorted (cf_entries m cf).
Proof.
  pose proof (mt_iter_sorted m cf) as Hs. unfold cf_entries.
  induction (mt_iter_cf m cf) as [|[k v] l IH]; [constructor|]. cbn.
  apply ksorted_cons in Hs as [Hs Hlt]. apply ksorted_cons. split; [auto|].
  intros sk ev Hin. apply list_elem_of_fmap in Hin as ([k' v'] & [= -> ->] & Hin).
  unfold bytes_lt. rewrite bytes_cmp_cons. by eapply Hlt.
Qed.

Lemma sst_entries_sorted m : ksorted (sst_entries m).
Proof.
  rewrite sst_entries_cfs. apply ksorted_app. split_and!; [apply cf_entries_sorted| |].
  - apply ksorted_app. split_and!; [apply cf_entries_sorted..|].
    intros ???? (? & ? & -> & _ & _)%elem_of_cf_entries (? & ? & -> & _ & _)%elem_of_cf_entries.
    done.
  - intros ???? (? & ? & -> & _ & _)%elem_of_cf_entries
      [(? & ? & -> & _ & _)%elem_of_cf_entries|(? & ? & -> & _ & _)%elem_of_cf_entries]%elem_of_app;
      done.
Qed.

Lemma alookup_cf_entries m cf k :
  alookup (cf_u8 cf :: k) (cf_entries m cf) = MemValue_encode <$> alookup k (mt_iter_cf m cf).
Proof.
  unfold cf_entries. induction (mt_iter_cf m cf) as [|[k' v'] l IH]; [done|].
  cbn [fmap list_fmap alookup] in *. rewrite IH.
  destruct (decide (k = k')) as [->|]; [by rewrite decide_True|].
  by rewrite decide_False by congruence.
Qed.

Lemma alookup_other_cf m cf cf' k :
  cf ≠ cf' → alookup (cf_u8 cf :: k) (cf_entries m cf') = None.
Proof.
  intros Hne. apply alookup_None. intros v Hin.
  apply elem_of_cf_entries in Hin as (? & ? & [= E _] & _). by destruct cf, cf'.
Qed.

Lemma alookup_sst_entries m cf k :
  alookup (cf_u8 cf :: k) (sst_entries m) = MemValue_encode <$> mt_get_cf m cf k.
Proof.
  rewrite sst_entries_cfs, !alookup_app, mt_get_iter.
  destruct cf; rewrite alookup_cf_entries, ?alookup_other_cf by done;
    by destruct (alookup k _).
Qed.

Lemma lower_bound_cf_entries m cf from :
  lower_bound (cf_u8 cf :: from) (cf_entries m cf)
  = (λ '(k, v), (cf_u8 cf :: k, MemValue_encode v)) <$> lower_bound from (mt_iter_cf m cf).
Proof.
  unfold cf_entries. induction (mt_iter_cf m cf) as [|[k' v'] l IH]; [done|]. cbn.
  unfold bytes_leb. rewrite bytes_cmp_cons. by destruct (bytes_cmp from k').
Qed.

(** A hit in another column family's entries is reported as [None]. *)
Lemma seek_result_other m cf cf' sk :
  cf ≠ cf' → seek_result (cf_u8 cf) (lower_bound sk (cf_entries m cf')) = Ok None.
Proof.
  intros Hne. destruct (lower_bound sk (cf_entries m cf')) as [[ek ev]|] eqn:E; [|done].
  apply lower_bound_Some in E as [(? & ? & -> & _)%elem_of_cf_entries _]. cbn.
  rewrite decide_False; [done|]. intros [= E]. by destruct cf, cf'.
Qed.

Lemma seek_result_hit m cf from l :
  (∀ sk, seek_result (cf_u8 cf) (lower_bound sk l) = Ok None) →
  seek_result (cf_u8 cf) (lower_bound (cf_u8 cf :: from) (cf_entries m cf ++ l))
  = Ok (mt_seek_cf m cf from).
Proof.
  intros Hl. rewrite lower_bound_app, lower_bound_cf_entries, mt_seek_iter.
  destruct (lower_bound from (mt_iter_cf m cf)) as [[k v]|]; cbn; [|apply Hl].
  rewrite decide_True by done. by rewrite MemValue_decode_encode.
Qed.

Lemma lower_bound_before m cf cf' k :
  Byte.to_N (cf_u8 cf) < Byte.to_N (cf_u8 cf') →
  lower_bound (cf_u8 cf' :: k) (cf_entries m cf) = None.
Proof.
  intros Hlt. apply lower_bound_skip. intros ? ? (? & ? & -> & _)%elem_of_cf_entries.
  unfold bytes_lt. cbn. by apply N.compare_lt_iff in Hlt as ->.
Qed.

Lemma seek_sst_entries m cf from :
  seek_result (cf_u8 cf) (lower_bound (cf_u8 cf :: from) (sst_entries m))
  = Ok (mt_seek_cf m cf from).
Proof.
  rewrite sst_entries_cfs. destruct cf.
  - apply seek_result_hit. intros sk. rewrite lower_bound_app.
    destruct (lower_bound sk (cf_entries m CfWrite)) eqn:E;
      [rewrite <- E|]; by apply seek_result_other.
  - rewrite lower_bound_app, (lower_bound_before m CfDefault CfWrite) by done.
    apply seek_result_hit. intros sk. by apply seek_result_other.
  - rewrite !lower_bound_app, (lower_bound_before m CfDefault CfLock),
      (lower_bound_before m CfWrite CfLock) by done.
    rewrite <- (app_nil_r (cf_entries m CfLock)). by apply seek_result_hit.
Qed.

(** Flushing never panics; the table it writes opens, and reads and seeks on it
    answer exactly as the memtable does. *)
Lemma write_sst_correct m n :
  ∃ file, write_sst m = Some file ∧
    (sized file → ∃ r, sst_open file n = Ok r ∧ r_file_no r = n ∧
      (∀ cf k, sst_get r cf k = Ok (mt_get_cf m cf k)) ∧
      (∀ cf from, sst_seek r cf from = Ok (mt_seek_cf m cf from))).
Proof.
  destruct (sst_write_chunks DEFAULT_BLOCK_SIZE (sst_entries m)) as (chunks & Hw & Hc & Hne).
  exists (sst_file chunks). split; [exact Hw|]. intros Hs.
  pose proof (sst_entries_sorted m) as Hk. rewrite <- Hc in Hk.
  eexists. split_and!; [by apply sst_open_file|done| |].
  - intros cf k. rewrite sst_get_chunks by done. rewrite Hc, alookup_sst_entries.
    destruct (mt_get_cf m cf k); cbn; [by rewrite MemValue_decode_encode|done].
  - intros cf from. rewrite sst_seek_chunks by done. rewrite Hc. apply seek_sst_entries.
Qed.
End flush.

(** * Sizes

    Sizes: the byte counter of a memtable bounds the table written from it, so a
    memtable of at most 1 GiB yields a table whose offsets never wrap. *)

Section size.
Context `{Crc32cLaws} {M : Type} `{SkipMapLaws MemValue M}.
Implicit Types (m : Memtable M) (l : list (bytes * MemValue)).

Lemma sum_cons x (l : list nat) : sum_list (x :: l) = (x + sum_list l)%nat.
Proof. done. Qed.

(** * The file *)

(** What one table entry costs, its share of index and checksum included. *)
Definition entry_cost (e : bytes * bytes) : nat := (2 * length e.1 + length e.2 + 28)%nat.

Lemma length_enc_entry_eq e : length (enc_entry e) = (8 + length e.1 + length e.2)%nat.
Proof. unfold enc_entry. rewrite length_app, !length_lp. lia. Qed.

Lemma length_enc_entries_cost c :
  (length (enc_entries c) ≤ sum_list (entry_cost <$> c))%nat.
Proof.
  unfold enc_entries. induction c as [|e c IH]; [done|].
  rewrite !fmap_cons. cbn [concat]. rewrite sum_cons, length_app, length_enc_entry_eq.
  unfold entry_cost at 1. lia.
Qed.

Lemma length_blk_index o c :
  c ≠ [] →
  (length (blk c) + length (concat (ie_bytes <$> idx_from o [c]))
    ≤ sum_list (entry_cost <$> c))%nat.
Proof.
  destruct c as [|[k v] c]; [done|]. intros _. pose proof (length_enc_entries_cost c) as Hc.
  unfold blk, enc_entries in *. cbn [idx_from first_key]. rewrite !fmap_cons, fmap_nil.
  cbn [concat]. unfold ie_bytes. rewrite sum_cons, !length_app, length_lp, !length_be_bytes, length_enc_entry_eq.
  cbn [length fst snd]. unfold entry_cost at 1. cbn [fst snd]. lia.
Qed.

Lemma length_sst_file chunks :
  Forall (λ c, c ≠ []) chunks →
  (length (sst_file chunks) ≤ sum_list (entry_cost <$> concat chunks) + 24)%nat.
Proof.
  intros Hne. unfold sst_file, idx_bytes, footer_bytes.
  rewrite !length_app, !length_be_bytes. generalize 0%N.
  assert (Hc : ∀ o, (length (concat (blk <$> chunks)) + length (concat (ie_bytes <$> idx_from o chunks))
    ≤ sum_list (entry_cost <$> concat chunks))%nat).
  { induction Hne as [|c chunks Hc Hne IH]; intros o; [cbn; lia|].
    pose proof (length_blk_index o c Hc) as Hb. cbn [idx_from concat] in *.
    rewrite !fmap_cons in *. rewrite fmap_nil in Hb. cbn [concat] in *.
    rewrite app_nil_r in Hb. rewrite !length_app, fmap_app, sum_list_with_app. specialize (IH (u64_add o (as_u32 (N.of_nat (length (blk c)))))). 
    lia. }
  intros o. specialize (Hc o). lia.
Qed.

(** * The memtable's counter *)

Definition entry_weight (e : bytes * MemValue) : nat :=
  (length e.1 + match e.2 with MPut v => length v | MDelete => 0 end + 24)%nat.
Definition weight l : nat := sum_list (entry_weight <$> l).

Definition mt_weight m : nat :=
  (weight (mt_iter_cf m CfDefault) + weight (mt_iter_cf m CfWrite) + weight (mt_iter_cf m CfLock))%nat.

(** The counter never undercounts the live entries. *)
Definition mt_bounded m : Prop := (mt_weight m ≤ mt_size m)%nat.

Lemma ksorted_NoDup {V} (l : list (bytes * V)) : ksorted l → NoDup l.
Proof.
  induction l as [|[k v] l IH]; [constructor|]. intros [Hs Hlt]%ksorted_cons.
  constructor; [|auto]. intros Hin. apply Hlt in Hin. by apply bytes_lt_irrefl in Hin.
Qed.

Lemma weight_filter k l : (weight (filter (λ e, e.1 ≠ k) l) ≤ weight l)%nat.
Proof.
  unfold weight. induction l as [|e l IH]; [done|].
  rewrite filter_cons. case_decide; rewrite !fmap_cons, !sum_cons; lia.
Qed.

Lemma weight_insert (s : M) k v :
  (weight (sm_iter (sm_insert k v s)) ≤ entry_weight (k, v) + weight (sm_iter s))%nat.
Proof.
  set (old := filter (λ e, e.1 ≠ k) (sm_iter s)).
  assert (Hmem : ∀ (s' : M) k' v', (k', v') ∈ sm_iter s' ↔ sm_get k' s' = Some v').
  { intros s' k' v'. rewrite sm_get_iter. split; [|apply alookup_elem].
    apply alookup_sorted, sm_iter_sorted. }
  assert (Hp : Permutation (sm_iter (sm_insert k v s)) ((k, v) :: old)).
  { apply NoDup_Permutation.
    - apply ksorted_NoDup, sm_iter_sorted.
    - constructor; [by intros [? _]%list_elem_of_filter|].
      apply NoDup_filter, ksorted_NoDup, sm_iter_sorted.
    - intros [k' v']. rewrite Hmem, sm_get_insert, elem_of_cons. unfold old.
      rewrite list_elem_of_filter, Hmem. cbn. clear Hmem. case_decide as E; [subst|]; split.
      + intros [= ->]. by left.
      + intros [[= ->]|[? _]]; done.
      + intros Hg. right. by split.
      + intros [[= -> ->]|[_ Hg]]; done. }
  pose proof (weight_filter k (sm_iter s)) as Hold. fold old in Hold.
  assert (weight (sm_iter (sm_insert k v s)) = weight ((k, v) :: old)) as ->.
  { unfold weight. by rewrite Hp. }
  unfold weight in *. rewrite fmap_cons, sum_cons. lia.
Qed.

Lemma mt_bounded_new : mt_bounded Memtable_new.
Proof. unfold mt_bounded, mt_weight, mt_iter_cf. cbn. by rewrite sm_iter_new. Qed.

Lemma mt_weight_insert m cf k v :
  (mt_weight (mt_insert m cf k v) ≤ entry_weight (k, v) + mt_weight m)%nat.
Proof.
  unfold mt_weight, mt_iter_cf. pose proof (weight_insert (mt_cf m cf) k v) as Hw.
  destruct cf; cbn in *; lia.
Qed.

(** What an operation adds to the counter. *)
Definition op_weight (op : WriteOp) : nat :=
  match op with
  | WPut _ k v => (length k + length v + 24)%nat
  | WDelete _ k => (length k + 24)%nat
  end.
Definition batch_weight (b : WriteBatch) : nat := sum_list (op_weight <$> ops b).

Lemma mt_size_apply m seq b : mt_size (mt_apply m seq b) = (mt_size m + batch_weight b)%nat.
Proof. apply mt_apply_size. Qed.

Lemma mt_bounded_apply m seq b : mt_bounded m → mt_bounded (mt_apply m seq b).
Proof.
  unfold mt_bounded. rewrite mt_size_apply. intros Hm.
  assert (Hl : ∀ (l : list WriteOp) acc, (mt_weight (fold_left mt_apply_op l acc).1
    ≤ mt_weight acc.1 + sum_list (op_weight <$> l))%nat).
  { induction l as [|op l IH]; intros acc; cbn [fold_left]; [cbn; lia|].
    specialize (IH (mt_apply_op acc op)). rewrite mt_apply_op_fst in IH.
    pose proof (mt_weight_insert acc.1 (op_cf op) (op_key op) (op_value op)) as Hi.
    rewrite fmap_cons, sum_cons.
    assert (entry_weight (op_key op, op_value op) ≤ op_weight op)%nat; [|lia].
    destruct op; unfold entry_weight; cbn; lia. }
  specialize (Hl (ops b) (m, 0%nat)). unfold mt_apply.
  destruct (fold_left mt_apply_op (ops b) (m, 0%nat)) as [m' a]. cbn [fst] in Hl.
  unfold mt_weight, mt_iter_cf, batch_weight in *. cbn in *. lia.
Qed.

(** A zero counter means an empty memtable. *)
Lemma mt_bounded_empty m cf k : mt_bounded m → mt_size m = 0%nat → mt_get_cf m cf k = None.
Proof.
  unfold mt_bounded, mt_weight. intros Hb Hz. rewrite mt_get_iter.
  assert (Hw : weight (mt_iter_cf m cf) = 0%nat) by (destruct cf; lia).
  destruct (mt_iter_cf m cf) as [|[k' v] l]; [done|].
  unfold weight in Hw. rewrite fmap_cons, sum_cons in Hw. unfold entry_weight in Hw. lia.
Qed.

Lemma sst_entries_cost m :
  (sum_list (entry_cost <$> sst_entries m) ≤ 2 * mt_weight m)%nat.
Proof.
  assert (Hc : ∀ cf, (sum_list (entry_cost <$> cf_entries m cf) ≤ 2 * weight (mt_iter_cf m cf))%nat).
  { intros cf. unfold cf_entries, weight. induction (mt_iter_cf m cf) as [|[k v] l IH]; [cbn; lia|].
    rewrite !fmap_cons, !sum_cons. unfold entry_cost at 1, entry_weight at 1.
    destruct v; cbn [fst snd length MemValue_encode]; lia. }
  rewrite sst_entries_cfs, !fmap_app. unfold mt_weight.
  pose proof (Hc CfDefault). pose proof (Hc CfWrite). pose proof (Hc CfLock).
  rewrite !sum_list_with_app. lia.
Qed.

(** A memtable of at most 1 GiB is written as a table below 4 GiB. *)
Lemma write_sst_sized m file :
  mt_bounded m → (N.of_nat (mt_size m) ≤ 1073741824)%N → write_sst m = Some file → sized file.
Proof.
  intros Hb Hs Hw.
  destruct (sst_write_chunks DEFAULT_BLOCK_SIZE (sst_entries m)) as (chunks & Hw' & Hc & Hne).
  unfold write_sst in Hw. rewrite Hw' in Hw. injection Hw as <-.
  pose proof (length_sst_file chunks Hne) as Hl. rewrite Hc in Hl.
  pose proof (sst_entries_cost m). unfold mt_bounded in Hb. unfold sized, u32_max. lia.
Qed.
End size.
