(* ===== verification/Wal.v ===== *)
(** The write-ahead log: framed records, append, and replay up to the torn tail
    ([engine/src/wal.rs]). *)

From stdpp Require Import base list numbers strings.
From Stdlib Require Import Strings.Byte.
From S2P Require Import Prelude Crc Encoding.

Definition HEADER_LEN : nat := 8.
Definition SEQ_LEN : nat := 8.

Inductive FsyncMode := Fsync | FullFsync | FsyncNone.

Section wal.
Context `{Crc32c}.

(** * Writer *)

(** An append handle and the segment file behind it: [wf_data] is the content
    the operating system holds, of which the first [wf_synced] bytes have
    reached stable storage. *)
Record WalWriter := mkWalWriter {
  wf_data : bytes;
  wf_synced : nat;
  wf_written : nat;
}.

#[export] Instance eta_walwriter : Eta WalWriter := λ w,
  mkWalWriter (wf_data w) (wf_synced w) (wf_written w).

(** [WalWriter::create] (truncating) and [WalWriter::open_append] on a file with
    content [data]. *)
Definition WalWriter_create : WalWriter := mkWalWriter [] 0 0.
Definition WalWriter_open_append (data : bytes) : WalWriter :=
  mkWalWriter data (length data) (length data).

(** The frame built by [append]: the checksum overwrites a zero placeholder. *)
Definition wal_frame (seq : N) (payload : bytes) : bytes :=
  let body_len := (SEQ_LEN + length payload)%nat in
  let frame := u32_be (as_u32 (N.of_nat body_len)) in
  let crc_pos := length frame in
  let frame := frame ++ [x00; x00; x00; x00] in
  let body_start := length frame in
  let frame := frame ++ u64_be seq in
  let frame := frame ++ payload in
  let crc := crc32c (drop body_start frame) in
  take crc_pos frame ++ u32_be crc ++ drop (crc_pos + 4) frame.

(** [append]; [fault = Some n] is a [write_all] that fails after [n] bytes. *)
Definition wal_append (w : WalWriter) (seq : N) (payload : bytes) (fault : option nat)
    : WalWriter * Result unit :=
  let frame := wal_frame seq payload in
  match fault with
  | Some n => (w <| wf_data := wf_data w ++ take n frame |>, Err (Io "write"))
  | None =>
    (mkWalWriter (wf_data w ++ frame) (wf_synced w) (wf_written w + length frame), Ok tt)
  end.

(** [sync]; [fault] is a failing [sync_all]. *)
Definition wal_sync (w : WalWriter) (mode : FsyncMode) (fault : bool)
    : WalWriter * Result unit :=
  match mode with
  | FsyncNone => (w, Ok tt)
  | Fsync | FullFsync =>
    if fault then (w, Err (Io "fsync"))
    else (w <| wf_synced := length (wf_data w) |>, Ok tt)
  end.

(** * Reader *)

Record WalReader := mkWalReader { wr_data : bytes; wr_pos : nat }.

Definition WalReader_open (data : bytes) : WalReader := mkWalReader data 0.
Definition valid_len (r : WalReader) : nat := wr_pos r.

Definition next_record (r : WalReader) : option ((N * bytes) * WalReader) :=
  let buf := wr_data r in
  let start := wr_pos r in
  if (length buf <? start + HEADER_LEN)%nat then None else
  let len := N.to_nat (be_N (slice start (start + 4) buf)) in
  let crc := be_N (slice (start + 4) (start + 8) buf) in
  let body_start := (start + HEADER_LEN)%nat in
  let body_end := (body_start + len)%nat in
  if (length buf <? body_end)%nat then None else
  let body := slice body_start body_end buf in
  if negb (crc32c body =? crc) then None else
  if (length body <? SEQ_LEN)%nat then None else
  let seq := be_N (slice 0 SEQ_LEN body) in
  let payload := drop SEQ_LEN body in
  Some ((seq, payload), mkWalReader buf body_end).

(** [while let Some(rec) = reader.next_record()]: every record takes at least
    sixteen bytes, so [length data] steps of fuel are never exhausted
    ([read_records_frames]). *)
Fixpoint read_records (fuel : nat) (r : WalReader) : list (N * bytes) * WalReader :=
  match fuel with
  | O => ([], r)
  | S fuel' =>
    match next_record r with
    | None => ([], r)
    | Some (rec, r') =>
      let '(recs, r'') := read_records fuel' r' in (rec :: recs, r'')
    end
  end.

Definition replay (data : bytes) : list (N * bytes) * WalReader :=
  read_records (length data) (WalReader_open data).

(** * Frames read back *)

Definition wal_body (seq : N) (payload : bytes) : bytes := u64_be seq ++ payload.

Lemma wal_frame_eq seq payload :
  wal_frame seq payload
  = u32_be (as_u32 (N.of_nat (8 + length payload)))
      ++ u32_be (crc32c (wal_body seq payload)) ++ wal_body seq payload.
Proof.
  unfold wal_frame, SEQ_LEN. set (l := u32_be (as_u32 _)).
  assert (Hl : length l = 4%nat) by apply length_be_bytes.
  assert (E : ((l ++ [x00; x00; x00; x00]) ++ u64_be seq) ++ payload
    = (l ++ [x00; x00; x00; x00]) ++ wal_body seq payload) by by rewrite <- app_assoc.
  rewrite E, drop_app_length.
  assert (drop (length l + 4) ((l ++ [x00; x00; x00; x00]) ++ wal_body seq payload)
    = wal_body seq payload) as ->.
  { apply drop_app_length'. rewrite length_app. cbn. lia. }
  by rewrite <- (app_assoc l), take_app_length.
Qed.

Definition rec_frame (rec : N * bytes) : bytes := wal_frame rec.1 rec.2.

Definition rec_wf (rec : N * bytes) : Prop :=
  is_u64 rec.1 ∧ is_u32 (N.of_nat (8 + length rec.2)).

Lemma length_wal_frame seq payload :
  length (wal_frame seq payload) = (16 + length payload)%nat.
Proof.
  rewrite wal_frame_eq. unfold wal_body. rewrite !length_app, !length_be_bytes. lia.
Qed.

Lemma length_frames_take j recs :
  (length (concat (rec_frame <$> take j recs)) ≤ length (concat (rec_frame <$> recs)))%nat.
Proof.
  rewrite <- (take_drop j recs) at 2. rewrite fmap_app, concat_app, length_app. lia.
Qed.

Context `{!Crc32cLaws}.

Lemma next_record_frame p rec s :
  rec_wf rec →
  next_record (mkWalReader (p ++ rec_frame rec ++ s) (length p))
  = Some (rec, mkWalReader (p ++ rec_frame rec ++ s) (length p + length (rec_frame rec))).
Proof.
  destruct rec as [seq payload]. intros [Hs Hp]. cbn [fst snd] in *.
  unfold next_record, HEADER_LEN, SEQ_LEN, rec_frame. cbn [wr_data wr_pos fst snd].
  set (buf := p ++ wal_frame seq payload ++ s).
  assert (Hb : length buf = (length p + (16 + length payload) + length s)%nat).
  { unfold buf. rewrite !length_app, length_wal_frame. lia. }
  destruct (Nat.ltb_spec (length buf) (length p + 8)); [lia|].
  set (l := u32_be (as_u32 (N.of_nat (8 + length payload)))).
  set (c := u32_be (crc32c (wal_body seq payload))). set (b := wal_body seq payload).
  assert (Eb : buf = p ++ l ++ c ++ b ++ s).
  { unfold buf, l, c, b. rewrite wal_frame_eq. by rewrite <- !app_assoc. }
  assert (Hl : length l = 4%nat) by apply length_be_bytes.
  assert (Hc : length c = 4%nat) by apply length_be_bytes.
  assert (Hbl : length b = (8 + length payload)%nat).
  { unfold b, wal_body. by rewrite length_app, length_be_bytes. }
  assert (slice (length p) (length p + 4) buf = l) as ->.
  { rewrite Eb. apply slice_app'; lia. }
  assert (slice (length p + 4) (length p + 8) buf = c) as ->.
  { rewrite Eb, (app_assoc p). apply slice_app'; rewrite length_app; lia. }
  assert (be_N l = N.of_nat (8 + length payload)) as ->.
  { unfold l. by rewrite as_u32_id, be_N_u32. }
  rewrite Nat2N.id.
  destruct (Nat.ltb_spec (length buf) (length p + 8 + (8 + length payload))); [lia|].
  assert (slice (length p + 8) (length p + 8 + (8 + length payload)) buf = b) as ->.
  { rewrite Eb, (app_assoc p), (app_assoc (p ++ l)).
    apply slice_app'; rewrite !length_app; lia. }
  unfold c. rewrite be_N_crc. fold b. rewrite N.eqb_refl. cbn [negb].
  destruct (Nat.ltb_spec (length b) 8); [lia|].
  assert (slice 0 8 b = u64_be seq) as ->.
  { apply (slice_app' 0 8 [] (u64_be seq) payload); [done|]. by rewrite length_be_bytes. }
  assert (drop 8 b = payload) as ->.
  { unfold b, wal_body. by apply drop_app_length'; rewrite length_be_bytes. }
  rewrite be_N_u64 by done. rewrite length_wal_frame. do 3 f_equal. lia.
Qed.

(** A record cut short — in its header or its body — is not intact. *)
Lemma next_record_torn p rec n :
  rec_wf rec → (n < length (rec_frame rec))%nat →
  next_record (mkWalReader (p ++ take n (rec_frame rec)) (length p)) = None.
Proof.
  destruct rec as [seq payload]. intros [Hs Hp] Hn. cbn [fst snd] in *.
  unfold next_record, HEADER_LEN, SEQ_LEN, rec_frame in *. cbn [wr_data wr_pos fst snd] in *.
  rewrite length_wal_frame in Hn.
  set (buf := p ++ take n (wal_frame seq payload)).
  assert (Hb : length buf = (length p + n)%nat).
  { unfold buf. rewrite length_app, length_take, length_wal_frame. lia. }
  destruct (Nat.ltb_spec (length buf) (length p + 8)) as [|Hge]; [done|].
  assert (slice (length p) (length p + 4) buf
    = u32_be (as_u32 (N.of_nat (8 + length payload)))) as ->.
  { unfold buf, slice. rewrite drop_app_length, take_take, wal_frame_eq.
    rewrite take_app_le by (rewrite length_be_bytes; lia).
    apply take_ge. rewrite length_be_bytes. lia. }
  rewrite as_u32_id, be_N_u32, Nat2N.id by done.
  by destruct (Nat.ltb_spec (length buf) (length p + 8 + (8 + length payload))); [|lia].
Qed.

Lemma read_records_frames recs p tail fuel :
  Forall rec_wf recs →
  next_record (mkWalReader (p ++ concat (rec_frame <$> recs) ++ tail)
    (length p + length (concat (rec_frame <$> recs)))) = None →
  (length recs ≤ fuel)%nat →
  read_records fuel (mkWalReader (p ++ concat (rec_frame <$> recs) ++ tail) (length p))
  = (recs, mkWalReader (p ++ concat (rec_frame <$> recs) ++ tail)
      (length p + length (concat (rec_frame <$> recs)))).
Proof.
  intros Hwf. revert p fuel. induction Hwf as [|rec recs Hr Hwf IH]; intros p fuel Ht Hf.
  - cbn in *. rewrite Nat.add_0_r in *. destruct fuel; cbn; [done|]. by rewrite Ht.
  - destruct fuel as [|fuel]; [cbn in Hf; lia|].
    cbn [fmap list_fmap concat] in *. rewrite <- app_assoc in *. cbn [read_records].
    rewrite next_record_frame by done.
    rewrite length_app in *. rewrite Nat.add_assoc in *.
    rewrite <- length_app in *. rewrite (app_assoc p) in *.
    rewrite IH; [done|done|]. cbn in Hf. lia.
Qed.

Lemma length_frames_ge recs : (length recs ≤ length (concat (rec_frame <$> recs)))%nat.
Proof.
  induction recs as [|r recs IH]; cbn [fmap list_fmap concat length]; [lia|].
  rewrite length_app. unfold rec_frame at 1. rewrite length_wal_frame. lia.
Qed.

(** Replay of intact records followed by bytes that start no intact record. *)
Lemma replay_frames recs tail :
  Forall rec_wf recs →
  next_record (mkWalReader (concat (rec_frame <$> recs) ++ tail)
    (length (concat (rec_frame <$> recs)))) = None →
  replay (concat (rec_frame <$> recs) ++ tail)
  = (recs, mkWalReader (concat (rec_frame <$> recs) ++ tail)
      (length (concat (rec_frame <$> recs)))).
Proof.
  intros Hwf Ht. apply (read_records_frames recs [] tail); [done|done|].
  rewrite length_app. pose proof (length_frames_ge recs). lia.
Qed.

Lemma next_record_eof data : next_record (mkWalReader data (length data)) = None.
Proof.
  unfold next_record, HEADER_LEN. cbn [wr_data wr_pos].
  by destruct (Nat.ltb_spec (length data) (length data + 8)); [|lia].
Qed.

Lemma replay_intact recs :
  Forall rec_wf recs →
  replay (concat (rec_frame <$> recs))
  = (recs, mkWalReader (concat (rec_frame <$> recs)) (length (concat (rec_frame <$> recs)))).
Proof.
  intros Hwf. pose proof (replay_frames recs [] Hwf) as E. rewrite !app_nil_r in E.
  apply E, next_record_eof.
Qed.

(** A crash cuts a well-formed log anywhere: what is left is the records whose
    frames survived whole and bytes that start no intact record. *)
Lemma frames_cut recs : Forall rec_wf recs → ∀ n, (n ≤ length (concat (rec_frame <$> recs)))%nat →
  ∃ k tl, (k ≤ length recs)%nat ∧
    take n (concat (rec_frame <$> recs)) = concat (rec_frame <$> take k recs) ++ tl ∧
    (∀ j, (j ≤ length recs)%nat → (length (concat (rec_frame <$> take j recs)) ≤ n)%nat → (j ≤ k)%nat) ∧
    ∀ p, next_record (mkWalReader (p ++ tl) (length p)) = None.
Proof.
  induction 1 as [|rec recs Hr Hwf IH]; intros n Hn.
  - exists 0%nat, []. split_and!; [done| | |].
    + by destruct n.
    + intros j Hj. cbn in Hj. lia.
    + intros p. rewrite app_nil_r. apply next_record_eof.
  - cbn [fmap list_fmap concat] in *. rewrite length_app in Hn.
    destruct (decide (n < length (rec_frame rec))%nat) as [Hlt|Hge].
    + exists 0%nat, (take n (rec_frame rec)). split_and!; [lia| | |].
      * by rewrite take_app_le by lia.
      * intros [|j] _ Hj; [lia|]. cbn [take fmap list_fmap concat] in Hj.
        rewrite length_app in Hj. lia.
      * intros p. by apply next_record_torn.
    + destruct (IH (n - length (rec_frame rec))%nat ltac:(lia)) as (k & tl & Hk & E & Hmax & Hnone).
      exists (S k), tl. split_and!; [cbn; lia| | |done].
      * rewrite take_app_ge, E by lia. cbn [take fmap list_fmap concat]. by rewrite app_assoc.
      * intros [|j] Hj Hjn; [lia|]. cbn in Hj. cbn [take fmap list_fmap concat] in Hjn.
        rewrite length_app in Hjn. specialize (Hmax j). lia.
Qed.

(** Replay of a cut log yields exactly the records whose frames survived whole. *)
Lemma replay_cut recs n :
  Forall rec_wf recs → (n ≤ length (concat (rec_frame <$> recs)))%nat →
  ∃ k, (k ≤ length recs)%nat ∧
    (length (concat (rec_frame <$> take k recs)) ≤ n)%nat ∧
    (∀ j, (j ≤ length recs)%nat → (length (concat (rec_frame <$> take j recs)) ≤ n)%nat → (j ≤ k)%nat) ∧
    (replay (take n (concat (rec_frame <$> recs)))).1 = take k recs.
Proof.
  intros Hwf Hn. destruct (frames_cut recs Hwf n Hn) as (k & tl & Hk & E & Hmax & Hnone).
  exists k. split_and!; [done| |done|].
  - apply (f_equal length) in E. rewrite length_app, length_take in E. lia.
  - rewrite E, replay_frames; [done| |apply Hnone].
    apply Forall_take. done.
Qed.
End wal.
