(* ===== verification/Manifest.v ===== *)
(** The manifest: live SSTables and the flushed-sequence watermark
    ([engine/src/manifest.rs]). *)

From stdpp Require Import base list numbers strings.
From Stdlib Require Import Strings.Byte.
From S2P Require Import Prelude Crc.

Definition MANIFEST_MAGIC : N := 0x4d414e49463031.

Record Manifest := mkManifest {
  m_last_flushed_seq : N;
  m_sstables : list N;
}.

Definition Manifest_default : Manifest := mkManifest 0 [].

Section manifest.
Context `{Crc32c}.

Definition manifest_encode (m : Manifest) : bytes :=
  let buf := u64_be MANIFEST_MAGIC in
  let buf := buf ++ u64_be (m_last_flushed_seq m) in
  let buf := buf ++ u32_be (as_u32 (N.of_nat (length (m_sstables m)))) in
  let buf := fold_left (λ buf n, buf ++ u64_be n) (m_sstables m) buf in
  buf ++ u32_be (crc32c buf).

(** The [for _ in 0..count] loop. *)
Fixpoint decode_sst_nos (body : bytes) (pos count : nat) : Result (list N) :=
  match count with
  | O => Ok []
  | S count' =>
    if (length body <? pos + 8)%nat then Err (Corruption "manifest truncated") else
    rest ← decode_sst_nos body (pos + 8) count';
    Ok (be_N (slice pos (pos + 8) body) :: rest)
  end.

Definition manifest_decode (data : bytes) : Result Manifest :=
  if (length data <? 8 + 8 + 4 + 4)%nat then Err (Corruption "manifest too small") else
  let body := take (length data - 4) data in
  let crc_b := drop (length data - 4) data in
  if negb (crc32c body =? be_N crc_b) then Err (Corruption "manifest crc mismatch") else
  if negb (be_N (slice 0 8 body) =? MANIFEST_MAGIC) then Err (Corruption "manifest bad magic") else
  let last_flushed_seq := be_N (slice 8 16 body) in
  let count := N.to_nat (be_N (slice 16 20 body)) in
  sstables ← decode_sst_nos body 20 count;
  Ok (mkManifest last_flushed_seq sstables).

(** [Manifest::load] on the content of [MANIFEST], [None] when it is absent. *)
Definition manifest_load (file : option bytes) : Result Manifest :=
  match file with
  | Some data => manifest_decode data
  | None => Ok Manifest_default
  end.

(** * Round trip *)

Definition manifest_wf (m : Manifest) : Prop :=
  is_u64 (m_last_flushed_seq m) ∧ is_u32 (N.of_nat (length (m_sstables m))) ∧
  Forall (λ n, is_u64 n) (m_sstables m).

Lemma fold_u64 l buf :
  fold_left (λ buf n, buf ++ u64_be n) l buf = buf ++ concat (u64_be <$> l).
Proof.
  revert buf. induction l as [|n l IH]; intros buf; [by rewrite app_nil_r|].
  cbn [fold_left fmap list_fmap concat]. by rewrite IH, <- app_assoc.
Qed.

Lemma decode_sst_nos_bytes l p :
  Forall (λ n, is_u64 n) l →
  decode_sst_nos (p ++ concat (u64_be <$> l)) (length p) (length l) = Ok l.
Proof.
  intros Hl. revert p. induction Hl as [|n l Hn Hl IH]; intros p; [done|].
  cbn [fmap list_fmap concat length decode_sst_nos]. set (buf := p ++ u64_be n ++ _).
  assert (length p + 8 ≤ length buf)%nat.
  { unfold buf. rewrite !length_app, length_be_bytes. lia. }
  destruct (Nat.ltb_spec (length buf) (length p + 8)); [lia|].
  assert (slice (length p) (length p + 8) buf = u64_be n) as ->.
  { apply slice_app'; by rewrite ?length_be_bytes. }
  specialize (IH (p ++ u64_be n)). rewrite <- app_assoc, length_app, length_be_bytes in IH.
  unfold buf. rewrite IH, be_N_u64 by done. done.
Qed.

Context `{!Crc32cLaws}.

Lemma manifest_decode_encode m :
  manifest_wf m → manifest_decode (manifest_encode m) = Ok m.
Proof.
  intros (Hs & Hn & Hl). unfold manifest_decode, manifest_encode. rewrite fold_u64.
  set (a := u64_be MANIFEST_MAGIC). set (b := u64_be (m_last_flushed_seq m)).
  set (c := u32_be (as_u32 (N.of_nat (length (m_sstables m))))).
  set (d := concat _). set (body := ((a ++ b) ++ c) ++ d).
  assert (Ha : length a = 8%nat) by apply length_be_bytes.
  assert (Hb : length b = 8%nat) by apply length_be_bytes.
  assert (Hc : length c = 4%nat) by apply length_be_bytes.
  assert (Hbd : length body = (20 + length d)%nat).
  { unfold body. rewrite !length_app. lia. }
  rewrite length_app, length_be_bytes.
  destruct (Nat.ltb_spec (length body + 4) (8 + 8 + 4 + 4)); [lia|].
  rewrite Nat.add_sub, take_app_length, drop_app_length, be_N_crc, N.eqb_refl. cbn [negb].
  assert (slice 0 8 body = a) as ->.
  { unfold body. rewrite <- !app_assoc. apply (slice_app' 0 8 []); [done|cbn; lia]. }
  assert (slice 8 16 body = b) as ->.
  { unfold body. rewrite <- !app_assoc. apply slice_app'; lia. }
  assert (slice 16 20 body = c) as ->.
  { unfold body. rewrite <- (app_assoc (a ++ b)). apply slice_app'; rewrite length_app; lia. }
  assert (be_N a = MANIFEST_MAGIC) as -> by (vm_compute; reflexivity).
  rewrite N.eqb_refl. cbn [negb].
  assert (be_N b = m_last_flushed_seq m) as -> by by apply be_N_u64.
  assert (be_N c = N.of_nat (length (m_sstables m))) as ->.
  { unfold c. by rewrite as_u32_id, be_N_u32. }
  rewrite Nat2N.id.
  pose proof (decode_sst_nos_bytes (m_sstables m) ((a ++ b) ++ c) Hl) as E.
  fold d in E. fold body in E. rewrite !length_app, Ha, Hb, Hc in E.
  cbn [Nat.add] in E. rewrite E. by destruct m.
Qed.
End manifest.
