(* ===== verification/Db.v ===== *)
(** The engine core ([engine/src/db.rs]): memtables, SSTables, WAL and manifest
    behind one committer; group commit, freeze and flush, merged reads, and
    recovery on open.

    The committer thread processes one group at a time and the read gate makes
    each batch atomic for readers, so a group is one step of the state [Core].
    I/O failures are inputs ([Faults]); file-system side effects are part of the
    state. *)

From stdpp Require Import base list numbers strings sorting.
From Stdlib Require Import Strings.Byte.
From S2P Require Import Prelude Crc Encoding Keys Batch OrdMap Memtable Sstable Wal Manifest.

(** * Requests *)

Definition MAX_GROUP : nat := 1024.

Record PrewriteSpec := mkPrewrite {
  pw_key : bytes;
  pw_value : bytes;
  pw_primary : bytes;
  pw_start_ts : N;
  pw_ttl : N;
  pw_kind : LockKind;
}.

Inductive ResolveAction := RCommit (commit_ts : N) | RRollback.

Record ResolveSpec := mkResolve {
  rs_key : bytes;
  rs_start_ts : N;
  rs_action : ResolveAction;
}.

Inductive Op :=
  | OpWrite (b : WriteBatch)
  | OpPrewrite (s : PrewriteSpec)
  | OpResolve (s : ResolveSpec).

Definition build_resolve_batch (spec : ResolveSpec) : WriteBatch :=
  let b := batch_new in
  match rs_action spec with
  | RCommit commit_ts =>
    let b := batch_put b CfWrite (encode_data_key (rs_key spec) commit_ts)
               (encode_write_value (rs_start_ts spec)) in
    batch_delete b CfLock (rs_key spec)
  | RRollback =>
    let b := batch_delete b CfLock (rs_key spec) in
    batch_delete b CfDefault (encode_data_key (rs_key spec) (rs_start_ts spec))
  end.

Definition build_prewrite_batch (spec : PrewriteSpec) : WriteBatch :=
  let b := batch_new in
  let b := batch_put b CfDefault (encode_data_key (pw_key spec) (pw_start_ts spec))
             (pw_value spec) in
  let lock := mkLock (pw_primary spec) (pw_start_ts spec) (pw_ttl spec) (pw_kind spec) in
  batch_put b CfLock (pw_key spec) (Lock_encode lock).

(** * State *)

Record Options := mkOptions {
  o_memtable_size_threshold : nat;
  o_fsync_mode : FsyncMode;
}.

(** I/O outcomes of one group: per request, [Some n] fails its append after [n]
    bytes; then the group's fsync, the creation of the next segment, the table
    write and the manifest write. *)
Record Faults := mkFaults {
  f_append : nat → option nat;
  f_sync : bool;
  f_rotate : bool;
  f_write_sst : bool;
  f_manifest : bool;
}.
Definition no_faults : Faults := mkFaults (λ _, None) false false false false.

(** The data directory. *)
Record Disk := mkDisk {
  d_manifest : option bytes;
  d_wals : list (N * WalWriter);
  d_ssts : list (N * bytes);
}.

Section db.
Context `{Crc32c} {M : Type} `{SkipMap MemValue M}.

(** [c_immutable] is oldest first, each memtable tagged with the identity its
    [Arc] has in the source; [c_sstables] is oldest first.  The current WAL
    segment is [c_wal], the other segments on disk are [c_old_wals]. *)
Record Core := mkCore {
  c_opts : Options;
  c_active : Memtable M;
  c_immutable : list (N * Memtable M);
  c_sstables : list SstReader;
  c_wal : N * WalWriter;
  c_old_wals : list (N * WalWriter);
  c_seq : N;
  c_last_flushed_seq : N;
  c_next_seg : N;
  c_next_sst : N;
  c_sst_files : list (N * bytes);
  c_manifest : option bytes;
}.

#[export] Instance eta_core : Eta Core := λ c,
  mkCore (c_opts c) (c_active c) (c_immutable c) (c_sstables c) (c_wal c) (c_old_wals c)
    (c_seq c) (c_last_flushed_seq c) (c_next_seg c) (c_next_sst c) (c_sst_files c)
    (c_manifest c).

Definition disk_of (c : Core) : Disk :=
  mkDisk (c_manifest c) (c_old_wals c ++ [c_wal c]) (c_sst_files c).

(** * Reads across the levels *)

Fixpoint mem_levels_get (ms : list (Memtable M)) (cf : Cf) (key : bytes) : option MemValue :=
  match ms with
  | [] => None
  | m :: ms' =>
    match mt_get_cf m cf key with Some v => Some v | None => mem_levels_get ms' cf key end
  end.

Fixpoint sst_levels_get (ss : list SstReader) (cf : Cf) (key : bytes)
    : Result (option MemValue) :=
  match ss with
  | [] => Ok None
  | s :: ss' =>
    o ← sst_get s cf key;
    match o with Some v => Ok (Some v) | None => sst_levels_get ss' cf key end
  end.

Definition get_cf (c : Core) (cf : Cf) (key : bytes) : Result (option bytes) :=
  match mt_get_cf (c_active c) cf key with
  | Some v => Ok (into_present v)
  | None =>
    match mem_levels_get (rev (c_immutable c).*2) cf key with
    | Some v => Ok (into_present v)
    | None =>
      o ← sst_levels_get (rev (c_sstables c)) cf key;
      match o with Some v => Ok (into_present v) | None => Ok None end
    end
  end.

(** One candidate per level, tagged newest-first by rank. *)
Abbreviation cand := (bytes * MemValue * N)%type.

Fixpoint mem_cands (ms : list (Memtable M)) (cf : Cf) (from : bytes) (rank : N) : list cand :=
  match ms with
  | [] => []
  | m :: ms' =>
    match mt_seek_cf m cf from with
    | Some (k, v) => (k, v, rank) :: mem_cands ms' cf from (rank + 1)
    | None => mem_cands ms' cf from (rank + 1)
    end
  end.

Fixpoint sst_cands (ss : list SstReader) (cf : Cf) (from : bytes) (rank : N)
    : Result (list cand) :=
  match ss with
  | [] => Ok []
  | s :: ss' =>
    o ← sst_seek s cf from;
    rest ← sst_cands ss' cf from (rank + 1);
    match o with
    | Some (k, v) => Ok ((k, v, rank) :: rest)
    | None => Ok rest
    end
  end.

(** [a.0.cmp(&b.0).then(a.2.cmp(&b.2))] is not [Greater]. *)
Definition cand_le (a b : cand) : bool :=
  match bytes_cmp a.1.1 b.1.1 with
  | Lt => true
  | Gt => false
  | Eq => a.2 <=? b.2
  end.

(** [Iterator::min_by]: the first of the least elements. *)
Definition min_cand (l : list cand) : option cand :=
  match l with
  | [] => None
  | x :: l' => Some (fold_left (λ acc y, if cand_le acc y then acc else y) l' x)
  end.

Definition seek_cf (c : Core) (cf : Cf) (from : bytes) : Result (option (bytes * MemValue)) :=
  let mems := c_active c :: rev (c_immutable c).*2 in
  let cands := mem_cands mems cf from 0 in
  more ← sst_cands (rev (c_sstables c)) cf from (N.of_nat (length mems));
  Ok ((λ x : cand, x.1) <$> min_cand (cands ++ more)).

(** * The committer *)

Definition current_lock (c : Core) (key : bytes) : Result (option Lock) :=
  o ← get_cf c CfLock key;
  match o with
  | Some b => l ← ok_or (Lock_decode b) (Corruption "lock decode"); Ok (Some l)
  | None => Ok None
  end.

Definition check_prewrite (c : Core) (key : bytes) (start_ts : N) : Result unit :=
  newest ← seek_cf c CfWrite (encode_data_key key u64_max);
  let conflict :=
    match newest with
    | Some (wkey, _) =>
      match decode_data_key wkey with
      | Some (wuser, commit_ts) => bool_decide (wuser = key) && (start_ts <=? commit_ts)
      | None => false
      end
    | None => false
    end in
  if conflict then Err (Conflict "write conflict: a newer commit exists") else
  o ← get_cf c CfLock key;
  match o with
  | Some _ => Err (Conflict "key is already locked by another transaction")
  | None => Ok tt
  end.

(** The batch a request turns into; [inr] is an answer given without writing. *)
Definition op_batch (c : Core) (op : Op) : WriteBatch + Result N :=
  match op with
  | OpWrite b => inl b
  | OpPrewrite spec =>
    match check_prewrite c (pw_key spec) (pw_start_ts spec) with
    | Ok _ => inl (build_prewrite_batch spec)
    | Err e => inr (Err e)
    end
  | OpResolve spec =>
    match current_lock c (rs_key spec) with
    | Ok (Some lock) =>
      if lock_start_ts lock =? rs_start_ts spec
      then inl (build_resolve_batch spec) else inr (Ok 0)
    | Ok None => inr (Ok 0)
    | Err e => inr (Err e)
    end
  end.

(** One iteration of the request loop: new state, answer, and whether a record
    was appended. *)
Definition process_op (c : Core) (op : Op) (fault : option nat) : Core * Result N * bool :=
  match op_batch c op with
  | inr res => (c, res, false)
  | inl batch =>
    let seq := c_seq c + 1 in
    let c := c <| c_seq := seq |> in
    let '(w, r) := wal_append (c_wal c).2 seq (batch_encode batch) fault in
    let c := c <| c_wal := ((c_wal c).1, w) |> in
    match r with
    | Ok _ => (c <| c_active := mt_apply (c_active c) seq batch |>, Ok seq, true)
    | Err e => (c, Err e, false)
    end
  end.

Fixpoint process_ops (c : Core) (group : list Op) (i : nat) (f : Faults)
    : Core * list (Result N) * bool :=
  match group with
  | [] => (c, [], false)
  | op :: group' =>
    let '(c, r, app) := process_op c op (f_append f i) in
    let '(c, rs, app') := process_ops c group' (S i) f in
    (c, r :: rs, app || app')
  end.

Definition rotate (c : Core) (create_fault : bool) : Core * (N * Memtable M) :=
  let frozen := (c_next_seg c, c_active c) in
  let c := c <| c_active := Memtable_new |>
             <| c_immutable := c_immutable c ++ [frozen] |> in
  let n := c_next_seg c in
  let c := c <| c_next_seg := n + 1 |> in
  if create_fault then (c, frozen) else
  (c <| c_old_wals := c_old_wals c ++ [c_wal c] |> <| c_wal := (n, WalWriter_create) |>, frozen).

Definition persist_manifest (c : Core) (fault : bool) : Core * Result unit :=
  if fault then (c, Err (Io "manifest")) else
  let m := mkManifest (c_last_flushed_seq c) (r_file_no <$> c_sstables c) in
  (c <| c_manifest := Some (manifest_encode m) |>, Ok tt).

(** Drop the first queue entry with the frozen memtable's identity. *)
Fixpoint remove_frozen (id : N) (l : list (N * Memtable M)) : list (N * Memtable M) :=
  match l with
  | [] => []
  | (i, m) :: l' => if i =? id then l' else (i, m) :: remove_frozen id l'
  end.

Definition flush_memtable (c : Core) (frozen : N * Memtable M) (f : Faults)
    : Core * Result unit :=
  let install :=
    if mt_is_empty frozen.2 then (c, Ok tt) else
    let n := c_next_sst c in
    let c := c <| c_next_sst := n + 1 |> in
    if f_write_sst f then (c, Err (Io "write_sst")) else
    match write_sst frozen.2 with
    | None => (c, Err (Io "panic")) (* unreachable: [write_sst_correct] *)
    | Some file =>
      let c := c <| c_sst_files := c_sst_files c ++ [(n, file)] |> in
      match sst_open file n with
      | Ok reader => (c <| c_sstables := c_sstables c ++ [reader] |>, Ok tt)
      | Err e => (c, Err e)
      end
    end in
  match install with
  | (c, Err e) => (c, Err e)
  | (c, Ok _) =>
    let c := c <| c_last_flushed_seq := N.max (c_last_flushed_seq c) (mt_max_seq frozen.2) |> in
    match persist_manifest c (f_manifest f) with
    | (c, Err e) => (c, Err e)
    | (c, Ok _) => (c <| c_immutable := remove_frozen frozen.1 (c_immutable c) |>, Ok tt)
    end
  end.

Definition process_group (c : Core) (group : list Op) (f : Faults) : Core * list (Result N) :=
  let '(c, results, appended) := process_ops c group 0 f in
  let '(w, synced) :=
    if appended then wal_sync (c_wal c).2 (o_fsync_mode (c_opts c)) (f_sync f)
    else ((c_wal c).2, Ok tt) in
  let c := c <| c_wal := ((c_wal c).1, w) |> in
  match synced with
  | Err _ =>
    (c, (λ r, match r with
              | Ok _ => Err (Corruption "group fsync failed")
              | Err e => Err e
              end) <$> results)
  | Ok _ =>
    if (o_memtable_size_threshold (c_opts c) <=? mt_approx_size (c_active c))%nat then
      let '(c, frozen) := rotate c (f_rotate f) in
      ((flush_memtable c frozen f).1, results)
    else (c, results)
  end.

(** * Recovery *)

#[export] Instance numbered_le_dec {A} (a b : N * A) : Decision (a.1 ≤ b.1) := _.

(** [list_numbered]: directory entries in ascending numeric order. *)
Definition list_numbered {A} (l : list (N * A)) : list (N * A) :=
  merge_sort (λ a b, a.1 ≤ b.1) l.

Fixpoint assoc_N {A} (n : N) (l : list (N * A)) : option A :=
  match l with
  | [] => None
  | (k, v) :: l' => if k =? n then Some v else assoc_N n l'
  end.

Fixpoint open_ssts (files : list (N * bytes)) (nos : list N) : Result (list SstReader) :=
  match nos with
  | [] => Ok []
  | n :: nos' =>
    file ← ok_or (assoc_N n files) (Io "no such file");
    r ← sst_open file n;
    rs ← open_ssts files nos';
    Ok (r :: rs)
  end.

(** Replay state: the memtable being rebuilt, [max_seq], and [has_live]. *)
Fixpoint replay_records (last_flushed : N) (recs : list (N * bytes))
    (active : Memtable M) (max_seq : N) (has_live : bool) : Result (Memtable M * N * bool) :=
  match recs with
  | [] => Ok (active, max_seq, has_live)
  | (seq, payload) :: recs' =>
    let max_seq := N.max max_seq seq in
    if last_flushed <? seq then
      batch ← ok_or (batch_decode payload) (Corruption "WAL batch decode failed");
      replay_records last_flushed recs' (mt_apply active seq batch) max_seq true
    else replay_records last_flushed recs' active max_seq has_live
  end.

(** The loop over segments: also the segments that hold live records. *)
Fixpoint replay_segments (last_flushed : N) (segs : list (N * WalWriter))
    (active : Memtable M) (max_seq max_seg_no : N) (kept : list (N * WalWriter))
    : Result (Memtable M * N * N * list (N * WalWriter)) :=
  match segs with
  | [] => Ok (active, max_seq, max_seg_no, kept)
  | (segno, w) :: segs' =>
    let max_seg_no := N.max max_seg_no segno in
    '(active, max_seq, has_live) ←
      replay_records last_flushed (replay (wf_data w)).1 active max_seq false;
    replay_segments last_flushed segs' active max_seq max_seg_no
      (if (has_live : bool) then kept ++ [(segno, w)] else kept)
  end.

Definition engine_open (opts : Options) (d : Disk) : Result Core :=
  manifest ← manifest_load (d_manifest d);
  let last_flushed := m_last_flushed_seq manifest in
  sstables ← open_ssts (d_ssts d) (m_sstables manifest);
  let max_sst_no := foldr N.max 0 (m_sstables manifest) in
  '(active, max_seq, max_seg_no, kept) ←
    replay_segments last_flushed (list_numbered (d_wals d)) Memtable_new last_flushed 0 [];
  let new_seg := max_seg_no + 1 in
  Ok (mkCore opts active [] sstables (new_seg, WalWriter_create) kept
        max_seq last_flushed (new_seg + 1) (max_sst_no + 1)
        (filter (λ f, f.1 ∈ m_sstables manifest) (d_ssts d)) (d_manifest d)).

(** A crash keeps every synced byte of a segment and an arbitrary prefix of the
    rest; SSTables and the manifest are fsynced before they are referenced. *)
Definition crash_wal (w w' : WalWriter) : Prop :=
  ∃ n, (wf_synced w ≤ n ≤ length (wf_data w))%nat ∧
    w' = mkWalWriter (take n (wf_data w)) n n.

Definition crash (d d' : Disk) : Prop :=
  d_manifest d' = d_manifest d ∧ d_ssts d' = d_ssts d ∧
  Forall2 (λ a b, a.1 = b.1 ∧ crash_wal a.2 b.2) (d_wals d) (d_wals d').
End db.

Arguments Core M : clear implicits.
