(* ===== verification/DbCorrect.v ===== *)
(** The engine against one logical map, the [view]: its merged point lookup and seek over
    active memtable, frozen memtables and SSTables read it, and its committer updates it by
    atomic transitions. *)

From stdpp Require Import base list numbers strings.
From S2P Require Import Prelude Crc Keys Batch OrdMap Memtable Sstable SstableCorrect Db Encoding Wal Manifest.

(** A logical store: what each column family holds, tombstones included. *)
Abbreviation Store := (Cf → bytes → option MemValue).

(** The effect of an atomic batch. *)
Definition apply_batch (st : Store) (b : WriteBatch) : Store := λ cf k,
  match ops_last cf k (ops b) with Some v => Some v | None => st cf k end.

(** [o] is the answer of a forward seek in the map [f]: its least key [>= from]. *)
Definition is_seek (f : bytes → option MemValue) (from : bytes)
    (o : option (bytes * MemValue)) : Prop :=
  match o with
  | Some (k, v) =>
    f k = Some v ∧ bytes_le from k ∧
    ∀ k', is_Some (f k') → bytes_le from k' → bytes_le k k'
  | None => ∀ k', bytes_le from k' → f k' = None
  end.

Lemma is_seek_unique f from o1 o2 : is_seek f from o1 → is_seek f from o2 → o1 = o2.
Proof.
  destruct o1 as [[k1 v1]|], o2 as [[k2 v2]|]; cbn; intros H1 H2; [| | |done].
  - destruct H1 as (E1 & L1 & M1), H2 as (E2 & L2 & M2).
    assert (k1 = k2) as -> by (apply bytes_le_antisym; eauto). congruence.
  - destruct H1 as (E1 & L1 & _). rewrite H2 in E1 by done. done.
  - destruct H2 as (E2 & L2 & _). rewrite H1 in E2 by done. done.
Qed.

Lemma is_seek_ext f g from o : (∀ k, f k = g k) → is_seek f from o → is_seek g from o.
Proof.
  intros E. destruct o as [[k v]|]; cbn; rewrite <- ?E.
  - intros (H1 & H2 & H3). split_and!; [done|done|]. intros k'. rewrite <- E. auto.
  - intros H k' Hk. rewrite <- E. auto.
Qed.

Section reads.
Context `{Crc32cLaws} {M : Type} `{SkipMapLaws MemValue M}.

(** * The view *)

(** An SSTable that answers as the memtable it was written from. *)
Definition sst_of (r : SstReader) (m : Memtable M) : Prop :=
  (∀ cf k, sst_get r cf k = Ok (mt_get_cf m cf k)) ∧
  (∀ cf from, sst_seek r cf from = Ok (mt_seek_cf m cf from)).

(** All levels, newest first; [ms] are the memtables behind the SSTables, oldest
    first. *)
Definition levels (c : Core M) (ms : list (Memtable M)) : list (Memtable M) :=
  c_active c :: rev (c_immutable c).*2 ++ rev ms.

Definition view (c : Core M) (ms : list (Memtable M)) : Store :=
  λ cf k, mem_levels_get (levels c ms) cf k.

Lemma mem_levels_get_app l1 l2 cf k :
  mem_levels_get (M:=M) (l1 ++ l2) cf k
  = match mem_levels_get l1 cf k with Some v => Some v | None => mem_levels_get l2 cf k end.
Proof. induction l1 as [|m l1 IH]; cbn; [done|]. by destruct (mt_get_cf m cf k). Qed.

Lemma Forall2_rev_sst ss ms : Forall2 sst_of ss ms → Forall2 sst_of (rev ss) (rev ms).
Proof. rewrite !rev_alt. apply Forall2_reverse. Qed.

Lemma sst_levels_get_mem ss ms cf k :
  Forall2 sst_of ss ms → sst_levels_get ss cf k = Ok (mem_levels_get ms cf k).
Proof.
  induction 1 as [|r m ss ms [Hg _] Hf IH]; cbn; [done|].
  rewrite Hg. cbn. by destruct (mt_get_cf m cf k).
Qed.

(** The point lookup returns the newest value, a tombstone reading as absent. *)
Lemma get_cf_view c ms cf k :
  Forall2 sst_of (c_sstables c) ms →
  get_cf c cf k = Ok (view c ms cf k ≫= into_present).
Proof.
  intros Hs. unfold get_cf, view, levels. cbn [mem_levels_get].
  destruct (mt_get_cf (c_active c) cf k); [done|]. rewrite mem_levels_get_app.
  destruct (mem_levels_get (rev (c_immutable c).*2) cf k); [done|].
  rewrite (sst_levels_get_mem _ (rev ms)) by by apply Forall2_rev_sst.
  cbn. by destruct (mem_levels_get (rev ms) cf k).
Qed.

(** * Merged seeks *)

Lemma mem_cands_app l1 l2 cf from r :
  mem_cands (M:=M) (l1 ++ l2) cf from r
  = mem_cands l1 cf from r ++ mem_cands l2 cf from (r + N.of_nat (length l1)).
Proof.
  revert r. induction l1 as [|m l1 IH]; intros r; cbn [app mem_cands length].
  - by rewrite N.add_0_r.
  - replace (r + N.of_nat (S (length l1))) with (r + 1 + N.of_nat (length l1)) by lia.
    rewrite IH. by destruct (mt_seek_cf m cf from) as [[]|].
Qed.

Lemma sst_cands_mem ss ms cf from r :
  Forall2 sst_of ss ms → sst_cands ss cf from r = Ok (mem_cands ms cf from r).
Proof.
  intros Hs. revert r. induction Hs as [|s m ss ms [_ Hk] Hs IH]; intros r; cbn; [done|].
  rewrite Hk. cbn. rewrite IH. cbn. by destruct (mt_seek_cf m cf from) as [[]|].
Qed.

(** A candidate comes from a level, whose rank it carries. *)
Lemma elem_of_mem_cands ls cf from r k v rk :
  (k, v, rk) ∈ mem_cands (M:=M) ls cf from r →
  ∃ i m, ls !! i = Some m ∧ rk = r + N.of_nat i ∧ mt_seek_cf m cf from = Some (k, v).
Proof.
  revert r. induction ls as [|m ls IH]; intros r Hin; cbn in Hin;
    [by apply elem_of_nil in Hin|].
  assert (Hrec : (k, v, rk) ∈ mem_cands ls cf from (r + 1) →
    ∃ i m', (m :: ls) !! i = Some m' ∧ rk = r + N.of_nat i ∧ mt_seek_cf m' cf from = Some (k, v)).
  { intros H'. destruct (IH _ H') as (i & m' & ? & ? & ?). exists (S i), m'.
    split_and!; [done|lia|done]. }
  destruct (mt_seek_cf m cf from) as [[k0 v0]|] eqn:E; [|auto].
  apply elem_of_cons in Hin as [[= -> -> ->]|Hin]; [|auto].
  exists 0%nat, m. split_and!; [done|lia|done].
Qed.

Lemma mem_cands_elem ls cf from r i m k v :
  ls !! i = Some m → mt_seek_cf (M:=M) m cf from = Some (k, v) →
  (k, v, r + N.of_nat i) ∈ mem_cands ls cf from r.
Proof.
  revert r i. induction ls as [|m0 ls IH]; intros r [|i] Hi Hk; try done; cbn in Hi; cbn.
  - injection Hi as ->. rewrite Hk. replace (r + N.of_nat 0) with r by lia. left.
  - replace (r + N.of_nat (S i)) with (r + 1 + N.of_nat i) by lia.
    destruct (mt_seek_cf m0 cf from) as [[]|]; [right|]; eauto.
Qed.

Lemma cand_le_refl a : cand_le a a = true.
Proof. unfold cand_le. rewrite bytes_cmp_refl. apply N.leb_refl. Qed.
Lemma cand_le_trans a b c : cand_le a b = true → cand_le b c = true → cand_le a c = true.
Proof.
  unfold cand_le. intros Hab Hbc.
  destruct (bytes_cmp a.1.1 b.1.1) eqn:E1; [|clear Hab|done];
    destruct (bytes_cmp b.1.1 c.1.1) eqn:E2; try done.
  - apply bytes_cmp_eq in E1, E2. rewrite E1, E2, bytes_cmp_refl.
    rewrite N.leb_le in *. lia.
  - apply bytes_cmp_eq in E1. by rewrite E1, E2.
  - apply bytes_cmp_eq in E2. by rewrite <- E2, E1.
  - by rewrite (bytes_lt_trans _ _ _ E1 E2).
Qed.
Lemma cand_le_total a b : cand_le a b = false → cand_le b a = true.
Proof.
  unfold cand_le. rewrite (bytes_cmp_antisym a.1.1). destruct (bytes_cmp a.1.1 b.1.1); cbn; try done.
  rewrite N.leb_gt, N.leb_le. lia.
Qed.

Lemma min_cand_Some l x :
  min_cand l = Some x → x ∈ l ∧ ∀ y, y ∈ l → cand_le x y = true.
Proof.
  destruct l as [|a l]; cbn; [done|]. intros [= <-]. revert a.
  induction l as [|b l IH]; intros a; cbn.
  - split; [left|]. intros y Hy. apply list_elem_of_singleton in Hy as ->. apply cand_le_refl.
  - destruct (IH (if cand_le a b then a else b)) as [Hin Hle].
    set (z := fold_left _ l _) in *. split.
    + apply elem_of_cons in Hin as [->|Hin]; [|by do 2 right].
      destruct (cand_le a b); [left|right; left].
    + assert (Hz : cand_le z (if cand_le a b then a else b) = true) by (apply Hle; left).
      intros y Hy. apply elem_of_cons in Hy as [->|Hy]; [|apply elem_of_cons in Hy as [->|Hy]].
      * destruct (cand_le a b) eqn:E; [done|]. eauto using cand_le_trans, cand_le_total.
      * destruct (cand_le a b) eqn:E; eauto using cand_le_trans.
      * apply Hle. by right.
Qed.

Lemma mem_levels_get_Some ls cf k v :
  mem_levels_get (M:=M) ls cf k = Some v → ∃ i m, ls !! i = Some m ∧ mt_get_cf m cf k = Some v.
Proof.
  induction ls as [|m ls IH]; cbn; [done|]. destruct (mt_get_cf m cf k) eqn:E.
  - intros [= ->]. by exists 0%nat, m.
  - intros Hl. destruct (IH Hl) as (i & m' & ? & ?). by exists (S i), m'.
Qed.

Lemma mem_levels_get_first ls cf k i m v :
  ls !! i = Some m → mt_get_cf (M:=M) m cf k = Some v →
  (∀ j m', (j < i)%nat → ls !! j = Some m' → mt_get_cf m' cf k = None) →
  mem_levels_get ls cf k = Some v.
Proof.
  revert i. induction ls as [|m0 ls IH]; intros [|i] Hi Hg Hb; try done; cbn in Hi; cbn.
  - injection Hi as ->. by rewrite Hg.
  - rewrite (Hb 0%nat m0) by (done || lia). apply (IH i); [done|done|].
    intros j m' Hj. apply (Hb (S j)). lia.
Qed.

(** A level's own seek. *)
Lemma mt_seek_Some m cf from k v :
  mt_seek_cf (M:=M) m cf from = Some (k, v) →
  mt_get_cf m cf k = Some v ∧ bytes_le from k ∧
  ∀ k', is_Some (mt_get_cf m cf k') → bytes_le from k' → bytes_le k k'.
Proof.
  rewrite mt_seek_iter. intros E. pose proof (mt_iter_sorted m cf) as Hs.
  pose proof E as (Hin & Hle)%lower_bound_Some. split_and!; [|done|].
  - rewrite mt_get_iter. by apply alookup_sorted.
  - intros k' [v' Hg] Hk'. rewrite mt_get_iter in Hg. apply alookup_elem in Hg.
    by eapply lower_bound_least.
Qed.
Lemma mt_seek_None m cf from k :
  mt_seek_cf (M:=M) m cf from = None → bytes_le from k → mt_get_cf m cf k = None.
Proof.
  rewrite mt_seek_iter, mt_get_iter. intros E Hle. apply alookup_None. intros v Hin.
  eapply lower_bound_None in Hin; [|done]. by apply bytes_nlt_le in Hle.
Qed.

(** The least candidate, newest level first, is the seek of the merged map. *)
Lemma min_cand_seek ls cf from r :
  is_seek (mem_levels_get (M:=M) ls cf) from
    ((λ x, x.1) <$> min_cand (mem_cands ls cf from r)).
Proof.
  assert (Hlev : ∀ k i m, ls !! i = Some m → is_Some (mt_get_cf m cf k) → bytes_le from k →
    ∃ k' v', (k', v', r + N.of_nat i) ∈ mem_cands ls cf from r ∧ bytes_le k' k).
  { intros k i m Hi [v Hg] Hle. destruct (mt_seek_cf m cf from) as [[k' v']|] eqn:E.
    - exists k', v'. split; [by eapply mem_cands_elem|].
      apply mt_seek_Some in E as (_ & _ & Hm). eauto.
    - by rewrite (mt_seek_None _ _ _ _ E Hle) in Hg. }
  destruct (min_cand (mem_cands ls cf from r)) as [[[k v] rk]|] eqn:E; cbn.
  - apply min_cand_Some in E as [Hin Hmin].
    apply elem_of_mem_cands in Hin as (i & m & Hi & -> & Hk).
    apply mt_seek_Some in Hk as (Hg & Hle & _).
    assert (Hmin' : ∀ k' j m', ls !! j = Some m' → is_Some (mt_get_cf m' cf k') →
      bytes_le from k' → bytes_le k k' ∧ (k = k' → (i ≤ j)%nat)).
    { intros k' j m' Hj Hg' Hle'. destruct (Hlev k' j m' Hj Hg' Hle') as (k2 & v2 & Hc & Hk2).
      apply Hmin in Hc. unfold cand_le in Hc. cbn in Hc.
      destruct (bytes_cmp k k2) eqn:Ec; [|split|done].
      - apply bytes_cmp_eq in Ec as <-. split; [done|]. intros _. apply N.leb_le in Hc. lia.
      - apply bytes_lt_le. by eapply bytes_lt_le_trans.
      - intros ->. exfalso. apply (bytes_lt_irrefl k'). by eapply bytes_lt_le_trans. }
    split_and!; [|done|].
    + apply (mem_levels_get_first _ _ _ i m); [done|done|]. intros j m' Hj Hm'.
      destruct (mt_get_cf m' cf k) eqn:Eg; [|done].
      destruct (Hmin' k j m' Hm') as [_ Hij]; [by rewrite Eg|done|].
      specialize (Hij eq_refl). lia.
    + intros k' [v' Hg'] Hle'. apply mem_levels_get_Some in Hg' as (j & m' & Hj & Hg').
      by apply (Hmin' k' j m').
  - intros k Hle. destruct (mem_levels_get ls cf k) as [v|] eqn:Eg; [|done].
    apply mem_levels_get_Some in Eg as (i & m & Hi & Hg).
    destruct (Hlev k i m Hi ltac:(by rewrite Hg) Hle) as (k' & v' & Hin & _).
    destruct (mem_cands ls cf from r); [by apply elem_of_nil in Hin|done].
Qed.

Lemma seek_cf_view c ms cf from :
  Forall2 sst_of (c_sstables c) ms →
  ∃ o, seek_cf c cf from = Ok o ∧ is_seek (view c ms cf) from o.
Proof.
  intros Hs. unfold seek_cf.
  rewrite (sst_cands_mem _ (rev ms)) by by apply Forall2_rev_sst. cbn [mbind result_mbind].
  eexists. split; [done|]. rewrite <- (N.add_0_l (N.of_nat _)), <- mem_cands_app.
  apply min_cand_seek.
Qed.
End reads.

(** * The committer

    The committer refines an abstract store: every group is a sequence of atomic
    transitions on the logical map of [view]; freezing and flushing are
    invisible to readers. *)

(** * The abstract store *)

(** Stores are compared pointwise. *)
Definition store_eq (s1 s2 : Store) : Prop := ∀ cf k, s1 cf k = s2 cf k.

#[export] Instance store_eq_equivalence : Equivalence store_eq.
Proof. split; [done|by intros s1 s2 E cf k|by intros s1 s2 s3 E1 E2 cf k; rewrite E1]. Qed.

#[export] Instance apply_batch_proper :
  Proper (store_eq ==> (=) ==> store_eq) apply_batch.
Proof. intros s1 s2 E b _ <- cf k. unfold apply_batch. by rewrite E. Qed.

#[export] Instance is_seek_proper cf :
  Proper (store_eq ==> (=) ==> (=) ==> iff) (λ st : Store, is_seek (st cf)).
Proof. intros s1 s2 E from _ <- o _ <-. split; apply is_seek_ext; intros k; by rewrite E. Qed.

(** What a lookup reports: a tombstone reads as absent. *)
Definition st_get (st : Store) (cf : Cf) (k : bytes) : option bytes :=
  st cf k ≫= into_present.

(** The write-conflict test on the answer of the seek. *)
Definition conflicts (key : bytes) (start_ts : N) (newest : option (bytes * MemValue)) : bool :=
  match newest with
  | Some (wkey, _) =>
    match decode_data_key wkey with
    | Some (wuser, commit_ts) => bool_decide (wuser = key) && (start_ts <=? commit_ts)
    | None => false
    end
  | None => false
  end.

(** What the abstract store does with a request: write a batch or answer. *)
Inductive spec_op (st : Store) : Op → WriteBatch + Result N → Prop :=
  | spec_write b : spec_op st (OpWrite b) (inl b)
  | spec_prewrite_conflict p newest :
      is_seek (st CfWrite) (encode_data_key (pw_key p) u64_max) newest →
      conflicts (pw_key p) (pw_start_ts p) newest = true →
      spec_op st (OpPrewrite p) (inr (Err (Conflict "write conflict: a newer commit exists")))
  | spec_prewrite_locked p newest l :
      is_seek (st CfWrite) (encode_data_key (pw_key p) u64_max) newest →
      conflicts (pw_key p) (pw_start_ts p) newest = false →
      st_get st CfLock (pw_key p) = Some l →
      spec_op st (OpPrewrite p)
        (inr (Err (Conflict "key is already locked by another transaction")))
  | spec_prewrite_ok p newest :
      is_seek (st CfWrite) (encode_data_key (pw_key p) u64_max) newest →
      conflicts (pw_key p) (pw_start_ts p) newest = false →
      st_get st CfLock (pw_key p) = None →
      spec_op st (OpPrewrite p) (inl (build_prewrite_batch p))
  | spec_resolve_none r :
      st_get st CfLock (rs_key r) = None → spec_op st (OpResolve r) (inr (Ok 0))
  | spec_resolve_corrupt r b :
      st_get st CfLock (rs_key r) = Some b → Lock_decode b = None →
      spec_op st (OpResolve r) (inr (Err (Corruption "lock decode")))
  | spec_resolve_other r b l :
      st_get st CfLock (rs_key r) = Some b → Lock_decode b = Some l →
      lock_start_ts l ≠ rs_start_ts r →
      spec_op st (OpResolve r) (inr (Ok 0))
  | spec_resolve_ok r b l :
      st_get st CfLock (rs_key r) = Some b → Lock_decode b = Some l →
      lock_start_ts l = rs_start_ts r →
      spec_op st (OpResolve r) (inl (build_resolve_batch r)).

(** A group, one request after the other; every write takes the next sequence
    number.  The batches written are recorded. *)
Inductive spec_group (st : Store) (seq : N) :
    list Op → list WriteBatch → list (Result N) → Store → N → Prop :=
  | spec_group_nil st' : store_eq st' st → spec_group st seq [] [] [] st' seq
  | spec_group_answer op group bs r rs st' seq' :
      spec_op st op (inr r) → spec_group st seq group bs rs st' seq' →
      spec_group st seq (op :: group) bs (r :: rs) st' seq'
  | spec_group_write op group b bs rs st' seq' :
      spec_op st op (inl b) →
      spec_group (apply_batch st b) (seq + 1) group bs rs st' seq' →
      spec_group st seq (op :: group) (b :: bs) (Ok (seq + 1) :: rs) st' seq'.

#[export] Instance spec_op_proper : Proper (store_eq ==> (=) ==> (=) ==> iff) spec_op.
Proof.
  assert (Hd : ∀ s1 s2 op o, store_eq s1 s2 → spec_op s1 op o → spec_op s2 op o).
  { intros s1 s2 op o E Hs. unfold store_eq in E.
    assert (Eg : ∀ cf k, st_get s2 cf k = st_get s1 cf k)
      by (intros; unfold st_get; by rewrite E).
    assert (Ek : ∀ cf from x, is_seek (s1 cf) from x → is_seek (s2 cf) from x)
      by (intros cf from x; apply is_seek_ext; intros; apply E).
    destruct Hs; rewrite <- ?Eg in *;
      [by constructor|by eapply spec_prewrite_conflict; eauto
      |by eapply spec_prewrite_locked; eauto|by eapply spec_prewrite_ok; eauto
      |by apply spec_resolve_none|by eapply spec_resolve_corrupt
      |by eapply spec_resolve_other|by eapply spec_resolve_ok]. }
  intros s1 s2 E op _ <- o _ <-. split; apply Hd; [done|by symmetry].
Qed.

Lemma spec_group_start st1 st2 seq group bs rs st' seq' :
  store_eq st1 st2 → spec_group st1 seq group bs rs st' seq' →
  spec_group st2 seq group bs rs st' seq'.
Proof.
  intros E Hg. revert st2 E. induction Hg; intros st2 E.
  - constructor. by rewrite <- E.
  - eapply spec_group_answer; [by rewrite <- E|auto].
  - eapply spec_group_write; [by rewrite <- E|]. apply IHHg. by rewrite E.
Qed.

Lemma spec_group_end st seq group bs rs st1 st2 seq' :
  store_eq st1 st2 → spec_group st seq group bs rs st1 seq' →
  spec_group st seq group bs rs st2 seq'.
Proof.
  intros E Hg. induction Hg.
  - constructor. by rewrite <- E.
  - eapply spec_group_answer; eauto.
  - eapply spec_group_write; eauto.
Qed.

(** The final store is the written batches applied in order. *)
Lemma spec_group_store st seq group bs rs st' seq' :
  spec_group st seq group bs rs st' seq' →
  store_eq st' (fold_left apply_batch bs st) ∧ seq' = seq + N.of_nat (length bs).
Proof.
  induction 1; cbn [fold_left length]; [split; [done|lia]|done|].
  destruct IHspec_group as [? ->]. split; [done|lia].
Qed.

Section correct.
Context `{Crc32cLaws} {M : Type} `{SkipMapLaws MemValue M}.
Implicit Types (c : Core M) (ms : list (Memtable M)).

(** Between groups nothing is frozen and every SSTable answers as the memtable it
    was flushed from. *)
Record core_ok c ms : Prop := mkCoreOk {
  ok_immutable : c_immutable c = [];
  ok_sstables : Forall2 sst_of (c_sstables c) ms;
}.

(** * One request *)

Lemma op_batch_spec c ms op :
  Forall2 sst_of (c_sstables c) ms → spec_op (view c ms) op (op_batch c op).
Proof.
  intros Hs. destruct op as [b|p|r]; cbn [op_batch]; [constructor|..].
  - unfold check_prewrite.
    destruct (seek_cf_view c ms CfWrite (encode_data_key (pw_key p) u64_max) Hs)
      as (newest & -> & Hk).
    cbn [mbind result_mbind]. fold (conflicts (pw_key p) (pw_start_ts p) newest).
    destruct (conflicts _ _ newest) eqn:Ec; [by eapply spec_prewrite_conflict|].
    rewrite (get_cf_view c ms) by done. cbn [mbind result_mbind].
    fold (st_get (view c ms) CfLock (pw_key p)).
    destruct (st_get _ _ _) eqn:El; [by eapply spec_prewrite_locked|by eapply spec_prewrite_ok].
  - unfold current_lock. rewrite (get_cf_view c ms) by done. cbn [mbind result_mbind].
    fold (st_get (view c ms) CfLock (rs_key r)).
    destruct (st_get _ _ _) as [b|] eqn:El; [|by apply spec_resolve_none].
    destruct (Lock_decode b) as [l|] eqn:Ed; cbn; [|by eapply spec_resolve_corrupt].
    destruct (N.eqb_spec (lock_start_ts l) (rs_start_ts r));
      [by eapply spec_resolve_ok|by eapply spec_resolve_other].
Qed.

(** Applying a batch to the active memtable applies it to the view. *)
Lemma view_apply c ms seq b c' :
  c_active c' = mt_apply (c_active c) seq b → c_immutable c' = c_immutable c →
  store_eq (view c' ms) (apply_batch (view c ms) b).
Proof.
  intros Ea Ei cf k. unfold view, levels, apply_batch. rewrite Ea, Ei.
  cbn [mem_levels_get]. rewrite mt_get_apply. by destruct (ops_last cf k (ops b)).
Qed.

(** The fields the request loop does not touch. *)
Definition same_files c c' : Prop :=
  c_opts c' = c_opts c ∧ c_immutable c' = c_immutable c ∧ c_sstables c' = c_sstables c ∧
  (c_wal c').1 = (c_wal c).1 ∧ c_old_wals c' = c_old_wals c ∧
  c_last_flushed_seq c' = c_last_flushed_seq c ∧ c_next_seg c' = c_next_seg c ∧
  c_next_sst c' = c_next_sst c ∧ c_sst_files c' = c_sst_files c ∧
  c_manifest c' = c_manifest c.

Lemma same_files_refl c : same_files c c.
Proof. done. Qed.
Lemma same_files_trans c1 c2 c3 : same_files c1 c2 → same_files c2 c3 → same_files c1 c3.
Proof. unfold same_files. intuition congruence. Qed.

Lemma process_op_files c op fault : same_files c (process_op c op fault).1.1.
Proof.
  unfold process_op. destruct (op_batch c op) as [b|r]; [|done].
  by destruct fault.
Qed.

Lemma process_ops_files c group i f : same_files c (process_ops c group i f).1.1.
Proof.
  revert c i. induction group as [|op group IH]; intros c i; cbn; [done|].
  pose proof (process_op_files c op (f_append f i)) as Hf.
  destruct (process_op c op (f_append f i)) as [[c1 r] a].
  specialize (IH c1 (S i)). destruct (process_ops c1 group (S i) f) as [[c2 rs] a'].
  cbn in *. by eapply same_files_trans.
Qed.

(** The request loop, when no append fails. *)
Lemma process_ops_spec c ms group i f :
  Forall2 sst_of (c_sstables c) ms → (∀ j, f_append f j = None) →
  ∃ bs, spec_group (view c ms) (c_seq c) group bs (process_ops c group i f).1.2
    (view (process_ops c group i f).1.1 ms) (c_seq (process_ops c group i f).1.1).
Proof.
  intros Hs Hf. revert c i Hs. induction group as [|op group IH]; intros c i Hs; cbn.
  { exists []. by constructor. }
  pose proof (op_batch_spec c ms op Hs) as Ho. unfold process_op. rewrite Hf.
  destruct (op_batch c op) as [b|r] eqn:Eo.
  - cbn [wal_append]. set (c1 := set_field _ _).
    destruct (IH c1 (S i) Hs) as [bs Hg].
    destruct (process_ops c1 group (S i) f) as [[c2 rs] a]. cbn [fst snd] in *.
    exists (b :: bs). eapply spec_group_write; [done|]. eapply spec_group_start; [|exact Hg].
    by apply (view_apply c ms (c_seq c + 1) b).
  - destruct (IH c (S i) Hs) as [bs Hg].
    destruct (process_ops c group (S i) f) as [[c2 rs] a]. cbn [fst snd] in *.
    exists bs. by eapply spec_group_answer.
Qed.

(** * Freeze and flush *)

(** The table written for a memtable stays below 4 GiB, the range of its offsets. *)
Definition table_fits (m : Memtable M) : Prop := ∀ file, write_sst m = Some file → sized file.

Lemma flush_install m n :
  table_fits m →
  ∃ file r, write_sst m = Some file ∧ sst_open file n = Ok r ∧ r_file_no r = n ∧ sst_of r m.
Proof.
  intros Hfit. destruct (write_sst_correct m n) as (file & Hw & Ho).
  destruct (Ho (Hfit _ Hw)) as (r & E & En & Hg & Hk). exists file, r. by split_and!.
Qed.

Lemma bounded_fits m :
  mt_bounded m → (N.of_nat (mt_size m) ≤ 1073741824)%N → table_fits m.
Proof. intros Hb Hs file. by apply write_sst_sized. Qed.

(** What freeze and flush leave: an empty active memtable, whose content is now a
    table (or was empty), and a manifest that names it. *)
Lemma rotate_flush c f :
  c_immutable c = [] → mt_bounded (c_active c) → table_fits (c_active c) →
  f_write_sst f = false → f_manifest f = false →
  let rf := rotate c (f_rotate f) in
  ∃ add,
    let c' := (flush_memtable rf.1 rf.2 f).1 in
    (flush_memtable rf.1 rf.2 f).2 = Ok tt ∧
    c_active c' = Memtable_new ∧ c_immutable c' = [] ∧
    c_sstables c' = c_sstables c ++ (add.*1) ∧
    Forall2 sst_of add.*1 add.*2 ∧ c_seq c' = c_seq c ∧ c_opts c' = c_opts c ∧
    (∀ cf k, mem_levels_get (rev add.*2) cf k = mt_get_cf (c_active c) cf k).
Proof.
  intros Hi Hc Hfit Hw Hm. cbn zeta. set (rf := rotate c (f_rotate f)).
  assert (Ei : c_immutable rf.1 = [(c_next_seg c, c_active c)]).
  { unfold rf, rotate. destruct (f_rotate f); cbn; by rewrite Hi. }
  assert (Ef : rf.2 = (c_next_seg c, c_active c)) by (unfold rf, rotate; by destruct (f_rotate f)).
  assert (Eo : c_active rf.1 = Memtable_new ∧ c_sstables rf.1 = c_sstables c ∧
    c_seq rf.1 = c_seq c ∧ c_opts rf.1 = c_opts c)
    by (unfold rf, rotate; by destruct (f_rotate f)).
  destruct Eo as (Ea & Es & Eq & Ep).
  unfold flush_memtable. rewrite Ef. cbn [fst snd]. rewrite Hw.
  destruct (mt_is_empty (c_active c)) eqn:Ez.
  - exists []. unfold persist_manifest. rewrite Hm. cbn. rewrite Ei, Ea, Es. cbn.
    rewrite N.eqb_refl, app_nil_r. split_and!; try done.
    intros cf k. symmetry. apply mt_bounded_empty; [done|]. by apply Nat.eqb_eq.
  - destruct (flush_install (c_active c) (c_next_sst rf.1) Hfit) as (file & r & -> & -> & Hn & Hof).
    exists [(r, c_active c)]. unfold persist_manifest. rewrite Hm. cbn. rewrite Ei, Ea, Es.
    cbn. rewrite N.eqb_refl. split_and!; try done.
    { by constructor. }
    intros cf k. by destruct (mt_get_cf (c_active c) cf k).
Qed.

Lemma view_flushed c c' ms add :
  c_active c' = Memtable_new → c_immutable c' = [] → c_immutable c = [] →
  (∀ cf k, mem_levels_get (rev add) cf k = mt_get_cf (c_active c) cf k) →
  store_eq (view c' (ms ++ add)) (view c ms).
Proof.
  intros Ea Ei Ei' Hadd cf k. unfold view, levels. rewrite Ea, Ei, Ei'. cbn.
  rewrite mt_get_new, rev_app_distr, mem_levels_get_app, Hadd. done.
Qed.

(** * A group *)

(** I/O outcomes where appends, the fsync and the flush succeed. *)
Definition io_ok (f : Faults) : Prop :=
  (∀ j, f_append f j = None) ∧ f_sync f = false ∧ f_write_sst f = false ∧ f_manifest f = false.

(** The batch a request writes when it writes. *)
Definition req_batch (op : Op) : WriteBatch :=
  match op with
  | OpWrite b => b
  | OpPrewrite p => build_prewrite_batch p
  | OpResolve r => build_resolve_batch r
  end.

(** What a group can add to the memtable. *)
Definition group_weight (group : list Op) : nat :=
  sum_list ((λ op, batch_weight (req_batch op)) <$> group).

Lemma op_batch_req c op b : op_batch c op = inl b → b = req_batch op.
Proof.
  destruct op; cbn; [congruence|..].
  - destruct (check_prewrite _ _ _); congruence.
  - destruct (current_lock c (rs_key s)) as [[l|]|]; [|done..].
    destruct (_ =? _); congruence.
Qed.

Lemma process_op_bounded c op fault :
  mt_bounded (c_active c) →
  mt_bounded (c_active (process_op c op fault).1.1) ∧
  (mt_size (c_active (process_op c op fault).1.1)
    ≤ mt_size (c_active c) + batch_weight (req_batch op))%nat.
Proof.
  intros Hb. unfold process_op. destruct (op_batch c op) as [b|r] eqn:Eo; [|cbn; split; [done|lia]].
  apply op_batch_req in Eo as ->. destruct fault; cbn; [split; [done|lia]|].
  rewrite mt_size_apply. split; [by apply mt_bounded_apply|lia].
Qed.

Lemma process_ops_bounded c group i f :
  mt_bounded (c_active c) →
  mt_bounded (c_active (process_ops c group i f).1.1) ∧
  (mt_size (c_active (process_ops c group i f).1.1)
    ≤ mt_size (c_active c) + group_weight group)%nat.
Proof.
  revert c i. induction group as [|op group IH]; intros c i Hb; [cbn; split; [done|lia]|].
  cbn [process_ops]. pose proof (process_op_bounded c op (f_append f i) Hb) as [Hb1 Hs1].
  destruct (process_op c op (f_append f i)) as [[c1 r] a]. cbn [fst] in *.
  destruct (IH c1 (S i) Hb1) as [Hb2 Hs2].
  destruct (process_ops c1 group (S i) f) as [[c2 rs] a']. cbn [fst] in *. split; [done|].
  unfold group_weight in *. rewrite fmap_cons, sum_cons. lia.
Qed.

Lemma wal_sync_ok w mode : (wal_sync w mode false).2 = Ok tt.
Proof. by destruct mode. Qed.

(** The committer refines the abstract store. *)
Lemma process_group_refines c ms group f :
  core_ok c ms → mt_bounded (c_active c) → io_ok f →
  (N.of_nat (mt_size (c_active c) + group_weight group) ≤ 1073741824)%N →
  ∃ ms' bs, core_ok (process_group c group f).1 ms' ∧
    mt_bounded (c_active (process_group c group f).1) ∧
    (mt_size (c_active (process_group c group f).1) ≤ o_memtable_size_threshold (c_opts c))%nat ∧
    c_opts (process_group c group f).1 = c_opts c ∧
    spec_group (view c ms) (c_seq c) group bs (process_group c group f).2
      (view (process_group c group f).1 ms') (c_seq (process_group c group f).1).
Proof.
  intros [Hi Hs] Hc (Ha & Hy & Hw & Hm) Hsz.
  destruct (process_ops_spec c ms group 0 f Hs Ha) as [bs Hg].
  pose proof (process_ops_bounded c group 0 f Hc) as [Hc1 Hs1].
  pose proof (process_ops_files c group 0 f) as Hsf.
  unfold process_group. destruct (process_ops c group 0 f) as [[c1 rs] app].
  cbn [fst snd] in *. destruct Hsf as (Eo & Ei & Es & _).
  assert (Hfit : table_fits (c_active c1)) by (apply bounded_fits; [done|lia]).
  set (ws := if app then _ else _).
  assert (Hok : ws.2 = Ok tt) by (unfold ws; rewrite Hy; destruct app; [apply wal_sync_ok|done]).
  destruct ws as [w sy]. cbn [snd] in Hok. subst sy. set (c2 := set_field _ _).
  assert (E2 : c_active c2 = c_active c1 ∧ c_immutable c2 = [] ∧ c_sstables c2 = c_sstables c ∧
    c_seq c2 = c_seq c1 ∧ c_opts c2 = c_opts c ∧ view c2 ms = view c1 ms).
  { split_and!; try done; cbn; congruence. }
  destruct E2 as (E2a & E2i & E2s & E2q & E2o & E2v). rewrite E2o.
  destruct (Nat.leb_spec (o_memtable_size_threshold (c_opts c)) (mt_approx_size (c_active c2)))
    as [Hge|Hlt]; cycle 1.
  { exists ms, bs. cbn [fst snd]. rewrite E2v, E2q. split_and!; [|done| |done|done].
    - constructor; [done|by rewrite E2s].
    - unfold mt_approx_size in Hlt. lia. }
  pose proof (rotate_flush c2 f E2i Hc1 Hfit Hw Hm) as (add & _ & Fa & Fi & Fs & Ff & Fq & Fo & Fg).
  destruct (rotate c2 (f_rotate f)) as [c3 fr]. cbn [fst snd] in *.
  exists (ms ++ add.*2), bs. rewrite Fa, Fo. split_and!.
  - constructor; [done|]. rewrite Fs, E2s. by apply Forall2_app.
  - apply mt_bounded_new.
  - cbn. lia.
  - done.
  - rewrite Fq, E2q. eapply spec_group_end; [|exact Hg]. rewrite <- E2v. symmetry.
    by apply view_flushed.
Qed.
End correct.
