(* ===== verification/DbDurable.v ===== *)
(** Durability of the engine: what the data directory holds, recovery on open,
    crashes, and the end-to-end refinement of an atomic durable store. *)

From stdpp Require Import base list numbers strings sorting relations.
From S2P Require Import Prelude Crc Encoding Keys Batch OrdMap Memtable Sstable SstableCorrect Wal Manifest Db.
From S2P Require Import DbCorrect.

Section recovery.
Context `{Crc32cLaws} {M : Type} `{SkipMapLaws MemValue M}.
Implicit Types (c : Core M) (m : Memtable M) (ms : list (Memtable M)) (R : list (N * bytes)).

(** * Replay of well-formed records *)

Definition good_rec (rec : N * bytes) : Prop := rec_wf rec ∧ is_Some (batch_decode rec.2).

(** The memtable rebuilt from records newer than the watermark. *)
Definition replay_one (lf : N) m (rec : N * bytes) : Memtable M :=
  if lf <? rec.1 then
    match batch_decode rec.2 with Some b => mt_apply m rec.1 b | None => m end
  else m.

Definition replay_mem (lf : N) R m : Memtable M := fold_left (replay_one lf) R m.

Definition max_seq_of (R : list (N * bytes)) (s : N) : N := fold_left N.max R.*1 s.

Definition live (lf : N) (rec : N * bytes) : bool := lf <? rec.1.

Lemma replay_mem_app lf R1 R2 m : replay_mem lf (R1 ++ R2) m = replay_mem lf R2 (replay_mem lf R1 m).
Proof. apply fold_left_app. Qed.
Lemma max_seq_of_app R1 R2 s : max_seq_of (R1 ++ R2) s = max_seq_of R2 (max_seq_of R1 s).
Proof. unfold max_seq_of. by rewrite fmap_app, fold_left_app. Qed.

Lemma replay_records_ok lf R m mx hl :
  Forall good_rec R →
  replay_records lf R m mx hl
  = Ok (replay_mem lf R m, max_seq_of R mx, hl || existsb (live lf) R).
Proof.
  intros HR. revert m mx hl. induction HR as [|[s p] R [_ [b Hb]] HR IH]; intros m mx hl; cbn.
  { by rewrite orb_false_r. }
  cbn in Hb. unfold replay_one, live. cbn. destruct (lf <? s); cbn.
  - rewrite Hb. cbn. rewrite IH. by rewrite orb_true_r.
  - by rewrite IH.
Qed.

(** Records at or below the watermark change nothing. *)
Lemma dead_records lf R :
  existsb (live lf) R = false →
  (∀ m, replay_mem lf R m = m) ∧ (∀ s, lf ≤ s → max_seq_of R s = s).
Proof.
  unfold replay_mem, max_seq_of. induction R as [|[s p] R IH]; cbn; [done|].
  intros [Hl Hd]%orb_false_iff. destruct (IH Hd) as [IH1 IH2]. unfold live in Hl. cbn in Hl.
  split.
  - intros m. unfold replay_one at 2. cbn. by rewrite Hl.
  - intros s' Hs. apply N.ltb_ge in Hl. rewrite N.max_l by lia. auto.
Qed.

Definition seg_reads (x : N * WalWriter) R : Prop := (replay (wf_data x.2)).1 = R.

Lemma max_seq_of_ge R s : s ≤ max_seq_of R s.
Proof.
  revert s. induction R as [|r R IH]; intros s; [done|]. unfold max_seq_of in *. cbn.
  specialize (IH (N.max s r.1)). lia.
Qed.

(** The loop over the segments: segments without a live record are dropped, which
    changes neither the memtable nor the sequence. *)
Lemma replay_segments_ok lf segs recss m mx sg kept :
  Forall2 seg_reads segs recss → Forall good_rec (concat recss) → lf ≤ mx →
  ∃ segs' recss',
    replay_segments lf segs m mx sg kept
    = Ok (replay_mem lf (concat recss) m, max_seq_of (concat recss) mx,
          fold_left N.max segs.*1 sg, kept ++ segs') ∧
    Forall2 seg_reads segs' recss' ∧ sublist segs' segs ∧ Forall good_rec (concat recss') ∧
    (∀ m', replay_mem lf (concat recss') m' = replay_mem lf (concat recss) m') ∧
    (∀ s, lf ≤ s → max_seq_of (concat recss') s = max_seq_of (concat recss) s).
Proof.
  intros Hs. revert m mx sg kept.
  induction Hs as [|[no w] R segs recss Hr Hs IH]; intros m mx sg kept Hg Hmx.
  { exists [], []. cbn. rewrite app_nil_r. by split_and!. }
  cbn [concat] in Hg. apply Forall_app in Hg as [Hg1 Hg2].
  cbn [replay_segments]. unfold seg_reads in Hr. cbn [snd] in Hr. rewrite Hr.
  rewrite replay_records_ok by done. cbn [mbind result_mbind orb].
  pose proof (max_seq_of_ge R mx) as Hge.
  destruct (existsb (live lf) R) eqn:El.
  - edestruct (IH (replay_mem lf R m) (max_seq_of R mx) (N.max sg no) (kept ++ [(no, w)]) Hg2)
      as (segs' & recss' & E & H1' & H2' & H3' & H4' & H5'); [lia|].
    exists ((no, w) :: segs'), (R :: recss'). rewrite E. cbn [concat].
    rewrite <- !app_assoc, replay_mem_app, max_seq_of_app. split_and!; [done|by constructor| |..].
    + by apply sublist_skip.
    + by apply Forall_app.
    + intros m'. by rewrite !replay_mem_app, H4'.
    + intros s Hs'. rewrite !max_seq_of_app. apply H5'. pose proof (max_seq_of_ge R s). lia.
  - destruct (dead_records lf R El) as [Hd1 Hd2].
    edestruct (IH (replay_mem lf R m) (max_seq_of R mx) (N.max sg no) kept Hg2)
      as (segs' & recss' & E & H1' & H2' & H3' & H4' & H5'); [lia|].
    exists segs', recss'. rewrite E. cbn [concat].
    rewrite replay_mem_app, max_seq_of_app. split_and!; [done|done| |done|..].
    + by apply sublist_cons.
    + intros m'. by rewrite replay_mem_app, H4', Hd1.
    + intros s Hs'. by rewrite max_seq_of_app, H5', Hd2.
Qed.

(** * What the data directory represents *)

Record disk_rep (d : Disk) (lf : N) (ss : list SstReader) ms (recss : list (list (N * bytes)))
    : Prop := mkDiskRep {
  dr_manifest : manifest_load (d_manifest d) = Ok (mkManifest lf (r_file_no <$> ss));
  dr_open : open_ssts (d_ssts d) (r_file_no <$> ss) = Ok ss;
  dr_tables : Forall2 sst_of ss ms;
  dr_segs : Forall2 seg_reads (d_wals d) recss;
  dr_sorted : StronglySorted N.lt (d_wals d).*1;
  dr_good : Forall good_rec (concat recss);
}.

(** The logical content of such a directory. *)
Definition disk_view (lf : N) ms R : Store :=
  λ cf k, mem_levels_get (replay_mem lf R Memtable_new :: rev ms) cf k.

Definition seg_synced (x : N * WalWriter) : Prop := wf_synced x.2 = length (wf_data x.2).
Definition disk_synced (d : Disk) : Prop := Forall seg_synced (d_wals d).

(** * The running engine *)

(** The engine's memory agrees with its directory: the active memtable is the
    replay of the log past the watermark. *)
Record core_rep c ms (olds : list (list (N * bytes))) (cur : list (N * bytes)) : Prop := mkCoreRep {
  cr_disk : disk_rep (disk_of c) (c_last_flushed_seq c) (c_sstables c) ms (olds ++ [cur]);
  cr_immutable : c_immutable c = [];
  cr_active : c_active c = replay_mem (c_last_flushed_seq c) (concat olds ++ cur) Memtable_new;
  cr_seq : c_seq c = max_seq_of (concat olds ++ cur) (c_last_flushed_seq c);
  cr_old_synced : Forall seg_synced (c_old_wals c);
  cr_cur : wf_data (c_wal c).2 = concat (rec_frame <$> cur);
  cr_next_seg : Forall (λ n, n < c_next_seg c) (c_old_wals c ++ [c_wal c]).*1;
  cr_next_sst : Forall (λ n, n < c_next_sst c) (c_sst_files c).*1;
  cr_next_no : Forall (λ n, n < c_next_sst c) (r_file_no <$> c_sstables c);
}.

Lemma core_rep_view c ms olds cur :
  core_rep c ms olds cur →
  view c ms = disk_view (c_last_flushed_seq c) ms (concat olds ++ cur).
Proof.
  intros Hr. unfold view, levels, disk_view.
  by rewrite (cr_immutable _ _ _ _ Hr), (cr_active _ _ _ _ Hr).
Qed.

(** * Recovery *)

Lemma assoc_N_filter n (nos : list N) {A} (l : list (N * A)) :
  n ∈ nos → assoc_N n (filter (λ f, f.1 ∈ nos) l) = assoc_N n l.
Proof.
  intros Hn. induction l as [|[k v] l IH]; [done|]. rewrite filter_cons. cbn [fst].
  case_decide as Hk; cbn; [by rewrite IH|]. rewrite IH.
  destruct (N.eqb_spec k n); [by subst|done].
Qed.

Lemma open_ssts_files files files' nos :
  (∀ n, n ∈ nos → assoc_N n files' = assoc_N n files) →
  open_ssts files' nos = open_ssts files nos.
Proof.
  induction nos as [|n nos IH]; intros Hn; [done|]. cbn.
  rewrite Hn by left. destruct (assoc_N n files) as [file|]; [|done]. cbn.
  destruct (sst_open file n); [|done]. cbn. rewrite IH; [done|]. intros n' Hn'. apply Hn. by right.
Qed.

Lemma list_numbered_sorted {A} (l : list (N * A)) :
  StronglySorted N.lt l.*1 → list_numbered l = l.
Proof.
  intros Hs. unfold list_numbered.
  assert (Hlt : StronglySorted (λ a b : N * A, a.1 < b.1) l).
  { induction l as [|a l IH]; [constructor|]. inversion Hs as [|? ? Hs' Hf]; subst.
    constructor; [auto|]. rewrite Forall_fmap in Hf. exact Hf. }
  clear Hs. set (Rle := λ a b : N * A, a.1 ≤ b.1).
  assert (Hp : Permutation (merge_sort Rle l) l) by apply merge_sort_Permutation.
  assert (Hm : StronglySorted Rle (merge_sort Rle l)).
  { apply StronglySorted_merge_sort; unfold Rle; [intros ???; lia|].
    intros a b. destruct (N.le_ge_cases a.1 b.1); auto. }
  revert Hm Hp Hlt. generalize (merge_sort Rle l). intros l'. revert l.
  induction l' as [|a l' IH]; intros l Hm Hp Hlt.
  { by apply Permutation_nil in Hp as ->. }
  destruct l as [|b l]; [by apply Permutation_sym, Permutation_nil_cons in Hp|].
  inversion Hm as [|? ? Hm' Hfa]; subst. inversion Hlt as [|? ? Hlt' Hfb]; subst.
  assert (a = b) as ->.
  { assert (Ha : a ∈ b :: l) by (rewrite <- Hp; left).
    assert (Hb : b ∈ a :: l') by (rewrite Hp; left).
    apply elem_of_cons in Ha as [->|Ha]; [done|].
    apply elem_of_cons in Hb as [->|Hb]; [done|].
    rewrite Forall_forall in Hfa, Hfb. specialize (Hfa _ Hb). specialize (Hfb _ Ha).
    unfold Rle in Hfa. lia. }
  f_equal. apply IH; [done| |done]. by apply Permutation_cons_inv in Hp.
Qed.

Lemma fold_max_ge l n s : n ∈ l → n ≤ fold_left N.max l s.
Proof.
  assert (Hge : ∀ l s, s ≤ fold_left N.max l s).
  { intros l'. induction l' as [|x l' IH]; intros s'; cbn; [done|].
    specialize (IH (N.max s' x)). lia. }
  revert s. induction l as [|x l IH]; intros s; [by intros ?%elem_of_nil|].
  intros [->|Hn]%elem_of_cons; cbn; [|auto].
  specialize (Hge l (N.max s x)). lia.
Qed.

Lemma foldr_max_ge l n : n ∈ l → n ≤ foldr N.max 0 l.
Proof.
  induction l as [|x l IH]; [by intros ?%elem_of_nil|].
  intros [->|Hn]%elem_of_cons; cbn; [lia|]. specialize (IH Hn). lia.
Qed.

Lemma Forall_sublist {A} (P : A → Prop) l1 l2 : sublist l1 l2 → Forall P l2 → Forall P l1.
Proof. induction 1; intros Hf; inversion Hf; subst; auto. Qed.

Lemma sublist_sorted l1 l2 : sublist l1 l2 → StronglySorted N.lt l2 → StronglySorted N.lt l1.
Proof.
  induction 1 as [|x l1 l2 Hsub IH|x l1 l2 Hsub IH]; intros Hs; [done| |];
    inversion Hs as [|? ? Hs' Hf]; subst; [|auto].
  constructor; [auto|]. by eapply Forall_sublist.
Qed.

Lemma sorted_snoc l n : StronglySorted N.lt l → Forall (λ x, x < n) l → StronglySorted N.lt (l ++ [n]).
Proof.
  intros Hs Hf. apply StronglySorted_app. split_and!; [|done|by repeat constructor].
  intros x y Hx ->%list_elem_of_singleton. rewrite Forall_forall in Hf. auto.
Qed.

Lemma elem_of_filter_fst (nos : list N) {A} (l : list (N * A)) n :
  n ∈ (filter (λ f, f.1 ∈ nos) l).*1 → n ∈ nos.
Proof. intros ([k v] & -> & Hin)%list_elem_of_fmap. by apply list_elem_of_filter in Hin as [? _]. Qed.

(** Opening a represented directory succeeds with its content. *)
Lemma engine_open_rep opts d lf ss ms recss :
  disk_rep d lf ss ms recss → disk_synced d →
  ∃ c olds, engine_open opts d = Ok c ∧ c_opts c = opts ∧ core_rep c ms olds [] ∧
    c_seq c = max_seq_of (concat recss) lf ∧
    view c ms = disk_view lf ms (concat recss) ∧
    wf_synced (c_wal c).2 = length (wf_data (c_wal c).2).
Proof.
  intros [Hm Ho Ht Hs Hso Hg] Hsy. unfold engine_open. rewrite Hm. cbn [mbind result_mbind].
  cbn [m_sstables m_last_flushed_seq]. rewrite Ho. cbn [mbind result_mbind].
  rewrite list_numbered_sorted by done.
  destruct (replay_segments_ok lf _ _ Memtable_new lf 0 [] Hs Hg ltac:(lia))
    as (segs' & recss' & E & Hr' & Hsub & Hg' & Hmem & Hmax).
  rewrite E. cbn [mbind result_mbind app]. set (sg := fold_left _ _ _).
  eexists _, recss'. split; [reflexivity|]. cbn.
  assert (Hsub1 : sublist segs'.*1 (d_wals d).*1) 
    by (clear -Hsub; induction Hsub; cbn; by constructor).
  assert (Hle : Forall (λ n, n ≤ sg) segs'.*1).
  { eapply Forall_sublist; [exact Hsub1|]. apply Forall_forall. intros n Hn. by apply fold_max_ge. }
  assert (Hfmax : ∀ n, n ∈ r_file_no <$> ss → n < foldr N.max 0 (r_file_no <$> ss) + 1).
  { intros n Hn. apply foldr_max_ge in Hn. lia. }
  split_and!; [done| |done|done|done].
  constructor; cbn.
  - constructor; cbn; [done| |done| | |].
    + rewrite <- Ho. apply open_ssts_files. intros n Hn. by apply assoc_N_filter.
    + apply Forall2_app; [done|]. by constructor.
    + rewrite fmap_app. apply sorted_snoc; [by eapply sublist_sorted|].
      eapply Forall_impl; [exact Hle|]. cbn. intros; lia.
    + rewrite concat_app. apply Forall_app. by split.
  - done.
  - by rewrite app_nil_r, Hmem.
  - by rewrite app_nil_r, Hmax.
  - by eapply Forall_sublist.
  - done.
  - rewrite fmap_app. apply Forall_app. split; [|cbn; repeat constructor; lia].
    eapply Forall_impl; [exact Hle|]. cbn. intros; lia.
  - apply Forall_forall. intros n Hn%elem_of_filter_fst. auto.
  - by apply Forall_forall.
Qed.

(** * Crashes *)

Lemma crash_wal_synced w w' :
  wf_synced w = length (wf_data w) → crash_wal w w' →
  wf_data w' = wf_data w ∧ wf_synced w' = length (wf_data w').
Proof.
  intros Hs (n & Hn & ->). cbn. rewrite take_ge by lia. split; [done|lia].
Qed.

Lemma crash_wals_synced (l l' : list (N * WalWriter)) :
  Forall seg_synced l → Forall2 (λ a b, a.1 = b.1 ∧ crash_wal a.2 b.2) l l' →
  l'.*1 = l.*1 ∧ Forall seg_synced l' ∧
  ∀ recss, Forall2 seg_reads l recss → Forall2 seg_reads l' recss.
Proof.
  intros Hs Hc. induction Hc as [|a b l l' [E1 E2] Hc IH]; [done|].
  inversion Hs as [|? ? Hsa Hsl]; subst. destruct (IH Hsl) as (Ef & Hsy & Hr).
  destruct (crash_wal_synced _ _ Hsa E2) as [Ed Ey]. cbn. rewrite Ef, E1. split_and!; [done|by constructor|].
  intros recss Hrs. inversion Hrs; subst. constructor; [|auto]. unfold seg_reads in *. by rewrite Ed.
Qed.

(** A crash of a fully synced directory loses nothing. *)
Lemma crash_synced_rep d d' lf ss ms recss :
  disk_rep d lf ss ms recss → disk_synced d → crash d d' →
  disk_rep d' lf ss ms recss ∧ disk_synced d'.
Proof.
  intros [Hm Ho Ht Hs Hso Hg] Hsy (Em & Es & Hc).
  destruct (crash_wals_synced _ _ Hsy Hc) as (Ef & Hsy' & Hr).
  split; [|done]. constructor; rewrite ?Em, ?Es, ?Ef; auto.
Qed.

(** A crash of a running engine keeps the old segments and a prefix of the current
    one, with at least the records whose frames were synced. *)
Lemma crash_core_rep c ms olds cur d :
  core_rep c ms olds cur → crash (disk_of c) d →
  ∃ k, (k ≤ length cur)%nat ∧
    (∀ j, (j ≤ length cur)%nat →
      (length (concat (rec_frame <$> take j cur)) ≤ wf_synced (c_wal c).2)%nat → (j ≤ k)%nat) ∧
    disk_rep d (c_last_flushed_seq c) (c_sstables c) ms (olds ++ [take k cur]) ∧ disk_synced d.
Proof.
  intros Hr (Em & Es & Hc). destruct (cr_disk _ _ _ _ Hr) as [Hm Ho Ht Hs Hso Hg].
  cbn in *. apply Forall2_app_inv_l in Hc as (lo & lc & Hco & Hcc & El).
  inversion Hcc as [|? b ? ? [Eb Hcw] Hnil]; subst. inversion Hnil; subst.
  apply Forall2_app_inv in Hs as [Hs1 Hs2]; cycle 1.
  { apply Forall2_length in Hs. rewrite !length_app in Hs. cbn in Hs. lia. }
  destruct (crash_wals_synced _ _ (cr_old_synced _ _ _ _ Hr) Hco) as (Ef & Hsy & Hrd).
  destruct Hcw as (n & Hn & Ew). pose proof (cr_cur _ _ _ _ Hr) as Ecur.
  rewrite concat_app in Hg. apply Forall_app in Hg as [Hg1 Hg2]. cbn in Hg2.
  rewrite app_nil_r in Hg2.
  assert (Hwf : Forall rec_wf cur) by (eapply Forall_impl; [exact Hg2|by intros ? []]).
  destruct (replay_cut cur n Hwf) as (k & Hk & Hkn & Hmax & Hrep).
  { rewrite <- Ecur. lia. }
  exists k. split_and!; [done| | |].
  - intros j Hj Hjl. apply Hmax; [done|]. lia.
  - constructor; rewrite ?Em, ?Es, ?El; [done|done|done| | |].
    + apply Forall2_app; [by apply Hrd|]. constructor; [|done].
      unfold seg_reads. rewrite Ew, Ecur. done.
    + rewrite fmap_app in *. cbn in *. by rewrite Ef, <- Eb.
    + rewrite concat_app. apply Forall_app. split; [done|]. cbn. rewrite app_nil_r.
      by apply Forall_take.
  - unfold disk_synced. rewrite El. apply Forall_app. split; [done|].
    constructor; [|done]. unfold seg_synced. rewrite Ew. cbn. rewrite length_take. lia.
Qed.
End recovery.

(** * Durability

    The engine as a durable store: groups keep the log and the directory in step
    with memory, and a crash at any point of a group recovers a prefix of it. *)

(** A request whose batch fits one WAL record. *)
Definition req_fits (op : Op) : Prop :=
  batch_wf (req_batch op) ∧ is_u32 (N.of_nat (8 + length (batch_encode (req_batch op)))).

Lemma spec_op_req st op b : spec_op st op (inl b) → b = req_batch op.
Proof. by inversion 1. Qed.

(** The log records of batches written from sequence [seq] on. *)
Fixpoint recs_of (seq : N) (bs : list WriteBatch) : list (N * bytes) :=
  match bs with
  | [] => []
  | b :: bs' => (seq + 1, batch_encode b) :: recs_of (seq + 1) bs'
  end.

Lemma length_recs_of seq bs : length (recs_of seq bs) = length bs.
Proof. revert seq. induction bs as [|b bs IH]; intros seq; cbn; [done|]. by rewrite IH. Qed.
Lemma take_recs_of k seq bs : take k (recs_of seq bs) = recs_of seq (take k bs).
Proof.
  revert k seq. induction bs as [|b bs IH]; intros [|k] seq; cbn; [done..|]. by rewrite IH.
Qed.

#[local] Arguments wal_frame : simpl never.
#[local] Arguments write_sst : simpl never.
#[local] Arguments sst_open : simpl never.
#[local] Arguments manifest_encode : simpl never.
#[local] Arguments batch_encode : simpl never.
#[local] Arguments encode_data_key : simpl never.

Section durable.
Context `{Crc32cLaws} {M : Type} `{SkipMapLaws MemValue M}.
Implicit Types (c : Core M) (m : Memtable M) (ms : list (Memtable M)) (R : list (N * bytes)).

(** * The request loop *)

(** One logged batch, on the representation. *)
Lemma replay_mem_snoc lf R m seq b :
  lf < seq → batch_wf b →
  replay_mem lf (R ++ [(seq, batch_encode b)]) m = mt_apply (replay_mem lf R m) seq b.
Proof.
  intros Hlt Hb. rewrite replay_mem_app. cbn. unfold replay_one. cbn [fst snd].
  apply N.ltb_lt in Hlt as ->. by rewrite batch_decode_encode.
Qed.

Lemma max_seq_of_snoc R s seq p :
  max_seq_of R s < seq → max_seq_of (R ++ [(seq, p)]) s = seq.
Proof. intros Hlt. rewrite max_seq_of_app. cbn. lia. Qed.

Lemma process_op_rep c ms olds cur op :
  core_rep c ms olds cur → req_fits op → is_u64 (c_seq c + 1) →
  let c' := (process_op c op None).1.1 in
  wf_synced (c_wal c').2 = wf_synced (c_wal c).2 ∧
  match op_batch c op with
  | inl b => core_rep c' ms olds (cur ++ recs_of (c_seq c) [b]) ∧ c_seq c' = c_seq c + 1
  | inr _ => c' = c
  end.
Proof.
  intros Hr [Hb Hf] Hq. unfold process_op.
  pose proof (op_batch_spec c ms op (dr_tables _ _ _ _ _ (cr_disk _ _ _ _ Hr))) as Ho.
  destruct (op_batch c op) as [b|r]; [|done]. apply spec_op_req in Ho as ->.
  destruct Hr as [[Hm Ho Ht Hs Hso Hg] Hi Ha Hsq Hos Hc Hsg Hst Hno].
  set (b := req_batch op) in *. split; [done|]. split; [|done].
  cbn [wal_append fst snd]. cbn [recs_of].
  pose proof (max_seq_of_ge (concat olds ++ cur) (c_last_flushed_seq c)) as Hge.
  assert (Hgood : good_rec (c_seq c + 1, batch_encode b)).
  { split; [by split|]. cbn. by rewrite batch_decode_encode. }
  cbn in *. rewrite concat_app in Hg. cbn in Hg. rewrite app_nil_r in Hg.
  assert (Hg' : Forall good_rec (cur ++ [(c_seq c + 1, batch_encode b)])).
  { apply Forall_app in Hg as [_ Hg]. apply Forall_app. split; [done|by constructor]. }
  assert (Ed : wf_data (c_wal c).2 ++ wal_frame (c_seq c + 1) (batch_encode b)
    = concat (rec_frame <$> cur ++ [(c_seq c + 1, batch_encode b)])).
  { rewrite fmap_app, concat_app, <- Hc. cbn. by rewrite app_nil_r. }
  constructor; cbn; [|done| | |done|done|by rewrite fmap_app in *|done|done].
  - constructor; cbn; [done|done|done| |by rewrite fmap_app in *|].
    + apply Forall2_app_inv in Hs as [Hs1 Hs2].
      2:{ apply Forall2_length in Hs. rewrite !length_app in Hs. cbn in Hs. lia. }
      apply Forall2_app; [done|]. constructor; [|done]. unfold seg_reads. cbn [snd wf_data].
      rewrite Ed, replay_intact; [done|]. eapply Forall_impl; [exact Hg'|by intros ? []].
    + rewrite concat_app. cbn. rewrite app_nil_r. apply Forall_app in Hg as [Hg _].
      by apply Forall_app.
  - rewrite Ha, app_assoc, replay_mem_snoc; [done| |done]. lia.
  - rewrite app_assoc, max_seq_of_snoc; [done|]. lia.
Qed.

Lemma recs_of_app seq b bs : recs_of seq (b :: bs) = recs_of seq [b] ++ recs_of (seq + 1) bs.
Proof. done. Qed.

Lemma process_ops_rep c ms olds cur group i f :
  core_rep c ms olds cur → Forall req_fits group → (∀ j, f_append f j = None) →
  is_u64 (c_seq c + N.of_nat (length group)) →
  let c' := (process_ops c group i f).1.1 in
  wf_synced (c_wal c').2 = wf_synced (c_wal c).2 ∧
  ((process_ops c group i f).2 = false → c' = c) ∧
  ∃ bs, core_rep c' ms olds (cur ++ recs_of (c_seq c) bs) ∧
    spec_group (view c ms) (c_seq c) group bs (process_ops c group i f).1.2
      (view c' ms) (c_seq c').
Proof.
  intros Hr Hfit Hf. cbn zeta. revert c cur i Hr.
  induction Hfit as [|op group Hop Hfit IH]; intros c cur i Hr Hq; cbn.
  { split; [done|]. split; [done|]. exists []. cbn. rewrite app_nil_r. split; [done|by constructor]. }
  cbn [length] in Hq.
  pose proof (op_batch_spec c ms op (dr_tables _ _ _ _ _ (cr_disk _ _ _ _ Hr))) as Ho.
  destruct (process_op_rep c ms olds cur op Hr Hop) as [Ey Hc']; [lia|].
  rewrite Hf. unfold process_op in *. destruct (op_batch c op) as [b|r] eqn:Eo.
  - cbn [wal_append fst snd] in *. set (c1 := set_field _ _) in *.
    destruct Hc' as [Hr1 Eq1].
    destruct (IH c1 _ (S i) Hr1) as (Ey2 & Happ & bs & Hr2 & Hg); [lia|].
    destruct (process_ops c1 group (S i) f) as [[c2 rs] a]. cbn [fst snd] in *.
    split; [congruence|]. split; [done|]. exists (b :: bs). rewrite recs_of_app, app_assoc, <- Eq1.
    split; [done|]. eapply spec_group_write; [done|]. rewrite <- Eq1.
    eapply spec_group_start; [|exact Hg]. by apply (view_apply c ms (c_seq c + 1) b).
  - destruct (IH c _ (S i) Hr) as (Ey2 & Happ & bs & Hr2 & Hg); [lia|].
    destruct (process_ops c group (S i) f) as [[c2 rs] a]. cbn [fst snd] in *.
    split; [done|]. split; [done|]. exists bs. split; [done|]. by eapply spec_group_answer.
Qed.

(** * A crash before the group is synced *)

(** The log after a prefix of the group's batches holds the store after them. *)
Lemma disk_view_batches lf ms R seq bs :
  lf ≤ seq → Forall batch_wf bs →
  store_eq (disk_view lf ms (R ++ recs_of seq bs)) (fold_left apply_batch bs (disk_view lf ms R)).
Proof.
  intros Hle Hbs. revert R seq Hle. induction Hbs as [|b bs Hb Hbs IH]; intros R seq Hle.
  { cbn. by rewrite app_nil_r. }
  rewrite recs_of_app, app_assoc, IH by lia. cbn [fold_left recs_of].
  assert (E : store_eq (disk_view lf ms (R ++ [(seq + 1, batch_encode b)]))
    (apply_batch (disk_view lf ms R) b)).
  { intros cf k. unfold disk_view, apply_batch. rewrite replay_mem_snoc by (done || lia).
    cbn [mem_levels_get]. rewrite mt_get_apply. by destruct (ops_last cf k (ops b)). }
  clear -E. revert E. generalize (disk_view lf ms (R ++ [(seq + 1, batch_encode b)])).
  generalize (apply_batch (disk_view lf ms R) b). induction bs as [|b' bs IH]; intros s1 s2 E; cbn; [done|].
  apply IH. by rewrite E.
Qed.

Lemma spec_group_fits st seq group bs rs st' seq' :
  Forall req_fits group → spec_group st seq group bs rs st' seq' → Forall batch_wf bs.
Proof.
  intros Hf Hg. induction Hg as [| |? ? op group b bs rs ? ? Ho Hg IH];
    inversion Hf as [|? ? Hop Hfit]; subst; [constructor|auto|].
  constructor; [|auto]. apply spec_op_req in Ho as ->. apply Hop.
Qed.

Definition wal_synced c : Prop := seg_synced (c_wal c).

Lemma crash_mid_group c ms olds cur group f d opts :
  core_rep c ms olds cur → wal_synced c → Forall req_fits group → (∀ j, f_append f j = None) →
  is_u64 (c_seq c + N.of_nat (length group)) →
  crash (disk_of (process_ops c group 0 f).1.1) d →
  ∃ c' olds' bs rs st' seq' k, engine_open opts d = Ok c' ∧
    core_rep c' ms olds' [] ∧ wal_synced c' ∧ c_opts c' = opts ∧
    spec_group (view c ms) (c_seq c) group bs rs st' seq' ∧ (k ≤ length bs)%nat ∧
    store_eq (view c' ms) (fold_left apply_batch (take k bs) (view c ms)) ∧
    c_seq c' = c_seq c + N.of_nat k.
Proof.
  intros Hr Hy Hfit Hf Hq Hcr.
  destruct (process_ops_rep c ms olds cur group 0 f Hr Hfit Hf Hq) as (Ey & _ & bs & Hr1 & Hg).
  pose proof (process_ops_files c group 0 f) as (_ & _ & Es & _ & _ & El & _).
  destruct (crash_core_rep _ _ _ _ _ Hr1 Hcr) as (k & Hk & Hmax & Hd & Hsy).
  assert (Hk1 : (length cur ≤ k)%nat).
  { apply Hmax; [rewrite length_app; lia|]. rewrite take_app_length, Ey, <- (cr_cur _ _ _ _ Hr).
    by rewrite Hy. }
  rewrite length_app, length_recs_of in Hk.
  rewrite take_app_ge in Hd by done. rewrite take_recs_of in Hd. set (j := (k - length cur)%nat) in *.
  destruct (engine_open_rep opts _ _ _ _ _ Hd Hsy) as (c' & olds' & Ho & Hop & Hr' & Hq' & Hv & Hs').
  eexists c', olds', bs, _, _, _, j. split_and!; try done; [lia| |].
  - rewrite Hv, El, concat_app. cbn. rewrite app_nil_r, app_assoc, disk_view_batches.
    + by rewrite <- (core_rep_view _ _ _ _ Hr).
    + rewrite (cr_seq _ _ _ _ Hr). apply max_seq_of_ge.
    + apply Forall_take. by eapply spec_group_fits.
  - rewrite Hq', El, concat_app. cbn. rewrite app_nil_r, app_assoc, max_seq_of_app.
    rewrite <- (cr_seq _ _ _ _ Hr).
    assert (Hms : ∀ bs s, max_seq_of (recs_of s bs) s = s + N.of_nat (length bs)).
    { clear. intros bs. induction bs as [|b bs IH]; intros s; cbn; [unfold max_seq_of; cbn; lia|].
      unfold max_seq_of in *. cbn. replace (N.max s (s + 1)) with (s + 1) by lia. rewrite IH. lia. }
    rewrite Hms, length_take. lia.
Qed.

(** * Freeze and flush on the representation *)

Lemma replay_max_seq lf R m :
  Forall good_rec R →
  N.max lf (mt_max_seq (replay_mem lf R m)) = max_seq_of R (N.max lf (mt_max_seq m)).
Proof.
  intros HR. revert m. induction HR as [|[s p] R [_ [b Hb]] HR IH]; intros m; [done|].
  unfold replay_mem, max_seq_of in *. cbn [fold_left fmap list_fmap fst]. rewrite IH. f_equal.
  unfold replay_one. cbn [fst snd] in *. rewrite Hb. destruct (N.ltb_spec lf s).
  - rewrite mt_apply_max_seq. lia.
  - lia.
Qed.

Lemma dead_after R s : existsb (live (max_seq_of R s)) R = false.
Proof.
  apply not_true_is_false. rewrite existsb_exists. intros ([q p] & Hin & Hl).
  unfold live in Hl. cbn in Hl. apply N.ltb_lt in Hl.
  assert (q ≤ max_seq_of R s); [|lia]. apply fold_max_ge, list_elem_of_fmap.
  exists (q, p). split; [done|]. by apply list_elem_of_In.
Qed.

Lemma assoc_N_app_fresh {A} n n' (l : list (N * A)) v :
  n ≠ n' → assoc_N n (l ++ [(n', v)]) = assoc_N n l.
Proof.
  intros Hne. induction l as [|[k x] l IH]; cbn.
  - destruct (N.eqb_spec n' n); [by subst|done].
  - by rewrite IH.
Qed.
Lemma assoc_N_app_new {A} n (l : list (N * A)) v :
  Forall (λ k, k < n) l.*1 → assoc_N n (l ++ [(n, v)]) = Some v.
Proof.
  induction l as [|[k x] l IH]; cbn; [by rewrite N.eqb_refl|].
  intros [Hk Hf]%Forall_cons. destruct (N.eqb_spec k n); [lia|auto].
Qed.

Lemma open_ssts_app files nos ss n file r :
  open_ssts files nos = Ok ss → assoc_N n files = Some file → sst_open file n = Ok r →
  open_ssts files (nos ++ [n]) = Ok (ss ++ [r]).
Proof.
  intros Ho Ha Hr. revert ss Ho. induction nos as [|k nos IH]; intros ss; cbn.
  - intros [= <-]. rewrite Ha. cbn. by rewrite Hr.
  - destruct (assoc_N k files); cbn; [|done]. destruct (sst_open _ k); cbn; [|done].
    destruct (open_ssts files nos) as [ss'|]; cbn; [|done]. intros [= <-].
    by rewrite (IH ss').
Qed.

(** A new table file does not disturb the tables already named. *)
Lemma open_ssts_extend files nos ss n file :
  open_ssts files nos = Ok ss → Forall (λ k, k < n) nos →
  open_ssts (files ++ [(n, file)]) nos = Ok ss.
Proof.
  intros Ho Hn. rewrite <- Ho. apply open_ssts_files. intros k Hk.
  apply assoc_N_app_fresh. rewrite Forall_forall in Hn. specialize (Hn _ Hk). lia.
Qed.

(** Room in the counters the manifest stores. *)
Definition counters_fit c : Prop :=
  is_u64 (c_seq c) ∧ is_u64 (c_next_sst c) ∧ is_u32 (N.of_nat (length (c_sstables c) + 1)).

Lemma manifest_saved lf (nos : list N) n :
  is_u64 lf → Forall (λ k, k < n) nos → is_u64 n → is_u32 (N.of_nat (length nos)) →
  manifest_load (Some (manifest_encode (mkManifest lf nos))) = Ok (mkManifest lf nos).
Proof.
  intros Hlf Hno Hn Hlen. apply manifest_decode_encode. split_and!; cbn; [done|done|].
  eapply Forall_impl; [exact Hno|]. cbn. intros; lia.
Qed.

(** What a flush does when it succeeds: [add] is the new table with the memtable
    it holds, none when the memtable was empty. *)
Record flushed c1 (frozen : N * Memtable M) c' (add : list (SstReader * Memtable M))
    (extra : list (N * bytes)) (nxt : N) : Prop := mkFlushed {
  fl_core : c' = let lf := N.max (c_last_flushed_seq c1) (mt_max_seq frozen.2) in
    mkCore (c_opts c1) (c_active c1) (remove_frozen frozen.1 (c_immutable c1))
      (c_sstables c1 ++ add.*1) (c_wal c1) (c_old_wals c1) (c_seq c1) lf (c_next_seg c1) nxt
      (c_sst_files c1 ++ extra)
      (Some (manifest_encode (mkManifest lf (r_file_no <$> c_sstables c1 ++ add.*1))));
  fl_tables : Forall2 sst_of add.*1 add.*2;
  fl_content : ∀ cf k, mem_levels_get (rev add.*2) cf k = mt_get_cf frozen.2 cf k;
  fl_next : c_next_sst c1 ≤ nxt;
  fl_extra : Forall (λ n, c_next_sst c1 ≤ n < nxt) extra.*1;
  fl_nos : Forall (λ n, c_next_sst c1 ≤ n < nxt ∧ n ≤ c_next_sst c1) (r_file_no <$> add.*1);
  fl_one : (length add ≤ 1)%nat;
  fl_open : ∀ nos ss, open_ssts (c_sst_files c1) nos = Ok ss →
    Forall (λ n, n < c_next_sst c1) nos → Forall (λ n, n < c_next_sst c1) (c_sst_files c1).*1 →
    open_ssts (c_sst_files c1 ++ extra) (nos ++ (r_file_no <$> add.*1)) = Ok (ss ++ add.*1);
}.

(** A failed flush leaves the manifest and the log alone; it may leave a table
    file that no manifest names. *)
Definition flush_failed c1 c' : Prop :=
  ∃ extra, disk_of c' = mkDisk (c_manifest c1) (c_old_wals c1 ++ [c_wal c1]) (c_sst_files c1 ++ extra) ∧
    (extra = [] ∨ ∃ file, extra = [(c_next_sst c1, file)]).

Lemma flush_cases c1 frozen f :
  mt_bounded frozen.2 → table_fits frozen.2 →
  let c' := (flush_memtable c1 frozen f).1 in
  (f_write_sst f || f_manifest f = true ∧ flush_failed c1 c') ∨
  (∃ add extra nxt, flushed c1 frozen c' add extra nxt).
Proof.
  intros Hcnt Hfit. cbn zeta. unfold flush_memtable, persist_manifest.
  destruct (mt_is_empty frozen.2) eqn:Ez.
  - destruct (f_manifest f) eqn:Em; cbn.
    + left. rewrite orb_true_r. split; [done|]. exists []. rewrite app_nil_r. auto.
    + right. exists [], [], (c_next_sst c1). constructor; cbn; rewrite ?app_nil_r; try done; [|lia|].
      * intros cf k. symmetry. apply mt_bounded_empty; [done|]. by apply Nat.eqb_eq.
      * intros nos ss Ho _ _. by rewrite !app_nil_r.
  - destruct (f_write_sst f) eqn:Ew; cbn.
    { left. split; [done|]. exists []. rewrite app_nil_r. auto. }
    destruct (flush_install frozen.2 (c_next_sst c1) Hfit) as (file & r & -> & Hop & Hrn & Hof).
    rewrite Hop. destruct (f_manifest f) eqn:Em; cbn.
    + left. split; [done|]. exists [(c_next_sst c1, file)]. cbn. eauto.
    + right. exists [(r, frozen.2)], [(c_next_sst c1, file)], (c_next_sst c1 + 1).
      constructor; cbn; rewrite ?Hrn; try done; [by constructor| |lia|by repeat constructor; lia..|].
      * intros cf k. by destruct (mt_get_cf frozen.2 cf k).
      * intros nos ss Ho Hn Hf. eapply open_ssts_app; [by apply open_ssts_extend| |done].
        by apply assoc_N_app_new.
Qed.

(** The freshly frozen engine, before its flush. *)
Record frozen_rep c ms c1 olds1 cur1 : Prop := mkFrozenRep {
  fz_disk : disk_rep (disk_of c1) (c_last_flushed_seq c1) (c_sstables c1) ms (olds1 ++ [cur1]);
  fz_active : c_active c1 = Memtable_new;
  fz_immutable : c_immutable c1 = [(c_next_seg c, c_active c)];
  fz_old_synced : Forall seg_synced (c_old_wals c1);
  fz_synced : wal_synced c1;
  fz_cur : wf_data (c_wal c1).2 = concat (rec_frame <$> cur1);
  fz_next_seg : Forall (λ n, n < c_next_seg c1) (c_old_wals c1 ++ [c_wal c1]).*1;
  fz_next_sst : Forall (λ n, n < c_next_sst c1) (c_sst_files c1).*1;
  fz_next_no : Forall (λ n, n < c_next_sst c1) (r_file_no <$> c_sstables c1);
  fz_content : c_active c = replay_mem (c_last_flushed_seq c1) (concat olds1 ++ cur1) Memtable_new;
  fz_seq : c_seq c1 = max_seq_of (concat olds1 ++ cur1) (c_last_flushed_seq c1);
  fz_same_seq : c_seq c1 = c_seq c;
  fz_opts : c_opts c1 = c_opts c;
  fz_view : view c ms = disk_view (c_last_flushed_seq c1) ms (concat olds1 ++ cur1);
  fz_counters : counters_fit c1;
}.

(** Freezing starts the next segment (or keeps the current one when it cannot be
    created); the directory still represents the same log. *)
Lemma rotate_rep c ms olds cur fr :
  core_rep c ms olds cur → wal_synced c → counters_fit c →
  (rotate c fr).2 = (c_next_seg c, c_active c) ∧
  ∃ olds1 cur1, frozen_rep c ms (rotate c fr).1 olds1 cur1.
Proof.
  intros Hr Hy Hcf. pose proof (core_rep_view _ _ _ _ Hr) as Hv.
  destruct Hr as [[Hm Ho Ht Hs Hso Hg] Hi Ha Hsq Hos Hc Hsg Hst Hno].
  assert (Hsg' : Forall (λ n, n < c_next_seg c + 1) (c_old_wals c ++ [c_wal c]).*1).
  { eapply Forall_impl; [exact Hsg|]. cbn. intros; lia. }
  unfold rotate. destruct fr; cbn zeta; cbn; (split; [done|]).
  - exists olds, cur. by constructor; cbn; rewrite ?Hi.
  - exists (olds ++ [cur]), [].
    assert (E : concat (olds ++ [cur]) ++ [] = concat olds ++ cur)
      by (rewrite concat_app; cbn; by rewrite !app_nil_r).
    constructor; cbn; rewrite ?Hi, ?E; try done.
    + constructor; cbn; try done.
      * apply Forall2_app; [done|by constructor].
      * rewrite fmap_app. by apply sorted_snoc.
      * rewrite concat_app. apply Forall_app. by split.
    + apply Forall_app. split; [done|by constructor].
    + rewrite fmap_app. apply Forall_app. split; [done|repeat constructor; cbn; lia].
Qed.

(** What holds of the directory and, after a successful flush, of the engine. *)
Definition durable_as c' (st : Store) (seq : N) : Prop :=
  ∃ lf ss ms recss, disk_rep (disk_of c') lf ss ms recss ∧ disk_synced (disk_of c') ∧
    store_eq (disk_view lf ms (concat recss)) st ∧ max_seq_of (concat recss) lf = seq.

Definition running_as c' (st : Store) (seq : N) : Prop :=
  ∃ ms olds cur, core_rep c' ms olds cur ∧ wal_synced c' ∧ mt_bounded (c_active c') ∧
    store_eq (view c' ms) st ∧ c_seq c' = seq.

Lemma concat_snoc {A} (ls : list (list A)) l : concat (ls ++ [l]) = concat ls ++ l.
Proof. rewrite concat_app. cbn. by rewrite app_nil_r. Qed.

Lemma frozen_synced c ms c1 olds1 cur1 :
  frozen_rep c ms c1 olds1 cur1 → Forall seg_synced (c_old_wals c1 ++ [c_wal c1]).
Proof.
  intros Hz. apply Forall_app. split; [by eapply fz_old_synced|].
  constructor; [by eapply fz_synced|done].
Qed.

Lemma flush_failed_durable c ms c1 olds1 cur1 c' :
  frozen_rep c ms c1 olds1 cur1 → flush_failed c1 c' → durable_as c' (view c ms) (c_seq c).
Proof.
  intros Hz (extra & Ed & Hex). pose proof (frozen_synced _ _ _ _ _ Hz) as Hsy.
  destruct (fz_disk _ _ _ _ _ Hz) as [Hm Ho Ht Hs Hso Hg].
  exists (c_last_flushed_seq c1), (c_sstables c1), ms, (olds1 ++ [cur1]).
  unfold disk_synced. rewrite Ed, concat_snoc. split_and!; [|done| |].
  - constructor; cbn in *; try done.
    destruct Hex as [->|[file ->]]; [by rewrite app_nil_r|].
    apply open_ssts_extend; [done|by eapply fz_next_no].
  - by rewrite (fz_view _ _ _ _ _ Hz).
  - by rewrite <- (fz_seq _ _ _ _ _ Hz), (fz_same_seq _ _ _ _ _ Hz).
Qed.

(** After a flush every logged record is at or below the new watermark. *)
Lemma frozen_dead c ms c1 olds1 cur1 :
  frozen_rep c ms c1 olds1 cur1 →
  N.max (c_last_flushed_seq c1) (mt_max_seq (c_active c)) = c_seq c ∧
  (∀ m, replay_mem (c_seq c) (concat olds1 ++ cur1) m = m) ∧
  max_seq_of (concat olds1 ++ cur1) (c_seq c) = c_seq c.
Proof.
  intros Hz. destruct (fz_disk _ _ _ _ _ Hz) as [_ _ _ _ _ Hg]. rewrite concat_snoc in Hg.
  pose proof (fz_seq _ _ _ _ _ Hz) as Hsq. rewrite (fz_same_seq _ _ _ _ _ Hz) in Hsq.
  destruct (dead_records (c_seq c) (concat olds1 ++ cur1)) as [Hd1 Hd2].
  { rewrite Hsq. apply dead_after. }
  split_and!; [|done|auto with lia].
  rewrite (fz_content _ _ _ _ _ Hz), replay_max_seq, Hsq by done. cbn. by rewrite N.max_0_r.
Qed.

Lemma flushed_running c ms c1 olds1 cur1 c' add extra nxt :
  frozen_rep c ms c1 olds1 cur1 → flushed c1 (c_next_seg c, c_active c) c' add extra nxt →
  core_rep c' (ms ++ add.*2) olds1 cur1 ∧ wal_synced c' ∧ c_active c' = Memtable_new ∧
  store_eq (view c' (ms ++ add.*2)) (view c ms) ∧ c_seq c' = c_seq c.
Proof.
  intros Hz [-> Ht Hct Hnx Hex Hns H1' Hop]. cbn [snd fst] in *.
  destruct (frozen_dead _ _ _ _ _ Hz) as (Elf & Hd1 & Hd2). rewrite Elf.
  destruct Hz as [[Dm Do Dt Ds Dso Dg] Fa Fi Fos Fsy Fc Fsg Fst Fno Fct Fsq Fss Fo Fv (Fq & Fn & Fl)].
  rewrite Fi. cbn [remove_frozen]. rewrite N.eqb_refl.
  assert (Hno : Forall (λ n, n < nxt) (r_file_no <$> c_sstables c1 ++ add.*1)).
  { rewrite fmap_app. apply Forall_app. split; (eapply Forall_impl; [done|]; cbn; intros; lia). }
  split_and!; [|done|done| |done].
  - constructor; cbn; try done; try (by rewrite ?Fa, ?Fss, ?Hd1, ?Hd2).
    + constructor; cbn; try done.
      * apply manifest_decode_encode. split_and!; cbn; [by rewrite <- Fss| |].
        -- rewrite length_fmap, length_app, length_fmap. lia.
        -- rewrite fmap_app. apply Forall_app.
           split; (eapply Forall_impl; [done|]; cbn; intros; lia).
      * rewrite fmap_app. by apply Hop.
      * by apply Forall2_app.
    + rewrite fmap_app. apply Forall_app. split; (eapply Forall_impl; [done|]; cbn; intros; lia).
  - intros cf k. rewrite Fv. unfold view, levels, disk_view. cbn. rewrite Fa, mt_get_new.
    by rewrite rev_app_distr, mem_levels_get_app, Hct, <- Fct.
Qed.

(** * A group, durably *)

Lemma core_rep_sync c ms olds cur w :
  core_rep c ms olds cur → wf_data w = wf_data (c_wal c).2 →
  core_rep (c <| c_wal := ((c_wal c).1, w) |>) ms olds cur.
Proof.
  intros [[Hm Ho Ht Hs Hso Hg] Hi Ha Hsq Hos Hc Hsg Hst Hno] Hw. cbn in *.
  rewrite fmap_app in *.
  constructor; cbn; rewrite ?fmap_app, ?Hw; try done.
  constructor; cbn; rewrite ?fmap_app; try done.
  apply Forall2_app_inv in Hs as [Hs1 Hs2].
  2:{ apply Forall2_length in Hs. rewrite !length_app in Hs. cbn in Hs. lia. }
  apply Forall2_app; [done|]. inversion Hs2; subst. constructor; [|done].
  unfold seg_reads in *. cbn. by rewrite Hw.
Qed.

(** The bounds under which a group runs: its records stay below 4 GiB and the
    memtable below 1 GiB, and the [u64] and [u32] counters have room. *)
Record group_room c (group : list Op) : Prop := mkGroupRoom {
  gr_fits : Forall req_fits group;
  gr_seq : is_u64 (c_seq c + N.of_nat (length group));
  gr_sst : is_u64 (c_next_sst c);
  gr_tables : is_u32 (N.of_nat (length (c_sstables c) + 1));
  gr_table : (N.of_nat (mt_size (c_active c) + group_weight group) ≤ 1073741824)%N;
}.

(** Outcomes in which the log is written and synced; the flush may fail. *)
Definition log_ok (f : Faults) : Prop := (∀ j, f_append f j = None) ∧ f_sync f = false.

(** The engine at the end of the request loop and the fsync. *)
Lemma synced_ops c ms olds cur group f :
  core_rep c ms olds cur → wal_synced c → o_fsync_mode (c_opts c) ≠ FsyncNone →
  log_ok f → group_room c group →
  let '(c1, _, app) := process_ops c group 0 f in
  let ws := if app then wal_sync (c_wal c1).2 (o_fsync_mode (c_opts c1)) (f_sync f)
            else ((c_wal c1).2, Ok tt) in
  ws.2 = Ok tt ∧
  let c2 := c1 <| c_wal := ((c_wal c1).1, ws.1) |> in
  wal_synced c2 ∧ counters_fit c2 ∧ view c2 ms = view c1 ms ∧
  ∃ cur', core_rep c2 ms olds cur'.
Proof.
  intros Hr Hy Hmode [Hf Hsy] [Hfit Hq Hs64 Hl32 _].
  destruct (process_ops_rep c ms olds cur group 0 f Hr Hfit Hf Hq) as (Ey & Happ & bs & Hr1 & Hg).
  apply spec_group_store in Hg as Hst. destruct Hst as [_ Eq].
  assert (Hlen : (length bs ≤ length group)%nat).
  { clear -Hg. induction Hg; cbn; lia. }
  pose proof (process_ops_files c group 0 f) as (Eo & _ & Es & _ & _ & _ & _ & En & _).
  destruct (process_ops c group 0 f) as [[c1 rs] app]. cbn [fst snd] in *.
  set (ws := if app then _ else _).
  assert (Hws : ws.2 = Ok tt ∧ wf_data ws.1 = wf_data (c_wal c1).2 ∧
    wf_synced ws.1 = length (wf_data ws.1)).
  { unfold ws. rewrite Hsy, Eo. destruct app.
    - by destruct (o_fsync_mode (c_opts c)).
    - split_and!; [done|done|]. cbn. by rewrite (Happ eq_refl). }
  destruct Hws as (E1 & E2 & E3). cbn zeta. split; [done|]. split; [exact E3|].
  split; [|split; [done|eexists; by apply core_rep_sync]].
  split_and!; cbn; [rewrite Eq; lia|by rewrite En|by rewrite Es].
Qed.

Lemma process_group_durable c ms olds cur group f :
  core_rep c ms olds cur → wal_synced c → mt_bounded (c_active c) →
  o_fsync_mode (c_opts c) ≠ FsyncNone → log_ok f → group_room c group →
  ∃ bs st' seq',
    spec_group (view c ms) (c_seq c) group bs (process_group c group f).2 st' seq' ∧
    durable_as (process_group c group f).1 st' seq' ∧
    (f_write_sst f || f_manifest f = false → running_as (process_group c group f).1 st' seq').
Proof.
  intros Hr Hy Hcnt Hmode Hlog Hroom.
  pose proof (synced_ops _ _ _ _ _ _ Hr Hy Hmode Hlog Hroom) as Hsync.
  destruct (process_ops_spec c ms group 0 f) as [bs Hg]; [by apply Hr|by apply Hlog|].
  pose proof (process_ops_bounded c group 0 f Hcnt) as [Hcnt1 Hsz1].
  pose proof (gr_table _ _ Hroom) as Hsz.
  unfold process_group. destruct (process_ops c group 0 f) as [[c1 rs] app]. cbn [fst snd] in *.
  assert (Hfit : table_fits (c_active c1)) by (apply bounded_fits; [done|lia]).
  destruct (if app then _ else _) as [w sy]. cbn [fst snd] in Hsync.
  destruct Hsync as (-> & Hy2 & Hcf & Hv2 & cur' & Hr2). set (c2 := set_field _ _) in *.
  exists bs, (view c1 ms), (c_seq c1). destruct (_ <=? _)%nat.
  - destruct (rotate_rep c2 ms olds cur' (f_rotate f) Hr2 Hy2 Hcf) as (Erf & olds1 & cur1 & Hz).
    destruct (rotate c2 (f_rotate f)) as [c3 fr]. cbn [fst snd] in *. subst fr.
    split; [done|]. rewrite <- Hv2. change (c_seq c1) with (c_seq c2).
    destruct (flush_cases c3 (c_next_seg c2, c_active c2) f Hcnt1 Hfit)
      as [[Hff Hfail]|(add & extra & nxt & Hfl)].
    + split; [by eapply flush_failed_durable|]. by rewrite Hff.
    + destruct (flushed_running _ _ _ _ _ _ _ _ _ Hz Hfl) as (Hr' & Hy' & Ha' & Hv' & Hq').
      split.
      * eexists _, _, _, _. split; [by apply Hr'|]. rewrite concat_snoc.
        rewrite <- (core_rep_view _ _ _ _ Hr'), <- (cr_seq _ _ _ _ Hr').
        split_and!; [|done|done]. apply Forall_app.
        split; [by apply Hr'|by constructor].
      * intros _. eexists _, _, _. split_and!; [done|done| |done|done].
        rewrite Ha'. apply mt_bounded_new.
  - cbn [fst snd]. split; [done|]. rewrite <- Hv2. split.
    + eexists _, _, _, _. split; [by apply Hr2|]. rewrite concat_snoc.
      rewrite <- (core_rep_view _ _ _ _ Hr2), <- (cr_seq _ _ _ _ Hr2).
      split_and!; [|done|done]. apply Forall_app. split; [by apply Hr2|by constructor].
    + intros _. by eexists _, _, _.
Qed.

Lemma replay_bounded lf R m : mt_bounded m → mt_bounded (replay_mem lf R m).
Proof.
  unfold replay_mem. revert m. induction R as [|[s p] R IH]; intros m Hm; [done|]. apply IH.
  unfold replay_one. cbn. destruct (lf <? s); [|done].
  destruct (batch_decode p); [by apply mt_bounded_apply|done].
Qed.

(** A crash of a durable engine is recovered in full by the next open. *)
Lemma durable_recovers c st seq d opts :
  durable_as c st seq → crash (disk_of c) d →
  ∃ c', engine_open opts d = Ok c' ∧ running_as c' st seq ∧ c_opts c' = opts.
Proof.
  intros (lf & ss & ms & recss & Hd & Hsy & Hv & Hq) Hcr.
  destruct (crash_synced_rep _ _ _ _ _ _ Hd Hsy Hcr) as [Hd' Hsy'].
  destruct (engine_open_rep opts _ _ _ _ _ Hd' Hsy') as (c' & olds & Ho & Hop & Hr & Hq' & Hv' & Hs').
  exists c'. split; [done|]. split; [|done]. exists ms, olds, []. split_and!; [done|done| | |].
  - rewrite (cr_active _ _ _ _ Hr). apply replay_bounded, mt_bounded_new.
  - by rewrite Hv'.
  - by rewrite Hq'.
Qed.
End durable.
