(* ===== verification/Engine.v ===== *)
(** The engine end to end: executions of group commits, crashes and recoveries
    refine an atomic durable store; and the interface the transaction layer is
    written against. *)

From stdpp Require Import base list numbers strings sorting relations gmap.
From Stdlib Require Import Strings.Byte.
From S2P Require Import Prelude Crc Encoding Keys Batch OrdMap Memtable Sstable SstableCorrect.
From S2P Require Import SstableCorrect Wal Manifest Db DbCorrect DbDurable.

(** * The abstract durable store *)

(** What an observer of the engine sees: a group acknowledged with its answers,
    a group cut short by a crash, and a crash after an acknowledged group. *)
Inductive Event :=
  | EvGroup (group : list Op) (answers : list (Result N))
  | EvCut (group : list Op)
  | EvCrash (group : list Op) (answers : list (Result N)).

(** Acknowledged groups happen; a cut group leaves a prefix of its batches. *)
Inductive abs_step : Store * N → Event → Store * N → Prop :=
  | abs_group st seq group bs rs st' seq' :
      spec_group st seq group bs rs st' seq' →
      abs_step (st, seq) (EvGroup group rs) (st', seq')
  | abs_crash st seq group bs rs st' seq' :
      spec_group st seq group bs rs st' seq' →
      abs_step (st, seq) (EvCrash group rs) (st', seq')
  | abs_cut st seq group bs rs st' seq' k :
      spec_group st seq group bs rs st' seq' → (k ≤ length bs)%nat →
      abs_step (st, seq) (EvCut group)
        (fold_left apply_batch (take k bs) st, seq + N.of_nat k).

Inductive abs_steps : Store * N → list Event → Store * N → Prop :=
  | abs_nil s : abs_steps s [] s
  | abs_snoc s1 evs s2 ev s3 :
      abs_steps s1 evs s2 → abs_step s2 ev s3 → abs_steps s1 (evs ++ [ev]) s3.

Definition empty_store : Store := λ _ _, None.
Definition empty_disk : Disk := mkDisk None [] [].

Section engine.
Context `{Crc32cLaws} {M : Type} `{SkipMapLaws MemValue M}.
Implicit Types (c : Core M).

(** * Executions of the engine *)

(** Flush failures appear only before a crash: [EvGroup] runs with a working
    flush, a crash may happen at any point of a group, its flush included. *)
Inductive eng_step : Core M → Event → Core M → Prop :=
  | eng_group c group f :
      io_ok f → group_room c group →
      eng_step c (EvGroup group (process_group c group f).2) (process_group c group f).1
  | eng_crash c group f d c' :
      log_ok f → group_room c group →
      crash (disk_of (process_group c group f).1) d → engine_open (c_opts c) d = Ok c' →
      eng_step c (EvCrash group (process_group c group f).2) c'
  | eng_cut c group f d c' :
      (∀ j, f_append f j = None) → group_room c group →
      crash (disk_of (process_ops c group 0 f).1.1) d → engine_open (c_opts c) d = Ok c' →
      eng_step c (EvCut group) c'.

Inductive eng_steps : Core M → list Event → Core M → Prop :=
  | eng_nil c : eng_steps c [] c
  | eng_snoc c1 evs c2 ev c3 :
      eng_steps c1 evs c2 → eng_step c2 ev c3 → eng_steps c1 (evs ++ [ev]) c3.

Lemma process_group_opts c group f : c_opts (process_group c group f).1 = c_opts c.
Proof.
  pose proof (process_ops_files c group 0 f) as (Eo & _). unfold process_group.
  destruct (process_ops c group 0 f) as [[c1 rs] app]. cbn [fst] in Eo.
  destruct (if app then _ else _) as [w sy]. destruct sy; [|done].
  destruct (_ <=? _)%nat; [|done].
  assert (Er : c_opts (rotate (c1 <| c_wal := ((c_wal c1).1, w) |>) (f_rotate f)).1 = c_opts c).
  { unfold rotate. by destruct (f_rotate f). }
  destruct (rotate _ _) as [c2 fr]. cbn [fst] in *. unfold flush_memtable, persist_manifest.
  destruct (mt_is_empty fr.2); [by destruct (f_manifest f)|].
  destruct (f_write_sst f); [done|]. destruct (write_sst fr.2); [|done].
  destruct (sst_open _ _); [|done]. by destruct (f_manifest f).
Qed.

(** * Simulation *)

Definition sync_on (c : Core M) : Prop := o_fsync_mode (c_opts c) ≠ FsyncNone.

Lemma running_respects c st1 st2 seq :
  store_eq st1 st2 → running_as c st1 seq → running_as c st2 seq.
Proof.
  intros E (ms & olds & cur & Hr & Hy & Hb & Hv & Hq). exists ms, olds, cur.
  split_and!; try done. by rewrite Hv.
Qed.

Lemma eng_step_sim c st seq ev c' :
  running_as c st seq → sync_on c → eng_step c ev c' →
  ∃ st' seq', abs_step (st, seq) ev (st', seq') ∧ running_as c' st' seq' ∧ sync_on c'.
Proof.
  intros (ms & olds & cur & Hr & Hy & Hb & Hv & <-) Hm Hstep.
  assert (Hsg : ∀ group bs rs st' seq', spec_group (view c ms) (c_seq c) group bs rs st' seq' →
    spec_group st (c_seq c) group bs rs st' seq') by (intros ?????; by apply spec_group_start).
  destruct Hstep as [c group f (Ha & Hs & Hw & Hmf) Hroom|c group f d c' Hlog Hroom Hcr Ho
    |c group f d c' Ha Hroom Hcr Ho].
  - destruct (process_group_durable c ms olds cur group f Hr Hy Hb Hm) as (bs & st' & seq' & Hg & _ & Hrun);
      [done..|]. rewrite Hw, Hmf in Hrun. exists st', seq'. split; [by eapply abs_group, Hsg|].
    split; [by apply Hrun|]. unfold sync_on. by rewrite process_group_opts.
  - destruct (process_group_durable c ms olds cur group f Hr Hy Hb Hm Hlog Hroom)
      as (bs & st' & seq' & Hg & Hd & _).
    destruct (durable_recovers _ _ _ _ (c_opts c) Hd Hcr) as (c'' & Ho' & Hrun & Hop).
    rewrite Ho in Ho'. injection Ho' as <-. exists st', seq'.
    split; [by eapply abs_crash, Hsg|]. split; [done|]. unfold sync_on. by rewrite Hop.
  - destruct (crash_mid_group c ms olds cur group f d (c_opts c) Hr Hy) as
      (c'' & olds' & bs & rs & st' & seq' & k & Ho' & Hr' & Hy' & Hop & Hg & Hk & Hv' & Hq');
      [apply Hroom|done|apply Hroom|done|].
    rewrite Ho in Ho'. injection Ho' as <-. eexists _, _. split; [by eapply abs_cut; [apply Hsg|]|].
    split; [|unfold sync_on; by rewrite Hop]. exists ms, olds', []. split_and!; [done|done| | |done].
    + rewrite (cr_active _ _ _ _ Hr'). apply replay_bounded, mt_bounded_new.
    + rewrite Hv'. clear -Hv. generalize (take k bs). intros l. revert Hv.
      generalize (view c ms) as s. revert st. induction l as [|b l IH]; intros s1 s2 E; cbn; [done|].
      apply IH. by rewrite E.
Qed.

Lemma engine_open_empty opts :
  ∃ c, engine_open opts empty_disk = Ok c ∧ running_as (M:=M) c empty_store 0 ∧ c_opts c = opts.
Proof.
  assert (Hd : disk_rep empty_disk 0 [] (@nil (Memtable M)) [])
    by (constructor; cbn; try done; constructor).
  destruct (engine_open_rep opts _ _ _ _ _ Hd) as (c & olds & Ho & Hop & Hr & Hq & Hv & Hy);
    [by constructor|].
  exists c. split; [done|]. split; [|done]. exists [], olds, [].
  split_and!; [done|done| | |done].
  - rewrite (cr_active _ _ _ _ Hr). apply replay_bounded, mt_bounded_new.
  - intros cf k. rewrite Hv. unfold disk_view. cbn. by rewrite mt_get_new.
Qed.

Lemma eng_steps_sim c st seq evs c' :
  running_as c st seq → sync_on c → eng_steps c evs c' →
  ∃ st' seq', abs_steps (st, seq) evs (st', seq') ∧ running_as c' st' seq' ∧ sync_on c'.
Proof.
  intros Hr Hm Hs. induction Hs as [c|c1 evs c2 ev c3 Hs IH Hstep].
  { exists st, seq. split; [constructor|done]. }
  destruct (IH Hr Hm) as (st' & seq' & Ha & Hr' & Hm').
  destruct (eng_step_sim _ _ _ _ _ Hr' Hm' Hstep) as (st2 & seq2 & Hb & Hr2 & Hm2).
  exists st2, seq2. split; [by econstructor|done].
Qed.

(** A store read through the engine. *)
Definition reads_as c (st : Store) : Prop :=
  (∀ cf k, get_cf c cf k = Ok (st_get st cf k)) ∧
  (∀ cf from, ∃ o, seek_cf c cf from = Ok o ∧ is_seek (st cf) from o).

Lemma view_reads c ms st :
  Forall2 sst_of (c_sstables c) ms → store_eq (view c ms) st → reads_as c st.
Proof.
  intros Hs Hv. split.
  - intros cf k. rewrite (get_cf_view c ms) by done. unfold st_get. by rewrite Hv.
  - intros cf from. destruct (seek_cf_view c ms cf from Hs) as (o & Ho & Hk).
    exists o. split; [done|]. eapply is_seek_ext; [|exact Hk]. intros k. apply Hv.
Qed.

Lemma running_reads c st seq : running_as c st seq → reads_as c st.
Proof.
  intros (ms & olds & cur & Hr & _ & _ & Hv & _). eapply view_reads; [|done]. apply Hr.
Qed.

(** C1. Every execution of the engine — opened on an empty directory, committing
    groups, crashing at any point of a group or of its flush and recovering — is
    an execution of the abstract store: acknowledged groups are applied whole and
    survive crashes, a group cut by a crash leaves a prefix of its batches, and
    every point lookup and seek answers from the abstract store. *)
Theorem engine_refines_durable_store opts c0 evs c :
  o_fsync_mode opts ≠ FsyncNone →
  engine_open opts empty_disk = Ok c0 → eng_steps c0 evs c →
  ∃ st seq, abs_steps (empty_store, 0) evs (st, seq) ∧ reads_as c st ∧ c_seq c = seq.
Proof.
  intros Hm Ho Hs. destruct (engine_open_empty opts) as (c1 & Ho' & Hr & Hop).
  rewrite Ho in Ho'. injection Ho' as <-.
  destruct (eng_steps_sim c0 empty_store 0 evs c Hr) as (st & seq & Ha & Hr' & _);
    [unfold sync_on; by rewrite Hop|done|].
  exists st, seq. split; [done|]. split; [by eapply running_reads|].
  by destruct Hr' as (? & ? & ? & _ & _ & _ & _ & ?).
Qed.

(** C2. Recovery never fails: after a crash at any point of a group — its flush
    included, whatever I/O error the flush met — opening the directory succeeds. *)
Theorem recovery_succeeds opts c0 evs c group f d :
  o_fsync_mode opts ≠ FsyncNone →
  engine_open opts empty_disk = Ok c0 → eng_steps c0 evs c →
  group_room c group → log_ok f →
  crash (disk_of (process_group c group f).1) d ∨
    crash (disk_of (process_ops c group 0 f).1.1) d →
  ∃ c', engine_open opts d = Ok c'.
Proof.
  intros Hm Ho Hs Hroom Hlog Hcr. destruct (engine_open_empty opts) as (c1 & Ho' & Hr0 & Hop).
  rewrite Ho in Ho'. injection Ho' as <-.
  destruct (eng_steps_sim c0 empty_store 0 evs c Hr0) as (st & seq & _ & (ms & olds & cur & Hr & Hy & Hb & _ & _) & Hm');
    [unfold sync_on; by rewrite Hop|done|].
  destruct Hcr as [Hcr|Hcr].
  - destruct (process_group_durable c ms olds cur group f Hr Hy Hb Hm' Hlog Hroom)
      as (bs & st' & seq' & _ & Hd & _).
    destruct (durable_recovers _ _ _ _ opts Hd Hcr) as (c'' & Ho' & _). eauto.
  - destruct (crash_mid_group c ms olds cur group f d opts Hr Hy) as (c'' & ? & ? & ? & ? & ? & ? & Ho' & _);
      [apply Hroom|apply Hlog|apply Hroom|done|]. eauto.
Qed.
End engine.

(** * A concrete run: one write that fills the memtable and is flushed, a crash,
      recovery *)


Definition ex_opts : Options := mkOptions 16 Fsync.
Definition ex_group : list Op :=
  [OpWrite (batch_put batch_new CfDefault [x61] [x31]);
   OpPrewrite (mkPrewrite [x62] [x32] [x62] 5 10 LockPut);
   OpPrewrite (mkPrewrite [x62] [x33] [x62] 6 10 LockPut)].

Definition from_ok {A} (d : A) (r : Result A) : A := match r with Ok a => a | Err _ => d end.
Definition ex_dummy : Core (gmap bytes MemValue) :=
  mkCore ex_opts Memtable_new [] [] (0, WalWriter_create) [] 0 0 0 0 [] None.
Definition ex_c0 := from_ok ex_dummy (engine_open ex_opts empty_disk).
Definition ex_c1 := (process_group ex_c0 ex_group no_faults).1.
Abbreviation ex_c2 := ((process_group ex_c1 ex_group no_faults).1).

(** The directory after a crash that loses nothing. *)
Definition crash_full (d : Disk) : Disk :=
  mkDisk (d_manifest d)
    ((λ x, (x.1, mkWalWriter (wf_data x.2) (length (wf_data x.2)) (length (wf_data x.2)))) <$> d_wals d)
    (d_ssts d).

Definition ex_c3 := from_ok ex_dummy (engine_open ex_opts (crash_full (disk_of ex_c2))).

Lemma crash_full_crash d :
  Forall (λ x, (wf_synced x.2 ≤ length (wf_data x.2))%nat) (d_wals d) → crash d (crash_full d).
Proof.
  intros Hf. split_and!; [done|done|]. cbn. induction Hf as [|x l Hx Hf IH]; constructor; [|done].
  split; [done|]. exists (length (wf_data x.2)). split; [lia|]. cbn. by rewrite take_ge.
Qed.

Lemma ex_no_faults : io_ok no_faults.
Proof. done. Qed.
Lemma ex_log_ok : log_ok no_faults.
Proof. done. Qed.
Lemma ex_fits : Forall req_fits ex_group.
Proof.
  repeat constructor; unfold fits; vm_compute; try discriminate; by intros ?.
Qed.
Lemma ex_room0 : group_room ex_c0 ex_group.
Proof. constructor; [apply ex_fits|by vm_compute..]. Qed.
Lemma ex_room1 : group_room ex_c1 ex_group.
Proof. constructor; [apply ex_fits|by vm_compute..]. Qed.
Lemma ex_crash : crash (disk_of ex_c2) (crash_full (disk_of ex_c2)).
Proof. apply crash_full_crash. vm_compute. repeat constructor. Qed.

Definition ex_events : list Event :=
  [EvGroup ex_group (process_group ex_c0 ex_group no_faults).2;
   EvCrash ex_group (process_group ex_c1 ex_group no_faults).2].

Lemma ex_run : eng_steps ex_c0 ex_events ex_c3.
Proof.
  apply (eng_snoc ex_c0 [_] ex_c1); [apply (eng_snoc ex_c0 [] ex_c0)|].
  - constructor.
  - by apply eng_group; [apply ex_no_faults|apply ex_room0].
  - apply (eng_crash ex_c1 ex_group no_faults (crash_full (disk_of ex_c2))).
    + apply ex_log_ok.
    + apply ex_room1.
    + apply ex_crash.
    + by vm_compute.
Qed.

Lemma engine_refines_witness :
  eng_steps ex_c0 ex_events ex_c3 ∧
  ∃ st seq, abs_steps (empty_store, 0) ex_events (st, seq) ∧ reads_as ex_c3 st ∧ c_seq ex_c3 = seq.
Proof.
  split; [exact ex_run|].
  apply (engine_refines_durable_store ex_opts ex_c0 ex_events ex_c3).
  - discriminate.
  - vm_compute. reflexivity.
  - exact ex_run.
Defined.

Lemma recovery_succeeds_witness :
  ∃ c', engine_open (M:=gmap bytes MemValue) ex_opts (crash_full (disk_of ex_c2)) = Ok c'.
Proof.
  apply (recovery_succeeds ex_opts ex_c0 [EvGroup ex_group (process_group ex_c0 ex_group no_faults).2]
    ex_c1 ex_group no_faults).
  - discriminate.
  - vm_compute. reflexivity.
  - apply (eng_snoc ex_c0 [] ex_c0); [constructor|]. by apply eng_group; [apply ex_no_faults|apply ex_room0].
  - apply ex_room1.
  - apply ex_log_ok.
  - left. apply ex_crash.
Defined.
