(* ===== verification/EngineApi.v ===== *)
(** The interface of the storage engine that the transaction layer uses
    ([Engine::{get_cf_raw, seek_cf_raw, write, prewrite_one, resolve_commit,
    resolve_rollback}] of [engine/src/db.rs]), its laws over the abstract store,
    and the proof that the engine core provides them. *)

From stdpp Require Import base list numbers strings gmap.
From Stdlib Require Import Strings.Byte.
From S2P Require Import Prelude Crc Encoding Keys Batch OrdMap Memtable Sstable SstableCorrect.
From S2P Require Import SstableCorrect Wal Manifest Db DbCorrect Engine.

(** * The interface *)

Class EngineOps (E : Type) := {
  get_cf_raw : E → Cf → bytes → Result (option bytes);
  seek_cf_raw : E → Cf → bytes → Result (option (bytes * MemValue));
  (** [submit]: hand the request to the committer and wait for its answer. *)
  submit : E → Op → E * Result N;
  last_seq : E → N;
}.

(** Requests within the size the memtable accounting is proved for. *)
Definition small_op (op : Op) : Prop :=
  (N.of_nat (batch_weight (req_batch op)) ≤ 536870912)%N.

Class EngineLaws (E : Type) `{EngineOps E} := {
  (** The engine holds the logical store. *)
  holds : E → Store → Prop;
  holds_get e st cf k : holds e st → get_cf_raw e cf k = Ok (st_get st cf k);
  holds_seek e st cf from :
    holds e st → ∃ o, seek_cf_raw e cf from = Ok o ∧ is_seek (st cf) from o;
  holds_write e st op b :
    holds e st → small_op op → spec_op st op (inl b) →
    ∃ e' seq, submit e op = (e', Ok seq) ∧ holds e' (apply_batch st b);
  holds_answer e st op r :
    holds e st → small_op op → spec_op st op (inr r) →
    ∃ e', submit e op = (e', r) ∧ holds e' st;
  holds_finite e st cf :
    holds e st → ∃ keys : list bytes, ∀ k, is_Some (st cf k) → k ∈ keys;
}.

(** * Derived operations, in a state and error monad over the engine *)

Definition EM (E A : Type) : Type := E → E * Result A.

#[export] Instance em_ret {E} : MRet (EM E) := λ A a e, (e, Ok a).
#[export] Instance em_bind {E} : MBind (EM E) := λ A B k m e,
  match m e with
  | (e', Ok a) => k a e'
  | (e', Err err) => (e', Err err)
  end.

Section api.
Context {E : Type} `{EngineOps E}.

Definition em_lift {A} (r : Result A) : EM E A := λ e, (e, r).
Definition em_read {A} (f : E → Result A) : EM E A := λ e, (e, f e).
Definition em_submit (op : Op) : EM E N := λ e, submit e op.

(** [write]: an empty batch is answered without the committer. *)
Definition engine_write (batch : WriteBatch) : EM E N := λ e,
  if batch_is_empty batch then (e, Ok (last_seq e)) else submit e (OpWrite batch).

Definition prewrite_one (key : bytes) (value : Value) (primary : bytes) (start_ts ttl : N)
    : EM E N :=
  let kind := match value with VPut _ => LockPut | VDelete => LockDelete end in
  em_submit (OpPrewrite (mkPrewrite key (Value_encode value) primary start_ts ttl kind)).

Definition resolve_commit (key : bytes) (start_ts commit_ts : N) : EM E unit :=
  _ ← em_submit (OpResolve (mkResolve key start_ts (RCommit commit_ts)));
  mret tt.

Definition resolve_rollback (key : bytes) (start_ts : N) : EM E unit :=
  _ ← em_submit (OpResolve (mkResolve key start_ts RRollback));
  mret tt.
End api.

(** Run the monadic operations on a given engine. *)
Ltac em_simpl :=
  cbv [mbind em_bind mret em_ret em_read em_lift em_submit resolve_commit resolve_rollback].

(** * The engine core provides the interface *)

Section core.
Context `{Crc32cLaws} {M : Type} `{SkipMapLaws MemValue M}.

#[export] Instance core_ops : EngineOps (Core M) := {|
  get_cf_raw := get_cf;
  seek_cf_raw := seek_cf;
  submit c op :=
    let '(c', rs) := process_group c [op] no_faults in
    (c', match rs with r :: _ => r | [] => Err (Corruption "committer dropped ack") end);
  last_seq := c_seq;
|}.

Definition core_holds (c : Core M) (st : Store) : Prop :=
  ∃ ms, core_ok c ms ∧ mt_bounded (c_active c) ∧
    (N.of_nat (mt_size (c_active c)) ≤ 536870912)%N ∧
    (N.of_nat (o_memtable_size_threshold (c_opts c)) ≤ 536870912)%N ∧
    store_eq (view c ms) st.

Lemma core_submit c st op :
  core_holds c st → small_op op →
  ∃ c' bs r st' seq', submit c op = (c', r) ∧ core_holds c' st' ∧
    spec_group st (c_seq c) [op] bs [r] st' seq'.
Proof.
  intros (ms & Hok & Hb & Hs & Ht & Hv) Hop.
  destruct (process_group_refines c ms [op] no_faults) as (ms' & bs & Hok' & Hb' & Hs' & Ho' & Hg);
    [done|done|done| |].
  { unfold group_weight, small_op in *. cbn. lia. }
  cbn [submit core_ops]. destruct (process_group c [op] no_faults) as [c' rs]. cbn [fst snd] in *.
  assert (∃ r, rs = [r]) as [r ->].
  { inversion Hg as [|? ? ? ? ? ? ? _ Hn|? ? ? ? ? ? ? _ Hn]; subst; inversion Hn; eauto. }
  exists c', bs, r, (view c' ms'), (c_seq c'). split; [done|]. split.
  - exists ms'. split_and!; try done; rewrite ?Ho'; lia.
  - eapply spec_group_start; [exact Hv|done].
Qed.

(** The outcome of a request on a store is unique. *)
Lemma spec_op_det st op o1 o2 : spec_op st op o1 → spec_op st op o2 → o1 = o2.
Proof.
  intros S1 S2. destruct S1; inversion S2; simplify_eq; try done;
    repeat match goal with
    | A : is_seek ?f ?x ?o1, B : is_seek ?f ?x ?o2 |- _ =>
      assert (o1 = o2) by (by eapply is_seek_unique); clear A; subst
    end; congruence.
Qed.

Lemma core_holds_respects c st1 st2 : store_eq st1 st2 → core_holds c st1 → core_holds c st2.
Proof.
  intros E (ms & ? & ? & ? & ? & Hv). exists ms. split_and!; try done. by rewrite Hv.
Qed.

Lemma mem_levels_finite (ls : list (Memtable M)) cf :
  ∃ keys : list bytes, ∀ k, is_Some (mem_levels_get ls cf k) → k ∈ keys.
Proof.
  exists (ls ≫= λ m, (mt_iter_cf m cf).*1). intros k [v Hv].
  apply mem_levels_get_Some in Hv as (i & m & Hi & Hg). apply list_elem_of_bind.
  exists m. split; [|by eapply list_elem_of_lookup_2]. rewrite mt_get_iter in Hg.
  apply alookup_elem in Hg. apply list_elem_of_fmap. by exists (k, v).
Qed.

#[export] Instance core_laws : EngineLaws (Core M).
Proof.
  refine {| holds := core_holds |}.
  - intros c st cf k (ms & [_ Hs] & _ & _ & _ & Hv). by apply (view_reads c ms).
  - intros c st cf from (ms & [_ Hs] & _ & _ & _ & Hv). by apply (view_reads c ms).
  - intros c st op b Hh Hsm Ho.
    destruct (core_submit c st op Hh Hsm) as (c' & bs & r & st' & seq' & Hs & Hh' & Hg).
    inversion Hg as [|? ? ? ? ? ? ? Ho' Hn|? ? ? ? ? ? ? Ho' Hn]; subst.
    + by specialize (spec_op_det _ _ _ _ Ho Ho').
    + specialize (spec_op_det _ _ _ _ Ho Ho') as [= ->].
      inversion Hn as [? E| |]; subst. eexists _, _. split; [done|].
      eapply core_holds_respects; [|done]. done.
  - intros c st op r Hh Hsm Ho.
    destruct (core_submit c st op Hh Hsm) as (c' & bs & r' & st' & seq' & Hs & Hh' & Hg).
    inversion Hg as [|? ? ? ? ? ? ? Ho' Hn|? ? ? ? ? ? ? Ho' Hn]; subst.
    + specialize (spec_op_det _ _ _ _ Ho Ho') as [= ->].
      inversion Hn as [? E| |]; subst. eexists _. split; [done|].
      eapply core_holds_respects; [|done]. done.
    + by specialize (spec_op_det _ _ _ _ Ho Ho').
  - intros c st cf (ms & _ & _ & _ & _ & Hv).
    destruct (mem_levels_finite (levels c ms) cf) as [keys Hk]. exists keys.
    intros k Hs. apply Hk. by rewrite <- (Hv cf k) in Hs.
Defined.
End core.
