(* ===== verification/Mvcc.v ===== *)
(** Snapshot reads and lock resolution ([engine/src/mvcc.rs]), against the engine
    interface of [EngineApi]. *)

From stdpp Require Import base list numbers strings gmap.
From Stdlib Require Import Strings.Byte.
From S2P Require Import Prelude Encoding Keys Batch Memtable Db DbCorrect EngineApi.

Inductive TxnStatus := Committed (commit_ts : N) | RolledBack | Locked (ttl : N).

(** Reported by the model when a loop's fuel is used up; [find_commit_ts_spec] and
    [scan] show that enough fuel always exists. *)
Definition out_of_fuel : Error := Io "fuel exhausted".

Section mvcc.
Context {E : Type} `{EngineOps E}.

(** * Reads *)

Definition read_committed (user_key : bytes) (read_ts : N) (e : E) : Result (option bytes) :=
  let seek := encode_data_key user_key read_ts in
  o ← seek_cf_raw e CfWrite seek;
  match o with
  | None => Ok None
  | Some (wkey, wval) =>
    match decode_data_key wkey with
    | None => Err (Corruption "write-cf key decode")
    | Some (wuser, _) =>
      if decide (wuser = user_key) then
        match wval with
        | MDelete => Ok None
        | MPut start_ts_bytes =>
          start_ts ← ok_or (decode_write_value start_ts_bytes) (Corruption "write-cf value");
          v ← get_cf_raw e CfDefault (encode_data_key user_key start_ts);
          match v with
          | Some val_bytes =>
            v ← ok_or (Value_decode val_bytes) (Corruption "default-cf value");
            Ok (Value_into_option v)
          | None => Ok None
          end
        end
      else Ok None
    end
  end.

Definition mvcc_get_unresolved (user_key : bytes) (read_ts : N) (e : E) : Result (option bytes) :=
  o ← get_cf_raw e CfLock user_key;
  match o with
  | Some lock_bytes =>
    lock ← ok_or (Lock_decode lock_bytes) (Corruption "lock decode");
    if lock_start_ts lock <=? read_ts then
      Err (KeyIsLocked "key locked by txn (a replicated read won't resolve it)")
    else read_committed user_key read_ts e
  | None => read_committed user_key read_ts e
  end.

(** * Transaction status *)

(** The [loop] of [find_commit_ts], from the seek key on. *)
Fixpoint find_commit_loop (fuel : nat) (primary : bytes) (start_ts : N) (seek : bytes) (e : E)
    : Result (option N) :=
  match fuel with
  | O => Err out_of_fuel
  | S fuel' =>
    o ← seek_cf_raw e CfWrite seek;
    match o with
    | None => Ok None
    | Some (wkey, wval) =>
      match decode_data_key wkey with
      | None => Err (Corruption "write-cf key decode")
      | Some (wuser, commit_ts) =>
        if decide (wuser = primary) then
          match wval with
          | MPut sb =>
            if decide (decode_write_value sb = Some start_ts) then Ok (Some commit_ts)
            else find_commit_loop fuel' primary start_ts (wkey ++ [x00]) e
          | MDelete => find_commit_loop fuel' primary start_ts (wkey ++ [x00]) e
          end
        else Ok None
      end
    end
  end.

Definition find_commit_ts (fuel : nat) (primary : bytes) (start_ts : N) (e : E)
    : Result (option N) :=
  find_commit_loop fuel primary start_ts (encode_data_key primary u64_max) e.

Definition roll_forward (key : bytes) (start_ts commit_ts : N) : EM E unit :=
  resolve_commit key start_ts commit_ts.

Definition roll_back (key : bytes) (start_ts : N) : EM E unit := resolve_rollback key start_ts.

(** The verdict when the primary is not locked by the transaction. *)
Definition write_status (fuel : nat) (primary : bytes) (start_ts : N) (e : E) : Result TxnStatus :=
  o ← find_commit_ts fuel primary start_ts e;
  match o with
  | Some commit_ts => Ok (Committed commit_ts)
  | None => Ok RolledBack
  end.

Definition primary_lock (primary : bytes) (e : E) : Result (option Lock) :=
  o ← get_cf_raw e CfLock primary;
  match o with
  | Some b => l ← ok_or (Lock_decode b) (Corruption "primary lock decode"); Ok (Some l)
  | None => Ok None
  end.

Definition check_txn_status (fuel : nat) (primary : bytes) (start_ts now_ts : N)
    : EM E TxnStatus :=
  plock ← em_read (primary_lock primary);
  match plock with
  | Some plock =>
    if lock_start_ts plock =? start_ts then
      if lock_ttl plock <? now_ts then
        _ ← roll_back primary start_ts;
        mret RolledBack
      else mret (Locked (lock_ttl plock))
    else em_read (write_status fuel primary start_ts)
  | None => em_read (write_status fuel primary start_ts)
  end.

Definition check_txn_status_peek (fuel : nat) (primary : bytes) (start_ts : N) (e : E)
    : Result TxnStatus :=
  plock ← primary_lock primary e;
  match plock with
  | Some plock =>
    if lock_start_ts plock =? start_ts then Ok (Locked (lock_ttl plock))
    else write_status fuel primary start_ts e
  | None => write_status fuel primary start_ts e
  end.

Definition resolve_lock (fuel : nat) (key : bytes) (lock : Lock) (now_ts : N) : EM E unit :=
  st ← check_txn_status fuel (lock_primary lock) (lock_start_ts lock) now_ts;
  match st with
  | Committed commit_ts => roll_forward key (lock_start_ts lock) commit_ts
  | RolledBack => roll_back key (lock_start_ts lock)
  | Locked _ => em_lift (Err (KeyIsLocked "primary lock alive"))
  end.

(** [for _ in 0..8]. *)
Fixpoint resolve_locks (n : nat) (fuel : nat) (user_key : bytes) (read_ts : N) : EM E unit :=
  match n with
  | O => mret tt
  | S n' =>
    o ← em_read (λ e, get_cf_raw e CfLock user_key);
    match o with
    | None => mret tt
    | Some lock_bytes =>
      lock ← em_lift (ok_or (Lock_decode lock_bytes) (Corruption "lock decode"));
      if read_ts <? lock_start_ts lock then mret tt else
      _ ← resolve_lock fuel user_key lock read_ts;
      resolve_locks n' fuel user_key read_ts
    end
  end.

Definition mvcc_get (fuel : nat) (user_key : bytes) (read_ts : N) : EM E (option bytes) :=
  _ ← resolve_locks 8 fuel user_key read_ts;
  em_read (read_committed user_key read_ts).

(** [Snapshot]: a read view at a fixed timestamp. *)
Definition Snapshot_get (fuel : nat) (read_ts : N) (key : bytes) : EM E (option bytes) :=
  mvcc_get fuel key read_ts.
End mvcc.
