(* ===== verification/MvccCorrect.v ===== *)
(** What the transaction layer computes on the abstract store: version seeks,
    snapshot reads, conflict detection and commit lookup. *)

From stdpp Require Import base list numbers strings gmap.
From Stdlib Require Import Strings.Byte.
From S2P Require Import Prelude Encoding Keys Batch Memtable Db DbCorrect EngineApi.
From S2P Require Import Mvcc.

#[local] Arguments encode_data_key : simpl never.

(** * Order of data keys *)

(** Keys of which neither is a prefix of the other. *)
Definition apart (a b : bytes) : Prop := ¬ a `prefix_of` b ∧ ¬ b `prefix_of` a.

Lemma bytes_cmp_apart a b x y :
  apart a b → bytes_cmp (a ++ x) (b ++ y) = bytes_cmp a b ∧ bytes_cmp a b ≠ Eq.
Proof.
  unfold apart. revert b. induction a as [|c a IH]; intros [|d b] [Hab Hba].
  - destruct Hab. by apply prefix_nil.
  - destruct Hab. by apply prefix_nil.
  - destruct Hba. by apply prefix_nil.
  - cbn. destruct (Byte.to_N c ?= Byte.to_N d) eqn:E; [|done|done].
    apply N.compare_eq, byte_to_N_inj in E as ->. apply IH.
    split; intros Hp; [apply Hab|apply Hba]; by apply prefix_cons.
Qed.

(** The smallest string strictly above [k] is [k ‖ 00]. *)
Lemma bytes_succ k k' : bytes_le (k ++ [x00]) k' ↔ bytes_lt k k'.
Proof.
  unfold bytes_le, bytes_lt. revert k'.
  induction k as [|c k IH]; intros [|d k']; cbn; try (split; done).
  - destruct (Byte.to_N d) eqn:Ed; cbn; [|split; done]. by destruct k'.
  - destruct (Byte.to_N c ?= Byte.to_N d); [apply IH|split; done|split; done].
Qed.

(** * Stores whose Write CF holds versions of separated keys *)

(** Every Write-CF entry is a version of some user key, and [key] is neither a
    proper prefix nor a proper extension of any other user key. *)
Definition separated (st : Store) (key : bytes) : Prop :=
  ∀ k, is_Some (st CfWrite k) →
    ∃ uk c, k = encode_data_key uk c ∧ is_u64 c ∧ (uk = key ∨ apart uk key).

(** The commit record of [key] at [c]. *)
Abbreviation commit_at st key c := (st CfWrite (encode_data_key key c)).

Lemma data_key_le key c c' :
  is_u64 c → is_u64 c' → bytes_le (encode_data_key key c) (encode_data_key key c') ↔ c' ≤ c.
Proof.
  intros. unfold bytes_le. by rewrite encode_data_key_cmp.
Qed.

Lemma data_key_lt key c c' :
  is_u64 c → is_u64 c' → bytes_lt (encode_data_key key c) (encode_data_key key c') ↔ c' < c.
Proof.
  intros. unfold bytes_lt. rewrite encode_data_key_cmp by done. apply N.compare_lt_iff.
Qed.

(** A key that lies between two versions of [key] is itself a version of it. *)
Lemma between_versions key uk c lo hi :
  bytes_le (encode_data_key key lo) (encode_data_key uk c) →
  bytes_le (encode_data_key uk c) (encode_data_key key hi) →
  uk = key ∨ apart uk key → uk = key.
Proof.
  unfold bytes_le, encode_data_key. intros H1 H2 [?|Hap]; [done|].
  destruct (bytes_cmp_apart uk key (encode_ts c) (encode_ts hi) Hap) as [E Hne].
  rewrite E in H2. rewrite (bytes_cmp_antisym (uk ++ _)) in H1.
  destruct (bytes_cmp_apart uk key (encode_ts c) (encode_ts lo) Hap) as [E' _].
  rewrite E' in H1. by destruct (bytes_cmp uk key).
Qed.

(** Where a seek in the Write CF lands, from a point [s] at or below which only
    versions of [key] newer than those of interest lie. *)
Lemma seek_lands st key s o :
  separated st key → bytes_le (encode_data_key key u64_max) s → is_seek (st CfWrite) s o →
  match o with
  | Some (k, v) => ∃ uk c, decode_data_key k = Some (uk, c) ∧ k = encode_data_key uk c ∧ is_u64 c ∧
      st CfWrite k = Some v ∧ bytes_le s k ∧
      (∀ c', is_u64 c' → is_Some (commit_at st key c') → bytes_le s (encode_data_key key c') →
        uk = key ∧ c' ≤ c)
  | None => ∀ c', bytes_le s (encode_data_key key c') → commit_at st key c' = None
  end.
Proof.
  intros Hsep Hs. destruct o as [[k v]|]; cbn; [|auto].
  intros (Hk & Hle & Hmin). destruct (Hsep k) as (uk & c & -> & Hc & Huk); [by rewrite Hk|].
  exists uk, c. rewrite decode_encode_data_key by done. split_and!; try done.
  intros c' Hc' Hsome Hle'. specialize (Hmin _ Hsome Hle').
  assert (uk = key) as -> by (by eapply between_versions; [eapply bytes_le_trans| |]).
  split; [done|]. by apply (data_key_le key).
Qed.

Lemma max_le_version key ts : is_u64 ts → bytes_le (encode_data_key key u64_max) (encode_data_key key ts).
Proof. intros. apply data_key_le; [lia|done|done]. Qed.

(** * Snapshot reads *)

(** The value a commit record of [key] points to. *)
Definition value_at (st : Store) (key : bytes) (w : MemValue) : Result (option bytes) :=
  match w with
  | MDelete => Ok None
  | MPut b =>
    s ← ok_or (decode_write_value b) (Corruption "write-cf value");
    match st_get st CfDefault (encode_data_key key s) with
    | Some vb => v ← ok_or (Value_decode vb) (Corruption "default-cf value"); Ok (Value_into_option v)
    | None => Ok None
    end
  end.

(** What a reader at [ts] must see: the value of the newest commit at or below
    [ts]. *)
Inductive snapshot_read (st : Store) (key : bytes) (ts : N) : Result (option bytes) → Prop :=
  | snap_none :
      (∀ c, c ≤ ts → commit_at st key c = None) → snapshot_read st key ts (Ok None)
  | snap_some c w :
      c ≤ ts → commit_at st key c = Some w →
      (∀ c', c < c' ≤ ts → commit_at st key c' = None) →
      snapshot_read st key ts (value_at st key w).

Lemma snapshot_read_det st key ts r1 r2 :
  snapshot_read st key ts r1 → snapshot_read st key ts r2 → r1 = r2.
Proof.
  intros [Hn|c w Hc Hw Hn] [Hn'|c' w' Hc' Hw' Hn']; [done| | |].
  - by rewrite Hn in Hw'.
  - by rewrite Hn' in Hw.
  - assert (c = c') as ->; [|congruence].
    destruct (N.lt_trichotomy c c') as [Hlt|[?|Hlt]]; [|done|].
    + by rewrite Hn in Hw' by lia.
    + by rewrite Hn' in Hw by lia.
Qed.

Section reads.
Context {E : Type} `{EngineLaws E}.
Implicit Types (e : E) (st : Store).

Lemma read_committed_snapshot e st key ts :
  holds e st → separated st key → is_u64 ts →
  snapshot_read st key ts (read_committed key ts e).
Proof.
  intros Hh Hsep Hts. unfold read_committed.
  destruct (holds_seek e st CfWrite (encode_data_key key ts) Hh) as (o & -> & Hk).
  cbn [mbind result_mbind]. pose proof (max_le_version key ts Hts) as Hmax.
  pose proof (seek_lands st key _ o Hsep Hmax Hk) as Hl. destruct o as [[k v]|].
  - destruct Hl as (uk & c & -> & -> & Hc & Hv & Hle & Hall). case_decide as Huk.
    + subst uk. apply data_key_le in Hle; [|done..].
      assert (Hs : snapshot_read st key ts (value_at st key v)).
      { apply (snap_some _ _ _ c); [done|done|]. intros c' Hc'.
        destruct (commit_at st key c') eqn:Ec; [|done]. destruct (Hall c') as [_ ?]; [lia|by rewrite Ec| |].
        - apply data_key_le; lia.
        - lia. }
      unfold value_at in Hs. destruct v as [b|]; [|done].
      destruct (decode_write_value b) as [s|]; [|done]. cbn in *.
      by rewrite (holds_get e st) by done.
    + apply snap_none. intros c' Hc'. destruct (commit_at st key c') eqn:Ec; [|done].
      destruct (Hall c') as [? _]; [lia|by rewrite Ec|apply data_key_le; lia|done].
  - apply snap_none. intros c' Hc'. apply Hl. apply data_key_le; lia.
Qed.

(** * Commit lookup *)

(** [start_ts] committed on [key] at [c]. *)
Definition committed st (key : bytes) (start_ts c : N) : Prop :=
  is_u64 c ∧ ∃ b, commit_at st key c = Some (MPut b) ∧ decode_write_value b = Some start_ts.

(** The answer of the search from [s] on. *)
Definition commit_found st key start_ts s (o : option N) : Prop :=
  match o with
  | Some c => committed st key start_ts c ∧ bytes_le s (encode_data_key key c) ∧
      ∀ c', committed st key start_ts c' → bytes_le s (encode_data_key key c') → c' ≤ c
  | None => ∀ c, committed st key start_ts c → ¬ bytes_le s (encode_data_key key c)
  end.

Lemma find_commit_loop_spec e st key start_ts keys :
  holds e st → separated st key → (∀ k, is_Some (st CfWrite k) → k ∈ keys) →
  ∀ fuel s, bytes_le (encode_data_key key u64_max) s →
  (length (filter (bytes_le s) keys) < fuel)%nat →
  ∃ o, find_commit_loop fuel key start_ts s e = Ok o ∧ commit_found st key start_ts s o.
Proof.
  intros Hh Hsep Hfin. induction fuel as [|fuel IH]; intros s Hs Hf; [lia|].
  cbn [find_commit_loop]. destruct (holds_seek e st CfWrite s Hh) as (o & -> & Hk).
  cbn [mbind result_mbind]. pose proof (seek_lands st key s o Hsep Hs Hk) as Hl.
  destruct o as [[k v]|]; cycle 1.
  { exists None. split; [done|]. intros c (Hc & b & Hb & _) Hle. by rewrite Hl in Hb. }
  destruct Hl as (uk & c & -> & -> & Hc & Hv & Hle & Hall). case_decide as Huk; cycle 1.
  { exists None. split; [done|]. intros c' (Hc' & b & Hb & _) Hle'.
    by destruct (Hall c' Hc') as [? _]; [by rewrite Hb| |]. }
  subst uk. set (s' := encode_data_key key c ++ [x00]).
  assert (Hs' : bytes_le s s').
  { eapply bytes_le_trans; [exact Hle|]. apply bytes_lt_le, bytes_succ, bytes_le_refl. }
  assert (Hlen : (length (filter (bytes_le s') keys) < length (filter (bytes_le s) keys))%nat).
  { apply (length_filter_strict _ _ _ (encode_data_key key c)).
    - intros x Hx. by eapply bytes_le_trans.
    - apply Hfin. by rewrite Hv.
    - done.
    - intros Hn%bytes_succ. by apply bytes_lt_irrefl in Hn. }
  assert (Hnext : committed st key start_ts c ∨
    ∃ o, find_commit_loop fuel key start_ts s' e = Ok o ∧ commit_found st key start_ts s' o).
  { right. apply IH; [by eapply bytes_le_trans|lia]. }
  assert (Hcont : ¬ committed st key start_ts c →
    ∃ o, find_commit_loop fuel key start_ts s' e = Ok o ∧ commit_found st key start_ts s o).
  { intros Hno. destruct Hnext as [?|(o & -> & Ho)]; [done|]. exists o. split; [done|].
    assert (Hall' : ∀ c', committed st key start_ts c' → bytes_le s (encode_data_key key c') →
      bytes_le s' (encode_data_key key c')).
    { intros c' Hcm Hle'. destruct Hcm as (Hc' & b & Hb & Hd).
      destruct (Hall c' Hc') as [_ Hcc]; [by rewrite Hb|done|]. apply bytes_succ, data_key_lt; [done..|].
      destruct (N.eq_dec c' c) as [->|]; [|lia]. destruct Hno. by split; [|exists b]. }
    destruct o as [c'|]; cbn in *.
    - destruct Ho as (H1 & H2 & H3). split_and!; [done|by eapply bytes_le_trans|]. eauto.
    - intros c' Hcm Hle'. eapply Ho; eauto. }
  destruct v as [b|].
  - case_decide as Hd.
    + exists (Some c). split; [done|]. cbn. split_and!; [by split; [|exists b]|done|].
      intros c' (Hc' & b' & Hb' & _) Hle'. apply Hall; [done|by rewrite Hb'|done].
    + apply Hcont. intros (_ & b' & Hb' & Hd'). congruence.
  - apply Hcont. intros (_ & b' & Hb' & _). congruence.
Qed.

Lemma find_commit_ts_spec e st key start_ts :
  holds e st → separated st key →
  ∃ n o, (∀ fuel, (n ≤ fuel)%nat → find_commit_ts fuel key start_ts e = Ok o) ∧
    match o with
    | Some c => committed st key start_ts c ∧ ∀ c', committed st key start_ts c' → c' ≤ c
    | None => ∀ c, ¬ committed st key start_ts c
    end.
Proof.
  intros Hh Hsep. destruct (holds_finite e st CfWrite Hh) as [keys Hk].
  set (s := encode_data_key key u64_max). set (n := S (length (filter (bytes_le s) keys))).
  assert (Hall : ∀ fuel, (n ≤ fuel)%nat → ∃ o,
    find_commit_ts fuel key start_ts e = Ok o ∧ commit_found st key start_ts s o).
  { intros fuel Hf. eapply find_commit_loop_spec; [done..|apply bytes_le_refl|unfold n in Hf; lia]. }
  assert (Hge : ∀ c, is_u64 c → bytes_le s (encode_data_key key c)) by apply max_le_version.
  destruct (Hall n ltac:(lia)) as (o & Ho & Hfound). exists n, o. split.
  - intros fuel Hf. destruct (Hall fuel Hf) as (o' & -> & Hfound'). f_equal.
    destruct o as [c|], o' as [c'|]; cbn in *; [|exfalso|exfalso|done].
    + destruct Hfound as (H1 & H2 & H3), Hfound' as (H1' & H2' & H3'). f_equal.
      apply N.le_antisymm; [by apply H3|by apply H3'].
    + destruct Hfound as (H1 & H2 & _). by apply (Hfound' c).
    + destruct Hfound' as (H1 & H2 & _). by apply (Hfound c').
  - destruct o as [c|]; cbn in Hfound.
    + destruct Hfound as (H1 & _ & H3). split; [done|]. intros c' Hc'. apply H3; [done|].
      apply Hge, Hc'.
    + intros c Hc. apply (Hfound c Hc). apply Hge, Hc.
Qed.
End reads.

(** * Conflict detection *)

(** A prewrite is accepted exactly when the key is unlocked and has no commit at
    or above its start timestamp. *)
Lemma prewrite_accepted_iff st p :
  separated st (pw_key p) → is_u64 (pw_start_ts p) →
  (∃ newest, is_seek (st CfWrite) (encode_data_key (pw_key p) u64_max) newest) →
  spec_op st (OpPrewrite p) (inl (build_prewrite_batch p)) ↔
  (∀ c, is_u64 c → pw_start_ts p ≤ c → commit_at st (pw_key p) c = None) ∧
  st_get st CfLock (pw_key p) = None.
Proof.
  intros Hsep Hts [newest Hk]. set (key := pw_key p) in *.
  pose proof (seek_lands st key _ newest Hsep (bytes_le_refl _) Hk) as Hl.
  assert (Hc : conflicts key (pw_start_ts p) newest = false ↔
    ∀ c, is_u64 c → pw_start_ts p ≤ c → commit_at st key c = None).
  { unfold conflicts. destruct newest as [[k v]|]; cycle 1.
    { split; [|done]. intros _ c Hc _. apply Hl. by apply max_le_version. }
    destruct Hl as (uk & c & -> & -> & Hc & Hv & _ & Hall).
    rewrite andb_false_iff, bool_decide_eq_false, N.leb_gt. split.
    - intros Hn c' Hc' Hle. destruct (commit_at st key c') eqn:Ec; [|done].
      destruct (Hall c' Hc') as [-> ?]; [by rewrite Ec|by apply max_le_version|].
      destruct Hn; [done|lia].
    - intros Hn. destruct (decide (uk = key)) as [->|]; [right|by left].
      destruct (N.lt_ge_cases c (pw_start_ts p)); [done|]. by rewrite Hn in Hv. }
  split.
  - inversion 1 as [| | |p' newest' Hk' Hcf Hlk| | | |]; subst.
    rewrite (is_seek_unique _ _ _ _ Hk' Hk) in Hcf. split; [by apply Hc|done].
  - intros [Hno Hlk]. eapply spec_prewrite_ok; [done| |done]. by apply Hc.
Qed.
