(* ===== verification/Percolator.v ===== *)
(** Percolator transactions ([engine/src/percolator.rs]), against the engine
    interface of [EngineApi]. *)

From stdpp Require Import base list numbers strings gmap.
From Stdlib Require Import Strings.Byte.
From S2P Require Import Prelude Encoding Keys Batch Memtable Db DbCorrect EngineApi.
From S2P Require Import Mvcc.

Record Mutation := mkMutation {
  mu_key : bytes;
  mu_value : Value;
}.

Definition Mutation_put (key value : bytes) : Mutation := mkMutation key (VPut value).
Definition Mutation_delete (key : bytes) : Mutation := mkMutation key VDelete.

Record Transaction := mkTransaction {
  tx_start_ts : N;
  tx_primary : bytes;
  tx_mutations : list Mutation;
}.

(** [mutations[0]] becomes the primary. *)
Definition Transaction_new (start_ts : N) (mutations : list Mutation) : Result Transaction :=
  match mutations with
  | [] => Err (InvalidArgument "transaction needs at least one mutation")
  | first :: _ => Ok (mkTransaction start_ts (mu_key first) mutations)
  end.

(** The batch of [commit_primary]. *)
Definition commit_primary_batch (tx : Transaction) (commit_ts : N) : WriteBatch :=
  let b := batch_put batch_new CfWrite (encode_data_key (tx_primary tx) commit_ts)
             (encode_write_value (tx_start_ts tx)) in
  batch_delete b CfLock (tx_primary tx).

Section percolator.
Context {E : Type} `{EngineOps E}.

(** The loop over [mutations[1..]]: stops at the first error; the keys locked so
    far are returned with the outcome. *)
Fixpoint prewrite_rest (tx : Transaction) (ttl : N) (ms : list Mutation) (acquired : list bytes)
    (e : E) : E * (list bytes * Result unit) :=
  match ms with
  | [] => (e, (acquired, Ok tt))
  | m :: ms' =>
    match prewrite_one (mu_key m) (mu_value m) (tx_primary tx) (tx_start_ts tx) ttl e with
    | (e', Ok _) => prewrite_rest tx ttl ms' (acquired ++ [mu_key m]) e'
    | (e', Err err) => (e', (acquired, Err err))
    end
  end.

(** [let _ = self.engine.resolve_rollback(..)] over the acquired keys. *)
Fixpoint rollback_all (start_ts : N) (acquired : list bytes) (e : E) : E :=
  match acquired with
  | [] => e
  | k :: ks => rollback_all start_ts ks (resolve_rollback k start_ts e).1
  end.

Definition prewrite (tx : Transaction) (ttl : N) : EM E unit := λ e,
  match tx_mutations tx with
  | [] => (e, Err (Io "index out of bounds")) (* not built by [Transaction_new] *)
  | first :: rest =>
    let '(e, (acquired, result)) :=
      match prewrite_one (tx_primary tx) (mu_value first) (tx_primary tx) (tx_start_ts tx) ttl e with
      | (e', Ok _) => prewrite_rest tx ttl rest [tx_primary tx] e'
      | (e', Err err) => (e', ([], Err err))
      end in
    match result with
    | Ok _ => (e, Ok tt)
    | Err err => (rollback_all (tx_start_ts tx) acquired e, Err err)
    end
  end.

Definition commit_primary (tx : Transaction) (commit_ts : N) : EM E unit :=
  _ ← engine_write (commit_primary_batch tx commit_ts);
  mret tt.

Fixpoint finalize_loop (tx : Transaction) (commit_ts : N) (ms : list Mutation) : EM E unit :=
  match ms with
  | [] => mret tt
  | m :: ms' =>
    if decide (mu_key m = tx_primary tx) then finalize_loop tx commit_ts ms' else
    _ ← resolve_commit (mu_key m) (tx_start_ts tx) commit_ts;
    finalize_loop tx commit_ts ms'
  end.

Definition finalize_secondaries (tx : Transaction) (commit_ts : N) : EM E unit :=
  finalize_loop tx commit_ts (tx_mutations tx).

Definition commit (tx : Transaction) (commit_ts : N) : EM E unit :=
  _ ← commit_primary tx commit_ts;
  finalize_secondaries tx commit_ts.
End percolator.
