(* ===== verification/TxnCorrect.v ===== *)
(** The transaction protocol on the abstract store: the invariant its steps keep, repeatable
    snapshot reads; and whole transactions through the engine, which take effect atomically or
    leave no trace. *)

From stdpp Require Import base list numbers strings gmap relations.
From Stdlib Require Import Strings.Byte.
From S2P Require Import Prelude Encoding Keys Batch Memtable Db DbCorrect EngineApi Mvcc MvccCorrect Percolator.

#[local] Arguments encode_data_key : simpl never.
#[local] Arguments encode_write_value : simpl never.
#[local] Arguments Lock_encode : simpl never.
#[local] Arguments Lock_decode : simpl never.
#[local] Arguments decode_write_value : simpl never.

(** * Effects of the requests *)

Definition st_set (st : Store) (cf : Cf) (k : bytes) (v : MemValue) : Store := λ cf' k',
  if decide (cf = cf' ∧ k = k') then Some v else st cf' k'.

Lemma st_set_eq st cf k v : st_set st cf k v cf k = Some v.
Proof. unfold st_set. by rewrite decide_True. Qed.
Lemma st_set_ne st cf k v cf' k' : ¬ (cf = cf' ∧ k = k') → st_set st cf k v cf' k' = st cf' k'.
Proof. intros. unfold st_set. by rewrite decide_False. Qed.

Lemma apply_batch_ops st l1 op :
  store_eq (apply_batch st (mkBatch (l1 ++ [op])))
    (st_set (apply_batch st (mkBatch l1)) (op_cf op) (op_key op) (op_value op)).
Proof.
  intros cf k. unfold apply_batch, st_set. cbn [ops].
  assert (E : ops_last cf k (l1 ++ [op])
    = if decide (op_cf op = cf ∧ op_key op = k) then Some (op_value op) else ops_last cf k l1).
  { induction l1 as [|o l1 IH]; cbn [app ops_last]; [done|]. rewrite IH. by case_decide. }
  rewrite E. by case_decide.
Qed.

Lemma apply_batch_nil st : store_eq (apply_batch st (mkBatch [])) st.
Proof. by intros cf k. Qed.

#[export] Instance st_set_proper : Proper (store_eq ==> (=) ==> (=) ==> (=) ==> store_eq) st_set.
Proof. intros s1 s2 Es cf _ <- k _ <- v _ <- cf' k'. unfold st_set. by rewrite Es. Qed.

Lemma prewrite_effect st p :
  store_eq (apply_batch st (build_prewrite_batch p))
    (st_set (st_set st CfDefault (encode_data_key (pw_key p) (pw_start_ts p)) (MPut (pw_value p)))
       CfLock (pw_key p)
       (MPut (Lock_encode (mkLock (pw_primary p) (pw_start_ts p) (pw_ttl p) (pw_kind p))))).
Proof.
  etransitivity; [apply (apply_batch_ops st [WPut CfDefault _ _] (WPut CfLock _ _))|].
  apply st_set_proper; [|done..]. apply (apply_batch_ops st [] (WPut CfDefault _ _)).
Qed.

Lemma commit_effect st key s c :
  store_eq (apply_batch st (build_resolve_batch (mkResolve key s (RCommit c))))
    (st_set (st_set st CfWrite (encode_data_key key c) (MPut (encode_write_value s)))
       CfLock key MDelete).
Proof.
  etransitivity; [apply (apply_batch_ops st [WPut CfWrite _ _] (WDelete CfLock _))|].
  apply st_set_proper; [|done..]. apply (apply_batch_ops st [] (WPut CfWrite _ _)).
Qed.

Lemma rollback_effect st key s :
  store_eq (apply_batch st (build_resolve_batch (mkResolve key s RRollback)))
    (st_set (st_set st CfLock key MDelete) CfDefault (encode_data_key key s) MDelete).
Proof.
  etransitivity; [apply (apply_batch_ops st [WDelete CfLock _] (WDelete CfDefault _))|].
  apply st_set_proper; [|done..]. apply (apply_batch_ops st [] (WDelete CfLock _)).
Qed.

(** * The protocol *)

(** The lock on a key. *)
Definition lock_of (st : Store) (key : bytes) : option Lock := st_get st CfLock key ≫= Lock_decode.

#[export] Instance st_get_proper : Proper (store_eq ==> (=) ==> (=) ==> (=)) st_get.
Proof. intros s1 s2 Es cf _ <- k _ <-. unfold st_get. by rewrite Es. Qed.
#[export] Instance lock_of_proper : Proper (store_eq ==> (=) ==> (=)) lock_of.
Proof. intros s1 s2 Es k _ <-. unfold lock_of. by rewrite Es. Qed.

Lemma st_get_set st cf k v cf' k' :
  st_get (st_set st cf k v) cf' k'
  = if decide (cf = cf' ∧ k = k') then into_present v else st_get st cf' k'.
Proof. unfold st_get, st_set. by case_decide. Qed.

(** The lock a prewrite writes. *)
Definition pw_lock (p : PrewriteSpec) : Lock :=
  mkLock (pw_primary p) (pw_start_ts p) (pw_ttl p) (pw_kind p).

Section protocol.
(** The user keys in use; none is a proper prefix of another. *)
Context (K : bytes → Prop) (HK : ∀ a b, K a → K b → a = b ∨ apart a b).

(** Requests transactions make: timestamps in range, commit after start. *)
Definition op_ok (op : Op) : Prop :=
  match op with
  | OpWrite _ => False
  | OpPrewrite p => K (pw_key p) ∧ lock_wf (pw_lock p)
  | OpResolve r => K (rs_key r) ∧
      match rs_action r with RCommit c => rs_start_ts r < c ∧ is_u64 c | RRollback => True end
  end.

(** One request of the protocol that the committer turns into a write. *)
Definition txn_step (st : Store) (op : Op) (st' : Store) : Prop :=
  op_ok op ∧ ∃ b, spec_op st op (inl b) ∧ store_eq st' (apply_batch st b).

Inductive txn_steps : Store → list Op → Store → Prop :=
  | txn_nil st st' : store_eq st' st → txn_steps st [] st'
  | txn_cons st op st1 ops st2 : txn_step st op st1 → txn_steps st1 ops st2 → txn_steps st (op :: ops) st2.

(** Stores the protocol reaches; the commits of [D] may lack their value. *)
Record txn_inv_but (D : bytes → N → N → Prop) (st : Store) : Prop := mkTxnInv {
  ti_keys : ∀ k, is_Some (st CfWrite k) → ∃ uk c, k = encode_data_key uk c ∧ is_u64 c ∧ K uk;
  ti_after : ∀ key s c, committed st key s c → s < c;
  ti_uncommitted : ∀ key l, lock_of st key = Some l → ∀ c, ¬ committed st key (lock_start_ts l) c;
  ti_lock_value : ∀ key l, lock_of st key = Some l →
    is_Some (st_get st CfDefault (encode_data_key key (lock_start_ts l)));
  ti_valued : ∀ key s c, committed st key s c →
    is_Some (st_get st CfDefault (encode_data_key key s)) ∨ D key s c;
}.

Definition txn_inv : Store → Prop := txn_inv_but (λ _ _ _, False).

Lemma ti_value st key s c : txn_inv st → committed st key s c →
  is_Some (st_get st CfDefault (encode_data_key key s)).
Proof. intros Hi Hc. by destruct (ti_valued _ _ Hi key s c Hc). Qed.

Lemma txn_inv_empty : txn_inv (λ _ _, None).
Proof.
  constructor; try done.
  - by intros key s c (_ & b & ? & _).
  - by intros key s c (_ & b & ? & _).
Qed.

Lemma txn_but_separated {D} st key : txn_inv_but D st → K key → separated st key.
Proof.
  intros Hi Hk k Hs. destruct (ti_keys _ _ Hi k Hs) as (uk & c & -> & Hc & Huk).
  exists uk, c. split_and!; [done|done|]. by apply HK.
Qed.

Lemma txn_inv_separated st key : txn_inv st → K key → separated st key.
Proof. apply txn_but_separated. Qed.

#[local] Instance committed_proper : Proper (store_eq ==> (=) ==> (=) ==> (=) ==> iff) committed.
Proof.
  intros s1 s2 Es k _ <- s _ <- c _ <-. unfold committed. by rewrite (Es CfWrite).
Qed.

#[local] Instance txn_inv_proper D : Proper (store_eq ==> iff) (txn_inv_but D).
Proof.
  assert (Hd : ∀ s1 s2, store_eq s1 s2 → txn_inv_but D s1 → txn_inv_but D s2).
  { intros s1 s2 Es [H1 H2 H3 H4 H5]. constructor.
    - intros k. rewrite <- (Es CfWrite k). apply H1.
    - intros key s c. rewrite <- Es. apply H2.
    - intros key l. rewrite <- Es. intros Hl c. rewrite <- Es. by apply H3.
    - intros key l. rewrite <- Es. apply H4.
    - intros key s c. rewrite <- Es. apply H5. }
  intros s1 s2 Es. split; apply Hd; [done|by symmetry].
Qed.

(** What a step that writes does. *)
Lemma txn_step_cases {D} st op st' :
  txn_inv_but D st → txn_step st op st' →
  (∃ p, op = OpPrewrite p ∧ K (pw_key p) ∧ lock_wf (pw_lock p) ∧
    (∀ c, is_u64 c → pw_start_ts p ≤ c → commit_at st (pw_key p) c = None) ∧
    st_get st CfLock (pw_key p) = None ∧
    store_eq st' (st_set (st_set st CfDefault (encode_data_key (pw_key p) (pw_start_ts p))
      (MPut (pw_value p))) CfLock (pw_key p) (MPut (Lock_encode (pw_lock p))))) ∨
  (∃ key l c, op = OpResolve (mkResolve key (lock_start_ts l) (RCommit c)) ∧ K key ∧
    lock_of st key = Some l ∧ lock_start_ts l < c ∧ is_u64 c ∧
    store_eq st' (st_set (st_set st CfWrite (encode_data_key key c)
      (MPut (encode_write_value (lock_start_ts l)))) CfLock key MDelete)) ∨
  (∃ key l, op = OpResolve (mkResolve key (lock_start_ts l) RRollback) ∧ K key ∧
    lock_of st key = Some l ∧
    store_eq st' (st_set (st_set st CfLock key MDelete)
      CfDefault (encode_data_key key (lock_start_ts l)) MDelete)).
Proof.
  intros Hi (Hok & b & Hs & Est). inversion Hs as [|p o H1 H2|p o l H1 H2 H3|p newest Hk Hc Hl| | | |r lb l Hlk Hd Hst];
    subst; try done.
  - left. destruct Hok as [HKp Hwf]. exists p. split_and!; try done.
    + apply (prewrite_accepted_iff st p); [by eapply txn_but_separated|apply Hwf|eauto|done].
    + rewrite Est. apply prewrite_effect.
  - destruct r as [key s act]. cbn [rs_key rs_start_ts rs_action] in *. subst s.
    destruct Hok as [HKk Hact]. cbn in *.
    assert (Hlo : lock_of st key = Some l) by (unfold lock_of; by rewrite Hlk).
    destruct act as [c|]; right; [left|right].
    + exists key, l, c. split_and!; try done; [apply Hact..|]. rewrite Est. apply commit_effect.
    + exists key, l. split_and!; try done. rewrite Est. apply rollback_effect.
Qed.

(** Commit records after a write outside, or inside, the Write CF. *)
Lemma committed_set_other st cf k v key s c :
  cf ≠ CfWrite → committed (st_set st cf k v) key s c ↔ committed st key s c.
Proof. intros Hne. unfold committed. by rewrite st_set_ne by (by intros [? _]). Qed.

Lemma committed_set_write st k c0 s0 key s c :
  is_u64 c0 → is_u64 s0 →
  committed (st_set st CfWrite (encode_data_key k c0) (MPut (encode_write_value s0))) key s c →
  (key = k ∧ c = c0 ∧ s = s0) ∨ committed st key s c.
Proof.
  intros Hc0 Hs0 (Hc & b & Hb & Hd). unfold st_set in Hb. case_decide as Hk.
  - left. destruct Hk as [_ Hk]. apply encode_data_key_inj in Hk as [-> ->]; [|done..].
    injection Hb as <-. rewrite decode_encode_write_value in Hd by done. by injection Hd as ->.
  - right. split; [done|]. eauto.
Qed.

Lemma lock_of_set_other st cf k v key :
  (cf ≠ CfLock ∨ k ≠ key) → lock_of (st_set st cf k v) key = lock_of st key.
Proof. intros Hne. unfold lock_of. rewrite st_get_set, decide_False; [done|].
  intros [-> ->]. by destruct Hne. Qed.
Lemma lock_of_set st k v : lock_of (st_set st CfLock k v) k = into_present v ≫= Lock_decode.
Proof. unfold lock_of. by rewrite st_get_set, decide_True. Qed.

Lemma lock_start_u64 st key l : lock_of st key = Some l → is_u64 (lock_start_ts l).
Proof.
  unfold lock_of. destruct (st_get st CfLock key) as [b|]; [|done]. apply Lock_decode_start.
Qed.

(** ** The invariant *)

Lemma st_get_default_lock st k v key s :
  st_get (st_set st CfLock k v) CfDefault (encode_data_key key s)
  = st_get st CfDefault (encode_data_key key s).
Proof. rewrite st_get_set, decide_False; [done|]. by intros [? _]. Qed.
Lemma st_get_default_write st k v key s :
  st_get (st_set st CfWrite k v) CfDefault (encode_data_key key s)
  = st_get st CfDefault (encode_data_key key s).
Proof. rewrite st_get_set, decide_False; [done|]. by intros [? _]. Qed.

(** A prewrite's own value key, or another one. *)
Lemma st_get_default_put st key s v key' s' :
  is_Some (st_get st CfDefault (encode_data_key key' s')) →
  is_Some (st_get (st_set st CfDefault (encode_data_key key s) (MPut v)) CfDefault
    (encode_data_key key' s')).
Proof. rewrite st_get_set. case_decide; [by eexists|done]. Qed.

Lemma prewrite_inv {D} st p :
  txn_inv_but D st → lock_wf (pw_lock p) →
  (∀ c, is_u64 c → pw_start_ts p ≤ c → commit_at st (pw_key p) c = None) →
  txn_inv_but D (st_set (st_set st CfDefault (encode_data_key (pw_key p) (pw_start_ts p))
    (MPut (pw_value p))) CfLock (pw_key p) (MPut (Lock_encode (pw_lock p)))).
Proof.
  intros Hi Hwf Hno.
  assert (Hcm : ∀ key s c, committed (st_set (st_set st CfDefault
      (encode_data_key (pw_key p) (pw_start_ts p)) (MPut (pw_value p)))
      CfLock (pw_key p) (MPut (Lock_encode (pw_lock p)))) key s c → committed st key s c).
  { intros key s c. by rewrite !committed_set_other. }
  assert (Hlk : ∀ key l, lock_of (st_set (st_set st CfDefault
      (encode_data_key (pw_key p) (pw_start_ts p)) (MPut (pw_value p)))
      CfLock (pw_key p) (MPut (Lock_encode (pw_lock p)))) key = Some l →
      (key = pw_key p ∧ l = pw_lock p) ∨ lock_of st key = Some l).
  { intros key l. destruct (decide (key = pw_key p)) as [->|Hne].
    - rewrite lock_of_set. cbn. rewrite Lock_decode_encode by done. intros [= <-]. by left.
    - rewrite lock_of_set_other by auto. rewrite lock_of_set_other by (by left). by right. }
  constructor.
  - intros k. rewrite !st_set_ne by (by intros [? _]). by apply Hi.
  - intros key s c Hc%Hcm. exact (ti_after _ _ Hi _ _ _ Hc).
  - intros key l [[-> ->]|Hl]%Hlk c Hc%Hcm.
    + pose proof (ti_after _ _ Hi _ _ _ Hc) as Hlt. destruct Hc as (Hc & b & Hb & _). cbn in Hlt.
      by rewrite Hno in Hb by (done || lia).
    + by eapply (ti_uncommitted _ _ Hi).
  - intros key l [[-> ->]|Hl]%Hlk; rewrite st_get_default_lock.
    + rewrite st_get_set, decide_True by done. by eexists.
    + apply st_get_default_put. by apply Hi.
  - intros key s c Hc%Hcm. rewrite st_get_default_lock. destruct (ti_valued _ _ Hi _ _ _ Hc); [left|by right].
    by apply st_get_default_put.
Qed.

(** A commit record for a value that exists, or is excepted. *)
Lemma commit_record_inv {D} st key s c :
  txn_inv_but D st → K key → is_u64 s → s < c → is_u64 c →
  is_Some (st_get st CfDefault (encode_data_key key s)) ∨ D key s c →
  txn_inv_but D (st_set (st_set st CfWrite (encode_data_key key c)
    (MPut (encode_write_value s))) CfLock key MDelete).
Proof.
  intros Hi HKk Hs Hlt Hc HD. set (st1 := st_set st CfWrite _ _).
  assert (Hcm : ∀ key' s' c', committed (st_set st1 CfLock key MDelete) key' s' c' →
    (key' = key ∧ c' = c ∧ s' = s) ∨ committed st key' s' c').
  { intros key' s' c'. rewrite committed_set_other by done. by apply committed_set_write. }
  assert (Hlk : ∀ key' l', lock_of (st_set st1 CfLock key MDelete) key' = Some l' →
    key' ≠ key ∧ lock_of st key' = Some l').
  { intros key' l'. destruct (decide (key' = key)) as [->|Hne]; [by rewrite lock_of_set|].
    rewrite lock_of_set_other by auto. unfold st1. rewrite lock_of_set_other by (by left). done. }
  constructor.
  - intros k. rewrite st_set_ne by (by intros [? _]). unfold st1, st_set. case_decide as Hk.
    + intros _. destruct Hk as [_ <-]. eauto.
    + by apply Hi.
  - intros key' s' c' [(-> & -> & ->)|Hc']%Hcm; [done|exact (ti_after _ _ Hi _ _ _ Hc')].
  - intros key' l' [Hne Hl']%Hlk c' [(-> & _)|Hc']%Hcm; [done|]. by eapply (ti_uncommitted _ _ Hi).
  - intros key' l' [Hne Hl']%Hlk. rewrite st_get_default_lock. unfold st1.
    rewrite st_get_default_write. by apply Hi.
  - intros key' s' c' Hc'. rewrite st_get_default_lock. unfold st1. rewrite st_get_default_write.
    apply Hcm in Hc' as [(-> & -> & ->)|Hc']; [done|exact (ti_valued _ _ Hi _ _ _ Hc')].
Qed.

Lemma commit_inv {D} st key l c :
  txn_inv_but D st → K key → lock_of st key = Some l → lock_start_ts l < c → is_u64 c →
  txn_inv_but D (st_set (st_set st CfWrite (encode_data_key key c)
    (MPut (encode_write_value (lock_start_ts l)))) CfLock key MDelete).
Proof.
  intros Hi HKk Hl Hlt Hc. apply commit_record_inv; try done; [by eapply lock_start_u64|].
  left. by apply Hi.
Qed.

Lemma rollback_inv {D} st key l :
  txn_inv_but D st → lock_of st key = Some l →
  txn_inv_but D (st_set (st_set st CfLock key MDelete)
    CfDefault (encode_data_key key (lock_start_ts l)) MDelete).
Proof.
  intros Hi Hl. pose proof (lock_start_u64 _ _ _ Hl) as Hs.
  set (st2 := st_set _ CfDefault _ _).
  assert (Hcm : ∀ key' s c', committed st2 key' s c' → committed st key' s c').
  { intros key' s c'. unfold st2. by rewrite !committed_set_other. }
  assert (Hlk : ∀ key' l', lock_of st2 key' = Some l' → key' ≠ key ∧ lock_of st key' = Some l').
  { intros key' l'. unfold st2. rewrite lock_of_set_other by (by left).
    destruct (decide (key' = key)) as [->|Hne]; [by rewrite lock_of_set|].
    by rewrite lock_of_set_other by auto. }
  assert (Hdef : ∀ key' s, is_u64 s → (key' ≠ key ∨ s ≠ lock_start_ts l) →
    st_get st2 CfDefault (encode_data_key key' s) = st_get st CfDefault (encode_data_key key' s)).
  { intros key' s Hs' Hne. unfold st2. rewrite st_get_set, decide_False; [by rewrite st_get_default_lock|].
    intros [_ [<- <-]%encode_data_key_inj]; [|done..]. by destruct Hne. }
  constructor.
  - intros k. unfold st2. rewrite !st_set_ne by (by intros [? _]). by apply Hi.
  - intros key' s c Hc%Hcm. exact (ti_after _ _ Hi _ _ _ Hc).
  - intros key' l' [Hne Hl']%Hlk c Hc%Hcm. by eapply (ti_uncommitted _ _ Hi).
  - intros key' l' [Hne Hl']%Hlk. rewrite Hdef; [by apply Hi|by eapply lock_start_u64|by left].
  - intros key' s c Hc%Hcm. rewrite Hdef; [exact (ti_valued _ _ Hi _ _ _ Hc)| |].
    + pose proof (ti_after _ _ Hi _ _ _ Hc) as Hlt. destruct Hc as [Hc _]. lia.
    + destruct (decide (key' = key)) as [->|]; [right|by left].
      intros ->. by eapply (ti_uncommitted _ _ Hi).
Qed.

Lemma txn_step_inv {D} st op st' : txn_inv_but D st → txn_step st op st' → txn_inv_but D st'.
Proof.
  intros Hi Hs. destruct (txn_step_cases _ _ _ Hi Hs)
    as [(p & _ & _ & Hwf & Hno & _ & ->)|[(key & l & c & _ & HKk & Hl & Hlt & Hc & ->)|(key & l & _ & _ & Hl & ->)]].
  - by apply prewrite_inv.
  - by apply commit_inv.
  - by apply rollback_inv.
Qed.

Lemma txn_steps_inv st ops st' : txn_inv st → txn_steps st ops st' → txn_inv st'.
Proof.
  unfold txn_inv. intros Hi Hs. induction Hs as [st st' E|st op st1 ops st2 H1 Hs IH]; [by rewrite E|].
  apply IH. by eapply txn_step_inv.
Qed.

(** ** Commits of a primary

    [commit_primary] is a plain write: it does not look at the lock it removes. *)

Inductive ProtocolStep := PRequest (op : Op) | PCommitPrimary (tx : Transaction) (commit_ts : N).

(** The transaction still holds the lock of its primary. *)
Definition holds_primary (st : Store) (tx : Transaction) : bool :=
  match lock_of st (tx_primary tx) with Some l => lock_start_ts l =? tx_start_ts tx | None => false end.

(** A run of the protocol, with the commits of primaries that found no lock of theirs. *)
Inductive protocol_run : Store → list ProtocolStep → list (bytes * N * N) → Store → Prop :=
  | run_nil st st' : store_eq st' st → protocol_run st [] [] st'
  | run_request st op st1 ps late st2 : txn_step st op st1 → protocol_run st1 ps late st2 →
      protocol_run st (PRequest op :: ps) late st2
  | run_commit st tx c ps late st2 : K (tx_primary tx) → is_u64 (tx_start_ts tx) → tx_start_ts tx < c → is_u64 c →
      protocol_run (apply_batch st (commit_primary_batch tx c)) ps late st2 →
      protocol_run st (PCommitPrimary tx c :: ps)
        (if holds_primary st tx then late else (tx_primary tx, tx_start_ts tx, c) :: late) st2.

Lemma txn_inv_weaken (D D' : bytes → N → N → Prop) st :
  (∀ key s c, D key s c → D' key s c) → txn_inv_but D st → txn_inv_but D' st.
Proof. intros HD [H1 H2 H3 H4 H5]. split; [done..|]. intros key s c Hc. destruct (H5 key s c Hc); auto. Qed.

(** A commit of a primary keeps the invariant, but for its own value if the lock was gone. *)
Lemma commit_primary_inv D st tx c :
  txn_inv_but D st → K (tx_primary tx) → is_u64 (tx_start_ts tx) → tx_start_ts tx < c → is_u64 c →
  (holds_primary st tx = false → D (tx_primary tx) (tx_start_ts tx) c) →
  txn_inv_but D (apply_batch st (commit_primary_batch tx c)).
Proof.
  intros Hi HKk Hs Hlt Hc HD.
  apply (txn_inv_proper D _ _ (commit_effect st (tx_primary tx) (tx_start_ts tx) c)).
  apply commit_record_inv; try done. unfold holds_primary in HD.
  destruct (lock_of st (tx_primary tx)) as [l|] eqn:Hl; [|right; by apply HD].
  destruct (N.eqb_spec (lock_start_ts l) (tx_start_ts tx)) as [<-|]; [left; by apply Hi|right; by apply HD].
Qed.

Lemma protocol_run_inv D st ps late st' :
  txn_inv_but D st → protocol_run st ps late st' →
  txn_inv_but (λ key s c, D key s c ∨ (key, s, c) ∈ late) st'.
Proof.
  intros Hi Hr. revert D Hi.
  induction Hr as [st st' E|st op st1 ps late st2 H1 Hr IH|st tx c ps late st2 HKk Hs Hlt Hc Hr IH]; intros D Hi.
  - rewrite E. eapply txn_inv_weaken; [|done]. auto.
  - apply IH. by eapply txn_step_inv.
  - set (x := (tx_primary tx, tx_start_ts tx, c)). destruct (holds_primary st tx) eqn:Hh.
    + apply IH, commit_primary_inv; try done. congruence.
    + eapply (txn_inv_weaken (λ key s c', (D key s c' ∨ (key, s, c') = x) ∨ (key, s, c') ∈ late)).
      { intros key s c' [[?|E]|?]; [by left|right; rewrite E; set_solver|right; set_solver]. }
      apply (IH (λ key s c', D key s c' ∨ (key, s, c') = x)). apply commit_primary_inv; try done.
      * eapply txn_inv_weaken; [|exact Hi]. auto.
      * intros _. by right.
Qed.

(** ** Repeatable reads *)

(** The request does not commit [key] at or below [ts]. *)
Definition commits_above (key : bytes) (ts : N) (op : Op) : Prop :=
  match op with
  | OpResolve (mkResolve k _ (RCommit c)) => k = key → ts < c
  | _ => True
  end.

#[local] Instance snapshot_read_proper :
  Proper (store_eq ==> (=) ==> (=) ==> (=) ==> iff) snapshot_read.
Proof.
  assert (Hd : ∀ s1 s2 key ts r, store_eq s1 s2 → snapshot_read s1 key ts r → snapshot_read s2 key ts r).
  { intros s1 s2 key ts r Es [Hn|c w Hc Hw Hn].
    - apply snap_none. intros c Hc. rewrite <- (Es CfWrite). auto.
    - assert (value_at s1 key w = value_at s2 key w) as ->.
      { unfold value_at. destruct w; [|done]. destruct (decode_write_value v); [|done]. cbn. by rewrite Es. }
      apply (snap_some _ _ _ c); rewrite <- ?(Es CfWrite); auto. intros. rewrite <- (Es CfWrite). auto. }
  intros s1 s2 Es key _ <- ts _ <- r _ <-. split; apply Hd; [done|by symmetry].
Qed.

(** A read at [ts] keeps its answer when no commit record at or below [ts] and no
    value such a record points to changes. *)
Lemma snapshot_unchanged st st' key ts r :
  is_u64 ts →
  (∀ c, c ≤ ts → commit_at st' key c = commit_at st key c) →
  (∀ s c, committed st key s c → c ≤ ts →
    st_get st' CfDefault (encode_data_key key s) = st_get st CfDefault (encode_data_key key s)) →
  snapshot_read st key ts r → snapshot_read st' key ts r.
Proof.
  intros Hts Hw Hv [Hn|c w Hc Hcw Hn].
  - apply snap_none. intros c Hc. rewrite Hw by done. auto.
  - assert (value_at st key w = value_at st' key w) as ->.
    { unfold value_at. destruct w as [b|]; [|done].
      destruct (decode_write_value b) as [s|] eqn:Ed; [|done]. cbn.
      rewrite (Hv s c); [done| |done]. split; [lia|eauto]. }
    apply (snap_some _ _ _ c); [done|by rewrite Hw|]. intros c' Hc'. rewrite Hw by lia. auto.
Qed.

Lemma txn_step_snapshot st op st' key ts r :
  txn_inv st → K key → is_u64 ts → txn_step st op st' → commits_above key ts op →
  snapshot_read st key ts r → snapshot_read st' key ts r.
Proof.
  intros Hi HKk Hts Hs Hab. apply snapshot_unchanged; [done|..].
  - intros c Hc. destruct (txn_step_cases _ _ _ Hi Hs)
      as [(p & _ & _ & _ & _ & _ & E)|[(key' & l & c' & -> & _ & _ & _ & Hc' & E)|(key' & l & _ & _ & _ & E)]];
      rewrite (E CfWrite).
    + by rewrite !st_set_ne by (by intros [? _]).
    + rewrite st_set_ne by (by intros [? _]). rewrite st_set_ne; [done|].
      intros [_ [<- <-]%encode_data_key_inj]; [|lia..]. cbn in Hab. specialize (Hab eq_refl). lia.
    + by rewrite !st_set_ne by (by intros [? _]).
  - intros s c Hcm Hc. destruct (txn_step_cases _ _ _ Hi Hs)
      as [(p & _ & _ & Hwf & Hno & _ & ->)|[(key' & l & c' & _ & _ & _ & _ & _ & ->)|(key' & l & _ & _ & Hl & ->)]].
    + rewrite st_get_default_lock, st_get_set, decide_False; [done|].
      pose proof (ti_after _ _ Hi _ _ _ Hcm) as Hlt.
      intros [_ [<- <-]%encode_data_key_inj]; [|apply Hwf|lia].
      destruct Hcm as (? & b & Hb & _). by rewrite Hno in Hb by (done || lia).
    + by rewrite st_get_default_lock, st_get_default_write.
    + rewrite st_get_set, decide_False; [by rewrite st_get_default_lock|].
      pose proof (ti_after _ _ Hi _ _ _ Hcm) as Hlt.
      intros [_ [<- <-]%encode_data_key_inj]; [|by eapply lock_start_u64|lia].
      by eapply (ti_uncommitted _ _ Hi).
Qed.

Lemma txn_steps_snapshot st ops st' key ts r :
  txn_inv st → K key → is_u64 ts → txn_steps st ops st' → Forall (commits_above key ts) ops →
  snapshot_read st key ts r → snapshot_read st' key ts r.
Proof.
  intros Hi HKk Hts Hs. induction Hs as [st st' E|st op st1 ops st2 H1 Hs IH]; intros Hf Hr;
    [by rewrite E|].
  apply Forall_cons in Hf as [Hab Hf]. apply IH; [by eapply txn_step_inv|done|].
  by eapply txn_step_snapshot.
Qed.
End protocol.

(** * Whole transactions

    Whole transactions run through the engine: a transaction that prewrites and
    commits takes effect atomically at its commit timestamp, one that fails to
    prewrite leaves no trace. *)

#[local] Arguments encode_data_key : simpl never.
#[local] Arguments encode_write_value : simpl never.
#[local] Arguments Lock_encode : simpl never.
#[local] Arguments Lock_decode : simpl never.
#[local] Arguments Value_encode : simpl never.
#[local] Arguments decode_write_value : simpl never.

(** The user key a request touches. *)
Definition op_user_key (op : Op) : bytes :=
  match op with
  | OpWrite _ => []
  | OpPrewrite p => pw_key p
  | OpResolve r => rs_key r
  end.

Lemma encode_data_key_inj_key a x b y : encode_data_key a x = encode_data_key b y → a = b.
Proof.
  unfold encode_data_key. intros E. apply app_inj_2 in E as [? _]; [done|].
  by rewrite !length_encode_ts.
Qed.

(** The prewrite request of a mutation. *)
Definition mutation_spec (start_ts ttl : N) (primary : bytes) (m : Mutation) : PrewriteSpec :=
  mkPrewrite (mu_key m) (Value_encode (mu_value m)) primary start_ts ttl
    (match mu_value m with VPut _ => LockPut | VDelete => LockDelete end).

(** What a store says of one user key. *)
Record key_same (st st' : Store) (key : bytes) : Prop := mkKeySame {
  ks_write : ∀ c, commit_at st' key c = commit_at st key c;
  ks_default : ∀ s, st_get st' CfDefault (encode_data_key key s)
    = st_get st CfDefault (encode_data_key key s);
  ks_lock : st_get st' CfLock key = st_get st CfLock key;
}.

#[export] Instance key_same_refl : ∀ key, Reflexive (λ st st', key_same st st' key).
Proof. done. Qed.
Lemma key_same_trans st1 st2 st3 key :
  key_same st1 st2 key → key_same st2 st3 key → key_same st1 st3 key.
Proof. intros [A B C] [A' B' C']. constructor; intros; congruence. Qed.

Lemma key_same_lock st st' key : key_same st st' key → lock_of st' key = lock_of st key.
Proof. intros Hs. unfold lock_of. by rewrite (ks_lock _ _ _ Hs). Qed.

Lemma key_same_snapshot st st' key ts r :
  is_u64 ts → key_same st st' key → snapshot_read st key ts r → snapshot_read st' key ts r.
Proof.
  intros Hts [A B C]. apply snapshot_unchanged; [done|auto..].
Qed.

Section txn.
Context (K : bytes → Prop) (HK : ∀ a b, K a → K b → a = b ∨ apart a b).

(** A step leaves every other user key alone. *)
Lemma txn_step_other st op st' key :
  txn_inv K st → txn_step K st op st' → op_user_key op ≠ key → key_same st st' key.
Proof.
  intros Hi Hs Hne.
  destruct (txn_step_cases K HK _ _ _ Hi Hs)
    as [(p & -> & _ & _ & _ & _ & Est)|[(k & l & c & -> & _ & _ & _ & _ & Est)|(k & l & -> & _ & _ & Est)]];
    cbn in Hne; (constructor; [intros c'; rewrite (Est CfWrite)|intros s; rewrite Est, !st_get_set|rewrite Est, !st_get_set]);
    rewrite ?st_set_ne; try done; try (by intros [? _]);
    try (by intros [_ ?%encode_data_key_inj_key]);
    repeat (rewrite decide_False; [|by intros [? ?%encode_data_key_inj_key] || by intros [? ?]]); done.
Qed.

Lemma txn_steps_other st ops st' key :
  txn_inv K st → txn_steps K st ops st' → Forall (λ op, op_user_key op ≠ key) ops →
  key_same st st' key.
Proof.
  intros Hi Hs. induction Hs as [st st' Est|st op st1 ops st2 H1 Hs IH]; intros Hf.
  - constructor; intros; by rewrite ?(Est CfWrite), ?Est.
  - apply Forall_cons in Hf as [Hn Hf]. eapply key_same_trans; [by eapply txn_step_other|].
    apply IH; [by eapply (txn_step_inv K HK)|done].
Qed.

Lemma txn_steps_app st1 ops1 st2 ops2 st3 :
  txn_steps K st1 ops1 st2 → txn_steps K st2 ops2 st3 → txn_steps K st1 (ops1 ++ ops2) st3.
Proof.
  induction 1 as [st st' Est|st op st1' ops st2' H1 Hs IH]; intros H2; cbn.
  - inversion H2 as [? ? E2|? op st1' ops' ? Hst Hrest]; subst.
    + constructor. by rewrite E2.
    + econstructor; [|done]. destruct Hst as (Hok & b & Ho & Eb). split; [done|]. exists b.
      split; [by rewrite <- Est|]. by rewrite Eb, Est.
  - econstructor; [done|auto].
Qed.

(** ** The transaction *)

Context (tx : Transaction) (ttl : N).
Context (Hstart : is_u64 (tx_start_ts tx)) (Httl : is_u64 ttl) (Hprim : fits (tx_primary tx)).

(** The mutation's key is unlocked and has no commit since the transaction began. *)
Definition free st (m : Mutation) : Prop :=
  st_get st CfLock (mu_key m) = None ∧
  ∀ c, is_u64 c → tx_start_ts tx ≤ c → commit_at st (mu_key m) c = None.

(** The mutation is prewritten. *)
Definition prepared st (m : Mutation) : Prop :=
  lock_of st (mu_key m)
    = Some (pw_lock (mutation_spec (tx_start_ts tx) ttl (tx_primary tx) m)) ∧
  st_get st CfDefault (encode_data_key (mu_key m) (tx_start_ts tx))
    = Some (Value_encode (mu_value m)) ∧
  ∀ c, is_u64 c → tx_start_ts tx ≤ c → commit_at st (mu_key m) c = None.

(** The mutation is committed at [c], its newest commit. *)
Definition applied st (cts : N) (m : Mutation) : Prop :=
  commit_at st (mu_key m) cts = Some (MPut (encode_write_value (tx_start_ts tx))) ∧
  st_get st CfDefault (encode_data_key (mu_key m) (tx_start_ts tx))
    = Some (Value_encode (mu_value m)) ∧
  (∀ c, is_u64 c → cts < c → commit_at st (mu_key m) c = None) ∧
  st_get st CfLock (mu_key m) = None.

Lemma free_same st st' m : key_same st st' (mu_key m) → free st m → free st' m.
Proof. intros [A B C] [F1 F2]. split; [by rewrite C|]. intros c Hc Hle. rewrite A. auto. Qed.
Lemma prepared_same st st' m : key_same st st' (mu_key m) → prepared st m → prepared st' m.
Proof.
  intros Hs (P1 & P2 & P3). split_and!; [by rewrite (key_same_lock _ _ _ Hs)|by rewrite (ks_default _ _ _ Hs)|].
  intros c Hc Hle. rewrite (ks_write _ _ _ Hs). auto.
Qed.
Lemma applied_same st st' c m : key_same st st' (mu_key m) → applied st c m → applied st' c m.
Proof.
  intros Hs (P1 & P2 & P3 & P4).
  split_and!; [by rewrite (ks_write _ _ _ Hs)|by rewrite (ks_default _ _ _ Hs)| |by rewrite (ks_lock _ _ _ Hs)].
  intros c' Hc Hle. rewrite (ks_write _ _ _ Hs). auto.
Qed.

(** Readers at or after the commit see the mutation. *)
Lemma applied_read st cts m ts :
  is_u64 ts → cts ≤ ts → applied st cts m →
  snapshot_read st (mu_key m) ts (Ok (Value_into_option (mu_value m))).
Proof.
  intros Hts Hle (P1 & P2 & P3 & _).
  assert (value_at st (mu_key m) (MPut (encode_write_value (tx_start_ts tx)))
    = Ok (Value_into_option (mu_value m))) as <-.
  { unfold value_at. rewrite decode_encode_write_value by done. cbn. rewrite P2.
    by rewrite Value_decode_encode. }
  apply (snap_some _ _ _ cts); [done|done|]. intros c Hc. apply P3; lia.
Qed.

Definition prewrite_req (m : Mutation) : Op :=
  OpPrewrite (mutation_spec (tx_start_ts tx) ttl (tx_primary tx) m).
Definition commit_req (cts : N) (m : Mutation) : Op :=
  OpResolve (mkResolve (mu_key m) (tx_start_ts tx) (RCommit cts)).

Lemma pw_lock_wf m : lock_wf (pw_lock (mutation_spec (tx_start_ts tx) ttl (tx_primary tx) m)).
Proof. by split. Qed.

Section run.
Context {E : Type} `{EngineLaws E}.
Implicit Types (e : E).

(** One prewrite of a free key. *)
Lemma prewrite_one_ok e st m :
  holds e st → txn_inv K st → K (mu_key m) → free st m → small_op (prewrite_req m) →
  ∃ e' seq st', prewrite_one (mu_key m) (mu_value m) (tx_primary tx) (tx_start_ts tx) ttl e = (e', Ok seq) ∧
    holds e' st' ∧ txn_step K st (prewrite_req m) st' ∧ prepared st' m.
Proof.
  intros Hh Hi HKm [Hf1 Hf2] Hsm. set (p := mutation_spec (tx_start_ts tx) ttl (tx_primary tx) m).
  assert (Hs : spec_op st (OpPrewrite p) (inl (build_prewrite_batch p))).
  { apply prewrite_accepted_iff; [by apply (txn_inv_separated K HK)|done| |done].
    destruct (holds_seek e st CfWrite (encode_data_key (pw_key p) u64_max) Hh) as (o & _ & Ho). eauto. }
  destruct (holds_write e st _ _ Hh Hsm Hs) as (e' & seq & Hsub & Hh').
  exists e', seq, (apply_batch st (build_prewrite_batch p)). split; [done|]. split; [done|].
  split; [split; [split; [done|apply pw_lock_wf]|by eexists]|].
  assert (Hst := prewrite_effect st p). split_and!.
  - rewrite Hst, lock_of_set. cbn [into_present mbind option_bind].
    apply (Lock_decode_encode (pw_lock p)), pw_lock_wf.
  - rewrite Hst, st_get_default_lock, st_get_set, decide_True by done. done.
  - intros c Hc Hle. rewrite (Hst CfWrite), !st_set_ne by (by intros [? _]). auto.
Qed.

Lemma prewrite_rest_ok ms acq e st :
  holds e st → txn_inv K st → Forall (λ m, K (mu_key m)) ms → NoDup (mu_key <$> ms) →
  Forall (free st) ms → Forall (λ m, small_op (prewrite_req m)) ms →
  ∃ e' st', prewrite_rest tx ttl ms acq e = (e', (acq ++ (mu_key <$> ms), Ok tt)) ∧
    holds e' st' ∧ txn_steps K st (prewrite_req <$> ms) st' ∧ Forall (prepared st') ms.
Proof.
  intros Hh Hi HKs. revert acq e st Hh Hi.
  induction HKs as [|m ms HKm HKs IH]; intros acq e st Hh Hi Hnd Hfree Hsm.
  { exists e, st. cbn. rewrite app_nil_r. split_and!; [done|done|by constructor|done]. }
  rewrite fmap_cons in Hnd. apply NoDup_cons in Hnd as [Hnin Hnd].
  apply Forall_cons in Hfree as [Hfm Hfree], Hsm as [Hsmm Hsm].
  destruct (prewrite_one_ok e st m Hh Hi HKm Hfm Hsmm) as (e1 & seq & st1 & E1 & Hh1 & Hs1 & Hp1).
  assert (Hne : Forall (λ m', mu_key m ≠ mu_key m') ms).
  { apply Forall_forall. intros m' Hin Heq. apply Hnin. rewrite Heq. by apply list_elem_of_fmap_2. }
  destruct (IH (acq ++ [mu_key m]) e1 st1 Hh1 (txn_step_inv K HK _ _ _ Hi Hs1) Hnd) as (e' & st' & E2 & Hh' & Hs' & Hp').
  { eapply Forall_impl; [apply Forall_and; split; [exact Hfree|exact Hne]|]. intros m' [Hf Hn].
    eapply free_same; [|exact Hf]. by eapply txn_step_other. }
  { done. }
  exists e', st'. cbn [prewrite_rest fmap list_fmap]. rewrite E1, E2, <- app_assoc.
  split_and!; [done|done|by econstructor|]. constructor; [|done].
  eapply prepared_same; [|exact Hp1]. eapply txn_steps_other; [by eapply (txn_step_inv K HK)|done|].
  apply Forall_fmap. eapply Forall_impl; [exact Hne|]. cbn. congruence.
Qed.

(** One commit of a prewritten key. *)
Lemma commit_step_ok st cts m :
  txn_inv K st → K (mu_key m) → tx_start_ts tx < cts → is_u64 cts → prepared st m →
  let b := build_resolve_batch (mkResolve (mu_key m) (tx_start_ts tx) (RCommit cts)) in
  spec_op st (commit_req cts m) (inl b) ∧ txn_step K st (commit_req cts m) (apply_batch st b) ∧
  applied (apply_batch st b) cts m.
Proof.
  intros Hi HKm Hlt Hc (P1 & P2 & P3) b.
  assert (Hs : spec_op st (commit_req cts m) (inl b)).
  { unfold lock_of in P1. destruct (st_get st CfLock (mu_key m)) as [lb|] eqn:El; [|done].
    by eapply spec_resolve_ok. }
  split; [done|]. split; [split; [done|by eexists]|].
  assert (Hst := commit_effect st (mu_key m) (tx_start_ts tx) cts). fold b in Hst. split_and!.
  - rewrite (Hst CfWrite), st_set_ne, st_set_eq by (by intros [? _]). done.
  - by rewrite Hst, st_get_default_lock, st_get_default_write.
  - intros c Hc' Hlt'. rewrite (Hst CfWrite), st_set_ne by (by intros [? _]).
    rewrite st_set_ne; [apply P3; [done|lia]|]. intros [_ [_ Ec]%encode_data_key_inj]; [lia|done..].
  - by rewrite Hst, st_get_set, decide_True.
Qed.

Lemma applied_after st st' cts m ops :
  txn_inv K st → txn_steps K st ops st' → Forall (λ op, op_user_key op ≠ mu_key m) ops →
  applied st cts m → applied st' cts m.
Proof. intros Hi Hs Hf. apply applied_same. by eapply txn_steps_other. Qed.

Lemma finalize_ok cts ms e st :
  holds e st → txn_inv K st → tx_start_ts tx < cts → is_u64 cts →
  Forall (λ m, K (mu_key m)) ms → Forall (λ m, mu_key m ≠ tx_primary tx) ms →
  NoDup (mu_key <$> ms) → Forall (prepared st) ms → Forall (λ m, small_op (commit_req cts m)) ms →
  ∃ e' st', finalize_loop tx cts ms e = (e', Ok tt) ∧ holds e' st' ∧
    txn_steps K st (commit_req cts <$> ms) st' ∧ Forall (applied st' cts) ms.
Proof.
  intros Hh Hi Hlt Hc HKs. revert e st Hh Hi.
  induction HKs as [|m ms HKm HKs IH]; intros e st Hh Hi Hnp Hnd Hp Hsm.
  { exists e, st. split_and!; [done|done|by constructor|done]. }
  rewrite fmap_cons in Hnd. apply NoDup_cons in Hnd as [Hnin Hnd].
  apply Forall_cons in Hnp as [Hnpm Hnp], Hp as [Hpm Hp], Hsm as [Hsmm Hsm].
  destruct (commit_step_ok st cts m Hi HKm Hlt Hc Hpm) as (Hs & Hst & Ha).
  destruct (holds_write e st _ _ Hh Hsmm Hs) as (e1 & seq & Hsub & Hh1).
  assert (Hne : Forall (λ m', mu_key m ≠ mu_key m') ms).
  { apply Forall_forall. intros m' Hin Heq. apply Hnin. rewrite Heq. by apply list_elem_of_fmap_2. }
  destruct (IH e1 _ Hh1 (txn_step_inv K HK _ _ _ Hi Hst) Hnp Hnd) as (e' & st' & E2 & Hh' & Hs' & Ha').
  { eapply Forall_impl; [apply Forall_and; split; [exact Hp|exact Hne]|]. intros m' [Hf Hn].
    eapply prepared_same; [|exact Hf]. by eapply txn_step_other. }
  { done. }
  exists e', st'. cbn [finalize_loop fmap list_fmap]. rewrite decide_False by done.
  split_and!; [|done|by econstructor|].
  - em_simpl. change (OpResolve _) with (commit_req cts m). by rewrite Hsub.
  - constructor; [|done]. eapply applied_after; [by eapply (txn_step_inv K HK)|done| |done].
    apply Forall_fmap. eapply Forall_impl; [exact Hne|]. cbn. congruence.
Qed.

(** ** A prewrite that fails *)

Definition ours st (key : bytes) : Prop :=
  ∃ l, lock_of st key = Some l ∧ lock_start_ts l = tx_start_ts tx.

Lemma ours_same st st' key : key_same st st' key → ours st key → ours st' key.
Proof. intros Hs (l & Hl & Hst). exists l. by rewrite (key_same_lock _ _ _ Hs). Qed.

(** The outcome of a prewrite is a step or a refusal that changes nothing. *)
Lemma prewrite_one_cases e st m :
  holds e st → txn_inv K st → K (mu_key m) → small_op (prewrite_req m) →
  (∃ e' seq st', prewrite_one (mu_key m) (mu_value m) (tx_primary tx) (tx_start_ts tx) ttl e = (e', Ok seq) ∧
    holds e' st' ∧ txn_step K st (prewrite_req m) st' ∧ ours st' (mu_key m) ∧
    st_get st CfLock (mu_key m) = None) ∨
  (∃ e' msg, prewrite_one (mu_key m) (mu_value m) (tx_primary tx) (tx_start_ts tx) ttl e
    = (e', Err (Conflict msg)) ∧ holds e' st).
Proof.
  intros Hh Hi HKm Hsm. set (p := mutation_spec (tx_start_ts tx) ttl (tx_primary tx) m).
  destruct (holds_seek e st CfWrite (encode_data_key (pw_key p) u64_max) Hh) as (o & _ & Ho).
  destruct (conflicts (pw_key p) (pw_start_ts p) o) eqn:Ec.
  { destruct (holds_answer e st (prewrite_req m) (Err (Conflict "write conflict: a newer commit exists")) Hh Hsm)
      as (e' & Hs & Hh'); [by eapply spec_prewrite_conflict|]. right. eauto. }
  destruct (st_get st CfLock (pw_key p)) as [lb|] eqn:El.
  { destruct (holds_answer e st (prewrite_req m) (Err (Conflict "key is already locked by another transaction")) Hh Hsm)
      as (e' & Hs & Hh'); [by eapply spec_prewrite_locked|]. right. eauto. }
  left. destruct (prewrite_one_ok e st m Hh Hi HKm) as (e' & seq & st' & ? & ? & ? & Hp & _); [|done|].
  - split; [done|]. apply (prewrite_accepted_iff st p); [by apply (txn_inv_separated K HK)|done|eauto|].
    by eapply spec_prewrite_ok.
  - exists e', seq, st'. split_and!; try done. eexists. split; [exact Hp|done].
Qed.

(** What the prewrite loop leaves, whatever its outcome: the acquired keys are
    locked by this transaction and were unlocked before; other keys are as before. *)
Record acquired_inv st0 st (acq : list bytes) : Prop := mkAcq {
  aq_ours : Forall (ours st) acq;
  aq_keys : Forall K acq;
  aq_free : Forall (λ k, st_get st0 CfLock k = None) acq;
  aq_nodup : NoDup acq;
  aq_other : ∀ key, key ∉ acq → key_same st0 st key;
}.

Definition is_prewrite (op : Op) : Prop := match op with OpPrewrite _ => True | _ => False end.

Lemma prewrite_step_acquired st0 st acq st' m :
  txn_inv K st → K (mu_key m) → acquired_inv st0 st acq →
  txn_step K st (prewrite_req m) st' → ours st' (mu_key m) → st_get st CfLock (mu_key m) = None →
  acquired_inv st0 st' (acq ++ [mu_key m]).
Proof.
  intros Hi HKm [Ho Hk Hf Hnd Hot] Hs Hom Hfm.
  assert (Hnin : mu_key m ∉ acq).
  { intros Hin. rewrite Forall_forall in Ho. destruct (Ho _ Hin) as (l & Hl & _).
    unfold lock_of in Hl. by rewrite Hfm in Hl. }
  assert (Hks : ∀ key, key ≠ mu_key m → key_same st st' key).
  { intros key Hne. eapply txn_step_other; [done|done|]. cbn. congruence. }
  constructor.
  - apply Forall_app. split; [|by constructor]. rewrite Forall_forall in *. intros k Hin.
    eapply ours_same; [|by apply Ho]. apply Hks. by intros ->.
  - apply Forall_app. split; [done|by constructor].
  - apply Forall_app. split; [done|constructor; [|done]]. by rewrite <- (ks_lock _ _ _ (Hot _ Hnin)).
  - apply NoDup_app. split_and!; [done| |apply NoDup_singleton].
    by intros x Hin ->%list_elem_of_singleton.
  - intros key Hn. apply not_elem_of_app in Hn as [Hn1 Hn2]. eapply key_same_trans; [by apply Hot|].
    apply Hks. intros ->. apply Hn2. left.
Qed.

Lemma prewrite_rest_any ms st0 acq e st :
  holds e st → txn_inv K st → Forall (λ m, K (mu_key m)) ms →
  Forall (λ m, small_op (prewrite_req m)) ms → acquired_inv st0 st acq →
  ∃ e' st' acq' r ops, prewrite_rest tx ttl ms acq e = (e', (acq', r)) ∧ holds e' st' ∧
    txn_steps K st ops st' ∧ Forall is_prewrite ops ∧ acquired_inv st0 st' acq' ∧
    (∀ k, k ∈ acq' → k ∈ acq ∨ k ∈ mu_key <$> ms).
Proof.
  intros Hh Hi HKs. revert acq e st Hh Hi.
  induction HKs as [|m ms HKm HKs IH]; intros acq e st Hh Hi Hsm Hacq; cbn [prewrite_rest].
  { eexists _, _, _, _, []. split; [done|]. split; [done|]. split; [by constructor|auto]. }
  apply Forall_cons in Hsm as [Hsmm Hsm].
  destruct (prewrite_one_cases e st m Hh Hi HKm Hsmm)
    as [(e1 & seq & st1 & -> & Hh1 & Hs1 & Ho1 & Hf1)|(e1 & msg & -> & Hh1)].
  - destruct (IH (acq ++ [mu_key m]) e1 st1 Hh1 (txn_step_inv K HK _ _ _ Hi Hs1) Hsm)
      as (e' & st' & acq' & r & ops & E2 & Hh' & Hs' & Hpw & Ha' & Hsub).
    { by eapply (prewrite_step_acquired st0 st acq). }
    exists e', st', acq', r, (prewrite_req m :: ops). split_and!; [done|done|by econstructor|by constructor|done|].
    intros k [[?|?%list_elem_of_singleton]%elem_of_app|?]%Hsub; [by left|right..];
      rewrite fmap_cons; [subst; left|by right].
  - eexists _, _, _, _, []. split; [done|]. split; [done|]. split; [by constructor|auto].
Qed.

Definition rollback_req (k : bytes) : Op := OpResolve (mkResolve k (tx_start_ts tx) RRollback).

(** Rolling back drops exactly the acquired locks. *)
Lemma rollback_all_ok acq e st :
  holds e st → txn_inv K st → Forall (ours st) acq → Forall K acq → NoDup acq →
  Forall (λ k, small_op (rollback_req k)) acq →
  ∃ st', holds (rollback_all (tx_start_ts tx) acq e) st' ∧
    txn_steps K st (rollback_req <$> acq) st' ∧
    Forall (λ k, st_get st' CfLock k = None) acq.
Proof.
  intros Hh Hi Ho HKs. revert e st Hh Hi Ho.
  induction HKs as [|k acq HKk HKs IH]; intros e st Hh Hi Ho Hnd Hsm.
  { exists st. split_and!; [done|by constructor|done]. }
  apply NoDup_cons in Hnd as [Hnin Hnd]. apply Forall_cons in Ho as [Hok Ho], Hsm as [Hsmk Hsm].
  set (b := build_resolve_batch (mkResolve k (tx_start_ts tx) RRollback)).
  assert (Hs : spec_op st (rollback_req k) (inl b)).
  { destruct Hok as (l & Hl & Hst). unfold lock_of in Hl.
    destruct (st_get st CfLock k) as [lb|] eqn:El; [|done]. by eapply spec_resolve_ok. }
  destruct (holds_write e st _ _ Hh Hsmk Hs) as (e1 & seq & Hsub & Hh1).
  assert (Hst : txn_step K st (rollback_req k) (apply_batch st b)) by (split; [done|by eexists]).
  pose proof (txn_step_inv K HK _ _ _ Hi Hst) as Hi1.
  destruct (IH e1 (apply_batch st b) Hh1 Hi1) as (st' & Hh' & Hs' & Hl'); [|done|done|].
  { rewrite Forall_forall in *. intros k' Hin. eapply ours_same; [|by apply Ho].
    eapply txn_step_other; [done|done|]. cbn. by intros ->. }
  exists st'. cbn [rollback_all]. em_simpl. change (OpResolve _) with (rollback_req k).
  rewrite Hsub. cbn [fst]. split_and!; [done|by econstructor|].
  constructor; [|done].
  assert (Hks : key_same (apply_batch st b) st' k).
  { eapply txn_steps_other; [done|done|]. apply Forall_fmap, Forall_forall. cbn. by intros k' Hin ->. }
  assert (Heff := rollback_effect st k (tx_start_ts tx)). fold b in Heff.
  rewrite (ks_lock _ _ _ Hks), Heff, !st_get_set.
  rewrite decide_False by (by intros [? _]). by rewrite decide_True.
Qed.
End run.
End txn.

(** * The theorems *)

Section theorems.
Context {E : Type} `{EngineLaws E}.
Context (K : bytes → Prop) (HK : ∀ a b, K a → K b → a = b ∨ apart a b).

(** The widths and sizes of a transaction's requests. *)
Record txn_sized (tx : Transaction) (ttl cts : N) : Prop := mkTxnSized {
  ts_start : is_u64 (tx_start_ts tx);
  ts_commit : tx_start_ts tx < cts ∧ is_u64 cts;
  ts_ttl : is_u64 ttl;
  ts_primary : fits (tx_primary tx);
  ts_prewrite : Forall (λ m, small_op (prewrite_req tx ttl m)) (tx_mutations tx);
  ts_finalize : Forall (λ m, small_op (commit_req tx cts m)) (tx_mutations tx);
  ts_rollback : ∀ k, k ∈ mu_key <$> tx_mutations tx → small_op (rollback_req tx k);
}.

(** A read of an unlocked key is the read of its committed versions. *)
Lemma mvcc_get_unlocked fuel key ts (e : E) st :
  holds e st → st_get st CfLock key = None →
  mvcc_get fuel key ts e = (e, read_committed key ts e).
Proof.
  intros Hh Hl. unfold mvcc_get. cbn [resolve_locks]. em_simpl.
  rewrite (holds_get e st CfLock key Hh), Hl. done.
Qed.

Lemma read_same (e e' : E) st st' key ts :
  holds e st → holds e' st' → separated st key → separated st' key → is_u64 ts →
  (∀ r, snapshot_read st key ts r → snapshot_read st' key ts r) →
  read_committed key ts e' = read_committed key ts e.
Proof.
  intros Hh Hh' Hs Hs' Hts Hr. eapply snapshot_read_det.
  - by apply read_committed_snapshot.
  - apply Hr. by apply read_committed_snapshot.
Qed.

Lemma prewrites_never_commit key ts ops : Forall is_prewrite ops → Forall (commits_above key ts) ops.
Proof. intros Hf. eapply Forall_impl; [exact Hf|]. by intros []. Qed.

Lemma commit_primary_run tx cts (e : E) e1 seq :
  submit e (OpWrite (build_resolve_batch (mkResolve (tx_primary tx) (tx_start_ts tx) (RCommit cts))))
    = (e1, Ok seq) →
  commit_primary tx cts e = (e1, Ok tt).
Proof.
  intros Hs. unfold commit_primary. set (b := commit_primary_batch tx cts).
  assert (Ew : engine_write b e = (e1, Ok seq)) by exact Hs. em_simpl. by rewrite Ew.
Qed.

(** The primary is the first iteration of the loop. *)
Lemma prewrite_rest_eq tx ttl first rest (e : E) :
  tx_mutations tx = first :: rest → tx_primary tx = mu_key first →
  prewrite tx ttl e =
    let '(e, (acquired, result)) := prewrite_rest tx ttl (first :: rest) [] e in
    match result with
    | Ok _ => (e, Ok tt)
    | Err err => (rollback_all (tx_start_ts tx) acquired e, Err err)
    end.
Proof.
  intros Em Ep. unfold prewrite. rewrite Em. cbn [prewrite_rest]. rewrite <- !Ep.
  by destruct (prewrite_one _ _ _ _ _ e) as [e0 [|]].
Qed.

(** The two phases of a transaction over distinct, free keys. *)
Lemma prewrite_run (e : E) st start_ts muts tx ttl cts :
  Transaction_new start_ts muts = Ok tx → holds e st → txn_inv K st → txn_sized tx ttl cts →
  Forall (λ m, K (mu_key m)) muts → NoDup (mu_key <$> muts) → Forall (free tx st) muts →
  ∃ e1 st1, prewrite tx ttl e = (e1, Ok tt) ∧ holds e1 st1 ∧ txn_inv K st1 ∧
    txn_steps K st (prewrite_req tx ttl <$> muts) st1 ∧ Forall (prepared tx ttl st1) muts.
Proof.
  intros Hnew Hh Hi Hsz HKs Hnd Hfree. destruct muts as [|first rest]; [done|].
  injection Hnew as <-. destruct Hsz as [Hst _ Httl Hp Hs1 _ _]. cbn [tx_mutations tx_start_ts tx_primary] in *.
  set (tx := mkTransaction start_ts (mu_key first) (first :: rest)) in *.
  destruct (prewrite_rest_ok K HK tx ttl Hst Httl Hp (first :: rest) [] e st Hh Hi HKs Hnd Hfree Hs1)
    as (e1 & st1 & Ep & Hh1 & Hst1 & Hprep).
  exists e1, st1. split_and!; [by rewrite (prewrite_rest_eq tx ttl first rest), Ep by done|done| |done|done].
  by apply (txn_steps_inv K HK _ _ _ Hi Hst1).
Qed.

Lemma commit_run (e1 : E) st1 start_ts muts tx ttl cts :
  Transaction_new start_ts muts = Ok tx → holds e1 st1 → txn_inv K st1 → txn_sized tx ttl cts →
  Forall (λ m, K (mu_key m)) muts → NoDup (mu_key <$> muts) → Forall (prepared tx ttl st1) muts →
  ∃ e2 st2, commit tx cts e1 = (e2, Ok tt) ∧ holds e2 st2 ∧ txn_inv K st2 ∧
    txn_steps K st1 (commit_req tx cts <$> muts) st2 ∧ Forall (applied tx st2 cts) muts.
Proof.
  intros Hnew Hh1 Hi1 Hsz HKs Hnd Hprep. destruct muts as [|first rest]; [done|].
  injection Hnew as <-. destruct Hsz as [Hst [Hlt Hc] Httl Hp Hs1 Hs2 _]. cbn [tx_mutations tx_start_ts tx_primary] in *.
  set (tx := mkTransaction start_ts (mu_key first) (first :: rest)) in *.
  apply Forall_cons in Hprep as [Hpf Hprep], HKs as [HKf HKr], Hs2 as [Hs2f Hs2].
  rewrite fmap_cons in Hnd. apply NoDup_cons in Hnd as [Hnin Hnd'].
  assert (Hne : Forall (λ m, mu_key first ≠ mu_key m) rest).
  { apply Forall_forall. intros m Hin Heq. apply Hnin. rewrite Heq. by apply list_elem_of_fmap_2. }
  destruct (commit_step_ok K tx ttl Hst Httl st1 cts first Hi1 HKf Hlt Hc Hpf) as (_ & Hstep & Ha).
  set (b := build_resolve_batch _) in *.
  destruct (holds_write e1 st1 (OpWrite b) b Hh1 Hs2f) as (e2 & seq & Hsub & Hh2); [constructor|].
  pose proof (txn_step_inv K HK _ _ _ Hi1 Hstep) as Hi2.
  destruct (finalize_ok K HK tx ttl Hst Httl cts rest e2 (apply_batch st1 b) Hh2 Hi2 Hlt Hc HKr)
    as (e3 & st3 & Ef & Hh3 & Hst3 & Ha3); [|done| |done|].
  { eapply Forall_impl; [exact Hne|]. cbn. congruence. }
  { eapply Forall_impl; [apply Forall_and; split; [exact Hprep|exact Hne]|]. intros m [Hpm Hn].
    eapply prepared_same; [|exact Hpm]. eapply txn_step_other; [done|done|done|]. cbn. congruence. }
  exists e3, st3. split_and!; [|done|by apply (txn_steps_inv K HK _ _ _ Hi2 Hst3)|by econstructor|].
  - unfold commit. em_simpl. rewrite (commit_primary_run tx cts e1 e2 seq Hsub).
    unfold finalize_secondaries. cbn [tx_mutations tx finalize_loop]. by rewrite decide_True.
  - constructor; [|done]. eapply applied_after; [done|done|done| |exact Ha].
    apply Forall_fmap. eapply Forall_impl; [exact Hne|]. cbn. congruence.
Qed.

(** What the transaction's requests keep of the past and of other keys. *)
Lemma txn_requests_above tx ttl cts muts key ts :
  ts < cts ∨ key ∉ mu_key <$> muts →
  Forall (commits_above key ts) ((prewrite_req tx ttl <$> muts) ++ (commit_req tx cts <$> muts)).
Proof.
  intros Hor. apply Forall_app. split; apply Forall_fmap, Forall_forall; [done|].
  intros m Hin. cbn. intros <-. destruct Hor as [|Hn]; [done|].
  destruct Hn. by apply list_elem_of_fmap_2.
Qed.

(** C3. A transaction over distinct, unlocked keys without newer commits prewrites
    and commits, and takes effect atomically at its commit timestamp: every reader
    at or after it sees all the mutations, every reader before it and every reader
    of another key sees what it saw before, and no lock is left. *)
Theorem transaction_commits_atomically (e : E) st start_ts muts tx ttl cts :
  Transaction_new start_ts muts = Ok tx →
  holds e st → txn_inv K st → txn_sized tx ttl cts →
  Forall (λ m, K (mu_key m)) muts → NoDup (mu_key <$> muts) → Forall (free tx st) muts →
  ∃ e1 e2 st2, prewrite tx ttl e = (e1, Ok tt) ∧ commit tx cts e1 = (e2, Ok tt) ∧
    holds e2 st2 ∧ txn_inv K st2 ∧
    (∀ m ts fuel, m ∈ muts → is_u64 ts → cts ≤ ts →
      mvcc_get fuel (mu_key m) ts e2 = (e2, Ok (Value_into_option (mu_value m)))) ∧
    (∀ key ts, K key → is_u64 ts → ts < cts ∨ key ∉ mu_key <$> muts →
      read_committed key ts e2 = read_committed key ts e).
Proof.
  intros Hnew Hh Hi Hsz HKs Hnd Hfree.
  destruct (prewrite_run e st start_ts muts tx ttl cts) as (e1 & st1 & Ep & Hh1 & Hi1 & Hs1 & Hp1); [done..|].
  destruct (commit_run e1 st1 start_ts muts tx ttl cts) as (e2 & st2 & Ec & Hh2 & Hi2 & Hs2 & Ha2); [done..|].
  rewrite Forall_forall in Ha2. pose proof (ts_start _ _ _ Hsz) as Hst. pose proof (ts_ttl _ _ _ Hsz) as Httl.
  exists e1, e2, st2. split_and!; [done|done|done|done| |].
  - intros m ts fuel Hin Hts Hle. rewrite (mvcc_get_unlocked fuel (mu_key m) ts e2 st2 Hh2) by apply (Ha2 m Hin).
    f_equal. eapply snapshot_read_det; [|by apply (applied_read tx ttl Hst Httl st2 cts); [..|apply Ha2]].
    apply read_committed_snapshot; [done|apply (txn_inv_separated K HK); [done|]|done].
    rewrite Forall_forall in HKs. auto.
  - intros key ts HKk Hts Hor. apply (read_same e e2 st st2); [done|done|by apply (txn_inv_separated K HK)..|done|].
    intros r. eapply (txn_steps_snapshot K HK); [done|done|done|by eapply (txn_steps_app K)|].
    by apply txn_requests_above.
Qed.

(** C4. A transaction whose prewrite fails fails with a conflict and leaves no
    trace: every lock is as before and every reader sees what it saw before. *)
Theorem failed_prewrite_leaves_no_trace (e : E) st start_ts muts tx ttl cts e' err :
  Transaction_new start_ts muts = Ok tx →
  holds e st → txn_inv K st → txn_sized tx ttl cts → Forall (λ m, K (mu_key m)) muts →
  prewrite tx ttl e = (e', Err err) →
  ∃ st', holds e' st' ∧ txn_inv K st' ∧
    (∀ key, K key → st_get st' CfLock key = st_get st CfLock key) ∧
    (∀ key ts, K key → is_u64 ts → read_committed key ts e' = read_committed key ts e).
Proof.
  intros Hnew Hh Hi Hsz HKs Hpw. destruct muts as [|first rest]; [done|].
  injection Hnew as <-. destruct Hsz as [Hst [Hlt Hc] Httl Hp Hs1 _ Hs3]. cbn [tx_mutations tx_start_ts tx_primary] in *.
  set (tx := mkTransaction start_ts (mu_key first) (first :: rest)) in *.
  assert (Hacq0 : acquired_inv K tx st st []) by (by constructor; try constructor).
  destruct (prewrite_rest_any K HK tx ttl Hst Httl Hp (first :: rest) st [] e st Hh Hi HKs Hs1 Hacq0)
    as (e1 & st1 & acq & r & ops & Ep & Hh1 & Hst1 & Hall & Hacq & Hsub).
  pose proof (txn_steps_inv K HK _ _ _ Hi Hst1) as Hi1.
  assert (Hrun : e' = rollback_all (tx_start_ts tx) acq e1).
  { rewrite (prewrite_rest_eq tx ttl first rest), Ep in Hpw by done. destruct r; congruence. }
  destruct (rollback_all_ok K HK tx acq e1 st1 Hh1 Hi1) as (st2 & Hh2 & Hst2 & Hl2);
    [apply Hacq..| |].
  { apply Forall_forall. intros k [?%elem_of_nil|]%Hsub; [done|auto]. }
  subst e'. pose proof (txn_steps_inv K HK _ _ _ Hi1 Hst2) as Hi2.
  exists st2. split_and!; [done|done| |].
  - intros key HKk. destruct (decide (key ∈ acq)) as [Hin|Hnin].
    + destruct Hacq as [_ _ Hfr _ _]. rewrite Forall_forall in Hfr, Hl2.
      by rewrite (Hfr _ Hin), (Hl2 _ Hin).
    + rewrite <- (ks_lock _ _ _ (aq_other _ _ _ _ _ Hacq key Hnin)).
      apply (txn_steps_other K HK _ _ _ key Hi1 Hst2). apply Forall_fmap, Forall_forall. cbn.
      by intros k Hin ->.
  - intros key ts HKk Hts.
    apply (read_same e _ st st2); [done|done|by apply (txn_inv_separated K HK)..|done|].
    intros r' Hr'. eapply (txn_steps_snapshot K HK); [exact Hi1|done|done|exact Hst2| |].
    + by apply Forall_fmap, Forall_forall.
    + eapply (txn_steps_snapshot K HK); [exact Hi|done|done|exact Hst1| |exact Hr'].
      by apply prewrites_never_commit.
Qed.
End theorems.
