(* ===== verification/Scan.v ===== *)
(** The merging iterator and the range scans ([engine/src/scan.rs]), against the
    engine interface of [EngineApi]. *)

From stdpp Require Import base list numbers strings gmap.
From Stdlib Require Import Strings.Byte.
From S2P Require Import Prelude Encoding Keys Batch Memtable Db DbCorrect EngineApi.
From S2P Require Import Mvcc.

(** [cursor] is the next key to seek from; [None] once exhausted. *)
Record MergeIter := mkMergeIter {
  it_cf : Cf;
  it_cursor : option bytes;
}.

(** [(key, commit_ts, value, is_delete)]. *)
Abbreviation VersionedKv := (bytes * N * bytes * bool)%type.

Section scan.
Context {E : Type} `{EngineOps E}.

Definition iter_cf (cf : Cf) (from : bytes) : MergeIter := mkMergeIter cf (Some from).

Definition merge_next (it : MergeIter) (e : E) : option (Result (bytes * MemValue)) * MergeIter :=
  match it_cursor it with
  | None => (None, it)
  | Some from =>
    match seek_cf_raw e (it_cf it) from with
    | Ok (Some (key, value)) => (Some (Ok (key, value)), mkMergeIter (it_cf it) (Some (key ++ [x00])))
    | Ok None => (None, mkMergeIter (it_cf it) None)
    | Err err => (Some (Err err), mkMergeIter (it_cf it) None)
    end
  end.

(** [!end.is_empty() && user_key >= end]. *)
Definition past_end (end_ user_key : bytes) : bool :=
  match end_ with [] => false | _ => bytes_leb end_ user_key end.

(** The read a scan resolves each user key with. *)
Definition scan_read (fuel : nat) (resolve : bool) (user_key : bytes) (read_ts : N)
    : EM E (option bytes) :=
  if resolve then mvcc_get fuel user_key read_ts
  else em_read (mvcc_get_unresolved user_key read_ts).

Definition is_locked_err (e : Error) : bool :=
  match e with KeyIsLocked _ => true | _ => false end.

Fixpoint scan_loop (fuel : nat) (it : MergeIter) (end_ : bytes) (read_ts : N) (limit : nat)
    (resolve : bool) (seen : list bytes) (out : list (bytes * bytes)) (e : E)
    : E * Result (list (bytes * bytes)) :=
  match fuel with
  | O => (e, Err out_of_fuel)
  | S fuel' =>
    match merge_next it e with
    | (None, _) => (e, Ok out)
    | (Some (Err err), _) => (e, Err err)
    | (Some (Ok (wkey, _)), it) =>
      match decode_data_key wkey with
      | None => scan_loop fuel' it end_ read_ts limit resolve seen out e
      | Some (user_key, _) =>
        if past_end end_ user_key then (e, Ok out) else
        if decide (user_key ∈ seen) then scan_loop fuel' it end_ read_ts limit resolve seen out e else
        let seen := user_key :: seen in
        match scan_read fuel' resolve user_key read_ts e with
        | (e, Ok (Some value)) =>
          let out := out ++ [(user_key, value)] in
          if negb (limit =? 0)%nat && (limit <=? length out)%nat then (e, Ok out)
          else scan_loop fuel' it end_ read_ts limit resolve seen out e
        | (e, Ok None) => scan_loop fuel' it end_ read_ts limit resolve seen out e
        | (e, Err err) =>
          if is_locked_err err then scan_loop fuel' it end_ read_ts limit resolve seen out e
          else (e, Err err)
        end
      end
    end
  end.

Definition scan (fuel : nat) (start end_ : bytes) (read_ts : N) (limit : nat) (resolve : bool)
    : EM E (list (bytes * bytes)) := λ e,
  scan_loop fuel (iter_cf CfWrite start) end_ read_ts limit resolve [] [] e.

(** The version a Write-CF entry of [user_key] stands for: [None] is a [continue]. *)
Definition version_of (user_key : bytes) (commit_ts : N) (wval : MemValue) (e : E)
    : Result (option VersionedKv) :=
  match wval with
  | MDelete => Ok None
  | MPut sb =>
    match decode_write_value sb with
    | None => Ok None
    | Some start_ts =>
      vb ← get_cf_raw e CfDefault (encode_data_key user_key start_ts);
      match vb with
      | None => Ok None
      | Some vb =>
        match Value_decode vb with
        | Some (VPut v) => Ok (Some (user_key, commit_ts, v, false))
        | Some VDelete => Ok (Some (user_key, commit_ts, [], true))
        | None => Ok None
        end
      end
    end
  end.

Fixpoint scan_versions_loop (fuel : nat) (it : MergeIter) (end_ : bytes) (limit : nat)
    (seen : list bytes) (out : list VersionedKv) (e : E) : Result (list VersionedKv) :=
  match fuel with
  | O => Err out_of_fuel
  | S fuel' =>
    match merge_next it e with
    | (None, _) => Ok out
    | (Some (Err err), _) => Err err
    | (Some (Ok (wkey, wval)), it) =>
      match decode_data_key wkey with
      | None => scan_versions_loop fuel' it end_ limit seen out e
      | Some (user_key, commit_ts) =>
        if past_end end_ user_key then Ok out else
        if decide (user_key ∈ seen) then scan_versions_loop fuel' it end_ limit seen out e else
        let seen := user_key :: seen in
        o ← version_of user_key commit_ts wval e;
        match o with
        | None => scan_versions_loop fuel' it end_ limit seen out e
        | Some v =>
          let out := out ++ [v] in
          if negb (limit =? 0)%nat && (limit <=? length out)%nat then Ok out
          else scan_versions_loop fuel' it end_ limit seen out e
        end
      end
    end
  end.

Definition scan_versions (fuel : nat) (start end_ : bytes) (limit : nat) (e : E)
    : Result (list VersionedKv) :=
  scan_versions_loop fuel (iter_cf CfWrite start) end_ limit [] [] e.
End scan.
