(* ===== verification/ScanCorrect.v ===== *)
(** Range scans return exactly the visible keys of the range, in order. *)

From stdpp Require Import base list numbers strings gmap.
From Stdlib Require Import Strings.Byte.
From S2P Require Import Prelude Encoding Keys Batch OrdMap Memtable Db DbCorrect.
From S2P Require Import EngineApi Mvcc MvccCorrect Scan.

#[local] Arguments encode_data_key : simpl never.

(** A string between [a] and an extension of [a] extends [a]. *)
Lemma bytes_between_prefix a b x : bytes_lt a b → bytes_le b (a ++ x) → a `prefix_of` b.
Proof.
  unfold bytes_lt, bytes_le. revert b. induction a as [|c a IH]; intros [|d b]; cbn; try done.
  - intros _ _. apply prefix_nil.
  - rewrite (N.compare_antisym (Byte.to_N c)).
    destruct (Byte.to_N c ?= Byte.to_N d) eqn:E; cbn; [|done|done].
    apply N.compare_eq, byte_to_N_inj in E as ->. intros. apply prefix_cons. by apply IH.
Qed.

Lemma bytes_le_app a x : bytes_le a (a ++ x).
Proof.
  unfold bytes_le. rewrite <- (app_nil_r a) at 1. rewrite bytes_cmp_app_l. by destruct x.
Qed.

(** What a [limit] leaves of an answer ([0] = unlimited). *)
Definition limited {A} (limit : nat) (l : list A) : list A := if (limit =? 0)%nat then l else take limit l.

Section scan.
Context {E : Type} `{EngineLaws E}.
Context (K : bytes → Prop) (HK : ∀ a b, K a → K b → a = b ∨ apart a b).
Context (e : E) (st : Store) (Hh : holds e st).
Context (Hst : ∀ k, is_Some (st CfWrite k) → ∃ uk c, k = encode_data_key uk c ∧ is_u64 c ∧ K uk).
Context (start end_ : bytes) (Hstart : ∀ uk, K uk → uk `prefix_of` start → uk = start).

(** What a scan reports for a user key. *)
Context {V : Type} (reported : bytes → V → Prop).

Definition in_range (uk : bytes) : Prop := bytes_le start uk ∧ past_end end_ uk = false.
Definition stored (uk : bytes) : Prop := ∃ c, is_u64 c ∧ is_Some (commit_at st uk c).

(** Versions of different keys in use are ordered as the keys. *)
Lemma data_key_order a b x y :
  K a → K b → a ≠ b → bytes_lt (encode_data_key a x) (encode_data_key b y) ↔ bytes_lt a b.
Proof.
  intros Ha Hb Hne. destruct (HK a b Ha Hb) as [?|Hap]; [done|].
  unfold bytes_lt, encode_data_key. by destruct (bytes_cmp_apart a b (encode_ts x) (encode_ts y) Hap) as [-> _].
Qed.

Record scan_inv (from : bytes) (seen : list bytes) (out : list (bytes * V)) : Prop := mkScanInv {
  si_from : bytes_le start from;
  si_seen : ∀ uk, uk ∈ seen → K uk ∧ in_range uk ∧ stored uk ∧
    ∃ c, bytes_lt (encode_data_key uk c) from;
  si_all : ∀ uk c, K uk → is_u64 c → is_Some (commit_at st uk c) → bytes_le start uk →
    bytes_lt (encode_data_key uk c) from → uk ∈ seen;
  si_out : ∀ uk v, (uk, v) ∈ out ↔ uk ∈ seen ∧ reported uk v;
  si_sorted : ksorted out;
}.

Definition scan_done (out : list (bytes * V)) : Prop :=
  ksorted out ∧ ∀ uk v, (uk, v) ∈ out ↔ K uk ∧ in_range uk ∧ stored uk ∧ reported uk v.

Lemma scan_inv_done from seen out :
  scan_inv from seen out →
  (∀ uk, K uk → in_range uk → stored uk → uk ∈ seen) → scan_done out.
Proof.
  intros [_ Hs _ Ho Hso] Hall. split; [done|]. intros uk v. rewrite Ho. split.
  - intros [Hin Hr]. destruct (Hs _ Hin) as (? & ? & ? & _). done.
  - intros (HKu & Hr & Hstd & Hrd'). auto.
Qed.

Lemma scan_done_unique out out' : scan_done out → scan_done out' → out = out'.
Proof.
  intros [Hs Hd] [Hs' Hd']. apply ksorted_elem_ext; [done|done|]. intros [uk v]. by rewrite Hd, Hd'.
Qed.

Lemma past_end_mono a b : bytes_lt a b → past_end end_ a = true → past_end end_ b = true.
Proof.
  unfold past_end. destruct end_; [done|]. rewrite !bytes_leb_le. intros Hlt Hle.
  apply bytes_lt_le. by eapply bytes_le_lt_trans.
Qed.

(** The least stored key at or above the cursor. *)
Lemma scan_landing from k v :
  bytes_le start from → st CfWrite k = Some v → bytes_le from k →
  ∃ uk c, decode_data_key k = Some (uk, c) ∧ k = encode_data_key uk c ∧ is_u64 c ∧ K uk ∧
    bytes_le start uk.
Proof.
  intros Hf Hk Hle. destruct (Hst k) as (uk & c & -> & Hc & HKu); [by rewrite Hk|].
  exists uk, c. rewrite decode_encode_data_key by done. split_and!; try done.
  apply bytes_nlt_le. intros Hlt.
  assert (Hp : uk `prefix_of` start).
  { eapply bytes_between_prefix; [done|]. by eapply bytes_le_trans. }
  rewrite (Hstart uk HKu Hp) in Hlt. by apply bytes_lt_irrefl in Hlt.
Qed.

(** The newest commit record of a user key. *)
Definition newest (uk : bytes) (c : N) (w : MemValue) : Prop :=
  is_u64 c ∧ commit_at st uk c = Some w ∧
  ∀ c', is_u64 c' → is_Some (commit_at st uk c') → c' ≤ c.

(** The first record met of a user key is its newest. *)
Lemma landing_newest from seen out uk c v :
  scan_inv from seen out → uk ∉ seen → commit_at st uk c = Some v → is_u64 c → K uk → bytes_le start uk →
  (∀ k', is_Some (st CfWrite k') → bytes_le from k' → bytes_le (encode_data_key uk c) k') →
  newest uk c v.
Proof.
  intros Hi Hn Hk Hc HKu Hsu Hmin. split_and!; [done|done|]. intros c' Hc' Hs.
  apply (data_key_le uk); [done|done|]. apply Hmin; [done|]. apply bytes_nlt_le. intros Hlt.
  apply Hn. by eapply (si_all _ _ _ Hi).
Qed.

Lemma scan_inv_step from seen out uk c v o :
  (uk ∉ seen → ∀ v, reported uk v ↔ o = Some v) →
  scan_inv from seen out → commit_at st uk c = Some v → is_u64 c → K uk → bytes_le start uk →
  past_end end_ uk = false → bytes_le from (encode_data_key uk c) →
  (∀ k', is_Some (st CfWrite k') → bytes_le from k' → bytes_le (encode_data_key uk c) k') →
  let out' := if decide (uk ∈ seen) then out
              else match o with Some v => out ++ [(uk, v)] | None => out end in
  scan_inv (encode_data_key uk c ++ [x00]) (if decide (uk ∈ seen) then seen else uk :: seen) out'.
Proof.
  intros Hrep [Hf Hs Ha Ho Hso] Hk Hc HKu Hsu Hpe Hle Hmin out'.
  set (seen' := if decide (uk ∈ seen) then seen else uk :: seen).
  assert (Hin' : ∀ x, x ∈ seen' ↔ x = uk ∨ x ∈ seen).
  { intros x. unfold seen'. case_decide; [|by rewrite elem_of_cons]. split; [by right|].
    by intros [->|?]. }
  assert (Hadv : bytes_lt (encode_data_key uk c) (encode_data_key uk c ++ [x00]))
    by apply bytes_succ, bytes_le_refl.
  constructor.
  - eapply bytes_le_trans; [exact Hf|]. eapply bytes_le_trans; [exact Hle|]. by apply bytes_lt_le.
  - intros x [->|Hin]%Hin'.
    + split_and!; [done|done|by exists c; rewrite Hk|by exists c].
    + destruct (Hs x Hin) as (? & ? & ? & c' & Hlt). split_and!; try done. exists c'.
      eapply bytes_lt_le_trans; [done|]. eapply bytes_le_trans; [done|]. by apply bytes_lt_le.
  - intros x c' HKx Hc' Hsome Hsx Hlt. apply Hin'.
    destruct (decide (bytes_lt (encode_data_key x c') from)) as [Hb|Hb]; [right; eauto|].
    apply bytes_nlt_le in Hb. specialize (Hmin _ Hsome Hb). left.
    apply bytes_nle_lt in Hlt as Hlt'. destruct (decide (encode_data_key uk c = encode_data_key x c')) as [Eq|Ne].
    { by apply encode_data_key_inj in Eq as [-> _]. }
    destruct Hlt'. apply bytes_succ. by apply bytes_le_lt_eq in Hmin as [?|?].
  - intros x v'. rewrite Hin'. unfold out'. case_decide as Hd.
    + rewrite Ho. split; [intros [? ?]; auto|]. intros [[->|?] ?]; auto.
    + specialize (Hrep Hd).
      destruct o as [w|]; rewrite ?elem_of_app, ?list_elem_of_singleton, ?Ho; split.
      * intros [[? ?]|[= -> ->]]; [by auto|]. split; [by left|]. by apply Hrep.
      * intros [[->|?] Hx]; [|by auto]. right. by apply Hrep in Hx as [= ->].
      * intros [? ?]; by auto.
      * intros [[->|?] Hx]; [|by auto]. by apply Hrep in Hx.
  - unfold out'. case_decide as Hd; [done|]. destruct o as [w|]; [|done].
    apply ksorted_app. split_and!; [done|apply ksorted_cons; split; [constructor|by intros ?? ?%elem_of_nil]|].
    intros k1 v1 k2 v2 Hin1 Hin2. apply list_elem_of_singleton in Hin2 as [= -> ->].
    apply Ho in Hin1 as [Hin1 _]. destruct (Hs _ Hin1) as (HK1 & _ & _ & c1 & Hlt1).
    apply (data_key_order k1 uk c1 c); [done|done|by intros ->|]. by eapply bytes_lt_le_trans.
Qed.

(** Nothing in range is left once the cursor passes the range or the keys. *)
Lemma scan_finished from seen out o :
  scan_inv from seen out → is_seek (st CfWrite) from o →
  match o with
  | Some (k, _) => ∃ uk c, k = encode_data_key uk c ∧ K uk ∧ past_end end_ uk = true
  | None => True
  end → scan_done out.
Proof.
  intros Hi Hk Ho. apply (scan_inv_done _ _ _ Hi). intros x HKx [Hsx Hpx] (c' & Hc' & Hsome).
  apply (si_all _ _ _ Hi x c'); try done. apply bytes_nle_lt. intros Hle.
  destruct o as [[k v]|]; cbn in Hk.
  - destruct Hk as (Hkv & Hfk & Hmin). destruct Ho as (uk & c & -> & HKu & Hpe).
    specialize (Hmin _ Hsome Hle).
    destruct (decide (uk = x)) as [->|Hne]; [congruence|].
    apply bytes_le_lt_eq in Hmin as [Hlt|Eq].
    + apply (data_key_order uk x) in Hlt; [|done..]. by rewrite (past_end_mono _ _ Hlt Hpe) in Hpx.
    + unfold encode_data_key in Eq. apply app_inj_2 in Eq as [? _]; [done|].
      by rewrite !length_encode_ts.
  - rewrite Hk in Hsome by done. by destruct Hsome.
Qed.

(** The cursor of a finished step is past one more stored key. *)
Lemma scan_progress keys fuel from uk c :
  (∀ k, is_Some (st CfWrite k) → k ∈ keys) → is_Some (commit_at st uk c) →
  bytes_le from (encode_data_key uk c) → (length (filter (bytes_le from) keys) < S fuel)%nat →
  (length (filter (bytes_le (encode_data_key uk c ++ [x00])) keys) < fuel)%nat.
Proof.
  intros Hfin Hk Hle Hf.
  cut (length (filter (bytes_le (encode_data_key uk c ++ [x00])) keys) < length (filter (bytes_le from) keys))%nat;
    [lia|].
  apply (length_filter_strict _ _ _ (encode_data_key uk c)).
  - intros x Hx. eapply bytes_le_trans; [exact Hle|]. apply bytes_lt_le. by apply bytes_succ.
  - by apply Hfin.
  - done.
  - intros Hn%bytes_succ. by apply bytes_lt_irrefl in Hn.
Qed.

Lemma scan_inv_start : scan_inv start [] [].
Proof.
  constructor; [apply bytes_le_refl|by intros ? ?%elem_of_nil| | |constructor].
  - intros uk c _ _ _ Hsu Hlt. exfalso. apply (bytes_lt_irrefl start).
    eapply bytes_le_lt_trans; [exact Hsu|]. eapply bytes_le_lt_trans; [apply bytes_le_app|exact Hlt].
  - intros uk v. rewrite !elem_of_nil. tauto.
Qed.

(** One turn of a scan loop: it ends with everything reported, or it lands on the
    least stored key and the invariant holds at the next cursor. *)
Lemma scan_turn keys fuel from seen out :
  (∀ k, is_Some (st CfWrite k) → k ∈ keys) → scan_inv from seen out →
  (length (filter (bytes_le from) keys) < S fuel)%nat →
  (merge_next (E:=E) (mkMergeIter CfWrite (Some from)) e = (None, mkMergeIter CfWrite None) ∧ scan_done out) ∨
  ∃ uk c w, let k := encode_data_key uk c in
    merge_next (mkMergeIter CfWrite (Some from)) e = (Some (Ok (k, w)), mkMergeIter CfWrite (Some (k ++ [x00]))) ∧
    decode_data_key k = Some (uk, c) ∧ K uk ∧
    if past_end end_ uk then scan_done out
    else (uk ∉ seen → newest uk c w) ∧
      (length (filter (bytes_le (k ++ [x00])) keys) < fuel)%nat ∧
      ∀ o, (uk ∉ seen → ∀ v, reported uk v ↔ o = Some v) →
        scan_inv (k ++ [x00]) (if decide (uk ∈ seen) then seen else uk :: seen)
          (if decide (uk ∈ seen) then out else match o with Some v => out ++ [(uk, v)] | None => out end).
Proof.
  intros Hfin Hi Hf. unfold merge_next. cbn [it_cursor it_cf].
  destruct (holds_seek e st CfWrite from Hh) as (o & -> & Hk).
  pose proof (scan_finished from seen out o Hi Hk) as Hfinish.
  destruct o as [[k v]|]; [|left; auto]. right. destruct Hk as (Hkv & Hle & Hmin).
  destruct (scan_landing from k v (si_from _ _ _ Hi) Hkv Hle) as (uk & c & Hd & -> & Hc & HKu & Hsu).
  exists uk, c, v. split_and!; [done|done|done|]. destruct (past_end end_ uk) eqn:Hpe; [apply Hfinish; eauto|].
  split_and!.
  - intros Hn. by eapply landing_newest.
  - by eapply scan_progress.
  - intros o Ho. by eapply scan_inv_step.
Qed.
End scan.

(** * Snapshot scans *)

Section snapshot.
Context {E : Type} `{EngineLaws E}.
Context (K : bytes → Prop) (HK : ∀ a b, K a → K b → a = b ∨ apart a b).
Context (e : E) (st : Store) (Hh : holds e st).
Context (Hst : ∀ k, is_Some (st CfWrite k) → ∃ uk c, k = encode_data_key uk c ∧ is_u64 c ∧ K uk).
Context (start end_ : bytes) (Hstart : ∀ uk, K uk → uk `prefix_of` start → uk = start).
Context (read_ts : N).

Abbreviation rd uk := (mvcc_get_unresolved (E:=E) uk read_ts e).
Context (Hrd : ∀ uk, K uk → ∀ err, rd uk = Err err → is_locked_err err = true).

Definition visible (uk v : bytes) : Prop := rd uk = Ok (Some v).

Lemma scan_loop_ok keys :
  (∀ k, is_Some (st CfWrite k) → k ∈ keys) →
  ∀ fuel from seen out, scan_inv K st start end_ visible from seen out →
  (length (filter (bytes_le from) keys) < fuel)%nat →
  ∃ out', scan_loop fuel (mkMergeIter CfWrite (Some from)) end_ read_ts 0 false seen out e
    = (e, Ok out') ∧ scan_done K st start end_ visible out'.
Proof.
  intros Hfin. induction fuel as [|fuel IH]; intros from seen out Hi Hf; [lia|]. cbn [scan_loop].
  destruct (scan_turn K HK e st Hh Hst start end_ Hstart visible keys fuel from seen out Hfin Hi Hf)
    as [[-> Hd]|(uk & c & w & -> & -> & HKu & Hrest)]; [eauto|].
  destruct (past_end end_ uk); [eauto|]. destruct Hrest as (_ & Hlen & Hnext).
  specialize (Hnext match rd uk with Ok o => o | Err _ => None end).
  unfold visible in Hnext. case_decide; [apply IH; [apply Hnext; done|done]|].
  change (scan_read fuel false uk read_ts e) with (e, rd uk).
  destruct (rd uk) as [[v|]|err] eqn:Er; cbn [negb Nat.eqb andb].
  - apply IH; [apply Hnext; intros _ v'; split; congruence|done].
  - apply IH; [apply Hnext; intros _ v'; split; congruence|done].
  - rewrite (Hrd uk HKu err Er). apply IH; [apply Hnext; intros _ v'; split; congruence|done].
Qed.

(** A limit cuts the unlimited answer. *)
Lemma scan_loop_extends fuel it seen out full e' :
  scan_loop fuel it end_ read_ts 0 false seen out e = (e', Ok full) → e' = e ∧ out `prefix_of` full.
Proof.
  revert it seen out. induction fuel as [|fuel IH]; intros it seen out; cbn [scan_loop]; [done|].
  destruct (merge_next it e) as [[[[wkey w]|err]|] it']; [|done|by intros [= <- <-]].
  destruct (decode_data_key wkey) as [[uk c]|]; [|apply IH].
  destruct (past_end end_ uk); [by intros [= <- <-]|]. case_decide; [apply IH|].
  change (scan_read fuel false uk read_ts e) with (e, rd uk).
  destruct (rd uk) as [[v|]|err]; cbn [negb Nat.eqb andb]; [|apply IH|destruct (is_locked_err err); [apply IH|done]].
  intros [-> Hr]%IH. split; [done|]. etrans; [|exact Hr]. by apply prefix_app_r.
Qed.

Lemma scan_loop_limit limit fuel it seen out full e' :
  (length out < limit)%nat →
  scan_loop fuel it end_ read_ts 0 false seen out e = (e', Ok full) →
  scan_loop fuel it end_ read_ts limit false seen out e = (e', Ok (take limit full)).
Proof.
  revert it seen out. induction fuel as [|fuel IH]; intros it seen out Hl; cbn [scan_loop]; [done|].
  destruct (merge_next it e) as [[[[wkey w]|err]|] it'];
    [|done|by intros [= -> ->]; rewrite take_ge by lia].
  destruct (decode_data_key wkey) as [[uk c]|]; [|by apply IH].
  destruct (past_end end_ uk); [by intros [= -> ->]; rewrite take_ge by lia|]. case_decide; [by apply IH|].
  change (scan_read fuel false uk read_ts e) with (e, rd uk).
  destruct (rd uk) as [[v|]|err]; cbn [negb Nat.eqb andb];
    [|by apply IH|destruct (is_locked_err err); [by apply IH|done]].
  intros Hr. rewrite (proj2 (Nat.eqb_neq limit 0)) by lia. cbn [negb andb].
  destruct (Nat.leb_spec limit (length (out ++ [(uk, v)]))) as [Hle|Hlt]; [|by apply IH].
  rewrite length_app in Hle. cbn in Hle.
  destruct (scan_loop_extends _ _ _ _ _ _ Hr) as [-> [tail ->]].
  rewrite take_app_le, take_ge by (rewrite length_app; cbn; lia). done.
Qed.

(** Fuel for every record is enough. *)
Lemma scan_correct_fuel keys :
  (∀ k, is_Some (st CfWrite k) → k ∈ keys) →
  ∃ out, scan_done K st start end_ visible out ∧ ∀ fuel limit, (length keys < fuel)%nat →
    scan fuel start end_ read_ts limit false e = (e, Ok (limited limit out)).
Proof.
  intros Hkeys. pose proof (length_filter (bytes_le start) keys) as Hlen.
  assert (Hrun : ∀ fuel, (length keys < fuel)%nat → ∃ out, scan fuel start end_ read_ts 0 false e = (e, Ok out) ∧
    scan_done K st start end_ visible out).
  { intros fuel Hn. apply (scan_loop_ok keys); [done|apply scan_inv_start|lia]. }
  destruct (Hrun (S (length keys)) ltac:(lia)) as (out & _ & Hd). exists out. split; [done|].
  intros fuel limit Hn. destruct (Hrun fuel Hn) as (out' & Hr & Hd').
  rewrite (scan_done_unique _ _ _ _ _ _ _ Hd Hd'). unfold limited.
  destruct (Nat.eqb_spec limit 0) as [->|]; [done|]. apply scan_loop_limit; [cbn; lia|done].
Qed.

Lemma scan_correct_run :
  ∃ n out, scan_done K st start end_ visible out ∧ ∀ fuel limit, (n ≤ fuel)%nat →
    scan fuel start end_ read_ts limit false e = (e, Ok (limited limit out)).
Proof.
  destruct (holds_finite e st CfWrite Hh) as [keys Hkeys].
  destruct (scan_correct_fuel keys Hkeys) as (out & Hd & Hr). exists (S (length keys)), out. split; [done|].
  intros fuel limit Hn. apply Hr. lia.
Qed.
End snapshot.

(** * Version scans *)

(** The version a commit record stands for. *)
Definition version_at (st : Store) (uk : bytes) (c : N) (w : MemValue) : option (N * bytes * bool) :=
  match w with
  | MDelete => None
  | MPut sb =>
    s ← decode_write_value sb;
    vb ← st_get st CfDefault (encode_data_key uk s);
    v ← Value_decode vb;
    Some match v with VPut v => (c, v, false) | VDelete => (c, [], true) end
  end.

(** The latest version of a user key, read through its newest commit record. *)
Definition latest_version (st : Store) (uk : bytes) (x : N * bytes * bool) : Prop :=
  ∃ c w, newest st uk c w ∧ version_at st uk c w = Some x.

Definition versioned (p : bytes * (N * bytes * bool)) : VersionedKv := (p.1, p.2.1.1, p.2.1.2, p.2.2).

Lemma newest_unique st uk c w c' w' : newest st uk c w → newest st uk c' w' → c = c' ∧ w = w'.
Proof.
  intros (Hc & Hw & Hm) (Hc' & Hw' & Hm').
  assert (c = c') as -> by (apply N.le_antisymm; [apply Hm'|apply Hm]; rewrite ?Hw, ?Hw'; done).
  split; [done|]. congruence.
Qed.

Section versions.
Context {E : Type} `{EngineLaws E}.
Context (K : bytes → Prop) (HK : ∀ a b, K a → K b → a = b ∨ apart a b).
Context (e : E) (st : Store) (Hh : holds e st).
Context (Hst : ∀ k, is_Some (st CfWrite k) → ∃ uk c, k = encode_data_key uk c ∧ is_u64 c ∧ K uk).
Context (start end_ : bytes) (Hstart : ∀ uk, K uk → uk `prefix_of` start → uk = start).

Lemma version_of_store uk c w :
  version_of uk c w e = Ok ((λ x, versioned (uk, x)) <$> version_at st uk c w).
Proof.
  unfold version_of, version_at. destruct w as [sb|]; [|done].
  destruct (decode_write_value sb) as [s|]; [|done]. cbn.
  rewrite (holds_get e st) by done. cbn. destruct (st_get st _ _) as [vb|]; [|done]. cbn.
  by destruct (Value_decode vb) as [[v|]|].
Qed.

Lemma scan_versions_loop_ok keys :
  (∀ k, is_Some (st CfWrite k) → k ∈ keys) →
  ∀ fuel from seen out, scan_inv K st start end_ (latest_version st) from seen out →
  (length (filter (bytes_le from) keys) < fuel)%nat →
  ∃ out', scan_versions_loop fuel (mkMergeIter CfWrite (Some from)) end_ 0 seen (versioned <$> out) e
    = Ok (versioned <$> out') ∧ scan_done K st start end_ (latest_version st) out'.
Proof.
  intros Hfin. induction fuel as [|fuel IH]; intros from seen out Hi Hf; [lia|]. cbn [scan_versions_loop].
  destruct (scan_turn K HK e st Hh Hst start end_ Hstart (latest_version st) keys fuel from seen out Hfin Hi Hf)
    as [[-> Hd]|(uk & c & w & -> & -> & HKu & Hrest)]; [eauto|].
  destruct (past_end end_ uk); [eauto|]. destruct Hrest as (Hnew & Hlen & Hnext).
  specialize (Hnext (version_at st uk c w)). case_decide as Hd.
  { apply IH; [by apply Hnext|done]. }
  rewrite version_of_store. cbn [mbind result_mbind].
  specialize (Hnext ltac:(intros _; intros x; split;
    [intros (c' & w' & Hn & Hx); by destruct (newest_unique _ _ _ _ _ _ Hn (Hnew Hd)) as [-> ->]
    |intros Hx; exists c, w; auto])).
  destruct (version_at st uk c w) as [x|]; cbn [fmap option_fmap option_map negb Nat.eqb andb]; [|by apply IH].
  change [versioned (uk, x)] with (versioned <$> [(uk, x)]). rewrite <- fmap_app. by apply IH.
Qed.

Lemma scan_versions_extends fuel it seen out full :
  scan_versions_loop fuel it end_ 0 seen out e = Ok full → out `prefix_of` full.
Proof.
  revert it seen out. induction fuel as [|fuel IH]; intros it seen out; cbn [scan_versions_loop]; [done|].
  destruct (merge_next it e) as [[[[wkey w]|err]|] it']; [|done|by intros [= <-]].
  destruct (decode_data_key wkey) as [[uk c]|]; [|apply IH].
  destruct (past_end end_ uk); [by intros [= <-]|]. case_decide; [apply IH|].
  rewrite version_of_store. cbn [mbind result_mbind].
  destruct (version_at st uk c w) as [x|]; cbn [fmap option_fmap option_map negb Nat.eqb andb]; [|apply IH].
  intros Hr%IH. etrans; [|exact Hr]. by apply prefix_app_r.
Qed.

Lemma scan_versions_loop_limit limit fuel it seen out full :
  (length out < limit)%nat →
  scan_versions_loop fuel it end_ 0 seen out e = Ok full →
  scan_versions_loop fuel it end_ limit seen out e = Ok (take limit full).
Proof.
  revert it seen out. induction fuel as [|fuel IH]; intros it seen out Hl; cbn [scan_versions_loop]; [done|].
  destruct (merge_next it e) as [[[[wkey w]|err]|] it'];
    [|done|by intros [= ->]; rewrite take_ge by lia].
  destruct (decode_data_key wkey) as [[uk c]|]; [|by apply IH].
  destruct (past_end end_ uk); [by intros [= ->]; rewrite take_ge by lia|]. case_decide; [by apply IH|].
  rewrite version_of_store. cbn [mbind result_mbind].
  destruct (version_at st uk c w) as [x|]; cbn [fmap option_fmap option_map negb Nat.eqb andb]; [|by apply IH].
  intros Hr. rewrite (proj2 (Nat.eqb_neq limit 0)) by lia. cbn [negb andb].
  destruct (Nat.leb_spec limit (length (out ++ [versioned (uk, x)]))) as [Hle|Hlt]; [|by apply IH].
  rewrite length_app in Hle. cbn in Hle.
  destruct (scan_versions_extends _ _ _ _ _ Hr) as [tail ->].
  rewrite take_app_le, take_ge by (rewrite length_app; cbn; lia). done.
Qed.

(** A version scan terminates and returns the latest version of every key in use of
    the range, in key order, cut at the limit. *)
Lemma scan_versions_run :
  ∃ n out, scan_done K st start end_ (latest_version st) out ∧ ∀ fuel limit, (n ≤ fuel)%nat →
    scan_versions fuel start end_ limit e = Ok (limited limit (versioned <$> out)).
Proof.
  destruct (holds_finite e st CfWrite Hh) as [keys Hkeys].
  set (n := S (length (filter (bytes_le start) keys))).
  assert (Hrun : ∀ fuel, (n ≤ fuel)%nat → ∃ out, scan_versions fuel start end_ 0 e = Ok (versioned <$> out) ∧
    scan_done K st start end_ (latest_version st) out).
  { intros fuel Hn. apply (scan_versions_loop_ok keys Hkeys fuel start [] []); [apply scan_inv_start|unfold n in Hn; lia]. }
  destruct (Hrun n ltac:(lia)) as (out & _ & Hd). exists n, out. split; [done|].
  intros fuel limit Hn. destruct (Hrun fuel Hn) as (out' & Hr & Hd').
  rewrite (scan_done_unique _ _ _ _ _ _ _ Hd Hd'). unfold limited.
  destruct (Nat.eqb_spec limit 0) as [->|]; [done|]. apply scan_versions_loop_limit; [cbn; lia|done].
Qed.
End versions.

(** C10. A range scan (not resolving locks) terminates and returns, in key order and
    without duplicates, exactly the keys in use of [start, end) that have a
    committed version, each with the value a point read at the snapshot returns,
    cut at the limit; keys with no visible value or held by a transaction are
    skipped. *)
Theorem scan_returns_range {E : Type} `{EngineLaws E} (K : bytes → Prop) (e : E) st start end_ ts :
  (∀ a b, K a → K b → a = b ∨ apart a b) →
  holds e st →
  (∀ k, is_Some (st CfWrite k) → ∃ uk c, k = encode_data_key uk c ∧ is_u64 c ∧ K uk) →
  (∀ uk, K uk → uk `prefix_of` start → uk = start) →
  (∀ uk err, K uk → mvcc_get_unresolved uk ts e = Err err → is_locked_err err = true) →
  ∃ n out,
    (∀ fuel limit, (n ≤ fuel)%nat →
      scan fuel start end_ ts limit false e = (e, Ok (limited limit out))) ∧
    ksorted out ∧
    ∀ uk v, (uk, v) ∈ out ↔
      K uk ∧ (bytes_le start uk ∧ past_end end_ uk = false) ∧
      (∃ c, is_u64 c ∧ is_Some (commit_at st uk c)) ∧
      mvcc_get_unresolved uk ts e = Ok (Some v).
Proof.
  intros HK Hh Hst Hstart Hrd.
  destruct (scan_correct_run K HK e st Hh Hst start end_ Hstart ts ltac:(eauto)) as (n & out & [Hs Hd] & Hr).
  exists n, out. split_and!; done.
Qed.
