(* ===== verification/EngineTheorems.v ===== *)
(** The engine's remaining correctness statements, component by component, concrete runs at
    which the theorems apply, and behaviours outside their hypotheses. *)

From stdpp Require Import base list numbers strings gmap relations.
From Stdlib Require Import Strings.Byte.
From S2P Require Import Prelude Crc Encoding Keys Batch OrdMap Memtable Sstable SstableCorrect Wal Manifest.
From S2P Require Import Db DbCorrect DbDurable Engine EngineApi Mvcc MvccCorrect Percolator TxnCorrect Scan.
From S2P Require Import ScanCorrect.

(** * Codecs *)

(** C15. A batch survives its WAL encoding, also with bytes after it; a data key
    decodes to the user key and timestamp it was built from, and versions of one user
    key are stored newest first. *)
Theorem engine_codecs_roundtrip b s user_key ts1 ts2 :
  batch_wf b → is_u64 ts1 → is_u64 ts2 →
  batch_decode (batch_encode b ++ s) = Some b ∧
  decode_data_key (encode_data_key user_key ts1) = Some (user_key, ts1) ∧
  (bytes_lt (encode_data_key user_key ts1) (encode_data_key user_key ts2) ↔ ts2 < ts1).
Proof.
  intros Hb H1 H2. split_and!; [by apply batch_decode_encode_app|by apply decode_encode_data_key|by apply data_key_lt].
Qed.

Lemma engine_codecs_roundtrip_witness :
  batch_decode (batch_encode (batch_put batch_new CfWrite [x61] [x62; x63]) ++ [xff])
    = Some (batch_put batch_new CfWrite [x61] [x62; x63]) ∧
  decode_data_key (encode_data_key [x61] 7) = Some ([x61], 7) ∧
  (bytes_lt (encode_data_key [x61] 7) (encode_data_key [x61] 3) ↔ 3 < 7).
Proof. apply engine_codecs_roundtrip; [repeat constructor; by vm_compute|by vm_compute..]. Defined.

Section storage.
Context `{Crc32cLaws} {M : Type} `{SkipMapLaws MemValue M}.

(** C13. Flushing a memtable of at most 1 GiB never panics, yields a file that
    opens, and every point lookup and every seek on the table answers exactly as
    the memtable it was written from. *)
Theorem sstable_equals_memtable (m : Memtable M) n :
  mt_bounded m → (N.of_nat (mt_size m) ≤ 1073741824)%N →
  ∃ file r, write_sst m = Some file ∧ sst_open file n = Ok r ∧ r_file_no r = n ∧
    (∀ cf k, sst_get r cf k = Ok (mt_get_cf m cf k)) ∧
    (∀ cf from, sst_seek r cf from = Ok (mt_seek_cf m cf from)).
Proof.
  intros Hb Hs. destruct (write_sst_correct m n) as (file & Hw & Ho).
  destruct (Ho (write_sst_sized m file Hb Hs Hw)) as (r & ? & ? & ? & ?). exists file, r. done.
Qed.

(** Replay after a crash that cuts a well-formed log at an arbitrary byte
    yields exactly the records whose frames survived whole. *)
Lemma replay_torn_log recs n :
  Forall rec_wf recs → (n ≤ length (concat (rec_frame <$> recs)))%nat →
  ∃ k, (replay (take n (concat (rec_frame <$> recs)))).1 = take k recs ∧ (k ≤ length recs)%nat ∧
    ∀ j, (j ≤ length recs)%nat →
      (length (concat (rec_frame <$> take j recs)) ≤ n ↔ j ≤ k)%nat.
Proof.
  intros Hwf Hn. destruct (replay_cut recs n Hwf Hn) as (k & Hk & Hkn & Hmax & Hr).
  exists k. split_and!; [done|done|]. intros j Hj. split; [by apply Hmax|]. intros Hjk.
  etransitivity; [|exact Hkn]. replace (take j recs) with (take j (take k recs))
    by (rewrite take_take; f_equal; lia).
  apply length_frames_take.
Qed.

Lemma append_error c op n b :
  op_batch c op = inl b →
  (process_op c op (Some n)).1.2 = Err (Io "write") ∧ (process_op c op (Some n)).2 = false ∧
  (∀ cf k, get_cf (process_op c op (Some n)).1.1 cf k = get_cf c cf k) ∧
  (∀ cf from, seek_cf (process_op c op (Some n)).1.1 cf from = seek_cf c cf from).
Proof. intros Hb. unfold process_op. rewrite Hb. by cbn. Qed.

(** C14. A failed append answers with the error, applies nothing and leaves every
    read as it was; when the group's fsync fails no request of the group is
    acknowledged. *)
Theorem io_errors_ack_nothing (c : Core M) op n b group f :
  op_batch c op = inl b →
  f_sync f = true → o_fsync_mode (c_opts c) ≠ FsyncNone → (process_ops c group 0 f).2 = true →
  (process_op c op (Some n)).1.2 = Err (Io "write") ∧ (process_op c op (Some n)).2 = false ∧
  (∀ cf k, get_cf (process_op c op (Some n)).1.1 cf k = get_cf c cf k) ∧
  (∀ cf from, seek_cf (process_op c op (Some n)).1.1 cf from = seek_cf c cf from) ∧
  ∀ r, r ∈ (process_group c group f).2 → ∃ e, r = Err e.
Proof.
  intros Hb Hf Hm Happ. destruct (append_error c op n b Hb) as (G1 & G2 & G3 & G4).
  split_and!; [done..|]. intros r. pose proof (process_ops_files c group 0 f) as (Eo & _).
  unfold process_group. destruct (process_ops c group 0 f) as [[c1 rs] app].
  cbn [fst snd] in *. subst app. rewrite Hf, Eo.
  assert (∃ w, wal_sync (c_wal c1).2 (o_fsync_mode (c_opts c)) true = (w, Err (Io "fsync"))) as [w ->]
    by (destruct (o_fsync_mode (c_opts c)); [by eexists|by eexists|done]).
  cbn. rewrite list_elem_of_fmap. intros (x & -> & _). destruct x; eauto.
Qed.
End storage.

(** * Transactions *)

Section transactions.
Context {E : Type} `{EngineLaws E}.

(** C11. Snapshot reads are repeatable: whatever the protocol does to any key in the
    meantime, a read at [ts] keeps its answer as long as the key is not committed
    at or below [ts]. *)
Theorem snapshot_reads_repeatable (K : bytes → Prop) (e e' : E) st st' ops key ts :
  (∀ a b, K a → K b → a = b ∨ apart a b) →
  holds e st → holds e' st' → txn_inv K st → txn_steps K st ops st' →
  K key → is_u64 ts → Forall (commits_above key ts) ops →
  read_committed key ts e' = read_committed key ts e.
Proof.
  intros HK Hh Hh' Hi Hs Hk Hts Hab.
  apply (read_same e e' st st'); [done|done|by apply (txn_inv_separated K HK)| |done|].
  - apply (txn_inv_separated K HK); [|done]. by eapply (txn_steps_inv K HK).
  - intros r. by eapply (txn_steps_snapshot K HK).
Qed.

(** The commit lookup of a transaction terminates and is exact: it reports the
    newest commit record of the key that points at [start_ts], and none exactly
    when there is none. *)
Lemma txn_status_exact (e : E) st primary start_ts :
  holds e st → separated st primary → st_get st CfLock primary = None →
  ∃ n status, (∀ fuel, (n ≤ fuel)%nat →
      check_txn_status_peek fuel primary start_ts e = Ok status) ∧
    match status with
    | Committed c => committed st primary start_ts c ∧
        ∀ c', committed st primary start_ts c' → c' ≤ c
    | RolledBack => ∀ c, ¬ committed st primary start_ts c
    | Locked _ => False
    end.
Proof.
  intros Hh Hsep Hl. destruct (find_commit_ts_spec e st primary start_ts Hh Hsep) as (n & o & Hf & Ho).
  exists n, (match o with Some c => Committed c | None => RolledBack end). split.
  - intros fuel Hn. unfold check_txn_status_peek, primary_lock, write_status.
    rewrite (holds_get e st CfLock primary Hh), Hl. cbn. rewrite (Hf fuel Hn). cbn. by destruct o.
  - by destruct o.
Qed.
End transactions.

(** C12. In every store that prewrites, resolutions and commits of primaries reach from the empty
    one, a commit record is newer than the transaction it points at, a locked key's transaction
    has not committed on that key, and its value exists; and the value a commit record points
    at exists, except where [commit_primary], which does not check, ran after its lock was
    gone ([late]). *)
Theorem protocol_invariant (K : bytes → Prop) ps late st :
  (∀ a b, K a → K b → a = b ∨ apart a b) →
  protocol_run K (λ _ _, None) ps late st →
  (∀ key s c, committed st key s c →
    s < c ∧ (is_Some (st_get st CfDefault (encode_data_key key s)) ∨ (key, s, c) ∈ late)) ∧
  (∀ key l, lock_of st key = Some l →
    (∀ c, ¬ committed st key (lock_start_ts l) c) ∧
    is_Some (st_get st CfDefault (encode_data_key key (lock_start_ts l)))).
Proof.
  intros HK Hs. pose proof (protocol_run_inv K HK _ _ _ _ _ (txn_inv_empty K) Hs) as Hi. split.
  - intros key s c Hc. split; [exact (ti_after K _ st Hi _ _ _ Hc)|].
    destruct (ti_valued K _ st Hi _ _ _ Hc) as [?|[[]|?]]; [by left|by right].
  - intros key l Hl. split; [exact (ti_uncommitted K _ st Hi _ _ Hl)|exact (ti_lock_value K _ st Hi _ _ Hl)].
Qed.

(** Conflict detection is exact: a prewrite is accepted if and only if the key
    is unlocked and has no commit at or after the transaction's start. *)
Lemma prewrite_conflict_exact st p newest :
  separated st (pw_key p) → is_u64 (pw_start_ts p) →
  is_seek (st CfWrite) (encode_data_key (pw_key p) u64_max) newest →
  spec_op st (OpPrewrite p) (inl (build_prewrite_batch p)) ↔
  (∀ c, is_u64 c → pw_start_ts p ≤ c → commit_at st (pw_key p) c = None) ∧
  st_get st CfLock (pw_key p) = None.
Proof. intros Hsep Hts Hk. apply prewrite_accepted_iff; [done|done|eauto]. Qed.

(** * Concrete runs *)

Lemma pair_snd_eq {A B} (p : A * B) b : p.2 = b → p = (p.1, b).
Proof. by destruct p as [a b']; intros <-. Qed.

Definition ex_K (k : bytes) : Prop := k = [x61] ∨ k = [x62].
Lemma ex_K_apart a b : ex_K a → ex_K b → a = b ∨ apart a b.
Proof.
  intros [->| ->] [->| ->]; [by left|right|right|by left]; split; intros [x Hx]; discriminate.
Qed.

Lemma ex_core0_fields :
  c_immutable ex_c0 = [] ∧ c_sstables ex_c0 = [] ∧ c_active ex_c0 = Memtable_new.
Proof. split_and!; vm_compute; reflexivity. Qed.

Lemma ex_holds0 : holds ex_c0 empty_store.
Proof.
  destruct ex_core0_fields as (Ei & Es & Ea). exists []. split_and!.
  - constructor; [done|by rewrite Es].
  - rewrite Ea. apply mt_bounded_new.
  - by rewrite Ea.
  - by vm_compute.
  - intros cf k. unfold view, levels. rewrite Ea, Ei. cbn [rev fmap list_fmap app mem_levels_get].
    by rewrite mt_get_new.
Qed.

Definition ex_muts : list Mutation := [Mutation_put [x61] [x31]; Mutation_delete [x62]].
Definition ex_tx : Transaction := mkTransaction 5 [x61] ex_muts.

Lemma ex_sized : txn_sized ex_tx 100 7.
Proof.
  constructor; [by vm_compute|by vm_compute|by vm_compute|by vm_compute|..].
  - by repeat constructor.
  - by repeat constructor.
  - intros k Hk. cbn in Hk. rewrite !elem_of_cons in Hk.
    by destruct Hk as [->|[->|Hk%elem_of_nil]].
Qed.

Lemma ex_keys : Forall (λ m, ex_K (mu_key m)) ex_muts.
Proof. constructor; [by left|]. constructor; [by right|done]. Qed.
Lemma ex_nodup : NoDup (mu_key <$> ex_muts).
Proof. by apply (bool_decide_unpack _). Qed.

Lemma transaction_commits_witness :
  ∃ e1 e2 st2, prewrite ex_tx 100 ex_c0 = (e1, Ok tt) ∧ commit ex_tx 7 e1 = (e2, Ok tt) ∧
    holds e2 st2 ∧ txn_inv ex_K st2 ∧
    (∀ m ts fuel, m ∈ ex_muts → is_u64 ts → 7 ≤ ts →
      mvcc_get fuel (mu_key m) ts e2 = (e2, Ok (Value_into_option (mu_value m)))) ∧
    (∀ key ts, ex_K key → is_u64 ts → ts < 7 ∨ key ∉ mu_key <$> ex_muts →
      read_committed key ts e2 = read_committed key ts ex_c0).
Proof.
  apply (transaction_commits_atomically ex_K ex_K_apart ex_c0 empty_store 5 ex_muts ex_tx 100 7).
  - reflexivity.
  - apply ex_holds0.
  - apply txn_inv_empty.
  - apply ex_sized.
  - apply ex_keys.
  - apply ex_nodup.
  - repeat constructor.
Defined.

(** A transaction that writes the same key twice conflicts with itself. *)
Definition ex_tx2 : Transaction :=
  mkTransaction 5 [x61] [Mutation_put [x61] [x31]; Mutation_put [x61] [x32]].

Lemma ex_sized2 : txn_sized ex_tx2 100 7.
Proof.
  constructor; [by vm_compute|by vm_compute|by vm_compute|by vm_compute|..].
  - by repeat constructor.
  - by repeat constructor.
  - intros k Hk. cbn in Hk. rewrite !elem_of_cons in Hk.
    by destruct Hk as [->|[->|Hk%elem_of_nil]].
Qed.

Lemma failed_prewrite_witness :
  ∃ st', holds (prewrite ex_tx2 100 ex_c0).1 st' ∧ txn_inv ex_K st' ∧
    (∀ key, ex_K key → st_get st' CfLock key = st_get empty_store CfLock key) ∧
    (∀ key ts, ex_K key → is_u64 ts →
      read_committed key ts (prewrite ex_tx2 100 ex_c0).1 = read_committed key ts ex_c0).
Proof.
  apply (failed_prewrite_leaves_no_trace ex_K ex_K_apart ex_c0 empty_store 5
    (tx_mutations ex_tx2) ex_tx2 100 7 _ (Conflict "key is already locked by another transaction")).
  - reflexivity.
  - apply ex_holds0.
  - apply txn_inv_empty.
  - apply ex_sized2.
  - constructor; [by left|]. constructor; [by left|done].
  - apply pair_snd_eq. vm_compute. reflexivity.
Defined.

(** One committed version, written directly. *)
Definition ex_b : WriteBatch :=
  batch_put (batch_put batch_new CfDefault (encode_data_key [x61] 5) (Value_encode (VPut [x31])))
    CfWrite (encode_data_key [x61] 7) (encode_write_value 5).
Definition ex_e1 : Core (gmap bytes MemValue) := (submit ex_c0 (OpWrite ex_b)).1.
Definition ex_st1 : Store := apply_batch empty_store ex_b.

Lemma ex_holds1 : holds ex_e1 ex_st1.
Proof.
  destruct (holds_write ex_c0 empty_store (OpWrite ex_b) ex_b ex_holds0) as (e' & seq & Hs & Hh);
    [by vm_compute|constructor|].
  unfold ex_e1. by rewrite Hs.
Qed.

Lemma ex_st1_keys k : is_Some (ex_st1 CfWrite k) → k = encode_data_key [x61] 7.
Proof.
  assert (E : ex_st1 CfWrite k = st_set (apply_batch empty_store (mkBatch [WPut CfDefault
    (encode_data_key [x61] 5) (Value_encode (VPut [x31]))])) CfWrite (encode_data_key [x61] 7)
    (MPut (encode_write_value 5)) CfWrite k)
    by apply (apply_batch_ops empty_store [_] (WPut CfWrite _ _)).
  rewrite E. unfold st_set. case_decide as Hd; [by destruct Hd as [_ <-]|].
  intros Hs. by apply is_Some_None in Hs.
Qed.

Lemma scan_returns_range_witness :
  ∃ n out, (∀ fuel limit, (n ≤ fuel)%nat →
      scan fuel [] [] 9 limit false ex_e1 = (ex_e1, Ok (limited limit out))) ∧
    ksorted out ∧
    ∀ uk v, (uk, v) ∈ out ↔
      ex_K uk ∧ (bytes_le [] uk ∧ past_end [] uk = false) ∧
      (∃ c, is_u64 c ∧ is_Some (commit_at ex_st1 uk c)) ∧
      mvcc_get_unresolved uk 9 ex_e1 = Ok (Some v).
Proof.
  apply (scan_returns_range ex_K ex_e1 ex_st1 [] [] 9 ex_K_apart ex_holds1).
  - intros k Hk. apply ex_st1_keys in Hk as ->. exists [x61], 7.
    split_and!; [done|by vm_compute|by left].
  - by intros uk [->| ->] [x Hx].
  - intros uk err [->| ->] He; vm_compute in He; discriminate.
Defined.

Definition ex_pw : PrewriteSpec := mutation_spec 5 100 [x61] (Mutation_put [x61] [x31]).
Definition ex_st2 : Store := apply_batch empty_store (build_prewrite_batch ex_pw).
Definition ex_e2 : Core (gmap bytes MemValue) := (submit ex_c0 (OpPrewrite ex_pw)).1.

Lemma ex_pw_ok : spec_op empty_store (OpPrewrite ex_pw) (inl (build_prewrite_batch ex_pw)).
Proof. by apply (spec_prewrite_ok _ _ None). Qed.
Lemma ex_step : txn_steps ex_K empty_store [OpPrewrite ex_pw] ex_st2.
Proof.
  eapply txn_cons; [|by constructor]. split; [split; [by left|by vm_compute]|].
  eexists. split; [apply ex_pw_ok|done].
Qed.
Lemma ex_holds2 : holds ex_e2 ex_st2.
Proof.
  destruct (holds_write ex_c0 empty_store (OpPrewrite ex_pw) (build_prewrite_batch ex_pw) ex_holds0)
    as (e' & seq & Hs & Hh); [by vm_compute|apply ex_pw_ok|].
  unfold ex_e2. by rewrite Hs.
Qed.

Lemma snapshot_reads_repeatable_witness :
  read_committed [x61] 9 ex_e2 = read_committed [x61] 9 ex_c0.
Proof.
  apply (snapshot_reads_repeatable ex_K ex_c0 ex_e2 empty_store ex_st2 [OpPrewrite ex_pw]).
  - apply ex_K_apart.
  - apply ex_holds0.
  - apply ex_holds2.
  - apply txn_inv_empty.
  - apply ex_step.
  - by left.
  - by vm_compute.
  - by repeat constructor.
Defined.

(** The transaction prewrites and commits its primary, whose lock is there: its record has its value. *)
Definition ex_tx5 : Transaction := mkTransaction 5 [x61] [Mutation_put [x61] [x31]].
Definition ex_st3 : Store := apply_batch ex_st2 (commit_primary_batch ex_tx5 7).

Lemma protocol_invariant_witness :
  holds_primary ex_st2 ex_tx5 = true ∧ lock_of ex_st3 [x61] = None ∧
  committed ex_st3 [x61] 5 7 ∧ is_Some (st_get ex_st3 CfDefault (encode_data_key [x61] 5)).
Proof.
  assert (Hc : committed ex_st3 [x61] 5 7).
  { split; [by vm_compute|]. exists (encode_write_value 5). split; by vm_compute. }
  split; [by vm_compute|]. split; [by vm_compute|]. split; [exact Hc|].
  destruct (protocol_invariant ex_K [PRequest (OpPrewrite ex_pw); PCommitPrimary ex_tx5 7] [] ex_st3) as [Hv _].
  - apply ex_K_apart.
  - eapply run_request; [split; [split; [by left|by vm_compute]|eexists; split; [apply ex_pw_ok|done]]|].
    change (@nil (bytes * N * N)) with (if holds_primary (apply_batch empty_store (build_prewrite_batch ex_pw)) ex_tx5
      then [] else [(tx_primary ex_tx5, tx_start_ts ex_tx5, 7)]).
    apply run_commit; [by left|by vm_compute|by vm_compute|by vm_compute|by constructor].
  - destruct (Hv _ _ _ Hc) as [_ [Hs|Hin]]; [exact Hs|]. by apply elem_of_nil in Hin.
Defined.

Lemma txn_status_exact_witness :
  ∃ n status, (∀ fuel, (n ≤ fuel)%nat →
      check_txn_status_peek fuel [x61] 5 ex_e1 = Ok status) ∧
    match status with
    | Committed c => committed ex_st1 [x61] 5 c ∧ ∀ c', committed ex_st1 [x61] 5 c' → c' ≤ c
    | RolledBack => ∀ c, ¬ committed ex_st1 [x61] 5 c
    | Locked _ => False
    end.
Proof.
  apply (txn_status_exact ex_e1 ex_st1 [x61] 5 ex_holds1).
  - intros k Hk. apply ex_st1_keys in Hk as ->. exists [x61], 7.
    split_and!; [done|by vm_compute|by left].
  - reflexivity.
Defined.

Lemma prewrite_conflict_exact_witness :
  spec_op empty_store (OpPrewrite ex_pw) (inl (build_prewrite_batch ex_pw)) ↔
  (∀ c, is_u64 c → pw_start_ts ex_pw ≤ c → commit_at empty_store (pw_key ex_pw) c = None) ∧
  st_get empty_store CfLock (pw_key ex_pw) = None.
Proof.
  apply (prewrite_conflict_exact empty_store ex_pw None).
  - intros k Hk. by apply is_Some_None in Hk.
  - by vm_compute.
  - done.
Defined.

Definition ex_mem : Memtable (gmap bytes MemValue) := mt_apply Memtable_new 1 ex_b.

Lemma sstable_equals_memtable_witness :
  ∃ file r, write_sst ex_mem = Some file ∧ sst_open file 3 = Ok r ∧ r_file_no r = 3 ∧
    (∀ cf k, sst_get r cf k = Ok (mt_get_cf ex_mem cf k)) ∧
    (∀ cf from, sst_seek r cf from = Ok (mt_seek_cf ex_mem cf from)).
Proof.
  apply (sstable_equals_memtable ex_mem 3).
  - apply mt_bounded_apply, mt_bounded_new.
  - by vm_compute.
Defined.

Definition ex_recs : list (N * bytes) := [(1, [x61]); (2, [x62; x63])].

Lemma replay_torn_log_witness :
  ∃ k, (replay (take 20 (concat (rec_frame <$> ex_recs)))).1 = take k ex_recs ∧
    (k ≤ length ex_recs)%nat ∧
    ∀ j, (j ≤ length ex_recs)%nat →
      (length (concat (rec_frame <$> take j ex_recs)) ≤ 20 ↔ j ≤ k)%nat.
Proof.
  apply (replay_torn_log ex_recs 20).
  - repeat constructor; by vm_compute.
  - vm_compute. lia.
Defined.

Definition sync_fault : Faults := mkFaults (λ _, None) true false false false.

Lemma io_errors_witness :
  (process_op ex_c0 (OpWrite ex_b) (Some 3%nat)).1.2 = Err (Io "write") ∧
  ∃ e, Err (A:=N) (Corruption "group fsync failed") = Err e.
Proof.
  destruct (io_errors_ack_nothing ex_c0 (OpWrite ex_b) 3 ex_b [OpWrite ex_b] sync_fault)
    as (H1 & _ & _ & _ & H2); [reflexivity|reflexivity|discriminate|vm_compute; reflexivity|].
  split; [exact H1|]. apply H2.
  replace ((process_group ex_c0 [OpWrite ex_b] sync_fault).2)
    with [Err (A:=N) (Corruption "group fsync failed")] by (vm_compute; reflexivity).
  left.
Defined.

(** * Findings

    Behaviours of the engine outside the hypotheses of its theorems, evaluated on
    concrete runs: user keys that are prefixes of one another, commits of
    rolled-back transactions, and I/O failures. *)

Abbreviation Eng := (Core (gmap bytes MemValue)).

Definition big_opts : Options := mkOptions 4096 Fsync.
Definition fresh (opts : Options) : Eng := from_ok ex_dummy (engine_open opts empty_disk).

(** Prewrite and commit a transaction. *)
Definition run_tx (start cts : N) (muts : list Mutation) (e : Eng) : Eng :=
  match Transaction_new start muts with
  | Ok tx => (commit tx cts (prewrite tx 100 e).1).1
  | Err _ => e
  end.

(** * Keys that are prefixes of one another *)

Definition key_a : bytes := [x61].
Definition key_ab : bytes := [x61; x62].

(** [ab] committed at 2, [a] committed at 10. *)
Definition prefix_run : Eng :=
  run_tx 3 10 [Mutation_put key_a [x32]] (run_tx 1 2 [Mutation_put key_ab [x31]] (fresh big_opts)).

(** A transaction started at 5 may prewrite [a] although [a] was committed at 10:
    the seek for the newest commit of [a] lands on [ab]. *)
Lemma prefix_key_hides_conflict :
  read_committed key_a 20 prefix_run = Ok (Some [x32]) ∧
  is_ok (prewrite_one key_a (VPut [x33]) key_a 5 100 prefix_run).2 = true.
Proof. split; vm_compute; reflexivity. Qed.

(** The commit of [a] is not found: its transaction counts as rolled back. *)
Lemma prefix_key_hides_commit :
  check_txn_status_peek 10 key_a 3 prefix_run = Ok RolledBack.
Proof. vm_compute. reflexivity. Qed.

(** A scan from [ab] returns [a]; a scan up to [ab] misses [a]. *)
Lemma prefix_key_scan :
  (scan 10 key_ab [] 20 0 false prefix_run).2 = Ok [(key_ab, [x31]); (key_a, [x32])] ∧
  (scan 10 [] key_ab 20 0 false prefix_run).2 = Ok [].
Proof. split; vm_compute; reflexivity. Qed.

(** * Committing a rolled-back transaction *)

Definition old_tx : Transaction := mkTransaction 5 key_a [Mutation_put key_a [x32]].
Definition expired_run : Eng :=
  (check_txn_status 10 key_a 5 200
    (prewrite old_tx 50 (run_tx 1 2 [Mutation_put key_a [x31]] (fresh big_opts))).1).1.

(** The primary's lock expired and was rolled back; [commit_primary] still
    succeeds, and its record hides the older committed value. *)
Lemma commit_after_rollback :
  read_committed key_a 150 expired_run = Ok (Some [x31]) ∧
  is_ok (commit_primary old_tx 120 expired_run).2 = true ∧
  read_committed key_a 150 (commit_primary old_tx 120 expired_run).1 = Ok None.
Proof. split_and!; vm_compute; reflexivity. Qed.

(** * I/O failures *)

Definition put (k v : bytes) : Op := OpWrite (batch_put batch_new CfDefault k v).
Definition sst_fault : Faults := mkFaults (λ _, None) false false true false.
Definition append_fault : Faults :=
  mkFaults (λ i, if (i =? 0)%nat then Some 5%nat else None) false false false false.

(** The first flush fails, the second succeeds. *)
Definition failed_flush_run (k1 k2 : bytes) : Eng :=
  (process_group (process_group (fresh ex_opts) [put k1 [x31]] sst_fault).1 [put k2 [x32]] no_faults).1.

(** Both writes were acknowledged; the read returns the older one. *)
Lemma failed_flush_stale_read :
  (process_group (process_group (fresh ex_opts) [put key_a [x31]] sst_fault).1
    [put key_a [x32]] no_faults).2 = [Ok 2] ∧
  get_cf (failed_flush_run key_a key_a) CfDefault key_a = Ok (Some [x31]).
Proof. split; vm_compute; reflexivity. Qed.

(** The first, acknowledged write is gone after a restart. *)
Lemma failed_flush_loses_write :
  (process_group (fresh ex_opts) [put key_a [x31]] sst_fault).2 = [Ok 1] ∧
  get_cf (from_ok ex_dummy (engine_open ex_opts (crash_full (disk_of (failed_flush_run key_a key_ab)))))
    CfDefault key_a = Ok None.
Proof. split; vm_compute; reflexivity. Qed.

(** A failed append leaves part of its frame; the write acknowledged after it is
    gone after a restart. *)
Lemma failed_append_loses_later_write :
  let c := process_group (fresh big_opts) [put key_a [x31]; put key_ab [x32]] append_fault in
  c.2 = [Err (Io "write"); Ok 2] ∧
  get_cf c.1 CfDefault key_ab = Ok (Some [x32]) ∧
  get_cf (from_ok ex_dummy (engine_open big_opts (crash_full (disk_of c.1)))) CfDefault key_ab = Ok None.
Proof. split_and!; vm_compute; reflexivity. Qed.

(** A failed fsync reports an error; the write is visible. *)
Lemma failed_fsync_visible :
  let c := process_group (fresh big_opts) [put key_a [x31]]
    (mkFaults (λ _, None) true false false false) in
  c.2 = [Err (Corruption "group fsync failed")] ∧
  get_cf c.1 CfDefault key_a = Ok (Some [x31]).
Proof. split; vm_compute; reflexivity. Qed.

(** A crash before the fsync may keep part of a group: of two writes in the group,
    the first survives and the second does not. *)
Definition cut_group : Eng :=
  (process_ops (fresh big_opts) [put key_a [x31]; put key_ab [x32]] 0 no_faults).1.1.
Definition cut_disk : Disk :=
  mkDisk None [((c_wal cut_group).1, mkWalWriter (take 40 (wf_data (c_wal cut_group).2)) 40 40)] [].

Lemma unsynced_group_partly_survives :
  crash (disk_of cut_group) cut_disk ∧
  let c := from_ok ex_dummy (engine_open big_opts cut_disk) in
  get_cf c CfDefault key_a = Ok (Some [x31]) ∧ get_cf c CfDefault key_ab = Ok None.
Proof.
  split; [|split; vm_compute; reflexivity]. split_and!; [reflexivity|reflexivity|].
  constructor; [|constructor]. split; [reflexivity|]. exists 40%nat. split; [|reflexivity].
  vm_compute. lia.
Qed.
