(* ===== verification/RaftMessage.v ===== *)
(** Raft messages, log entries and the membership-change codec
    ([raft/src/message.rs]).  Terms and indices are unbounded naturals; the codec
    keeps its [u64] and [u32] fields. *)

From stdpp Require Import base list numbers.
From Stdlib Require Import Strings.Byte.
From S2P Require Import Prelude.

Inductive EntryType := Normal | ConfChangeEntry.

#[export] Instance entrytype_eq_dec : EqDecision EntryType.
Proof. solve_decision. Defined.

Record Entry := mkEntry {
  e_term : N;
  e_index : N;
  e_type : EntryType;
  e_data : bytes;
}.

#[export] Instance entry_eq_dec : EqDecision Entry.
Proof. solve_decision. Defined.

Definition Entry_normal (term index : N) (data : bytes) : Entry := mkEntry term index Normal data.

Inductive ConfChange := AddNode (id : N) | RemoveNode (id : N) | AddLearner (id : N).

#[export] Instance confchange_eq_dec : EqDecision ConfChange.
Proof. solve_decision. Defined.

Definition cc_node_id (cc : ConfChange) : N :=
  match cc with AddNode id | RemoveNode id | AddLearner id => id end.

Definition cc_op (cc : ConfChange) : byte :=
  match cc with AddNode _ => x01 | RemoveNode _ => x02 | AddLearner _ => x03 end.

Definition push_u64s (b : bytes) (l : list N) : bytes := fold_left (λ b v, b ++ u64_be v) l b.

Definition cc_encode (cc : ConfChange) (voters learners : list N) : bytes :=
  let b := [cc_op cc] in
  let b := b ++ u64_be (cc_node_id cc) in
  let b := b ++ u32_be (as_u32 (N.of_nat (length voters))) in
  let b := push_u64s b voters in
  let b := b ++ u32_be (as_u32 (N.of_nat (length learners))) in
  push_u64s b learners.

(** The [for _ in 0..n] loop: the values read and the position after them. *)
Fixpoint read_u64s (bytes : bytes) (p n : nat) : option (list N * nat) :=
  match n with
  | O => Some ([], p)
  | S n' =>
    if (length bytes <? p + 8)%nat then None else
    let v := be_N (slice p (p + 8) bytes) in
    '(rest, q) ← read_u64s bytes (p + 8) n';
    Some (v :: rest, q)
  end.

(** The learner section is absent in entries written before learners existed. *)
Definition cc_decode (bytes : bytes) : option (ConfChange * list N * list N) :=
  if (length bytes <? 13)%nat then None else
  let id := be_N (slice 1 9 bytes) in
  cc ← match head bytes with
       | Some x01 => Some (AddNode id)
       | Some x02 => Some (RemoveNode id)
       | Some x03 => Some (AddLearner id)
       | _ => None
       end;
  let nv := N.to_nat (be_N (slice 9 13 bytes)) in
  '(voters, p) ← read_u64s bytes 13 nv;
  if (p + 4 <=? length bytes)%nat then
    let nl := N.to_nat (be_N (slice p (p + 4) bytes)) in
    '(learners, _) ← read_u64s bytes (p + 4) nl;
    Some (cc, voters, learners)
  else Some (cc, voters, []).

Record HardState := mkHardState {
  hs_current_term : N;
  hs_voted_for : option N;
}.
Definition HardState_default : HardState := mkHardState 0 None.

Inductive MessageBody :=
  | RequestVote (last_log_index last_log_term : N)
  | RequestVoteResp (granted : bool)
  | AppendEntries (prev_log_index prev_log_term : N) (entries : list Entry)
      (leader_commit read_round : N)
  | AppendEntriesResp (success : bool) (match_index read_round : N)
  | InstallSnapshot (last_included_index last_included_term : N) (conf_state learners : list N)
      (data : bytes)
  | InstallSnapshotResp (match_index : N)
  | TimeoutNow.

Record Message := mkMessage {
  m_from : N;
  m_to : N;
  m_term : N;
  m_body : MessageBody;
}.

(** * Codec round trip *)

Lemma push_u64s_app b l : push_u64s b l = b ++ concat (u64_be <$> l).
Proof.
  unfold push_u64s. revert b. induction l as [|n l IH]; intros b; [by rewrite app_nil_r|].
  rewrite fmap_cons. cbn [fold_left concat]. by rewrite IH, <- app_assoc.
Qed.

Lemma length_u64s l : length (concat (u64_be <$> l)) = (8 * length l)%nat.
Proof.
  induction l as [|n l IH]; [done|]. rewrite fmap_cons. cbn [concat length].
  rewrite length_app, length_be_bytes, IH. lia.
Qed.

Lemma read_u64s_bytes p l s :
  Forall (λ n, is_u64 n) l →
  read_u64s (p ++ concat (u64_be <$> l) ++ s) (length p) (length l)
  = Some (l, (length p + 8 * length l)%nat).
Proof.
  intros Hl. revert p. induction Hl as [|n l Hn Hl IH]; intros p.
  { cbn. by rewrite Nat.add_0_r. }
  rewrite fmap_cons. cbn [concat length read_u64s]. rewrite <- app_assoc.
  set (buf := p ++ u64_be n ++ _).
  assert (length p + 8 ≤ length buf)%nat by (unfold buf; rewrite !length_app, length_be_bytes; lia).
  destruct (Nat.ltb_spec (length buf) (length p + 8)); [lia|].
  assert (slice (length p) (length p + 8) buf = u64_be n) as ->
    by (apply slice_app'; by rewrite ?length_be_bytes).
  specialize (IH (p ++ u64_be n)). rewrite <- app_assoc, length_app, length_be_bytes in IH.
  unfold buf. rewrite IH, be_N_u64 by done. cbn. do 2 f_equal. lia.
Qed.

Definition members_wf (l : list N) : Prop :=
  is_u32 (N.of_nat (length l)) ∧ Forall (λ n, is_u64 n) l.

Lemma cc_decode_encode cc voters learners :
  is_u64 (cc_node_id cc) → members_wf voters → members_wf learners →
  cc_decode (cc_encode cc voters learners) = Some (cc, voters, learners).
Proof.
  intros Hid [Hvl Hv] [Hll Hl]. unfold cc_encode. rewrite !push_u64s_app.
  set (o := [cc_op cc]). set (i := u64_be (cc_node_id cc)).
  set (nv := u32_be (as_u32 (N.of_nat (length voters)))).
  set (nl := u32_be (as_u32 (N.of_nat (length learners)))).
  set (vs := concat (u64_be <$> voters)). set (ls := concat (u64_be <$> learners)).
  assert (Hi : length i = 8%nat) by apply length_be_bytes.
  assert (Hnv : length nv = 4%nat) by apply length_be_bytes.
  assert (Hnl : length nl = 4%nat) by apply length_be_bytes.
  assert (Hvs : length vs = (8 * length voters)%nat) by apply length_u64s.
  rewrite <- !app_assoc. set (b := o ++ i ++ nv ++ vs ++ nl ++ ls).
  assert (Hb : length b = (17 + 8 * length voters + length ls)%nat).
  { unfold b. rewrite !length_app, Hvs, Hi, Hnv, Hnl. cbn [length o]. lia. }
  assert (Eid : be_N (slice 1 9 b) = cc_node_id cc).
  { unfold b. rewrite (slice_app' 1 9 o i) by (cbn [length o]; lia). by apply be_N_u64. }
  assert (Env : be_N (slice 9 13 b) = N.of_nat (length voters)).
  { unfold b. rewrite (app_assoc o).
    rewrite (slice_app' 9 13 (o ++ i) nv) by (rewrite !length_app; cbn [length o]; lia).
    unfold nv. by rewrite as_u32_id, be_N_u32. }
  assert (Erv : read_u64s b 13 (length voters) = Some (voters, (13 + 8 * length voters)%nat)).
  { pose proof (read_u64s_bytes (o ++ i ++ nv) voters (nl ++ ls) Hv) as R.
    rewrite !length_app, Hi, Hnv in R. cbn [length o Nat.add] in R.
    unfold b, vs. by rewrite <- !app_assoc in R. }
  assert (Enl : be_N (slice (13 + 8 * length voters) (13 + 8 * length voters + 4) b)
    = N.of_nat (length learners)).
  { unfold b. rewrite (app_assoc o), (app_assoc (o ++ i)), (app_assoc ((o ++ i) ++ nv)).
    rewrite (slice_app' _ _ (((o ++ i) ++ nv) ++ vs) nl)
      by (rewrite !length_app; cbn [length o]; lia).
    unfold nl. by rewrite as_u32_id, be_N_u32. }
  assert (Erl : read_u64s b (13 + 8 * length voters + 4) (length learners)
    = Some (learners, (13 + 8 * length voters + 4 + 8 * length learners)%nat)).
  { pose proof (read_u64s_bytes (o ++ i ++ nv ++ vs ++ nl) learners [] Hl) as R.
    rewrite !length_app, Hi, Hnv, Hnl, Hvs in R. cbn [length o] in R.
    rewrite app_nil_r, <- !app_assoc in R. fold ls b in R.
    replace (1 + (8 + (4 + (8 * length voters + 4))))%nat with (13 + 8 * length voters + 4)%nat in R by lia.
    exact R. }
  unfold cc_decode. destruct (Nat.ltb_spec (length b) 13); [lia|].
  rewrite Eid, Env, Nat2N.id, Erv.
  assert (match head b with
    | Some x01 => Some (AddNode (cc_node_id cc)) | Some x02 => Some (RemoveNode (cc_node_id cc))
    | Some x03 => Some (AddLearner (cc_node_id cc)) | _ => None end = Some cc) as ->
    by (unfold b, o; by destruct cc).
  cbn [mbind option_bind].
  destruct (Nat.leb_spec (13 + 8 * length voters + 4) (length b)); [|lia].
  rewrite Enl, Nat2N.id, Erl. done.
Qed.
