(* ===== verification/RaftStorage.v ===== *)
(** Raft's durable state behind an interface ([raft/src/storage.rs]): the trait as
    a class, its laws, and the in-memory implementation. *)

From stdpp Require Import base list numbers.
From Stdlib Require Import Strings.Byte.
From S2P Require Import Prelude RaftMessage.

Record Snapshot := mkSnapshot {
  sn_last_included_index : N;
  sn_last_included_term : N;
  sn_conf_state : list N;
  sn_learners : list N;
  sn_data : bytes;
}.

(** The [Storage] trait. *)
Class Storage (S : Type) := {
  st_hard_state : S → HardState;
  st_save_hard_state : HardState → S → S;
  st_last_index : S → N;
  st_term : N → S → option N;
  st_entries : N → N → S → list Entry;
  st_append : list Entry → S → S;
  st_truncate_suffix : N → S → S;
  st_snapshot : S → option Snapshot;
  st_first_index : S → N;
  st_compact : N → N → list N → list N → bytes → S → S;
  st_apply_snapshot : Snapshot → S → S;
}.

(** What the node relies on: the hard state is what was last saved, whatever
    happens to the log. *)
Class StorageHard (S : Type) `{Storage S} : Prop := {
  hard_save hs s : st_hard_state (st_save_hard_state hs s) = hs;
  hard_append es s : st_hard_state (st_append es s) = st_hard_state s;
  hard_truncate i s : st_hard_state (st_truncate_suffix i s) = st_hard_state s;
  hard_compact i t c l d s : st_hard_state (st_compact i t c l d s) = st_hard_state s;
  hard_apply sn s : st_hard_state (st_apply_snapshot sn s) = st_hard_state s;
}.

(** * The in-memory implementation *)

(** [ms_log !! i] has absolute index [base + i + 1]. *)
Record MemStorage := mkMemStorage {
  ms_hard : HardState;
  ms_log : list Entry;
  ms_snap : option Snapshot;
}.

#[export] Instance eta_memstorage : Eta MemStorage := λ s,
  mkMemStorage (ms_hard s) (ms_log s) (ms_snap s).

Definition MemStorage_new : MemStorage := mkMemStorage HardState_default [] None.

Definition ms_base (s : MemStorage) : N :=
  match ms_snap s with Some sn => sn_last_included_index sn | None => 0 end.

Definition ms_last_index (s : MemStorage) : N :=
  match list.last (ms_log s) with Some e => e_index e | None => ms_base s end.

Definition ms_term (index : N) (s : MemStorage) : option N :=
  if index =? 0 then Some 0 else
  let base := ms_base s in
  if index =? base then sn_last_included_term <$> ms_snap s else
  if index <? base then None else
  e_term <$> (ms_log s !! N.to_nat (index - base - 1)).

Definition ms_entries (low high : N) (s : MemStorage) : list Entry :=
  let base := ms_base s in
  let low := N.max low (base + 1) in
  if high <? low then [] else
  let lo := N.to_nat (low - base - 1) in
  let hi := Nat.min (N.to_nat (high - base)) (length (ms_log s)) in
  if (hi <=? lo)%nat then [] else slice lo hi (ms_log s).

Definition ms_append (entries : list Entry) (s : MemStorage) : MemStorage :=
  fold_left (λ s e, s <| ms_log := ms_log s ++ [e] |>) entries s.

Definition ms_truncate_suffix (from : N) (s : MemStorage) : MemStorage :=
  let base := ms_base s in
  if from <=? base + 1 then s <| ms_log := [] |>
  else s <| ms_log := take (N.to_nat (from - base - 1)) (ms_log s) |>.

Definition ms_first_index (s : MemStorage) : N := ms_base s + 1.

Definition ms_compact (index term : N) (conf_state learners : list N) (data : bytes)
    (s : MemStorage) : MemStorage :=
  let base := ms_base s in
  if index <=? base then s else
  let n := Nat.min (N.to_nat (index - base)) (length (ms_log s)) in
  s <| ms_log := drop n (ms_log s) |>
    <| ms_snap := Some (mkSnapshot index term conf_state learners data) |>.

Definition ms_apply_snapshot (sn : Snapshot) (s : MemStorage) : MemStorage :=
  s <| ms_log := [] |> <| ms_snap := Some sn |>.

#[export] Instance mem_storage : Storage MemStorage := {|
  st_hard_state := ms_hard;
  st_save_hard_state hs s := s <| ms_hard := hs |>;
  st_last_index := ms_last_index;
  st_term := ms_term;
  st_entries := ms_entries;
  st_append := ms_append;
  st_truncate_suffix := ms_truncate_suffix;
  st_snapshot := ms_snap;
  st_first_index := ms_first_index;
  st_compact := ms_compact;
  st_apply_snapshot := ms_apply_snapshot;
|}.

Lemma ms_append_eq es s : ms_append es s = s <| ms_log := ms_log s ++ es |>.
Proof.
  unfold ms_append. revert s. induction es as [|e es IH]; intros s; cbn.
  - destruct s as [h l sn]. cbn. by rewrite app_nil_r.
  - rewrite IH. destruct s as [h l sn]. cbn. by rewrite <- app_assoc.
Qed.

#[export] Instance mem_storage_hard : StorageHard MemStorage.
Proof.
  split; cbn; try done.
  - intros es s. by rewrite ms_append_eq.
  - intros i s. unfold ms_truncate_suffix. by destruct (_ <=? _).
  - intros i t c l d s. unfold ms_compact. by destruct (_ <=? _).
Qed.

(** * Contiguity and compaction *)

(** Entries are contiguous from the snapshot on. *)
Definition ms_wf (s : MemStorage) : Prop :=
  ∀ k e, ms_log s !! k = Some e → e_index e = ms_base s + N.of_nat k + 1.

Lemma ms_last_index_wf s : ms_wf s → ms_last_index s = ms_base s + N.of_nat (length (ms_log s)).
Proof.
  intros Hw. unfold ms_last_index. destruct (list.last (ms_log s)) as [e|] eqn:E.
  - rewrite last_lookup in E. pose proof (lookup_lt_Some _ _ _ E). apply Hw in E as ->. lia.
  - apply last_None in E as ->. cbn. lia.
Qed.

Lemma ms_append_wf es s :
  ms_wf s → (∀ k e, es !! k = Some e → e_index e = ms_last_index s + N.of_nat k + 1) →
  ms_wf (ms_append es s).
Proof.
  intros Hw He. rewrite ms_last_index_wf in He by done. rewrite ms_append_eq. intros k e.
  change (ms_base (s <| ms_log := ms_log s ++ es |>)) with (ms_base s). cbn [ms_log set_field].
  rewrite lookup_app_Some. intros [?|[? Hk]]; [by apply Hw|]. apply He in Hk as ->. lia.
Qed.

Lemma ms_truncate_wf i s : ms_wf s → ms_wf (ms_truncate_suffix i s).
Proof.
  intros Hw. unfold ms_truncate_suffix. destruct (_ <=? _); intros k e; [done|].
  cbn. rewrite lookup_take_Some. intros [? _]. by apply Hw.
Qed.

Section Compact.
Context (s : MemStorage) (index term : N) (cs ls : list N) (data : bytes).
Hypothesis Hw : ms_wf s.
Hypothesis Hlo : ms_base s < index.
Hypothesis Hhi : index ≤ ms_last_index s.
Let d := N.to_nat (index - ms_base s).
Let s' := ms_compact index term cs ls data s.

Lemma compact_len : (d ≤ length (ms_log s))%nat.
Proof. pose proof Hhi as Hh. rewrite ms_last_index_wf in Hh by done. unfold d. lia. Qed.

Lemma compact_eq : s' = mkMemStorage (ms_hard s) (drop d (ms_log s)) (Some (mkSnapshot index term cs ls data)).
Proof.
  unfold s', ms_compact. destruct (N.leb_spec index (ms_base s)); [lia|].
  fold d. pose proof compact_len. by rewrite Nat.min_l by lia.
Qed.

Lemma compact_wf : ms_wf s'.
Proof.
  rewrite compact_eq. intros k e. cbn. rewrite lookup_drop. intros ->%Hw. lia.
Qed.

Lemma compact_last : ms_last_index s' = ms_last_index s.
Proof.
  rewrite (ms_last_index_wf s' compact_wf), (ms_last_index_wf s Hw).
  pose proof compact_len. rewrite compact_eq. cbn. rewrite length_drop. lia.
Qed.

Lemma compact_term j : ms_term index s = Some term → index ≤ j → ms_term j s' = ms_term j s.
Proof.
  intros Ht Hj. rewrite compact_eq. unfold ms_term. cbn [ms_base ms_snap ms_log sn_last_included_index].
  destruct (N.eqb_spec j 0); [lia|]. destruct (N.eqb_spec j index) as [->|].
  - cbn. rewrite <- Ht. unfold ms_term. by destruct (N.eqb_spec index 0).
  - destruct (N.ltb_spec j index), (N.eqb_spec j (ms_base s)), (N.ltb_spec j (ms_base s)); try lia.
    rewrite lookup_drop. do 2 f_equal. lia.
Qed.

Lemma compact_entries lo hi : index < lo → ms_entries lo hi s' = ms_entries lo hi s.
Proof.
  intros Hl. rewrite compact_eq. unfold ms_entries. cbn [ms_base ms_snap ms_log sn_last_included_index].
  rewrite !N.max_l by lia. destruct (N.ltb_spec hi lo); [done|].
  rewrite length_drop.
  pose proof compact_len.
  set (h := Nat.min (N.to_nat (hi - ms_base s)) (length (ms_log s))).
  set (h' := Nat.min (N.to_nat (hi - index)) _).
  assert (h = d + h')%nat as -> by (unfold h, h'; lia).
  replace (N.to_nat (lo - ms_base s - 1)) with (d + N.to_nat (lo - index - 1))%nat by lia.
  destruct (Nat.leb_spec h' (N.to_nat (lo - index - 1))),
    (Nat.leb_spec (d + h') (d + N.to_nat (lo - index - 1))); try lia; [done|].
  unfold slice. rewrite drop_drop. f_equal. lia.
Qed.
End Compact.
