(* ===== verification/RaftNode.v ===== *)
(** The Raft state machine ([raft/src/node.rs]): one definition per method of
    [RaftNode], in state-passing style, over any [Storage].

    Terms, indices, rounds and tick counters are unbounded naturals; the
    xorshift generator keeps its 64-bit wrap-around.  A [BTreeMap<u64, u64>] is a
    [gmap N N], a [BTreeSet<u64>] a [gset N]. *)

From stdpp Require Import base list numbers gmap sorting.
From Stdlib Require Import Strings.Byte.
From S2P Require Import Prelude RaftMessage RaftStorage.

Inductive Role := Follower | Candidate | Leader.

#[export] Instance role_eq_dec : EqDecision Role.
Proof. solve_decision. Defined.

Record Config := mkConfig {
  cfg_id : N;
  cfg_voters : list N;
  cfg_election_timeout : N;
  cfg_heartbeat_timeout : N;
  cfg_seed : N;
  cfg_check_quorum : bool;
}.

Definition Config_new (id : N) (voters : list N) : Config :=
  mkConfig id voters 10 1 (u64_mul id 11400714819323198485) true.

Inductive ProposeError :=
  | NotLeader
  | ConfChangeInProgress
  | CannotRemoveLeader
  | TransferInProgress
  | NotAVoter.

Record RaftNode (St : Type) := mkRaftNode {
  n_id : N;
  n_voters : list N;
  n_learners : list N;
  n_bootstrap_conf : list N;
  n_storage : St;
  n_role : Role;
  n_current_term : N;
  n_voted_for : option N;
  n_commit_index : N;
  n_last_applied : N;
  n_leader_id : option N;
  n_votes : gset N;
  n_next_index : gmap N N;
  n_match_index : gmap N N;
  n_election_elapsed : N;
  n_heartbeat_elapsed : N;
  n_randomized_election_timeout : N;
  n_election_timeout : N;
  n_heartbeat_timeout : N;
  n_rng : N;
  n_transfer_target : option N;
  n_transfer_elapsed : N;
  n_check_quorum : bool;
  n_recent_active : gset N;
  n_quorum_elapsed : N;
  n_read_round : N;
  n_acked_round : gmap N N;
  n_pending_reads : list (N * N);
  n_ready_reads : list (N * N);
  n_messages : list Message;
  n_pending_snapshot : option (N * bytes);
}.
Arguments mkRaftNode {_}.
Arguments n_id {_} _.
Arguments n_voters {_} _.
Arguments n_learners {_} _.
Arguments n_bootstrap_conf {_} _.
Arguments n_storage {_} _.
Arguments n_role {_} _.
Arguments n_current_term {_} _.
Arguments n_voted_for {_} _.
Arguments n_commit_index {_} _.
Arguments n_last_applied {_} _.
Arguments n_leader_id {_} _.
Arguments n_votes {_} _.
Arguments n_next_index {_} _.
Arguments n_match_index {_} _.
Arguments n_election_elapsed {_} _.
Arguments n_heartbeat_elapsed {_} _.
Arguments n_randomized_election_timeout {_} _.
Arguments n_election_timeout {_} _.
Arguments n_heartbeat_timeout {_} _.
Arguments n_rng {_} _.
Arguments n_transfer_target {_} _.
Arguments n_transfer_elapsed {_} _.
Arguments n_check_quorum {_} _.
Arguments n_recent_active {_} _.
Arguments n_quorum_elapsed {_} _.
Arguments n_read_round {_} _.
Arguments n_acked_round {_} _.
Arguments n_pending_reads {_} _.
Arguments n_ready_reads {_} _.
Arguments n_messages {_} _.
Arguments n_pending_snapshot {_} _.

#[export] Instance eta_raftnode St : Eta (RaftNode St) := λ n,
  mkRaftNode (n_id n) (n_voters n) (n_learners n) (n_bootstrap_conf n) (n_storage n) (n_role n)
    (n_current_term n) (n_voted_for n) (n_commit_index n) (n_last_applied n) (n_leader_id n)
    (n_votes n) (n_next_index n) (n_match_index n) (n_election_elapsed n) (n_heartbeat_elapsed n)
    (n_randomized_election_timeout n) (n_election_timeout n) (n_heartbeat_timeout n) (n_rng n)
    (n_transfer_target n) (n_transfer_elapsed n) (n_check_quorum n) (n_recent_active n)
    (n_quorum_elapsed n) (n_read_round n) (n_acked_round n) (n_pending_reads n)
    (n_ready_reads n) (n_messages n) (n_pending_snapshot n).

(** * Membership helpers *)

(** [Vec::dedup]: one of each run of equal elements. *)
Fixpoint dedup (l : list N) : list N :=
  match l with
  | x :: ((y :: _) as t) => if x =? y then dedup t else x :: dedup t
  | _ => l
  end.

(** [sort_unstable] followed by [dedup]. *)
Definition sort_dedup (l : list N) : list N := dedup (merge_sort N.le l).

Definition contains (l : list N) (x : N) : bool := existsb (λ y, y =? x) l.

(** [iter().filter(p).count()]. *)
Definition count (p : N → bool) (l : list N) : nat := length (List.filter p l).

Definition apply_conf_change (voters learners : list N) (cc : ConfChange) : list N * list N :=
  match cc with
  | AddNode id =>
    let learners := List.filter (λ l, negb (l =? id)) learners in
    (if contains voters id then voters else voters ++ [id], learners)
  | RemoveNode id =>
    (List.filter (λ v, negb (v =? id)) voters, List.filter (λ l, negb (l =? id)) learners)
  | AddLearner id =>
    if negb (contains voters id) && negb (contains learners id)
    then (voters, learners ++ [id]) else (voters, learners)
  end.

(** The body of [next_rand]: xorshift64. *)
Definition xorshift64 (x : N) : N :=
  let x := N.lxor x (u64_shl x 13) in
  let x := N.lxor x (N.shiftr x 7) in
  N.lxor x (u64_shl x 17).

Definition is_conf_change (e : Entry) : bool :=
  match e_type e with ConfChangeEntry => true | Normal => false end.

Section Node.
Context {St : Type} `{Storage St}.
Implicit Types n : RaftNode St.

(** * Small utilities *)

Definition send (to term : N) (body : MessageBody) n : RaftNode St :=
  n <| n_messages := n_messages n ++ [mkMessage (n_id n) to term body] |>.

Definition persist_hard_state n : RaftNode St :=
  n <| n_storage := st_save_hard_state (mkHardState (n_current_term n) (n_voted_for n)) (n_storage n) |>.

Definition majority n : nat := (length (n_voters n) / 2 + 1)%nat.

Definition peers n : list N := List.filter (λ p, negb (p =? n_id n)) (n_voters n).

Definition replication_peers n : list N :=
  List.filter (λ p, negb (p =? n_id n)) (n_voters n ++ n_learners n).

Definition is_voter n : bool := contains (n_voters n) (n_id n).

Definition is_leader n : bool := bool_decide (n_role n = Leader).

Definition last_log_term n : N :=
  default 0 (st_term (st_last_index (n_storage n)) (n_storage n)).

Definition log_entries n : list Entry :=
  st_entries 1 (st_last_index (n_storage n)) (n_storage n).

Definition progress (peer : N) n : option (N * N) :=
  if negb (is_leader n) then None else
  m ← n_match_index n !! peer;
  Some (m, st_last_index (n_storage n)).

Definition next_rand n : N * RaftNode St :=
  let x := xorshift64 (n_rng n) in (x, n <| n_rng := x |>).

Definition reset_election_timer n : RaftNode St :=
  let n := n <| n_election_elapsed := 0 |> in
  let span := n_election_timeout n in
  let '(r, n) := next_rand n in
  n <| n_randomized_election_timeout := span + as_u32 (r mod span) |>.

(** * Membership *)

Definition has_pending_conf_change n : bool :=
  let lo := N.max (n_commit_index n + 1) (st_first_index (n_storage n)) in
  existsb is_conf_change (st_entries lo (st_last_index (n_storage n)) (n_storage n)).

(** One step of the loop of [conf_at]. *)
Definition conf_fold (c : list N * list N) (e : Entry) : list N * list N :=
  if is_conf_change e then
    match cc_decode (e_data e) with Some (_, v, l) => (v, l) | None => c end
  else c.

Definition conf_at (index : N) n : list N * list N :=
  let base := match st_snapshot (n_storage n) with
              | Some s => (sn_conf_state s, sn_learners s)
              | None => (n_bootstrap_conf n, [])
              end in
  let '(voters, learners) :=
    fold_left conf_fold (st_entries (st_first_index (n_storage n)) index (n_storage n)) base in
  (sort_dedup voters, sort_dedup learners).

Definition become_follower (term : N) (leader : option N) n : RaftNode St :=
  let n := if n_current_term n <? term then
             persist_hard_state (n <| n_current_term := term |> <| n_voted_for := None |>)
           else n in
  reset_election_timer
    (n <| n_role := Follower |> <| n_leader_id := leader |>
       <| n_transfer_target := None |> <| n_transfer_elapsed := 0 |>
       <| n_pending_reads := [] |> <| n_ready_reads := [] |>).

Definition recompute_conf n : RaftNode St :=
  let '(v, l) := conf_at (st_last_index (n_storage n)) n in
  let n := n <| n_voters := v |> <| n_learners := l |> in
  let n := match n_transfer_target n with
           | Some t => if contains (n_voters n) t then n
                       else n <| n_transfer_target := None |> <| n_transfer_elapsed := 0 |>
           | None => n
           end in
  if is_leader n && negb (is_voter n) then become_follower (n_current_term n) None n else n.

(** * Construction *)

Definition RaftNode_new (cfg : Config) (storage : St) : RaftNode St :=
  let hs := st_hard_state storage in
  recompute_conf (reset_election_timer
    {| n_id := cfg_id cfg;
       n_voters := cfg_voters cfg;
       n_learners := [];
       n_bootstrap_conf := cfg_voters cfg;
       n_storage := storage;
       n_role := Follower;
       n_current_term := hs_current_term hs;
       n_voted_for := hs_voted_for hs;
       n_commit_index := 0;
       n_last_applied := 0;
       n_leader_id := None;
       n_votes := ∅;
       n_next_index := ∅;
       n_match_index := ∅;
       n_election_elapsed := 0;
       n_heartbeat_elapsed := 0;
       n_randomized_election_timeout := cfg_election_timeout cfg;
       n_election_timeout := N.max (cfg_election_timeout cfg) 1;
       n_heartbeat_timeout := N.max (cfg_heartbeat_timeout cfg) 1;
       n_rng := N.lor (cfg_seed cfg) 1;
       n_transfer_target := None;
       n_transfer_elapsed := 0;
       n_check_quorum := cfg_check_quorum cfg;
       n_recent_active := ∅;
       n_quorum_elapsed := 0;
       n_read_round := 0;
       n_acked_round := ∅;
       n_pending_reads := [];
       n_ready_reads := [];
       n_messages := [];
       n_pending_snapshot := None |}).

(** * Replication *)

Definition send_snapshot (to : N) n : RaftNode St :=
  match st_snapshot (n_storage n) with
  | None => n
  | Some snap =>
    send to (n_current_term n)
      (InstallSnapshot (sn_last_included_index snap) (sn_last_included_term snap)
         (sn_conf_state snap) (sn_learners snap) (sn_data snap)) n
  end.

Definition send_append (to : N) n : RaftNode St :=
  let last := st_last_index (n_storage n) in
  let next := default (last + 1) (n_next_index n !! to) in
  if next <? st_first_index (n_storage n) then send_snapshot to n else
  let prev_log_index := next - 1 in
  let prev_log_term := default 0 (st_term prev_log_index (n_storage n)) in
  let entries := st_entries next last (n_storage n) in
  send to (n_current_term n)
    (AppendEntries prev_log_index prev_log_term entries (n_commit_index n) (n_read_round n)) n.

Definition broadcast_append n : RaftNode St :=
  fold_left (λ n p, send_append p n) (replication_peers n) n.

(** * Linearizable reads *)

(** Voters (this node included) that acknowledged round [round] or a later one. *)
Definition read_acks (round : N) n : nat :=
  count (λ v, (v =? n_id n) ||
    match n_acked_round n !! v with Some r => round <=? r | None => false end) (n_voters n).

(** The loop of [advance_reads]: the pending reads confirmed, and the rest. *)
Fixpoint confirm_reads n (pending : list (N * N)) : list (N * N) * list (N * N) :=
  match pending with
  | [] => ([], [])
  | (ctx, round) :: rest =>
    if (read_acks round n <? majority n)%nat then ([], pending)
    else let '(c, p) := confirm_reads n rest in ((ctx, n_commit_index n) :: c, p)
  end.

Definition advance_reads n : RaftNode St :=
  if negb (is_leader n) || (length (n_pending_reads n) =? 0)%nat
     || negb (bool_decide (st_term (n_commit_index n) (n_storage n) = Some (n_current_term n)))
  then n else
  let '(confirmed, rest) := confirm_reads n (n_pending_reads n) in
  n <| n_ready_reads := n_ready_reads n ++ confirmed |> <| n_pending_reads := rest |>.

Definition take_read_states n : list (N * N) * RaftNode St :=
  (n_ready_reads n, n <| n_ready_reads := [] |>).

(** * Commit *)

(** Voters whose log is known to match through [i]. *)
Definition match_count (i : N) n : nat :=
  count (λ v, i <=? default 0 (n_match_index n !! v)) (n_voters n).

(** The [while n > self.commit_index] loop, [k] being [n - commit_index]. *)
Fixpoint commit_scan (k : nat) n : option N :=
  match k with
  | O => None
  | S k' =>
    let i := n_commit_index n + N.of_nat k in
    if bool_decide (st_term i (n_storage n) = Some (n_current_term n))
       && (majority n <=? match_count i n)%nat
    then Some i else commit_scan k' n
  end.

Definition maybe_advance_commit n : RaftNode St :=
  match commit_scan (N.to_nat (st_last_index (n_storage n) - n_commit_index n)) n with
  | Some i => advance_reads (n <| n_commit_index := i |>)
  | None => n
  end.

(** * Role transitions *)

Definition become_leader n : RaftNode St :=
  let n := n <| n_role := Leader |> <| n_leader_id := Some (n_id n) |> in
  let last := st_last_index (n_storage n) in
  let n := n <| n_next_index := ∅ |> <| n_match_index := ∅ |> in
  let n := fold_left (λ n p, n <| n_next_index := <[p := last + 1]> (n_next_index n) |>
                               <| n_match_index := <[p := 0]> (n_match_index n) |>)
             (n_voters n ++ n_learners n) n in
  let n := n <| n_match_index := <[n_id n := last]> (n_match_index n) |> in
  broadcast_append
    (n <| n_heartbeat_elapsed := 0 |> <| n_transfer_target := None |> <| n_transfer_elapsed := 0 |>
       <| n_recent_active := ∅ |> <| n_quorum_elapsed := 0 |> <| n_acked_round := ∅ |>
       <| n_pending_reads := [] |> <| n_ready_reads := [] |>).

Definition start_election n : RaftNode St :=
  let n := n <| n_role := Candidate |> <| n_current_term := n_current_term n + 1 |>
             <| n_voted_for := Some (n_id n) |> in
  let n := persist_hard_state n in
  let n := n <| n_leader_id := None |> <| n_votes := {[n_id n]} |> in
  let n := reset_election_timer n in
  if (majority n <=? size (n_votes n))%nat then become_leader n else
  let term := n_current_term n in
  let last_log_index := st_last_index (n_storage n) in
  let last_log_term := last_log_term n in
  fold_left (λ n p, send p term (RequestVote last_log_index last_log_term) n) (peers n) n.

Definition fire_timeout_now (target : N) n : RaftNode St :=
  let n := send target (n_current_term n) TimeoutNow n in
  n <| n_transfer_target := None |> <| n_transfer_elapsed := 0 |>.

(** * Driver inputs *)

Definition check_quorum_tick n : RaftNode St :=
  let n := n <| n_quorum_elapsed := n_quorum_elapsed n + 1 |> in
  if n_election_timeout n <=? n_quorum_elapsed n then
    let n := n <| n_quorum_elapsed := 0 |> in
    let heard := count (λ v, (v =? n_id n) || bool_decide (v ∈ n_recent_active n)) (n_voters n) in
    let n := n <| n_recent_active := ∅ |> in
    if n_check_quorum n && (heard <? majority n)%nat
    then become_follower (n_current_term n) None n else n
  else n.

Definition tick n : RaftNode St :=
  match n_role n with
  | Leader =>
    let n := match n_transfer_target n with
             | Some _ =>
               let n := n <| n_transfer_elapsed := n_transfer_elapsed n + 1 |> in
               if n_election_timeout n <=? n_transfer_elapsed n
               then n <| n_transfer_target := None |> <| n_transfer_elapsed := 0 |> else n
             | None => n
             end in
    let n := n <| n_heartbeat_elapsed := n_heartbeat_elapsed n + 1 |> in
    let n := if n_heartbeat_timeout n <=? n_heartbeat_elapsed n
             then broadcast_append (n <| n_heartbeat_elapsed := 0 |>) else n in
    check_quorum_tick n
  | Follower | Candidate =>
    let n := n <| n_election_elapsed := n_election_elapsed n + 1 |> in
    if (n_randomized_election_timeout n <=? n_election_elapsed n) && is_voter n
    then start_election n else n
  end.

(** The leader's own append: the entry, and its own progress. *)
Definition append_own (entry : Entry) (index : N) n : RaftNode St :=
  let n := n <| n_storage := st_append [entry] (n_storage n) |> in
  n <| n_match_index := <[n_id n := index]> (n_match_index n) |>
    <| n_next_index := <[n_id n := index + 1]> (n_next_index n) |>.

Definition propose (data : bytes) n : (N + ProposeError) * RaftNode St :=
  if negb (is_leader n) then (inr NotLeader, n) else
  match n_transfer_target n with
  | Some _ => (inr TransferInProgress, n)
  | None =>
    let index := st_last_index (n_storage n) + 1 in
    let entry := Entry_normal (n_current_term n) index data in
    let n := append_own entry index n in
    (inl index, broadcast_append (maybe_advance_commit n))
  end.

Definition read_index (ctx : N) n : (unit + ProposeError) * RaftNode St :=
  if negb (is_leader n) then (inr NotLeader, n) else
  let n := n <| n_read_round := n_read_round n + 1 |> in
  let n := n <| n_pending_reads := n_pending_reads n ++ [(ctx, n_read_round n)] |> in
  (inl (), advance_reads (broadcast_append n)).

(** [entry(id).or_insert(v)]. *)
Definition or_insert (id v : N) (m : gmap N N) : gmap N N :=
  match m !! id with Some _ => m | None => <[id := v]> m end.

Definition propose_conf_change (cc : ConfChange) n : (N + ProposeError) * RaftNode St :=
  if negb (is_leader n) then (inr NotLeader, n) else
  match n_transfer_target n with
  | Some _ => (inr TransferInProgress, n)
  | None =>
    if has_pending_conf_change n then (inr ConfChangeInProgress, n) else
    if match cc with RemoveNode id => id =? n_id n | _ => false end
    then (inr CannotRemoveLeader, n) else
    let '(new_voters, new_learners) := apply_conf_change (n_voters n) (n_learners n) cc in
    let new_voters := sort_dedup new_voters in
    let new_learners := sort_dedup new_learners in
    let index := st_last_index (n_storage n) + 1 in
    let entry := mkEntry (n_current_term n) index ConfChangeEntry
                   (cc_encode cc new_voters new_learners) in
    let n := append_own entry index n in
    let n := recompute_conf n in
    let n := match cc with
             | AddNode id | AddLearner id =>
               n <| n_next_index := or_insert id 1 (n_next_index n) |>
                 <| n_match_index := or_insert id 0 (n_match_index n) |>
             | RemoveNode _ => n
             end in
    (inl index, broadcast_append (maybe_advance_commit n))
  end.

Definition transfer_leadership (target : N) n : (unit + ProposeError) * RaftNode St :=
  if negb (is_leader n) then (inr NotLeader, n) else
  if negb (contains (n_voters n) target) || (target =? n_id n) then (inr NotAVoter, n) else
  let n := n <| n_transfer_target := Some target |> <| n_transfer_elapsed := 0 |> in
  (inl (), if match progress target n with Some (m, last) => last <=? m | None => false end
           then fire_timeout_now target n else send_append target n).

(** * Message handlers *)

Definition handle_request_vote (from term cand_last_index cand_last_term : N) n : RaftNode St :=
  let '(granted, n) :=
    if n_current_term n <=? term then
      let log_ok := (last_log_term n <? cand_last_term)
                    || ((cand_last_term =? last_log_term n)
                        && (st_last_index (n_storage n) <=? cand_last_index)) in
      let can_vote := bool_decide (n_voted_for n = None) || bool_decide (n_voted_for n = Some from) in
      if can_vote && log_ok then
        (true, reset_election_timer (persist_hard_state (n <| n_voted_for := Some from |>)))
      else (false, n)
    else (false, n) in
  send from (n_current_term n) (RequestVoteResp granted) n.

Definition handle_request_vote_resp (from term : N) (granted : bool) n : RaftNode St :=
  if negb (bool_decide (n_role n = Candidate)) || negb (term =? n_current_term n) then n else
  if granted && contains (n_voters n) from then
    let n := n <| n_votes := {[from]} ∪ n_votes n |> in
    if (majority n <=? size (n_votes n))%nat then become_leader n else n
  else n.

Definition handle_timeout_now (term : N) n : RaftNode St :=
  if (term <? n_current_term n) || negb (is_voter n) then n else start_election n.

(** The splice loop over [entries.iter().enumerate()]: the storage after a
    truncation at the first conflict, and [append_from]. *)
Fixpoint splice (base prev_log_index : N) (k : nat) (es : list Entry) (s : St) : St * option nat :=
  match es with
  | [] => (s, None)
  | e :: es' =>
    let idx := prev_log_index + 1 + N.of_nat k in
    if idx <=? base then splice base prev_log_index (S k) es' s else
    if idx <=? st_last_index s then
      if negb (bool_decide (st_term idx s = Some (e_term e)))
      then (st_truncate_suffix idx s, Some k)
      else splice base prev_log_index (S k) es' s
    else (s, Some k)
  end.

Definition handle_append_entries (from term prev_log_index prev_log_term : N)
    (entries : list Entry) (leader_commit read_round : N) n : RaftNode St :=
  if term <? n_current_term n then
    send from (n_current_term n) (AppendEntriesResp false 0 read_round) n
  else
  let n := n <| n_role := Follower |> <| n_leader_id := Some from |> in
  let n := reset_election_timer n in
  let base := st_first_index (n_storage n) - 1 in
  let last_new_index := prev_log_index + N.of_nat (length entries) in
  if last_new_index <=? base then
    send from (n_current_term n) (AppendEntriesResp true base read_round) n
  else
  if (base <=? prev_log_index)
     && negb (bool_decide (st_term prev_log_index (n_storage n) = Some prev_log_term)) then
    send from (n_current_term n) (AppendEntriesResp false 0 read_round) n
  else
  let '(s, append_from) := splice base prev_log_index 0 entries (n_storage n) in
  let n := n <| n_storage := s |> in
  let n := match append_from with
           | Some k => recompute_conf (n <| n_storage := st_append (drop k entries) (n_storage n) |>)
           | None => n
           end in
  let n := if n_commit_index n <? leader_commit
           then n <| n_commit_index := N.min leader_commit last_new_index |> else n in
  send from (n_current_term n) (AppendEntriesResp true last_new_index read_round) n.

Definition handle_append_resp (from term : N) (success : bool) (match_index read_round : N) n
    : RaftNode St :=
  if negb (is_leader n) || negb (term =? n_current_term n) then n else
  let n := n <| n_recent_active := {[from]} ∪ n_recent_active n |> in
  let acked := default 0 (n_acked_round n !! from) in
  let n := n <| n_acked_round := <[from := N.max acked read_round]> (n_acked_round n) |> in
  let n :=
    if success then
      let prev := default 0 (n_match_index n !! from) in
      let m := N.max match_index prev in
      let n := n <| n_match_index := <[from := m]> (n_match_index n) |>
                 <| n_next_index := <[from := m + 1]> (n_next_index n) |> in
      let n := maybe_advance_commit n in
      if bool_decide (n_transfer_target n = Some from) && (st_last_index (n_storage n) <=? m)
      then fire_timeout_now from n else n
    else
      let next := default 1 (n_next_index n !! from) in
      let n := n <| n_next_index := <[from := N.max (next - 1) 1]> (n_next_index n) |> in
      send_append from n in
  advance_reads n.

Definition handle_install_snapshot (from term last_included_index last_included_term : N)
    (conf_state learners : list N) (data : bytes) n : RaftNode St :=
  if term <? n_current_term n then
    send from (n_current_term n) (InstallSnapshotResp 0) n
  else
  let n := n <| n_role := Follower |> <| n_leader_id := Some from |> in
  let n := reset_election_timer n in
  if last_included_index <=? n_commit_index n then
    send from (n_current_term n) (InstallSnapshotResp (n_commit_index n)) n
  else
  let n := n <| n_storage := st_apply_snapshot
             (mkSnapshot last_included_index last_included_term conf_state learners data)
             (n_storage n) |> in
  let n := n <| n_commit_index := last_included_index |> <| n_last_applied := last_included_index |>
             <| n_pending_snapshot := Some (last_included_index, data) |> in
  let n := recompute_conf n in
  send from (n_current_term n) (InstallSnapshotResp last_included_index) n.

Definition handle_install_snapshot_resp (from term match_index : N) n : RaftNode St :=
  if negb (is_leader n) || negb (term =? n_current_term n) then n else
  let n := n <| n_recent_active := {[from]} ∪ n_recent_active n |> in
  let prev := default 0 (n_match_index n !! from) in
  let m := N.max match_index prev in
  let n := n <| n_match_index := <[from := m]> (n_match_index n) |>
             <| n_next_index := <[from := m + 1]> (n_next_index n) |> in
  maybe_advance_commit n.

Definition dispatch (msg : Message) n : RaftNode St :=
  let from := m_from msg in
  let term := m_term msg in
  match m_body msg with
  | RequestVote lli llt => handle_request_vote from term lli llt n
  | RequestVoteResp granted => handle_request_vote_resp from term granted n
  | AppendEntries pli plt es lc rr => handle_append_entries from term pli plt es lc rr n
  | AppendEntriesResp success mi rr => handle_append_resp from term success mi rr n
  | InstallSnapshot lii lit cs ls data => handle_install_snapshot from term lii lit cs ls data n
  | InstallSnapshotResp mi => handle_install_snapshot_resp from term mi n
  | TimeoutNow => handle_timeout_now term n
  end.

(** The uniform term rule, then the handler of the message. *)
Definition step (msg : Message) n : RaftNode St :=
  let n := if n_current_term n <? m_term msg then
             let leader := match m_body msg with
                           | AppendEntries _ _ _ _ _ | InstallSnapshot _ _ _ _ _ => Some (m_from msg)
                           | _ => None
                           end in
             become_follower (m_term msg) leader n
           else n in
  dispatch msg n.

(** * Driver outputs *)

Definition take_messages n : list Message * RaftNode St :=
  (n_messages n, n <| n_messages := [] |>).

Definition take_committed n : list Entry * RaftNode St :=
  if n_commit_index n <=? n_last_applied n then ([], n) else
  let entries := st_entries (n_last_applied n + 1) (n_commit_index n) (n_storage n) in
  (entries, n <| n_last_applied := n_commit_index n |>).

Definition take_snapshot n : option (N * bytes) * RaftNode St :=
  (n_pending_snapshot n, n <| n_pending_snapshot := None |>).

(** [None]: the [expect] on the term of [index] panics. *)
Definition compact (index : N) (data : bytes) n : option (RaftNode St) :=
  if (index <=? match st_snapshot (n_storage n) with
                | Some s => sn_last_included_index s | None => 0 end)
     || (n_last_applied n <? index)
  then Some n else
  term ← st_term index (n_storage n);
  let '(conf_state, learners) := conf_at index n in
  Some (n <| n_storage := st_compact index term conf_state learners data (n_storage n) |>).

Definition has_ready n : bool :=
  negb (length (n_messages n) =? 0)%nat || (n_last_applied n <? n_commit_index n)
  || match n_pending_snapshot n with Some _ => true | None => false end.

End Node.
