(* ===== verification/RaftProto.v ===== *)
(** Raft as a protocol: the micro-steps a node takes, what it keeps of its state
    for safety, and the messages it emits.  [RaftRefine] shows that every
    operation of [RaftNode] is a sequence of these micro-steps; [RaftSafety]
    proves the protocol safe.

    Membership is a fixed set of voters and logs are uncompacted. *)

From stdpp Require Import base list numbers gmap.
From Stdlib Require Import Strings.Byte.
From S2P Require Import Prelude RaftMessage RaftStorage RaftNode.

(** The part of a node that safety depends on; [a_log !! k] is the entry with
    index [k + 1]. *)
Record anode := mkAnode {
  a_term : N;
  a_voted : option N;
  a_role : Role;
  a_votes : gset N;
  a_log : list Entry;
  a_commit : nat;
  a_match : gmap N N;
  a_next : gmap N N;
}.
#[export] Instance eta_anode : Eta anode := λ a,
  mkAnode (a_term a) (a_voted a) (a_role a) (a_votes a) (a_log a) (a_commit a) (a_match a) (a_next a).

Definition last_term (l : list Entry) : N :=
  match list.last l with Some e => e_term e | None => 0 end.

(** The log [l] is at least as up to date as one that ends in [(i, t)]. *)
Definition up_to_date (i : nat) (t : N) (l : list Entry) : Prop :=
  last_term l < t ∨ last_term l = t ∧ (length l ≤ i)%nat.

(** The term of the entry at index [i] ([Some 0] at the sentinel). *)
Definition term_at (i : nat) (l : list Entry) : option N :=
  match i with O => Some 0 | S k => e_term <$> l !! k end.

(** What the splice loop makes of [l] for the entries [es] after [prev]: the
    entries present are kept, and from the first conflict or gap on, those of
    the leader. *)
Fixpoint splice_log (prev : nat) (es l : list Entry) : list Entry :=
  match es with
  | [] => l
  | e :: es' =>
    if bool_decide (e_term <$> l !! prev = Some (e_term e)) then splice_log (S prev) es' l
    else take prev l ++ es
  end.

Section Proto.
(** The voters of the group. *)
Context (V : gset N).

Definition quorum (Q : gset N) : Prop := Q ⊆ V ∧ (size V < 2 * size Q)%nat.

(** Messages that no receiver draws a conclusion from. *)
Definition inert (b : MessageBody) : Prop :=
  match b with
  | RequestVoteResp false | AppendEntriesResp false _ _ | AppendEntriesResp true 0 _ | TimeoutNow => True
  | _ => False
  end.

(** [mstep net i a a' out]: node [i] moves from [a] to [a'] and emits [out],
    having received messages of [net]. *)
Inductive mstep (net : list Message) (i : N) (a : anode) : anode → list Message → Prop :=
  | M_term t : a_term a < t →
      mstep net i a (a <| a_term := t |> <| a_voted := None |> <| a_role := Follower |>) []
  | M_follow : mstep net i a (a <| a_role := Follower |>) []
  | M_elect : i ∈ V →
      mstep net i a (a <| a_role := Candidate |> <| a_term := a_term a + 1 |>
        <| a_voted := Some i |> <| a_votes := {[i]} |>) []
  | M_reqvote c : a_role a = Candidate →
      mstep net i a a [mkMessage i c (a_term a)
        (RequestVote (N.of_nat (length (a_log a))) (last_term (a_log a)))]
  | M_vote c to lli llt : mkMessage c to (a_term a) (RequestVote lli llt) ∈ net →
      a_voted a = None ∨ a_voted a = Some c →
      up_to_date (N.to_nat lli) llt (a_log a) →
      mstep net i a (a <| a_voted := Some c |>) []
  | M_grant c : a_voted a = Some c →
      mstep net i a a [mkMessage i c (a_term a) (RequestVoteResp true)]
  | M_inert to t b : inert b → mstep net i a a [mkMessage i to t b]
  | M_count v : a_role a = Candidate → v ∈ V →
      mkMessage v i (a_term a) (RequestVoteResp true) ∈ net →
      mstep net i a (a <| a_votes := {[v]} ∪ a_votes a |>) []
  | M_lead mi ni : a_role a = Candidate → (size V < 2 * size (a_votes a))%nat →
      (∀ v m, mi !! v = Some m → m = 0 ∨ v = i ∧ m = N.of_nat (length (a_log a))) →
      (∀ v k, ni !! v = Some k → k = N.of_nat (length (a_log a)) + 1) →
      mstep net i a (a <| a_role := Leader |> <| a_match := mi |> <| a_next := ni |>) []
  | M_own data : a_role a = Leader →
      let len := N.of_nat (length (a_log a)) in
      mstep net i a (a <| a_log := a_log a ++ [Entry_normal (a_term a) (len + 1) data] |>
        <| a_match := <[i := len + 1]> (a_match a) |>
        <| a_next := <[i := len + 2]> (a_next a) |>) []
  | M_accept f to prev pt es lc rr :
      mkMessage f to (a_term a) (AppendEntries prev pt es lc rr) ∈ net →
      a_role a = Follower → term_at (N.to_nat prev) (a_log a) = Some pt →
      let p := (N.to_nat prev + length es)%nat in
      mstep net i a
        (a <| a_log := splice_log (N.to_nat prev) es (a_log a) |>
           <| a_commit := if (a_commit a <? N.to_nat lc)%nat then Nat.min (N.to_nat lc) p
                          else a_commit a |>)
        [mkMessage i f (a_term a) (AppendEntriesResp true (N.of_nat p) rr)]
  | M_match v m rr : a_role a = Leader →
      mkMessage v i (a_term a) (AppendEntriesResp true m rr) ∈ net →
      let m' := N.max m (default 0 (a_match a !! v)) in
      mstep net i a (a <| a_match := <[v := m']> (a_match a) |>
        <| a_next := <[v := m' + 1]> (a_next a) |>) []
  | M_next v k : a_role a = Leader → 1 ≤ k → (N.to_nat k ≤ S (length (a_log a)))%nat →
      mstep net i a (a <| a_next := <[v := k]> (a_next a) |>) []
  | M_commit k Q : a_role a = Leader → (a_commit a < k)%nat →
      term_at k (a_log a) = Some (a_term a) → quorum Q →
      (∀ v, v ∈ Q → k ≤ N.to_nat (default 0%N (a_match a !! v)))%nat →
      mstep net i a (a <| a_commit := k |>) []
  | M_append to prev pt rr : a_role a = Leader → (prev ≤ length (a_log a))%nat →
      term_at prev (a_log a) = Some pt →
      mstep net i a a [mkMessage i to (a_term a)
        (AppendEntries (N.of_nat prev) pt (drop prev (a_log a)) (N.of_nat (a_commit a)) rr)]
  | M_restart :
      mstep net i a (a <| a_role := Follower |> <| a_commit := 0%nat |> <| a_votes := ∅ |>
        <| a_match := ∅ |> <| a_next := ∅ |>) [].

(** Sequences of micro-steps of one node, with everything they emit. *)
Inductive mrun (net : list Message) (i : N) : anode → anode → list Message → Prop :=
  | mrun_nil a : mrun net i a a []
  | mrun_cons a b c o1 o2 : mstep net i a b o1 → mrun net i b c o2 → mrun net i a c (o1 ++ o2).

Lemma mrun_one net i a b o : mstep net i a b o → mrun net i a b o.
Proof. intros. rewrite <- (app_nil_r o). econstructor; [done|constructor]. Qed.

Lemma mrun_trans net i a b c o1 o2 :
  mrun net i a b o1 → mrun net i b c o2 → mrun net i a c (o1 ++ o2).
Proof.
  induction 1 as [|a b' b o o' Hs Hr IH]; [done|]. intros. rewrite <- app_assoc.
  econstructor; eauto.
Qed.

(** A group of nodes: the nodes and every message ever emitted, each of which may
    be delivered any number of times, in any order, or never. *)
Definition astate : Type := (N → anode) * list Message.

Definition upd {A} (i : N) (x : A) (f : N → A) : N → A := λ j, if j =? i then x else f j.

Inductive astep : astate → astate → Prop :=
  | astep_node nodes net i a' out : mstep net i (nodes i) a' out →
      astep (nodes, net) (upd i a' nodes, net ++ out).

Definition anode_init : anode := mkAnode 0 None Follower ∅ [] 0 ∅ ∅.
End Proto.
