(* ===== verification/RaftSafety.v ===== *)
(** Safety of the Raft protocol of [RaftProto]: an inductive invariant over the
    group, stated with history variables, and what it implies — election safety,
    log matching, leader completeness and agreement on committed entries. *)

From stdpp Require Import base list numbers gmap.
From Stdlib Require Import Strings.Byte.
From S2P Require Import Prelude RaftMessage RaftStorage RaftNode RaftProto.

(** * History variables *)

Record ghost := mkGhost {
  (** the log of the leader of a term, as it last was *)
  g_log : gmap N (list Entry);
  (** the leader of a term, its log when elected, and the voters that elected it *)
  g_lead : gmap N (N * list Entry * gset N);
  (** the vote a node cast in a term, and the log it had then *)
  g_vote : gmap (N * N) (N * list Entry);
  (** [(t, v, m)]: in term [t], [v] held the first [m] entries of the leader's log *)
  g_ack : gset (N * N * nat);
}.
#[export] Instance eta_ghost : Eta ghost := λ g,
  mkGhost (g_log g) (g_lead g) (g_vote g) (g_ack g).

Definition ghost_init : ghost := mkGhost ∅ ∅ ∅ ∅.

(** The history only grows. *)
Record ext (g g' : ghost) : Prop := mkExt {
  ext_log t l : g_log g !! t = Some l → ∃ l', g_log g' !! t = Some l' ∧ l `prefix_of` l';
  ext_lead : g_lead g ⊆ g_lead g';
  ext_vote : g_vote g ⊆ g_vote g';
  ext_ack : g_ack g ⊆ g_ack g';
}.

#[export] Instance ext_preorder : PreOrder ext.
Proof.
  split.
  - intros g. split; eauto.
  - intros g1 g2 g3 [L1 I1 W1 A1] [L2 I2 W2 A2]. split; try (etransitivity; done).
    intros t l (l1 & E1 & P1)%L1. apply L2 in E1 as (l2 & E2 & P2).
    exists l2. split; [done|]. by etransitivity.
Qed.

(** * Logs *)

(** Indices are positions, and an entry of term [t] comes with the whole prefix of
    the log of the leader of [t] that led to it. *)
Record log_ok (g : ghost) (l : list Entry) : Prop := mkLogOk {
  lo_wf k e : l !! k = Some e → e_index e = N.of_nat k + 1 ∧ e_type e = Normal ∧ 0 < e_term e;
  lo_sorted j k d e : (j ≤ k)%nat → l !! j = Some d → l !! k = Some e → e_term d ≤ e_term e;
  lo_anchor k e : l !! k = Some e →
    ∃ lg, g_log g !! e_term e = Some lg ∧ take (S k) l `prefix_of` lg;
}.

Lemma take_prefix_lookup {A} (l l' : list A) k j x :
  take k l `prefix_of` l' → (j < k)%nat → l !! j = Some x → l' !! j = Some x.
Proof.
  intros Hp Hj Hx. eapply prefix_lookup_Some; [|done]. by rewrite lookup_take_lt.
Qed.

Lemma prefix_take_eq {A} (l l' : list A) k :
  (k ≤ length l)%nat → take k l `prefix_of` l' → take k l' = take k l.
Proof.
  intros Hk [s ->]. rewrite take_app_le by (rewrite length_take; lia).
  rewrite take_take. f_equal. lia.
Qed.

Lemma take_eq_prefix {A} (l l' : list A) k : take k l' = take k l → take k l `prefix_of` l'.
Proof. intros <-. apply prefix_take. Qed.

Lemma prefix_take_mono {A} (l : list A) j k : (j ≤ k)%nat → take j l `prefix_of` take k l.
Proof.
  intros. replace (take j l) with (take j (take k l)) by (rewrite take_take; f_equal; lia).
  apply prefix_take.
Qed.

Lemma prefix_of_take {A} (l l' : list A) k :
  l `prefix_of` l' → (length l ≤ k)%nat → l `prefix_of` take k l'.
Proof.
  intros [s ->] ?. rewrite take_app_ge by lia. apply prefix_app_r. done.
Qed.

Lemma prefix_of_eq_length {A} (l l' : list A) : l `prefix_of` l' → l = take (length l) l'.
Proof. intros [s ->]. by rewrite take_app_length. Qed.

Lemma prefix_comparable {A} (l1 l2 l : list A) :
  l1 `prefix_of` l → l2 `prefix_of` l → (length l1 ≤ length l2)%nat → l1 `prefix_of` l2.
Proof.
  intros H1 H2 ?. rewrite (prefix_of_eq_length l1 l H1), (prefix_of_eq_length l2 l H2).
  by apply prefix_take_mono.
Qed.

Lemma log_ok_mono g g' l : ext g g' → log_ok g l → log_ok g' l.
Proof.
  intros E [W S A]. split; [done|done|]. intros k e He.
  destruct (A k e He) as (lg & Hl & P). apply E in Hl as (lg' & ? & ?).
  exists lg'. split; [done|]. by etransitivity.
Qed.

(** Log matching: entries of one term at one index come with equal prefixes. *)
Lemma log_matching g l l' k e e' :
  log_ok g l → log_ok g l' → l !! k = Some e → l' !! k = Some e' → e_term e = e_term e' →
  take (S k) l = take (S k) l'.
Proof.
  intros O O' He He' Ht.
  destruct (lo_anchor _ _ O k e He) as (lg & Hl & P).
  destruct (lo_anchor _ _ O' k e' He') as (lg' & Hl' & P').
  rewrite Ht in Hl. simplify_eq.
  apply lookup_lt_Some in He, He'.
  apply prefix_take_eq in P, P'; [|lia..]. congruence.
Qed.

(** The same, from the term check on the previous entry. *)
Lemma log_matching_at g l l' p t :
  log_ok g l → log_ok g l' → term_at p l = Some t → term_at p l' = Some t →
  take p l = take p l'.
Proof.
  intros O O' H1 H2. destruct p as [|k]; [done|].
  cbn [term_at] in *. apply fmap_Some in H1 as (e & He & ->), H2 as (e' & He' & ?).
  by eapply log_matching.
Qed.

Lemma log_ok_prefix g l l' : l `prefix_of` l' → log_ok g l' → log_ok g l.
Proof.
  intros P [W S A].
  assert (L : ∀ k e, l !! k = Some e → l' !! k = Some e) by eauto using prefix_lookup_Some.
  split; eauto. intros k e He. destruct (A k e (L _ _ He)) as (lg & ? & Q).
  exists lg. split; [done|]. etransitivity; [|exact Q].
  rewrite (prefix_of_eq_length l l' P), take_take. apply prefix_take_mono. lia.
Qed.

Lemma term_at_last l : term_at (length l) l = Some (last_term l).
Proof.
  destruct l as [|x l] using rev_ind; [done|].
  unfold last_term. rewrite last_snoc, length_app. cbn [length].
  rewrite Nat.add_comm. cbn. by rewrite lookup_app_r, Nat.sub_diag by lia.
Qed.

Lemma last_term_lookup l : l ≠ [] → ∃ e, l !! (length l - 1)%nat = Some e ∧ e_term e = last_term l.
Proof.
  intros Hn. destruct l as [|x l] using rev_ind; [done|]. exists x.
  unfold last_term. rewrite last_snoc, length_app. cbn [length].
  split; [|done]. rewrite lookup_app_r by lia. by replace (_ - _ - _)%nat with 0%nat by lia.
Qed.

(** An entry's term is at most the last one's. *)
Lemma last_term_ge g l k e : log_ok g l → l !! k = Some e → e_term e ≤ last_term l.
Proof.
  intros O He. pose proof (lookup_lt_Some _ _ _ He).
  destruct (last_term_lookup l) as (x & Hx & <-); [by intros ->|].
  eapply lo_sorted; [done| |done|done]. lia.
Qed.

Section Safety.
Context (V : gset N).

(** * What committing means *)

(** Entry [k] of the leader of [t], itself of term [t], is held by a quorum. *)
Definition chosen (g : ghost) (t : N) (k : nat) : Prop :=
  ∃ lg Q, g_log g !! t = Some lg ∧ (0 < k)%nat ∧ term_at k lg = Some t ∧ quorum V Q ∧
    ∀ v, v ∈ Q → ∃ m, (k ≤ m)%nat ∧ (t, v, m) ∈ g_ack g.

(** The first [c] entries of [l] are below a chosen entry of a term up to [T]. *)
Definition committed (g : ghost) (T : N) (c : nat) (l : list Entry) : Prop :=
  c = 0%nat ∨ ∃ t k lg, chosen g t k ∧ t ≤ T ∧ (c ≤ k)%nat ∧ g_log g !! t = Some lg ∧
    take c l = take c lg.

(** [l] still holds the first [k] entries of the leader of [t], or a leader of a
    term between [t] and [T] was elected without them. *)
Definition keeps (g : ghost) (t : N) (k : nat) (l : list Entry) (T : N) : Prop :=
  ∃ lg, g_log g !! t = Some lg ∧ (k ≤ length lg)%nat ∧
    (take k lg `prefix_of` l ∨
     ∃ t' j l0 Q, t < t' ∧ t' < T ∧ g_lead g !! t' = Some (j, l0, Q) ∧ ¬ take k lg `prefix_of` l0).

(** * The invariant *)

Record node_inv (g : ghost) (i : N) (a : anode) : Prop := mkNodeInv {
  ni_log : log_ok g (a_log a);
  ni_terms k e : a_log a !! k = Some e → e_term e ≤ a_term a;
  ni_voted c : a_voted a = Some c → ∃ lv, g_vote g !! (a_term a, i) = Some (c, lv);
  ni_unvoted : a_voted a = None → g_vote g !! (a_term a, i) = None;
  ni_future t : a_term a < t → g_vote g !! (t, i) = None ∧
    (∀ l0 Q, g_lead g !! t ≠ Some (i, l0, Q)) ∧ (∀ m, (t, i, m) ∉ g_ack g) ∧
    ∀ v lv, g_vote g !! (t, v) ≠ Some (i, lv);
  ni_votes : a_role a ≠ Follower → a_votes a ⊆ V ∧
    ∀ v, v ∈ a_votes a → ∃ lv, g_vote g !! (a_term a, v) = Some (i, lv);
  ni_cand : a_role a = Candidate →
    (∀ l0 Q, g_lead g !! a_term a ≠ Some (i, l0, Q)) ∧
    (∀ k e, a_log a !! k = Some e → e_term e < a_term a) ∧
    (∀ v lv, g_vote g !! (a_term a, v) = Some (i, lv) →
      up_to_date (length (a_log a)) (last_term (a_log a)) lv) ∧ 0 < a_term a;
  ni_lead : a_role a = Leader →
    (∃ l0 Q, g_lead g !! a_term a = Some (i, l0, Q)) ∧ g_log g !! a_term a = Some (a_log a) ∧
    (∀ v m, a_match a !! v = Some m → m = 0 ∨ (a_term a, v, N.to_nat m) ∈ g_ack g) ∧
    ∀ v k, a_next a !! v = Some k → 1 ≤ k ∧ (N.to_nat k ≤ S (length (a_log a)))%nat;
  ni_acks t m k : (t, i, m) ∈ g_ack g → (k ≤ m)%nat → keeps g t k (a_log a) (a_term a + 1);
  ni_commit : (a_commit a ≤ length (a_log a))%nat ∧
    committed g (a_term a) (a_commit a) (a_log a);
}.

Record term_inv (g : ghost) (T i : N) (l0 : list Entry) (Q : gset N) : Prop := mkTermInv {
  ti_log : ∃ lg, g_log g !! T = Some lg ∧ l0 `prefix_of` lg ∧ log_ok g lg ∧
    ∀ k e, lg !! k = Some e → e_term e ≤ T;
  ti_old k e : l0 !! k = Some e → e_term e < T;
  ti_pos : 0 < T;
  ti_quorum : quorum V Q;
  ti_votes v : v ∈ Q → ∃ lv, g_vote g !! (T, v) = Some (i, lv) ∧
    up_to_date (length l0) (last_term l0) lv;
}.

(** A vote that elected a leader, or still may, was cast by a node that kept what
    it had acknowledged in earlier terms. *)
Record vote_inv (g : ghost) (T v : N) (lv : list Entry) : Prop := mkVoteInv {
  vi_log : log_ok g lv;
  vi_keeps : (g_lead g !! T = None ∨ ∃ i l0 Q, g_lead g !! T = Some (i, l0, Q) ∧ v ∈ Q) →
    ∀ t m k, (t, v, m) ∈ g_ack g → t < T → (k ≤ m)%nat → keeps g t k lv T;
}.

Definition msg_inv (g : ghost) (nodes : N → anode) (m : Message) : Prop :=
  let a := nodes (m_from m) in
  match m_body m with
  | RequestVote lli llt => m_term m ≤ a_term a ∧
      (a_role a = Candidate → a_term a = m_term m →
       N.to_nat lli = length (a_log a) ∧ llt = last_term (a_log a))
  | RequestVoteResp true => ∃ lv, g_vote g !! (m_term m, m_from m) = Some (m_to m, lv)
  | AppendEntries prev pt es lc _ =>
      let p := (N.to_nat prev + length es)%nat in
      ∃ lg l0 Q, g_lead g !! m_term m = Some (m_from m, l0, Q) ∧ g_log g !! m_term m = Some lg ∧
        (p ≤ length lg)%nat ∧ es = slice (N.to_nat prev) p lg ∧
        term_at (N.to_nat prev) lg = Some pt ∧ (N.to_nat lc ≤ p)%nat ∧
        committed g (m_term m) (N.to_nat lc) lg
  | AppendEntriesResp true k _ => k = 0 ∨ (m_term m, m_from m, N.to_nat k) ∈ g_ack g
  | InstallSnapshot _ _ _ _ _ | InstallSnapshotResp _ => False
  | _ => True
  end.

Record inv (g : ghost) (s : astate) : Prop := mkInv {
  inv_node i : node_inv g i (s.1 i);
  inv_term T i l0 Q : g_lead g !! T = Some (i, l0, Q) → term_inv g T i l0 Q;
  inv_logs T lg : g_log g !! T = Some lg → ∃ i l0 Q, g_lead g !! T = Some (i, l0, Q);
  inv_vote T v c lv : g_vote g !! (T, v) = Some (c, lv) → vote_inv g T v lv;
  inv_msg m : m ∈ s.2 → msg_inv g s.1 m;
}.

(** * Growth *)

Lemma term_at_prefix k l l' t : l `prefix_of` l' → term_at k l = Some t → term_at k l' = Some t.
Proof.
  intros P. destruct k as [|k]; [done|]. cbn. rewrite !fmap_Some.
  intros (e & He & ->). eauto using prefix_lookup_Some.
Qed.

Lemma chosen_mono g g' t k : ext g g' → chosen g t k → chosen g' t k.
Proof.
  intros E (lg & Q & Hl & Hk & Ht & HQ & Ha). destruct (ext_log _ _ E _ _ Hl) as (lg' & Hl' & P).
  exists lg', Q. split_and!; eauto using term_at_prefix.
  intros v Hv. destruct (Ha v Hv) as (m & ? & ?). pose proof (ext_ack _ _ E). set_solver.
Qed.

Lemma chosen_length g t k lg : chosen g t k → g_log g !! t = Some lg → (k ≤ length lg)%nat.
Proof.
  intros (lg' & Q & Hl & Hk & Ht & _) ?. simplify_eq. destruct k as [|k]; [lia|].
  cbn in Ht. apply fmap_Some in Ht as (e & He & _). by apply lookup_lt_Some in He.
Qed.

Lemma committed_mono g g' T T' c l : ext g g' → T ≤ T' → committed g T c l → committed g' T' c l.
Proof.
  intros E HT [->|(t & k & lg & Hc & Ht & Hk & Hl & Heq)]; [by left|]. right.
  pose proof (chosen_length _ _ _ _ Hc Hl).
  destruct (ext_log _ _ E _ _ Hl) as (lg' & Hl' & P).
  exists t, k, lg'. split_and!; [by eapply chosen_mono|lia|done|done|].
  rewrite Heq. symmetry. apply prefix_take_eq; [lia|]. etransitivity; [apply prefix_take|done].
Qed.

Lemma keeps_mono g g' t k l T T' : ext g g' → T ≤ T' → keeps g t k l T → keeps g' t k l T'.
Proof.
  intros E HT (lg & Hl & Hk & Hc). destruct (ext_log _ _ E _ _ Hl) as (lg' & Hl' & P).
  assert (take k lg' = take k lg) as Heq.
  { apply prefix_take_eq; [done|]. etransitivity; [apply prefix_take|done]. }
  exists lg'. split_and!; [done|apply prefix_length in P; lia|]. rewrite Heq.
  destruct Hc as [?|(t' & j & l0 & Q & ? & ? & HI & ?)]; [by left|right].
  exists t', j, l0, Q. split_and!; [done|lia| |done].
  eapply lookup_weaken; [done|]. apply E.
Qed.

Lemma keeps_log g t k l l' T : l `prefix_of` l' → keeps g t k l T → keeps g t k l' T.
Proof.
  intros P (lg & ? & ? & [?|?]); exists lg; split_and!; auto. left. by etransitivity.
Qed.

(** * Leader completeness *)

Lemma quorum_meet Q1 Q2 : quorum V Q1 → quorum V Q2 → ∃ v, v ∈ Q1 ∧ v ∈ Q2.
Proof.
  intros [S1 L1] [S2 L2]. destruct (decide (Q1 ∩ Q2 = ∅)) as [E|E].
  - assert (size (Q1 ∪ Q2) ≤ size V)%nat as Hs by (by apply subseteq_size, union_least).
    rewrite size_union in Hs by set_solver. lia.
  - apply set_choose_L in E as [v Hv]. exists v. set_solver.
Qed.

(** The log of a leader that was elected on votes whose logs all hold a chosen
    prefix holds it too. *)
Lemma elected_has_prefix g s T i l0 Q lv t k lg :
  inv g s → g_lead g !! T = Some (i, l0, Q) →
  log_ok g lv → up_to_date (length l0) (last_term l0) lv →
  term_at k lg = Some t → (0 < k)%nat → take k lg `prefix_of` lv →
  (∀ t' j l1 Q1, t < t' → t' < T → g_lead g !! t' = Some (j, l1, Q1) → take k lg `prefix_of` l1) →
  take k lg `prefix_of` l0.
Proof.
  intros Hi HT Ov Hu Hk Hk0 Hp IH.
  destruct (inv_term _ _ Hi _ _ _ _ HT) as [(lT & HlT & PT & OT & _) Hold _ _ _].
  assert (O0 : log_ok g l0) by eauto using log_ok_prefix.
  destruct k as [|k]; [lia|]. cbn in Hk. apply fmap_Some in Hk as (e & He & ->).
  assert (Hev : lv !! k = Some e) by (eapply take_prefix_lookup; [done|lia|done]).
  pose proof (lo_wf _ _ Ov _ _ Hev) as (_ & _ & Hpos).
  pose proof (last_term_ge _ _ _ _ Ov Hev) as Hlast.
  assert (l0 ≠ []) as Hne.
  { intros ->. destruct Hu as [Hu|[Hu _]]; cbn in Hu; lia. }
  destruct (last_term_lookup l0 Hne) as (x & Hx & Htx).
  destruct (lo_anchor _ _ O0 _ _ Hx) as (lx & Hlx & Px).
  assert (0 < length l0)%nat by (destruct l0; cbn; [done|lia]).
  rewrite take_ge in Px by lia. rewrite Htx in Hlx.
  destruct Hu as [Hu|[Hu Hlen]].
  - destruct (inv_logs _ _ Hi _ _ Hlx) as (j & l1 & Q1 & HI).
    assert (last_term l0 < T) by (rewrite <- Htx; eauto).
    assert (take (S k) lg `prefix_of` l1) as Hp1 by (eapply IH; [|done|done]; lia).
    destruct (inv_term _ _ Hi _ _ _ _ HI) as [(lx' & HlT' & P1 & _ & _) Hold1 _ _ _].
    simplify_eq. etransitivity; [exact Hp1|]. eapply prefix_comparable; [done..|].
    destruct (decide (length l1 ≤ length l0)%nat) as [|Hgt]; [done|exfalso].
    destruct (lookup_lt_is_Some_2 l1 (length l0 - 1)) as [y Hy]; [lia|].
    pose proof (prefix_lookup_Some _ _ _ _ Hx Px). pose proof (prefix_lookup_Some _ _ _ _ Hy P1).
    simplify_eq. apply Hold1 in Hy. lia.
  - assert (lv ≠ []) as Hnv by (intros ->; done).
    destruct (last_term_lookup lv Hnv) as (y & Hy & Hty).
    destruct (lo_anchor _ _ Ov _ _ Hy) as (ly & Hly & Py).
    rewrite take_ge in Py by lia. rewrite Hty, Hu in Hly. simplify_eq.
    etransitivity; [exact Hp|]. by eapply prefix_comparable.
Qed.

Lemma leader_completeness g s T i l0 Q t k lg :
  inv g s → g_lead g !! T = Some (i, l0, Q) → chosen g t k → g_log g !! t = Some lg → t < T →
  take k lg `prefix_of` l0.
Proof.
  intros Hi HT Hc Hl Htlt. revert i l0 Q HT Htlt.
  induction T as [T IH] using (well_founded_induction N.lt_wf_0). intros i l0 Q HT Hlt.
  destruct Hc as (lg' & Qc & ? & Hk & Hterm & HQc & Hack). simplify_eq.
  pose proof (inv_term _ _ Hi _ _ _ _ HT) as HTi.
  destruct (quorum_meet Qc Q HQc (ti_quorum _ _ _ _ _ HTi)) as (v & Hv1 & Hv2).
  destruct (Hack v Hv1) as (m & Hkm & Hm).
  destruct (ti_votes _ _ _ _ _ HTi v Hv2) as (lv & Hvote & Hup).
  pose proof (inv_vote _ _ Hi _ _ _ _ Hvote) as [Ov Hkeep].
  destruct (Hkeep ltac:(right; eauto 6) t m k Hm Hlt Hkm) as (lg2 & ? & _ & Hp). simplify_eq.
  assert (take k lg' `prefix_of` lv).
  { destruct Hp as [|(t' & j & l1 & Q1 & ? & ? & HI & Hn)]; [done|]. destruct Hn. eauto. }
  eapply elected_has_prefix; eauto.
Qed.

(** The log of the leader of [T] holds what was chosen in terms up to [T]. *)
Lemma leader_has_chosen g s T i l0 Q lT t k lg :
  inv g s → g_lead g !! T = Some (i, l0, Q) → g_log g !! T = Some lT →
  chosen g t k → g_log g !! t = Some lg → t ≤ T → take k lg `prefix_of` lT.
Proof.
  intros Hi HT HlT Hc Hl Hle. destruct (decide (t = T)) as [->|].
  - simplify_eq. apply prefix_take.
  - destruct (inv_term _ _ Hi _ _ _ _ HT) as [(lT' & ? & P & _) _ _ _ _]. simplify_eq.
    etransitivity; [|exact P]. eapply leader_completeness; eauto. lia.
Qed.

(** * Local changes

    A micro-step of node [i] changes the history only at its own term: its vote,
    its acknowledgements, and — if it leads — the log of the term. *)
Record ext_by (i T : N) (g g' : ghost) : Prop := mkExtBy {
  eb_ext : ext g g';
  eb_log t : t ≠ T → g_log g' !! t = g_log g !! t;
  eb_lead t : t ≠ T → g_lead g' !! t = g_lead g !! t;
  eb_lead_T : g_lead g' !! T = g_lead g !! T ∨
    g_lead g !! T = None ∧ ∃ l0 Q, g_lead g' !! T = Some (i, l0, Q);
  eb_log_T : g_log g' !! T = g_log g !! T ∨ ∃ l0 Q, g_lead g' !! T = Some (i, l0, Q);
  eb_vote t v : (t, v) ≠ (T, i) → g_vote g' !! (t, v) = g_vote g !! (t, v);
  eb_ack t v m : (t, v, m) ∈ g_ack g' → (t, v, m) ∈ g_ack g ∨ t = T ∧ v = i;
}.

Lemma ext_by_refl i T g : ext_by i T g g.
Proof. split; auto. done. Qed.

Section ExtBy.
Context (g g' : ghost) (s : astate) (i T : N).
Hypothesis Hinv : inv g s.
Hypothesis Hext : ext_by i T g g'.
Hypothesis Hterm : a_term (s.1 i) ≤ T.

Let Hgrow : ext g g' := eb_ext _ _ _ _ Hext.

Lemma ext_by_lead_other t j l0 Q :
  j ≠ i → g_lead g' !! t = Some (j, l0, Q) → g_lead g !! t = Some (j, l0, Q).
Proof.
  intros Hj HI. destruct (decide (t = T)) as [->|]; [|by rewrite <- (eb_lead _ _ _ _ Hext)].
  destruct (eb_lead_T _ _ _ _ Hext) as [<-|(_ & l1 & Q1 & ?)]; [done|]. simplify_eq.
Qed.

(** The other nodes: their obligations carry over, given that a new vote suits the
    candidate it is for. *)
Lemma ext_by_node j :
  j ≠ i →
  (∀ lv, g_vote g' !! (T, i) = Some (j, lv) → T ≤ a_term (s.1 j) ∧
     (a_role (s.1 j) = Candidate → a_term (s.1 j) = T →
      up_to_date (length (a_log (s.1 j))) (last_term (a_log (s.1 j))) lv)) →
  node_inv g' j (s.1 j).
Proof.
  intros Hj Hup. destruct (inv_node _ _ Hinv j) as [Olog Ot Ov Ou Of Ovs Oc Ol Oa Ocm].
  assert (Hv : ∀ t, g_vote g' !! (t, j) = g_vote g !! (t, j)).
  { intros t. apply (eb_vote _ _ _ _ Hext). congruence. }
  assert (Hack : ∀ t m, (t, j, m) ∈ g_ack g' → (t, j, m) ∈ g_ack g).
  { intros t m [|[_ ?]]%(eb_ack _ _ _ _ Hext); [done|congruence]. }
  split.
  - eauto using log_ok_mono.
  - done.
  - intros c Hc. rewrite Hv. eauto.
  - rewrite Hv. done.
  - intros t Ht. destruct (Of t Ht) as (F1 & F2 & F3 & F4). rewrite Hv.
    split_and!; [done| |intros m Hm; by eapply F3, Hack|].
    + intros l0 Q HI. eapply F2, ext_by_lead_other; eauto.
    + intros v lv Hvote. destruct (decide ((t, v) = (T, i))) as [[= -> ->]|Hne].
      { apply Hup in Hvote as [? _]. lia. }
      rewrite (eb_vote _ _ _ _ Hext) in Hvote by done. by eapply F4.
  - intros Hr. destruct (Ovs Hr) as [? Hvs]. split; [done|]. intros v Hin.
    destruct (Hvs v Hin) as [lv ?]. exists lv. eapply lookup_weaken; [done|apply Hgrow].
  - intros Hr. destruct (Oc Hr) as (C1 & C2 & C3 & C4). split_and!; [|done| |done].
    { intros l0 Q HI. eapply C1, ext_by_lead_other; eauto. }
    intros v lv Hvote. destruct (decide ((a_term (s.1 j), v) = (T, i))) as [[= Et ->]|Hne].
    { rewrite Et in Hvote. by apply Hup. }
    apply (C3 v). by rewrite <- (eb_vote _ _ _ _ Hext).
  - intros Hr. destruct (Ol Hr) as ((l0 & Q & L1) & L2 & L3 & L4).
    assert (HI : g_lead g' !! a_term (s.1 j) = Some (j, l0, Q))
      by (eapply lookup_weaken; [done|apply Hgrow]).
    split_and!; [by eauto| | |done].
    + destruct (decide (a_term (s.1 j) = T)) as [Et|]; [|by rewrite (eb_log _ _ _ _ Hext)].
      rewrite Et in HI, L2 |- *. destruct (eb_log_T _ _ _ _ Hext) as [->|(l1 & Q1 & ?)]; [done|]. congruence.
    + intros v m Hm. destruct (L3 v m Hm) as [|Hin]; [by left|right]. by apply Hgrow.
  - intros t m k Hin Hk. eapply keeps_mono; [done|done|]. eauto.
  - destruct Ocm. split; [done|]. by eapply committed_mono.
Qed.

Lemma ext_by_votes U v c lv :
  g_vote g !! (U, v) = Some (c, lv) → vote_inv g' U v lv.
Proof.
  intros Hvote.
  destruct (inv_vote _ _ Hinv _ _ _ _ Hvote) as [Ov Ok]. split; [by eapply log_ok_mono|].
  intros Hlead t m k Hack Ht Hk. eapply keeps_mono; [done|done|]. apply (Ok) with m; try done.
  - destruct Hlead as [HI|(j & l0 & Q & HI & Hin)].
    { left. eapply lookup_weaken_None; [done|apply Hgrow]. }
    destruct (decide (U = T)) as [->|].
    + destruct (eb_lead_T _ _ _ _ Hext) as [HT|[? _]]; [|by left]. right. rewrite HT in HI. eauto 6.
    + right. rewrite (eb_lead _ _ _ _ Hext) in HI by done. eauto 6.
  - destruct (eb_ack _ _ _ _ Hext _ _ _ Hack) as [|[-> ->]]; [done|exfalso].
    destruct (ni_future _ _ _ (inv_node _ _ Hinv i) U) as [? _]; [lia|]. congruence.
Qed.

(** Leaders recorded before. *)
Lemma ext_by_term t j l0 Q :
  g_lead g !! t = Some (j, l0, Q) →
  (∀ lg, g_log g' !! T = Some lg → g_log g !! T ≠ Some lg →
     log_ok g' lg ∧ ∀ k e, lg !! k = Some e → e_term e ≤ T) →
  term_inv g' t j l0 Q.
Proof.
  intros HI Hnew. destruct (inv_term _ _ Hinv _ _ _ _ HI) as [(lg & Hl & P & Ol & Ot) Hold Hp HQ Hv].
  split; [|done..|].
  - destruct (ext_log _ _ Hgrow _ _ Hl) as (lg' & Hl' & P'). exists lg'.
    split; [done|]. split; [by etransitivity|].
    destruct (decide (lg = lg')) as [<-|Hne]; [by eauto using log_ok_mono|].
    destruct (decide (t = T)) as [->|]; [apply Hnew; congruence|].
    rewrite (eb_log _ _ _ _ Hext) in Hl' by done. congruence.
  - intros v Hin. destruct (Hv v Hin) as (lv & ? & ?). exists lv. split; [|done].
    eapply lookup_weaken; [done|apply Hgrow].
Qed.

Lemma ext_by_msg a' m :
  (a_role a' = Candidate → a_term (s.1 i) = a_term a' →
     a_role (s.1 i) = Candidate ∧ a_log a' = a_log (s.1 i)) →
  a_term a' = T → msg_inv g s.1 m → msg_inv g' (upd i a' s.1) m.
Proof.
  intros Hst Ha'. unfold msg_inv. destruct (m_body m) as [| [] |pli plt es lc rr|[] | | |]; try done.
  - unfold upd. destruct (N.eqb_spec (m_from m) i) as [->|]; [|done].
    intros [Hle Hc]. split; [lia|]. intros Hr Ht. destruct Hst as [Hr' ->]; [done|lia|].
    apply Hc; [done|lia].
  - intros [lv ?]. exists lv. eapply lookup_weaken; [done|apply Hgrow].
  - intros (lg & l0 & Q & HI & Hl & Hp & Hes & Hpt & Hlc & Hcm).
    destruct (ext_log _ _ Hgrow _ _ Hl) as (lg' & Hl' & P).
    assert (Hpre : take (N.to_nat pli + length es) lg' = take (N.to_nat pli + length es) lg).
    { apply prefix_take_eq; [done|]. etransitivity; [apply prefix_take|done]. }
    exists lg', l0, Q. split_and!; [| |apply prefix_length in P; lia| |by eapply term_at_prefix|done|].
    + eapply lookup_weaken; [done|apply Hgrow].
    + done.
    + rewrite Hes at 1. unfold slice. rewrite <- !skipn_firstn_comm.
      by replace (_ + _)%nat with (N.to_nat pli + length es)%nat by lia; rewrite Hpre.
    + eapply committed_mono in Hcm; [|done|reflexivity].
      destruct Hcm as [->|(t & k & lx & ? & ? & ? & ? & Heq)]; [by left|right].
      exists t, k, lx. split_and!; try done. rewrite <- Heq.
      apply prefix_take_eq; [lia|]. etransitivity; [apply prefix_take|done].
  - intros [->|?]; [by left|right]. by apply Hgrow.
Qed.
End ExtBy.

(** A micro-step keeps the invariant when the node keeps its own, and what it adds
    to the history and to the network is sound. *)
Lemma inv_update g g' nodes net i a' out :
  inv g (nodes, net) → ext_by i (a_term a') g g' → a_term (nodes i) ≤ a_term a' →
  node_inv g' i a' →
  (∀ c lv, g_vote g !! (a_term a', i) = None → g_vote g' !! (a_term a', i) = Some (c, lv) →
     vote_inv g' (a_term a') i lv ∧ (c ≠ i → a_term a' ≤ a_term (nodes c)) ∧
     (c ≠ i → a_role (nodes c) = Candidate → a_term (nodes c) = a_term a' →
      up_to_date (length (a_log (nodes c))) (last_term (a_log (nodes c))) lv)) →
  (∀ lg, g_log g' !! a_term a' = Some lg → g_log g !! a_term a' ≠ Some lg →
     (log_ok g' lg ∧ ∀ k e, lg !! k = Some e → e_term e ≤ a_term a') ∧
     ∃ j l0 Q, g_lead g' !! a_term a' = Some (j, l0, Q)) →
  (∀ j l0 Q, g_lead g !! a_term a' = None → g_lead g' !! a_term a' = Some (j, l0, Q) →
     term_inv g' (a_term a') j l0 Q) →
  (a_role a' = Candidate → a_term (nodes i) = a_term a' →
     a_role (nodes i) = Candidate ∧ a_log a' = a_log (nodes i)) →
  (∀ m, m ∈ out → msg_inv g' (upd i a' nodes) m) →
  inv g' (upd i a' nodes, net ++ out).
Proof.
  intros Hi Hx Hle Hn Hv Hlg Hld Hst Hout.
  assert (HL : ∀ t lg, g_log g' !! t = Some lg → g_log g !! t ≠ Some lg → t = a_term a').
  { intros t lg H1 H2. destruct (decide (t = a_term a')); [done|].
    rewrite (eb_log _ _ _ _ Hx) in H1; congruence. }
  split; cbn [fst snd].
  - intros j. unfold upd. destruct (N.eqb_spec j i) as [->|Hj]; [done|].
    apply (ext_by_node g g' (nodes, net) i _ Hi Hx Hle j Hj). cbn. intros lv Hvote.
    destruct (g_vote g !! (a_term a', i)) as [[c lv0]|] eqn:E.
    + pose proof (lookup_weaken _ _ _ _ E (ext_vote _ _ (eb_ext _ _ _ _ Hx))). simplify_eq. split.
      * destruct (decide (a_term a' ≤ a_term (nodes j))) as [|Hgt]; [done|exfalso].
        destruct (ni_future _ _ _ (inv_node _ _ Hi j) (a_term a')) as (_ & _ & _ & F);
          [cbn; lia|by eapply F].
      * intros Hr Ht. rewrite <- Ht in E.
        by destruct (ni_cand _ _ _ (inv_node _ _ Hi j) Hr) as (_ & _ & C & _); eapply C.
    + destruct (Hv _ _ eq_refl Hvote) as (_ & Hc & Hup). auto.
  - intros t j l0 Q HI. destruct (g_lead g !! t) as [[[j1 l1] Q1]|] eqn:E.
    + pose proof (lookup_weaken _ _ _ _ E (ext_lead _ _ (eb_ext _ _ _ _ Hx))). simplify_eq.
      eapply (ext_by_term g g' (nodes, net) i _ Hi Hx); [done|]. intros lg H1 H2. by apply Hlg.
    + destruct (decide (t = a_term a')) as [->|]; [by apply Hld|].
      rewrite (eb_lead _ _ _ _ Hx) in HI; congruence.
  - intros t lg Hl. destruct (decide (g_log g !! t = Some lg)) as [E|E].
    + destruct (inv_logs _ _ Hi _ _ E) as (j & l0 & Q & HI). exists j, l0, Q.
      eapply lookup_weaken; [done|apply Hx].
    + assert (t = a_term a') as -> by eauto. by destruct (Hlg _ Hl E).
  - intros U v c lv Hvote. destruct (g_vote g !! (U, v)) as [[c0 lv0]|] eqn:E.
    + pose proof (lookup_weaken _ _ _ _ E (ext_vote _ _ (eb_ext _ _ _ _ Hx))). simplify_eq.
      by eapply (ext_by_votes g g' (nodes, net)).
    + destruct (decide ((U, v) = (a_term a', i))) as [[= -> ->]|];
        [by eapply Hv|rewrite (eb_vote _ _ _ _ Hx) in Hvote; congruence].
  - intros m [Hm|Hm]%elem_of_app; [|by apply Hout].
    eapply (ext_by_msg g g' (nodes, net) i _ Hx Hle); [done|done|]. by apply (inv_msg _ _ Hi m).
Qed.

(** The same when the history does not change. *)
Lemma inv_local g nodes net i a' out :
  inv g (nodes, net) → a_term (nodes i) ≤ a_term a' → node_inv g i a' →
  (a_role a' = Candidate → a_term (nodes i) = a_term a' →
     a_role (nodes i) = Candidate ∧ a_log a' = a_log (nodes i)) →
  (∀ m, m ∈ out → msg_inv g (upd i a' nodes) m) →
  inv g (upd i a' nodes, net ++ out).
Proof.
  intros. eapply inv_update; try done; eauto using ext_by_refl; intros; congruence.
Qed.
End Safety.
