(* ===== verification/RaftInvariant.v ===== *)
(** Every micro-step of [RaftProto] preserves the invariant of [RaftSafety]. *)

From stdpp Require Import base list numbers gmap.
From Stdlib Require Import Strings.Byte.
From S2P Require Import Prelude RaftMessage RaftStorage RaftNode RaftProto RaftSafety.

Section Steps.
Context (V : gset N).
#[local] Abbreviation inv := (RaftSafety.inv V).
#[local] Abbreviation node_inv := (RaftSafety.node_inv V).

Lemma inv_at g nodes net i : inv g (nodes, net) → node_inv g i (nodes i).
Proof. intros Hi. exact (inv_node _ _ _ Hi i). Qed.

(** * History updates *)

Definition add_vote (T i c : N) (lv : list Entry) (g : ghost) : ghost :=
  g <| g_vote := <[(T, i) := (c, lv)]> (g_vote g) |>.
Definition add_ack (T i : N) (m : nat) (g : ghost) : ghost :=
  g <| g_ack := {[(T, i, m)]} ∪ g_ack g |>.
Definition set_log (T : N) (l : list Entry) (g : ghost) : ghost :=
  g <| g_log := <[T := l]> (g_log g) |>.
Definition add_lead (T i : N) (l : list Entry) (Q : gset N) (g : ghost) : ghost :=
  g <| g_lead := <[T := (i, l, Q)]> (g_lead g) |>.

Lemma add_vote_ext T i c lv g : g_vote g !! (T, i) = None → ext_by i T g (add_vote T i c lv g).
Proof.
  intros Hn. split; cbn; auto.
  - split; cbn; [by eauto|done|by apply insert_subseteq|done].
  - intros t v Hne. by rewrite lookup_insert_ne.
Qed.

Lemma add_ack_ext T i m g : ext_by i T g (add_ack T i m g).
Proof.
  split; cbn; auto.
  - split; cbn; [by eauto|done|done|set_solver].
  - set_solver.
Qed.

(** The leader of [T] lengthens its log, and holds all of it. *)
Lemma set_log_ext T i l l' l0 Q g :
  g_lead g !! T = Some (i, l0, Q) → g_log g !! T = Some l → l `prefix_of` l' →
  ext_by i T g (add_ack T i (length l') (set_log T l' g)).
Proof.
  intros HI Hl P. split; cbn; eauto.
  - split; cbn; [|done|done|set_solver]. intros t lx Hx. destruct (decide (t = T)) as [->|].
    + rewrite lookup_insert_eq. simplify_eq. eauto.
    + rewrite lookup_insert_ne by done. eauto.
  - intros t Ht. by rewrite lookup_insert_ne.
  - set_solver.
Qed.

Lemma add_lead_ext T i l Q g :
  g_lead g !! T = None → g_log g !! T = None →
  ext_by i T g (add_ack T i (length l) (set_log T l (add_lead T i l Q g))).
Proof.
  intros HI Hl. split; cbn.
  - split; cbn; [|by apply insert_subseteq|done|set_solver].
    intros t lx Hx. rewrite lookup_insert_ne by congruence. eauto.
  - intros t Ht. by rewrite lookup_insert_ne.
  - intros t Ht. by rewrite lookup_insert_ne.
  - right. split; [done|]. rewrite lookup_insert_eq. eauto.
  - right. rewrite lookup_insert_eq. eauto.
  - done.
  - set_solver.
Qed.

(** * Steps that leave the history alone *)

Lemma upd_eq {A} i (x : A) f : upd i x f i = x.
Proof. unfold upd. by rewrite N.eqb_refl. Qed.
Lemma upd_ne {A} i j (x : A) f : j ≠ i → upd i x f j = f j.
Proof. intros. unfold upd. by destruct (N.eqb_spec j i). Qed.

(** A node that becomes a follower, in this term or a later one, without having
    voted in it. *)
Lemma node_inv_follow g i a a' :
  node_inv g i a → a_role a' = Follower → a_log a' = a_log a → (a_commit a' ≤ a_commit a)%nat →
  (a_term a' = a_term a ∧ a_voted a' = a_voted a) ∨ (a_term a < a_term a' ∧ a_voted a' = None) →
  node_inv g i a'.
Proof.
  intros [Olog Ot Ov Ou Of Ovs Oc Ol Oa [Ocl Ocm]] Hr Hl Hc Hv.
  assert (Hle : a_term a ≤ a_term a') by lia.
  split; rewrite ?Hl, ?Hr; try done.
  - intros k e He. apply Ot in He. lia.
  - intros c. destruct Hv as [[-> ->]|[_ ->]]; [apply Ov|done].
  - destruct Hv as [[-> ->]|[? _]]; [done|]. intros _. by apply Of.
  - intros t Ht. apply Of. lia.
  - intros t m k Hin Hk. eapply keeps_mono; [done| |by eapply Oa]. lia.
  - split; [lia|]. destruct Ocm as [H0|(t & k & lg & ? & ? & ? & ? & Heq)]; [left; lia|right].
    exists t, k, lg. split_and!; try done; try lia.
    apply (f_equal (take (a_commit a'))) in Heq. rewrite !take_take in Heq.
    by replace (a_commit a' `min` a_commit a)%nat with (a_commit a') in Heq by lia.
Qed.

Lemma inv_follow g nodes net i a' :
  inv g (nodes, net) → a_role a' = Follower → a_log a' = a_log (nodes i) →
  (a_commit a' ≤ a_commit (nodes i))%nat →
  (a_term a' = a_term (nodes i) ∧ a_voted a' = a_voted (nodes i)) ∨
    (a_term (nodes i) < a_term a' ∧ a_voted a' = None) →
  inv g (upd i a' nodes, net ++ []).
Proof.
  intros Hi Hr Hl Hc Hv. eapply inv_local; [done|lia| |congruence|set_solver].
  eapply node_inv_follow; [apply (inv_at _ _ _ i Hi)|done..].
Qed.

(** A node that only emits a message. *)
Lemma inv_emit g nodes net i m :
  inv g (nodes, net) → msg_inv V g nodes m → inv g (upd i (nodes i) nodes, net ++ [m]).
Proof.
  intros Hi Hm. eapply inv_local; [done|done|apply (inv_at _ _ _ i Hi)|done|].
  intros m' ->%list_elem_of_singleton. revert Hm. unfold msg_inv.
  destruct (m_body m) as [| [] | |[] | | |]; try done.
  unfold upd. destruct (N.eqb_spec (m_from m) i) as [->|]; done.
Qed.

Lemma inv_reqvote g nodes net i c :
  inv g (nodes, net) →
  inv g (upd i (nodes i) nodes, net ++ [mkMessage i c (a_term (nodes i))
    (RequestVote (N.of_nat (length (a_log (nodes i)))) (last_term (a_log (nodes i))))]).
Proof. intros Hi. apply inv_emit; [done|]. cbn. split; [done|]. by rewrite Nat2N.id. Qed.

Lemma inv_grant g nodes net i c :
  inv g (nodes, net) → a_voted (nodes i) = Some c →
  inv g (upd i (nodes i) nodes, net ++ [mkMessage i c (a_term (nodes i)) (RequestVoteResp true)]).
Proof. intros Hi Hv. apply inv_emit; [done|]. cbn. by apply (ni_voted _ _ _ _ (inv_at _ _ _ i Hi)). Qed.

Lemma inv_inert g nodes net i to t b :
  inv g (nodes, net) → inert b → inv g (upd i (nodes i) nodes, net ++ [mkMessage i to t b]).
Proof.
  intros Hi Hb. apply inv_emit; [done|].
  destruct b as [| [] | |[] [|k] | | |]; try done. by left.
Qed.

Lemma inv_append g nodes net i to prev pt rr :
  inv g (nodes, net) → a_role (nodes i) = Leader → (prev ≤ length (a_log (nodes i)))%nat →
  term_at prev (a_log (nodes i)) = Some pt →
  inv g (upd i (nodes i) nodes, net ++ [mkMessage i to (a_term (nodes i))
    (AppendEntries (N.of_nat prev) pt (drop prev (a_log (nodes i)))
       (N.of_nat (a_commit (nodes i))) rr)]).
Proof.
  intros Hi Hr Hp Ht. apply inv_emit; [done|]. cbn. rewrite !Nat2N.id, length_drop.
  destruct (inv_at _ _ _ i Hi) as [Olog _ _ _ _ _ _ Ol _ [Ocl Ocm]].
  destruct (Ol Hr) as ((l0 & Q & HI) & Hl & _).
  exists (a_log (nodes i)), l0, Q. split_and!; try done; try lia.
  unfold slice. rewrite take_ge; [done|]. rewrite length_drop. lia.
Qed.

Lemma inv_count g nodes net i v :
  inv g (nodes, net) → a_role (nodes i) = Candidate → v ∈ V →
  mkMessage v i (a_term (nodes i)) (RequestVoteResp true) ∈ net →
  inv g (upd i ((nodes i) <| a_votes := {[v]} ∪ a_votes (nodes i) |>) nodes, net ++ []).
Proof.
  intros Hi Hr Hv Hm. eapply inv_local; [done|done| |done|set_solver].
  destruct (inv_at _ _ _ i Hi) as [Olog Ot Ov Ou Of Ovs Oc Ol Oa Ocm].
  split; cbn; try done.
  intros Hf. destruct (Ovs Hf) as [HV Hvs]. split; [set_solver|].
  intros w [->%elem_of_singleton|Hw]%elem_of_union; [|by apply Hvs].
  exact (inv_msg _ _ _ Hi _ Hm).
Qed.

Lemma inv_match g nodes net i v m rr :
  inv g (nodes, net) → a_role (nodes i) = Leader →
  mkMessage v i (a_term (nodes i)) (AppendEntriesResp true m rr) ∈ net →
  let m' := N.max m (default 0 (a_match (nodes i) !! v)) in
  inv g (upd i ((nodes i) <| a_match := <[v := m']> (a_match (nodes i)) |>
    <| a_next := <[v := m' + 1]> (a_next (nodes i)) |>) nodes, net ++ []).
Proof.
  intros Hi Hr Hm m'. eapply inv_local; [done|done| |cbn; congruence|set_solver].
  destruct (inv_at _ _ _ i Hi) as [Olog Ot Ov Ou Of Ovs Oc Ol Oa Ocm].
  split; cbn; try done.
  intros _. destruct (Ol Hr) as ((l0 & Q & HI) & Hl & Hmt & Hnx).
  assert (Hm' : m' = 0 ∨ (a_term (nodes i), v, N.to_nat m') ∈ g_ack g).
  { pose proof (inv_msg _ _ _ Hi _ Hm) as Hin. cbn in Hin. unfold m'.
    destruct (N.max_spec m (default 0 (a_match (nodes i) !! v))) as [[_ ->]|[_ ->]]; [|done].
    destruct (a_match (nodes i) !! v) eqn:E; cbn; [by eapply Hmt|by left]. }
  split_and!; [by eauto|done| |].
  - intros w k. destruct (decide (w = v)) as [->|].
    + rewrite lookup_insert_eq. intros [= <-]. done.
    + rewrite lookup_insert_ne by done. apply Hmt.
  - intros w k. destruct (decide (w = v)) as [->|].
    + rewrite lookup_insert_eq. intros [= <-]. split; [lia|].
      destruct Hm' as [->|Hin]; [cbn; lia|].
      pose proof (ni_acks _ _ _ _ (inv_at _ _ _ v Hi) _ _ _ Hin (Nat.le_refl _)) as (lg & Hlg & Hk & _).
      simplify_eq. lia.
    + rewrite lookup_insert_ne by done. apply Hnx.
Qed.

Lemma inv_next g nodes net i v k :
  inv g (nodes, net) → a_role (nodes i) = Leader → 1 ≤ k →
  (N.to_nat k ≤ S (length (a_log (nodes i))))%nat →
  inv g (upd i ((nodes i) <| a_next := <[v := k]> (a_next (nodes i)) |>) nodes, net ++ []).
Proof.
  intros Hi Hr Hk1 Hk2. eapply inv_local; [done|done| |cbn; congruence|set_solver].
  destruct (inv_at _ _ _ i Hi) as [Olog Ot Ov Ou Of Ovs Oc Ol Oa Ocm].
  split; cbn; try done.
  intros _. destruct (Ol Hr) as (? & ? & ? & Hnx). split_and!; [done..|].
  intros w j. destruct (decide (w = v)) as [->|].
  - rewrite lookup_insert_eq. intros [= <-]. done.
  - rewrite lookup_insert_ne by done. apply Hnx.
Qed.

(** What a leader may commit is chosen. *)
Lemma leader_chooses g nodes net i k Q :
  inv g (nodes, net) → a_role (nodes i) = Leader → (0 < k)%nat →
  term_at k (a_log (nodes i)) = Some (a_term (nodes i)) → quorum V Q →
  (∀ v, v ∈ Q → (k ≤ N.to_nat (default 0%N (a_match (nodes i) !! v)))%nat) →
  chosen V g (a_term (nodes i)) k.
Proof.
  intros Hi Hr Hk Ht HQ Hm. destruct (ni_lead _ _ _ _ (inv_at _ _ _ i Hi) Hr) as (_ & Hl & Hmt & _).
  exists (a_log (nodes i)), Q. split_and!; try done. intros v Hv.
  specialize (Hm v Hv). destruct (a_match (nodes i) !! v) as [m|] eqn:E; cbn in Hm; [|lia].
  exists (N.to_nat m). split; [done|]. destruct (Hmt _ _ E) as [->|?]; [cbn in Hm; lia|done].
Qed.

Lemma inv_commit g nodes net i k Q :
  inv g (nodes, net) → a_role (nodes i) = Leader → (a_commit (nodes i) < k)%nat →
  term_at k (a_log (nodes i)) = Some (a_term (nodes i)) → quorum V Q →
  (∀ v, v ∈ Q → k ≤ N.to_nat (default 0%N (a_match (nodes i) !! v)))%nat →
  inv g (upd i ((nodes i) <| a_commit := k |>) nodes, net ++ []).
Proof.
  intros Hi Hr Hk Ht HQ Hm. eapply inv_local; [done|done| |cbn; congruence|set_solver].
  assert (chosen V g (a_term (nodes i)) k) as Hch by (eapply leader_chooses; [done|done|lia|done..]).
  destruct (inv_at _ _ _ i Hi) as [Olog Ot Ov Ou Of Ovs Oc Ol Oa Ocm].
  destruct (Ol Hr) as (? & Hl & Hmt & _).
  split; cbn; try done. split; [by eapply chosen_length|].
  right. exists (a_term (nodes i)), k, (a_log (nodes i)). done.
Qed.

(** * Votes *)

(** A vote cast now is sound: the voter kept what it acknowledged, and a leader of
    the term that exists already was not elected by this vote. *)
Lemma new_vote_inv g nodes net i T c :
  inv g (nodes, net) → g_vote g !! (T, i) = None → a_term (nodes i) ≤ T →
  vote_inv (add_vote T i c (a_log (nodes i)) g) T i (a_log (nodes i)).
Proof.
  intros Hi Hn HT. pose proof (inv_at _ _ _ i Hi) as Ni.
  assert (E : ext g (add_vote T i c (a_log (nodes i)) g)) by (by eapply eb_ext, add_vote_ext).
  split; [eapply log_ok_mono; [done|apply Ni]|].
  intros Hlead t m k Hin Hlt Hk. cbn in Hin, Hlead.
  assert (g_lead g !! T = None) as HI.
  { destruct Hlead as [|(j & l0 & Q & HI & HiQ)]; [done|].
    destruct (ti_votes _ _ _ _ _ _ (inv_term _ _ _ Hi _ _ _ _ HI) i HiQ) as (lv & ? & _). congruence. }
  eapply keeps_mono; [done|reflexivity|].
  destruct (ni_acks _ _ _ _ Ni t m k Hin Hk) as (lg & ? & ? & Hc). exists lg. split_and!; try done.
  destruct Hc as [|(t' & j & l0 & Q & ? & ? & HI' & ?)]; [by left|right].
  exists t', j, l0, Q. split_and!; try done.
  assert (t' ≠ T) by congruence. lia.
Qed.

Lemma inv_vote_cast g nodes net i c to lli llt :
  inv g (nodes, net) → mkMessage c to (a_term (nodes i)) (RequestVote lli llt) ∈ net →
  a_voted (nodes i) = None ∨ a_voted (nodes i) = Some c →
  up_to_date (N.to_nat lli) llt (a_log (nodes i)) →
  ∃ g', ext g g' ∧ inv g' (upd i ((nodes i) <| a_voted := Some c |>) nodes, net ++ []).
Proof.
  intros Hi Hm [Hv|Hv] Hup; pose proof (inv_at _ _ _ i Hi) as Ni.
  2: { exists g. split; [done|]. eapply inv_local; [done|done| |done|set_solver].
       destruct Ni as [Olog Ot Ov Ou Of Ovs Oc Ol Oa Ocm]. split; try done.
       cbn. intros c' [= ->]. by apply Ov. }
  pose proof (ni_unvoted _ _ _ _ Ni Hv) as Hn.
  set (a' := (nodes i) <| a_voted := Some c |>).
  set (g' := add_vote (a_term (nodes i)) i c (a_log (nodes i)) g).
  pose proof (add_vote_ext _ _ c (a_log (nodes i)) _ Hn) as Hx. fold g' in Hx.
  pose proof (eb_ext _ _ _ _ Hx) as E. exists g'. split; [done|].
  pose proof (inv_msg _ _ _ Hi _ Hm) as [Hct Hcand]. cbn in Hct, Hcand.
  assert (Hupc : a_role (nodes c) = Candidate → a_term (nodes c) = a_term (nodes i) →
    up_to_date (length (a_log (nodes c))) (last_term (a_log (nodes c))) (a_log (nodes i))).
  { intros Hr Ht. destruct (Hcand Hr Ht) as [<- <-]. done. }
  eapply inv_update; try done; try (by intros; congruence); try set_solver.
  - destruct Ni as [Olog Ot Ov Ou Of Ovs Oc Ol Oa [Ocl Ocm]]. split; cbn; try done.
    + by eapply log_ok_mono.
    + intros c' [= <-]. rewrite lookup_insert_eq. eauto.
    + intros t Ht. destruct (Of t Ht) as (F1 & F2 & F3 & F4).
      rewrite lookup_insert_ne by (intros [= ?]; lia). split_and!; try done.
      intros v lv. rewrite lookup_insert_ne by (intros [= ?]; lia). apply F4.
    + intros Hf. destruct (Ovs Hf) as [? Hvs]. split; [done|]. intros v Hin.
      destruct (Hvs v Hin) as [lv ?]. exists lv. by rewrite lookup_insert_ne by congruence.
    + intros Hr. destruct (Oc Hr) as (C1 & C2 & C3 & C4). split_and!; [done|done| |done].
      intros v lv. destruct (decide (v = i)) as [->|].
      * rewrite lookup_insert_eq. intros [= -> <-]. by apply Hupc.
      * rewrite lookup_insert_ne by congruence. apply C3.
  - cbn. intros c' lv _. rewrite lookup_insert_eq. intros [= <- <-].
    split; [by eapply new_vote_inv|]. auto.
Qed.

Lemma up_to_date_refl l : up_to_date (length l) (last_term l) l.
Proof. by right. Qed.

Lemma inv_elect g nodes net i :
  inv g (nodes, net) → i ∈ V →
  ∃ g', ext g g' ∧ inv g' (upd i ((nodes i) <| a_role := Candidate |>
    <| a_term := a_term (nodes i) + 1 |> <| a_voted := Some i |> <| a_votes := {[i]} |>) nodes, net ++ []).
Proof.
  intros Hi HV. pose proof (inv_at _ _ _ i Hi) as Ni.
  set (T := a_term (nodes i) + 1).
  destruct (ni_future _ _ _ _ Ni T ltac:(lia)) as (Hn & Hnl & Hna & Hnv).
  set (g' := add_vote T i i (a_log (nodes i)) g).
  pose proof (add_vote_ext _ _ i (a_log (nodes i)) _ Hn) as Hx. fold g' in Hx.
  pose proof (eb_ext _ _ _ _ Hx) as E. exists g'. split; [done|].
  eapply inv_update; try done; try (by intros; congruence); try set_solver.
  - cbn. lia.
  - destruct Ni as [Olog Ot Ov Ou Of Ovs Oc Ol Oa [Ocl Ocm]]. split; cbn; try done.
    + by eapply log_ok_mono.
    + intros k e He. apply Ot in He. lia.
    + intros c' [= <-]. rewrite lookup_insert_eq. eauto.
    + intros t Ht. destruct (Of t ltac:(lia)) as (F1 & F2 & F3 & F4).
      rewrite lookup_insert_ne by (intros [= ?]; lia). split_and!; try done.
      intros v lv. rewrite lookup_insert_ne by (intros [= ?]; lia). apply F4.
    + intros _. split; [set_solver|]. intros v ->%elem_of_singleton. rewrite lookup_insert_eq. eauto.
    + intros _. split_and!; [done| | |lia].
      * intros k e He. apply Ot in He. lia.
      * intros v lv. destruct (decide (v = i)) as [->|].
        { rewrite lookup_insert_eq. intros [= <-]. apply up_to_date_refl. }
        rewrite lookup_insert_ne by congruence. intros Hv.
        by apply Hnv in Hv.
    + intros t m k Hin Hk. eapply keeps_mono; [done| |by eapply Oa]. lia.
    + split; [done|]. eapply committed_mono; [done| |done]. lia.
  - cbn. intros c' lv _. rewrite lookup_insert_eq. intros [= <- <-].
    split; [eapply new_vote_inv; [done|done|lia]|]. done.
  - cbn. lia.
Qed.

(** * Leaders *)

Lemma candidate_leads g nodes net i :
  inv g (nodes, net) → a_role (nodes i) = Candidate →
  (size V < 2 * size (a_votes (nodes i)))%nat →
  quorum V (a_votes (nodes i)) ∧ g_lead g !! a_term (nodes i) = None ∧
  g_log g !! a_term (nodes i) = None.
Proof.
  intros Hi Hr HQ. pose proof (inv_at _ _ _ i Hi) as Ni.
  destruct (ni_votes _ _ _ _ Ni ltac:(congruence)) as [Hsub Hvs].
  assert (quorum V (a_votes (nodes i))) as HQ' by done.
  assert (Hnone : g_lead g !! a_term (nodes i) = None).
  { destruct (g_lead g !! a_term (nodes i)) as [[[j l0] Q]|] eqn:HI; [exfalso|done].
    pose proof (inv_term _ _ _ Hi _ _ _ _ HI) as HT.
    destruct (quorum_meet V _ _ HQ' (ti_quorum _ _ _ _ _ _ HT)) as (v & Hv1 & Hv2).
    destruct (Hvs v Hv1) as [lv ?], (ti_votes _ _ _ _ _ _ HT v Hv2) as (lv' & ? & _). simplify_eq.
    destruct (ni_cand _ _ _ _ Ni Hr) as (C & _). by eapply C. }
  split_and!; [done|done|].
  destruct (g_log g !! a_term (nodes i)) as [lg|] eqn:Hl; [exfalso|done].
  destruct (inv_logs _ _ _ Hi _ _ Hl) as (j & l0 & Q & ?). congruence.
Qed.

Lemma inv_lead g nodes net i mi ni :
  inv g (nodes, net) → a_role (nodes i) = Candidate →
  (size V < 2 * size (a_votes (nodes i)))%nat →
  (∀ v m, mi !! v = Some m → m = 0 ∨ v = i ∧ m = N.of_nat (length (a_log (nodes i)))) →
  (∀ v k, ni !! v = Some k → k = N.of_nat (length (a_log (nodes i))) + 1) →
  ∃ g', ext g g' ∧ inv g' (upd i ((nodes i) <| a_role := Leader |> <| a_match := mi |>
    <| a_next := ni |>) nodes, net ++ []).
Proof.
  intros Hi Hr HQ Hmi Hni. destruct (candidate_leads _ _ _ _ Hi Hr HQ) as (HQ' & HI & Hl).
  pose proof (inv_at _ _ _ i Hi) as Ni.
  set (T := a_term (nodes i)) in *. set (l := a_log (nodes i)) in *.
  set (g' := add_ack T i (length l) (set_log T l (add_lead T i l (a_votes (nodes i)) g))).
  pose proof (add_lead_ext T i l (a_votes (nodes i)) g HI Hl) as Hx. fold g' in Hx.
  pose proof (eb_ext _ _ _ _ Hx) as E. exists g'. split; [done|].
  assert (HlT : g_log g' !! T = Some l) by apply lookup_insert_eq.
  assert (HIT : g_lead g' !! T = Some (i, l, a_votes (nodes i))) by apply lookup_insert_eq.
  destruct Ni as [Olog Ot Ov Ou Of Ovs Oc Ol Oa [Ocl Ocm]].
  destruct (Oc Hr) as (C1 & C2 & C3 & C4). destruct (Ovs ltac:(congruence)) as [Hsub Hvs].
  assert (log_ok g' l) by (by eapply log_ok_mono).
  eapply inv_update; try done.
  - split; cbn [set_field a_log a_term a_voted a_role a_votes a_match a_next a_commit]; try done.
    + intros t Ht. destruct (Of t Ht) as (F1 & F2 & F3 & F4). split_and!; try done.
      * intros l0 Q. cbn. rewrite lookup_insert_ne by (cbn in Ht; fold T in Ht; lia). apply F2.
      * cbn in Ht. fold T in Ht. intros m. cbn. rewrite elem_of_union, elem_of_singleton.
        intros [[= ? ?]|?]; [lia|by eapply F3].
    + intros _. fold T l. split_and!; [by eauto|done| |].
      * intros v m [->|[-> ->]]%Hmi; [by left|right]. rewrite Nat2N.id. cbn. set_solver.
      * intros v k ->%Hni. split; [lia|].
        change (N.to_nat (N.of_nat (length l) + 1) ≤ S (length l))%nat. lia.
    + intros t m k. cbn [g' add_ack g_ack]. fold T l.
      intros [[= -> ->]%elem_of_singleton|Hin]%elem_of_union Hk.
      * exists l. split_and!; [done|done|]. left. apply prefix_take.
      * eapply keeps_mono; [done|reflexivity|by eapply Oa].
    + split; [done|]. by eapply committed_mono.
  - cbn. intros c lv Hn Hs. congruence.
  - fold T. intros lg Hlg _. injection (eq_trans (eq_sym Hlg) HlT) as ->. split; [|by eauto].
    split; [done|]. done.
  - fold T. intros j l0 Q _ HI'. injection (eq_trans (eq_sym HI') HIT) as -> -> ->. split; try done.
    + exists l. done.
    + intros v Hv. destruct (Hvs v Hv) as [lv Hvote]. exists lv. split; [done|]. by eapply C3.
  - set_solver.
Qed.

Lemma inv_own g nodes net i data :
  inv g (nodes, net) → a_role (nodes i) = Leader →
  let len := N.of_nat (length (a_log (nodes i))) in
  ∃ g', ext g g' ∧ inv g' (upd i ((nodes i)
    <| a_log := a_log (nodes i) ++ [Entry_normal (a_term (nodes i)) (len + 1) data] |>
    <| a_match := <[i := len + 1]> (a_match (nodes i)) |>
    <| a_next := <[i := len + 2]> (a_next (nodes i)) |>) nodes, net ++ []).
Proof.
  intros Hi Hr len. pose proof (inv_at _ _ _ i Hi) as Ni.
  set (T := a_term (nodes i)) in *. set (l := a_log (nodes i)) in *.
  set (l' := l ++ [Entry_normal T (len + 1) data]).
  destruct Ni as [Olog Ot Ov Ou Of Ovs Oc Ol Oa [Ocl Ocm]].
  destruct (Ol Hr) as ((l0 & Q & HI) & Hl & Hmt & Hnx). fold T l in HI, Hl.
  assert (P : l `prefix_of` l') by (by apply prefix_app_r).
  pose proof (set_log_ext T i l l' l0 Q g HI Hl P) as Hx.
  set (g' := add_ack T i (length l') (set_log T l' g)) in Hx.
  pose proof (eb_ext _ _ _ _ Hx) as E. exists g'. split; [done|].
  assert (HlT : g_log g' !! T = Some l') by apply lookup_insert_eq.
  assert (Hlen : length l' = S (length l)) by (unfold l'; rewrite length_app; cbn; lia).
  assert (Ht' : ∀ k e, l' !! k = Some e → e_term e ≤ T).
  { intros k e. unfold l'. rewrite lookup_snoc_Some. intros [[_ He]|[_ <-]]; [by eapply Ot|done]. }
  assert (O' : log_ok g' l').
  { pose proof (log_ok_mono _ _ _ E Olog) as O. fold l in O.
    pose proof (ti_pos _ _ _ _ _ _ (inv_term _ _ _ Hi _ _ _ _ HI)). split.
    - intros k e. unfold l'. rewrite lookup_snoc_Some. intros [[_ He]|[-> <-]]; [by apply O|done].
    - intros j k d e Hjk Hd. unfold l' at 1. rewrite lookup_snoc_Some.
      intros [[Hk He]|[-> <-]]; [|cbn; by eapply Ht'].
      unfold l' in Hd. rewrite lookup_app_l in Hd by lia. by eapply (lo_sorted _ _ O j k).
    - intros k e. unfold l' at 1. rewrite lookup_snoc_Some. intros [[Hk He]|[-> <-]].
      + destruct (lo_anchor _ _ O _ _ He) as (lg & ? & ?). exists lg. split; [done|].
        unfold l'. by rewrite take_app_le by lia.
      + exists l'. split; [done|]. apply prefix_take. }
  eapply inv_update; try done; cbn [set_field a_log a_term a_voted a_role a_votes a_match a_next a_commit]; fold T.
  - split; cbn [set_field a_log a_term a_voted a_role a_votes a_match a_next a_commit]; try done; fold T.
    + intros t Ht. destruct (Of t Ht) as (F1 & F2 & F3 & F4). split_and!; try done.
      change (T < t) in Ht. intros m. cbn. rewrite elem_of_union, elem_of_singleton.
      intros [[= ? ?]|?]; [lia|by eapply F3].
    + cbn. rewrite Hr. done.
    + intros _. split_and!; [by eauto|done| |].
      * intros v m. destruct (decide (v = i)) as [->|].
        { rewrite lookup_insert_eq. intros [= <-]. right.
          replace (N.to_nat (len + 1)) with (length l') by lia. cbn. set_solver. }
        rewrite lookup_insert_ne by done. intros [->|Hin]%Hmt; [by left|right]. by apply E.
      * intros v k. fold l'. rewrite Hlen. destruct (decide (v = i)) as [->|].
        { rewrite lookup_insert_eq. intros [= <-]. lia. }
        rewrite lookup_insert_ne by done. intros [? Hk]%Hnx. fold l in Hk. lia.
    + fold l'. intros t m k. cbn [g' add_ack g_ack].
      intros [[= -> ->]%elem_of_singleton|Hin]%elem_of_union Hk.
      * exists l'. split_and!; [done|done|]. left. apply prefix_take.
      * eapply keeps_log; [exact P|]. eapply keeps_mono; [done|reflexivity|by eapply Oa].
    + fold l'. fold l in Ocl. split; [lia|]. eapply committed_mono in Ocm; [|exact E|reflexivity].
      destruct Ocm as [->|(t & k & lg & ? & ? & ? & ? & Heq)]; [by left|right].
      exists t, k, lg. split_and!; try done. unfold l'. rewrite take_app_le by done. exact Heq.
  - cbn. intros c lv Hn Hs. congruence.
  - intros lg Hlg _. injection (eq_trans (eq_sym Hlg) HlT) as ->. split; [done|]. eauto.
  - intros j l1 Q1 Hn. congruence.
  - cbn. congruence.
  - set_solver.
Qed.

(** * Followers *)

(** Splicing entries of the leader's log [lg] after a matching [prev] leaves a log
    that agrees with [lg] up to their end; it is the old log, or that prefix of
    [lg], which then extends the old log or replaces a conflicting entry. *)
Lemma splice_log_spec g l lg es prev :
  log_ok g l → log_ok g lg →
  (prev ≤ length l)%nat → take prev l = take prev lg →
  let p := (prev + length es)%nat in
  (p ≤ length lg)%nat → es = slice prev p lg →
  (splice_log prev es l = l ∧ take p l = take p lg ∧ (p ≤ length l)%nat) ∨
  (splice_log prev es l = take p lg ∧
   (l `prefix_of` take p lg ∨
    ∃ q d e, (q < p)%nat ∧ l !! q = Some d ∧ lg !! q = Some e ∧ e_term d ≠ e_term e)).
Proof.
  intros Ol Og. revert prev. induction es as [|e es IH]; intros prev Hle Hpre p Hp Hes.
  { left. unfold p. cbn. rewrite Nat.add_0_r. auto. }
  cbn [splice_log].
  assert (Hdrop : drop prev lg = e :: es ++ drop p lg).
  { rewrite app_comm_cons, Hes. unfold slice.
    rewrite <- (take_drop (p - prev) (drop prev lg)) at 1. rewrite drop_drop. do 2 f_equal.
    unfold p. lia. }
  assert (He : lg !! prev = Some e).
  { rewrite <- (Nat.add_0_r prev), <- lookup_drop, Hdrop. done. }
  assert (Hes' : es = slice (S prev) (S prev + length es) lg).
  { unfold slice. replace (S prev + length es - S prev)%nat with (length es) by lia.
    replace (S prev) with (prev + 1)%nat by lia. rewrite <- drop_drop, Hdrop.
    symmetry. apply (take_app_length es). }
  unfold p in *. cbn [length] in Hp |- *. rewrite <- Nat.add_succ_comm in Hp |- *.
  case_bool_decide as Hm.
  - apply fmap_Some in Hm as (d & Hd & Ht). apply IH; [|eapply log_matching; eauto|done|done].
    by apply lookup_lt_Some in Hd.
  - right.
    assert (Heq : take prev l ++ e :: es = take (S prev + length es) lg).
    { rewrite Hpre. replace (S prev + length es)%nat with (prev + S (length es))%nat by lia.
      rewrite <- take_take_drop, Hdrop. f_equal. symmetry. apply (take_app_length (e :: es)). }
    split; [done|]. destruct (l !! prev) as [d|] eqn:Hd.
    + right. exists prev, d, e. split_and!; [lia|done|done|]. cbn in Hm. congruence.
    + left. rewrite <- Heq. apply lookup_ge_None in Hd.
      rewrite <- (take_ge l prev) at 1 by done. by apply prefix_app_r.
Qed.

Section Accept.
Context (g : ghost) (nodes : N → anode) (net : list Message) (i : N).
Hypothesis Hi : inv g (nodes, net).
Let l := a_log (nodes i).
Let T := a_term (nodes i).
Context (f : N) (l0 lg : list Entry) (Q : gset N) (p : nat) (l' : list Entry).
Hypothesis HI : g_lead g !! T = Some (f, l0, Q).
Hypothesis Hlg : g_log g !! T = Some lg.
Hypothesis Hp : (p ≤ length lg)%nat.
Hypothesis Hsplice : (l' = l ∧ take p l = take p lg ∧ (p ≤ length l)%nat) ∨
  (l' = take p lg ∧ (l `prefix_of` take p lg ∨
    ∃ q d e, (q < p)%nat ∧ l !! q = Some d ∧ lg !! q = Some e ∧ e_term d ≠ e_term e)).

Lemma accept_agrees : take p l' = take p lg ∧ (p ≤ length l')%nat.
Proof.
  destruct Hsplice as [(-> & ? & ?)|[-> _]]; [done|].
  rewrite take_take, length_take. split; [f_equal; lia|lia].
Qed.

Lemma accept_log : log_ok g l' ∧ ∀ k e, l' !! k = Some e → e_term e ≤ T.
Proof.
  pose proof (inv_at _ _ _ i Hi) as Ni.
  destruct (inv_term _ _ _ Hi _ _ _ _ HI) as [(lg' & ? & _ & Ol & Ot) _ _ _ _]. simplify_eq.
  destruct Hsplice as [(-> & _)|[-> _]]; [split; apply Ni|].
  split; [eapply log_ok_prefix; [apply prefix_take|done]|].
  intros k e. rewrite lookup_take_Some. intros [? _]. eauto.
Qed.

(** What the old log shares with the leader's log stays. *)
Lemma accept_shared k x :
  take k x `prefix_of` l → take k x `prefix_of` lg → (k ≤ length x)%nat → take k x `prefix_of` l'.
Proof.
  intros H1 H2 Hk. destruct Hsplice as [(-> & _)|[-> [Hpre|(q & d & e & Hq & Hd & He & Hne)]]];
    [done|by transitivity l|].
  destruct (decide (k ≤ p)%nat) as [|Hgt].
  - apply prefix_of_take; [done|]. rewrite length_take. lia.
  - exfalso. destruct (lookup_lt_is_Some_2 x q) as [y Hy]; [lia|].
    pose proof (take_prefix_lookup _ _ _ q _ H1 ltac:(lia) Hy).
    pose proof (take_prefix_lookup _ _ _ q _ H2 ltac:(lia) Hy). congruence.
Qed.

Lemma accept_keeps t m k : (t, i, m) ∈ g_ack g → (k ≤ m)%nat → keeps g t k l' (T + 1).
Proof.
  intros Hin Hk. pose proof (inv_at _ _ _ i Hi) as Ni.
  destruct (ni_acks _ _ _ _ Ni t m k Hin Hk) as (lt & Hlt & Hkl & Hc).
  exists lt. split_and!; [done|done|]. destruct Hc as [Hc|]; [|by right].
  assert (t ≤ T) as HtT.
  { destruct (decide (t ≤ T)) as [|Hgt]; [done|exfalso].
    destruct (ni_future _ _ _ _ Ni t) as (_ & _ & F & _); [unfold T in Hgt; lia|by eapply F]. }
  destruct (decide (take k lt `prefix_of` lg)) as [Hp2|Hn]; [left; by apply accept_shared|].
  right. destruct (decide (t = T)) as [->|].
  { exfalso. simplify_eq. destruct Hn. apply prefix_take. }
  exists T, f, l0, Q. split_and!; [lia|lia|done|]. intros Hp0. apply Hn.
  etransitivity; [exact Hp0|].
  destruct (inv_term _ _ _ Hi _ _ _ _ HI) as [(lg' & ? & ? & _) _ _ _ _]. by simplify_eq.
Qed.

Lemma accept_commit c :
  (c = a_commit (nodes i)) ∨ ((c ≤ p)%nat ∧ committed V g T c lg) →
  (c ≤ length l')%nat ∧ committed V g T c l'.
Proof.
  destruct accept_agrees as [Hag Hlen]. pose proof (inv_at _ _ _ i Hi) as Ni.
  intros [->|[Hc Hcm]].
  - destruct (ni_commit _ _ _ _ Ni) as [Hcl [H0|(t & k & lt & Hch & Ht & Hck & Hlt & Heq)]].
    { rewrite H0. split; [lia|by left]. }
    pose proof (chosen_length _ _ _ _ _ Hch Hlt).
    assert (Hpre : take (a_commit (nodes i)) lt `prefix_of` l').
    { apply accept_shared; [by apply take_eq_prefix| |lia].
      etransitivity; [apply (prefix_take_mono _ _ k); lia|].
      by eapply (leader_has_chosen V g (nodes, net)). }
    split.
    + apply prefix_length in Hpre. rewrite length_take in Hpre. lia.
    + right. exists t, k, lt. split_and!; try done. apply prefix_take_eq; [lia|done].
  - split; [lia|]. destruct Hcm as [->|(t & k & lt & ? & ? & ? & ? & Heq)]; [by left|right].
    exists t, k, lt. split_and!; try done. rewrite <- Heq.
    apply (f_equal (take c)) in Hag. rewrite !take_take in Hag.
    by replace (c `min` p)%nat with c in Hag by lia.
Qed.
End Accept.

Lemma inv_accept g nodes net i f to prev pt es lc rr :
  inv g (nodes, net) →
  mkMessage f to (a_term (nodes i)) (AppendEntries prev pt es lc rr) ∈ net →
  a_role (nodes i) = Follower → term_at (N.to_nat prev) (a_log (nodes i)) = Some pt →
  let p := (N.to_nat prev + length es)%nat in
  ∃ g', ext g g' ∧ inv g' (upd i ((nodes i)
      <| a_log := splice_log (N.to_nat prev) es (a_log (nodes i)) |>
      <| a_commit := if (a_commit (nodes i) <? N.to_nat lc)%nat then Nat.min (N.to_nat lc) p
                     else a_commit (nodes i) |>) nodes,
    net ++ [mkMessage i f (a_term (nodes i)) (AppendEntriesResp true (N.of_nat p) rr)]).
Proof.
  intros Hi Hm Hr Hpt p. pose proof (inv_at _ _ _ i Hi) as Ni.
  destruct (inv_msg _ _ _ Hi _ Hm) as (lg & l0 & Q & HI & Hlg & Hp & Hes & Hpt' & Hlc & Hcm).
  cbn [m_term m_from] in HI, Hlg, Hcm. fold p in Hp, Hes, Hlc.
  destruct (inv_term _ _ _ Hi _ _ _ _ HI) as [(lg' & ? & _ & Og & _) _ _ _ _]. simplify_eq.
  assert (Hprev : (N.to_nat prev ≤ length (a_log (nodes i)))%nat).
  { destruct (N.to_nat prev) as [|k]; [lia|]. cbn in Hpt.
    apply fmap_Some in Hpt as (e & He & _). by apply lookup_lt_Some in He. }
  pose proof (splice_log_spec g (a_log (nodes i)) lg es (N.to_nat prev) (ni_log _ _ _ _ Ni) Og Hprev
    (log_matching_at _ _ _ _ _ (ni_log _ _ _ _ Ni) Og Hpt Hpt') Hp Hes) as Hsp.
  fold p in Hsp. set (l' := splice_log _ _ _) in *.
  set (T := a_term (nodes i)) in *.
  pose proof (add_ack_ext T i p g) as Hx. set (g' := add_ack T i p g) in *.
  pose proof (eb_ext _ _ _ _ Hx) as E. exists g'. split; [done|].
  destruct (accept_agrees nodes i lg p l' Hp Hsp) as [Hag Hlen].
  destruct (accept_log g nodes net i Hi f l0 lg Q p l' HI Hlg Hsp) as [Ol' Ot'].
  set (c' := if (a_commit (nodes i) <? N.to_nat lc)%nat then Nat.min (N.to_nat lc) p
    else a_commit (nodes i)).
  assert (Hc' : (c' ≤ length l')%nat ∧ committed V g T c' l').
  { eapply (accept_commit g nodes net i Hi f l0 lg Q p l' HI Hlg Hp Hsp). unfold c'.
    destruct (_ <? _)%nat; [right|by left]. rewrite Nat.min_l by done. done. }
  eapply inv_update; try done; cbn [set_field a_log a_term a_voted a_role a_votes a_match a_next a_commit]; fold T.
  - destruct Ni as [_ _ Ov Ou Of _ _ _ _ _].
    split; cbn [set_field a_log a_term a_voted a_role a_votes a_match a_next a_commit];
      rewrite ?Hr; try done; fold T.
    + by eapply log_ok_mono.
    + intros t Ht. destruct (Of t Ht) as (F1 & F2 & F3 & F4). split_and!; try done.
      change (T < t) in Ht. intros m. cbn. rewrite elem_of_union, elem_of_singleton.
      intros [[= ? ?]|?]; [lia|by eapply F3].
    + intros t m k. cbn [g' add_ack g_ack].
      intros [[= -> ->]%elem_of_singleton|Hin]%elem_of_union Hk.
      * exists lg. split_and!; [done|lia|]. left.
        replace (take k lg) with (take k l').
        { apply prefix_take. }
        apply (f_equal (take k)) in Hag. rewrite !take_take in Hag.
        by replace (k `min` p)%nat with k in Hag by lia.
      * eapply keeps_mono; [done|reflexivity|].
        by eapply (accept_keeps g nodes net i Hi f l0 lg Q p l' HI Hlg Hp Hsp).
    + split; [by apply Hc'|]. eapply committed_mono; [done|reflexivity|by apply Hc'].
  - intros c lv Hn Hs. cbn in Hs. congruence.
  - intros j l1 Q1 Hn. cbn. congruence.
  - cbn. congruence.
  - intros m ->%list_elem_of_singleton. cbn. right. rewrite Nat2N.id. set_solver.
Qed.

(** * Preservation *)

Lemma inv_step g s s' : inv g s → astep V s s' → ∃ g', ext g g' ∧ inv g' s'.
Proof.
  intros Hi Hs. destruct Hs as [nodes net i a' out Hm].
  destruct Hm; eauto using inv_vote_cast, inv_elect, inv_lead, inv_own, inv_accept.
  all: exists g; split; [done|].
  - eapply inv_follow; eauto.
  - eapply inv_follow; eauto.
  - by apply inv_reqvote.
  - by apply inv_grant.
  - by apply inv_inert.
  - by apply inv_count.
  - by eapply inv_match.
  - by apply inv_next.
  - by eapply inv_commit.
  - by apply inv_append.
  - eapply inv_follow; eauto. cbn. lia.
Qed.

Lemma inv_init : inv ghost_init (λ _, anode_init, []).
Proof.
  split; cbn; try set_solver. intros i. split; cbn; try done; try set_solver.
  split; [lia|by left].
Qed.

(** * Where commit indices come from

    A leader knows everything committed in its own term: every commit index of a node, in a
    message, or up to which something was applied ([apps]) is covered by an entry chosen in
    another term, or is at most the leader's own. *)

Definition commit_src (g : ghost) (a : anode) (c : nat) : Prop :=
  c = 0%nat ∨ (∃ t k, chosen V g t k ∧ t ≠ a_term a ∧ (c ≤ k)%nat) ∨ (c ≤ a_commit a)%nat.

Record commits_known (g : ghost) (apps : list nat) (s : astate) : Prop := mkCommitsKnown {
  ck_apps c : c ∈ apps → c = 0%nat ∨ ∃ t k, chosen V g t k ∧ (c ≤ k)%nat;
  ck_nodes l j : a_role (s.1 l) = Leader → commit_src g (s.1 l) (a_commit (s.1 j));
  ck_net l m prev pt es lc rr : a_role (s.1 l) = Leader → m ∈ s.2 →
    m_body m = AppendEntries prev pt es lc rr → commit_src g (s.1 l) (N.to_nat lc);
  ck_applied l c : a_role (s.1 l) = Leader → c ∈ apps → commit_src g (s.1 l) c;
}.

Lemma commit_src_mono g g' a a' c c' :
  ext g g' → a_term a' = a_term a → (a_commit a ≤ a_commit a')%nat → (c' ≤ c)%nat →
  commit_src g a c → commit_src g' a' c'.
Proof.
  intros E Ht Hc Hle [->|[(t & k & Hch & Hne & Hk)|Hk]]; [left; lia| |right; right; lia].
  right. left. exists t, k. rewrite Ht. split_and!; [by eapply chosen_mono|done|lia].
Qed.

(** What a micro-step does to the commit index. *)
Lemma mstep_commit net i a a' out : mstep V net i a a' out →
  (a_commit a' ≤ a_commit a)%nat ∨
  (∃ m prev pt es lc rr, m ∈ net ∧ m_body m = AppendEntries prev pt es lc rr ∧ (a_commit a' ≤ N.to_nat lc)%nat) ∨
  (∃ k Q, a_role a = Leader ∧ a' = a <| a_commit := k |> ∧ (a_commit a < k)%nat ∧
    term_at k (a_log a) = Some (a_term a) ∧ quorum V Q ∧
    ∀ v, v ∈ Q → (k ≤ N.to_nat (default 0%N (a_match a !! v)))%nat).
Proof.
  intros Hs. destruct Hs; try (left; cbn; lia).
  - cbn -[Nat.ltb]. destruct (_ <? N.to_nat lc)%nat; [|left; lia]. right. left. eexists _, _, _, _, _, _. split; [done|].
    split; [done|]. unfold p. lia.
  - right. right. by exists k, Q.
Qed.

Lemma mstep_leads net i a a' out : mstep V net i a a' out → a_role a' = Leader →
  (a_role a = Leader ∧ a_term a' = a_term a ∧ (a_commit a ≤ a_commit a')%nat) ∨
  (a_role a = Candidate ∧ (size V < 2 * size (a_votes a))%nat ∧ a_term a' = a_term a).
Proof.
  intros Hs Hr. destruct Hs; cbn in Hr; try congruence; try (left; cbn; by split_and!; lia || congruence).
  right. done.
Qed.

Lemma mstep_sends net i a a' out m prev pt es lc rr : mstep V net i a a' out → m ∈ out →
  m_body m = AppendEntries prev pt es lc rr → N.to_nat lc = a_commit a ∧ a' = a.
Proof.
  intros Hs Hm Hb. destruct Hs; try (apply elem_of_nil in Hm; done);
    apply list_elem_of_singleton in Hm as ->; cbn in Hb; try done.
  - subst b. done.
  - injection Hb as <- <- <- <- <-. split; [lia|done].
Qed.

Lemma leaders_differ g nodes net i l : inv g (nodes, net) →
  a_role (nodes i) = Leader → a_role (nodes l) = Leader → l ≠ i → a_term (nodes i) ≠ a_term (nodes l).
Proof.
  intros Hi Hr Hr' Hne Ht.
  destruct (ni_lead _ _ _ _ (inv_at _ _ _ i Hi) Hr) as ((? & ? & H1) & _).
  destruct (ni_lead _ _ _ _ (inv_at _ _ _ l Hi) Hr') as ((? & ? & H2) & _). rewrite Ht in H1. congruence.
Qed.

(** A new leader: what is committed was chosen before its term had one. *)
Lemma fresh_src g g' nodes net i a' c :
  inv g (nodes, net) → a_role (nodes i) = Candidate → (size V < 2 * size (a_votes (nodes i)))%nat →
  a_term a' = a_term (nodes i) → ext g g' → (c = 0%nat ∨ ∃ t k, chosen V g t k ∧ (c ≤ k)%nat) →
  commit_src g' a' c.
Proof.
  intros Hi Hr HQ Ht E [->|(t & k & Hc & Hk)]; [by left|]. right. left. exists t, k.
  split_and!; [by eapply chosen_mono| |done]. rewrite Ht. intros ->.
  destruct (candidate_leads _ _ _ _ Hi Hr HQ) as (_ & _ & Hn). destruct Hc as (lg & Q & Hl & _). congruence.
Qed.

Lemma committed_chosen g T c l : committed V g T c l → c = 0%nat ∨ ∃ t k, chosen V g t k ∧ (c ≤ k)%nat.
Proof. intros [->|(t & k & lg & Hc & _ & Hk & _)]; [by left|right; eauto]. Qed.

Lemma step_commit_src g g' apps nodes net i a' out l :
  inv g (nodes, net) → commits_known g apps (nodes, net) → mstep V net i (nodes i) a' out → ext g g' →
  l ≠ i → a_role (nodes l) = Leader → commit_src g' (nodes l) (a_commit a').
Proof.
  intros Hi Hk Hs E Hne Hr.
  destruct (mstep_commit _ _ _ _ _ Hs) as [Hle|[(m & prev & pt & es & lc & rr & Hm & Hb & Hle)|
    (k & Q & Hri & -> & Hlt & Ht & HQ & Hv)]].
  - eapply commit_src_mono, (ck_nodes _ _ _ Hk l i); done.
  - eapply commit_src_mono, (ck_net _ _ _ Hk l m); done.
  - right. left. exists (a_term (nodes i)), k. split_and!; [|by eapply leaders_differ|done].
    eapply chosen_mono, leader_chooses; [done|done|done|lia|done..].
Qed.

Lemma commits_known_step g g' apps s s' :
  inv g s → commits_known g apps s → astep V s s' → ext g g' → commits_known g' apps s'.
Proof.
  intros Hi Hk Hst E. destruct Hst as [nodes net i a' out Hs].
  assert (Happ : ∀ c, c ∈ apps → c = 0%nat ∨ ∃ t k, chosen V g t k ∧ (c ≤ k)%nat) by apply Hk.
  assert (Hcm : ∀ j, a_commit (nodes j) = 0%nat ∨ ∃ t k, chosen V g t k ∧ (a_commit (nodes j) ≤ k)%nat).
  { intros j. eapply committed_chosen, (ni_commit _ _ _ _ (inv_at _ _ _ j Hi)). }
  assert (Hnet : ∀ m prev pt es lc rr, m ∈ net → m_body m = AppendEntries prev pt es lc rr →
    N.to_nat lc = 0%nat ∨ ∃ t k, chosen V g t k ∧ (N.to_nat lc ≤ k)%nat).
  { intros m prev pt es lc rr Hm Hb. pose proof (inv_msg _ _ _ Hi m Hm) as Hok. unfold msg_inv in Hok.
    rewrite Hb in Hok. destruct Hok as (lg & l0 & Q & _ & _ & _ & _ & _ & _ & Hc). by eapply committed_chosen. }
  split; cbn [fst snd].
  - intros c Hc. destruct (Happ c Hc) as [->|(t & k & ? & ?)]; [by left|]. right. exists t, k.
    split; [by eapply chosen_mono|done].
  - intros l j. unfold upd. destruct (N.eqb_spec l i) as [->|Hl]; intros Hr.
    + destruct (mstep_leads _ _ _ _ _ Hs Hr) as [(Hr0 & Ht & Hc)|(Hr0 & HQ & Ht)].
      * destruct (N.eqb_spec j i) as [->|]; [right; right; done|].
        eapply commit_src_mono, (ck_nodes _ _ _ Hk i j); done.
      * destruct (N.eqb_spec j i) as [->|]; [right; right; done|]. by eapply fresh_src.
    + destruct (N.eqb_spec j i) as [->|]; [by eapply step_commit_src|].
      eapply commit_src_mono, (ck_nodes _ _ _ Hk l j); done.
  - intros l m prev pt es lc rr Hr Hm Hb. apply elem_of_app in Hm. revert Hr. unfold upd.
    destruct (N.eqb_spec l i) as [->|Hl]; intros Hr.
    + destruct Hm as [Hm|Hm].
      2: { destruct (mstep_sends _ _ _ _ _ _ _ _ _ _ _ Hs Hm Hb) as [-> ->]. right. right. done. }
      destruct (mstep_leads _ _ _ _ _ Hs Hr) as [(Hr0 & Ht & Hc)|(Hr0 & HQ & Ht)].
      * eapply commit_src_mono, (ck_net _ _ _ Hk i m); done.
      * eapply fresh_src; eauto.
    + destruct Hm as [Hm|Hm]; [eapply commit_src_mono, (ck_net _ _ _ Hk l m); done|].
      destruct (mstep_sends _ _ _ _ _ _ _ _ _ _ _ Hs Hm Hb) as [-> ->].
      eapply commit_src_mono, (ck_nodes _ _ _ Hk l i); done.
  - intros l c. unfold upd. destruct (N.eqb_spec l i) as [->|Hl]; intros Hr Hc.
    + destruct (mstep_leads _ _ _ _ _ Hs Hr) as [(Hr0 & Ht & Hle)|(Hr0 & HQ & Ht)].
      * eapply commit_src_mono, (ck_applied _ _ _ Hk i c); done.
      * eapply fresh_src; eauto.
    + eapply commit_src_mono, (ck_applied _ _ _ Hk l c); done.
Qed.
End Steps.
