(* ===== verification/RaftRefine.v ===== *)
(** Every operation of [RaftNode] over the in-memory storage is a sequence of
    micro-steps of [RaftProto], as long as membership is static (no configuration
    change has entered a log) and logs are not compacted. *)

From stdpp Require Import base list numbers gmap sorting.
From Stdlib Require Import Strings.Byte.
From S2P Require Import Prelude RaftMessage RaftStorage RaftNode RaftProto.

(** * Uncompacted logs *)

(** Entries from index [p + 1] on, without membership changes. *)
Definition plain_from (p : nat) (l : list Entry) : Prop :=
  ∀ k e, l !! k = Some e → e_index e = N.of_nat (p + k) + 1 ∧ e_type e = Normal.
Abbreviation plain := (plain_from 0).

Record plain_storage (s : MemStorage) : Prop := mkPlain {
  ps_snap : ms_snap s = None;
  ps_log : plain (ms_log s);
}.

Lemma plain_from_take p k l : plain_from p l → plain_from p (take k l).
Proof. intros H j e. rewrite lookup_take_Some. intros [? _]. eauto. Qed.

Lemma plain_from_drop p k l : plain_from p l → plain_from (p + k) (drop k l).
Proof. intros H j e. rewrite lookup_drop. intros ?%H. by rewrite <- Nat.add_assoc. Qed.

Lemma plain_from_app p l l' :
  plain_from p l → plain_from (p + length l) l' → plain_from p (l ++ l').
Proof.
  intros H H' j e. rewrite lookup_app_Some. intros [?|[? He]]; [by apply H|].
  apply H' in He. by replace (p + j)%nat with (p + length l + (j - length l))%nat by lia.
Qed.

Section Storage.
Context (s : MemStorage) (Hs : plain_storage s).

Lemma plain_base : ms_base s = 0.
Proof. unfold ms_base. by rewrite (ps_snap _ Hs). Qed.

Lemma plain_first_index : st_first_index s = 1.
Proof. cbn. unfold ms_first_index. by rewrite plain_base. Qed.

Lemma plain_last_index : st_last_index s = N.of_nat (length (ms_log s)).
Proof.
  cbn. unfold ms_last_index. rewrite plain_base. destruct Hs as [_ Hl].
  destruct (list.last (ms_log s)) as [e|] eqn:E.
  - rewrite last_lookup in E. pose proof (lookup_lt_Some _ _ _ E).
    apply Hl in E as [-> _]. lia.
  - by apply last_None in E as ->.
Qed.

Lemma plain_term i : st_term i s = term_at (N.to_nat i) (ms_log s).
Proof.
  cbn. unfold ms_term. rewrite plain_base, (ps_snap _ Hs).
  destruct (N.eqb_spec i 0) as [->|]; [done|].
  destruct (N.ltb_spec i 0); [lia|]. rewrite <- (N.succ_pred i) at 2 by done.
  rewrite N2Nat.inj_succ. cbn. do 2 f_equal. lia.
Qed.

Lemma plain_entries lo :
  1 ≤ lo → st_entries lo (st_last_index s) s = drop (N.to_nat lo - 1) (ms_log s).
Proof.
  intros Hlo. rewrite plain_last_index. cbn. unfold ms_entries. rewrite plain_base, N.max_l by lia.
  destruct (N.ltb_spec (N.of_nat (length (ms_log s))) lo) as [Hlt|Hge].
  { rewrite drop_ge; [done|lia]. }
  set (hi := Nat.min _ _). assert (hi = length (ms_log s)) as -> by (unfold hi; lia).
  replace (N.to_nat (lo - 0 - 1)) with (N.to_nat lo - 1)%nat by lia.
  destruct (Nat.leb_spec (length (ms_log s)) (N.to_nat lo - 1)); [by rewrite drop_ge|].
  unfold slice. rewrite take_ge; [done|]. by rewrite length_drop.
Qed.

Lemma plain_entries_in lo hi e :
  e ∈ st_entries lo hi s → e ∈ ms_log s.
Proof.
  clear Hs. cbn. unfold ms_entries. destruct (_ <? _); [set_solver|]. destruct (_ <=? _)%nat; [set_solver|].
  unfold slice. intros He.
  apply list_elem_of_lookup in He as [k Hk]. apply lookup_take_Some in Hk as [Hk _].
  rewrite lookup_drop in Hk. by eapply list_elem_of_lookup_2.
Qed.

Lemma plain_last_term : default 0 (st_term (st_last_index s) s) = last_term (ms_log s).
Proof.
  rewrite plain_term, plain_last_index, Nat2N.id. unfold last_term, term_at.
  destruct (ms_log s) as [|x l] using rev_ind; [done|].
  rewrite length_app, Nat.add_comm, last_snoc. cbn. by rewrite lookup_app_r, Nat.sub_diag by lia.
Qed.
End Storage.

Lemma plain_append s es :
  plain_storage s → plain_from (length (ms_log s)) es → plain_storage (ms_append es s).
Proof.
  intros [Hsn Hl] He. rewrite ms_append_eq. split; [done|]. cbn. by apply plain_from_app.
Qed.

(** * The splice loop *)

Lemma plain_truncate s k :
  plain_storage s → ms_truncate_suffix (N.of_nat k + 1) s = s <| ms_log := take k (ms_log s) |>.
Proof.
  intros Hs. unfold ms_truncate_suffix. rewrite plain_base by done.
  destruct (N.leb_spec (N.of_nat k + 1) (0 + 1)).
  - by replace k with 0%nat by lia.
  - by replace (N.to_nat (N.of_nat k + 1 - 0 - 1)) with k by lia.
Qed.

(** Storage and [append_from] after the loop, against [splice_log]. *)
Lemma splice_spec s prev k es :
  plain_storage s → (prev + k ≤ length (ms_log s))%nat →
  (splice 0 (N.of_nat prev) k es s = (s, None) ∧ splice_log (prev + k) es (ms_log s) = ms_log s) ∨
  ∃ j, (k ≤ j)%nat ∧ (prev + j ≤ length (ms_log s))%nat ∧
    splice 0 (N.of_nat prev) k es s = (s <| ms_log := take (prev + j) (ms_log s) |>, Some j) ∧
    splice_log (prev + k) es (ms_log s) = take (prev + j) (ms_log s) ++ drop (j - k) es.
Proof.
  intros Hs. revert k. induction es as [|e es IH]; intros k Hk; [by left|].
  cbn [splice splice_log]. rewrite plain_last_index by done.
  destruct (N.leb_spec (N.of_nat prev + 1 + N.of_nat k) 0); [lia|].
  destruct (N.leb_spec (N.of_nat prev + 1 + N.of_nat k) (N.of_nat (length (ms_log s)))) as [Hle|Hgt].
  - rewrite plain_term by done.
    replace (N.to_nat (N.of_nat prev + 1 + N.of_nat k)) with (S (prev + k)) by lia.
    cbn [term_at]. case_bool_decide as Hm; cbn [negb].
    + destruct (IH (S k)) as [[-> Heq]|(j & Hj1 & Hj2 & -> & Heq)]; [lia| |].
      * left. by rewrite Nat.add_succ_r in Heq.
      * right. exists j. rewrite Nat.add_succ_r in Heq. split_and!; [lia|done|done|].
        rewrite Heq. f_equal. by replace (j - k)%nat with (S (j - S k)) by lia.
    + right. exists k. rewrite Nat.sub_diag. split_and!; [done|done| |done].
      f_equal. cbn. rewrite <- plain_truncate by done. f_equal. lia.
  - right. exists k. rewrite Nat.sub_diag. split_and!; [done|lia| |].
    + f_equal. rewrite take_ge by lia. by destruct s.
    + rewrite (lookup_ge_None_2 (ms_log s)) by lia. by rewrite bool_decide_false.
Qed.

(** * Static membership *)

Lemma dedup_sorted l : StronglySorted N.le l →
  StronglySorted N.lt (dedup l) ∧ ∀ x, x ∈ dedup l ↔ x ∈ l.
Proof.
  induction l as [|x [|y l] IH]; intros Hs; [split; [constructor|done]| |].
  { split; [|done]. by repeat constructor. }
  inversion Hs as [|? ? Hs' Hx]; subst. destruct (IH Hs') as [IH1 IH2].
  cbn [dedup]. fold (dedup (y :: l)). destruct (N.eqb_spec x y) as [->|Hne].
  - split; [done|]. intros z. rewrite IH2. set_solver.
  - split.
    + constructor; [done|]. apply Forall_forall. intros z Hz. apply IH2 in Hz.
      rewrite Forall_forall in Hx. pose proof (Hx z Hz).
      inversion Hs' as [|? ? _ Hy]; subst. rewrite Forall_forall in Hy.
      pose proof (Hx y ltac:(set_solver)).
      apply elem_of_cons in Hz as [->|Hz]; [lia|]. apply Hy in Hz. lia.
    + intros z. rewrite !elem_of_cons, IH2, elem_of_cons. done.
Qed.

Lemma sort_dedup_NoDup l : NoDup (sort_dedup l).
Proof.
  unfold sort_dedup. destruct (dedup_sorted (merge_sort N.le l)) as [Hs _].
  { apply StronglySorted_merge_sort; apply _. }
  induction Hs as [|x l' Hs IH Hx]; constructor; [|done].
  intros Hin. rewrite Forall_forall in Hx. apply Hx in Hin. lia.
Qed.

Lemma contains_spec l x : contains l x = true ↔ x ∈ l.
Proof.
  unfold contains. rewrite existsb_exists. split.
  - intros (y & Hy & ->%N.eqb_eq). by apply list_elem_of_In.
  - intros Hx. exists x. rewrite N.eqb_refl. split; [by apply list_elem_of_In|done].
Qed.

Lemma conf_fold_normal es c :
  (∀ e, e ∈ es → e_type e = Normal) → fold_left conf_fold es c = c.
Proof.
  induction es as [|e es IH]; intros Hn; [done|]. cbn [fold_left].
  assert (conf_fold c e = c) as ->.
  { unfold conf_fold, is_conf_change. by rewrite (Hn e ltac:(set_solver)). }
  apply IH. set_solver.
Qed.

Section Refine.
(** The bootstrap membership, the same on every node. *)
Context (B : list N).
Definition voter_list : list N := sort_dedup B.
Definition voter_set : gset N := list_to_set voter_list.
Implicit Types n : RaftNode MemStorage.

Definition abs n : anode :=
  mkAnode (n_current_term n) (n_voted_for n) (n_role n) (n_votes n) (ms_log (n_storage n))
    (N.to_nat (n_commit_index n)) (n_match_index n) (n_next_index n).

(** The hard state on disk is the one in memory; membership is the bootstrap one;
    a leader's send positions are within its log. *)
Record node_ok (i : N) n : Prop := mkNodeOk {
  no_id : n_id n = i;
  no_boot : n_bootstrap_conf n = B;
  no_voters : n_voters n = voter_list;
  no_learners : n_learners n = [];
  no_storage : plain_storage (n_storage n);
  no_hard : ms_hard (n_storage n) = mkHardState (n_current_term n) (n_voted_for n);
  no_next : n_role n = Leader → ∀ v k, n_next_index n !! v = Some k →
    1 ≤ k ∧ (N.to_nat k ≤ S (length (ms_log (n_storage n))))%nat;
  no_match : n_role n = Leader → ∀ v m, n_match_index n !! v = Some m →
    (N.to_nat m ≤ length (ms_log (n_storage n)))%nat;
}.

(** [n'] is reached from [n] by micro-steps that emit what was queued. *)
Definition refines (net : list Message) (i : N) n n' : Prop :=
  node_ok i n → node_ok i n' ∧ ∃ out, n_messages n' = n_messages n ++ out ∧
    mrun voter_set net i (abs n) (abs n') out.

Section Ops.
Context (net : list Message) (i : N).

Lemma refines_refl n : refines net i n n.
Proof. intros Hn. split; [done|]. exists []. rewrite app_nil_r. split; [done|constructor]. Qed.

Lemma refines_trans n1 n2 n3 : refines net i n1 n2 → refines net i n2 n3 → refines net i n1 n3.
Proof.
  intros R1 R2 Hn. destruct (R1 Hn) as (Hn2 & o1 & E1 & M1). destruct (R2 Hn2) as (Hn3 & o2 & E2 & M2).
  split; [done|]. exists (o1 ++ o2). rewrite E2, E1, app_assoc. split; [done|]. by eapply mrun_trans.
Qed.

(** The safety-relevant part, equal up to its send positions. *)
Definition same_core n n' : Prop :=
  n_id n' = n_id n ∧ n_bootstrap_conf n' = n_bootstrap_conf n ∧ n_voters n' = n_voters n ∧
  n_learners n' = n_learners n ∧ n_storage n' = n_storage n ∧ n_role n' = n_role n ∧
  n_current_term n' = n_current_term n ∧ n_voted_for n' = n_voted_for n ∧
  n_votes n' = n_votes n ∧ n_commit_index n' = n_commit_index n ∧
  n_match_index n' = n_match_index n ∧ n_next_index n' = n_next_index n ∧
  n_messages n' = n_messages n.

Lemma same_core_ok n n' : same_core n n' → node_ok i n → node_ok i n'.
Proof.
  intros (E1 & E2 & E3 & E4 & E5 & E6 & E7 & E8 & E9 & E10 & E11 & E12 & E13) [].
  split; rewrite ?E1, ?E2, ?E3, ?E4, ?E5, ?E6, ?E7, ?E8, ?E11, ?E12; done.
Qed.

Lemma same_core_abs n n' : same_core n n' → abs n' = abs n.
Proof.
  intros (? & ? & ? & ? & ? & ? & ? & ? & ? & ? & ? & ? & ?). unfold abs. congruence.
Qed.

Lemma refines_frame n n' : same_core n n' → refines net i n n'.
Proof.
  intros Hc Hn. split; [by eapply same_core_ok|]. exists []. rewrite (same_core_abs _ _ Hc), app_nil_r.
  split; [apply Hc|constructor].
Qed.

Lemma reset_frame n : same_core n (reset_election_timer n).
Proof. by repeat split. Qed.

(** One micro-step. *)
Lemma refines_step n n' out :
  (node_ok i n → node_ok i n') → n_messages n' = n_messages n ++ out →
  (node_ok i n → mstep voter_set net i (abs n) (abs n') out) → refines net i n n'.
Proof. intros Ho Hm Hs Hn. split; [auto|]. exists out. split; [done|]. by apply mrun_one, Hs. Qed.

(** * Role transitions *)

Lemma become_follower_refines t leader n : refines net i n (become_follower t leader n).
Proof.
  unfold become_follower. destruct (N.ltb_spec (n_current_term n) t) as [Hlt|Hge].
  - eapply refines_trans; [|apply refines_frame, reset_frame].
    apply (refines_step _ _ []); cbn; [|by rewrite app_nil_r|].
    + intros [? ? ? ? [? ?] ? ? ?]. by split.
    + intros _. by apply (M_term _ _ _ (abs n) t).
  - eapply refines_trans; [|apply refines_frame, reset_frame].
    apply (refines_step _ _ []); cbn; [|by rewrite app_nil_r|].
    + intros []. by split.
    + intros _. by apply (M_follow _ _ _ (abs n)).
Qed.

Lemma conf_at_static index n : node_ok i n → conf_at index n = (voter_list, []).
Proof.
  intros [_ Hb _ _ [Hsn Hl] _ _ _]. unfold conf_at. rewrite Hb. cbn [st_snapshot mem_storage]. rewrite Hsn.
  rewrite conf_fold_normal; [done|]. intros e He%plain_entries_in.
  apply list_elem_of_lookup in He as [k Hk]. by destruct (Hl _ _ Hk).
Qed.

Lemma recompute_conf_refines n : refines net i n (recompute_conf n).
Proof.
  intros Hn. unfold recompute_conf. rewrite conf_at_static by done.
  set (n1 := n <| n_voters := voter_list |> <| n_learners := [] |>).
  assert (H1 : same_core n n1) by (repeat split; symmetry; apply Hn).
  set (n2 := match n_transfer_target n1 with Some _ => _ | None => _ end).
  assert (H2 : same_core n n2).
  { unfold n2. destruct (n_transfer_target n1); [|done]. by destruct (contains _ _). }
  destruct (_ && _); [|by apply (refines_frame _ _ H2)].
  exact (refines_trans _ _ _ (refines_frame _ _ H2) (become_follower_refines _ _ _) Hn).
Qed.

(** * Sending *)

Lemma send_inert_refines to t b n : inert b → refines net i n (send to t b n).
Proof.
  intros Hb. apply (refines_step _ _ [mkMessage (n_id n) to t b]); [|done|].
  - intros []. by split.
  - intros Hn. rewrite (no_id _ _ Hn). by apply (M_inert _ _ _ (abs n)).
Qed.

Lemma send_grant_refines c n :
  n_voted_for n = Some c → refines net i n (send c (n_current_term n) (RequestVoteResp true) n).
Proof.
  intros Hv. eapply refines_step; [by intros []; split|reflexivity|].
  intros Hn. rewrite (no_id _ _ Hn). by apply (M_grant _ _ _ (abs n)).
Qed.

Lemma term_at_le k l : (k ≤ length l)%nat → ∃ t, term_at k l = Some t.
Proof.
  destruct k as [|k]; [by eexists|]. intros Hk. cbn.
  destruct (lookup_lt_is_Some_2 l k Hk) as [e ->]. by eexists.
Qed.

Lemma send_append_refines to n : n_role n = Leader → refines net i n (send_append to n).
Proof.
  intros Hr Hn. unfold send_append. pose proof (no_storage _ _ Hn) as Hs.
  set (next := default _ _).
  assert (Hnext : 1 ≤ next ∧ (N.to_nat next ≤ S (length (ms_log (n_storage n))))%nat).
  { unfold next. rewrite plain_last_index by done. destruct (n_next_index n !! to) eqn:E; cbn; [|lia].
    by eapply no_next. }
  clearbody next. destruct Hnext as [Hlo Hhi].
  assert (∃ prev, next = N.of_nat prev + 1) as [prev ->] by (exists (N.to_nat (next - 1)); lia).
  rewrite plain_first_index by done. destruct (N.ltb_spec (N.of_nat prev + 1) 1); [lia|].
  rewrite plain_entries, plain_term by (done || lia). rewrite N.add_sub.
  replace (N.to_nat (N.of_nat prev + 1) - 1)%nat with prev by lia. rewrite Nat2N.id.
  destruct (term_at_le prev (ms_log (n_storage n))) as [pt Hpt]; [lia|].
  rewrite Hpt. cbn [default from_option]. rewrite <- (N2Nat.id (n_commit_index n)).
  revert Hn. eapply refines_step; [|reflexivity|].
  - intros []. by split.
  - intros Hn. rewrite (no_id _ _ Hn). by apply (M_append _ _ _ (abs n)); [|cbn; lia|].
Qed.

Lemma send_append_role to n : n_role (send_append to n) = n_role n.
Proof.
  unfold send_append. destruct (_ <? _); [|done]. unfold send_snapshot. by destruct (st_snapshot _).
Qed.

Lemma broadcast_append_refines n : n_role n = Leader → refines net i n (broadcast_append n).
Proof.
  unfold broadcast_append. generalize (replication_peers n) as ps. intros ps. revert n.
  induction ps as [|p ps IH]; intros n Hr; [apply refines_refl|]. cbn [fold_left].
  eapply refines_trans; [by apply send_append_refines|]. apply IH. by rewrite send_append_role.
Qed.

(** * Commit *)

Lemma voters_size : size voter_set = length voter_list.
Proof. unfold voter_set. apply size_list_to_set, sort_dedup_NoDup. Qed.

Lemma count_quorum p :
  (length voter_list / 2 + 1 ≤ count p voter_list)%nat →
  quorum voter_set (list_to_set (List.filter p voter_list)).
Proof.
  intros Hc. split.
  - intros v. unfold voter_set. rewrite !elem_of_list_to_set, !list_elem_of_In.
    by intros [? _]%filter_In.
  - rewrite voters_size, size_list_to_set.
    + unfold count in Hc. pose proof (Nat.div_mod_eq (length voter_list) 2).
      pose proof (Nat.mod_upper_bound (length voter_list) 2). lia.
    + apply NoDup_ListNoDup, List.NoDup_filter, NoDup_ListNoDup, sort_dedup_NoDup.
Qed.

Lemma commit_scan_spec k n c :
  commit_scan k n = Some c → n_commit_index n < c ∧
  st_term c (n_storage n) = Some (n_current_term n) ∧ (majority n ≤ match_count c n)%nat.
Proof.
  induction k as [|k IH]; [done|]. cbn [commit_scan].
  destruct (_ && _) eqn:E; [|done]. intros [= <-].
  apply andb_true_iff in E as [Ht%bool_decide_eq_true Hc%Nat.leb_le]. split; [lia|done].
Qed.

Lemma advance_reads_frame n : same_core n (advance_reads n).
Proof.
  unfold advance_reads. destruct (_ || _); [by repeat split|].
  by destruct (confirm_reads _ _).
Qed.

Lemma maybe_advance_commit_refines n : n_role n = Leader → refines net i n (maybe_advance_commit n).
Proof.
  intros Hr. unfold maybe_advance_commit.
  destruct (commit_scan _ n) as [c|] eqn:E; [|apply refines_refl].
  apply commit_scan_spec in E as (Hc & Ht & Hm).
  eapply refines_trans; [|apply refines_frame, advance_reads_frame].
  apply (refines_step _ _ []); [|cbn; by rewrite app_nil_r|].
  - intros []. by split.
  - intros Hn. pose proof (no_storage _ _ Hn) as Hs. rewrite plain_term in Ht by done.
    unfold majority, match_count in Hm. rewrite (no_voters _ _ Hn) in Hm.
    eapply (M_commit _ _ _ (abs n) (N.to_nat c)); [done|cbn; lia|done|by apply count_quorum|].
    intros v. rewrite elem_of_list_to_set, list_elem_of_In.
    intros [_ Hv%N.leb_le]%filter_In. cbn. lia.
Qed.

Lemma maybe_advance_commit_role n : n_role (maybe_advance_commit n) = n_role n.
Proof.
  unfold maybe_advance_commit. destruct (commit_scan _ n); [|done].
  by destruct (advance_reads_frame (n <| n_commit_index := n0 |>)) as (_ & _ & _ & _ & _ & -> & _).
Qed.

(** * Elections *)

Lemma progress_fold ps last n :
  (∀ v k, n_next_index n !! v = Some k → k = last + 1) →
  (∀ v m, n_match_index n !! v = Some m → m = 0) →
  ∃ ni mi,
    fold_left (λ n p, n <| n_next_index := <[p := last + 1]> (n_next_index n) |>
                        <| n_match_index := <[p := 0]> (n_match_index n) |>) ps n
    = n <| n_next_index := ni |> <| n_match_index := mi |> ∧
    (∀ v k, ni !! v = Some k → k = last + 1) ∧ (∀ v m, mi !! v = Some m → m = 0).
Proof.
  revert n. induction ps as [|p ps IH]; intros n Hn Hm.
  { exists (n_next_index n), (n_match_index n). by destruct n. }
  cbn [fold_left]. destruct (IH (n <| n_next_index := <[p := last + 1]> (n_next_index n) |>
    <| n_match_index := <[p := 0]> (n_match_index n) |>)) as (ni & mi & -> & ? & ?).
  - intros v k. cbn. intros [[_ <-]|[_ ?]]%lookup_insert_Some; eauto.
  - intros v m. cbn. intros [[_ <-]|[_ ?]]%lookup_insert_Some; eauto.
  - exists ni, mi. done.
Qed.

Lemma become_leader_refines n :
  n_role n = Candidate → (size voter_set < 2 * size (n_votes n))%nat →
  refines net i n (become_leader n).
Proof.
  intros Hr HQ Hn. unfold become_leader. cbn [set_field n_id n_storage n_voters n_learners].
  set (last := st_last_index _). assert (Hlast : last = N.of_nat (length (ms_log (n_storage n)))).
  { unfold last. apply plain_last_index, Hn. }
  clearbody last. edestruct (progress_fold (n_voters n ++ n_learners n) last) as (ni & mi & -> & Hni & Hmi);
    [by intros v k; cbn; rewrite lookup_empty|by intros v k; cbn; rewrite lookup_empty|].
  revert Hn. eapply refines_trans; [|by apply broadcast_append_refines].
  apply (refines_step _ _ []); [|cbn; by rewrite app_nil_r|].
  - intros []. split; try done; [intros _ v k ->%Hni; cbn; lia|].
    intros _ v m Hm. change (<[n_id n := last]> mi !! v = Some m) in Hm.
    apply lookup_insert_Some in Hm as [[<- <-]|[_ ->%Hmi]]; cbn; lia.
  - intros Hn. apply (M_lead _ _ _ (abs n)); [done|done| |].
    + intros v m Hm. change (<[n_id n := last]> mi !! v = Some m) in Hm.
      apply lookup_insert_Some in Hm as [[<- <-]|[_ ->%Hmi]]; [|by left]. right.
      rewrite (no_id _ _ Hn). done.
    + intros v k ->%Hni. cbn. lia.
Qed.

Lemma majority_quorum n : n_voters n = voter_list → (majority n ≤ size (n_votes n))%nat →
  (size voter_set < 2 * size (n_votes n))%nat.
Proof.
  unfold majority. intros -> Hm. rewrite voters_size.
  pose proof (Nat.div_mod_eq (length voter_list) 2).
  pose proof (Nat.mod_upper_bound (length voter_list) 2). lia.
Qed.

Lemma request_votes_refines ps n :
  n_role n = Candidate → node_ok i n →
  refines net i n (fold_left (λ n p, send p (n_current_term n)
    (RequestVote (N.of_nat (length (ms_log (n_storage n)))) (last_term (ms_log (n_storage n)))) n) ps n).
Proof.
  revert n. induction ps as [|p ps IH]; intros n Hr Hn; [apply refines_refl|]. cbn [fold_left].
  set (n1 := send _ _ _ _).
  assert (R : refines net i n n1).
  { eapply refines_step; [by intros []; split|reflexivity|]. intros _. rewrite (no_id _ _ Hn).
    by apply (M_reqvote _ _ _ (abs n)). }
  eapply refines_trans; [exact R|]. apply IH; [done|]. by apply R.
Qed.

(** The loop body with the values read before the loop, as the code has it. *)
Lemma request_votes_eq ps n t lli llt :
  t = n_current_term n → lli = N.of_nat (length (ms_log (n_storage n))) →
  llt = last_term (ms_log (n_storage n)) →
  fold_left (λ n p, send p t (RequestVote lli llt) n) ps n =
  fold_left (λ n p, send p (n_current_term n)
    (RequestVote (N.of_nat (length (ms_log (n_storage n)))) (last_term (ms_log (n_storage n)))) n) ps n.
Proof.
  intros -> -> ->. revert n. induction ps as [|p ps IH]; intros n; [done|].
  cbn [fold_left]. rewrite <- IH. done.
Qed.

Lemma start_election_refines n : is_voter n = true → refines net i n (start_election n).
Proof.
  intros Hv Hn. unfold start_election.
  set (n1 := reset_election_timer _).
  assert (R : refines net i n n1).
  { eapply refines_trans; [|apply refines_frame, reset_frame].
    apply (refines_step _ _ []); [|cbn; by rewrite app_nil_r|].
    - intros [? ? ? ? [? ?] ? ? ?]. by split.
    - intros _. cbn. rewrite (no_id _ _ Hn).
      apply (M_elect _ _ _ (abs n)). unfold voter_set. rewrite elem_of_list_to_set.
      apply contains_spec. unfold is_voter in Hv. by rewrite (no_id _ _ Hn), (no_voters _ _ Hn) in Hv. }
  destruct (R Hn) as [Hn1 _]. revert Hn. eapply refines_trans; [exact R|].
  destruct (Nat.leb_spec (majority n1) (size (n_votes n1))) as [Hle|Hgt].
  - apply become_leader_refines; [done|]. apply majority_quorum; [apply Hn1|done].
  - unfold last_log_term. pose proof (no_storage _ _ Hn1). rewrite plain_last_term by done.
    rewrite plain_last_index by done.
    rewrite request_votes_eq by done. by apply request_votes_refines.
Qed.

(** * Message handlers *)

Lemma handle_request_vote_refines from to term lli llt n :
  mkMessage from to term (RequestVote lli llt) ∈ net → term ≤ n_current_term n →
  refines net i n (handle_request_vote from term lli llt n).
Proof.
  intros Hm Hle Hn. unfold handle_request_vote. pose proof (no_storage _ _ Hn) as Hs.
  destruct (N.leb_spec (n_current_term n) term) as [Hge|_]; [|by apply send_inert_refines].
  destruct (_ && _) eqn:E; [|by apply send_inert_refines].
  apply andb_true_iff in E as [Hv Hlog]. assert (term = n_current_term n) as -> by lia.
  unfold last_log_term in Hlog. rewrite plain_last_term, plain_last_index in Hlog by done.
  set (n1 := n <| n_voted_for := Some from |>).
  assert (R1 : refines net i n (persist_hard_state n1)).
  { apply (refines_step _ _ []); [|cbn; by rewrite app_nil_r|].
    - intros [? ? ? ? [? ?] ? ? ?]. by split.
    - intros _. apply (M_vote _ _ _ (abs n) from to lli llt Hm).
      + apply orb_true_iff in Hv as [Hv%bool_decide_eq_true|Hv%bool_decide_eq_true]; auto.
      + unfold up_to_date. cbn. apply orb_true_iff in Hlog as [Hl%N.ltb_lt|Hl]; [by left|right].
        apply andb_true_iff in Hl as [Hl1%N.eqb_eq Hl2%N.leb_le]. split; [done|lia]. }
  revert Hn. eapply refines_trans; [exact R1|].
  eapply refines_trans; [apply refines_frame, (reset_frame (persist_hard_state n1))|].
  by apply send_grant_refines.
Qed.

Lemma handle_request_vote_resp_refines from term granted n :
  (granted = true → mkMessage from i term (RequestVoteResp true) ∈ net) →
  refines net i n (handle_request_vote_resp from term granted n).
Proof.
  intros Hm Hn. unfold handle_request_vote_resp.
  destruct (_ || _) eqn:E; [by apply refines_refl|].
  apply orb_false_iff in E as [Hr%negb_false_iff%bool_decide_eq_true Ht%negb_false_iff%N.eqb_eq].
  destruct (_ && _) eqn:E2; [|by apply refines_refl].
  apply andb_true_iff in E2 as [-> Hv%contains_spec]. subst term.
  set (n1 := n <| n_votes := {[from]} ∪ n_votes n |>).
  assert (R : refines net i n n1).
  { apply (refines_step _ _ []); [|cbn; by rewrite app_nil_r|].
    - intros []. by split.
    - intros _. apply (M_count _ _ _ (abs n)); [done| |by apply Hm].
      unfold voter_set. by rewrite elem_of_list_to_set, <- (no_voters _ _ Hn). }
  destruct (R Hn) as [Hn1 _]. revert Hn.
  destruct (Nat.leb_spec (majority n1) (size (n_votes n1))); [|exact R].
  eapply refines_trans; [exact R|]. apply become_leader_refines; [done|].
  apply majority_quorum; [apply Hn1|done].
Qed.

Lemma handle_timeout_now_refines term n : refines net i n (handle_timeout_now term n).
Proof.
  unfold handle_timeout_now. destruct (_ || _) eqn:E; [apply refines_refl|].
  apply orb_false_iff in E as [_ Hv%negb_false_iff]. by apply start_election_refines.
Qed.

(** The log and commit index after an accepted append. *)
Lemma accept_refines from to prev pt es lc rr n :
  mkMessage from to (n_current_term n) (AppendEntries (N.of_nat prev) pt es lc rr) ∈ net →
  plain_from prev es → n_role n = Follower → node_ok i n →
  term_at prev (ms_log (n_storage n)) = Some pt →
  let '(s, append_from) := splice 0 (N.of_nat prev) 0 es (n_storage n) in
  let p := N.of_nat prev + N.of_nat (length es) in
  let n' := n <| n_storage := match append_from with
                              | Some k => st_append (drop k es) s | None => s end |> in
  node_ok i n' ∧
  mstep voter_set net i (abs n)
    ((abs n') <| a_commit := N.to_nat (if n_commit_index n <? lc then N.min lc p
                                     else n_commit_index n) |>)
    [mkMessage i from (n_current_term n) (AppendEntriesResp true p rr)].
Proof.
  intros Hm Hes Hr Hn Hpt. destruct Hn as [Hid Hb Hv Hl Hs Hh Hx Hmx].
  assert (Hprev : (prev + 0 ≤ length (ms_log (n_storage n)))%nat).
  { destruct prev as [|k]; [lia|]. cbn in Hpt. apply fmap_Some in Hpt as (e & He & _).
    apply lookup_lt_Some in He. lia. }
  assert (Hstep : ∀ s', ms_log s' = splice_log prev es (ms_log (n_storage n)) →
    mstep voter_set net i (abs n)
      ((abs (n <| n_storage := s' |>)) <| a_commit := N.to_nat (if n_commit_index n <? lc
         then N.min lc (N.of_nat prev + N.of_nat (length es)) else n_commit_index n) |>)
      [mkMessage i from (n_current_term n)
         (AppendEntriesResp true (N.of_nat prev + N.of_nat (length es)) rr)]).
  { intros s' Hlog.
    pose proof (M_accept voter_set net i (abs n) from to (N.of_nat prev) pt es lc rr Hm) as M.
    rewrite Nat2N.id in M. specialize (M Hr Hpt). cbn zeta in M. rewrite Nat2N.inj_add in M.
    unfold abs in *. cbn in *. rewrite Hlog.
    replace (N.to_nat (if n_commit_index n <? lc then _ else _)) with
      (if (N.to_nat (n_commit_index n) <? N.to_nat lc)%nat
       then Nat.min (N.to_nat lc) (prev + length es) else N.to_nat (n_commit_index n)); [exact M|].
    destruct (N.ltb_spec (n_commit_index n) lc), (Nat.ltb_spec (N.to_nat (n_commit_index n)) (N.to_nat lc));
      lia. }
  destruct (splice_spec (n_storage n) prev 0 es Hs Hprev) as [[-> Heq]|(j & _ & Hj & -> & Heq)];
    rewrite Nat.add_0_r in Heq.
  - split; [by split|]. by apply Hstep.
  - rewrite Nat.sub_0_r in Heq. split; [|apply Hstep; cbn; by rewrite ms_append_eq].
    split; try done.
    + cbn. apply plain_append.
      * split; [apply Hs|]. cbn. apply plain_from_take, Hs.
      * cbn. rewrite length_take, Nat.min_l by done. by apply plain_from_drop.
    + cbn. rewrite ms_append_eq. done.
    + cbn. rewrite Hr. done.
    + cbn. rewrite Hr. done.
Qed.

Lemma recompute_conf_follower n :
  node_ok i n → n_role n = Follower → same_core n (recompute_conf n).
Proof.
  intros Hn Hr. unfold recompute_conf. rewrite conf_at_static by done.
  set (n1 := n <| n_voters := voter_list |> <| n_learners := [] |>).
  assert (H1 : same_core n n1) by (repeat split; symmetry; apply Hn).
  set (n2 := match n_transfer_target n1 with Some _ => _ | None => _ end).
  assert (H2 : same_core n n2).
  { unfold n2. destruct (n_transfer_target n1); [|done]. by destruct (contains _ _). }
  assert (is_leader n2 = false) as ->; [|done].
  destruct H2 as (_ & _ & _ & _ & _ & Hr2 & _). unfold is_leader. rewrite Hr2, Hr. done.
Qed.

(** The rest of [handle_append_entries] once the previous entry matches. *)
Lemma accept_tail_refines from to prev pt es lc rr n1 :
  mkMessage from to (n_current_term n1) (AppendEntries (N.of_nat prev) pt es lc rr) ∈ net →
  plain_from prev es → n_role n1 = Follower →
  term_at prev (ms_log (n_storage n1)) = Some pt →
  let p := N.of_nat prev + N.of_nat (length es) in
  refines net i n1
    (let '(s, append_from) := splice 0 (N.of_nat prev) 0 es (n_storage n1) in
     let n := n1 <| n_storage := s |> in
     let n := match append_from with
              | Some k => recompute_conf (n <| n_storage := st_append (drop k es) (n_storage n) |>)
              | None => n
              end in
     let n := if n_commit_index n <? lc then n <| n_commit_index := N.min lc p |> else n in
     send from (n_current_term n) (AppendEntriesResp true p rr) n).
Proof.
  intros Hm Hes Hr Hpt p Hn1.
  pose proof (accept_refines from to prev pt es lc rr n1 Hm Hes Hr Hn1 Hpt) as A.
  destruct (splice _ _ _ _ _) as [s app]. destruct A as [Hok Hst].
  set (n2 := n1 <| n_storage := _ |>) in Hok, Hst. cbn zeta.
  set (n3 := match app with Some _ => _ | None => _ end).
  assert (Hc : same_core n2 n3).
  { unfold n3, n2 in *. destruct app; [|by repeat split]. by apply recompute_conf_follower. }
  destruct Hc as (E1 & E2 & E3 & E4 & E5 & E6 & E7 & E8 & E9 & E10 & E11 & E12 & E13).
  fold p in Hst. set (c := if n_commit_index n1 <? lc then N.min lc p else n_commit_index n1) in Hst.
  assert (Hn3 : (if n_commit_index n3 <? lc then n3 <| n_commit_index := N.min lc p |> else n3)
    = n3 <| n_commit_index := c |>).
  { unfold c. rewrite E10. change (n_commit_index n2) with (n_commit_index n1).
    destruct (_ <? _); [done|]. change (n_commit_index n1) with (n_commit_index n2).
    rewrite <- E10. by destruct n3. }
  rewrite Hn3. clear Hn3. split.
  - destruct Hok as [O1 O2 O3 O4 O5 O6 O7 O8].
    split; cbn; rewrite ?E1, ?E2, ?E3, ?E4, ?E5, ?E6, ?E7, ?E8, ?E11, ?E12; done.
  - eexists. split; [cbn; rewrite E13, E1, E7; reflexivity|]. apply mrun_one.
    change (n_id n2) with (n_id n1). rewrite (no_id _ _ Hn1).
    change (n_current_term n2) with (n_current_term n1).
    match goal with |- mstep _ _ _ _ ?x _ =>
      replace x with ((abs n2) <| a_commit := N.to_nat c |>); [exact Hst|] end.
    unfold abs. cbn. rewrite E5, E6, E7, E8, E9, E11, E12. done.
Qed.

Lemma follow_refines from n :
  refines net i n (reset_election_timer (n <| n_role := Follower |> <| n_leader_id := Some from |>)).
Proof.
  eapply refines_trans; [|apply refines_frame, reset_frame].
  apply (refines_step _ _ []); [|cbn; by rewrite app_nil_r|].
  - intros []. by split.
  - intros _. apply (M_follow _ _ _ (abs n)).
Qed.

Lemma follow_fields from n :
  let n1 := reset_election_timer (n <| n_role := Follower |> <| n_leader_id := Some from |>) in
  n_current_term n1 = n_current_term n ∧ n_role n1 = Follower.
Proof. done. Qed.

Lemma handle_append_entries_refines from to term prev pt es lc rr n :
  mkMessage from to term (AppendEntries prev pt es lc rr) ∈ net → term ≤ n_current_term n →
  plain_from (N.to_nat prev) es →
  refines net i n (handle_append_entries from term prev pt es lc rr n).
Proof.
  intros Hm Hle Hes Hn. unfold handle_append_entries.
  destruct (N.ltb_spec term (n_current_term n)) as [Hlt|Hge]; [by apply send_inert_refines|].
  assert (term = n_current_term n) as -> by lia.
  pose proof (follow_refines from n) as R. destruct (follow_fields from n) as [Ht Hr].
  cbn zeta. set (n1 := reset_election_timer _) in *. clearbody n1.
  destruct (R Hn) as [Hn1 _]. revert Hn. eapply refines_trans; [exact R|].
  pose proof (no_storage _ _ Hn1) as Hs. rewrite plain_first_index by done.
  change (1 - 1) with 0. rewrite <- Ht in Hm.
  destruct (N.leb_spec (prev + N.of_nat (length es)) 0) as [H0|Hpos]; [by apply send_inert_refines|].
  destruct (N.leb_spec 0 prev) as [_|]; [|lia]. rewrite plain_term by done.
  cbn [andb]. case_bool_decide as Hpt; cbn [negb]; [|by apply send_inert_refines].
  rewrite <- (N2Nat.id prev) in Hm |- *. by apply (accept_tail_refines from to (N.to_nat prev) pt).
Qed.

Lemma fire_timeout_now_refines to n : refines net i n (fire_timeout_now to n).
Proof.
  eapply refines_trans; [by apply (send_inert_refines to (n_current_term n) TimeoutNow)|].
  apply refines_frame. by repeat split.
Qed.

(** Leader: recording a peer's acknowledged position. *)
Lemma record_match_refines from rr mi n :
  n_role n = Leader →
  mkMessage from i (n_current_term n) (AppendEntriesResp true mi rr) ∈ net →
  (N.to_nat mi ≤ length (ms_log (n_storage n)))%nat →
  let m := N.max mi (default 0 (n_match_index n !! from)) in
  refines net i n (n <| n_match_index := <[from := m]> (n_match_index n) |>
    <| n_next_index := <[from := m + 1]> (n_next_index n) |>).
Proof.
  intros Hr Hm Hmi m. apply (refines_step _ _ []); [|cbn; by rewrite app_nil_r|].
  - intros Hn.
    assert (Hle : (N.to_nat m ≤ length (ms_log (n_storage n)))%nat).
    { unfold m. destruct (n_match_index n !! from) as [p|] eqn:E; cbn; [|lia].
      pose proof (no_match _ _ Hn Hr _ _ E). lia. }
    destruct Hn as [? ? ? ? ? ? Hx Hmx]. split; try done; intros _ v k Hk.
    + change (<[from := m + 1]> (n_next_index n) !! v = Some k) in Hk. cbn.
      apply lookup_insert_Some in Hk as [[_ <-]|[_ Hk]]; [lia|by eapply Hx].
    + change (<[from := m]> (n_match_index n) !! v = Some k) in Hk. cbn.
      apply lookup_insert_Some in Hk as [[_ <-]|[_ Hk]]; [lia|by eapply Hmx].
  - intros _. by apply (M_match _ _ _ (abs n) from mi rr).
Qed.

Lemma back_off_refines from n :
  n_role n = Leader →
  refines net i n (n <| n_next_index :=
    <[from := N.max (default 1 (n_next_index n !! from) - 1) 1]> (n_next_index n) |>).
Proof.
  intros Hr Hn. set (k := N.max _ _).
  assert (Hk : 1 ≤ k ∧ (N.to_nat k ≤ S (length (ms_log (n_storage n))))%nat).
  { unfold k. destruct (n_next_index n !! from) as [p|] eqn:E; cbn; [|lia].
    pose proof (no_next _ _ Hn Hr _ _ E). lia. }
  clearbody k. revert Hn. apply (refines_step _ _ []); [|cbn; by rewrite app_nil_r|].
  - intros [? ? ? ? ? ? Hx Hmx]. split; try done. intros _ v j Hj.
    change (<[from := k]> (n_next_index n) !! v = Some j) in Hj. cbn.
    apply lookup_insert_Some in Hj as [[_ <-]|[_ Hj]]; [done|by eapply Hx].
  - intros _. exact (M_next _ _ _ (abs n) from k Hr (proj1 Hk) (proj2 Hk)).
Qed.

Lemma handle_append_resp_refines from term success mi rr n :
  (success = true → mkMessage from i term (AppendEntriesResp true mi rr) ∈ net) →
  (success = true → n_role n = Leader → term = n_current_term n →
     N.to_nat mi ≤ length (ms_log (n_storage n)))%nat →
  refines net i n (handle_append_resp from term success mi rr n).
Proof.
  intros Hm Hlen. unfold handle_append_resp. destruct (_ || _) eqn:E; [apply refines_refl|].
  apply orb_false_iff in E as [Hr%negb_false_iff%bool_decide_eq_true ->%negb_false_iff%N.eqb_eq].
  eapply refines_trans; [|apply refines_frame, advance_reads_frame].
  set (n1 := n <| n_recent_active := _ |> <| n_acked_round := _ |>).
  assert (R : refines net i n n1) by (by apply refines_frame; repeat split).
  eapply refines_trans; [exact R|]. assert (Hr1 : n_role n1 = Leader) by done.
  destruct success.
  - specialize (Hm eq_refl). specialize (Hlen eq_refl Hr eq_refl).
    set (n2 := n1 <| n_match_index := _ |> <| n_next_index := _ |>).
    assert (R2 : refines net i n1 n2) by (by apply (record_match_refines from rr mi n1)).
    eapply refines_trans; [exact R2|].
    eapply refines_trans; [by apply maybe_advance_commit_refines|].
    destruct (_ && _); [apply fire_timeout_now_refines|apply refines_refl].
  - eapply refines_trans; [by apply (back_off_refines from n1)|]. by apply send_append_refines.
Qed.

(** A message in the network that the group's invariant allows. *)
Definition deliverable n (m : Message) : Prop :=
  match m_body m with
  | AppendEntries prev _ es _ _ => plain_from (N.to_nat prev) es
  | AppendEntriesResp true mi _ => n_role n = Leader → m_term m = n_current_term n →
      (N.to_nat mi ≤ length (ms_log (n_storage n)))%nat
  | InstallSnapshot _ _ _ _ _ | InstallSnapshotResp _ => False
  | _ => True
  end.

Lemma become_follower_term t l n :
  n_current_term n < t → n_current_term (become_follower t l n) = t ∧
    n_role (become_follower t l n) = Follower.
Proof. intros Hlt. unfold become_follower. apply N.ltb_lt in Hlt. by rewrite Hlt. Qed.

Lemma dispatch_refines m n :
  m ∈ net → m_to m = i → m_term m ≤ n_current_term n → deliverable n m →
  refines net i n (dispatch m n).
Proof.
  destruct m as [from to term body]. cbn. intros Hm -> Hle Hd. unfold dispatch, deliverable in *. cbn in *.
  destruct body as [lli llt|granted|prev pt es lc rr|success mi rr| | |]; try done.
  - by eapply handle_request_vote_refines.
  - apply handle_request_vote_resp_refines. by intros ->.
  - by eapply handle_append_entries_refines.
  - destruct success; apply handle_append_resp_refines; done.
  - apply handle_timeout_now_refines.
Qed.

Lemma step_refines m n :
  m ∈ net → m_to m = i → deliverable n m → refines net i n (step m n).
Proof.
  intros Hm Hto Hd. unfold step. destruct (N.ltb_spec (n_current_term n) (m_term m)) as [Hlt|Hge].
  - eapply refines_trans; [apply become_follower_refines|].
    match goal with |- context [become_follower _ ?l _] =>
      destruct (become_follower_term (m_term m) l n Hlt) as [Ht Hr] end.
    apply dispatch_refines; [done|done|by rewrite Ht|].
    unfold deliverable in *. destruct (m_body m) as [| | |[] | | |]; try done.
  - by apply dispatch_refines.
Qed.

(** * The driver's calls *)

Lemma check_quorum_tick_refines n : refines net i n (check_quorum_tick n).
Proof.
  unfold check_quorum_tick. destruct (_ <=? _); [|by apply refines_frame; repeat split].
  destruct (_ && _); [|by apply refines_frame; repeat split].
  match goal with |- refines _ _ _ (become_follower _ _ ?x) =>
    eapply (refines_trans _ x); [by apply refines_frame; repeat split|] end.
  apply become_follower_refines.
Qed.

Lemma tick_refines n : refines net i n (tick n).
Proof.
  unfold tick. destruct (n_role n) eqn:Hr.
  1, 2: destruct (_ && _) eqn:E; [|by apply refines_frame; repeat split];
    apply andb_true_iff in E as [_ Hv];
    match goal with |- refines _ _ _ (start_election ?x) =>
      eapply (refines_trans _ x); [by apply refines_frame; repeat split|] end;
    by apply start_election_refines.
  set (n1 := match n_transfer_target n with Some _ => _ | None => _ end).
  assert (H1 : same_core n n1).
  { unfold n1. destruct (n_transfer_target n); [|by repeat split]. by destruct (_ <=? _). }
  assert (Hr1 : n_role n1 = Leader) by (rewrite <- Hr; apply H1). clearbody n1.
  eapply refines_trans; [apply (refines_frame _ _ H1)|].
  set (n2 := n1 <| n_heartbeat_elapsed := _ |>).
  assert (R2 : refines net i n1 n2) by (by apply refines_frame; repeat split).
  eapply refines_trans; [exact R2|].
  eapply refines_trans; [|apply check_quorum_tick_refines].
  destruct (_ <=? _); [|apply refines_refl].
  eapply (refines_trans _ (n2 <| n_heartbeat_elapsed := 0 |>)); [by apply refines_frame; repeat split|].
  by apply broadcast_append_refines.
Qed.

Lemma append_own_refines data n :
  n_role n = Leader →
  let index := st_last_index (n_storage n) + 1 in
  refines net i n (append_own (Entry_normal (n_current_term n) index data) index n).
Proof.
  intros Hr index Hn. unfold index. rewrite plain_last_index by apply Hn. revert Hn.
  set (len := length (ms_log (n_storage n))).
  apply (refines_step _ _ []); [|cbn; by rewrite app_nil_r|].
  - intros [? ? ? ? Hs ? Hx Hmx]. unfold append_own. split; try done.
    + cbn. apply (plain_append (n_storage n) [_] Hs). intros [|k] e; [|done].
      cbn. intros [= <-]. cbn. split; [lia|done].
    + intros _ v k Hk. cbn. rewrite length_app. cbn.
      match type of Hk with _ !! v = Some k =>
        change (<[n_id n := N.of_nat len + 1 + 1]> (n_next_index n) !! v = Some k) in Hk end.
      apply lookup_insert_Some in Hk as [[_ <-]|[_ Hk]]; [unfold len; lia|].
      apply Hx in Hk; [lia|done].
    + intros _ v k Hk. cbn. rewrite length_app. cbn.
      change (<[n_id n := N.of_nat len + 1]> (n_match_index n) !! v = Some k) in Hk.
      apply lookup_insert_Some in Hk as [[_ <-]|[_ Hk]]; [unfold len; lia|].
      apply Hmx in Hk; [lia|done].
  - intros Hn. unfold append_own, abs. cbn. rewrite (no_id _ _ Hn).
    replace (N.of_nat len + 1 + 1) with (N.of_nat len + 2) by lia.
    exact (M_own _ _ _ (abs n) data Hr).
Qed.

Lemma propose_refines data n : refines net i n (propose data n).2.
Proof.
  unfold propose. destruct (negb _) eqn:E; [apply refines_refl|].
  apply negb_false_iff, bool_decide_eq_true in E.
  destruct (n_transfer_target n); [apply refines_refl|]. cbn [snd].
  eapply refines_trans; [by apply append_own_refines|].
  eapply refines_trans; [by apply maybe_advance_commit_refines|].
  apply broadcast_append_refines. by rewrite maybe_advance_commit_role.
Qed.

Lemma read_index_refines ctx n : refines net i n (read_index ctx n).2.
Proof.
  unfold read_index. destruct (negb _) eqn:E; [apply refines_refl|].
  apply negb_false_iff, bool_decide_eq_true in E. cbn [snd].
  eapply refines_trans; [|apply refines_frame, advance_reads_frame].
  match goal with |- refines _ _ _ (broadcast_append ?x) =>
    eapply (refines_trans _ x); [by apply refines_frame; repeat split|] end.
  by apply broadcast_append_refines.
Qed.

Lemma transfer_leadership_refines target n : refines net i n (transfer_leadership target n).2.
Proof.
  unfold transfer_leadership. destruct (negb _) eqn:E; [apply refines_refl|].
  apply negb_false_iff, bool_decide_eq_true in E.
  destruct (_ || _); [apply refines_refl|]. cbn [snd].
  set (n1 := n <| n_transfer_target := _ |> <| n_transfer_elapsed := _ |>).
  eapply (refines_trans _ n1); [by apply refines_frame; repeat split|].
  destruct (match progress target n1 with Some _ => _ | None => _ end).
  - apply fire_timeout_now_refines.
  - by apply send_append_refines.
Qed.

Lemma take_committed_refines n : refines net i n (take_committed n).2.
Proof.
  unfold take_committed. destruct (_ <=? _); [apply refines_refl|].
  by apply refines_frame; repeat split.
Qed.

Lemma take_snapshot_refines n : refines net i n (take_snapshot n).2.
Proof. by apply refines_frame; repeat split. Qed.

Lemma take_read_states_refines n : refines net i n (take_read_states n).2.
Proof. by apply refines_frame; repeat split. Qed.

(** A node built on stored state: a follower with the stored term and vote. *)
Lemma RaftNode_new_ok cfg s :
  cfg_id cfg = i → cfg_voters cfg = B → plain_storage s →
  let n := RaftNode_new cfg s in
  node_ok i n ∧ n_messages n = [] ∧
  abs n = mkAnode (hs_current_term (ms_hard s)) (hs_voted_for (ms_hard s)) Follower ∅ (ms_log s) 0 ∅ ∅.
Proof.
  intros Hid HB Hs n'. unfold n', RaftNode_new.
  match goal with |- context [reset_election_timer ?x] => set (n0 := x) end.
  set (n1 := reset_election_timer n0).
  assert (Hconf : conf_at (st_last_index (n_storage n1)) n1 = (voter_list, [])).
  { unfold conf_at. change (n_storage n1) with s. cbn [st_snapshot mem_storage]. rewrite (ps_snap _ Hs).
    change (n_bootstrap_conf n1) with (cfg_voters cfg). rewrite HB.
    rewrite conf_fold_normal; [done|]. intros e He%plain_entries_in.
    apply list_elem_of_lookup in He as [k Hk]. by destruct (ps_log _ Hs _ _ Hk). }
  unfold recompute_conf. rewrite Hconf.
  cbn [n_transfer_target n1 n0 reset_election_timer next_rand set_field].
  split_and!; [|done|done]. split; try done.
  change (ms_hard s = mkHardState (hs_current_term (ms_hard s)) (hs_voted_for (ms_hard s))).
  by destruct (ms_hard s).
Qed.

(** A restart: a new node on the storage left behind. *)
Lemma restart_refines cfg n :
  cfg_id cfg = i → cfg_voters cfg = B → node_ok i n →
  let n' := RaftNode_new cfg (n_storage n) in
  node_ok i n' ∧ n_messages n' = [] ∧ mstep voter_set net i (abs n) (abs n') [].
Proof.
  intros Hid HB Hn. destruct (RaftNode_new_ok cfg (n_storage n) Hid HB (no_storage _ _ Hn)) as (H1 & H2 & H3).
  split_and!; [done|done|]. rewrite H3, (no_hard _ _ Hn). exact (M_restart _ _ _ (abs n)).
Qed.
End Ops.
End Refine.
