(* ===== verification/RaftCluster.v ===== *)
(** A group of Raft nodes under an adversarial driver, and its safety.

    [exec] runs one call of the driver on one node: every operation of [RaftNode],
    delivery of any message ever sent (late, twice, never, in any order), a campaign
    on demand, and a crash and restart at any point.  Messages reach the network when the driver
    takes them, so a crash can lose them. *)

From stdpp Require Import base list numbers gmap.
From Stdlib Require Import Strings.Byte.
From S2P Require Import Prelude RaftMessage RaftStorage RaftNode RaftProto.
From S2P Require Import RaftSafety RaftInvariant RaftRefine.

(** * Execution *)

Inductive event :=
  | Tick (i : N)
  | Deliver (k : nat)
  | Propose (i : N) (data : bytes)
  | ReadIndex (i ctx : N)
  | Transfer (i target : N)
  | TakeMessages (i : N)
  | TakeCommitted (i : N)
  | TakeReads (i : N)
  | TakeSnapshot (i : N)
  | Restart (i : N)
  | ProposeConf (i : N) (cc : ConfChange)
  | Compact (i index : N) (data : bytes)
  | Campaign (i : N).

(** Nodes, messages sent so far, and the entries handed to state machines. *)
Record cluster := mkCluster {
  c_nodes : N → RaftNode MemStorage;
  c_net : list Message;
  c_applied : list (N * Entry);
}.

Section Cluster.
Context (cfgs : N → Config).

Definition on_node (i : N) (f : RaftNode MemStorage → RaftNode MemStorage) (c : cluster) : cluster :=
  mkCluster (upd i (f (c_nodes c i)) (c_nodes c)) (c_net c) (c_applied c).

Definition exec (c : cluster) (e : event) : cluster :=
  match e with
  | Tick i => on_node i tick c
  | Deliver k => match c_net c !! k with Some m => on_node (m_to m) (step m) c | None => c end
  | Propose i data => on_node i (λ n, (propose data n).2) c
  | ReadIndex i ctx => on_node i (λ n, (read_index ctx n).2) c
  | Transfer i target => on_node i (λ n, (transfer_leadership target n).2) c
  | TakeMessages i =>
    let '(ms, n) := take_messages (c_nodes c i) in
    mkCluster (upd i n (c_nodes c)) (c_net c ++ ms) (c_applied c)
  | TakeCommitted i =>
    let '(es, n) := take_committed (c_nodes c i) in
    mkCluster (upd i n (c_nodes c)) (c_net c) (c_applied c ++ map (pair i) es)
  | TakeReads i => on_node i (λ n, (take_read_states n).2) c
  | TakeSnapshot i => on_node i (λ n, (take_snapshot n).2) c
  | Restart i => on_node i (λ n, RaftNode_new (cfgs i) (n_storage n)) c
  | ProposeConf i cc => on_node i (λ n, (propose_conf_change cc n).2) c
  | Compact i index data => (* a panic ends the process *)
    on_node i (λ n, match compact index data n with
                    | Some n' => n'
                    | None => RaftNode_new (cfgs i) (n_storage n)
                    end) c
  | Campaign i => on_node i (step (mkMessage i i 0 TimeoutNow)) c
  end.

Definition cluster_init : cluster :=
  mkCluster (λ i, RaftNode_new (cfgs i) MemStorage_new) [] [].

Definition run (evs : list event) : cluster := fold_left exec evs cluster_init.

(** Neither a membership change nor a compaction. *)
Definition static (e : event) : bool :=
  match e with ProposeConf _ _ | Compact _ _ _ => false | _ => true end.

(** * Simulation *)

Section Static.
Context (B : list N).
Hypothesis Hcfg_id : ∀ i, cfg_id (cfgs i) = i.
Hypothesis Hcfg_voters : ∀ i, cfg_voters (cfgs i) = B.
#[local] Abbreviation V := (voter_set B).
#[local] Abbreviation inv := (RaftSafety.inv V).

(** An applied entry lies below a chosen one. *)
Definition applied_ok (g : ghost) (c : cluster) : Prop :=
  ∀ i e, (i, e) ∈ c_applied c → ∃ t k lg p, chosen V g t k ∧ g_log g !! t = Some lg ∧
    t ≤ n_current_term (c_nodes c i) ∧ (p < k)%nat ∧ lg !! p = Some e ∧ e_index e = N.of_nat p + 1.

(** The indices up to which something was applied. *)
Definition applied_indices (c : cluster) : list nat := map (λ x, N.to_nat (e_index x.2)) (c_applied c).

Record sim (g : ghost) (c : cluster) (net : list Message) : Prop := mkSim {
  sim_ok i : node_ok B i (c_nodes c i);
  sim_inv : inv g (λ i, abs (c_nodes c i), net);
  sim_net m : m ∈ c_net c → m ∈ net;
  sim_out i m : m ∈ n_messages (c_nodes c i) → m ∈ net;
  sim_applied : applied_ok g c;
  sim_known : commits_known V g (applied_indices c) (λ i, abs (c_nodes c i), net);
}.

Lemma inv_ext g nodes nodes' net :
  (∀ i, nodes i = nodes' i) → inv g (nodes, net) → inv g (nodes', net).
Proof.
  intros E [H1 H2 H3 H4 H5]. split; try done.
  - intros i. cbn. rewrite <- E. apply H1.
  - intros m Hm. specialize (H5 m Hm). unfold msg_inv in *. cbn in *. by rewrite <- E.
Qed.

Lemma known_ext g apps nodes nodes' net :
  (∀ i, nodes i = nodes' i) → commits_known V g apps (nodes, net) → commits_known V g apps (nodes', net).
Proof.
  intros E [H1 H2 H3 H4]. split; cbn in *; [done|..].
  - intros l j. rewrite <- !E. apply H2.
  - intros l m prev pt es lc rr. rewrite <- E. apply H3.
  - intros l c. rewrite <- E. apply H4.
Qed.

(** What a node has just applied is below its commit index. *)
Lemma known_apply g apps apps' nodes net i :
  inv g (nodes, net) → commits_known V g apps (nodes, net) →
  (∀ c, c ∈ apps' → (c ≤ a_commit (nodes i))%nat) → commits_known V g (apps ++ apps') (nodes, net).
Proof.
  intros Hi [H1 H2 H3 H4] Hle. split; cbn in *; [|done|done|].
  - intros c [?|Hc]%elem_of_app; [by apply H1|]. specialize (Hle c Hc).
    destruct (committed_chosen _ _ _ _ _ (proj2 (ni_commit _ _ _ _ (inv_at _ _ _ _ i Hi)))) as [?|(t & k & ? & ?)];
      [left; lia|]. right. exists t, k. split; [done|lia].
  - intros l c Hr [?|Hc]%elem_of_app; [by apply H4|].
    eapply commit_src_mono, (H2 l i Hr); [done|done|done|by apply Hle].
Qed.

Lemma mstep_mono net net' i a a' out :
  (∀ m, m ∈ net → m ∈ net') → mstep V net i a a' out → mstep V net' i a a' out.
Proof.
  intros Hsub Hs. destruct Hs;
    [by apply M_term|by apply M_follow|by apply M_elect|by apply M_reqvote|eapply M_vote; eauto
    |by apply M_grant|by apply M_inert|apply M_count; auto|by apply M_lead|by apply M_own
    |eapply M_accept; eauto|eapply M_match; eauto|by apply M_next|eapply M_commit; eauto
    |by apply M_append|by apply M_restart].
Qed.

(** Micro-steps of one node, on the group. *)
Lemma mrun_inv net i a a' out : mrun V net i a a' out →
  ∀ net0 g nodes, (∀ m, m ∈ net → m ∈ net0) → inv g (nodes, net0) → nodes i = a →
  ∃ g', ext g g' ∧ inv g' (upd i a' nodes, net0 ++ out) ∧
    ∀ apps, commits_known V g apps (nodes, net0) → commits_known V g' apps (upd i a' nodes, net0 ++ out).
Proof.
  induction 1 as [a|a b d o1 o2 Hs Hr IH]; intros net0 g nodes Hsub Hi Hn.
  - assert (Hu : ∀ j, nodes j = upd i a nodes j).
    { intros j. unfold upd. destruct (N.eqb_spec j i); congruence. }
    exists g. split; [done|]. rewrite app_nil_r. split; [eapply inv_ext; [exact Hu|done]|]. intros apps. by apply known_ext.
  - assert (Ha : astep V (nodes, net0) (upd i b nodes, net0 ++ o1)).
    { constructor. rewrite Hn. by eapply mstep_mono. }
    destruct (inv_step V g _ _ Hi Ha) as (g1 & E1 & Hi1).
    destruct (IH (net0 ++ o1) g1 (upd i b nodes)) as (g2 & E2 & Hi2 & Hk2);
      [set_solver|done|apply upd_eq|].
    assert (Hu : ∀ j, upd i d (upd i b nodes) j = upd i d nodes j).
    { intros j. unfold upd. by destruct (N.eqb_spec j i). }
    exists g2. split; [by etransitivity|]. rewrite app_assoc. split; [eapply inv_ext; [exact Hu|done]|].
    intros apps Hk. eapply known_ext; [exact Hu|]. apply Hk2. exact (commits_known_step V g g1 apps _ _ Hi Hk Ha E1).
Qed.

Lemma applied_mono g g' c c' :
  ext g g' → c_applied c' = c_applied c →
  (∀ i, n_current_term (c_nodes c i) ≤ n_current_term (c_nodes c' i)) →
  applied_ok g c → applied_ok g' c'.
Proof.
  intros E Ha Ht Hok i e. rewrite Ha. intros (t & k & lg & p & Hc & Hl & Hle & Hp & He & Hi)%Hok.
  destruct (ext_log _ _ E _ _ Hl) as (lg' & Hl' & P). exists t, k, lg', p.
  split_and!; [by eapply chosen_mono|done|specialize (Ht i); lia|done|by eapply prefix_lookup_Some|done].
Qed.

Lemma mrun_term net i a a' out : mrun V net i a a' out → a_term a ≤ a_term a'.
Proof.
  induction 1 as [|a b d o1 o2 Hs Hr IH]; [done|]. etransitivity; [|exact IH].
  destruct Hs; cbn; lia.
Qed.

Lemma nothing_applied (i c : N) (applied : list (N * Entry)) :
  ∃ es, applied = applied ++ map (pair i) es ∧ ∀ e, e ∈ es → e_index e ≤ c.
Proof. exists []. rewrite app_nil_r. split; [done|set_solver]. Qed.

(** One node moves by micro-steps; its outbox and the network only lose messages
    or move them, apart from what the run emits. *)
Lemma sim_node g c net i n' out net' applied' :
  sim g c net → node_ok B i n' → mrun V net i (abs (c_nodes c i)) (abs n') out →
  (∀ m, m ∈ n_messages n' → m ∈ net ++ out) → (∀ m, m ∈ net' → m ∈ net ++ out) →
  let c' := mkCluster (upd i n' (c_nodes c)) net' applied' in
  (∀ g', ext g g' → inv g' (λ j, abs (c_nodes c' j), net ++ out) → applied_ok g' c → applied_ok g' c') →
  (∃ es, applied' = c_applied c ++ map (pair i) es ∧ ∀ e, e ∈ es → e_index e ≤ n_commit_index n') →
  ∃ g' net1, ext g g' ∧ sim g' c' net1.
Proof.
  intros [Ok Hi Hnet Hout Hap Hkn] Hn' Hr Hm Hnet' c' Happ (es & Hes & Hle).
  destruct (mrun_inv _ _ _ _ _ Hr net g _ (λ m H, H) Hi eq_refl) as (g' & E & Hi' & Hk').
  assert (Hu : ∀ j, upd i (abs n') (λ j, abs (c_nodes c j)) j = abs (c_nodes c' j)).
  { intros j. unfold c', upd. cbn. by destruct (j =? i). }
  assert (Hi2 : inv g' (λ j, abs (c_nodes c' j), net ++ out)) by (eapply inv_ext; [exact Hu|done]).
  exists g', (net ++ out). split; [done|]. split; cbn.
  - intros j. unfold upd. destruct (N.eqb_spec j i) as [->|]; [done|apply Ok].
  - done.
  - apply Hnet'.
  - intros j m. unfold upd. destruct (N.eqb_spec j i) as [->|]; [apply Hm|].
    intros ?%Hout. set_solver.
  - apply Happ; [done|done|]. eapply applied_mono; [done|done|done|done].
  - unfold applied_indices, c'. cbn [c_applied]. rewrite Hes, map_app.
    apply known_apply with (i := i); [done|eapply known_ext; [exact Hu|by apply Hk']|].
    intros k (x & -> & (e & -> & He)%list_elem_of_fmap)%list_elem_of_fmap. apply Hle in He. cbn. rewrite upd_eq. cbn. lia.
Qed.

(** An operation that refines micro-steps. *)
Lemma sim_refines g c net i n' :
  sim g c net → refines B net i (c_nodes c i) n' →
  ∃ g' net1, ext g g' ∧ sim g' (on_node i (λ _, n') c) net1.
Proof.
  intros Hs Hr. destruct (Hr (sim_ok _ _ _ Hs i)) as (Hok & out & Hmsg & Hrun).
  eapply sim_node; [done|done|done| | | |apply nothing_applied].
  - rewrite Hmsg. pose proof (sim_out _ _ _ Hs i). set_solver.
  - pose proof (sim_net _ _ _ Hs). set_solver.
  - intros g' E _ Hap. eapply (applied_mono g' g' c); [done|done| |done].
    intros j. cbn. unfold upd. destruct (N.eqb_spec j i) as [->|]; [|done].
    exact (mrun_term _ _ _ _ _ Hrun).
Qed.

Lemma log_ok_plain g l p k : log_ok g l → plain_from p (slice p (p + k) l).
Proof.
  intros O j e. unfold slice. rewrite lookup_take_Some, lookup_drop. intros [He _].
  apply (lo_wf _ _ O) in He as (-> & ? & _). done.
Qed.

(** What the invariant says of a message in the network, for its receiver. *)
Lemma sim_deliverable g c net m :
  sim g c net → m ∈ net → deliverable (c_nodes c (m_to m)) m.
Proof.
  intros Hs Hm. pose proof (sim_inv _ _ _ Hs) as Hi. pose proof (inv_msg _ _ _ Hi m Hm) as Hok.
  unfold msg_inv, deliverable in *. cbn in Hok. destruct (m_body m) as [| |prev pt es lc rr|[] mi rr| | |]; try done.
  - destruct Hok as (lg & l0 & Q & HI & Hl & Hp & Hes & _).
    destruct (inv_term _ _ _ Hi _ _ _ _ HI) as [(lg' & ? & _ & O & _) _ _ _ _]. simplify_eq.
    rewrite Hes. by eapply log_ok_plain.
  - intros Hr Ht. destruct Hok as [->|Hack]; [cbn; lia|].
    pose proof (inv_node _ _ _ Hi (m_to m)) as Nl. pose proof (inv_node _ _ _ Hi (m_from m)) as Nf.
    destruct (ni_lead _ _ _ _ Nl Hr) as (_ & Hl & _). cbn in Hl. rewrite <- Ht in Hl.
    destruct (ni_acks _ _ _ _ Nf _ _ _ Hack (Nat.le_refl _)) as (lg & Hlg & Hle & _).
    rewrite Hl in Hlg. by simplify_eq.
Qed.

Lemma entries_lookup lo hi s e :
  ms_snap s = None → e ∈ st_entries lo hi s →
  ∃ p, ms_log s !! p = Some e ∧ (p < N.to_nat hi)%nat.
Proof.
  intros Hs. cbn. unfold ms_entries, ms_base. rewrite Hs. cbn.
  destruct (_ <? _); [set_solver|]. destruct (_ <=? _)%nat eqn:E; [set_solver|].
  unfold slice. intros He. apply list_elem_of_lookup in He as [k Hk].
  apply lookup_take_Some in Hk as [Hk Hlt]. rewrite lookup_drop in Hk.
  eexists. split; [exact Hk|]. apply Nat.leb_gt in E. lia.
Qed.

Lemma sim_take_committed g c net i :
  sim g c net → ∃ g' net1, ext g g' ∧ sim g' (exec c (TakeCommitted i)) net1.
Proof.
  intros Hs. cbn. pose proof (take_committed_refines B net i (c_nodes c i) (sim_ok _ _ _ Hs i)) as R.
  assert (Hin : ∀ e, e ∈ (take_committed (c_nodes c i)).1 → ∃ p,
    ms_log (n_storage (c_nodes c i)) !! p = Some e ∧ (p < N.to_nat (n_commit_index (c_nodes c i)))%nat).
  { intros e. unfold take_committed. destruct (_ <=? _); [set_solver|]. apply entries_lookup.
    apply (ps_snap _ (no_storage _ _ _ (sim_ok _ _ _ Hs i))). }
  assert (Hcm : n_commit_index (take_committed (c_nodes c i)).2 = n_commit_index (c_nodes c i)).
  { unfold take_committed. by destruct (_ <=? _). }
  destruct (take_committed (c_nodes c i)) as [es n']. cbn in Hin, R, Hcm. destruct R as (Hok & out & Hmsg & Hrun).
  eapply sim_node; [done|done|done| | | |exists es; split; [done|]].
  4: { intros e (p & Hp & Hlt)%Hin. pose proof (inv_node _ _ _ (sim_inv _ _ _ Hs) i) as Ni.
       destruct (lo_wf _ _ (ni_log _ _ _ _ Ni) _ _ Hp) as [-> _]. rewrite Hcm. lia. }
  - rewrite Hmsg. pose proof (sim_out _ _ _ Hs i). set_solver.
  - pose proof (sim_net _ _ _ Hs). set_solver.
  - intros g' E Hi Hap j e. cbn [c_applied c_nodes].
    assert (Ht : n_current_term (c_nodes c j) ≤ n_current_term (upd i n' (c_nodes c) j)).
    { unfold upd. destruct (N.eqb_spec j i) as [->|]; [|done]. exact (mrun_term _ _ _ _ _ Hrun). }
    intros [Hold|Hnew]%elem_of_app.
    { destruct (Hap j e Hold) as (t & k & lg & p & ? & ? & ? & ? & ? & ?).
      exists t, k, lg, p. split_and!; try done. lia. }
    apply list_elem_of_fmap in Hnew as (e' & [= -> ->] & He). destruct (Hin e' He) as (p & Hp & Hlt).
    pose proof (inv_node _ _ _ (sim_inv _ _ _ Hs) i) as Ni. cbn in Ni.
    destruct (ni_commit _ _ _ _ Ni) as [Hlen [H0|(t & k & lg & Hc & Hle & Hck & Hl & Heq)]].
    { cbn in H0. lia. }
    cbn in Hle, Hck, Heq, Hlen. destruct (ext_log _ _ E _ _ Hl) as (lg' & Hl' & P).
    exists t, k, lg', p. split_and!; [by eapply chosen_mono|done|lia|lia| |].
    + eapply prefix_lookup_Some; [|done].
      rewrite <- (lookup_take_lt _ (N.to_nat (n_commit_index (c_nodes c i)))), <- Heq by done.
      by rewrite lookup_take_lt.
    + by destruct (lo_wf _ _ (ni_log _ _ _ _ Ni) _ _ Hp).
Qed.

(** A node replaced by one that kept only durable state. *)
Lemma sim_restart g c net i n' :
  sim g c net → node_ok B i n' → n_messages n' = [] →
  mstep V net i (abs (c_nodes c i)) (abs n') [] →
  ∃ g' net1, ext g g' ∧ sim g' (on_node i (λ _, n') c) net1.
Proof.
  intros Hs Hok Hmsg Hstep. eapply sim_node; [done|done|by apply mrun_one| | | |apply nothing_applied].
  - rewrite Hmsg. set_solver.
  - pose proof (sim_net _ _ _ Hs). set_solver.
  - intros g' _ _ Hap. eapply (applied_mono g' g' c); [done|done| |done].
    intros j. cbn. unfold upd. destruct (N.eqb_spec j i) as [->|]; [|done].
    exact (mrun_term _ _ _ _ _ (mrun_one _ _ _ _ _ _ Hstep)).
Qed.

Lemma sim_exec g c net e :
  sim g c net → static e = true → ∃ g' net1, ext g g' ∧ sim g' (exec c e) net1.
Proof.
  intros Hs Hst. destruct e as [i|k|i data|i ctx|i target|i|i|i|i|i|i cc|i index data|i]; try done; cbn [exec].
  - eapply sim_refines; [done|]. apply tick_refines.
  - destruct (c_net c !! k) as [m|] eqn:Hm; [|exists g, net; by split].
    apply list_elem_of_lookup_2, (sim_net _ _ _ Hs) in Hm.
    eapply sim_refines; [done|]. apply step_refines; [done|done|]. by eapply sim_deliverable.
  - eapply sim_refines; [done|]. apply propose_refines.
  - eapply sim_refines; [done|]. apply read_index_refines.
  - eapply sim_refines; [done|]. apply transfer_leadership_refines.
  - eapply sim_node; [done| |constructor| | | |apply nothing_applied].
    + destruct (sim_ok _ _ _ Hs i). by split.
    + cbn. set_solver.
    + pose proof (sim_net _ _ _ Hs). pose proof (sim_out _ _ _ Hs i). set_solver.
    + intros g' _ _ Hap. eapply (applied_mono g' g' c); [done|done| |done].
      intros j. cbn. unfold upd. by destruct (N.eqb_spec j i) as [->|].
  - by eapply sim_take_committed.
  - eapply sim_refines; [done|]. apply take_read_states_refines.
  - eapply sim_refines; [done|]. apply take_snapshot_refines.
  - destruct (restart_refines B net i (cfgs i) (c_nodes c i)) as (Hok & Hmsg & Hstep);
      [done|done|apply (sim_ok _ _ _ Hs)|].
    by eapply sim_restart.
  - eapply sim_refines; [done|]. unfold step. cbn [m_term]. destruct (N.ltb_spec (n_current_term (c_nodes c i)) 0); [lia|].
    apply handle_timeout_now_refines.
Qed.

Lemma sim_init : sim ghost_init cluster_init [].
Proof.
  assert (Hp : plain_storage MemStorage_new) by (by split).
  assert (Hn : ∀ i, let n := RaftNode_new (cfgs i) MemStorage_new in
    node_ok B i n ∧ n_messages n = [] ∧ abs n = anode_init).
  { intros i. exact (RaftNode_new_ok B i (cfgs i) MemStorage_new (Hcfg_id i) (Hcfg_voters i) Hp). }
  unfold cluster_init. set (n0 i := RaftNode_new (cfgs i) MemStorage_new) in *.
  change (∀ i, node_ok B i (n0 i) ∧ n_messages (n0 i) = [] ∧ abs (n0 i) = anode_init) in Hn.
  clearbody n0. split; cbn.
  - intros i. apply Hn.
  - eapply inv_ext; [|apply inv_init]. intros i. cbn. by destruct (Hn i) as (_ & _ & ->).
  - done.
  - intros i m. destruct (Hn i) as (_ & -> & _). done.
  - intros i e. cbn. set_solver.
  - split; cbn; [set_solver| |set_solver|set_solver]. intros l j _. destruct (Hn j) as (_ & _ & Ha). left.
    change (a_commit (abs (n0 j)) = 0%nat). by rewrite Ha.
Qed.

Lemma sim_run_from g c net evs :
  sim g c net → forallb static evs = true →
  ∃ g' net', ext g g' ∧ sim g' (fold_left exec evs c) net'.
Proof.
  revert g c net. induction evs as [|e evs IH]; intros g c net Hs Hst.
  { exists g, net. by split. }
  cbn in Hst. apply andb_true_iff in Hst as [H1 H2].
  destruct (sim_exec _ _ _ _ Hs H1) as (g1 & net1 & E1 & Hs1).
  destruct (IH _ _ _ Hs1 H2) as (g2 & net2 & E2 & Hs2).
  exists g2, net2. split; [by etransitivity|done].
Qed.

(** Two moments of one execution. *)
Lemma sim_run evs evs' :
  forallb static (evs ++ evs') = true →
  ∃ g g' net net', ext g g' ∧ sim g (run evs) net ∧ sim g' (run (evs ++ evs')) net'.
Proof.
  rewrite forallb_app. intros [H1 H2]%andb_true_iff.
  destruct (sim_run_from _ _ _ evs sim_init H1) as (g & net & _ & Hs).
  destruct (sim_run_from _ _ _ evs' Hs H2) as (g' & net' & E & Hs').
  exists g, g', net, net'. split_and!; [done|done|]. unfold run. by rewrite fold_left_app.
Qed.

(** * Consequences *)

(** A leader's term is recorded as its own. *)
Lemma sim_leader g c net i :
  sim g c net → n_role (c_nodes c i) = Leader →
  ∃ l0 Q, g_lead g !! n_current_term (c_nodes c i) = Some (i, l0, Q) ∧
    g_log g !! n_current_term (c_nodes c i) = Some (ms_log (n_storage (c_nodes c i))).
Proof.
  intros Hs Hr. destruct (ni_lead _ _ _ _ (inv_node _ _ _ (sim_inv _ _ _ Hs) i) Hr) as ((l0 & Q & HI) & Hl & _).
  by exists l0, Q.
Qed.

(** The log of a leader holds every applied entry of terms up to its own. *)
Lemma applied_in_leader_log g c net T j l0 Q lT i e :
  sim g c net → g_lead g !! T = Some (j, l0, Q) → g_log g !! T = Some lT →
  (i, e) ∈ c_applied c → n_current_term (c_nodes c i) ≤ T →
  lT !! (N.to_nat (e_index e) - 1)%nat = Some e.
Proof.
  intros Hs HI HlT Ha Hle.
  destruct (sim_applied _ _ _ Hs i e Ha) as (t & k & lg & p & Hc & Hl & Ht & Hp & He & ->).
  replace (N.to_nat (N.of_nat p + 1) - 1)%nat with p by lia.
  eapply take_prefix_lookup; [|exact Hp|done].
  eapply (leader_has_chosen V g _ T); [apply Hs|done|done|done|done|lia].
Qed.

Lemma applied_agree g c net i j e e' :
  sim g c net → (i, e) ∈ c_applied c → (j, e') ∈ c_applied c → e_index e = e_index e' → e = e'.
Proof.
  intros Hs H1 H2 Heq.
  destruct (sim_applied _ _ _ Hs i e H1) as (t & k & lg & p & Hc & Hl & Ht & Hp & He & Hi).
  destruct (sim_applied _ _ _ Hs j e' H2) as (t' & k' & lg' & p' & Hc' & Hl' & Ht' & Hp' & He' & Hi').
  assert (p' = p) as -> by lia. pose proof (sim_inv _ _ _ Hs) as Hinv.
  destruct (inv_logs _ _ _ Hinv _ _ Hl) as (a & l0 & Q & HI).
  destruct (inv_logs _ _ _ Hinv _ _ Hl') as (a' & l0' & Q' & HI').
  destruct (N.le_ge_cases t t') as [Hle|Hle].
  - pose proof (leader_has_chosen V g _ _ _ _ _ _ _ _ _ Hinv HI' Hl' Hc Hl Hle) as P.
    pose proof (take_prefix_lookup _ _ _ p _ P Hp He). congruence.
  - pose proof (leader_has_chosen V g _ _ _ _ _ _ _ _ _ Hinv HI Hl Hc' Hl' Hle) as P.
    pose proof (take_prefix_lookup _ _ _ p _ P Hp' He'). congruence.
Qed.
End Static.
End Cluster.
