(* ===== verification/RaftReads.v ===== *)
(** Linearizable reads ([read_index], [advance_reads] of [raft/src/node.rs]).

    A leader numbers its reads by rounds, its messages carry the round, and a follower
    echoes it.  First what each operation of a node does to reads, rounds and the messages
    that carry them ([reads_step]); then one read, followed from its registration through an
    execution of the group ([tracked]). *)

From stdpp Require Import base list numbers gmap.
From Stdlib Require Import Strings.Byte.
From S2P Require Import Prelude RaftMessage RaftStorage RaftNode RaftProto.
From S2P Require Import RaftSafety RaftInvariant RaftRefine RaftCluster.

(** * Operations of a node *)

Section Ops.
Context {St : Type} `{Storage St}.
Implicit Types n : RaftNode St.

(** A message queued by [n] that is no answer to [AppendEntries]. *)
Definition fresh_out n (m : Message) : Prop :=
  match m_body m with
  | AppendEntries _ _ _ _ rr => rr ≤ n_read_round n ∧ m_from m = n_id n
  | AppendEntriesResp _ _ _ => False
  | _ => True
  end.

Definition queued n n' : Prop := ∀ m, m ∈ n_messages n' → m ∈ n_messages n ∨ fresh_out n' m.

(** The read just registered. *)
Definition registered (reg : option N) n n' (x : N * N) : Prop :=
  reg = Some x.1 ∧ x.2 = n_read_round n' ∧ n_read_round n' = n_read_round n + 1 ∧ n_role n = Leader.

(** A leader with a commit in its term whose round [R] a majority answered. *)
Definition confirmable n (R : N) : Prop :=
  n_role n = Leader ∧ st_term (n_commit_index n) (n_storage n) = Some (n_current_term n) ∧
  (majority n ≤ read_acks R n)%nat.

(** What an operation does, having received [dl] or registered [reg]. *)
Record reads_step (dl : option Message) (reg : option N) n n' : Prop := mkReadsStep {
  rs_id : n_id n' = n_id n;
  rs_term : n_current_term n ≤ n_current_term n';
  rs_commit : n_role n = Leader → n_role n' = Leader → n_current_term n' = n_current_term n →
    n_commit_index n ≤ n_commit_index n';
  rs_round : n_read_round n ≤ n_read_round n';
  rs_pending x : x ∈ n_pending_reads n' → x ∈ n_pending_reads n ∨ registered reg n n' x;
  rs_lead : n_role n' = Leader → (n_role n = Leader ∧ n_current_term n' = n_current_term n) ∨
    (n_pending_reads n' = [] ∧ n_acked_round n' = ∅);
  rs_acked v r : n_acked_round n' !! v = Some r → n_acked_round n !! v = Some r ∨
    ∃ m ok mi, dl = Some m ∧ m_body m = AppendEntriesResp ok mi r ∧ m_from m = v ∧ m_term m = n_current_term n';
  rs_ready c r : (c, r) ∈ n_ready_reads n' → (c, r) ∈ n_ready_reads n ∨
    ∃ R, ((c, R) ∈ n_pending_reads n ∨ registered reg n n' (c, R)) ∧ n_role n = Leader ∧
      n_current_term n' = n_current_term n ∧ r = n_commit_index n' ∧ confirmable n' R;
  rs_out m : m ∈ n_messages n' → m ∈ n_messages n ∨ fresh_out n' m ∨
    ∃ ok mi rr m0 prev pt es lc, m_body m = AppendEntriesResp ok mi rr ∧ m_from m = n_id n ∧
      m_term m = n_current_term n' ∧ dl = Some m0 ∧ m_body m0 = AppendEntries prev pt es lc rr ∧ m_from m0 = m_to m;
}.

(** The fields reads depend on, the storage apart. *)
Definition rfields n :=
  (n_id n, n_current_term n, n_role n, n_commit_index n, n_read_round n,
   (n_pending_reads n, n_ready_reads n, n_acked_round n)).

Definition quiet n n' : Prop :=
  rfields n' = rfields n ∧ n_storage n' = n_storage n ∧ n_voters n' = n_voters n ∧ queued n n'.

Lemma fresh_out_eq n n' m : n_id n' = n_id n → n_read_round n ≤ n_read_round n' → fresh_out n m → fresh_out n' m.
Proof. unfold fresh_out. intros -> Hr. destruct (m_body m); try done. intros [? ?]. split; [lia|done]. Qed.

Lemma queued_refl n n' : n_messages n' = n_messages n → queued n n'.
Proof. intros E m. rewrite E. by left. Qed.

Lemma queued_trans n1 n2 n3 : n_id n3 = n_id n2 → n_read_round n2 ≤ n_read_round n3 →
  queued n1 n2 → queued n2 n3 → queued n1 n3.
Proof.
  intros Hi Hr H1 H2 m [Hm|?]%H2; [|by right]. destruct (H1 m Hm); [by left|right]. by eapply fresh_out_eq.
Qed.

Lemma quiet_reads_refl n : quiet n n.
Proof. split_and!; [done..|]. by apply queued_refl. Qed.

Lemma quiet_trans n1 n2 n3 : quiet n1 n2 → quiet n2 n3 → quiet n1 n3.
Proof.
  intros (F1 & S1 & V1 & Q1) (F2 & S2 & V2 & Q2). split_and!; [congruence..|].
  eapply queued_trans; [| |exact Q1|exact Q2]; injection F2 as E1 _ _ _ E5 _ _ _; [done|lia].
Qed.

Lemma quiet_send to t b n :
  match b with AppendEntries _ _ _ _ rr => rr = n_read_round n | AppendEntriesResp _ _ _ => False | _ => True end →
  quiet n (send to t b n).
Proof.
  intros Hb. split_and!; [done..|]. intros m Hm. apply elem_of_app in Hm as [?|Hm]; [by left|]. apply list_elem_of_singleton in Hm as ->. right.
  unfold fresh_out. cbn. destruct b; try done. subst. done.
Qed.

Lemma quiet_send_append to n : quiet n (send_append to n).
Proof.
  unfold send_append, send_snapshot. destruct (_ <? _); [|by apply quiet_send].
  destruct (st_snapshot _); [by apply quiet_send|apply quiet_reads_refl].
Qed.

Lemma quiet_fold (f : RaftNode St → N → RaftNode St) ps n :
  (∀ n p, quiet n (f n p)) → quiet n (fold_left f ps n).
Proof.
  intros Hf. revert n. induction ps as [|p ps IH]; intros n; [apply quiet_reads_refl|].
  eapply quiet_trans; [apply Hf|apply IH].
Qed.

Lemma quiet_broadcast n : quiet n (broadcast_append n).
Proof. apply quiet_fold. intros. apply quiet_send_append. Qed.

(** * Operations that confirm nothing *)

Lemma rs_plain dl reg n n' :
  n_id n' = n_id n → n_current_term n ≤ n_current_term n' →
  (n_role n' = Leader → n_commit_index n ≤ n_commit_index n') → n_read_round n' = n_read_round n →
  (n_pending_reads n' = n_pending_reads n ∧ n_ready_reads n' = n_ready_reads n ∧ n_acked_round n' = n_acked_round n ∧
   (n_role n' = Leader → n_role n = Leader ∧ n_current_term n' = n_current_term n)) ∨
  (n_pending_reads n' = [] ∧ n_ready_reads n' = [] ∧
   (n_acked_round n' = ∅ ∨ n_acked_round n' = n_acked_round n ∧ n_role n' ≠ Leader)) →
  (∀ m, m ∈ n_messages n' → m ∈ n_messages n ∨ fresh_out n' m ∨
    ∃ ok mi rr m0 prev pt es lc, m_body m = AppendEntriesResp ok mi rr ∧ m_from m = n_id n ∧
      m_term m = n_current_term n' ∧ dl = Some m0 ∧ m_body m0 = AppendEntries prev pt es lc rr ∧ m_from m0 = m_to m) →
  reads_step dl reg n n'.
Proof.
  intros Hi Ht Hc Hr [(Hp & Hd & Ha & Hl)|(Hp & Hd & Ha)] Ho.
  - split; try done; [auto|lia|rewrite Hp; by left|intros ?; by left; apply Hl|rewrite Ha; by left|rewrite Hd; by left].
  - split; try done; [auto|lia|rewrite Hp; set_solver| | |rewrite Hd; set_solver].
    + intros Hl. right. split; [done|]. by destruct Ha as [?|[_ ?]].
    + intros v r. destruct Ha as [->|[-> _]]; [by rewrite lookup_empty|by left].
Qed.

Lemma rs_frame dl reg n n' : rfields n' = rfields n → queued n n' → reads_step dl reg n n'.
Proof.
  intros [= E1 E2 E3 E4 E5 E6 E7 E8] Q. apply rs_plain; try done; [lia|intros _; lia| |].
  - left. split_and!; [done..|]. rewrite E2, E3. done.
  - intros m [?|?]%Q; [by left|right; by left].
Qed.

Lemma rs_quiet dl reg n n' : quiet n n' → reads_step dl reg n n'.
Proof. intros (? & _ & _ & ?). by apply rs_frame. Qed.

Lemma become_follower_reads t l n :
  let n' := become_follower t l n in
  n_id n' = n_id n ∧ n_current_term n' = N.max t (n_current_term n) ∧ n_commit_index n' = n_commit_index n ∧
  n_read_round n' = n_read_round n ∧ n_pending_reads n' = [] ∧ n_ready_reads n' = [] ∧
  n_acked_round n' = n_acked_round n ∧ n_role n' = Follower ∧ n_messages n' = n_messages n.
Proof.
  unfold become_follower. destruct (N.ltb_spec (n_current_term n) t); cbn; split_and!; try done; lia.
Qed.

(** The reads are dropped, after messages were queued. *)
Lemma rs_step_down dl reg n n1 t l : quiet n n1 → t ≤ n_current_term n → reads_step dl reg n (become_follower t l n1).
Proof.
  intros ([= E1 E2 E3 E4 E5 E6 E7 E8] & _ & _ & Q) Ht.
  destruct (become_follower_reads t l n1) as (F1 & F2 & F3 & F4 & F5 & F6 & F7 & F8 & F9).
  apply rs_plain; [congruence|lia|intros _; rewrite F3; lia|congruence| |].
  - right. split_and!; [done..|]. right. split; congruence.
  - intros m. rewrite F9. intros [?|?]%Q; [by left|]. right. left. apply (fresh_out_eq n1); [done|lia|done].
Qed.

(** After a fall to a later term, whatever the node does next. *)
Lemma rs_after_fall dl n t l n' :
  n_current_term n < t → reads_step dl None (become_follower t l n) n' → reads_step dl None n n'.
Proof.
  intros Ht [Hi Htm Hc Hr Hp Hl Ha Hd Ho].
  destruct (become_follower_reads t l n) as (F1 & F2 & F3 & F4 & F5 & F6 & F7 & F8 & F9).
  rewrite F1, F2, F3, F4 in *. split; [done|lia|intros _ _ ?; lia|done|..].
  - intros x [Hx|[? _]]%Hp; [|done]. rewrite F5 in Hx. set_solver.
  - intros [[? _]|?]%Hl; [congruence|by right].
  - intros v r. rewrite <- F7. apply Ha.
  - intros c r [Hx|(R & _ & Hx & _)]%Hd; [rewrite F6 in Hx; set_solver|congruence].
  - intros m. rewrite <- F9. apply Ho.
Qed.

(** * Elections *)

Lemma become_leader_reads n :
  let n' := become_leader n in
  n_id n' = n_id n ∧ n_current_term n' = n_current_term n ∧ n_commit_index n' = n_commit_index n ∧
  n_read_round n' = n_read_round n ∧ n_pending_reads n' = [] ∧ n_ready_reads n' = [] ∧
  n_acked_round n' = ∅ ∧ queued n n'.
Proof.
  unfold become_leader. cbn zeta. set (n1 := (n <| n_role := Leader |> <| n_leader_id := Some (n_id n) |>) <| n_next_index := ∅ |> <| n_match_index := ∅ |>).
  set (g := λ (n : RaftNode St) (p : N), _).
  assert (Hg : ∀ ps m, let m' := fold_left g ps m in n_id m' = n_id m ∧ n_current_term m' = n_current_term m ∧
    n_commit_index m' = n_commit_index m ∧ n_read_round m' = n_read_round m ∧ n_messages m' = n_messages m).
  { induction ps as [|p ps IH]; intros m; [done|]. cbn [fold_left].
    destruct (IH (g m p)) as (-> & -> & -> & -> & ->). done. }
  match goal with |- context [broadcast_append ?x] => set (n2 := x) end.
  destruct (Hg (n_voters n1 ++ n_learners n1) n1) as (G1 & G2 & G3 & G4 & G5).
  assert (n_id n2 = n_id n ∧ n_current_term n2 = n_current_term n ∧ n_commit_index n2 = n_commit_index n ∧
    n_read_round n2 = n_read_round n ∧ n_messages n2 = n_messages n) as (K1 & K2 & K3 & K4 & K5) by done.
  assert (n_pending_reads n2 = [] ∧ n_ready_reads n2 = [] ∧ n_acked_round n2 = ∅) as (P1 & P2 & P3) by done.
  clearbody n2. destruct (quiet_broadcast n2) as ([= E1 E2 E3 E4 E5 E6 E7 E8] & _ & _ & Q).
  split_and!; try congruence. intros m Hm. destruct (Q m Hm) as [?|?]; [left; congruence|by right].
Qed.

Lemma rs_lead_now dl reg n n1 :
  n_id n1 = n_id n → n_current_term n ≤ n_current_term n1 → n_commit_index n1 = n_commit_index n →
  n_read_round n1 = n_read_round n → n_messages n1 = n_messages n → reads_step dl reg n (become_leader n1).
Proof.
  intros H1 H2 H3 H4 H5. destruct (become_leader_reads n1) as (F1 & F2 & F3 & F4 & F5 & F6 & F7 & F8).
  apply rs_plain; [congruence|lia|intros _; lia|congruence| |].
  - right. split_and!; [done..|by left].
  - intros m [?|?]%F8; [left; congruence|right; by left].
Qed.

Lemma start_election_reads dl reg n : reads_step dl reg n (start_election n).
Proof.
  unfold start_election. cbn zeta.
  match goal with |- context [reset_election_timer ?x] => set (n1 := reset_election_timer x) end.
  destruct (_ <=? _)%nat; [apply rs_lead_now; cbn; done || lia|].
  set (t := n_current_term n1). set (li := st_last_index (n_storage n1)). set (lt := last_log_term n1).
  assert (Hq : quiet n1 (fold_left (λ n p, send p t (RequestVote li lt) n) (peers n1) n1)).
  { apply quiet_fold. intros. by apply quiet_send. }
  destruct Hq as ([= E1 E2 E3 E4 E5 E6 E7 E8] & _ & _ & Q).
  assert (Ht : n_current_term n1 = n_current_term n + 1) by done.
  apply rs_plain; [by rewrite E1|lia|intros _; by rewrite E4|by rewrite E5| |].
  - left. split_and!; [by rewrite E6|by rewrite E7|by rewrite E8|by rewrite E3].
  - intros m [?|?]%Q; [by left|right; by left].
Qed.

(** * Operations that confirm reads *)

(** [n'] has confirmed some of the reads of [n], at its own commit index. *)
Record confirms n n' : Prop := mkConfirms {
  cf_same : (n_id n', n_role n', n_current_term n', n_storage n', n_voters n', n_acked_round n', n_read_round n')
    = (n_id n, n_role n, n_current_term n, n_storage n, n_voters n, n_acked_round n, n_read_round n);
  cf_commit : n_commit_index n ≤ n_commit_index n';
  cf_pending x : x ∈ n_pending_reads n' → x ∈ n_pending_reads n;
  cf_ready c r : (c, r) ∈ n_ready_reads n' → (c, r) ∈ n_ready_reads n ∨
    ∃ R, (c, R) ∈ n_pending_reads n ∧ r = n_commit_index n' ∧ confirmable n' R;
  cf_out : queued n n';
}.

Lemma quiet_confirms n n' : quiet n n' → confirms n n' ∧ n_commit_index n' = n_commit_index n.
Proof.
  intros ([= E1 E2 E3 E4 E5 E6 E7 E8] & S1 & V1 & Q). split; [|done].
  split; [by rewrite E1, E2, E3, E5, E8, S1, V1|lia|by rewrite E6|rewrite E7; by left|done].
Qed.

(** The sender's progress is not part of the reads. *)
Lemma confirms_from n0 n n' : confirms n n' →
  (n_id n0, n_role n0, n_current_term n0, n_storage n0, n_voters n0, n_acked_round n0, n_read_round n0)
    = (n_id n, n_role n, n_current_term n, n_storage n, n_voters n, n_acked_round n, n_read_round n) →
  n_commit_index n0 ≤ n_commit_index n → n_pending_reads n0 = n_pending_reads n → n_ready_reads n0 = n_ready_reads n →
  n_messages n0 = n_messages n → confirms n0 n'.
Proof.
  intros [Hs Hc Hp Hd Ho] E Hle P D M. split; [congruence|lia|rewrite P; apply Hp|rewrite D, P; apply Hd|].
  intros m Hm. rewrite M. by apply Ho.
Qed.

Lemma confirms_trans n1 n2 n3 : confirms n1 n2 → confirms n2 n3 → n_commit_index n3 = n_commit_index n2 →
  confirms n1 n3.
Proof.
  intros [Hs Hc Hp Hd Ho] [Hs' Hc' Hp' Hd' Ho'] E.
  pose proof Hs as [= E1 E2 E3 E4 E5 E6 E7]. pose proof Hs' as [= F1 F2 F3 F4 F5 F6 F7].
  split; [congruence|lia|auto| |eapply queued_trans; [| |done..]; [congruence|lia]].
  intros c r [Hx|(R & HR & -> & Hf)]%Hd'.
  - destruct (Hd c r Hx) as [?|(R & ? & -> & Hr & Ht & Hm)]; [by left|]. right. exists R. split; [done|].
    split; [done|]. unfold confirmable, majority, read_acks in *. by rewrite E, F1, F2, F3, F4, F5, F6.
  - right. exists R. auto.
Qed.

Lemma confirm_reads_spec n ps :
  ∃ done rest, ps = done ++ rest ∧
    confirm_reads n ps = (map (λ '(ctx, _), (ctx, n_commit_index n)) done, rest) ∧
    ∀ ctx round, (ctx, round) ∈ done → (majority n ≤ read_acks round n)%nat.
Proof.
  induction ps as [|[ctx round] ps (done & rest & -> & Heq & Hq)]; cbn [confirm_reads].
  - exists [], []. split_and!; [done..|set_solver].
  - destruct (Nat.ltb_spec (read_acks round n) (majority n)).
    + exists [], ((ctx, round) :: done ++ rest). split_and!; [done..|set_solver].
    + rewrite Heq. exists ((ctx, round) :: done), rest. split_and!; [done..|].
      intros c r [[= -> ->]|?]%elem_of_cons; [done|by eapply Hq].
Qed.

Lemma advance_reads_confirms n :
  confirms n (advance_reads n) ∧ n_commit_index (advance_reads n) = n_commit_index n.
Proof.
  unfold advance_reads. destruct (_ || _) eqn:E; [apply quiet_confirms, quiet_reads_refl|].
  apply orb_false_iff in E as [E Ht%negb_false_iff%bool_decide_eq_true].
  apply orb_false_iff in E as [Hr%negb_false_iff%bool_decide_eq_true _].
  destruct (confirm_reads_spec n (n_pending_reads n)) as (done & rest & Hp & -> & Hq). split; [|done].
  split; cbn; [done|done|rewrite Hp; set_solver| |by apply queued_refl].
  intros c r [?|([c' R] & [= -> ->] & HR)%list_elem_of_fmap]%elem_of_app; [by left|].
  right. exists R. rewrite Hp. split; [set_solver|]. split; [done|]. split; [done|]. split; [done|]. by eapply Hq.
Qed.

Lemma maybe_advance_commit_confirms n : confirms n (maybe_advance_commit n).
Proof.
  unfold maybe_advance_commit. destruct (commit_scan _ n) as [c|] eqn:E; [|apply quiet_confirms, quiet_reads_refl].
  eapply confirms_from; [apply advance_reads_confirms|done| |done..].
  assert (Hlt : ∀ k, commit_scan k n = Some c → n_commit_index n < c).
  { induction k as [|k IH]; [done|]. cbn [commit_scan]. destruct (_ && _); [intros [= <-]; lia|done]. }
  apply Hlt in E. cbn. lia.
Qed.

Lemma confirms_quiet n n1 n' : confirms n n1 → quiet n1 n' → confirms n n'.
Proof. intros Hc [Hc' E]%quiet_confirms. by eapply confirms_trans. Qed.

(** An operation that confirms, after the round, the reads or the acknowledgements changed. *)
Lemma rs_confirms dl reg n n1 n' :
  n_role n = Leader →
  (n_id n1, n_role n1, n_current_term n1, n_commit_index n1, n_ready_reads n1, n_messages n1)
    = (n_id n, n_role n, n_current_term n, n_commit_index n, n_ready_reads n, n_messages n) →
  n_read_round n ≤ n_read_round n1 →
  (∀ x, x ∈ n_pending_reads n1 → x ∈ n_pending_reads n ∨ registered reg n n1 x) →
  (∀ v r, n_acked_round n1 !! v = Some r → n_acked_round n !! v = Some r ∨
    ∃ m ok mi, dl = Some m ∧ m_body m = AppendEntriesResp ok mi r ∧ m_from m = v ∧ m_term m = n_current_term n) →
  confirms n1 n' → reads_step dl reg n n'.
Proof.
  intros Hr [= H1 H2 H3 H4 H5 H6] Hrd Hp Ha [[= E1 E2 E3 E4 E5 E6 E7] Hc Hp' Hd Ho].
  assert (Hreg : ∀ x, registered reg n n1 x → registered reg n n' x).
  { intros x. unfold registered. by rewrite E7. }
  split; [congruence|lia|intros _ _ _; lia|lia| | | | |].
  - intros x [?|?]%Hp'%Hp; [by left|right; auto].
  - intros _. left. split; congruence.
  - intros v r. rewrite E6, E3, H3. apply Ha.
  - intros c r [?|(R & HR & -> & Hf)]%Hd; [left; congruence|]. right. exists R.
    split; [destruct (Hp _ HR); auto|]. split_and!; [done|congruence|done|done].
  - intros m [?|?]%Ho; [left; congruence|right; by left].
Qed.

(** * The handlers *)

Lemma propose_reads dl reg data n : reads_step dl reg n (propose data n).2.
Proof.
  unfold propose. destruct (negb (is_leader n)) eqn:E; [apply rs_quiet, quiet_reads_refl|].
  apply negb_false_iff, bool_decide_eq_true in E.
  destruct (n_transfer_target n); [apply rs_quiet, quiet_reads_refl|]. cbn [snd].
  set (entry := Entry_normal _ _ _). set (index := _ + 1).
  eapply (rs_confirms _ _ _ (append_own entry index n)); [done|done|done|by left|by left|].
  eapply confirms_quiet; [apply maybe_advance_commit_confirms|apply quiet_broadcast].
Qed.

Lemma read_index_reads ctx n : reads_step None (Some ctx) n (read_index ctx n).2.
Proof.
  unfold read_index. destruct (negb (is_leader n)) eqn:E; [apply rs_quiet, quiet_reads_refl|].
  apply negb_false_iff, bool_decide_eq_true in E. cbn [snd]. cbn zeta.
  match goal with |- context [broadcast_append ?x] => set (n1 := x) end.
  eapply (rs_confirms _ _ _ n1); [done|done|cbn; lia| |by left|].
  - intros x Hx. apply elem_of_app in Hx as [?|Hx]; [by left|]. apply list_elem_of_singleton in Hx as ->. by right.
  - destruct (quiet_confirms _ _ (quiet_broadcast n1)) as [? _].
    destruct (advance_reads_confirms (broadcast_append n1)). by eapply confirms_trans.
Qed.

Lemma transfer_reads dl reg target n : reads_step dl reg n (transfer_leadership target n).2.
Proof.
  unfold transfer_leadership. destruct (negb (is_leader n)); [apply rs_quiet, quiet_reads_refl|].
  destruct (_ || _); [apply rs_quiet, quiet_reads_refl|]. cbn [snd]. cbn zeta. apply rs_quiet.
  match goal with |- context [send_append target ?x] => set (n1 := x) end.
  assert (quiet n n1) by (split_and!; [done..|by apply queued_refl]). clearbody n1.
  destruct (match progress target n1 with Some _ => _ | None => _ end).
  - eapply quiet_trans; [done|]. unfold fire_timeout_now.
    eapply quiet_trans; [by apply (quiet_send target (n_current_term n1) TimeoutNow)|].
    split_and!; [done..|by apply queued_refl].
  - eapply quiet_trans; [done|apply quiet_send_append].
Qed.

Lemma tick_reads dl reg n : reads_step dl reg n (tick n).
Proof.
  unfold tick. destruct (n_role n) eqn:Er.
  1, 2: destruct (_ && _); [exact (start_election_reads dl reg _)|apply rs_quiet; split_and!; [done..|by apply queued_refl]].
  set (n0 := match n_transfer_target n with Some _ => _ | None => _ end).
  assert (Q0 : quiet n n0).
  { unfold n0. destruct (n_transfer_target n); [|apply quiet_reads_refl].
    destruct (_ <=? _); (split_and!; [done..|by apply queued_refl]). }
  clearbody n0. match goal with |- context [check_quorum_tick ?x] => set (n1 := x) end.
  assert (Hq : quiet n n1).
  { eapply quiet_trans; [exact Q0|]. unfold n1. destruct (_ <=? _); [|split_and!; [done..|by apply queued_refl]].
    eapply quiet_trans; [|apply quiet_broadcast]. split_and!; [done..|by apply queued_refl]. }
  clearbody n1. unfold check_quorum_tick. cbn zeta.
  match goal with |- context [become_follower _ _ ?x] => set (n3 := x) end.
  destruct (_ <=? _); [destruct (_ && _)|].
  - apply rs_step_down; [eapply quiet_trans; [exact Hq|]; split_and!; [done..|by apply queued_refl]|].
    destruct Hq as ([= _ Ht _ _ _ _ _ _] & _). change (n_current_term n1 ≤ n_current_term n). lia.
  - apply rs_quiet. eapply quiet_trans; [exact Hq|]. split_and!; [done..|by apply queued_refl].
  - apply rs_quiet. eapply quiet_trans; [exact Hq|]. split_and!; [done..|by apply queued_refl].
Qed.

(** A follower recomputes its membership without touching its reads. *)
Lemma recompute_conf_reads n : n_role n = Follower →
  rfields (recompute_conf n) = rfields n ∧ n_messages (recompute_conf n) = n_messages n.
Proof.
  intros Hr. unfold recompute_conf. destruct (conf_at _ n) as [v l]. cbn zeta.
  set (n1 := match n_transfer_target _ with Some _ => _ | None => _ end).
  assert (E : rfields n1 = rfields n ∧ n_messages n1 = n_messages n).
  { unfold n1. destruct (n_transfer_target _); [|done]. by destruct (contains _ _). }
  assert (is_leader n1 = false) as ->; [|done].
  destruct E as [[= _ _ Hr1 _ _ _ _ _] _]. unfold is_leader. rewrite Hr1, Hr. done.
Qed.

(** An answer to the delivered [AppendEntries]. *)
Lemma rs_answer n n1 m ok mi prev pt es lc rr :
  m_body m = AppendEntries prev pt es lc rr →
  n_id n1 = n_id n → n_current_term n1 = n_current_term n →
  n_read_round n1 = n_read_round n → n_pending_reads n1 = n_pending_reads n → n_ready_reads n1 = n_ready_reads n →
  n_acked_round n1 = n_acked_round n → n_role n1 = Follower ∨ n1 = n → n_messages n1 = n_messages n →
  reads_step (Some m) None n (send (m_from m) (n_current_term n1) (AppendEntriesResp ok mi rr) n1).
Proof.
  intros Hb H1 H2 H4 H5 H6 H7 H8 H9. apply rs_plain; try done.
  - cbn. lia.
  - intros Hl. destruct H8 as [H8| ->]; [|done]. cbn in Hl. congruence.
  - left. split_and!; [done..|]. intros Hl. cbn in Hl. destruct H8 as [H8| ->]; [congruence|done].
  - intros x Hx. apply elem_of_app in Hx as [?|Hx]; [left; congruence|]. apply list_elem_of_singleton in Hx as ->.
    right. right. cbn. rewrite H1. by eexists ok, mi, rr, m, prev, pt, es, lc.
Qed.

Lemma handle_append_entries_reads m prev pt es lc rr n :
  m_body m = AppendEntries prev pt es lc rr →
  reads_step (Some m) None n (handle_append_entries (m_from m) (m_term m) prev pt es lc rr n).
Proof.
  intros Hb. unfold handle_append_entries. destruct (m_term m <? n_current_term n); [eapply rs_answer; try done; by right|].
  cbn zeta. set (n1 := reset_election_timer _).
  assert (E1 : rfields n1 = (n_id n, n_current_term n, Follower, n_commit_index n, n_read_round n,
    (n_pending_reads n, n_ready_reads n, n_acked_round n)) ∧ n_messages n1 = n_messages n) by done.
  assert (R : ∀ n2 ok mi, n_id n2 = n_id n → n_current_term n2 = n_current_term n →
    n_read_round n2 = n_read_round n → n_pending_reads n2 = n_pending_reads n → n_ready_reads n2 = n_ready_reads n →
    n_acked_round n2 = n_acked_round n → n_role n2 = Follower → n_messages n2 = n_messages n →
    reads_step (Some m) None n (send (m_from m) (n_current_term n2) (AppendEntriesResp ok mi rr) n2)).
  { intros. eapply rs_answer; try done. by left. }
  clearbody n1. destruct E1 as [[= F1 F2 F3 F4 F5 F6 F7 F8] F9].
  destruct (_ <=? _); [by apply R|]. destruct (_ && _); [by apply R|].
  destruct (splice _ _ _ _ _) as [s a].
  set (n2 := match a with Some _ => _ | None => _ end).
  assert (E2 : rfields n2 = rfields n1 ∧ n_messages n2 = n_messages n1).
  { unfold n2. destruct a as [k|]; [|done].
    match goal with |- context [recompute_conf ?x] => destruct (recompute_conf_reads x) as [G1 G2]; [done|] end.
    by rewrite G1, G2. }
  clearbody n2. destruct E2 as [[= G1 G2 G3 G4 G5 G6 G7 G8] G9].
  destruct (N.ltb_spec (n_commit_index n2) lc); apply R; cbn; congruence.
Qed.

Lemma handle_append_resp_reads m ok mi rr n :
  m_body m = AppendEntriesResp ok mi rr →
  reads_step (Some m) None n (handle_append_resp (m_from m) (m_term m) ok mi rr n).
Proof.
  intros Hb. unfold handle_append_resp. destruct (negb (is_leader n) || _) eqn:E; [apply rs_quiet, quiet_reads_refl|].
  apply orb_false_iff in E as [Hr%negb_false_iff%bool_decide_eq_true Ht%negb_false_iff%N.eqb_eq].
  cbn zeta. match goal with |- context [n_match_index ?x !! m_from m] => set (n1 := x) end.
  eapply (rs_confirms _ _ _ n1); [done|done|done|by left| |].
  - intros v r. change (n_acked_round n1) with (<[m_from m := N.max (default 0 (n_acked_round n !! m_from m)) rr]> (n_acked_round n)).
    destruct (decide (v = m_from m)) as [->|]; [|rewrite lookup_insert_ne by done; by left].
    rewrite lookup_insert_eq. intros [= <-].
    assert (Hnew : ∃ m0 ok0 mi0, Some m = Some m0 ∧ m_body m0 = AppendEntriesResp ok0 mi0 rr ∧ m_from m0 = m_from m ∧
      m_term m0 = n_current_term n) by by exists m, ok, mi.
    destruct (n_acked_round n !! m_from m) as [a|].
    + change (default 0 (Some a)) with a. destruct (N.max_spec a rr) as [[_ ->]|[_ ->]]; [by right|by left].
    + change (default 0 None) with 0. rewrite N.max_0_l. by right.
  - clearbody n1. match goal with |- confirms _ (advance_reads ?x) => set (n2 := x) end.
    assert (confirms n1 n2).
    { unfold n2. destruct ok.
      - set (n3 := maybe_advance_commit _).
        assert (C3 : confirms n1 n3) by (eapply confirms_from; [apply maybe_advance_commit_confirms|done..]).
        destruct (_ && _); [|done]. eapply confirms_quiet; [exact C3|]. unfold fire_timeout_now.
        eapply quiet_trans; [by apply (quiet_send (m_from m) (n_current_term n3) TimeoutNow)|].
        split_and!; [done..|by apply queued_refl].
      - eapply confirms_from; [apply quiet_confirms, quiet_send_append|done..]. }
    destruct (advance_reads_confirms n2). by eapply confirms_trans.
Qed.

(** A follower that queues messages, whatever became of its log and commit index. *)
Lemma rs_follow dl reg n n1 n' :
  (n_id n1, n_current_term n1, n_role n1, n_read_round n1, n_pending_reads n1, n_ready_reads n1, n_acked_round n1, n_messages n1)
    = (n_id n, n_current_term n, Follower, n_read_round n, n_pending_reads n, n_ready_reads n, n_acked_round n, n_messages n) →
  quiet n1 n' → reads_step dl reg n n'.
Proof.
  intros [= F1 F2 F3 F4 F5 F6 F7 F8] ([= E1 E2 E3 E4 E5 E6 E7 E8] & _ & _ & Q).
  apply rs_plain; [congruence|lia|congruence|congruence| |].
  - left. split_and!; congruence.
  - intros m [?|?]%Q; [left; congruence|right; by left].
Qed.

Lemma dispatch_reads m n : reads_step (Some m) None n (dispatch m n).
Proof.
  unfold dispatch. destruct (m_body m) as [lli llt|granted|prev pt es lc rr|ok mi rr|lii lit cs ls data|mi|] eqn:Hb.
  - unfold handle_request_vote. destruct (_ <=? _); [destruct (_ && _)|].
    + apply rs_frame; [done|]. match goal with |- queued n (send ?to ?t ?b ?x) =>
        destruct (quiet_send to t b x) as (_ & _ & _ & Q); [done|] end. exact Q.
    + apply rs_quiet. by apply quiet_send.
    + apply rs_quiet. by apply quiet_send.
  - unfold handle_request_vote_resp. destruct (_ || _); [apply rs_quiet, quiet_reads_refl|].
    destruct (granted && _); [|apply rs_quiet, quiet_reads_refl]. cbn zeta.
    destruct (_ <=? _)%nat; [by apply rs_lead_now|].
    apply rs_quiet. split_and!; [done..|by apply queued_refl].
  - by eapply handle_append_entries_reads.
  - by eapply handle_append_resp_reads.
  - unfold handle_install_snapshot. destruct (_ <? _); [apply rs_quiet; by apply quiet_send|]. cbn zeta.
    destruct (_ <=? _); [by eapply rs_follow; [|by apply quiet_send]|].
    match goal with |- context [recompute_conf ?x] => destruct (recompute_conf_reads x) as [G1 G2]; [done|];
      set (n2 := recompute_conf x) in * end.
    clearbody n2. injection G1 as F1 F2 F3 F4 F5 F6 F7 F8.
    eapply (rs_follow _ _ _ n2); [|by apply quiet_send]. by rewrite F1, F2, F3, F5, F6, F7, F8, G2.
  - unfold handle_install_snapshot_resp. destruct (negb (is_leader n) || _) eqn:E; [apply rs_quiet, quiet_reads_refl|].
    apply orb_false_iff in E as [Hr%negb_false_iff%bool_decide_eq_true _]. cbn zeta.
    match goal with |- context [maybe_advance_commit ?x] => set (n1 := x) end.
    eapply (rs_confirms _ _ _ n1); [done|done|done|by left|by left|apply maybe_advance_commit_confirms].
  - unfold handle_timeout_now. destruct (_ || _); [apply rs_quiet, quiet_reads_refl|apply start_election_reads].
Qed.

Lemma step_reads m n : reads_step (Some m) None n (step m n).
Proof.
  unfold step. destruct (N.ltb_spec (n_current_term n) (m_term m)); [|apply dispatch_reads].
  eapply rs_after_fall; [done|]. apply dispatch_reads.
Qed.

Lemma take_reads_reads dl reg n : reads_step dl reg n (take_read_states n).2.
Proof. split; cbn; try done; [by left|by left|by left|set_solver|by left]. Qed.

Lemma take_committed_reads dl reg n : reads_step dl reg n (take_committed n).2.
Proof. apply rs_quiet. unfold take_committed. destruct (_ <=? _); (split_and!; [done..|by apply queued_refl]). Qed.
End Ops.

(** * The group *)

Section Group.
Context (cfgs : N → Config) (B : list N) (i : N).
Hypothesis Hcfg_id : ∀ i, cfg_id (cfgs i) = i.
Hypothesis Hcfg_voters : ∀ i, cfg_voters (cfgs i) = B.
#[local] Abbreviation V := (voter_set B).
#[local] Abbreviation sim := (RaftCluster.sim B).

(** A message on its way: in the network, or queued by a node. *)
Definition in_flight (c : cluster) (m : Message) : Prop :=
  m ∈ c_net c ∨ ∃ v, m ∈ n_messages (c_nodes c v).

(** Events in which node [i] keeps its round counter. *)
Definition keeps_rounds (e : event) : bool :=
  static e && match e with Restart j => negb (j =? i) | _ => true end.

(** One event, seen from the reads: the node [j] that moves, what it received, which read it
    registered; messages only move from queues into the network. *)
Definition moves (c : cluster) (e : event) (c' : cluster) : Prop :=
  ∃ j dl reg, (∀ v, v ≠ j → c_nodes c' v = c_nodes c v) ∧
    (∀ m, dl = Some m → m ∈ c_net c ∧ m_to m = j) ∧ (∀ ctx, reg = Some ctx → e = ReadIndex j ctx) ∧
    (∀ m, m ∈ c_net c' → in_flight c m) ∧
    (reads_step dl reg (c_nodes c j) (c_nodes c' j) ∨
     j ≠ i ∧ n_current_term (c_nodes c' j) = n_current_term (c_nodes c j) ∧ n_messages (c_nodes c' j) = []).

Lemma moves_on_node c e j f dl reg :
  (∀ m, dl = Some m → m ∈ c_net c ∧ m_to m = j) → (∀ ctx, reg = Some ctx → e = ReadIndex j ctx) →
  reads_step dl reg (c_nodes c j) (f (c_nodes c j)) → moves c e (on_node j f c).
Proof.
  intros Hd Hr Hs. exists j, dl, reg. split_and!; [|done|done|by left|].
  - intros v Hv. cbn. by rewrite upd_ne.
  - left. cbn. by rewrite upd_eq.
Qed.

Lemma exec_moves g c net e : sim g c net → keeps_rounds e = true → moves c e (exec cfgs c e).
Proof.
  intros Hs. unfold keeps_rounds. rewrite andb_true_iff. intros [Hst Hk].
  assert (Hno : ∀ j m, None = Some m → m ∈ c_net c ∧ m_to m = j) by done.
  destruct e as [j|k|j data|j ctx|j target|j|j|j|j|j|j cc|j index data|j]; try done; cbn [exec].
  - eapply (moves_on_node _ _ _ _ None None); [done|done|apply tick_reads].
  - destruct (c_net c !! k) as [m|] eqn:Hm.
    + eapply (moves_on_node _ _ _ _ (Some m) None); [|done|apply step_reads].
      intros ? [= <-]. split; [|done]. by eapply list_elem_of_lookup_2.
    + exists i, None, None. split_and!; [done..|by left|left; apply rs_quiet, quiet_reads_refl].
  - eapply (moves_on_node _ _ _ _ None None); [done|done|apply propose_reads].
  - eapply (moves_on_node _ _ _ _ None (Some ctx)); [done|by intros ? [= <-]|apply read_index_reads].
  - eapply (moves_on_node _ _ _ _ None None); [done|done|apply transfer_reads].
  - cbn. exists j, None, None. split_and!; [|done|done| |].
    + intros v Hv. cbn. by rewrite upd_ne.
    + cbn. intros m Hm. apply elem_of_app in Hm as [?|?]; [by left|right; by exists j].
    + left. cbn. rewrite upd_eq. apply rs_frame; [done|]. intros m. cbn. set_solver.
  - pose proof (take_committed_reads None None (c_nodes c j)) as R.
    destruct (take_committed (c_nodes c j)) as [es n']. exists j, None, None. split_and!; [|done|done|by left|].
    + intros v Hv. cbn. by rewrite upd_ne.
    + left. cbn. by rewrite upd_eq.
  - eapply (moves_on_node _ _ _ _ None None); [done|done|apply take_reads_reads].
  - eapply (moves_on_node _ _ _ _ None None); [done|done|]. apply rs_quiet. split_and!; [done..|by apply queued_refl].
  - apply negb_true_iff, N.eqb_neq in Hk.
    pose proof (sim_ok _ _ _ _ Hs j) as Hn.
    pose proof (RaftNode_new_ok B j (cfgs j) _ (Hcfg_id j) (Hcfg_voters j) (no_storage _ _ _ Hn)) as Hnew.
    unfold on_node. set (n' := RaftNode_new (cfgs j) (n_storage (c_nodes c j))) in *. clearbody n'.
    destruct Hnew as (_ & Hmsg & Ha). apply (f_equal a_term) in Ha. cbn in Ha.
    exists j, None, None. split_and!; [|done|done|by left|].
    + intros v Hv. cbn. by rewrite upd_ne.
    + right. cbn. rewrite upd_eq. split_and!; [done| |done]. by rewrite Ha, (no_hard _ _ _ Hn).
  - eapply (moves_on_node _ _ _ _ None None); [done|done|]. unfold step. cbn [m_term].
    destruct (N.ltb_spec (n_current_term (c_nodes c j)) 0); [lia|].
    unfold dispatch. cbn [m_body m_term]. unfold handle_timeout_now.
    destruct (_ || _); [apply rs_quiet, quiet_reads_refl|apply start_election_reads].
Qed.

(** ** Rounds in use *)

Definition answers_to (dl : option Message) (n : RaftNode MemStorage) (m : Message) : Prop :=
  ∃ ok mi rr m0 prev pt es lc, m_body m = AppendEntriesResp ok mi rr ∧ m_from m = n_id n ∧
    m_term m = n_current_term n ∧ dl = Some m0 ∧ m_body m0 = AppendEntries prev pt es lc rr ∧ m_from m0 = m_to m.

Lemma in_flight_step c e c' m : moves c e c' → in_flight c' m →
  in_flight c m ∨ ∃ j dl, (∀ m0, dl = Some m0 → m0 ∈ c_net c) ∧ n_id (c_nodes c' j) = n_id (c_nodes c j) ∧
    (fresh_out (c_nodes c' j) m ∨ answers_to dl (c_nodes c' j) m).
Proof.
  intros (j & dl & reg & Hother & Hdl & _ & Hnet & Hstep) [Hm|[v Hm]]; [left; auto|].
  destruct (decide (v = j)) as [->|Hv]; [|left; right; exists v; by rewrite <- Hother].
  destruct Hstep as [Hs|(_ & _ & E)]; [|rewrite E in Hm; set_solver].
  destruct (rs_out _ _ _ _ Hs m Hm) as [?|Ho]; [left; right; by exists j|]. right. exists j, dl.
  split; [intros m0 E; by apply Hdl|]. split; [apply Hs|]. destruct Ho as [?|Ho]; [by left|right].
  destruct Ho as (ok & mi & rr & m0 & prev & pt & es & lc & ? & Hf & ?).
  exists ok, mi, rr, m0, prev, pt, es, lc. rewrite (rs_id _ _ _ _ Hs). done.
Qed.

Record rounds_ok (c : cluster) : Prop := mkRoundsOk {
  ro_append m prev pt es lc rr : in_flight c m → m_from m = i → m_body m = AppendEntries prev pt es lc rr →
    rr ≤ n_read_round (c_nodes c i);
  ro_resp m ok mi rr : in_flight c m → m_to m = i → m_body m = AppendEntriesResp ok mi rr →
    rr ≤ n_read_round (c_nodes c i);
  ro_acked v r : n_acked_round (c_nodes c i) !! v = Some r → r ≤ n_read_round (c_nodes c i);
}.

Lemma moves_round c e c' : moves c e c' → n_read_round (c_nodes c i) ≤ n_read_round (c_nodes c' i).
Proof.
  intros (j & dl & reg & Hother & _ & _ & _ & Hstep). destruct (decide (i = j)) as [->|Hi]; [|by rewrite Hother].
  destruct Hstep as [Hs|[? _]]; [apply Hs|done].
Qed.

Lemma rounds_ok_moves c e c' : (∀ j, n_id (c_nodes c j) = j) → moves c e c' → rounds_ok c → rounds_ok c'.
Proof.
  intros Hid Hmv [Ha Hr Hk]. pose proof (moves_round _ _ _ Hmv) as Hrd. split.
  - intros m prev pt es lc rr Hm Hf Hb.
    destruct (in_flight_step _ _ _ _ Hmv Hm) as [Hold|(j & dl & _ & Hj & [Ho|Ho])].
    + specialize (Ha _ _ _ _ _ _ Hold Hf Hb). lia.
    + unfold fresh_out in Ho. rewrite Hb in Ho. destruct Ho as [Hle Hfrom].
      rewrite Hj, Hid, Hf in Hfrom. by subst j.
    + destruct Ho as (? & ? & ? & ? & ? & ? & ? & ? & Hb' & _). congruence.
  - intros m ok mi rr Hm Ht Hb.
    destruct (in_flight_step _ _ _ _ Hmv Hm) as [Hold|(j & dl & Hdl & Hj & [Ho|Ho])].
    + specialize (Hr _ _ _ _ Hold Ht Hb). lia.
    + unfold fresh_out in Ho. by rewrite Hb in Ho.
    + destruct Ho as (ok' & mi' & rr' & m0 & prev & pt & es & lc & Hb' & _ & _ & E & Hb0 & Hf0).
      assert (rr' = rr) as -> by congruence.
      etransitivity; [|exact Hrd]. eapply (Ha m0); [left; by apply Hdl|congruence|done].
  - intros v r. destruct Hmv as (j & dl & reg & Hother & Hdl & _ & _ & Hstep).
    destruct (decide (i = j)) as [->|Hi]; [|rewrite Hother by done; apply Hk].
    destruct Hstep as [Hs|[? _]]; [|done].
    intros [Hold|(m & ok & mi & E & Hb & _ & _)]%(rs_acked _ _ _ _ Hs); [specialize (Hk _ _ Hold); lia|].
    destruct (Hdl m E) as [Hm Ht]. etransitivity; [|exact Hrd]. eapply Hr; [by left|done|done].
Qed.

(** ** One read, registered with round [R] in [c0] *)

Section Read.
Context (c0 : cluster) (g0 : ghost) (net0 : list Message) (ctx R : N).
Hypothesis Hsim0 : sim g0 c0 net0.

Let T : N := n_current_term (c_nodes c0 i).

Definition covers (r : N) : Prop := ∀ k, k ∈ applied_indices c0 → N.of_nat k ≤ r.

(** The voters that answered the round were not past the leader's term when it began. *)
Definition acks_ok (c : cluster) : Prop :=
  ∀ v r, n_acked_round (c_nodes c i) !! v = Some r → R ≤ r → n_current_term (c_nodes c0 v) ≤ T.

(** What a leader of the term [T] may answer: at most the entries chosen when the round began
    were of earlier terms, or of its own and then known to it. *)
Lemma confirm_covers g c net :
  sim g c net → ext g0 g → n_role (c_nodes c0 i) = Leader →
  n_current_term (c_nodes c i) = T → n_commit_index (c_nodes c0 i) ≤ n_commit_index (c_nodes c i) →
  acks_ok c → confirmable (c_nodes c i) R → covers (n_commit_index (c_nodes c i)).
Proof.
  intros Hs E Hr0 HT Hc Hacks (Hr & Ht & Hq) k Hk.
  destruct (ck_applied _ _ _ _ (sim_known _ _ _ _ Hsim0) i k Hr0 Hk) as [->|[(t & j & Hch & Hne & Hj)|Hle]];
    [lia| |cbn in Hle; lia].
  cbn in Hne. fold T in Hne. destruct (N.lt_total t T) as [Hlt|[?|Hgt]]; [|done|exfalso].
  - (* an earlier term: the leader's log holds it below its first own entry *)
    destruct (sim_leader B _ _ _ _ Hs Hr) as (l0 & Q & HI & Hl). rewrite HT in HI, Hl.
    pose proof (chosen_mono _ _ _ _ _ E Hch) as Hch'. pose proof Hch' as (lg & Q' & Hlg & _).
    pose proof (leader_has_chosen _ _ _ _ _ _ _ _ _ _ _ (sim_inv _ _ _ _ Hs) HI Hl Hch' Hlg ltac:(lia)) as Hpre.
    pose proof (sim_ok _ _ _ _ Hs i) as Hok. rewrite (plain_term _ (no_storage _ _ _ Hok)), HT in Ht.
    destruct (N.le_gt_cases (N.of_nat k) (n_commit_index (c_nodes c i))) as [|Hlt']; [done|exfalso].
    destruct (N.to_nat (n_commit_index (c_nodes c i))) as [|p] eqn:Ep.
    { cbn in Ht. injection Ht as Ht. lia. }
    cbn in Ht. apply fmap_Some in Ht as (e & He & Het).
    pose proof (chosen_length _ _ _ _ _ Hch' Hlg) as Hlen.
    assert (Hp : lg !! p = Some e).
    { destruct (lookup_lt_is_Some_2 lg p ltac:(lia)) as [e' He'].
      pose proof (take_prefix_lookup _ _ _ p e' Hpre ltac:(lia) He'). congruence. }
    destruct (inv_logs _ _ _ (sim_inv _ _ _ _ Hs) _ _ Hlg) as (a & l1 & Q1 & HI1).
    destruct (inv_term _ _ _ (sim_inv _ _ _ _ Hs) _ _ _ _ HI1) as [(lg' & Hlg' & _ & _ & Hb) _ _ _ _].
    simplify_eq. specialize (Hb p e Hp). lia.
  - (* a later term: its quorum was past the leader's when the round began *)
    destruct Hch as (lg & Q & _ & _ & _ & HQ & Hv).
    pose proof (sim_ok _ _ _ _ Hs i) as Hok. unfold majority, read_acks in Hq.
    rewrite (no_voters _ _ _ Hok), (no_id _ _ _ Hok) in Hq.
    destruct (quorum_meet V _ _ HQ (count_quorum B _ Hq)) as (v & Hv1 & Hv2).
    rewrite elem_of_list_to_set, list_elem_of_In in Hv2. apply filter_In in Hv2 as [_ Hv2].
    assert (Hle : n_current_term (c_nodes c0 v) ≤ T).
    { apply orb_true_iff in Hv2 as [->%N.eqb_eq|Hv2]; [done|].
      destruct (n_acked_round (c_nodes c i) !! v) as [r|] eqn:Er; [|done].
      apply N.leb_le in Hv2. by eapply Hacks. }
    destruct (Hv v Hv1) as (m & _ & Hack).
    destruct (ni_future _ _ _ _ (inv_node _ _ _ (sim_inv _ _ _ _ Hsim0) v) t) as (_ & _ & Hno & _); [cbn; lia|].
    by eapply Hno.
Qed.

Record tracked (c : cluster) : Prop := mkTracked {
  tk_term v : n_current_term (c_nodes c0 v) ≤ n_current_term (c_nodes c v);
  tk_resp m ok mi rr : in_flight c m → m_to m = i → m_body m = AppendEntriesResp ok mi rr → R ≤ rr →
    n_current_term (c_nodes c0 (m_from m)) ≤ m_term m;
  tk_pending r : (ctx, r) ∈ n_pending_reads (c_nodes c i) → r = R ∧ n_role (c_nodes c0 i) = Leader ∧
    (n_role (c_nodes c i) = Leader → n_current_term (c_nodes c i) = T ∧
      n_commit_index (c_nodes c0 i) ≤ n_commit_index (c_nodes c i));
  tk_acked : n_role (c_nodes c i) = Leader → n_current_term (c_nodes c i) = T → acks_ok c;
  tk_ready r : (ctx, r) ∈ n_ready_reads (c_nodes c i) → covers r;
}.

Lemma tracked_moves g c net e c' g' net' :
  sim g c net → sim g' c' net' → ext g0 g' → moves c e c' → e ≠ ReadIndex i ctx → tracked c → tracked c'.
Proof.
  intros Hs Hs' E Hmv Hne [Ht Hr Hp Ha Hd]. pose proof Hmv as (j & dl & reg & Hother & Hdl & Hreg & Hnet & Hstep).
  assert (Hterm : ∀ v, n_current_term (c_nodes c v) ≤ n_current_term (c_nodes c' v)).
  { intros v. destruct (decide (v = j)) as [->|Hv]; [|by rewrite Hother].
    destruct Hstep as [Hst|(_ & -> & _)]; [apply Hst|done]. }
  assert (Hresp : ∀ m ok mi rr, in_flight c' m → m_to m = i → m_body m = AppendEntriesResp ok mi rr → R ≤ rr →
    n_current_term (c_nodes c0 (m_from m)) ≤ m_term m).
  { intros m ok mi rr Hm Hto Hb Hrr. destruct (in_flight_step _ _ _ _ Hmv Hm) as [Hold|(k & dl' & _ & Hk & [Ho|Ho])].
    - by eapply Hr.
    - unfold fresh_out in Ho. by rewrite Hb in Ho.
    - destruct Ho as (? & ? & ? & ? & ? & ? & ? & ? & _ & -> & -> & _).
      rewrite (no_id _ _ _ (sim_ok _ _ _ _ Hs' k)). specialize (Ht k). specialize (Hterm k). lia. }
  destruct (decide (i = j)) as [<-|Hi].
  2: { split; rewrite ?Hother by done; try done; [|by unfold acks_ok; rewrite Hother].
       intros v. specialize (Ht v). specialize (Hterm v). lia. }
  destruct Hstep as [Hst|[? _]]; [|done].
  assert (Hpend : ∀ r, (ctx, r) ∈ n_pending_reads (c_nodes c' i) ∨ registered reg (c_nodes c i) (c_nodes c' i) (ctx, r) →
    (ctx, r) ∈ n_pending_reads (c_nodes c i)).
  { intros r [[?|[Er _]]%(rs_pending _ _ _ _ Hst)|[Er _]]; [done|..]; by destruct Hne; apply Hreg. }
  assert (Hacks : n_role (c_nodes c' i) = Leader → n_current_term (c_nodes c' i) = T → acks_ok c').
  { intros Hl HT v r Hv Hle. destruct (rs_lead _ _ _ _ Hst Hl) as [[Hl0 HT0]|[_ Hnil]].
    - destruct (rs_acked _ _ _ _ Hst v r Hv) as [Hold|(m & ok & mi & Em & Hb & <- & Hmt)].
      + eapply Ha; [done|congruence|done|done].
      + destruct (Hdl m Em) as [Hm Hto]. rewrite <- HT, <- Hmt. eapply Hr; [by left|done|done|done].
    - rewrite Hnil in Hv. set_solver. }
  split; [intros v; specialize (Ht v); specialize (Hterm v); lia|done| |done|].
  - intros r Hx. destruct (Hp r (Hpend r (or_introl Hx))) as (-> & Hl0 & Hrest). split_and!; [done|done|].
    intros Hl. destruct (rs_lead _ _ _ _ Hst Hl) as [[Hlc HTc]|[Hnil _]]; [|rewrite Hnil in Hx; set_solver].
    destruct (Hrest Hlc) as [HT Hcm]. split; [congruence|]. pose proof (rs_commit _ _ _ _ Hst Hlc Hl HTc). lia.
  - intros r Hx. destruct (rs_ready _ _ _ _ Hst ctx r Hx) as [?|(r0 & HR & Hlc & HTc & -> & Hcf)]; [by apply Hd|].
    assert (Hold : (ctx, r0) ∈ n_pending_reads (c_nodes c i)).
    { destruct HR as [?|?]; [done|]. apply Hpend. by right. }
    destruct (Hp r0 Hold) as (-> & Hl0 & Hrest). destruct (Hrest Hlc) as [HT Hcm].
    pose proof Hcf as (Hl & _). pose proof (rs_commit _ _ _ _ Hst Hlc Hl HTc).
    eapply (confirm_covers g' c' net'); [done|done|done|congruence|lia| |done]. apply Hacks; congruence.
Qed.
End Read.

Lemma read_index_role ctx (n : RaftNode MemStorage) : n_role (read_index ctx n).2 = n_role n.
Proof.
  unfold read_index. destruct (negb _); [done|]. cbn [snd]. cbn zeta.
  match goal with |- context [broadcast_append ?x] => set (n1 := x) end.
  destruct (advance_reads_confirms (broadcast_append n1)) as [[[= _ -> _ _ _ _ _] _ _ _ _] _].
  by destruct (quiet_broadcast n1) as ([= _ _ -> _ _ _ _ _] & _).
Qed.

Lemma tracked_start c g0 net0 ctx :
  let c0 := exec cfgs c (ReadIndex i ctx) in
  sim g0 c0 net0 → rounds_ok c → (∀ r, (ctx, r) ∉ n_pending_reads (c_nodes c i)) →
  (∀ r, (ctx, r) ∉ n_ready_reads (c_nodes c i)) →
  tracked c0 ctx (n_read_round (c_nodes c i) + 1) c0.
Proof.
  intros c0 Hs [_ Hr Hk] Hp Hd. set (R := n_read_round (c_nodes c i) + 1).
  pose proof (read_index_reads ctx (c_nodes c i)) as Hst. pose proof (read_index_role ctx (c_nodes c i)) as Hrole.
  assert (E0 : c_nodes c0 i = (read_index ctx (c_nodes c i)).2) by (cbn; by rewrite upd_eq).
  assert (Hother : ∀ v, v ≠ i → c_nodes c0 v = c_nodes c v) by (intros v Hv; cbn; by rewrite upd_ne).
  rewrite <- E0 in Hst, Hrole. assert (Hnet : c_net c0 = c_net c) by done. clearbody c0.
  assert (Hacks : acks_ok c0 R c0).
  { intros v r Hv Hle. destruct (rs_acked _ _ _ _ Hst v r Hv) as [Hold|(? & ? & ? & ? & _)]; [|done].
    specialize (Hk v r Hold). unfold R in Hle. lia. }
  assert (Hreg : ∀ r, (ctx, r) ∈ n_pending_reads (c_nodes c i) ∨
      registered (Some ctx) (c_nodes c i) (c_nodes c0 i) (ctx, r) → r = R ∧ n_role (c_nodes c0 i) = Leader).
  { intros r [Hx|(_ & Er & E & Hl)]; [by destruct (Hp r)|]. cbn in Er. split; [unfold R; congruence|congruence]. }
  split.
  - done.
  - intros m ok mi rr Hm Hto Hb Hrr.
    assert (Hold : in_flight c m).
    { destruct Hm as [Hm|[v Hm]]; [left; by rewrite <- Hnet|right; exists v].
      destruct (decide (v = i)) as [->|Hv]; [|by rewrite <- Hother].
      destruct (rs_out _ _ _ _ Hst m Hm) as [?|[Ho|(? & ? & ? & ? & ? & ? & ? & ? & _ & _ & _ & ? & _)]];
        [done| |done]. unfold fresh_out in Ho. by rewrite Hb in Ho. }
    specialize (Hr m ok mi rr Hold Hto Hb). unfold R in Hrr. lia.
  - intros r Hx%(rs_pending _ _ _ _ Hst)%Hreg. destruct Hx as [-> Hl]. done.
  - done.
  - intros r Hx. destruct (rs_ready _ _ _ _ Hst ctx r Hx) as [?|(r0 & HR & _ & _ & -> & Hcf)]; [by destruct (Hd r)|].
    destruct (Hreg r0 HR) as [-> Hl]. by eapply (confirm_covers c0 g0 net0 R).
Qed.

(** Reads of node [i] by context: only those it was asked for. *)
Lemma known_reads c e c' ctx : moves c e c' → e ≠ ReadIndex i ctx →
  (∀ r, (ctx, r) ∉ n_pending_reads (c_nodes c i)) ∧ (∀ r, (ctx, r) ∉ n_ready_reads (c_nodes c i)) →
  (∀ r, (ctx, r) ∉ n_pending_reads (c_nodes c' i)) ∧ (∀ r, (ctx, r) ∉ n_ready_reads (c_nodes c' i)).
Proof.
  intros (j & dl & reg & Hother & _ & Hreg & _ & Hstep) Hne [Hp Hd].
  destruct (decide (i = j)) as [<-|Hi]; [|by rewrite Hother]. destruct Hstep as [Hst|[? _]]; [|done].
  split; intros r Hx.
  - destruct (rs_pending _ _ _ _ Hst _ Hx) as [?|[E _]]; [by eapply Hp|]. by destruct Hne; apply Hreg.
  - destruct (rs_ready _ _ _ _ Hst _ _ Hx) as [?|(r0 & [?|[E _]] & _)]; [by eapply Hd|by eapply Hp|].
    by destruct Hne; apply Hreg.
Qed.

(** An invariant of the executions in which node [i] keeps its round counter. *)
Lemma run_reads (P : cluster → Prop) g c net evs :
  sim g c net → forallb keeps_rounds evs = true →
  (∀ g1 c1 net1 e g2 net2, e ∈ evs → sim g1 c1 net1 → moves c1 e (exec cfgs c1 e) → ext g g2 →
    sim g2 (exec cfgs c1 e) net2 → P c1 → P (exec cfgs c1 e)) →
  P c → ∃ g' net', ext g g' ∧ sim g' (fold_left (exec cfgs) evs c) net' ∧ P (fold_left (exec cfgs) evs c).
Proof.
  intros Hs Hk Hstep HP.
  assert (H : ∀ g1 c1 net1, ext g g1 → sim g1 c1 net1 → P c1 →
    ∃ g' net', ext g g' ∧ sim g' (fold_left (exec cfgs) evs c1) net' ∧ P (fold_left (exec cfgs) evs c1));
    [|by eapply H]. clear HP Hs.
  induction evs as [|e evs IH]; intros g1 c1 net1 E Hs HP; [by exists g1, net1|].
  cbn in Hk. apply andb_true_iff in Hk as [He Hk]. cbn [fold_left].
  assert (Hst : static e = true) by by apply andb_true_iff in He as [? _].
  destruct (sim_exec cfgs B Hcfg_id Hcfg_voters _ _ _ _ Hs Hst) as (g2 & net2 & E2 & Hs2).
  assert (E' : ext g g2) by by etransitivity.
  eapply (IH Hk); [|exact E'|exact Hs2|].
  - intros. eapply Hstep; eauto. set_solver.
  - eapply Hstep; eauto; [set_solver|by eapply exec_moves].
Qed.

Lemma new_reads cfg (s : MemStorage) : let n := RaftNode_new cfg s in
  n_pending_reads n = [] ∧ n_ready_reads n = [] ∧ n_acked_round n = ∅.
Proof.
  unfold RaftNode_new. cbn zeta. match goal with |- context [recompute_conf ?x] =>
    destruct (recompute_conf_reads x) as [E _]; [done|]; set (n := recompute_conf x) in *; clearbody n end.
  apply (f_equal snd) in E. cbn in E. by injection E.
Qed.

Lemma read_covers evs evs' ctx :
  forallb keeps_rounds (evs ++ evs') = true → ReadIndex i ctx ∉ evs ++ evs' →
  ∀ r, (ctx, r) ∈ n_ready_reads (c_nodes (run cfgs (evs ++ ReadIndex i ctx :: evs')) i) →
  ∀ j e, (j, e) ∈ c_applied (run cfgs evs) → e_index e ≤ r.
Proof.
  rewrite forallb_app, not_elem_of_app. intros [Hk Hk']%andb_true_iff [Hn Hn'] r Hr j e He.
  destruct (run_reads (λ c, rounds_ok c ∧ (∀ r, (ctx, r) ∉ n_pending_reads (c_nodes c i)) ∧
    (∀ r, (ctx, r) ∉ n_ready_reads (c_nodes c i))) ghost_init (cluster_init cfgs) [] evs)
    as (g & net & _ & Hs & Hro & Hp & Hd).
  - by apply sim_init.
  - done.
  - intros g1 c1 net1 e1 g2 net2 He1 Hs1 Hmv _ _ [Hro Hpd]. split.
    + eapply rounds_ok_moves; [|done|done]. intros v. apply (sim_ok _ _ _ _ Hs1).
    + eapply known_reads; [done| |done]. intros ->. done.
  - assert (Hn0 : ∀ v, n_messages (c_nodes (cluster_init cfgs) v) = []).
    { intros v. pose proof (sim_out _ _ _ _ (sim_init cfgs B Hcfg_id Hcfg_voters) v) as Ho.
      destruct (n_messages _) as [|m l]; [done|]. specialize (Ho m). set_solver. }
    assert (Hf : ∀ m, ¬ in_flight (cluster_init cfgs) m).
    { intros m [?|[v Hm]]; [set_solver|]. rewrite Hn0 in Hm. set_solver. }
    destruct (new_reads (cfgs i) MemStorage_new) as (P1 & P2 & P3). split; [split|].
    + intros m prev pt es lc rr Hm. by destruct (Hf m).
    + intros m ok mi rr Hm. by destruct (Hf m).
    + intros v x. cbn. rewrite P3. set_solver.
    + cbn. rewrite P1, P2. set_solver.
  - change (fold_left (exec cfgs) evs (cluster_init cfgs)) with (run cfgs evs) in *. set (c := run cfgs evs) in *.
    destruct (sim_exec cfgs B Hcfg_id Hcfg_voters _ _ _ (ReadIndex i ctx) Hs eq_refl) as (g0 & net0 & E0 & Hs0).
    pose proof (tracked_start c g0 net0 ctx Hs0 Hro Hp Hd) as Htr. set (c0 := exec cfgs c (ReadIndex i ctx)) in *.
    destruct (run_reads (tracked c0 ctx (n_read_round (c_nodes c i) + 1)) g0 c0 net0 evs' Hs0 Hk') as (g1 & net1 & _ & _ & Ht1);
      [|done|].
    { intros g1 c1 net1 e1 g2 net2 He1 Hs1 Hmv E Hs2. eapply (tracked_moves c0 g0 net0); try done.
      intros ->. done. }
    replace (fold_left (exec cfgs) evs' c0) with (run cfgs (evs ++ ReadIndex i ctx :: evs')) in Ht1
      by (unfold run; by rewrite fold_left_app).
    pose proof (tk_ready _ _ _ _ Ht1 r Hr (N.to_nat (e_index e))) as Hc. rewrite N2Nat.id in Hc. apply Hc.
    apply list_elem_of_fmap. by exists (j, e).
Qed.
End Group.
