(* ===== verification/RaftTheorems.v ===== *)
(** The properties of the Raft group and node, with concrete executions, and executions
    outside their hypotheses. *)

From stdpp Require Import base list numbers gmap.
From Stdlib Require Import Strings.Byte.
From S2P Require Import Prelude RaftMessage RaftStorage RaftNode RaftProto RaftSafety RaftInvariant RaftRefine RaftCluster RaftReads.

(** * A three-node group *)

Definition ex_cfgs (i : N) : Config := Config_new i [1; 2; 3].
Definition ticks (k : nat) (i : N) : list event := replicate k (Tick i).

(** Node 1 is elected in term 1, commits an entry with node 2, and both apply it. *)
Definition ex_run1 : list event :=
  ticks 20 1 ++ [TakeMessages 1; Deliver 0; TakeMessages 2; Deliver 2;
    Propose 1 [x61]; TakeMessages 1; Deliver 5; TakeMessages 2; Deliver 7; TakeCommitted 1;
    Tick 1; TakeMessages 1; Deliver 8; TakeCommitted 2].
(** Node 2 is then elected in term 2 with the vote of node 3. *)
Definition ex_run2 : list event :=
  ticks 20 2 ++ [TakeMessages 2; Deliver 12; TakeMessages 3; Deliver 13; TakeMessages 2].
Definition ex_entry : Entry := mkEntry 1 1 Normal [x61].

Section Group.
Context (cfgs : N → Config) (B : list N).

(** C17. State machine safety: whatever the driver does — delays, reorders, repeats or
    drops messages, crashes and restarts nodes — two nodes never apply different
    entries at one index, as long as membership is static and no log is compacted. *)
Theorem state_machine_safety evs i j e e' :
  (∀ i, cfg_id (cfgs i) = i) → (∀ i, cfg_voters (cfgs i) = B) → forallb static evs = true →
  (i, e) ∈ c_applied (run cfgs evs) → (j, e') ∈ c_applied (run cfgs evs) →
  e_index e = e_index e' → e = e'.
Proof.
  intros Hid HB Hst. destruct (sim_run cfgs B Hid HB evs []) as (g & _ & net & _ & _ & Hs & _).
  { by rewrite app_nil_r. }
  by apply (applied_agree B g _ net).
Qed.

(** C20. Election safety: over a whole execution with static membership and uncompacted logs,
    restarts included, a term has at most one leader. *)
Theorem election_safety evs evs' i j :
  (∀ i, cfg_id (cfgs i) = i) → (∀ i, cfg_voters (cfgs i) = B) →
  forallb static (evs ++ evs') = true →
  let n := c_nodes (run cfgs evs) i in
  let n' := c_nodes (run cfgs (evs ++ evs')) j in
  n_role n = Leader → n_role n' = Leader → n_current_term n = n_current_term n' → i = j.
Proof.
  intros Hid HB Hst n n' Hr Hr' Ht.
  destruct (sim_run cfgs B Hid HB evs evs' Hst) as (g & g' & net & net' & E & Hs & Hs').
  destruct (sim_leader B _ _ _ _ Hs Hr) as (l0 & Q & HI & _).
  destruct (sim_leader B _ _ _ _ Hs' Hr') as (l0' & Q' & HI' & _).
  pose proof (lookup_weaken _ _ _ _ HI (ext_lead _ _ E)) as HI2.
  fold n n' in HI2, HI'. rewrite Ht in HI2. congruence.
Qed.

(** C21. Leader completeness: an entry once applied by a node is in the log of every
    leader of a term not below that node's, now and at any later moment, while membership
    is static and no log is compacted. *)
Theorem leaders_hold_applied_entries evs evs' i j e :
  (∀ i, cfg_id (cfgs i) = i) → (∀ i, cfg_voters (cfgs i) = B) →
  forallb static (evs ++ evs') = true →
  (i, e) ∈ c_applied (run cfgs evs) →
  let n' := c_nodes (run cfgs (evs ++ evs')) j in
  n_role n' = Leader → n_current_term (c_nodes (run cfgs evs) i) ≤ n_current_term n' →
  ms_log (n_storage n') !! (N.to_nat (e_index e) - 1)%nat = Some e.
Proof.
  intros Hid HB Hst Ha n' Hr Ht.
  destruct (sim_run cfgs B Hid HB evs evs' Hst) as (g & g' & net & net' & E & Hs & Hs').
  destruct (sim_leader B _ _ _ _ Hs' Hr) as (l0 & Q & HI & Hl).
  destruct (sim_applied _ _ _ _ Hs i e Ha) as (t & k & lg & p & Hc & Hlg & Hle & Hp & He & ->).
  destruct (ext_log _ _ E _ _ Hlg) as (lg' & Hlg' & P).
  replace (N.to_nat (N.of_nat p + 1) - 1)%nat with p by lia.
  eapply take_prefix_lookup; [|exact Hp|by eapply prefix_lookup_Some].
  eapply (leader_has_chosen (voter_set B) g'); [apply Hs'|done|done|by eapply chosen_mono|done|].
  etransitivity; [exact Hle|exact Ht].
Qed.

(** C22. Linearizable reads: a read that a leader registered and later confirms, at the index
    [r], sees everything that any node had applied when it was registered; through elections
    and with lost, late and repeated messages and restarts of the other nodes, while membership is
    static, no log is compacted, and the reading node does not restart (its round counter is volatile). *)
Theorem confirmed_reads_see_applied evs evs' i ctx r j e :
  (∀ i, cfg_id (cfgs i) = i) → (∀ i, cfg_voters (cfgs i) = B) →
  forallb (keeps_rounds i) (evs ++ evs') = true → ReadIndex i ctx ∉ evs ++ evs' →
  (j, e) ∈ c_applied (run cfgs evs) →
  (ctx, r) ∈ n_ready_reads (c_nodes (run cfgs (evs ++ ReadIndex i ctx :: evs')) i) →
  e_index e ≤ r.
Proof. intros Hid HB Hk Hn He Hr. by eapply (read_covers cfgs B i Hid HB). Qed.

(** Log matching: if two nodes hold entries of one term at one index, their logs
    agree on everything up to it. *)
Lemma logs_match evs i j k e e' :
  (∀ i, cfg_id (cfgs i) = i) → (∀ i, cfg_voters (cfgs i) = B) → forallb static evs = true →
  let l := ms_log (n_storage (c_nodes (run cfgs evs) i)) in
  let l' := ms_log (n_storage (c_nodes (run cfgs evs) j)) in
  l !! k = Some e → l' !! k = Some e' → e_term e = e_term e' → take (S k) l = take (S k) l'.
Proof.
  intros Hid HB Hst l l' He He' Ht.
  destruct (sim_run cfgs B Hid HB evs []) as (g & _ & net & _ & _ & Hs & _).
  { by rewrite app_nil_r. }
  pose proof (sim_inv _ _ _ _ Hs) as Hi.
  by eapply log_matching; [apply (ni_log _ _ _ _ (inv_node _ _ _ Hi i))
    |apply (ni_log _ _ _ _ (inv_node _ _ _ Hi j))|exact He|exact He'|].
Qed.
End Group.

(** * Storage and codecs *)

(** Compaction through an index the log holds keeps the log contiguous, its last index,
    the term at and above that index, and every entry above it. *)
Lemma compaction_keeps_log s index term cs ls data :
  ms_wf s → ms_base s < index → index ≤ ms_last_index s → ms_term index s = Some term →
  let s' := ms_compact index term cs ls data s in
  ms_wf s' ∧ ms_first_index s' = index + 1 ∧ ms_last_index s' = ms_last_index s ∧
  (∀ j, index ≤ j → ms_term j s' = ms_term j s) ∧
  (∀ lo hi, index < lo → ms_entries lo hi s' = ms_entries lo hi s).
Proof.
  intros Hw Hlo Hhi Ht s'. split_and!.
  - by apply compact_wf.
  - unfold s'. by rewrite compact_eq.
  - by apply compact_last.
  - intros j Hj. by apply compact_term.
  - intros lo hi Hl. by apply compact_entries.
Qed.

(** * The node, over any storage *)

Section Node.
Context {St : Type} `{Storage St}.
Implicit Types n : RaftNode St.

(** The commit rule of Figure 2: an index of the current term on a majority. *)
Definition committable n (i : N) : Prop :=
  n_commit_index n < i ∧ i ≤ st_last_index (n_storage n) ∧
  st_term i (n_storage n) = Some (n_current_term n) ∧ (majority n ≤ match_count i n)%nat.

Lemma commit_scan_max k n :
  match commit_scan k n with
  | Some c => n_commit_index n < c ∧ c ≤ n_commit_index n + N.of_nat k ∧
      st_term c (n_storage n) = Some (n_current_term n) ∧ (majority n ≤ match_count c n)%nat ∧
      ∀ i, c < i → i ≤ n_commit_index n + N.of_nat k →
        ¬ (st_term i (n_storage n) = Some (n_current_term n) ∧ (majority n ≤ match_count i n)%nat)
  | None => ∀ i, n_commit_index n < i → i ≤ n_commit_index n + N.of_nat k →
      ¬ (st_term i (n_storage n) = Some (n_current_term n) ∧ (majority n ≤ match_count i n)%nat)
  end.
Proof.
  induction k as [|k IH]; cbn [commit_scan]; [intros i ? ?; lia|].
  destruct (_ && _) eqn:E.
  - apply andb_true_iff in E as [Ht%bool_decide_eq_true Hc%Nat.leb_le].
    split_and!; [lia|lia|done|done|]. intros i ? ?. lia.
  - assert (Hno : ¬ (st_term (n_commit_index n + N.of_nat (S k)) (n_storage n) = Some (n_current_term n)
      ∧ (majority n ≤ match_count (n_commit_index n + N.of_nat (S k)) n)%nat)).
    { intros [Ht Hc]. apply Nat.leb_le in Hc. rewrite Hc, bool_decide_true in E by done. done. }
    destruct (commit_scan k n) as [c|].
    + destruct IH as (? & ? & ? & ? & Hmax). split_and!; [done|lia|done|done|]. intros i ? ?.
      destruct (decide (i = n_commit_index n + N.of_nat (S k))) as [->|]; [done|]. apply Hmax; lia.
    + intros i ? ?. destruct (decide (i = n_commit_index n + N.of_nat (S k))) as [->|]; [done|].
      apply IH; lia.
Qed.

Lemma advance_reads_commit n : n_commit_index (advance_reads n) = n_commit_index n.
Proof. unfold advance_reads. destruct (_ || _); [done|]. by destruct (confirm_reads _ _). Qed.

(** The commit index moves exactly to the highest index of the leader's own term that
    a majority of the voters holds, and stays where it is if there is none. *)
Lemma commit_rule_exact n :
  let c := n_commit_index (maybe_advance_commit n) in
  (committable n c ∧ ∀ i, committable n i → i ≤ c) ∨
  (c = n_commit_index n ∧ ∀ i, ¬ committable n i).
Proof.
  unfold maybe_advance_commit, committable.
  set (k := N.to_nat _). pose proof (commit_scan_max k n) as Hm.
  assert (Hk : ∀ i, n_commit_index n < i →
    i ≤ st_last_index (n_storage n) ↔ i ≤ n_commit_index n + N.of_nat k) by (unfold k; lia).
  destruct (commit_scan k n) as [c|].
  - destruct Hm as (? & ? & ? & ? & Hmax). rewrite advance_reads_commit. cbn. left. split.
    + split_and!; [done|by apply Hk|done|done].
    + intros i (? & Hi & ? & ?). apply Hk in Hi; [|done].
      destruct (N.le_gt_cases i c) as [|Hgt]; [done|]. destruct (Hmax i Hgt Hi). done.
  - right. split; [done|]. intros i (? & Hi & ? & ?). apply Hk in Hi; [|done]. by apply (Hm i).
Qed.

(** ** CheckQuorum *)

Definition hears_nobody n : Prop :=
  n_role n = Leader ∧ n_check_quorum n = true ∧ n_recent_active n = ∅ ∧ NoDup (n_voters n) ∧
  (2 ≤ length (n_voters n))%nat.

Lemma send_append_quiet to n :
  let n' := send_append to n in
  n_role n' = n_role n ∧ n_check_quorum n' = n_check_quorum n ∧
  n_recent_active n' = n_recent_active n ∧ n_voters n' = n_voters n ∧
  n_quorum_elapsed n' = n_quorum_elapsed n ∧ n_election_timeout n' = n_election_timeout n.
Proof.
  unfold send_append. destruct (_ <? _); [|done]. unfold send_snapshot. by destruct (st_snapshot _).
Qed.

Lemma broadcast_append_quiet n :
  let n' := broadcast_append n in
  n_role n' = n_role n ∧ n_check_quorum n' = n_check_quorum n ∧
  n_recent_active n' = n_recent_active n ∧ n_voters n' = n_voters n ∧
  n_quorum_elapsed n' = n_quorum_elapsed n ∧ n_election_timeout n' = n_election_timeout n.
Proof.
  unfold broadcast_append. generalize (replication_peers n) as ps. intros ps. revert n.
  induction ps as [|p ps IH]; intros n; [done|]. cbn [fold_left].
  destruct (IH (send_append p n)) as (-> & -> & -> & -> & -> & ->). apply send_append_quiet.
Qed.

Lemma count_self_le1 (id : N) (l : list N) :
  NoDup l → (count (λ v, (v =? id)%N || bool_decide (v ∈ (∅ : gset N))) l ≤ 1)%nat.
Proof.
  unfold count. induction 1 as [|x l Hx _ IH]; [cbn; lia|]. cbn [List.filter].
  rewrite (bool_decide_false (x ∈ ∅)), orb_false_r by set_solver.
  destruct (N.eqb_spec x id) as [->|]; [|done]. cbn [length].
  assert (List.filter (λ v, (v =? id) || bool_decide (v ∈ (∅ : gset N))) l = []) as ->; [|done].
  clear IH. induction l as [|y l IH]; [done|]. cbn [List.filter].
  rewrite (bool_decide_false (y ∈ ∅)), orb_false_r by set_solver.
  destruct (N.eqb_spec y id) as [->|]; [set_solver|]. apply IH. set_solver.
Qed.

Lemma become_follower_role t l n : n_role (become_follower t l n) = Follower.
Proof. unfold become_follower. by destruct (_ <? _). Qed.

(** One tick of a leader that heard from nobody: it steps down, or waits one tick less. *)
Lemma tick_unheard n :
  hears_nobody n →
  n_role (tick n) = Follower ∨
  (hears_nobody (tick n) ∧ n_quorum_elapsed (tick n) = n_quorum_elapsed n + 1 ∧
   n_election_timeout (tick n) = n_election_timeout n ∧ n_quorum_elapsed n + 1 < n_election_timeout n).
Proof.
  intros (Hr & Hcq & Hra & Hnd & Hlen). unfold tick. rewrite Hr.
  set (n1 := match n_transfer_target n with Some _ => _ | None => _ end).
  assert (Q : n_role n1 = Leader ∧ n_check_quorum n1 = true ∧ n_recent_active n1 = ∅ ∧
    n_voters n1 = n_voters n ∧ n_quorum_elapsed n1 = n_quorum_elapsed n ∧
    n_election_timeout n1 = n_election_timeout n).
  { unfold n1. destruct (n_transfer_target n); [|done]. by destruct (_ <=? _). }
  clearbody n1. match goal with |- context [check_quorum_tick ?x] => set (n2 := x) end.
  assert (Q' : n_role n2 = n_role n1 ∧ n_check_quorum n2 = n_check_quorum n1 ∧
    n_recent_active n2 = n_recent_active n1 ∧ n_voters n2 = n_voters n1 ∧
    n_quorum_elapsed n2 = n_quorum_elapsed n1 ∧ n_election_timeout n2 = n_election_timeout n1).
  { unfold n2. destruct (_ <=? _); [|done].
    match goal with |- context [broadcast_append ?x] => exact (broadcast_append_quiet x) end. }
  destruct Q' as (P1 & P2 & P3 & P4 & P5 & P6). rewrite <- P1, <- P2, <- P3, <- P4, <- P5, <- P6 in Q.
  clear P1 P2 P3 P4 P5 P6.
  clearbody n2. destruct Q as (Q1 & Q2 & Q3 & Q4 & Q5 & Q6). unfold check_quorum_tick.
  cbn -[Nat.ltb count majority N.leb N.add].
  rewrite Q5, Q6. destruct (N.leb_spec (n_election_timeout n) (n_quorum_elapsed n + 1)) as [Hle|Hgt].
  - left. rewrite Q2, Q3. cbn -[Nat.ltb count majority N.leb N.add].
    match goal with |- context [(?x <? ?y)%nat] => assert (x < y)%nat as Hlt end.
    { unfold majority. cbn. rewrite Q4. eapply Nat.le_lt_trans; [by apply count_self_le1|].
      pose proof (Nat.div_le_mono 2 (length (n_voters n)) 2 ltac:(lia) Hlen). cbn in *. lia. }
    apply Nat.ltb_lt in Hlt. rewrite Hlt. unfold become_follower. by destruct (_ <? _)%N.
  - right. cbn. rewrite ?Q5, Q6. split_and!; try done. split_and!; cbn; by rewrite ?Q4.
Qed.

(** C23. A leader of a group of several voters that hears from none of them steps down
    within one election timeout. *)
Theorem unheard_leader_steps_down n :
  hears_nobody n → n_quorum_elapsed n < n_election_timeout n →
  ∃ k, (1 ≤ k ≤ N.to_nat (n_election_timeout n - n_quorum_elapsed n))%nat ∧
    n_role (Nat.iter k tick n) = Follower.
Proof.
  intros Hh Hle. remember (N.to_nat (n_election_timeout n - n_quorum_elapsed n)) as d eqn:Hd.
  revert n Hh Hle Hd. induction d as [|d IH]; intros n Hh Hle Hd; [lia|].
  destruct (tick_unheard n Hh) as [?|(Hh' & E1 & E2 & ?)]; [by exists 1%nat; split; [lia|]|].
  destruct (IH (tick n) Hh') as (k & Hk & Hr); [lia|lia|].
  exists (S k). split; [lia|]. by rewrite Nat.iter_succ_r.
Qed.
End Node.

(** * Witnesses *)

Lemma state_machine_safety_witness :
  c_applied (run ex_cfgs ex_run1) = [(1, ex_entry); (2, ex_entry)] ∧ ex_entry = ex_entry.
Proof.
  split; [vm_compute; reflexivity|].
  apply (state_machine_safety ex_cfgs [1; 2; 3] ex_run1 1 2); [reflexivity|reflexivity|vm_compute; reflexivity
    | | |reflexivity].
  - assert (H : c_applied (run ex_cfgs ex_run1) = [(1, ex_entry); (2, ex_entry)]) by (vm_compute; reflexivity).
    rewrite H. left.
  - assert (H : c_applied (run ex_cfgs ex_run1) = [(1, ex_entry); (2, ex_entry)]) by (vm_compute; reflexivity).
    rewrite H. right. left.
Defined.

(** Two leaders at once, in different terms: whoever else leads in the later term is node 2. *)
Lemma election_safety_witness :
  let c := run ex_cfgs (ex_run1 ++ ex_run2) in
  let c' := run ex_cfgs ((ex_run1 ++ ex_run2) ++ [Tick 2; Restart 3]) in
  n_role (c_nodes c 1) = Leader ∧ n_current_term (c_nodes c 1) = 1 ∧
  n_role (c_nodes c 2) = Leader ∧ n_current_term (c_nodes c 2) = 2 ∧
  n_role (c_nodes c' 2) = Leader ∧
  ∀ j, n_role (c_nodes c' j) = Leader → n_current_term (c_nodes c' j) = 2 → 2 = j.
Proof.
  split; [vm_compute; reflexivity|]. split; [vm_compute; reflexivity|].
  split; [vm_compute; reflexivity|]. split; [vm_compute; reflexivity|].
  split; [vm_compute; reflexivity|]. intros j Hr Ht.
  refine (election_safety ex_cfgs [1; 2; 3] (ex_run1 ++ ex_run2) [Tick 2; Restart 3] 2 j
    (λ _, eq_refl) (λ _, eq_refl) _ _ Hr _); [vm_compute; reflexivity|vm_compute; reflexivity|].
  rewrite Ht. vm_compute. reflexivity.
Defined.

(** Node 1 registers a read, node 2 answers its round, and the read is confirmed. *)
Definition ex_read : list event := [TakeMessages 1; Deliver 10; TakeMessages 2; Deliver 13].

Lemma confirmed_reads_see_applied_witness :
  n_ready_reads (c_nodes (run ex_cfgs (ex_run1 ++ ReadIndex 1 7 :: ex_read)) 1) = [(7, 1)] ∧
  c_applied (run ex_cfgs ex_run1) = [(1, ex_entry); (2, ex_entry)] ∧ e_index ex_entry ≤ 1.
Proof.
  assert (Hr : n_ready_reads (c_nodes (run ex_cfgs (ex_run1 ++ ReadIndex 1 7 :: ex_read)) 1) = [(7, 1)])
    by (vm_compute; reflexivity).
  assert (Ha : c_applied (run ex_cfgs ex_run1) = [(1, ex_entry); (2, ex_entry)]) by (vm_compute; reflexivity).
  split; [exact Hr|]. split; [exact Ha|].
  apply (confirmed_reads_see_applied ex_cfgs [1; 2; 3] ex_run1 ex_read 1 7 1 2 ex_entry);
    [reflexivity|reflexivity|vm_compute; reflexivity| | |].
  - unfold ex_run1, ex_read, ticks. intros Hin. repeat (apply elem_of_cons in Hin as [Hin|Hin]; [discriminate|]).
    by apply elem_of_nil in Hin.
  - rewrite Ha. right. left.
  - rewrite Hr. left.
Defined.

Lemma leaders_hold_applied_entries_witness :
  n_role (c_nodes (run ex_cfgs (ex_run1 ++ ex_run2)) 2) = Leader ∧
  n_current_term (c_nodes (run ex_cfgs (ex_run1 ++ ex_run2)) 2) = 2 ∧
  ms_log (n_storage (c_nodes (run ex_cfgs (ex_run1 ++ ex_run2)) 2)) !! 0%nat = Some ex_entry.
Proof.
  split; [vm_compute; reflexivity|]. split; [vm_compute; reflexivity|].
  apply (leaders_hold_applied_entries ex_cfgs [1; 2; 3] ex_run1 ex_run2 1 2 ex_entry);
    [reflexivity|reflexivity|vm_compute; reflexivity| |vm_compute; reflexivity|].
  - assert (H : c_applied (run ex_cfgs ex_run1) = [(1, ex_entry); (2, ex_entry)]) by (vm_compute; reflexivity).
    rewrite H. left.
  - vm_compute. discriminate.
Defined.

Lemma logs_match_witness :
  ms_log (n_storage (c_nodes (run ex_cfgs ex_run1) 1)) = [ex_entry] ∧
  take 1 (ms_log (n_storage (c_nodes (run ex_cfgs ex_run1) 1))) =
  take 1 (ms_log (n_storage (c_nodes (run ex_cfgs ex_run1) 2))).
Proof.
  split; [vm_compute; reflexivity|].
  apply (logs_match ex_cfgs [1; 2; 3] ex_run1 1 2 0 ex_entry ex_entry);
    [reflexivity|reflexivity|vm_compute; reflexivity..].
Defined.

(** Node 1 as it is when just elected. *)
Definition ex_leader : RaftNode MemStorage := c_nodes (run ex_cfgs (take 24 ex_run1)) 1.

Lemma unheard_leader_steps_down_witness :
  n_role ex_leader = Leader ∧
  ∃ k, (1 ≤ k ≤ N.to_nat (n_election_timeout ex_leader - n_quorum_elapsed ex_leader))%nat ∧
    n_role (Nat.iter k tick ex_leader) = Follower.
Proof.
  split; [vm_compute; reflexivity|].
  apply (unheard_leader_steps_down ex_leader).
  - split; [vm_compute; reflexivity|]. split; [vm_compute; reflexivity|].
    split; [vm_compute; reflexivity|]. split; [|vm_compute; lia].
    assert (H : n_voters ex_leader = [1; 2; 3]) by (vm_compute; reflexivity). rewrite H.
    apply (bool_decide_unpack _). vm_compute. exact I.
  - vm_compute. reflexivity.
Defined.

Definition ex_storage : MemStorage :=
  mkMemStorage HardState_default [ex_entry; mkEntry 1 2 Normal [x62]; mkEntry 2 3 Normal []] None.

Lemma compaction_keeps_log_witness :
  ms_last_index ex_storage = 3 ∧
  ms_entries 3 9 (ms_compact 2 1 [1; 2] [] [x53] ex_storage) = [mkEntry 2 3 Normal []] ∧
  ms_last_index (ms_compact 2 1 [1; 2] [] [x53] ex_storage) = ms_last_index ex_storage.
Proof.
  split; [vm_compute; reflexivity|]. split; [vm_compute; reflexivity|].
  apply (compaction_keeps_log ex_storage 2 1 [1; 2] [] [x53]);
    [|vm_compute; reflexivity|vm_compute; discriminate|vm_compute; reflexivity].
  intros [|[|[|k]]] e; cbn; intros [= <-]; reflexivity.
Defined.

(** * Findings

    Executions in which the group misbehaves once it leaves the static setting:
    what [state_machine_safety] excludes by its hypothesis is reachable. *)

(** What was applied: node, index, term. *)
Definition applied (c : cluster) : list (N * N * N) :=
  map (λ '(i, e), (i, e_index e, e_term e)) (c_applied c).

(** ** A membership change proposed before the leader committed in its own term

    Node 1 (term 1) appends [AddNode 5] and reaches only node 5.  Node 2 (term 2,
    elected by 2, 3, 4) appends [RemoveNode 1] and commits it with node 3, a
    majority of the shrunk group.  Node 1 returns in term 3 on the votes of 1, 4, 5,
    a majority of the grown group disjoint from it, and commits its own entry. *)
Definition two_changes : list event :=
  ticks 20 1 ++ [TakeMessages 1; Deliver 0; Deliver 1; TakeMessages 2; TakeMessages 3;
    Deliver 3; Deliver 4; ProposeConf 1 (AddNode 5); TakeMessages 1; Deliver 11] ++
  ticks 14 2 ++ [TakeMessages 2; Deliver 13; Deliver 14; TakeMessages 3; TakeMessages 4;
    Deliver 15; Deliver 16; ProposeConf 2 (RemoveNode 1); TakeMessages 2;
    Deliver 20; TakeMessages 3; Deliver 22; TakeCommitted 2] ++
  [Restart 1] ++ ticks 19 1 ++ [Restart 1] ++ ticks 19 1 ++
  [TakeMessages 1; Deliver 25; Deliver 26; TakeMessages 4; TakeMessages 5; Deliver 27; Deliver 29;
    Propose 1 [x61]; TakeMessages 1; Deliver 36; TakeMessages 4; Deliver 38; TakeMessages 1;
    Deliver 39; TakeMessages 4; Deliver 40; Deliver 37; TakeMessages 5; Deliver 41; TakeCommitted 1].

Lemma conf_changes_diverge :
  applied (run (λ i, Config_new i [1; 2; 3; 4]) two_changes) = [(2, 1, 2); (1, 1, 1); (1, 2, 3)].
Proof. vm_compute. reflexivity. Qed.

(** ** A round counter that starts over

    Node 1 registers a read in term 1 (round 1), restarts, and is elected again in term 2.  The
    message of round 1 reaches node 2 late: it is refused, but the refusal carries node 2's term and
    the old round, and node 1 counts it.  Once cut off (node 2 leads in term 3 and has
    committed and applied entry 2), node 1 confirms its next read, again of round 1, at once, at
    index 1. *)
Definition stale_round : list event :=
  ticks 20 1 ++ [TakeMessages 1; Deliver 0; TakeMessages 2; Deliver 2; ReadIndex 1 5; TakeMessages 1;
    Restart 1] ++ ticks 19 1 ++ [TakeMessages 1; Deliver 7; TakeMessages 2; Deliver 9; Deliver 5;
    TakeMessages 2; Deliver 10; Propose 1 [x61]; TakeMessages 1; Deliver 14; TakeMessages 2; Deliver 16;
    TakeCommitted 1] ++ ticks 20 2 ++ [TakeMessages 2; Deliver 18; TakeMessages 3; Deliver 19;
    Propose 2 [x62]; TakeMessages 2; Deliver 23; TakeMessages 3; Deliver 24; TakeMessages 2; Deliver 25;
    TakeMessages 3; Deliver 26; TakeCommitted 2].

Lemma stale_round_confirms_read :
  applied (run ex_cfgs stale_round) = [(1, 1, 2); (2, 1, 2); (2, 2, 3)] ∧
  n_ready_reads (c_nodes (run ex_cfgs (stale_round ++ [ReadIndex 1 7])) 1) = [(7, 1)].
Proof. split; vm_compute; reflexivity. Qed.

(** ** A late snapshot after a restart

    Node 3 installs a snapshot at index 1, then acknowledges entry 2, which commits.
    It restarts (its commit index is volatile) and receives a second copy of the
    snapshot: installing it drops entry 2, and nodes 2 and 3 elect a leader without
    it. *)
Definition late_snapshot : list event :=
  ticks 20 1 ++ [TakeMessages 1; Deliver 0; TakeMessages 2; Deliver 2; Propose 1 [x61];
    TakeMessages 1; Deliver 5; TakeMessages 2; Deliver 7; TakeCommitted 1; Compact 1 1 [x53];
    Tick 1; TakeMessages 1; Deliver 9; TakeMessages 3; Deliver 10; Propose 1 [x62];
    TakeMessages 1; Deliver 12; TakeMessages 3; Deliver 13; TakeCommitted 1; Restart 3; Deliver 9] ++
  ticks 19 2 ++ [TakeMessages 2; Deliver 15; TakeMessages 3; Deliver 17; Propose 2 [x63];
    TakeMessages 2; Deliver 21; TakeMessages 3; Deliver 22; TakeCommitted 2].

Lemma late_snapshot_diverges :
  applied (run ex_cfgs late_snapshot) = [(1, 1, 1); (1, 2, 1); (2, 1, 1); (2, 2, 2)].
Proof. vm_compute. reflexivity. Qed.
