(* ===== verification/RaftWal.v ===== *)
(** Raft's durable storage ([raft-wal/src/lib.rs]): hard state and snapshot in
    atomically replaced files, the log in a WAL segment, and an in-memory mirror.

    A file is its bytes and how many of them are on stable storage; a name of the
    directory keeps the files it named before, because the directory is never synced.
    The [expect]s end the process, so a failed write is a crash in the middle of an
    operation ([crash_disk]). *)

From stdpp Require Import base list numbers.
From Stdlib Require Import Strings.Byte.
From S2P Require Import Prelude Crc Encoding Wal RaftMessage RaftStorage.

(** * Codecs *)

Definition entry_type_byte (t : EntryType) : byte :=
  match t with Normal => x00 | ConfChangeEntry => x01 end.

Definition encode_entry (e : Entry) : bytes :=
  let p := u64_be (e_term e) in
  let p := p ++ [entry_type_byte (e_type e)] in
  p ++ e_data e.

Definition decode_entry (index : N) (payload : bytes) : option Entry :=
  if (length payload <? 9)%nat then None else
  let term := be_N (slice 0 8 payload) in
  let entry_type := match payload !! 8%nat with Some x01 => ConfChangeEntry | _ => Normal end in
  Some (mkEntry term index entry_type (drop 9 payload)).

(** A fixed 17-byte buffer, zero where nothing is copied. *)
Definition encode_hard_state (hs : HardState) : bytes :=
  u64_be (hs_current_term hs) ++
  match hs_voted_for hs with
  | Some v => x01 :: u64_be v
  | None => x00 :: u64_be 0
  end.

Definition decode_hard_state (b : bytes) : HardState :=
  if (length b <? 17)%nat then HardState_default else
  let current_term := be_N (slice 0 8 b) in
  let voted_for := match b !! 8%nat with Some x01 => Some (be_N (slice 9 17 b)) | _ => None end in
  mkHardState current_term voted_for.

Definition encode_snapshot (s : Snapshot) : bytes :=
  let b := u64_be (sn_last_included_index s) in
  let b := b ++ u64_be (sn_last_included_term s) in
  let b := b ++ u32_be (as_u32 (N.of_nat (length (sn_conf_state s)))) in
  let b := push_u64s b (sn_conf_state s) in
  let b := b ++ u32_be (as_u32 (N.of_nat (length (sn_learners s)))) in
  let b := push_u64s b (sn_learners s) in
  b ++ sn_data s.

(** The closure [read_ids]: a counted list of ids and the position after it. *)
Definition read_ids (b : bytes) (p : nat) : option (list N * nat) :=
  if (length b <? p + 4)%nat then None else
  read_u64s b (p + 4) (N.to_nat (be_N (slice p (p + 4) b))).

Definition decode_snapshot (b : bytes) : option Snapshot :=
  if (length b <? 24)%nat then None else
  let last_included_index := be_N (slice 0 8 b) in
  let last_included_term := be_N (slice 8 16 b) in
  '(conf_state, p) ← read_ids b 16;
  '(learners, p) ← read_ids b p;
  Some (mkSnapshot last_included_index last_included_term conf_state learners (drop p b)).

(** * The store *)

(** A file, of which the first [fl_synced] bytes have reached stable storage. *)
Record File := mkFile { fl_data : bytes; fl_synced : nat }.

(** A name of the directory: the file it names ([None] when there is none), and what it
    named before, the latest first, as the disk may still have it. *)
Record Slot := mkSlot { sl_file : option File; sl_past : list (option File) }.

Definition slot_none : Slot := mkSlot None [].
(** [rename] over the name. *)
Definition slot_put (f : File) (sl : Slot) : Slot := mkSlot (Some f) (sl_file sl :: sl_past sl).

(** [File::create], [write_all] and [sync_all] on the temporary file. *)
Definition file_create : File := mkFile [] 0.
Definition file_write (b : bytes) (f : File) : File := mkFile (fl_data f ++ b) (fl_synced f).
Definition file_sync (f : File) : File := mkFile (fl_data f) (length (fl_data f)).

(** [atomic_write]. *)
Definition write_file (b : bytes) (sl : Slot) : Slot :=
  slot_put (file_sync (file_write b file_create)) sl.

Definition slot_bytes (sl : Slot) : option bytes := fl_data <$> sl_file sl.

(** What a directory holds. *)
Record RaftDisk := mkRaftDisk {
  rd_log : Slot;
  rd_hard : Slot;
  rd_snap : Slot;
}.

Definition empty_dir : RaftDisk := mkRaftDisk slot_none slot_none slot_none.

Section Store.
Context `{Crc32c}.

(** The mirror, the append handle on the log with the log's earlier files, and the two
    other names. *)
Record WalStorage := mkWalStorage {
  ws_hard : HardState;
  ws_log : list Entry;
  ws_snap : option Snapshot;
  ws_writer : WalWriter;
  ws_log_past : list (option File);
  ws_hard_file : Slot;
  ws_snap_file : Slot;
}.

#[export] Instance eta_walstorage : Eta WalStorage := λ s,
  mkWalStorage (ws_hard s) (ws_log s) (ws_snap s) (ws_writer s) (ws_log_past s) (ws_hard_file s) (ws_snap_file s).

(** The replay loop of [open]; a record takes at least sixteen bytes, so the
    length of the file is fuel enough ([open_loop_frames]). *)
Fixpoint open_loop (fuel : nat) (base : N) (reader : WalReader) : list Entry * WalReader :=
  match fuel with
  | O => ([], reader)
  | S fuel' =>
    match next_record reader with
    | None => ([], reader)
    | Some ((seq, payload), reader) =>
      match decode_entry seq payload with
      | Some e =>
        let '(log, r) := open_loop fuel' base reader in
        (if base <? e_index e then e :: log else log, r)
      | None => ([], reader)
      end
    end
  end.

(** The log is cut after its last whole record and synced; a missing log is created. *)
Definition wal_open (d : RaftDisk) : WalStorage :=
  let snap := slot_bytes (rd_snap d) ≫= decode_snapshot in
  let base := match snap with Some s => sn_last_included_index s | None => 0 end in
  let '(log, file, past) :=
    match slot_bytes (rd_log d) with
    | Some data =>
      let '(log, reader) := open_loop (length data) base (WalReader_open data) in
      (log, take (valid_len reader) data, sl_past (rd_log d))
    | None => ([], [], None :: sl_past (rd_log d))
    end in
  let hard := match slot_bytes (rd_hard d) with Some b => decode_hard_state b | None => HardState_default end in
  mkWalStorage hard log snap (WalWriter_open_append file) past (rd_hard d) (rd_snap d).

Definition ws_base (s : WalStorage) : N :=
  match ws_snap s with Some sn => sn_last_included_index sn | None => 0 end.

Definition append_all (w : WalWriter) (es : list Entry) : WalWriter :=
  fold_left (λ w e, (wal_append w (e_index e) (encode_entry e) None).1) es w.

(** An append whose writes and sync succeed. *)
Definition append_frames (w : WalWriter) (es : list Entry) : WalWriter :=
  (wal_sync (append_all w es) Fsync false).1.

Definition log_slot (s : WalStorage) : Slot :=
  mkSlot (Some (mkFile (wf_data (ws_writer s)) (wf_synced (ws_writer s)))) (ws_log_past s).

(** The segment is rebuilt in a temporary file and renamed over the log; the handle is
    opened again on that file, as much of it on stable storage as was before. *)
Definition rewrite_log (s : WalStorage) : WalStorage :=
  let w := append_frames WalWriter_create (ws_log s) in
  s <| ws_writer := mkWalWriter (wf_data w) (wf_synced w) (length (wf_data w)) |>
    <| ws_log_past := sl_file (log_slot s) :: ws_log_past s |>.

Definition ws_save_hard_state (hs : HardState) (s : WalStorage) : WalStorage :=
  s <| ws_hard := hs |> <| ws_hard_file := write_file (encode_hard_state hs) (ws_hard_file s) |>.

Definition ws_last_index (s : WalStorage) : N :=
  match list.last (ws_log s) with Some e => e_index e | None => ws_base s end.

Definition ws_term (index : N) (s : WalStorage) : option N :=
  if index =? 0 then Some 0 else
  let base := ws_base s in
  if index =? base then sn_last_included_term <$> ws_snap s else
  if index <? base then None else
  e_term <$> (ws_log s !! N.to_nat (index - base - 1)).

Definition ws_entries (low high : N) (s : WalStorage) : list Entry :=
  let base := ws_base s in
  let low := N.max low (base + 1) in
  if high <? low then [] else
  let lo := N.to_nat (low - base - 1) in
  let hi := Nat.min (N.to_nat (high - base)) (length (ws_log s)) in
  if (hi <=? lo)%nat then [] else slice lo hi (ws_log s).

Definition ws_append (entries : list Entry) (s : WalStorage) : WalStorage :=
  s <| ws_writer := append_frames (ws_writer s) entries |>
    <| ws_log := ws_log s ++ entries |>.

Definition ws_truncate_suffix (from : N) (s : WalStorage) : WalStorage :=
  let base := ws_base s in
  let keep := if from <=? base + 1 then 0%nat
              else Nat.min (N.to_nat (from - base - 1)) (length (ws_log s)) in
  if (length (ws_log s) <=? keep)%nat then s else
  rewrite_log (s <| ws_log := take keep (ws_log s) |>).

Definition ws_first_index (s : WalStorage) : N := ws_base s + 1.

Definition write_snapshot (sn : Snapshot) (s : WalStorage) : WalStorage :=
  s <| ws_snap := Some sn |> <| ws_snap_file := write_file (encode_snapshot sn) (ws_snap_file s) |>.

Definition ws_compact (index term : N) (conf_state learners : list N) (data : bytes)
    (s : WalStorage) : WalStorage :=
  if index <=? ws_base s then s else
  let base := ws_base s in
  let n := Nat.min (N.to_nat (index - base)) (length (ws_log s)) in
  let s := s <| ws_log := drop n (ws_log s) |> in
  rewrite_log (write_snapshot (mkSnapshot index term conf_state learners data) s).

Definition ws_apply_snapshot (sn : Snapshot) (s : WalStorage) : WalStorage :=
  rewrite_log (write_snapshot sn (s <| ws_log := [] |>)).

#[export] Instance wal_storage : Storage WalStorage := {|
  st_hard_state := ws_hard;
  st_save_hard_state := ws_save_hard_state;
  st_last_index := ws_last_index;
  st_term := ws_term;
  st_entries := ws_entries;
  st_append := ws_append;
  st_truncate_suffix := ws_truncate_suffix;
  st_snapshot := ws_snap;
  st_first_index := ws_first_index;
  st_compact := ws_compact;
  st_apply_snapshot := ws_apply_snapshot;
|}.

(** * Refinement of the in-memory store *)

Definition ws_mem (s : WalStorage) : MemStorage := mkMemStorage (ws_hard s) (ws_log s) (ws_snap s).

Lemma ws_mem_truncate i s : ws_mem (ws_truncate_suffix i s) = ms_truncate_suffix i (ws_mem s).
Proof.
  unfold ws_truncate_suffix, ms_truncate_suffix. change (ms_base (ws_mem s)) with (ws_base s).
  destruct (i <=? _).
  - destruct (Nat.leb_spec (length (ws_log s)) 0) as [Hl|]; [|done].
    unfold ws_mem. cbn. by destruct (ws_log s); [|cbn in Hl; lia].
  - set (k := N.to_nat _). destruct (Nat.leb_spec (length (ws_log s)) (k `min` length (ws_log s))) as [Hl|Hl].
    + unfold ws_mem. cbn. by rewrite take_ge by lia.
    + unfold ws_mem. cbn. f_equal. by replace (k `min` length (ws_log s))%nat with k by lia.
Qed.

Lemma ws_mem_compact i t cs ls d s :
  ws_mem (ws_compact i t cs ls d s) = ms_compact i t cs ls d (ws_mem s).
Proof.
  unfold ws_compact, ms_compact. change (ms_base (ws_mem s)) with (ws_base s). by destruct (i <=? _).
Qed.

Lemma ws_mem_append es s : ws_mem (ws_append es s) = ms_append es (ws_mem s).
Proof. by rewrite ms_append_eq. Qed.

(** * Codec round trips *)

Definition entry_wf (e : Entry) : Prop :=
  is_u64 (e_index e) ∧ is_u64 (e_term e) ∧ is_u32 (N.of_nat (17 + length (e_data e))).

Definition hard_wf (hs : HardState) : Prop :=
  is_u64 (hs_current_term hs) ∧ ∀ v, hs_voted_for hs = Some v → is_u64 v.

Definition snap_wf (sn : Snapshot) : Prop :=
  is_u64 (sn_last_included_index sn) ∧ is_u64 (sn_last_included_term sn) ∧
  members_wf (sn_conf_state sn) ∧ members_wf (sn_learners sn).

Lemma slice_0_app {A} (a b : list A) n : n = length a → slice 0 n (a ++ b) = a.
Proof. intros ->. exact (slice_app [] a b). Qed.

Lemma length_encode_entry e : length (encode_entry e) = (9 + length (e_data e))%nat.
Proof. unfold encode_entry. rewrite !length_app, length_be_bytes. cbn. lia. Qed.

Lemma decode_encode_entry e : entry_wf e → decode_entry (e_index e) (encode_entry e) = Some e.
Proof.
  intros (_ & Ht & _). unfold decode_entry. rewrite length_encode_entry.
  destruct (Nat.ltb_spec (9 + length (e_data e)) 9); [lia|]. unfold encode_entry.
  rewrite <- !app_assoc. rewrite slice_0_app by by rewrite length_be_bytes.
  rewrite be_N_u64 by done.
  rewrite lookup_app_r by (rewrite length_be_bytes; lia). rewrite length_be_bytes.
  change ((8 - 8)%nat) with 0%nat. cbn [app lookup list_lookup].
  assert (∀ b d, drop 9 (u64_be (e_term e) ++ b :: d) = d) as ->.
  { intros b d. change (b :: d) with ([b] ++ d). rewrite app_assoc. apply drop_app_length'.
    by rewrite length_app, length_be_bytes. }
  destruct e as [t i ty d]. cbn [e_type e_term e_data e_index]. by destruct ty.
Qed.

Lemma decode_encode_hard hs : hard_wf hs → decode_hard_state (encode_hard_state hs) = hs.
Proof.
  intros [Ht Hv]. destruct hs as [t v]. cbn [hs_current_term hs_voted_for] in *.
  unfold decode_hard_state, encode_hard_state. cbn [hs_current_term hs_voted_for].
  set (tl := match v with Some _ => _ | None => _ end).
  assert (Hl : length tl = 9%nat) by (unfold tl; destruct v; cbn [length]; by rewrite length_be_bytes).
  rewrite length_app, length_be_bytes, Hl. cbn [Nat.ltb Nat.leb Nat.add].
  rewrite slice_0_app by by rewrite length_be_bytes. rewrite be_N_u64 by done. f_equal.
  rewrite lookup_app_r by (rewrite length_be_bytes; lia). rewrite length_be_bytes.
  change ((8 - 8)%nat) with 0%nat. unfold tl. destruct v as [v|]; [|done]. cbn [lookup list_lookup].
  f_equal. change (x01 :: u64_be v) with ([x01] ++ u64_be v). rewrite app_assoc.
  rewrite slice_suffix by (rewrite ?length_app, ?length_be_bytes; done). by apply be_N_u64, Hv.
Qed.

(** A counted list of ids read back from its encoding. *)
Lemma read_ids_bytes p ids s :
  members_wf ids →
  read_ids (p ++ u32_be (as_u32 (N.of_nat (length ids))) ++ concat (u64_be <$> ids) ++ s) (length p)
  = Some (ids, (length p + 4 + 8 * length ids)%nat).
Proof.
  intros [Hl Hi]. unfold read_ids. set (c := u32_be _).
  assert (Hc : length c = 4%nat) by apply length_be_bytes.
  destruct (Nat.ltb_spec (length (p ++ c ++ concat (u64_be <$> ids) ++ s)) (length p + 4)) as [Hlt|_].
  { rewrite !length_app in Hlt. lia. }
  rewrite slice_app' by (done || lia). unfold c at 2. rewrite as_u32_id, be_N_u32, Nat2N.id by done.
  rewrite app_assoc. replace (length p + 4)%nat with (length (p ++ c)) by (rewrite length_app; lia).
  by apply read_u64s_bytes.
Qed.

Lemma decode_encode_snapshot sn : snap_wf sn → decode_snapshot (encode_snapshot sn) = Some sn.
Proof.
  intros (Hi & Ht & Hc & Hl). unfold encode_snapshot. rewrite !push_u64s_app.
  set (i := u64_be _). set (t := u64_be _).
  assert (Li : length i = 8%nat) by apply length_be_bytes.
  assert (Lt : length t = 8%nat) by apply length_be_bytes.
  set (cn := u32_be (as_u32 (N.of_nat (length (sn_conf_state sn))))).
  set (ln := u32_be (as_u32 (N.of_nat (length (sn_learners sn))))).
  assert (Lcn : length cn = 4%nat) by apply length_be_bytes.
  assert (Lln : length ln = 4%nat) by apply length_be_bytes.
  set (cs := concat (u64_be <$> sn_conf_state sn)). set (ls := concat (u64_be <$> sn_learners sn)).
  assert (Lcs : length cs = (8 * length (sn_conf_state sn))%nat) by apply length_u64s.
  assert (Lls : length ls = (8 * length (sn_learners sn))%nat) by apply length_u64s.
  rewrite <- !app_assoc. set (b := i ++ t ++ cn ++ cs ++ ln ++ ls ++ sn_data sn).
  unfold decode_snapshot.
  destruct (Nat.ltb_spec (length b) 24) as [Hlt|_].
  { unfold b in Hlt. rewrite !length_app in Hlt. lia. }
  assert (slice 0 8 b = i) as -> by (unfold b; by rewrite slice_0_app).
  assert (slice 8 16 b = t) as -> by (unfold b; apply slice_app'; lia).
  assert (R1 : read_ids b 16 = Some (sn_conf_state sn, (20 + 8 * length (sn_conf_state sn))%nat)).
  { pose proof (read_ids_bytes (i ++ t) (sn_conf_state sn) (ln ++ ls ++ sn_data sn) Hc) as R.
    rewrite length_app, Li, Lt in R. fold cn cs in R. rewrite <- app_assoc in R. exact R. }
  rewrite R1. cbn [mbind option_bind].
  assert (R2 : read_ids b (20 + 8 * length (sn_conf_state sn)) = Some (sn_learners sn,
    (24 + 8 * length (sn_conf_state sn) + 8 * length (sn_learners sn))%nat)).
  { pose proof (read_ids_bytes (i ++ t ++ cn ++ cs) (sn_learners sn) (sn_data sn) Hl) as R.
    fold ln ls in R. rewrite <- !app_assoc in R. fold b in R. rewrite !length_app, Li, Lt, Lcn, Lcs in R.
    replace (8 + (8 + (4 + 8 * length (sn_conf_state sn))))%nat
      with (20 + 8 * length (sn_conf_state sn))%nat in R by lia.
    rewrite R. do 2 f_equal. lia. }
  assert (Hd : drop (24 + 8 * length (sn_conf_state sn) + 8 * length (sn_learners sn)) b = sn_data sn).
  { unfold b. rewrite !app_assoc. apply drop_app_length'. rewrite !length_app. lia. }
  rewrite R2. set (p := (24 + _ + _)%nat) in *. clearbody p. cbn [mbind option_bind]. rewrite Hd.
  unfold i, t. rewrite !be_N_u64 by done. by destruct sn.
Qed.

(** * Recovery *)

Definition entry_rec (e : Entry) : N * bytes := (e_index e, encode_entry e).
Definition entry_frames (es : list Entry) : bytes := concat (rec_frame <$> (entry_rec <$> es)).
Definition above (base : N) (e : Entry) : bool := base <? e_index e.

Lemma entry_frames_app a b : entry_frames (a ++ b) = entry_frames a ++ entry_frames b.
Proof. unfold entry_frames. by rewrite !fmap_app, concat_app. Qed.

Lemma append_all_data w es :
  wf_data (append_all w es) = wf_data w ++ entry_frames es ∧ wf_synced (append_all w es) = wf_synced w.
Proof.
  unfold append_all. revert w. induction es as [|e es IH]; intros w; cbn [fold_left].
  { unfold entry_frames. cbn. by rewrite app_nil_r. }
  destruct (IH (wal_append w (e_index e) (encode_entry e) None).1) as [E1 E2]. rewrite E1, E2.
  cbn [wal_append fst wf_data wf_synced]. unfold entry_frames. rewrite !fmap_cons. cbn [concat].
  by rewrite app_assoc.
Qed.

Lemma append_frames_data w es :
  wf_data (append_frames w es) = wf_data w ++ entry_frames es ∧
  wf_synced (append_frames w es) = length (wf_data (append_frames w es)).
Proof. split; [apply append_all_data|done]. Qed.

Lemma entry_rec_wf e : entry_wf e → rec_wf (entry_rec e).
Proof.
  intros (Hi & _ & Hd). split; [done|]. unfold entry_rec. cbn [snd]. rewrite length_encode_entry.
  by replace (8 + (9 + length (e_data e)))%nat with (17 + length (e_data e))%nat by lia.
Qed.

Context `{!Crc32cLaws}.

Lemma open_loop_frames base es p tail fuel :
  Forall entry_wf es →
  next_record (mkWalReader (p ++ entry_frames es ++ tail) (length p + length (entry_frames es))) = None →
  (length es ≤ fuel)%nat →
  open_loop fuel base (mkWalReader (p ++ entry_frames es ++ tail) (length p))
  = (List.filter (above base) es,
     mkWalReader (p ++ entry_frames es ++ tail) (length p + length (entry_frames es))).
Proof.
  intros Hwf. revert p fuel. induction Hwf as [|e es He Hwf IH]; intros p fuel Ht Hf.
  { cbn in *. rewrite Nat.add_0_r in *. destruct fuel; cbn; [done|]. by rewrite Ht. }
  destruct fuel as [|fuel]; [cbn in Hf; lia|].
  change (entry_frames (e :: es)) with (rec_frame (entry_rec e) ++ entry_frames es) in *.
  rewrite <- app_assoc in *. cbn [open_loop].
  rewrite next_record_frame by by apply entry_rec_wf. cbn [entry_rec].
  rewrite decode_encode_entry by done.
  rewrite length_app, Nat.add_assoc, <- length_app, (app_assoc p) in Ht.
  cbn [List.filter]. rewrite length_app, Nat.add_assoc, <- length_app, (app_assoc p).
  fold (entry_rec e). rewrite IH; [|done|cbn in Hf; lia]. done.
Qed.

(** A name whose file is on stable storage whole. *)
Definition slot_synced (sl : Slot) : Prop :=
  ∀ f, sl_file sl = Some f → fl_synced f = length (fl_data f).

Lemma slot_synced_write b sl : slot_synced (write_file b sl).
Proof. by intros f [= <-]. Qed.

(** The log file holds the mirror's entries, after entries the snapshot covers. *)
Record ws_ok (s : WalStorage) : Prop := mkWsOk {
  wo_log : ∃ old, wf_data (ws_writer s) = entry_frames (old ++ ws_log s) ∧
    Forall entry_wf (old ++ ws_log s) ∧ Forall (λ e, e_index e ≤ ws_base s) old;
  wo_synced : wf_synced (ws_writer s) = length (wf_data (ws_writer s));
  wo_above : Forall (λ e, ws_base s < e_index e) (ws_log s);
  wo_hard : match slot_bytes (ws_hard_file s) with Some b => decode_hard_state b | None => HardState_default end = ws_hard s;
  wo_snap : slot_bytes (ws_snap_file s) ≫= decode_snapshot = ws_snap s;
  wo_files : slot_synced (ws_hard_file s) ∧ slot_synced (ws_snap_file s);
}.

Lemma wal_open_frames es tail k past hf sf :
  Forall entry_wf es →
  (∀ p, next_record (mkWalReader (p ++ tail) (length p)) = None) →
  let sn := slot_bytes sf ≫= decode_snapshot in
  let base := match sn with Some s => sn_last_included_index s | None => 0 end in
  wal_open (mkRaftDisk (mkSlot (Some (mkFile (entry_frames es ++ tail) k)) past) hf sf)
  = mkWalStorage (match slot_bytes hf with Some b => decode_hard_state b | None => HardState_default end)
      (List.filter (above base) es) sn (WalWriter_open_append (entry_frames es)) past hf sf.
Proof.
  intros Hwf Ht sn base. unfold wal_open. cbn [rd_snap rd_log rd_hard slot_bytes sl_file fmap option_fmap option_map fl_data sl_past].
  fold sn. fold base.
  pose proof (open_loop_frames base es [] tail (length (entry_frames es ++ tail)) Hwf) as L.
  cbn [app length Nat.add] in L. unfold WalReader_open. rewrite L.
  - unfold valid_len. cbn [wr_pos]. by rewrite take_app_length.
  - apply Ht.
  - rewrite length_app. unfold entry_frames.
    pose proof (length_frames_ge (entry_rec <$> es)) as Hg. rewrite length_fmap in Hg. lia.
Qed.

Lemma filter_above_old base es :
  Forall (λ e, e_index e ≤ base) es → List.filter (above base) es = [].
Proof.
  induction 1 as [|e es He _ IH]; [done|]. cbn. unfold above at 1.
  by destruct (N.ltb_spec base (e_index e)); [lia|].
Qed.

Lemma filter_above_all base es :
  Forall (λ e, base < e_index e) es → List.filter (above base) es = es.
Proof.
  induction 1 as [|e es He _ IH]; [done|]. cbn. unfold above at 1.
  destruct (N.ltb_spec base (e_index e)); [by rewrite IH|lia].
Qed.

(** A contiguous log from [b] on, filtered at a later base. *)
Lemma filter_above_drop b base es :
  b ≤ base → (∀ k e, es !! k = Some e → e_index e = b + N.of_nat k + 1) →
  List.filter (above base) es = drop (N.to_nat (base - b)) es.
Proof.
  intros Hb. remember (N.to_nat (base - b)) as d eqn:Hd. revert b es Hb Hd.
  induction d as [|d IH]; intros b es Hb Hd Hc.
  - apply filter_above_all. apply Forall_lookup. intros k e ->%Hc. lia.
  - destruct es as [|e es]; [done|]. cbn [List.filter drop].
    pose proof (Hc 0%nat e eq_refl). unfold above at 1.
    destruct (N.ltb_spec base (e_index e)); [lia|].
    apply (IH (b + 1)); [lia|lia|]. intros k e' He. rewrite (Hc (S k) e' He). lia.
Qed.

(** * Operations and crashes *)

Inductive wop :=
  | WSave (hs : HardState)
  | WAppend (es : list Entry)
  | WTruncate (from : N)
  | WCompact (index term : N) (conf_state learners : list N) (data : bytes)
  | WApply (sn : Snapshot).

Definition ws_exec (op : wop) (s : WalStorage) : WalStorage :=
  match op with
  | WSave hs => ws_save_hard_state hs s
  | WAppend es => ws_append es s
  | WTruncate from => ws_truncate_suffix from s
  | WCompact i t cs ls d => ws_compact i t cs ls d s
  | WApply sn => ws_apply_snapshot sn s
  end.

(** What the operation writes is representable, and above the snapshot. *)
Definition op_ok (s : WalStorage) (op : wop) : Prop :=
  match op with
  | WSave hs => hard_wf hs
  | WAppend es => Forall entry_wf es ∧ Forall (λ e, ws_base s < e_index e) es
  | WTruncate _ => True
  | WCompact i t cs ls d => snap_wf (mkSnapshot i t cs ls d)
  | WApply sn => snap_wf sn ∧ ws_base s ≤ sn_last_included_index sn
  end.

Definition ws_disk (s : WalStorage) : RaftDisk :=
  mkRaftDisk (log_slot s) (ws_hard_file s) (ws_snap_file s).

(** The states the files are in while [op] runs: frames of an append written one after
    the other, the next one perhaps in part, before the sync; a snapshot renamed before the
    log is rewritten. *)
Inductive during (s : WalStorage) : wop → WalStorage → Prop :=
  | during_before op : during s op s
  | during_after op : during s op (ws_exec op s)
  | during_append es j : during s (WAppend es) (s <| ws_writer := append_all (ws_writer s) (take j es) |>)
  | during_write es j e n : es !! j = Some e →
      during s (WAppend es) (s <| ws_writer :=
        (wal_append (append_all (ws_writer s) (take j es)) (e_index e) (encode_entry e) (Some n)).1 |>)
  | during_compact i t cs ls d : ws_base s < i →
      during s (WCompact i t cs ls d) (write_snapshot (mkSnapshot i t cs ls d) s)
  | during_apply sn : during s (WApply sn) (write_snapshot sn s).

(** What a crash leaves of a name.  The process may die and leave it as it is.  The machine
    may die: bytes not synced are lost from some point on, and unless the directory is synced
    with every change ([dirsync]), the name may be back at a file it named before. *)
Inductive slot_left (dirsync : bool) (sl : Slot) : Slot → Prop :=
  | left_same : slot_left dirsync sl sl
  | left_file f n : (sl_file sl = Some f ∨ dirsync = false ∧ Some f ∈ sl_past sl) →
      (fl_synced f ≤ n ≤ length (fl_data f))%nat →
      slot_left dirsync sl (mkSlot (Some (mkFile (take n (fl_data f)) n)) [])
  | left_none : (sl_file sl = None ∨ dirsync = false ∧ None ∈ sl_past sl) →
      slot_left dirsync sl slot_none.

(** The directory after a crash during [op]. *)
Inductive crash_disk (dirsync : bool) (s : WalStorage) (op : wop) (d : RaftDisk) : Prop :=
  | crash_at s' : during s op s' → slot_left dirsync (log_slot s') (rd_log d) →
      slot_left dirsync (ws_hard_file s') (rd_hard d) → slot_left dirsync (ws_snap_file s') (rd_snap d) →
      crash_disk dirsync s op d.

(** The contents a recovery may find. *)
Definition recovered (s : WalStorage) (op : wop) (m : MemStorage) : Prop :=
  m = ws_mem s ∨ m = ws_mem (ws_exec op s) ∨
  match op with
  | WAppend es => ∃ k, m = ms_append (take k es) (ws_mem s)
  | WApply sn => m = mkMemStorage (ws_hard s)
      (List.filter (above (sn_last_included_index sn)) (ws_log s)) (Some sn)
  | _ => False
  end.

Lemma ws_ok_rewrite hs log sn w past hf sf :
  let base := match sn with Some x => sn_last_included_index x | None => 0 end in
  Forall entry_wf log → Forall (λ e, base < e_index e) log →
  match slot_bytes hf with Some b => decode_hard_state b | None => HardState_default end = hs →
  slot_bytes sf ≫= decode_snapshot = sn → slot_synced hf ∧ slot_synced sf →
  ws_ok (rewrite_log (mkWalStorage hs log sn w past hf sf)).
Proof.
  intros base Hwf Hab Hh Hs Hf. destruct (append_frames_data WalWriter_create log) as [E E2].
  split; cbn -[append_frames decode_hard_state decode_snapshot]; rewrite ?E; try done.
  - exists []. done.
  - by rewrite E2, E.
Qed.

Lemma ws_log_wf s : ws_ok s → Forall entry_wf (ws_log s).
Proof. intros [(old & _ & Hwf & _) _ _ _ _]. by apply Forall_app in Hwf as [_ ?]. Qed.

Lemma ws_compact_eq i t cs ls d s :
  ws_base s < i → ms_wf (ws_mem s) →
  ws_mem (ws_compact i t cs ls d s) =
  mkMemStorage (ws_hard s) (drop (N.to_nat (i - ws_base s)) (ws_log s)) (Some (mkSnapshot i t cs ls d)).
Proof.
  intros Hi Hw. unfold ws_compact. destruct (N.leb_spec i (ws_base s)); [lia|].
  unfold ws_mem. cbn. f_equal. set (n := N.to_nat _).
  destruct (decide (n ≤ length (ws_log s))%nat); [by rewrite Nat.min_l|].
  rewrite Nat.min_r, !drop_ge by lia. done.
Qed.

Lemma ws_exec_ok s op : ws_ok s → ms_wf (ws_mem s) → op_ok s op → ws_ok (ws_exec op s).
Proof.
  intros Hs Hw Hop. pose proof (ws_log_wf s Hs) as Hlw.
  destruct Hs as [(old & Hd & Hwf & Hold) Hsy Hab Hh Hsn [Hfh Hfs]].
  destruct op as [hs|es|from|i t cs ls d|sn]; cbn [ws_exec op_ok] in *.
  - split; cbn; try done; [by exists old|by apply decode_encode_hard|].
    split; [apply slot_synced_write|done].
  - destruct Hop as [He Hea]. destruct (append_frames_data (ws_writer s) es) as [E1 E2].
    split; cbn -[append_frames]; try done.
    + exists old. rewrite E1, Hd, app_assoc, (entry_frames_app (old ++ ws_log s)).
      split_and!; [done|by apply Forall_app|done].
    + by apply Forall_app.
  - unfold ws_truncate_suffix. destruct (_ <=? _)%nat; [by split; [exists old|..]|].
    apply ws_ok_rewrite; try done; by apply Forall_take.
  - unfold ws_compact. destruct (N.leb_spec i (ws_base s)); [by split; [exists old|..]|].
    apply ws_ok_rewrite; try done; cbn [mbind option_bind].
    + by apply Forall_drop.
    + apply Forall_lookup. intros k e. cbn. rewrite lookup_drop. intros Hk.
      pose proof (lookup_lt_Some _ _ _ Hk). apply Hw in Hk. cbn in Hk. change (ms_base (ws_mem s)) with (ws_base s) in Hk. lia.
    + by apply decode_encode_snapshot.
    + split; [done|apply slot_synced_write].
  - destruct Hop as [Hsw _]. apply ws_ok_rewrite; try done; [by apply decode_encode_snapshot|].
    split; [done|apply slot_synced_write].
Qed.

(** A synced file survives whole, on a directory synced with every change. *)
Lemma slot_left_synced sl sl' : slot_synced sl → slot_left true sl sl' →
  slot_bytes sl' = slot_bytes sl ∧ slot_synced sl'.
Proof.
  intros Hs [|f n [Hf|[? _]] Hn|[Hf|[? _]]]; try done.
  - assert (n = length (fl_data f)) as -> by (specialize (Hs f Hf); lia).
    unfold slot_bytes. cbn. rewrite Hf. cbn. rewrite firstn_all. split; [done|]. by intros g [= <-].
  - unfold slot_bytes. by rewrite Hf.
Qed.

(** The log file is never shorter than what was synced of it. *)
Lemma log_left s sl' : slot_left true (log_slot s) sl' →
  ∃ n k past, (wf_synced (ws_writer s) `min` length (wf_data (ws_writer s)) ≤ n)%nat ∧
    sl' = mkSlot (Some (mkFile (take n (wf_data (ws_writer s))) k)) past.
Proof.
  intros [|f n [[= <-]|[? _]] Hn|[?|[? _]]]; try done.
  - exists (length (wf_data (ws_writer s))). eexists _, _. rewrite firstn_all. split; [lia|done].
  - eexists n, _, _. split; [|done]. cbn in Hn. lia.
Qed.

(** Opening what a store left: the log file cut at the end of a record. *)
Lemma wal_open_ok s es tail k past hf sf :
  ws_ok s → Forall entry_wf es → Forall (λ e, ws_base s < e_index e) es →
  (∀ p, next_record (mkWalReader (p ++ tail) (length p)) = None) →
  slot_bytes hf = slot_bytes (ws_hard_file s) → slot_synced hf → slot_synced sf →
  let sn := slot_bytes sf ≫= decode_snapshot in
  let base := match sn with Some x => sn_last_included_index x | None => 0 end in
  ws_base s ≤ base →
  let r := wal_open (mkRaftDisk (mkSlot (Some (mkFile (wf_data (ws_writer s) ++ entry_frames es ++ tail) k)) past) hf sf) in
  ms_wf (mkMemStorage (ws_hard s) (ws_log s ++ es) (ws_snap s)) →
  ws_ok r ∧ ws_mem r = mkMemStorage (ws_hard s) (List.filter (above base) (ws_log s ++ es)) sn.
Proof.
  intros [(old & Hd & Hwf & Hold) Hsy Hab Hh Hsn _] Hew Hea Ht Hfb Hfh Hfs sn base Hb r Hc.
  assert (Hwf' : Forall entry_wf (old ++ ws_log s ++ es)) by (rewrite app_assoc; by apply Forall_app).
  pose proof (wal_open_frames (old ++ ws_log s ++ es) tail k past hf sf Hwf' Ht) as E.
  fold sn in E. fold base in E.
  assert (Hr : r = mkWalStorage (ws_hard s) (List.filter (above base) (ws_log s ++ es)) sn
    (WalWriter_open_append (entry_frames (old ++ ws_log s ++ es))) past hf sf).
  { unfold r. rewrite Hd, !app_assoc, <- entry_frames_app, <- app_assoc, E, Hfb, Hh. f_equal.
    rewrite List.filter_app, filter_above_old; [done|]. eapply Forall_impl; [|exact Hold]. cbn. intros e He. fold base. lia. }
  rewrite Hr. split; [|done].
  pose proof (filter_above_drop (ws_base s) base (ws_log s ++ es) Hb Hc) as Hfd.
  split; cbn -[decode_hard_state decode_snapshot]; try done.
  - rewrite Hfd. set (n := N.to_nat _). exists (old ++ take n (ws_log s ++ es)).
    rewrite <- app_assoc, take_drop. split_and!; [done|done|]. apply Forall_app. split.
    + eapply Forall_impl; [|exact Hold]. cbn. intros e He. unfold ws_base at 1. cbn. fold base. lia.
    + apply Forall_lookup. intros i e. rewrite lookup_take_Some. intros [Hk Hlt]. apply Hc in Hk.
      unfold ws_base at 1. cbn. fold base. change (ms_base _) with (ws_base s) in Hk. lia.
  - apply Forall_forall. intros e He%filter_In. destruct He as [_ Hlt%N.ltb_lt]. done.
  - by rewrite Hfb.
Qed.

Lemma no_record_nil p : next_record (mkWalReader (p ++ []) (length p)) = None.
Proof. rewrite app_nil_r. apply next_record_eof. Qed.

Lemma snap_base s : ws_ok s →
  match slot_bytes (ws_snap_file s) ≫= decode_snapshot with Some x => sn_last_included_index x | None => 0 end = ws_base s.
Proof. intros Hs. by rewrite (wo_snap _ Hs). Qed.

Lemma ws_mem_wf_app s es :
  ms_wf (ms_append es (ws_mem s)) → ms_wf (mkMemStorage (ws_hard s) (ws_log s ++ es) (ws_snap s)).
Proof. by rewrite ms_append_eq. Qed.

Lemma ms_wf_take_append s es k :
  ms_wf (ms_append es (ws_mem s)) → ms_wf (ms_append (take k es) (ws_mem s)).
Proof.
  rewrite !ms_append_eq. intros Hw j e He. cbn in He. apply (Hw j e). cbn.
  rewrite lookup_app_Some in He |- *. destruct He as [|[? He]]; [by left|right].
  rewrite lookup_take_Some in He. by destruct He.
Qed.

(** Contents contiguous before and after the operation. *)
Definition wop_wf (s : WalStorage) (op : wop) : Prop :=
  ms_wf (ws_mem s) ∧ match op with WAppend es => ms_wf (ms_append es (ws_mem s)) | _ => True end.

Lemma wop_wf_exec s op : wop_wf s op → ms_wf (ws_mem (ws_exec op s)).
Proof.
  intros [Hw Hop]. destruct op as [hs|es|from|i t cs ls d|sn]; cbn [ws_exec].
  - exact Hw.
  - by rewrite ws_mem_append.
  - rewrite ws_mem_truncate. by apply ms_truncate_wf.
  - destruct (N.le_gt_cases i (ws_base s)) as [Hle|Hgt].
    + unfold ws_compact. apply N.leb_le in Hle. by rewrite Hle.
    + rewrite ws_compact_eq by done. intros k e. cbn. rewrite lookup_drop. intros Hk.
      apply Hw in Hk. change (ms_base (ws_mem s)) with (ws_base s) in Hk. lia.
  - intros k e. cbn. done.
Qed.

(** The files of [s], the log followed by a cut of the frames of [es]. *)
Lemma wal_crash_append s es n k past hf sf :
  ws_ok s → ms_wf (ms_append es (ws_mem s)) → Forall entry_wf es → Forall (λ e, ws_base s < e_index e) es →
  (n ≤ length (entry_frames es))%nat →
  slot_bytes hf = slot_bytes (ws_hard_file s) → slot_synced hf →
  slot_bytes sf = slot_bytes (ws_snap_file s) → slot_synced sf →
  let d := mkRaftDisk (mkSlot (Some (mkFile (wf_data (ws_writer s) ++ take n (entry_frames es)) k)) past) hf sf in
  ws_ok (wal_open d) ∧ ∃ j, ws_mem (wal_open d) = ms_append (take j es) (ws_mem s).
Proof.
  intros Hs Hw He Hea Hn Hfb Hfh Hsb Hfs d.
  assert (Hrw : Forall rec_wf (entry_rec <$> es)).
  { apply Forall_fmap. eapply Forall_impl; [|exact He]. apply entry_rec_wf. }
  destruct (frames_cut (entry_rec <$> es) Hrw n Hn) as (j & tl & _ & E & _ & Hnone).
  rewrite <- fmap_take in E. fold (entry_frames es) (entry_frames (take j es)) in E.
  unfold d. rewrite E.
  destruct (wal_open_ok s (take j es) tl k past hf sf Hs) as [Hok Hm];
    [by apply Forall_take|by apply Forall_take|done..|by rewrite Hsb, snap_base
    |by apply ws_mem_wf_app, ms_wf_take_append|].
  split; [done|]. exists j. rewrite Hm, Hsb, snap_base, filter_above_all, (wo_snap _ Hs), ms_append_eq by (done ||
    (apply Forall_app; split; [apply Hs|by apply Forall_take])). done.
Qed.

(** What was completed is there after a restart. *)
Lemma wal_reopen s k past hf sf : ws_ok s → ms_wf (ws_mem s) →
  slot_bytes hf = slot_bytes (ws_hard_file s) → slot_synced hf →
  slot_bytes sf = slot_bytes (ws_snap_file s) → slot_synced sf →
  let d := mkRaftDisk (mkSlot (Some (mkFile (wf_data (ws_writer s)) k)) past) hf sf in
  ws_ok (wal_open d) ∧ ws_mem (wal_open d) = ws_mem s.
Proof.
  intros Hs Hw Hfb Hfh Hsb Hfs d.
  destruct (wal_crash_append s [] 0 k past hf sf Hs) as [Hok [j Hm]]; try done.
  rewrite take_0, app_nil_r in Hok, Hm. fold d in Hok, Hm. split; [done|]. by rewrite Hm, take_nil, ms_append_eq, app_nil_r.
Qed.

(** The snapshot on disk, the log not yet rewritten. *)
Lemma wal_crash_snapshot s sn k past hf sf :
  ws_ok s → ms_wf (ws_mem s) → snap_wf sn → ws_base s ≤ sn_last_included_index sn →
  slot_bytes hf = slot_bytes (ws_hard_file s) → slot_synced hf →
  slot_bytes sf = Some (encode_snapshot sn) → slot_synced sf →
  let d := mkRaftDisk (mkSlot (Some (mkFile (wf_data (ws_writer s)) k)) past) hf sf in
  ws_ok (wal_open d) ∧ ws_mem (wal_open d) = mkMemStorage (ws_hard s)
    (List.filter (above (sn_last_included_index sn)) (ws_log s)) (Some sn).
Proof.
  intros Hs Hw Hsw Hb Hfb Hfh Hsb Hfs d. unfold d. rewrite <- (app_nil_r (wf_data _)).
  assert (E : slot_bytes sf ≫= decode_snapshot = Some sn) by (rewrite Hsb; by apply decode_encode_snapshot).
  destruct (wal_open_ok s [] [] k past hf sf Hs) as [Hok Hm];
    [constructor|constructor|apply no_record_nil|done..|by rewrite E|by rewrite app_nil_r|].
  cbn [entry_frames fmap list_fmap concat app] in Hok, Hm. split; [exact Hok|].
  etransitivity; [exact Hm|]. by rewrite app_nil_r, E.
Qed.

(** Frames of an append on the log, not yet synced: what a crash leaves of them. *)
Lemma append_left s es w sl' :
  ws_ok s → (∃ m, wf_data w = wf_data (ws_writer s) ++ take m (entry_frames es)) →
  wf_synced w = wf_synced (ws_writer s) →
  slot_left true (log_slot (s <| ws_writer := w |>)) sl' →
  ∃ n k past, (n ≤ length (entry_frames es))%nat ∧
    sl' = mkSlot (Some (mkFile (wf_data (ws_writer s) ++ take n (entry_frames es)) k)) past.
Proof.
  intros Hs [m Hd] Hsy (n & k & past & Hn & ->)%log_left. cbn [ws_writer set_field] in *.
  change (ws_writer (s <| ws_writer := w |>)) with w in *. rewrite Hd in Hn |- *.
  rewrite Hsy, (wo_synced _ Hs), length_app in Hn.
  exists ((n - length (wf_data (ws_writer s))) `min` m `min` length (entry_frames es))%nat, k, past.
  split; [lia|]. rewrite take_app. do 4 f_equal; [apply take_ge; lia|]. rewrite take_take.
  destruct (Nat.le_gt_cases ((n - length (wf_data (ws_writer s))) `min` m) (length (entry_frames es))) as [?|?].
  - by rewrite (Nat.min_l _ (length (entry_frames es))) by lia.
  - rewrite (Nat.min_r _ (length (entry_frames es))), !take_ge by lia. done.
Qed.

Lemma frames_written w es j : ∃ m, wf_data (append_all w (take j es)) = wf_data w ++ take m (entry_frames es).
Proof.
  exists (length (entry_frames (take j es))). rewrite (proj1 (append_all_data w (take j es))). f_equal.
  replace (entry_frames es) with (entry_frames (take j es) ++ entry_frames (drop j es))
    by by rewrite <- entry_frames_app, take_drop.
  by rewrite take_app_length.
Qed.

Lemma frame_cut_written w es j e n : es !! j = Some e →
  ∃ m, wf_data (wal_append (append_all w (take j es)) (e_index e) (encode_entry e) (Some n)).1
       = wf_data w ++ take m (entry_frames es).
Proof.
  intros He. set (fr := wal_frame (e_index e) (encode_entry e)).
  exists (length (entry_frames (take j es)) + n `min` length fr)%nat.
  cbn [wal_append fst]. fold fr.
  change (wf_data (set_field _ _)) with (wf_data (append_all w (take j es)) ++ take n fr).
  rewrite (proj1 (append_all_data w (take j es))), <- app_assoc. f_equal.
  replace (entry_frames es) with (entry_frames (take j es) ++ fr ++ entry_frames (drop (S j) es)).
  2: { change (fr ++ entry_frames (drop (S j) es)) with (entry_frames (e :: drop (S j) es)).
       by rewrite <- entry_frames_app, take_drop_middle. }
  rewrite take_app_add, take_app_le by lia. f_equal.
  destruct (Nat.le_gt_cases n (length fr)); [by rewrite Nat.min_l by lia|]. by rewrite Nat.min_r, !take_ge by lia.
Qed.

(** A crash with the files of a whole store. *)
Lemma crash_whole s d : ws_ok s → ms_wf (ws_mem s) →
  slot_left true (log_slot s) (rd_log d) → slot_left true (ws_hard_file s) (rd_hard d) →
  slot_left true (ws_snap_file s) (rd_snap d) → ws_ok (wal_open d) ∧ ws_mem (wal_open d) = ws_mem s.
Proof.
  intros Hs Hm (n & k & past & Hn & Hl)%log_left [? ?]%(slot_left_synced _ _ (proj1 (wo_files _ Hs)))
    [? ?]%(slot_left_synced _ _ (proj2 (wo_files _ Hs))).
  destruct d as [dl dh ds]. cbn [rd_log rd_hard rd_snap] in *. rewrite (wo_synced _ Hs) in Hn.
  subst dl. rewrite take_ge by lia. by apply wal_reopen.
Qed.

Lemma crash_appending s es w d :
  ws_ok s → wop_wf s (WAppend es) → op_ok s (WAppend es) →
  (∃ m, wf_data w = wf_data (ws_writer s) ++ take m (entry_frames es)) →
  wf_synced w = wf_synced (ws_writer s) →
  slot_left true (log_slot (s <| ws_writer := w |>)) (rd_log d) → slot_left true (ws_hard_file s) (rd_hard d) →
  slot_left true (ws_snap_file s) (rd_snap d) →
  ws_ok (wal_open d) ∧ ∃ j, ws_mem (wal_open d) = ms_append (take j es) (ws_mem s).
Proof.
  intros Hs [_ Hw] [He Hea] Hd Hsy (n & k & past & Hn & Hl)%(append_left s es w); try done.
  intros [? ?]%(slot_left_synced _ _ (proj1 (wo_files _ Hs))) [? ?]%(slot_left_synced _ _ (proj2 (wo_files _ Hs))).
  destruct d as [dl dh ds]. cbn [rd_log rd_hard rd_snap] in *. subst dl. by apply wal_crash_append.
Qed.

Lemma crash_snapshotted s sn d :
  ws_ok s → ms_wf (ws_mem s) → snap_wf sn → ws_base s ≤ sn_last_included_index sn →
  slot_left true (log_slot s) (rd_log d) → slot_left true (ws_hard_file s) (rd_hard d) →
  slot_left true (write_file (encode_snapshot sn) (ws_snap_file s)) (rd_snap d) →
  ws_ok (wal_open d) ∧ ws_mem (wal_open d) = mkMemStorage (ws_hard s)
    (List.filter (above (sn_last_included_index sn)) (ws_log s)) (Some sn).
Proof.
  intros Hs Hm Hsw Hb (n & k & past & Hn & Hl)%log_left [? ?]%(slot_left_synced _ _ (proj1 (wo_files _ Hs)))
    [? ?]%(slot_left_synced _ _ (slot_synced_write _ _)).
  destruct d as [dl dh ds]. cbn [rd_log rd_hard rd_snap] in *. rewrite (wo_synced _ Hs) in Hn.
  subst dl. rewrite take_ge by lia. by apply wal_crash_snapshot.
Qed.

Lemma wal_crash_recovers s op d :
  ws_ok s → wop_wf s op → op_ok s op → crash_disk true s op d →
  ws_ok (wal_open d) ∧ recovered s op (ws_mem (wal_open d)).
Proof.
  intros Hs Hw Hop [s' Hc Hl Hh Hsn]. pose proof (proj1 Hw) as Hm.
  destruct Hc as [op|op|es j|es j e n He|i t cs ls d' Hi|sn].
  - destruct (crash_whole s d) as [? ->]; try done. split; [done|by left].
  - destruct (crash_whole (ws_exec op s) d) as [? ->]; [by apply ws_exec_ok|by apply wop_wf_exec|done..|].
    split; [done|right; by left].
  - destruct (crash_appending s es (append_all (ws_writer s) (take j es)) d) as [? ?]; try done;
      [apply frames_written|apply append_all_data|]. split; [done|]. right. by right.
  - destruct (crash_appending s es (wal_append (append_all (ws_writer s) (take j es)) (e_index e)
      (encode_entry e) (Some n)).1 d) as [? ?]; try done; [by apply frame_cut_written| |].
    { exact (proj2 (append_all_data (ws_writer s) (take j es))). }
    split; [done|]. right. by right.
  - destruct (crash_snapshotted s (mkSnapshot i t cs ls d') d) as [? E]; try done; [cbn; lia|].
    split; [done|]. right. left. rewrite E. cbn [ws_exec]. rewrite ws_compact_eq by done.
    f_equal. apply filter_above_drop; [cbn; lia|exact Hm].
  - destruct Hop as [Hsw Hb]. destruct (crash_snapshotted s sn d) as [? E]; try done.
    split; [done|]. right. by right.
Qed.

Lemma wal_open_empty : ws_ok (wal_open empty_dir) ∧ ws_mem (wal_open empty_dir) = MemStorage_new.
Proof. split; [|done]. split; cbn; try done. by exists []. Qed.
End Store.
