(* ===== verification/RaftWalTheorems.v ===== *)
(** The node does not see which storage it runs on: over two storages related by a map that
    commutes with the trait's operations, every call of the node commutes with it.  The durable
    storage is related to the in-memory one by its mirror; its theorems and witnesses. *)

From stdpp Require Import base list numbers gmap sorting.
From Stdlib Require Import Strings.Byte.
From S2P Require Import Prelude Crc Wal RaftMessage RaftStorage RaftNode RaftWal.

(** [f] commutes with every operation of the trait. *)
Class StorageHom {S1 S2 : Type} `{Storage S1, Storage S2} (f : S1 → S2) : Prop := {
  hom_hard s : st_hard_state (f s) = st_hard_state s;
  hom_last s : st_last_index (f s) = st_last_index s;
  hom_term i s : st_term i (f s) = st_term i s;
  hom_entries lo hi s : st_entries lo hi (f s) = st_entries lo hi s;
  hom_snap s : st_snapshot (f s) = st_snapshot s;
  hom_first s : st_first_index (f s) = st_first_index s;
  hom_save hs s : f (st_save_hard_state hs s) = st_save_hard_state hs (f s);
  hom_append es s : f (st_append es s) = st_append es (f s);
  hom_truncate i s : f (st_truncate_suffix i s) = st_truncate_suffix i (f s);
  hom_compact i t cs ls d s : f (st_compact i t cs ls d s) = st_compact i t cs ls d (f s);
  hom_apply sn s : f (st_apply_snapshot sn s) = st_apply_snapshot sn (f s);
}.

#[export] Instance ws_mem_hom `{Crc32c} : StorageHom ws_mem.
Proof.
  split; try done.
  - intros es s. apply ws_mem_append.
  - intros i s. apply ws_mem_truncate.
  - intros i t cs ls d s. apply ws_mem_compact.
Qed.

(** * The driver's calls *)

Inductive call :=
  | CTick
  | CStep (m : Message)
  | CPropose (data : bytes)
  | CReadIndex (ctx : N)
  | CConf (cc : ConfChange)
  | CTransfer (target : N)
  | CTakeMessages
  | CTakeCommitted
  | CTakeSnapshot
  | CTakeReads.

Definition do_call {St} `{Storage St} (c : call) (n : RaftNode St) : RaftNode St :=
  match c with
  | CTick => tick n
  | CStep m => step m n
  | CPropose data => (propose data n).2
  | CReadIndex ctx => (read_index ctx n).2
  | CConf cc => (propose_conf_change cc n).2
  | CTransfer target => (transfer_leadership target n).2
  | CTakeMessages => (take_messages n).2
  | CTakeCommitted => (take_committed n).2
  | CTakeSnapshot => (take_snapshot n).2
  | CTakeReads => (take_read_states n).2
  end.

Definition do_calls {St} `{Storage St} (cs : list call) (n : RaftNode St) : RaftNode St :=
  fold_left (λ n c, do_call c n) cs n.

Section Hom.
Context {S1 S2 : Type} `{Storage S1, Storage S2} (f : S1 → S2) `{!StorageHom f}.
Implicit Types n : RaftNode S1.

Definition nmap n : RaftNode S2 :=
  mkRaftNode (n_id n) (n_voters n) (n_learners n) (n_bootstrap_conf n) (f (n_storage n)) (n_role n)
    (n_current_term n) (n_voted_for n) (n_commit_index n) (n_last_applied n) (n_leader_id n)
    (n_votes n) (n_next_index n) (n_match_index n) (n_election_elapsed n) (n_heartbeat_elapsed n)
    (n_randomized_election_timeout n) (n_election_timeout n) (n_heartbeat_timeout n) (n_rng n)
    (n_transfer_target n) (n_transfer_elapsed n) (n_check_quorum n) (n_recent_active n)
    (n_quorum_elapsed n) (n_read_round n) (n_acked_round n) (n_pending_reads n)
    (n_ready_reads n) (n_messages n) (n_pending_snapshot n).

Lemma nmap_storage n : n_storage (nmap n) = f (n_storage n).
Proof. done. Qed.

(** Reads of the storage, through [f]. *)
Ltac hom_reads := rewrite ?nmap_storage, ?hom_last, ?hom_term, ?hom_entries, ?hom_snap, ?hom_first,
  ?hom_last, ?hom_term, ?hom_entries.

(** A branch taken on both sides for the same reason. *)
Ltac hom_if := match goal with
  |- (if ?c then _ else _) = nmap (if ?d then _ else _) => change c with d; destruct d end.

Lemma nmap_fold {A} (g1 : RaftNode S1 → A → RaftNode S1) (g2 : RaftNode S2 → A → RaftNode S2) l n :
  (∀ n a, g2 (nmap n) a = nmap (g1 n a)) → fold_left g2 l (nmap n) = nmap (fold_left g1 l n).
Proof. intros Hg. revert n. induction l as [|a l IH]; intros n; [done|]. cbn. by rewrite Hg. Qed.

Lemma send_hom to t b n : send to t b (nmap n) = nmap (send to t b n).
Proof. done. Qed.

Lemma reset_hom n : reset_election_timer (nmap n) = nmap (reset_election_timer n).
Proof. done. Qed.

Lemma persist_hom n : persist_hard_state (nmap n) = nmap (persist_hard_state n).
Proof. unfold persist_hard_state, nmap. cbn. by rewrite hom_save. Qed.

Lemma become_follower_hom t l n : become_follower t l (nmap n) = nmap (become_follower t l n).
Proof.
  unfold become_follower. change (n_current_term (nmap n)) with (n_current_term n).
  destruct (_ <? _); [|done].
  change (persist_hard_state ((nmap n) <| n_current_term := t |> <| n_voted_for := None |>))
    with (persist_hard_state (nmap (n <| n_current_term := t |> <| n_voted_for := None |>))).
  by rewrite persist_hom.
Qed.

Lemma conf_at_hom i n : conf_at i (nmap n) = conf_at i n.
Proof. unfold conf_at. by hom_reads. Qed.

Lemma recompute_conf_hom n : recompute_conf (nmap n) = nmap (recompute_conf n).
Proof.
  unfold recompute_conf. hom_reads. rewrite conf_at_hom. destruct (conf_at _ n) as [v l].
  set (n1 := n <| n_voters := v |> <| n_learners := l |>).
  change ((nmap n) <| n_voters := v |> <| n_learners := l |>) with (nmap n1).
  change (n_transfer_target (nmap n1)) with (n_transfer_target n1).
  change (n_voters (nmap n1)) with (n_voters n1).
  set (n2 := match n_transfer_target n1 with Some _ => _ | None => n1 end).
  assert (match n_transfer_target n1 with
    | Some t => if contains (n_voters n1) t then nmap n1
        else (nmap n1) <| n_transfer_target := None |> <| n_transfer_elapsed := 0 |>
    | None => nmap n1 end = nmap n2) as ->.
  { unfold n2. destruct (n_transfer_target n1); [|done]. by destruct (contains _ _). }
  clearbody n2. change (is_leader (nmap n2)) with (is_leader n2).
  change (is_voter (nmap n2)) with (is_voter n2). destruct (_ && _); [|done]. apply become_follower_hom.
Qed.

Lemma send_append_hom to n : send_append to (nmap n) = nmap (send_append to n).
Proof.
  unfold send_append. hom_reads. change (n_next_index (nmap n)) with (n_next_index n).
  destruct (_ <? _); [|done]. unfold send_snapshot. hom_reads. by destruct (st_snapshot _).
Qed.

Lemma broadcast_append_hom n : broadcast_append (nmap n) = nmap (broadcast_append n).
Proof. apply (nmap_fold (λ n p, send_append p n)). intros m p. apply send_append_hom. Qed.

Lemma confirm_reads_hom n l : confirm_reads (nmap n) l = confirm_reads n l.
Proof.
  induction l as [|[c r] l IH]; [done|]. cbn [confirm_reads]. rewrite IH. done.
Qed.

Lemma advance_reads_hom n : advance_reads (nmap n) = nmap (advance_reads n).
Proof.
  unfold advance_reads. change (n_commit_index (nmap n)) with (n_commit_index n). hom_reads.
  change (is_leader (nmap n)) with (is_leader n). change (n_pending_reads (nmap n)) with (n_pending_reads n).
  change (n_current_term (nmap n)) with (n_current_term n).
  destruct (_ || _); [done|]. rewrite confirm_reads_hom. by destruct (confirm_reads _ _).
Qed.

Lemma commit_scan_hom k n : commit_scan k (nmap n) = commit_scan k n.
Proof.
  induction k as [|k IH]; [done|]. cbn [commit_scan]. rewrite IH. hom_reads. done.
Qed.

Lemma maybe_advance_commit_hom n : maybe_advance_commit (nmap n) = nmap (maybe_advance_commit n).
Proof.
  unfold maybe_advance_commit. hom_reads. change (n_commit_index (nmap n)) with (n_commit_index n).
  rewrite commit_scan_hom. destruct (commit_scan _ n) as [i|]; [|done].
  exact (advance_reads_hom (n <| n_commit_index := i |>)).
Qed.

Lemma become_leader_hom n : become_leader (nmap n) = nmap (become_leader n).
Proof.
  unfold become_leader. rewrite <- broadcast_append_hom. f_equal.
  set (m := n <| n_role := Leader |> <| n_leader_id := Some (n_id n) |> <| n_next_index := ∅ |>
    <| n_match_index := ∅ |>).
  set (last := st_last_index (n_storage n)).
  set (g1 := λ (n : RaftNode S1) (p : N), n <| n_next_index := <[p:=last + 1]> (n_next_index n) |>
    <| n_match_index := <[p:=0]> (n_match_index n) |>).
  set (g2 := λ (n : RaftNode S2) (p : N), n <| n_next_index := <[p:=last + 1]> (n_next_index n) |>
    <| n_match_index := <[p:=0]> (n_match_index n) |>).
  pose proof (nmap_fold g1 g2 (n_voters n ++ n_learners n) m (λ _ _, eq_refl)) as Hf.
  cbn zeta. change (n_storage ((nmap n) <| n_role := Leader |> <| n_leader_id := Some (n_id (nmap n)) |>))
    with (f (n_storage n)). rewrite hom_last. fold last. fold g2.
  match goal with |- context [fold_left g2 ?l ?x] =>
    change (fold_left g2 l x) with (fold_left g2 (n_voters n ++ n_learners n) (nmap m)) end.
  rewrite Hf. done.
Qed.

Lemma start_election_hom n : start_election (nmap n) = nmap (start_election n).
Proof.
  unfold start_election. cbn zeta.
  set (m := n <| n_role := Candidate |> <| n_current_term := n_current_term n + 1 |>
    <| n_voted_for := Some (n_id n) |>).
  change ((nmap n) <| n_role := Candidate |> <| n_current_term := n_current_term (nmap n) + 1 |>
    <| n_voted_for := Some (n_id (nmap n)) |>) with (nmap m).
  rewrite !persist_hom. clearbody m. set (m0 := persist_hard_state m). clearbody m0.
  set (m1 := reset_election_timer (m0 <| n_leader_id := None |> <| n_votes := {[n_id m0]} |>)).
  change (reset_election_timer ((nmap m0) <| n_leader_id := None |>
    <| n_votes := {[n_id (nmap m0)]} |>)) with (nmap m1).
  clearbody m1. hom_if; [apply become_leader_hom|].
  unfold last_log_term. hom_reads.
  by apply (nmap_fold (λ n p, send p (n_current_term m1)
    (RequestVote (st_last_index (n_storage m1)) (default 0 (st_term (st_last_index (n_storage m1)) (n_storage m1)))) n)).
Qed.

Lemma check_quorum_tick_hom n : check_quorum_tick (nmap n) = nmap (check_quorum_tick n).
Proof.
  unfold check_quorum_tick. cbn zeta. set (m := n <| n_quorum_elapsed := _ |>).
  change ((nmap n) <| n_quorum_elapsed := _ |>) with (nmap m).
  change (n_election_timeout (nmap m)) with (n_election_timeout m).
  change (n_quorum_elapsed (nmap m)) with (n_quorum_elapsed m).
  destruct (_ <=? _); [|done].
  set (m1 := m <| n_quorum_elapsed := 0 |> <| n_recent_active := ∅ |>).
  change ((nmap m) <| n_quorum_elapsed := 0 |> <| n_recent_active := ∅ |>) with (nmap m1).
  match goal with |- (if ?c then _ else _) = nmap (if ?d then _ else _) => change c with d; destruct d end;
    [apply become_follower_hom|done].
Qed.

Lemma tick_hom n : tick (nmap n) = nmap (tick n).
Proof.
  unfold tick. change (n_role (nmap n)) with (n_role n). destruct (n_role n).
  1, 2: cbn zeta; set (m := n <| n_election_elapsed := _ |>);
    change ((nmap n) <| n_election_elapsed := _ |>) with (nmap m);
    match goal with |- (if ?c then _ else _) = nmap (if ?d then _ else _) => change c with d; destruct d end;
    [apply start_election_hom|done].
  cbn zeta. change (n_transfer_target (nmap n)) with (n_transfer_target n).
  set (n1 := match n_transfer_target n with Some _ => _ | None => n end).
  match goal with |- context [(match n_transfer_target n with Some _ => ?a | None => nmap n end)] =>
    assert ((match n_transfer_target n with Some _ => a | None => nmap n end) = nmap n1) as -> end.
  { unfold n1. destruct (n_transfer_target n); [|done]. cbn.
    by match goal with |- (if ?c then _ else _) = nmap (if ?d then _ else _) => change c with d; destruct d end. }
  clearbody n1. set (n2 := n1 <| n_heartbeat_elapsed := n_heartbeat_elapsed n1 + 1 |>).
  change ((nmap n1) <| n_heartbeat_elapsed := n_heartbeat_elapsed (nmap n1) + 1 |>) with (nmap n2).
  rewrite <- check_quorum_tick_hom. f_equal.
  change (n_heartbeat_timeout (nmap n2)) with (n_heartbeat_timeout n2).
  change (n_heartbeat_elapsed (nmap n2)) with (n_heartbeat_elapsed n2).
  destruct (_ <=? _); [|done]. exact (broadcast_append_hom (n2 <| n_heartbeat_elapsed := 0 |>)).
Qed.

(** * The handlers *)

Lemma handle_request_vote_hom from t li lt n :
  handle_request_vote from t li lt (nmap n) = nmap (handle_request_vote from t li lt n).
Proof.
  unfold handle_request_vote, last_log_term. hom_reads.
  change (n_current_term (nmap n)) with (n_current_term n).
  change (n_voted_for (nmap n)) with (n_voted_for n).
  destruct (n_current_term n <=? t); [|done]. cbn zeta. destruct (_ && _); [|done].
  change ((nmap n) <| n_voted_for := Some from |>) with (nmap (n <| n_voted_for := Some from |>)).
  by rewrite persist_hom.
Qed.

Lemma handle_request_vote_resp_hom from t g n :
  handle_request_vote_resp from t g (nmap n) = nmap (handle_request_vote_resp from t g n).
Proof.
  unfold handle_request_vote_resp. hom_if; [done|]. hom_if; [|done]. cbn zeta.
  set (m := n <| n_votes := {[from]} ∪ n_votes n |>).
  change ((nmap n) <| n_votes := {[from]} ∪ n_votes (nmap n) |>) with (nmap m). clearbody m.
  hom_if; [|done]. apply become_leader_hom.
Qed.

Lemma handle_timeout_now_hom t n : handle_timeout_now t (nmap n) = nmap (handle_timeout_now t n).
Proof. unfold handle_timeout_now. hom_if; [done|]. apply start_election_hom. Qed.

Lemma splice_hom base prev k es s :
  splice base prev k es (f s) = let '(s', a) := splice base prev k es s in (f s', a).
Proof.
  revert k. induction es as [|e es IH]; intros k; [done|]. cbn [splice]. cbn zeta.
  rewrite hom_last, hom_term. destruct (_ <=? base); [apply IH|].
  destruct (_ <=? st_last_index s); [|done]. destruct (negb _); [|apply IH]. by rewrite (hom_truncate (f := f)).
Qed.

Lemma handle_append_entries_hom from t pi pt es lc rr n :
  handle_append_entries from t pi pt es lc rr (nmap n)
  = nmap (handle_append_entries from t pi pt es lc rr n).
Proof.
  unfold handle_append_entries. hom_if; [done|]. cbn zeta.
  set (m := reset_election_timer (n <| n_role := Follower |> <| n_leader_id := Some from |>)).
  change (reset_election_timer ((nmap n) <| n_role := Follower |> <| n_leader_id := Some from |>))
    with (nmap m).
  clearbody m. hom_reads. hom_if; [done|]. hom_if; [done|]. rewrite splice_hom.
  destruct (splice _ _ _ _ (n_storage m)) as [s a].
  destruct a as [k|].
  - cbn [n_storage set_field]. rewrite <- !(hom_append (f := f)).
    match goal with |- context [recompute_conf ?x] =>
      match type of x with RaftNode S1 => set (m2 := x) end end.
    match goal with |- context [recompute_conf ?x] =>
      match type of x with RaftNode S2 => change x with (nmap m2) end end.
    rewrite !recompute_conf_hom.
    match goal with |- context [nmap (recompute_conf m2)] => set (m3 := recompute_conf m2) end.
    change (n_commit_index (nmap m3)) with (n_commit_index m3). clearbody m3. by destruct (_ <? lc).
  - change (n_commit_index ((nmap m) <| n_storage := f s |>)) with (n_commit_index m).
    change (n_commit_index (m <| n_storage := s |>)) with (n_commit_index m). by destruct (_ <? lc).
Qed.

Lemma fire_timeout_now_hom t n : fire_timeout_now t (nmap n) = nmap (fire_timeout_now t n).
Proof. done. Qed.

Lemma handle_append_resp_hom from t ok mi rr n :
  handle_append_resp from t ok mi rr (nmap n) = nmap (handle_append_resp from t ok mi rr n).
Proof.
  unfold handle_append_resp. hom_if; [done|]. cbn zeta. rewrite <- advance_reads_hom. f_equal.
  hom_if.
  - match goal with |- context [maybe_advance_commit ?x] =>
      match type of x with RaftNode S1 => set (m1 := x) end end.
    match goal with |- context [maybe_advance_commit ?x] =>
      match type of x with RaftNode S2 => change x with (nmap m1) end end.
    rewrite !maybe_advance_commit_hom. clearbody m1.
    match goal with |- context [nmap (maybe_advance_commit m1)] => set (m2 := maybe_advance_commit m1) end.
    clearbody m2. hom_reads. by hom_if.
  - match goal with |- send_append _ ?x = nmap (send_append _ ?y) => change x with (nmap y) end.
    apply send_append_hom.
Qed.

Lemma handle_install_snapshot_hom from t li lt cs ls d n :
  handle_install_snapshot from t li lt cs ls d (nmap n)
  = nmap (handle_install_snapshot from t li lt cs ls d n).
Proof.
  unfold handle_install_snapshot. hom_if; [done|]. cbn zeta.
  set (m := reset_election_timer (n <| n_role := Follower |> <| n_leader_id := Some from |>)).
  change (reset_election_timer ((nmap n) <| n_role := Follower |> <| n_leader_id := Some from |>))
    with (nmap m).
  clearbody m. hom_if; [done|]. hom_reads. rewrite <- hom_apply.
  set (m1 := m <| n_storage := st_apply_snapshot (mkSnapshot li lt cs ls d) (n_storage m) |>
    <| n_commit_index := li |> <| n_last_applied := li |> <| n_pending_snapshot := Some (li, d) |>).
  match goal with |- context [recompute_conf ?x] =>
    match type of x with RaftNode S2 => change x with (nmap m1) end end.
  by rewrite recompute_conf_hom.
Qed.

Lemma handle_install_snapshot_resp_hom from t mi n :
  handle_install_snapshot_resp from t mi (nmap n) = nmap (handle_install_snapshot_resp from t mi n).
Proof.
  unfold handle_install_snapshot_resp. hom_if; [done|]. cbn zeta.
  match goal with |- maybe_advance_commit ?x = nmap (maybe_advance_commit ?y) =>
    change x with (nmap y) end.
  apply maybe_advance_commit_hom.
Qed.

Lemma dispatch_hom msg n : dispatch msg (nmap n) = nmap (dispatch msg n).
Proof.
  unfold dispatch. destruct (m_body msg).
  - apply handle_request_vote_hom.
  - apply handle_request_vote_resp_hom.
  - apply handle_append_entries_hom.
  - apply handle_append_resp_hom.
  - apply handle_install_snapshot_hom.
  - apply handle_install_snapshot_resp_hom.
  - apply handle_timeout_now_hom.
Qed.

Lemma step_hom msg n : step msg (nmap n) = nmap (step msg n).
Proof.
  unfold step. change (n_current_term (nmap n)) with (n_current_term n). cbn zeta.
  destruct (_ <? _); [|apply dispatch_hom]. rewrite become_follower_hom. apply dispatch_hom.
Qed.

(** * The driver's calls *)

Lemma append_own_hom e i n : append_own e i (nmap n) = nmap (append_own e i n).
Proof. unfold append_own, nmap. cbn. by rewrite hom_append. Qed.

(** The result of a call, with the node mapped. *)
Definition rmap {A} (r : A * RaftNode S1) : A * RaftNode S2 := (r.1, nmap r.2).

Lemma propose_hom d n : propose d (nmap n) = rmap (propose d n).
Proof.
  unfold propose. change (is_leader (nmap n)) with (is_leader n). destruct (negb _); [done|].
  change (n_transfer_target (nmap n)) with (n_transfer_target n). destruct (n_transfer_target n); [done|].
  cbn zeta. hom_reads. change (n_current_term (nmap n)) with (n_current_term n).
  by rewrite append_own_hom, maybe_advance_commit_hom, broadcast_append_hom.
Qed.

Lemma read_index_hom c n : read_index c (nmap n) = rmap (read_index c n).
Proof.
  unfold read_index. change (is_leader (nmap n)) with (is_leader n). destruct (negb _); [done|]. cbn zeta.
  match goal with |- context [broadcast_append ?x] =>
    match type of x with RaftNode S1 => set (m := x) end end.
  match goal with |- context [broadcast_append ?x] =>
    match type of x with RaftNode S2 => change x with (nmap m) end end.
  by rewrite broadcast_append_hom, advance_reads_hom.
Qed.

Lemma propose_conf_change_hom cc n : propose_conf_change cc (nmap n) = rmap (propose_conf_change cc n).
Proof.
  unfold propose_conf_change, has_pending_conf_change. hom_reads.
  change (is_leader (nmap n)) with (is_leader n). destruct (negb _); [done|].
  change (n_transfer_target (nmap n)) with (n_transfer_target n). destruct (n_transfer_target n); [done|].
  change (n_commit_index (nmap n)) with (n_commit_index n). destruct (existsb _ _); [done|].
  change (n_id (nmap n)) with (n_id n).
  destruct (match cc with RemoveNode id => _ | _ => _ end); [done|].
  change (n_voters (nmap n)) with (n_voters n). change (n_learners (nmap n)) with (n_learners n).
  destruct (apply_conf_change _ _ _) as [v l]. cbn zeta.
  change (n_current_term (nmap n)) with (n_current_term n).
  rewrite append_own_hom, recompute_conf_hom. set (m := recompute_conf _). clearbody m.
  unfold rmap. cbn [fst snd]. f_equal. rewrite <- broadcast_append_hom, <- maybe_advance_commit_hom.
  by destruct cc.
Qed.

Lemma transfer_leadership_hom t n : transfer_leadership t (nmap n) = rmap (transfer_leadership t n).
Proof.
  unfold transfer_leadership. change (is_leader (nmap n)) with (is_leader n). destruct (negb _); [done|].
  change (n_voters (nmap n)) with (n_voters n). change (n_id (nmap n)) with (n_id n).
  destruct (_ || _); [done|]. cbn zeta. set (m := n <| n_transfer_target := _ |> <| n_transfer_elapsed := 0 |>).
  change ((nmap n) <| n_transfer_target := Some t |> <| n_transfer_elapsed := 0 |>) with (nmap m).
  unfold rmap. cbn [fst snd]. f_equal. unfold progress. hom_reads.
  change (is_leader (nmap m)) with (is_leader m). change (n_match_index (nmap m)) with (n_match_index m).
  clearbody m. hom_if; [done|]. apply send_append_hom.
Qed.

Lemma take_committed_hom n : take_committed (nmap n) = rmap (take_committed n).
Proof.
  unfold take_committed. hom_reads. change (n_commit_index (nmap n)) with (n_commit_index n).
  change (n_last_applied (nmap n)) with (n_last_applied n). by destruct (_ <=? _).
Qed.

Lemma do_call_hom c n : do_call c (nmap n) = nmap (do_call c n).
Proof.
  destruct c; cbn [do_call]; try done.
  - apply tick_hom.
  - apply step_hom.
  - by rewrite propose_hom.
  - by rewrite read_index_hom.
  - by rewrite propose_conf_change_hom.
  - by rewrite transfer_leadership_hom.
  - by rewrite take_committed_hom.
Qed.

Lemma compact_hom i d n : compact i d (nmap n) = nmap <$> compact i d n.
Proof.
  unfold compact. hom_reads. rewrite conf_at_hom. change (n_last_applied (nmap n)) with (n_last_applied n).
  destruct (_ || _); [done|]. destruct (st_term i (n_storage n)) as [t|]; [|done]. cbn.
  destruct (conf_at i n) as [v l]. cbn. unfold nmap. cbn. by rewrite hom_compact.
Qed.

Lemma new_hom cfg s : RaftNode_new cfg (f s) = nmap (RaftNode_new cfg s).
Proof.
  unfold RaftNode_new. rewrite <- recompute_conf_hom, hom_hard. f_equal.
Qed.

Lemma do_calls_hom cs n : do_calls cs (nmap n) = nmap (do_calls cs n).
Proof. apply (nmap_fold (λ n c, do_call c n)). intros m c. apply do_call_hom. Qed.
End Hom.

(** * Theorems

    Properties of Raft's durable storage ([raft-wal/src/lib.rs]) and of a node that
    runs on it, with their witnesses. *)

Section Theorems.
Context `{Crc32c, !Crc32cLaws}.

(** The same operation on the in-memory store. *)
Definition ms_exec (op : wop) (m : MemStorage) : MemStorage :=
  match op with
  | WSave hs => st_save_hard_state hs m
  | WAppend es => ms_append es m
  | WTruncate from => ms_truncate_suffix from m
  | WCompact i t cs ls d => ms_compact i t cs ls d m
  | WApply sn => ms_apply_snapshot sn m
  end.

(** What a crash during [op] may leave of a store that held [m]. *)
Definition surviving (m : MemStorage) (op : wop) (m' : MemStorage) : Prop :=
  m' = m ∨ m' = ms_exec op m ∨
  match op with
  | WAppend es => ∃ k, m' = ms_append (take k es) m
  | WApply sn => m' = mkMemStorage (ms_hard m)
      (List.filter (above (sn_last_included_index sn)) (ms_log m)) (Some sn)
  | _ => False
  end.

Lemma ws_mem_exec op s : ws_mem (ws_exec op s) = ms_exec op (ws_mem s).
Proof.
  destruct op; cbn [ws_exec ms_exec]; [done| | | |done].
  - apply ws_mem_append.
  - apply ws_mem_truncate.
  - apply ws_mem_compact.
Qed.

(** ** Executions: calls that return, and calls a crash interrupts *)

Inductive wevent := WDone (op : wop) | WCrash (op : wop).

(** What the node calls: representable, and appended at the end. *)
Definition wcall_ok (s : WalStorage) (op : wop) : Prop :=
  op_ok s op ∧ match op with WAppend es => ms_wf (ms_append es (ws_mem s)) | _ => True end.

Inductive wstep (dirsync : bool) (s : WalStorage) : wevent → WalStorage → Prop :=
  | wstep_done op : wcall_ok s op → wstep dirsync s (WDone op) (ws_exec op s)
  | wstep_crash op d : wcall_ok s op → crash_disk dirsync s op d → wstep dirsync s (WCrash op) (wal_open d).

Inductive mstep (m : MemStorage) : wevent → MemStorage → Prop :=
  | mstep_done op : mstep m (WDone op) (ms_exec op m)
  | mstep_crash op m' : surviving m op m' → mstep m (WCrash op) m'.

Inductive events {S : Type} (step : S → wevent → S → Prop) : S → list wevent → S → Prop :=
  | events_nil s : events step s [] s
  | events_cons s e s1 evs s' : step s e s1 → events step s1 evs s' → events step s (e :: evs) s'.

(** The hard states the calls were to save. *)
Definition saved (evs : list wevent) : list HardState :=
  omap (λ e, match e with WDone (WSave hs) | WCrash (WSave hs) => Some hs | _ => None end) evs.

Lemma surviving_wf s op m :
  ms_wf (ws_mem s) → wcall_ok s op → surviving (ws_mem s) op m → ms_wf m.
Proof.
  intros Hm [Ho Hc] Hr. assert (Hw : wop_wf s op) by (split; [done|by destruct op]).
  assert (Hwx := wop_wf_exec s op Hw). rewrite ws_mem_exec in Hwx. destruct Hr as [->|[->|Hr]]; [done|done|].
  destruct op as [|es|from|i t cs ls d|sn]; try done.
  - destruct Hr as [k ->]. by apply ms_wf_take_append.
  - rewrite Hr. intros k e. cbn. destruct Ho as [_ Hb].
    rewrite (filter_above_drop (ws_base s) _ (ws_log s) Hb Hm), lookup_drop.
    intros Hk%Hm. change (ms_base (ws_mem s)) with (ws_base s) in Hk. lia.
Qed.

Lemma wstep_mstep s e s' : ws_ok s → ms_wf (ws_mem s) → wstep true s e s' →
  ws_ok s' ∧ ms_wf (ws_mem s') ∧ mstep (ws_mem s) e (ws_mem s').
Proof.
  intros Hs Hm [op [Ho Hc]|op d [Ho Hc] Hd].
  - split; [by apply ws_exec_ok|]. split; [apply wop_wf_exec; split; [done|by destruct op]|].
    rewrite ws_mem_exec. constructor.
  - destruct (wal_crash_recovers s op d) as [Hok Hr]; [done|split; [done|by destruct op]|done..|].
    assert (Hv : surviving (ws_mem s) op (ws_mem (wal_open d))).
    { unfold surviving. rewrite <- ws_mem_exec. exact Hr. }
    split; [done|]. split; [by eapply surviving_wf|by constructor].
Qed.

Lemma wexec_mexec evs s s' : ws_ok s → ms_wf (ws_mem s) → events (wstep true) s evs s' →
  events mstep (ws_mem s) evs (ws_mem s').
Proof.
  intros Hs Hm He. induction He as [s|s e s1 evs s' Hst He IH]; [constructor|].
  destruct (wstep_mstep s e s1) as (? & ? & ?); [done..|]. econstructor; [done|by apply IH].
Qed.

(** ** Hard states are never torn *)

Definition hard_from (known : list HardState) (o : option File) : Prop :=
  match o with
  | Some f => ∃ hs, hs ∈ known ∧ hard_wf hs ∧ f = file_sync (mkFile (encode_hard_state hs) 0)
  | None => True
  end.

Definition hards_from (known : list HardState) (s : WalStorage) : Prop :=
  hard_from known (sl_file (ws_hard_file s)) ∧ Forall (hard_from known) (sl_past (ws_hard_file s)) ∧
  ws_hard s ∈ HardState_default :: known.

Lemma hard_from_mono known known' o : known ⊆ known' → hard_from known o → hard_from known' o.
Proof. intros Hk. destruct o as [f|]; [|done]. intros (hs & ? & ?). exists hs. auto. Qed.

Lemma hards_from_mono known known' s : known ⊆ known' → hards_from known s → hards_from known' s.
Proof.
  intros Hk (Hn & Hp & Hh). split_and!; [by eapply hard_from_mono| |set_solver].
  eapply Forall_impl; [exact Hp|]. intros o. by apply hard_from_mono.
Qed.

(** The mirror's other fields do not matter. *)
Lemma hards_from_eq known s s' : ws_hard s' = ws_hard s → ws_hard_file s' = ws_hard_file s →
  hards_from known s → hards_from known s'.
Proof. unfold hards_from. by intros -> ->. Qed.

Definition saving (op : wop) : list HardState := match op with WSave hs => [hs] | _ => [] end.

Lemma hards_from_exec known s op : wcall_ok s op → hards_from known s →
  hards_from (saving op ++ known) (ws_exec op s).
Proof.
  intros [Ho _] Hs. destruct op as [hs|es|from|i t cs ls d|sn]; cbn [saving app ws_exec].
  - apply (hards_from_mono _ (hs :: known)) in Hs as (Hn & Hp & _); [|set_solver]. split_and!.
    + exists hs. split; [set_solver|done].
    + by constructor.
    + cbn. set_solver.
  - by eapply hards_from_eq, Hs.
  - unfold ws_truncate_suffix. destruct (_ <=? _)%nat; [done|]. by eapply hards_from_eq, Hs.
  - unfold ws_compact. destruct (_ <=? _); [done|]. by eapply hards_from_eq, Hs.
  - by eapply hards_from_eq, Hs.
Qed.

Lemma hards_from_during known s op s' : wcall_ok s op → hards_from known s → during s op s' →
  hards_from (saving op ++ known) s'.
Proof.
  intros Ho Hs Hd. destruct Hd as [op|op|es j|es j e n He|i t cs ls d Hi|sn]; [|by apply hards_from_exec|..];
    (eapply hards_from_mono, hards_from_eq, Hs; [set_solver|done..]).
Qed.

Lemma hard_from_read known sl : hard_from known (sl_file sl) →
  match slot_bytes sl with Some b => decode_hard_state b | None => HardState_default end ∈ HardState_default :: known.
Proof.
  unfold slot_bytes. destruct (sl_file sl) as [f|]; [|set_solver].
  intros (hs & Hk & Hw & ->). cbn [fmap option_fmap option_map file_sync fl_data].
  rewrite decode_encode_hard by done. set_solver.
Qed.

Lemma hard_left dirsync known sl sl' :
  hard_from known (sl_file sl) → Forall (hard_from known) (sl_past sl) → slot_left dirsync sl sl' →
  hard_from known (sl_file sl') ∧ Forall (hard_from known) (sl_past sl').
Proof.
  intros Hn Hp [|f n Hf Hlen|]; [done| |done].
  assert (hard_from known (Some f)) as (hs & Hk & Hw & ->).
  { destruct Hf as [<-|[_ Hf]]; [done|]. rewrite Forall_forall in Hp. by apply Hp. }
  split; [|constructor]. exists hs. split; [done|]. split; [done|]. cbn [file_sync fl_data].
  replace n with (length (encode_hard_state hs)) by (cbn [file_sync fl_data fl_synced] in Hlen; lia). by rewrite firstn_all.
Qed.

Lemma hards_from_step dirsync known s e s' : hards_from known s → wstep dirsync s e s' →
  hards_from (saved [e] ++ known) s'.
Proof.
  intros Hs [op Ho|op d Ho [s1 Hd _ Hh _]].
  - apply (hards_from_mono (saving op ++ known)); [by destruct op|]. by apply hards_from_exec.
  - apply (hards_from_mono (saving op ++ known)); [by destruct op|].
    destruct (hards_from_during known s op s1 Ho Hs Hd) as (Hn & Hp & _).
    destruct (hard_left _ _ _ _ Hn Hp Hh) as [Hn' Hp'].
    assert (E : ws_hard (wal_open d) = match slot_bytes (rd_hard d) with Some b => decode_hard_state b | None => HardState_default end ∧
      ws_hard_file (wal_open d) = rd_hard d).
    { unfold wal_open. destruct (slot_bytes (rd_log d)); [by destruct (open_loop _ _ _)|done]. }
    destruct E as [E1 E2]. split_and!; rewrite ?E1, ?E2; [done|done|by apply hard_from_read].
Qed.

Lemma hards_from_events dirsync known s evs s' : hards_from known s → events (wstep dirsync) s evs s' →
  hards_from (saved evs ++ known) s'.
Proof.
  intros Hs He. revert known Hs. induction He as [s|s e s1 evs s' Hst He IH]; intros known Hs; [done|].
  eapply hards_from_mono, IH; [|by eapply hards_from_step].
  change (e :: evs) with ([e] ++ evs). unfold saved. rewrite omap_app. set_solver.
Qed.

(** C24. Over any calls of Raft's durable storage and any crashes in the middle of one (of the
    process, or of the machine, which loses bytes not yet synced), starting on an empty
    directory: the hard state is always one that was saved, never a torn one; and where
    directory changes are durable when they return ([dirsync]: the code renames and never
    syncs the directory), the storage is the in-memory one: no completed call is lost, and a call
    that a crash interrupts has happened, or not, or was an append of which a prefix is left, or a
    snapshot installed over the old log. *)
Theorem raft_storage_crash_safe dirsync evs s :
  events (wstep dirsync) (wal_open empty_dir) evs s →
  ws_hard s ∈ HardState_default :: saved evs ∧
  (dirsync = true → events mstep MemStorage_new evs (ws_mem s)).
Proof.
  intros He. destruct wal_open_empty as [Hok M0]. split.
  - rewrite <- (app_nil_r (saved evs)). apply (hards_from_events dirsync [] (wal_open empty_dir)); [|done].
    split_and!; [done|constructor|set_solver].
  - intros ->. rewrite <- M0. apply wexec_mexec; [done|by rewrite M0|done].
Qed.

(** A node on the durable storage goes through the states a node on the
    in-memory storage goes through: the same roles, terms, votes, logs, messages,
    committed entries and read confirmations, for any sequence of driver calls. *)
Lemma durable_node_refines cfg (s : WalStorage) (calls : list call) :
  let n := do_calls calls (RaftNode_new cfg s) in
  let m := do_calls calls (RaftNode_new cfg (ws_mem s)) in
  nmap ws_mem n = m ∧ (take_messages n).1 = (take_messages m).1 ∧
  (take_committed n).1 = (take_committed m).1 ∧
  ∀ data, (propose data n).1 = (propose data m).1 ∧
          nmap ws_mem (propose data n).2 = (propose data m).2.
Proof.
  intros n m. pose proof ws_mem_hom as Hh.
  assert (E : m = nmap ws_mem n) by exact (eq_trans (f_equal (do_calls calls) (new_hom ws_mem cfg s))
    (do_calls_hom ws_mem calls (RaftNode_new cfg s))).
  rewrite E. split; [done|]. split; [done|]. split; [by rewrite take_committed_hom|].
  intros data. by rewrite propose_hom.
Qed.

(** Log entries, the hard state, snapshots and membership changes decode from the
    bytes they are stored as to what they were. *)
Lemma raft_codecs_roundtrip e hs sn cc voters learners :
  entry_wf e → hard_wf hs → snap_wf sn →
  is_u64 (cc_node_id cc) → members_wf voters → members_wf learners →
  decode_entry (e_index e) (encode_entry e) = Some e ∧
  decode_hard_state (encode_hard_state hs) = hs ∧
  decode_snapshot (encode_snapshot sn) = Some sn ∧
  cc_decode (cc_encode cc voters learners) = Some (cc, voters, learners).
Proof.
  intros He Hh Hs Hc Hv Hl. split_and!; [by apply decode_encode_entry|by apply decode_encode_hard
    |by apply decode_encode_snapshot|by apply cc_decode_encode].
Qed.
End Theorems.

(** * Witnesses *)

Definition ex_e1 : Entry := mkEntry 7 1 Normal [x61].
Definition ex_e2 : Entry := mkEntry 7 2 ConfChangeEntry [x62; x62].

Definition ex_sn : Snapshot := mkSnapshot 1 7 [1; 2; 3] [9] [x53].

Lemma ex_members (l : list N) :
  bool_decide (N.of_nat (length l) ≤ u32_max) = true → forallb (λ x, x <=? u64_max) l = true → members_wf l.
Proof.
  intros Hl%bool_decide_eq_true Hf. split; [exact Hl|].
  apply Forall_forall. intros x Hx. rewrite forallb_forall in Hf. apply N.leb_le, Hf. by apply list_elem_of_In.
Qed.

(** Contiguity, by evaluation. *)
Definition ms_wfb (m : MemStorage) : bool :=
  forallb (λ p, e_index p.2 =? ms_base m + N.of_nat p.1 + 1) (imap pair (ms_log m)).

Lemma ms_wfb_ok m : ms_wfb m = true → ms_wf m.
Proof.
  unfold ms_wfb. rewrite forallb_forall. intros Hf k e Hk.
  apply N.eqb_eq, (Hf (k, e)), list_elem_of_In, elem_of_lookup_imap. by exists k, e.
Qed.

(** A vote, an append, and an append whose machine dies with five of its bytes written. *)
Definition ex_vote : wop := WSave (mkHardState 7 (Some 3)).
Definition ex_first : wop := WAppend [ex_e1; ex_e2].
Definition ex_last : Entry := mkEntry 8 3 Normal [x63].
Definition ex_store : WalStorage := ws_exec ex_first (ws_exec ex_vote (wal_open empty_dir)).
Definition ex_torn : WalStorage :=
  ex_store <| ws_writer := (wal_append (ws_writer ex_store) 3 (encode_entry ex_last) (Some 5%nat)).1 |>.
Definition ex_left : RaftDisk :=
  mkRaftDisk (mkSlot (Some (mkFile (wf_data (ws_writer ex_torn)) (length (wf_data (ws_writer ex_torn))))) [])
    (ws_hard_file ex_store) (ws_snap_file ex_store).

Ltac by_wf := repeat constructor; try (by apply ms_wfb_ok; vm_compute); vm_compute; (reflexivity || discriminate).

Lemma ex_vote_ok : wcall_ok (wal_open empty_dir) ex_vote.
Proof. split; [|done]. split; [vm_compute; discriminate|]. intros v [= <-]. vm_compute. discriminate. Qed.

Lemma raft_storage_crash_safe_witness :
  ws_hard (wal_open ex_left) = mkHardState 7 (Some 3) ∧
  ws_log (wal_open ex_left) = [ex_e1; ex_e2] ∧
  events mstep MemStorage_new [WDone ex_vote; WDone ex_first; WCrash (WAppend [ex_last])] (ws_mem (wal_open ex_left)).
Proof.
  split; [by vm_compute|]. split; [by vm_compute|].
  apply (raft_storage_crash_safe true); [|done].
  eapply events_cons; [constructor; exact ex_vote_ok|].
  eapply events_cons; [constructor; by_wf|].
  eapply events_cons; [|apply events_nil]. apply wstep_crash; [by_wf|].
  apply (crash_at _ _ _ _ ex_torn).
  - exact (during_write ex_store [ex_last] 0 ex_last 5 eq_refl).
  - apply (left_file true (log_slot ex_torn) (mkFile (wf_data (ws_writer ex_torn)) (wf_synced (ws_writer ex_torn)))
      (length (wf_data (ws_writer ex_torn)))); [by left|]. cbn [fl_synced fl_data]. vm_compute. lia.
  - apply left_same.
  - apply left_same.
Defined.

(** Without a sync of the directory a vote that was saved, and answered, can be forgotten: the
    rename may not have reached the disk. *)
Lemma rename_may_be_lost :
  ∃ s, events (wstep false) (wal_open empty_dir) [WDone ex_vote; WCrash (WTruncate 1)] s ∧
       ws_hard s = HardState_default.
Proof.
  set (s1 := ws_exec ex_vote (wal_open empty_dir)).
  exists (wal_open (mkRaftDisk (log_slot s1) slot_none (ws_snap_file s1))). split; [|by vm_compute].
  eapply events_cons; [constructor; exact ex_vote_ok|].
  eapply events_cons; [|apply events_nil]. apply wstep_crash; [done|].
  apply (crash_at _ _ _ _ s1); [constructor|constructor| |constructor].
  apply left_none. right. split; [done|]. cbn. set_solver.
Qed.

Lemma raft_codecs_roundtrip_witness :
  decode_entry 1 (encode_entry ex_e1) = Some ex_e1 ∧
  decode_hard_state (encode_hard_state (mkHardState 7 (Some 3))) = mkHardState 7 (Some 3) ∧
  decode_snapshot (encode_snapshot ex_sn) = Some ex_sn ∧
  cc_decode (cc_encode (AddLearner 9) [1; 2; 3] [9]) = Some (AddLearner 9, [1; 2; 3], [9]).
Proof.
  apply (raft_codecs_roundtrip ex_e1 (mkHardState 7 (Some 3)) ex_sn (AddLearner 9) [1; 2; 3] [9]).
  - repeat split; vm_compute; discriminate.
  - split; [vm_compute; discriminate|]. intros v [= <-]. vm_compute. discriminate.
  - split; [vm_compute; discriminate|]. split; [vm_compute; discriminate|].
    split; apply ex_members; vm_compute; reflexivity.
  - vm_compute. discriminate.
  - apply ex_members; vm_compute; reflexivity.
  - apply ex_members; vm_compute; reflexivity.
Defined.
