(* ===== verification/Cursor.v ===== *)
(** Shared by the codecs of [pd/] and [server/]: cursor readers, functions of a buffer and a
    position that return a value and the position after it, as the [get_*(buf, &mut pos)?]
    helpers of [pd/src/persist.rs] and [server/src/raft_cmd.rs] do, with the laws by which a
    codec's round trip follows its shape; and ordered maps ([BTreeMap]). *)

From stdpp Require Import base list numbers sorting.
From Stdlib Require Import Strings.Byte Sorting.Sorted.
From S2P Require Import Prelude Encoding.

Definition Parser (A : Type) : Type := bytes → nat → option (A * nat).

#[export] Instance parser_ret : MRet Parser := λ A a _ pos, Some (a, pos).
#[export] Instance parser_bind : MBind Parser := λ A B k g buf pos,
  match g buf pos with Some (a, pos) => k a buf pos | None => None end.

(** [opt?] inside a reader. *)
Definition plift {A} (o : option A) : Parser A := λ _ pos, (λ a, (a, pos)) <$> o.

Definition get_u32 : Parser N := λ buf pos,
  let end_ := (pos + 4)%nat in
  if (length buf <? end_)%nat then None else Some (be_N (slice pos end_ buf), end_).

Definition get_u64 : Parser N := λ buf pos,
  let end_ := (pos + 8)%nat in
  if (length buf <? end_)%nat then None else Some (be_N (slice pos end_ buf), end_).

Definition get_bytes : Parser bytes := λ buf pos,
  match get_u32 buf pos with
  | None => None
  | Some (len, pos) =>
    let end_ := (pos + N.to_nat len)%nat in
    if (length buf <? end_)%nat then None else Some (slice pos end_ buf, end_)
  end.

(** [*buf.get(pos)?] followed by [pos += 1]. *)
Definition get_byte : Parser byte := λ buf pos, (λ b, (b, S pos)) <$> (buf !! pos).

(** [for _ in 0..n { out.push(g(buf, &mut pos)?) }]. *)
Fixpoint get_many {A} (n : nat) (g : Parser A) : Parser (list A) :=
  match n with
  | O => mret []
  | S n => x ← g; xs ← get_many n g; mret (x :: xs)
  end.

(** * UTF-8 ([String::from_utf8]) *)

Definition byte_in (lo hi : N) (b : byte) : bool := (lo <=? Byte.to_N b) && (Byte.to_N b <=? hi).
Definition utf8_tail (b : byte) : bool := byte_in 128 191 b.

Fixpoint utf8_valid (b : bytes) : bool :=
  match b with
  | [] => true
  | x :: t =>
    if byte_in 0 127 x then utf8_valid t else
    match t with
    | [] => false
    | y :: t =>
      if byte_in 194 223 x then utf8_tail y && utf8_valid t else
      match t with
      | [] => false
      | z :: t =>
        if byte_in 224 239 x then
          byte_in (if byte_in 224 224 x then 160 else 128) (if byte_in 237 237 x then 159 else 191) y
          && utf8_tail z && utf8_valid t
        else
        match t with
        | [] => false
        | w :: t =>
          byte_in 240 244 x
          && byte_in (if byte_in 240 240 x then 144 else 128) (if byte_in 244 244 x then 143 else 191) y
          && utf8_tail z && utf8_tail w && utf8_valid t
        end
      end
    end
  end.

(** A [String] is its bytes. *)
Definition from_utf8 (b : bytes) : option bytes := if utf8_valid b then Some b else None.

(** * Inverting an encoding *)

(** Wherever [e] stands in a buffer, [g] reads [x] there and stops after it. *)
Definition reads {A} (g : Parser A) (x : A) (e : bytes) : Prop :=
  ∀ p s, g (p ++ e ++ s) (length p) = Some (x, (length p + length e)%nat).

Lemma reads_ret {A} (x : A) : reads (mret x) x [].
Proof. intros p s. unfold mret, parser_ret. by rewrite Nat.add_0_r. Qed.

Lemma reads_bind {A B} (g : Parser A) (k : A → Parser B) x y e1 e2 :
  reads g x e1 → reads (k x) y e2 → reads (g ≫= k) y (e1 ++ e2).
Proof.
  intros H1 H2 p s. unfold mbind, parser_bind. rewrite <- app_assoc, H1.
  specialize (H2 (p ++ e1) s). rewrite !length_app, <- app_assoc in H2. rewrite H2, length_app.
  by rewrite Nat.add_assoc.
Qed.

Lemma reads_lift {A} (o : option A) x : o = Some x → reads (plift o) x [].
Proof. intros -> p s. unfold plift. cbn. by rewrite Nat.add_0_r. Qed.

(** A last reader, with nothing left to read but what it returns. *)
Lemma reads_bind_ret {A B} (g : Parser A) (k : A → Parser B) x y e :
  reads g x e → reads (k x) y [] → reads (g ≫= k) y e.
Proof. intros H1 H2. rewrite <- (app_nil_r e). by eapply reads_bind. Qed.

Lemma reads_be (k : nat) (g : Parser N) n :
  g = (λ buf pos, if (length buf <? pos + k)%nat then None
                  else Some (be_N (slice pos (pos + k) buf), (pos + k)%nat)) →
  be_N (be_bytes k n) = n → reads g n (be_bytes k n).
Proof.
  intros -> Hn p s. cbn beta.
  destruct (Nat.ltb_spec (length (p ++ be_bytes k n ++ s)) (length p + k)) as [Hl|_].
  { rewrite !length_app, length_be_bytes in Hl. lia. }
  rewrite slice_app' by (rewrite ?length_be_bytes; lia). by rewrite Hn, length_be_bytes.
Qed.

Lemma reads_u64 n : is_u64 n → reads get_u64 n (u64_be n).
Proof. intros Hn. apply (reads_be 8); [done|by apply be_N_u64]. Qed.

Lemma reads_u32 n : is_u32 n → reads get_u32 n (u32_be n).
Proof. intros Hn. apply (reads_be 4); [done|by apply be_N_u32]. Qed.

(** A length or a count, cast to [u32] when written. *)
Lemma reads_count n : is_u32 n → reads get_u32 n (u32_be (as_u32 n)).
Proof. intros Hn. rewrite as_u32_id by done. by apply reads_u32. Qed.

Lemma reads_bytes b : fits b → reads get_bytes b (lp b).
Proof.
  intros Hf p s. unfold get_bytes, lp. rewrite <- app_assoc.
  rewrite (reads_count (N.of_nat (length b)) Hf p). rewrite length_be_bytes, Nat2N.id.
  set (c := u32_be _). assert (Hc : length c = 4%nat) by apply length_be_bytes.
  destruct (Nat.ltb_spec (length (p ++ c ++ b ++ s)) (length p + 4 + length b)) as [Hl|_].
  { rewrite !length_app in Hl. lia. }
  rewrite app_assoc, slice_app' by (rewrite length_app; lia). by rewrite length_app, Hc, Nat.add_assoc.
Qed.

Lemma reads_byte b : reads get_byte b [b].
Proof.
  intros p s. unfold get_byte. rewrite lookup_app_r, Nat.sub_diag by done. cbn. f_equal. f_equal. lia.
Qed.

Lemma reads_many {A} (g : Parser A) xs (enc : A → bytes) :
  Forall (λ x, reads g x (enc x)) xs → reads (get_many (length xs) g) xs (concat (enc <$> xs)).
Proof.
  induction 1 as [|x xs Hx _ IH]; [apply reads_ret|]. rewrite fmap_cons. cbn [length get_many concat].
  eapply reads_bind; [done|]. eapply reads_bind_ret; [done|]. apply reads_ret.
Qed.

(** A counted list: its length, then its elements. *)
Lemma reads_counted {A B} (g : Parser A) (k : list A → Parser B) xs (enc : A → bytes) y e :
  is_u32 (N.of_nat (length xs)) → Forall (λ x, reads g x (enc x)) xs → reads (k xs) y e →
  reads (n ← get_u32; xs ← get_many (N.to_nat n) g; k xs) y
    (u32_be (as_u32 (N.of_nat (length xs))) ++ concat (enc <$> xs) ++ e).
Proof.
  intros Hl Hx Hk. eapply reads_bind; [by apply reads_count|]. cbn beta. rewrite Nat2N.id.
  eapply reads_bind; [by apply reads_many|]. done.
Qed.

Lemma reads_u64s l : Forall (λ n, is_u64 n) l → reads (get_many (length l) get_u64) l (concat (u64_be <$> l)).
Proof. intros Hl. apply reads_many. eapply list.Forall_impl; [exact Hl|]. intros n. apply reads_u64. Qed.

(** A reader started at the beginning of a buffer that is exactly the encoding. *)
Lemma reads_all {A} (g : Parser A) x e : reads g x e → g e 0%nat = Some (x, length e).
Proof. intros H. specialize (H [] []). by rewrite app_nil_r in H. Qed.

(** * Ordered maps

    [BTreeMap<u64, V>] as an association list sorted by key, for the maps whose
    iteration order the program observes. *)

Abbreviation btree V := (list (N * V)).

Section BTree.
Context {V : Type}.
Implicit Types (m : btree V) (k : N).

Fixpoint bt_get k m : option V :=
  match m with
  | [] => None
  | (k', v) :: m => if k =? k' then Some v else bt_get k m
  end.

Fixpoint bt_insert k (v : V) m : btree V :=
  match m with
  | [] => [(k, v)]
  | (k', v') :: m' =>
    if k <? k' then (k, v) :: m
    else if k =? k' then (k, v) :: m'
    else (k', v') :: bt_insert k v m'
  end.

(** [BTreeMap::remove]. *)
Definition bt_remove k m : btree V := List.filter (λ p, negb (p.1 =? k)) m.

Definition bt_keys m : list N := fst <$> m.

(** Keys strictly ascending. *)
Definition bt_ok m : Prop := StronglySorted N.lt (bt_keys m).

Lemma bt_ok_cons k v m : bt_ok ((k, v) :: m) ↔ bt_ok m ∧ Forall (λ k', k < k') (bt_keys m).
Proof.
  unfold bt_ok, bt_keys. rewrite fmap_cons. split.
  - by inversion 1.
  - intros [? ?]. by constructor.
Qed.

Lemma bt_get_insert k v m k' :
  bt_get k' (bt_insert k v m) = if k' =? k then Some v else bt_get k' m.
Proof.
  induction m as [|[j w] m IH]; cbn; [done|].
  destruct (N.ltb_spec k j); [done|]. destruct (N.eqb_spec k j) as [->|]; cbn.
  - by destruct (k' =? j).
  - rewrite IH. destruct (N.eqb_spec k' j) as [->|]; [|done]. by destruct (N.eqb_spec j k); [lia|].
Qed.

Lemma bt_keys_insert k v m x : x ∈ bt_keys (bt_insert k v m) ↔ x = k ∨ x ∈ bt_keys m.
Proof.
  unfold bt_keys. induction m as [|[j w] m IH]; cbn [bt_insert].
  { rewrite fmap_cons, !elem_of_cons. done. }
  destruct (k <? j); [by rewrite !fmap_cons, !elem_of_cons|].
  destruct (N.eqb_spec k j) as [->|]; rewrite !fmap_cons, !elem_of_cons; cbn [fst]; [tauto|].
  rewrite IH. tauto.
Qed.

Lemma bt_insert_ok k v m : bt_ok m → bt_ok (bt_insert k v m).
Proof.
  induction m as [|[j w] m IH]; cbn [bt_insert]; intros Hm.
  { apply bt_ok_cons. split; [done|constructor]. }
  pose proof Hm as Hm'. apply bt_ok_cons in Hm as [Hm Hf].
  destruct (N.ltb_spec k j) as [Hlt|Hge].
  - apply bt_ok_cons. split; [done|]. unfold bt_keys. rewrite fmap_cons. constructor; [done|].
    eapply list.Forall_impl; [exact Hf|]. cbn. lia.
  - destruct (N.eqb_spec k j) as [->|Hne]; [done|]. apply bt_ok_cons. split; [by apply IH|].
    apply list.Forall_forall. intros x [->|Hx]%bt_keys_insert; [lia|].
    rewrite list.Forall_forall in Hf. by apply Hf.
Qed.

(** Inserting a key above all others appends it. *)
Lemma bt_insert_last k v m :
  Forall (λ k', k' < k) (bt_keys m) → bt_insert k v m = m ++ [(k, v)].
Proof.
  induction m as [|[j w] m IH]; cbn [bt_insert app]; [done|]. unfold bt_keys. rewrite fmap_cons.
  intros [Hj Hm]%Forall_cons. cbn in Hj. destruct (N.ltb_spec k j); [lia|].
  destruct (N.eqb_spec k j); [lia|]. by rewrite IH.
Qed.

(** Re-inserting the entries of a map in order rebuilds it. *)
Lemma bt_rebuild_from m acc :
  bt_ok (acc ++ m) → fold_left (λ a p, bt_insert p.1 p.2 a) m acc = acc ++ m.
Proof.
  revert acc. induction m as [|[k v] m IH]; intros acc Hok; cbn [fold_left]; [by rewrite app_nil_r|].
  cbn [fst snd]. rewrite bt_insert_last.
  - rewrite IH; [by rewrite <- app_assoc|]. by rewrite <- app_assoc.
  - unfold bt_ok, bt_keys in *. rewrite fmap_app, fmap_cons in Hok. clear IH.
    induction acc as [|[j w] acc IHa]; [constructor|]. rewrite fmap_cons in *. cbn [app fst] in *.
    inversion_clear Hok as [|? ? Hs Hf]. constructor; [|by apply IHa].
    rewrite list.Forall_app, Forall_cons in Hf. tauto.
Qed.

Lemma bt_rebuild m : bt_ok m → fold_left (λ a p, bt_insert p.1 p.2 a) m [] = m.
Proof. exact (bt_rebuild_from m []). Qed.

Lemma bt_get_In k v m : bt_get k m = Some v → (k, v) ∈ m.
Proof.
  induction m as [|[j w] m IH]; cbn; [done|]. destruct (N.eqb_spec k j) as [->|].
  - intros [= ->]. left.
  - intros ?. right. auto.
Qed.

Lemma bt_get_keys k m : is_Some (bt_get k m) ↔ k ∈ bt_keys m.
Proof.
  unfold bt_keys. induction m as [|[j w] m IH]; cbn [bt_get].
  { split; [by intros [??]|intros H; by apply not_elem_of_nil in H]. }
  rewrite fmap_cons, elem_of_cons. cbn [fst]. destruct (N.eqb_spec k j) as [->|].
  - split; [by left|eauto].
  - rewrite IH. tauto.
Qed.

Lemma bt_remove_cons k j w m : bt_remove k ((j, w) :: m) = if j =? k then bt_remove k m else (j, w) :: bt_remove k m.
Proof. unfold bt_remove. cbn. by destruct (j =? k). Qed.
#[local] Arguments bt_remove : simpl never.

Lemma bt_remove_absent k m : bt_get k m = None → bt_remove k m = m.
Proof.
  induction m as [|[j w] m IH]; cbn; [done|]. destruct (N.eqb_spec k j) as [->|]; [done|].
  intros. rewrite bt_remove_cons. destruct (N.eqb_spec j k); [lia|]. f_equal. by apply IH.
Qed.

Lemma bt_remove_above k m : Forall (λ k', k < k') (bt_keys m) → bt_remove k m = m.
Proof.
  induction m as [|[j w] m IH]; [done|]. unfold bt_keys. rewrite fmap_cons. intros [Hj Hm]%Forall_cons. cbn in Hj.
  rewrite bt_remove_cons. destruct (N.eqb_spec j k); [lia|]. f_equal. by apply IH.
Qed.

Lemma bt_remove_ok k m : bt_ok m → bt_ok (bt_remove k m).
Proof.
  induction m as [|[j w] m IH]; [done|]. intros [Hm Hf]%bt_ok_cons. rewrite bt_remove_cons. destruct (j =? k); [by apply IH|].
  apply bt_ok_cons. split; [by apply IH|]. rewrite list.Forall_forall in *. intros x Hx. apply Hf.
  unfold bt_keys, bt_remove in *. apply list_elem_of_fmap in Hx as (p & -> & Hp).
  apply list_elem_of_In, filter_In in Hp as [Hp%list_elem_of_In _]. by apply list_elem_of_fmap_2.
Qed.

(** A map is the entry of a key and the rest. *)
Lemma bt_remove_perm k v m : bt_ok m → bt_get k m = Some v → m ≡ₚ (k, v) :: bt_remove k m.
Proof.
  induction m as [|[j w] m IH]; [done|]. intros [Hm Hf]%bt_ok_cons. rewrite bt_remove_cons. cbn. destruct (N.eqb_spec k j) as [->|Hne].
  - intros [= ->]. rewrite N.eqb_refl. by rewrite bt_remove_above.
  - intros Hg. destruct (N.eqb_spec j k); [lia|]. rewrite (IH Hm Hg) at 1. apply Permutation_swap.
Qed.

Lemma bt_insert_perm k v m : bt_ok m → bt_insert k v m ≡ₚ (k, v) :: bt_remove k m.
Proof.
  induction m as [|[j w] m IH]; [done|]. intros [Hm Hf]%bt_ok_cons. cbn [bt_insert]. rewrite bt_remove_cons.
  destruct (N.ltb_spec k j) as [Hlt|Hge].
  - destruct (N.eqb_spec j k); [lia|]. rewrite bt_remove_above; [done|].
    eapply list.Forall_impl; [exact Hf|]. cbn. lia.
  - destruct (N.eqb_spec k j) as [->|Hne].
    + rewrite N.eqb_refl. by rewrite bt_remove_above.
    + destruct (N.eqb_spec j k); [lia|]. rewrite (IH Hm). apply Permutation_swap.
Qed.

Lemma bt_get_elem k v m : bt_ok m → (k, v) ∈ m → bt_get k m = Some v.
Proof.
  induction m as [|[j w] m IH]; [by intros _ ?%elem_of_nil|]. intros [Hm Hf]%bt_ok_cons. cbn.
  intros [[= <- <-]|Hin]%elem_of_cons; [by rewrite N.eqb_refl|]. destruct (N.eqb_spec k j) as [->|]; [|by apply IH].
  rewrite list.Forall_forall in Hf. assert (Hk : j ∈ bt_keys m) by exact (list_elem_of_fmap_2 fst _ _ Hin).
  apply Hf in Hk. lia.
Qed.

Lemma bt_filter_ok (f : N * V → bool) m : bt_ok m → bt_ok (List.filter f m).
Proof.
  induction m as [|[j w] m IH]; [done|]. intros [Hm Hf]%bt_ok_cons. cbn. destruct (f (j, w)); [|by apply IH].
  apply bt_ok_cons. split; [by apply IH|]. rewrite list.Forall_forall in *. intros x Hx. apply Hf.
  unfold bt_keys in *. apply list_elem_of_fmap in Hx as (p & -> & Hp).
  apply list_elem_of_In, filter_In in Hp as [Hp%list_elem_of_In _]. by apply list_elem_of_fmap_2.
Qed.
End BTree.
