(* ===== verification/PdRegion.v ===== *)
(** Regions and their registry ([pd/src/region.rs], with the file helpers of
    [pd/src/persist.rs]): the range-sharding table, its splits and merges, its file
    image, and the numeric table prefixes that fix region boundaries.

    Ids and epochs are unbounded naturals; [region_id] and the codecs keep their
    widths. *)

From stdpp Require Import base list numbers strings sorting.
From Stdlib Require Import Strings.Byte.
From S2P Require Import Prelude Encoding Cursor.

(** What [std::io::Error] carries here: its kind and the literal text. *)
Inductive IoError :=
  | InvalidInput (msg : string)
  | InvalidData (msg : string)
  | IoFailure.

Record Region := mkRegion {
  r_id : N;
  r_start : bytes;
  r_end : bytes;
  r_epoch : N;
}.

#[export] Instance region_eq_dec : EqDecision Region.
Proof. solve_decision. Defined.

Definition is_empty {A} (l : list A) : bool := match l with [] => true | _ => false end.

Definition r_contains (r : Region) (key : bytes) : bool :=
  bytes_leb (r_start r) key && (is_empty (r_end r) || bytes_ltb key (r_end r)).

Record RState := mkRState {
  rs_regions : list Region;
  rs_next_id : N;
}.

(** [reg_file]: the image of the [regions] file; [None] when there is no path. *)
Record RegionRegistry := mkRegistry {
  reg_state : RState;
  reg_file : option bytes;
}.

#[export] Instance eta_registry : Eta RegionRegistry := λ r, mkRegistry (reg_state r) (reg_file r).

Definition whole_keyspace (id : N) : Region := mkRegion id [] [] 1.

Definition in_memory : RegionRegistry := mkRegistry (mkRState [whole_keyspace 1] 2) None.

Definition empty_registry : RegionRegistry := mkRegistry (mkRState [] 1) None.

(** * The file image *)

Definition put_bytes (out b : bytes) : bytes :=
  out ++ u32_be (as_u32 (N.of_nat (length b))) ++ b.

Definition encode_region (out : bytes) (r : Region) : bytes :=
  let out := out ++ u64_be (r_id r) in
  let out := out ++ u64_be (r_epoch r) in
  let out := put_bytes out (r_start r) in
  put_bytes out (r_end r).

Definition encode_state (s : RState) : bytes :=
  let out := u64_be (rs_next_id s) in
  let out := out ++ u32_be (as_u32 (N.of_nat (length (rs_regions s)))) in
  fold_left encode_region (rs_regions s) out.

Definition decode_region : Parser Region :=
  id ← get_u64;
  epoch ← get_u64;
  start ← get_bytes;
  end_ ← get_bytes;
  mret (mkRegion id start end_ epoch).

Definition decode_state (buf : bytes) : option RState :=
  fst <$> (next_id ← get_u64;
           count ← get_u32;
           regions ← get_many (N.to_nat count) decode_region;
           mret (mkRState regions next_id)) buf 0%nat.

(** [atomic_write] succeeds or leaves the old image. *)
Definition persist (io : bool) (r : RegionRegistry) : (unit + IoError) * RegionRegistry :=
  match reg_file r with
  | None => (inl (), r)
  | Some _ => if io then (inl (), r <| reg_file := Some (encode_state (reg_state r)) |>)
              else (inr IoFailure, r)
  end.

(** * Opening *)

Definition region_id (node_id local : N) : N :=
  N.lor (u64_shl node_id 32) (N.land local 4294967295).

(** [file]: the image found in the directory. *)
Definition open_inner (file : option bytes) (bootstrap : bool) (empty_next_id : N) (io : bool)
    : RegionRegistry + IoError :=
  let state := match file with
               | Some b => match decode_state b with
                           | Some s => inl s
                           | None => inr (InvalidData "region table corrupt")
                           end
               | None => inl (if bootstrap then mkRState [whole_keyspace 1] 2
                              else mkRState [] empty_next_id)
               end in
  match state with
  | inr e => inr e
  | inl s =>
    match persist io (mkRegistry s (Some (default [] file))) with
    | (inl _, reg) => inl reg
    | (inr e, _) => inr e
    end
  end.

Definition registry_open (file : option bytes) (io : bool) : RegionRegistry + IoError :=
  open_inner file true 2 io.

Definition open_empty (file : option bytes) (node_id : N) (io : bool) : RegionRegistry + IoError :=
  open_inner file false (region_id node_id 1) io.

(** * Lookups *)

Definition route (key : bytes) (r : RegionRegistry) : option Region :=
  List.find (λ r, r_contains r key) (rs_regions (reg_state r)).

Definition by_id (id : N) (r : RegionRegistry) : option Region :=
  List.find (λ r, r_id r =? id) (rs_regions (reg_state r)).

Definition list_regions (r : RegionRegistry) : list Region := rs_regions (reg_state r).

(** * Changes *)

(** [Iterator::position]. *)
Fixpoint position {A} (p : A → bool) (l : list A) : option nat :=
  match l with
  | [] => None
  | x :: l => if p x then Some 0%nat else S <$> position p l
  end.

Definition split (io : bool) (split_key : bytes) (r : RegionRegistry)
    : ((Region * Region) + IoError) * RegionRegistry :=
  let g := reg_state r in
  match position (λ r, r_contains r split_key) (rs_regions g) with
  | None => (inr (InvalidInput "split_key is outside every region"), r)
  | Some idx =>
    match rs_regions g !! idx with
    | None => (inr (InvalidInput "split_key is outside every region"), r)
    | Some target =>
      if bytes_leb split_key (r_start target) then
        (inr (InvalidInput "split_key must be strictly greater than the region start"), r)
      else
      let new_epoch := r_epoch target + 1 in
      let right_id := rs_next_id g in
      let left := mkRegion (r_id target) (r_start target) split_key new_epoch in
      let right := mkRegion right_id split_key (r_end target) new_epoch in
      let regions := take idx (rs_regions g) ++ left :: right :: drop (S idx) (rs_regions g) in
      let '(res, r) := persist io (r <| reg_state := mkRState regions (right_id + 1) |>) in
      match res with
      | inl _ => (inl (left, right), r)
      | inr e => (inr e, r)
      end
    end
  end.

Definition merge (io : bool) (boundary : bytes) (r : RegionRegistry)
    : (Region + IoError) * RegionRegistry :=
  let g := reg_state r in
  match position (λ r, bool_decide (r_start r = boundary)) (rs_regions g) with
  | None => (inr (InvalidInput "boundary is not a region start"), r)
  | Some O => (inr (InvalidInput "the left-most region has no left neighbour to merge with"), r)
  | Some (S i) =>
    match rs_regions g !! i, rs_regions g !! S i with
    | Some l, Some r' =>
      let merged := mkRegion (r_id l) (r_start l) (r_end r') (N.max (r_epoch l) (r_epoch r') + 1) in
      let regions := take i (rs_regions g) ++ merged :: drop (S (S i)) (rs_regions g) in
      let '(res, r) := persist io (r <| reg_state := mkRState regions (rs_next_id g) |>) in
      match res with
      | inl _ => (inl merged, r)
      | inr e => (inr e, r)
      end
    | _, _ => (inr (InvalidInput "boundary is not a region start"), r)
    end
  end.

Definition start_le (a b : Region) : Prop := bytes_le (r_start a) (r_start b).
#[export] Instance start_le_dec a b : Decision (start_le a b).
Proof. unfold start_le. apply _. Defined.

(** [regions.iter().map(|r| r.id + 1).max().unwrap_or(1)]. *)
Definition max_next_id (regions : list Region) : N :=
  match regions with
  | [] => 1
  | r :: rest => fold_left (λ m r, N.max m (r_id r + 1)) rest (r_id r + 1)
  end.

Definition replace (regions : list Region) (r : RegionRegistry) : RegionRegistry :=
  let regions := merge_sort start_le regions in
  r <| reg_state := mkRState regions (N.max (rs_next_id (reg_state r)) (max_next_id regions)) |>.

Definition adopt (io : bool) (regions : list Region) (r : RegionRegistry)
    : (unit + IoError) * RegionRegistry :=
  persist io (replace regions r).

(** [encode_into], [decode_from]: the table inside a snapshot of PD. *)
Definition reg_encode_into (out : bytes) (r : RegionRegistry) : bytes := out ++ encode_state (reg_state r).

Definition reg_decode_from (b : bytes) (r : RegionRegistry) : bool * RegionRegistry :=
  match decode_state b with
  | Some s => (true, r <| reg_state := s |>)
  | None => (false, r)
  end.

(** * Table prefixes *)

Definition DEFAULT_TABLE_ID : N := 0.
Definition TABLE_PREFIX_LEN : nat := 4.

Definition table_prefix (id : N) : bytes := u32_be id.

Definition table_key (id : N) (user_key : bytes) : bytes := table_prefix id ++ user_key.

Definition table_range (id : N) : bytes * bytes :=
  (table_prefix id, if id <? u32_max then table_prefix (id + 1) else []).

Definition table_id_of (stored : bytes) : N :=
  if (length stored <? TABLE_PREFIX_LEN)%nat then DEFAULT_TABLE_ID
  else be_N (take TABLE_PREFIX_LEN stored).

Definition strip_table_prefix (stored : bytes) : bytes :=
  if (length stored <? TABLE_PREFIX_LEN)%nat then [] else drop TABLE_PREFIX_LEN stored.

Definition name_prefix (name : bytes) : bytes :=
  match name with [] => [] | _ => name ++ [x2f] end.

(** The loop of [prefix_successor], on the reversed prefix. *)
Fixpoint bump_last (rev_end : bytes) : option bytes :=
  match rev_end with
  | [] => None
  | last :: rest =>
    if Byte.to_N last <? 255 then Some (rev (byte_of_N (Byte.to_N last + 1) :: rest))
    else bump_last rest
  end.

Definition prefix_successor (prefix : bytes) : option bytes := bump_last (rev prefix).
