(* ===== verification/PdRegionCorrect.v ===== *)
(** The region table is a partition of the keyspace: the invariant, routing, and what
    splits, merges, restarts and table prefixes do to it. *)

From stdpp Require Import base list numbers strings sorting.
From Stdlib Require Import Strings.Byte.
From S2P Require Import Prelude Encoding Cursor PdRegion.

(** * Contiguous regions *)

(** [l] runs from [lo] up to the finite bound [hi]. *)
Fixpoint seg (lo : bytes) (l : list Region) (hi : bytes) : Prop :=
  match l with
  | [] => lo = hi
  | r :: l => r_start r = lo ∧ bytes_lt lo (r_end r) ∧ seg (r_end r) l hi
  end.

(** [l] runs from [lo] to the end of the keyspace. *)
Fixpoint tiled (lo : bytes) (l : list Region) : Prop :=
  match l with
  | [] => False
  | r :: l => r_start r = lo ∧
    match l with
    | [] => r_end r = []
    | _ => bytes_lt lo (r_end r) ∧ tiled (r_end r) l
    end
  end.

(** The invariant of a registry that owns the whole keyspace. *)
Record rs_wf (s : RState) : Prop := mkRsWf {
  rw_tiled : tiled [] (rs_regions s);
  rw_nodup : NoDup (r_id <$> rs_regions s);
  rw_ids : Forall (λ r, r_id r < rs_next_id s) (rs_regions s);
}.

Lemma bytes_lt_nil a : ¬ bytes_lt a [].
Proof. by destruct a. Qed.

Lemma tiled_cons lo r x l :
  tiled lo (r :: x :: l) ↔ r_start r = lo ∧ bytes_lt lo (r_end r) ∧ tiled (r_end r) (x :: l).
Proof. done. Qed.

Lemma tiled_app lo l1 x l2 :
  tiled lo (l1 ++ x :: l2) ↔ seg lo l1 (r_start x) ∧ tiled (r_start x) (x :: l2).
Proof.
  revert lo. induction l1 as [|r l1 IH]; intros lo.
  - cbn [app seg]. split; [|by intros [-> ?]]. intros H. pose proof H as H'. destruct H as [-> _]. done.
  - cbn [app seg]. assert (Hne : ∃ y l, l1 ++ x :: l2 = y :: l) by (destruct l1; cbn; eauto).
    destruct Hne as (y & l & E). rewrite E, tiled_cons, <- E, IH. tauto.
Qed.

Lemma seg_app lo l1 l2 hi : seg lo (l1 ++ l2) hi ↔ ∃ mid, seg lo l1 mid ∧ seg mid l2 hi.
Proof.
  revert lo. induction l1 as [|r l1 IH]; intros lo; cbn [app seg].
  - split; [by exists lo|]. by intros (? & -> & ?).
  - rewrite IH. split.
    + intros (? & ? & mid & ? & ?). eauto 6.
    + intros (mid & (? & ? & ?) & ?). eauto 6.
Qed.

Lemma seg_le lo l hi : seg lo l hi → bytes_le lo hi.
Proof.
  revert lo. induction l as [|r l IH]; intros lo; cbn [seg].
  - intros ->. apply bytes_le_refl.
  - intros (_ & Hlt & Hs%IH). by eapply bytes_lt_le, bytes_lt_le_trans.
Qed.

(** * Containment *)

Lemma r_contains_spec r key :
  r_contains r key = true ↔ bytes_le (r_start r) key ∧ (r_end r = [] ∨ bytes_lt key (r_end r)).
Proof.
  unfold r_contains. rewrite andb_true_iff, orb_true_iff, bytes_leb_le, bytes_ltb_lt.
  unfold is_empty. destruct (r_end r); intuition (done || congruence).
Qed.

Lemma seg_contains lo l hi r key :
  seg lo l hi → r ∈ l → r_contains r key = true → bytes_le lo key ∧ bytes_lt key hi.
Proof.
  revert lo. induction l as [|x l IH]; intros lo; [by intros _ ?%not_elem_of_nil|].
  cbn [seg]. intros (Hx & Hlt & Hs) Hr Hc. apply elem_of_cons in Hr as [->|Hr].
  - apply r_contains_spec in Hc as [Hle Hend]. rewrite Hx in Hle. split; [done|].
    destruct Hend as [E|Hk]; [by rewrite E in Hlt; apply bytes_lt_nil in Hlt|].
    by eapply bytes_lt_le_trans, seg_le.
  - destruct (IH _ Hs Hr Hc) as [Hle ?]. split; [|done].
    by eapply bytes_lt_le, bytes_lt_le_trans.
Qed.

Lemma tiled_contains lo l r key :
  tiled lo l → r ∈ l → r_contains r key = true → bytes_le lo key.
Proof.
  revert lo. induction l as [|x l IH]; intros lo; [done|]. intros Ht Hr Hc.
  apply elem_of_cons in Hr as [->|Hr].
  - destruct Ht as [<- _]. by apply r_contains_spec in Hc as [? _].
  - destruct l as [|y l]; [by apply not_elem_of_nil in Hr|]. apply tiled_cons in Ht as (_ & Hlt & Ht).
    eapply bytes_lt_le, bytes_lt_le_trans; [done|]. by eapply IH.
Qed.

(** Exactly one region of a tiling contains a key. *)
Lemma tiled_unique lo l key :
  tiled lo l → bytes_le lo key →
  ∃ l1 r l2, l = l1 ++ r :: l2 ∧ r_contains r key = true ∧
    (∀ x, x ∈ l1 → r_contains x key = false) ∧ (∀ x, x ∈ l2 → r_contains x key = false).
Proof.
  revert lo. induction l as [|r l IH]; intros lo Ht Hle; [done|].
  destruct l as [|y l].
  { destruct Ht as [<- Hend]. exists [], r, []. split; [done|]. split.
    - apply r_contains_spec. auto.
    - split; intros x Hx; by apply not_elem_of_nil in Hx. }
  apply tiled_cons in Ht as (Hs & Hlt & Ht).
  destruct (decide (bytes_lt key (r_end r))) as [Hk|Hk].
  - exists [], r, (y :: l). split; [done|]. split.
    + apply r_contains_spec. rewrite Hs. auto.
    + split; intros x Hx; [by apply not_elem_of_nil in Hx|].
      apply not_true_iff_false. intros Hc. pose proof (tiled_contains _ _ _ _ Ht Hx Hc) as Hge.
      by apply bytes_nlt_le in Hge.
  - apply bytes_nlt_le in Hk. destruct (IH _ Ht Hk) as (l1 & x & l2 & E & Hc & H1 & H2).
    exists (r :: l1), x, l2. rewrite E. split; [done|]. split; [done|]. split; [|done].
    intros z Hz. apply elem_of_cons in Hz as [->|Hz]; [|by apply H1].
    apply not_true_iff_false. rewrite r_contains_spec. intros [_ [Hz|Hz]].
    + rewrite Hz in Hlt. by apply bytes_lt_nil in Hlt.
    + by apply bytes_nlt_le in Hk.
Qed.

(** [find] and [position] on a list split at its only match. *)
Lemma find_unique {A} (p : A → bool) l1 x l2 :
  (∀ y, y ∈ l1 → p y = false) → p x = true → List.find p (l1 ++ x :: l2) = Some x.
Proof.
  intros H1 Hx. induction l1 as [|y l1 IH]; cbn; [by rewrite Hx|].
  rewrite (H1 y) by left. apply IH. intros z Hz. apply H1. by right.
Qed.

Lemma position_unique {A} (p : A → bool) l1 x l2 :
  (∀ y, y ∈ l1 → p y = false) → p x = true → position p (l1 ++ x :: l2) = Some (length l1).
Proof.
  intros H1 Hx. induction l1 as [|y l1 IH]; cbn; [by rewrite Hx|].
  rewrite (H1 y) by left. rewrite IH; [done|]. intros z Hz. apply H1. by right.
Qed.

Lemma position_Some {A} (p : A → bool) l i :
  position p l = Some i →
  ∃ l1 x l2, l = l1 ++ x :: l2 ∧ length l1 = i ∧ p x = true ∧ (∀ y, y ∈ l1 → p y = false).
Proof.
  revert i. induction l as [|y l IH]; intros i; cbn; [done|]. destruct (p y) eqn:Hy.
  - intros [= <-]. exists [], y, l. split_and!; try done. intros z Hz. by apply not_elem_of_nil in Hz.
  - destruct (position p l) as [j|] eqn:E; [|done]. intros [= <-].
    destruct (IH j eq_refl) as (l1 & x & l2 & -> & <- & Hx & H1). exists (y :: l1), x, l2.
    split_and!; try done. intros z Hz. apply elem_of_cons in Hz as [->|Hz]; auto.
Qed.

Lemma position_None {A} (p : A → bool) l : position p l = None ↔ ∀ y, y ∈ l → p y = false.
Proof.
  induction l as [|y l IH]; cbn.
  - split; [|done]. intros _ z Hz. by apply not_elem_of_nil in Hz.
  - destruct (p y) eqn:Hy.
    + split; [done|]. intros H. rewrite H in Hy by left. done.
    + transitivity (position p l = None); [by destruct (position p l)|]. rewrite IH. split.
      * intros H z Hz. apply elem_of_cons in Hz as [->|Hz]; auto.
      * intros H z Hz. apply H. by right.
Qed.

Lemma list_middle {A} (l1 : list A) x l2 :
  (l1 ++ x :: l2) !! length l1 = Some x ∧ take (length l1) (l1 ++ x :: l2) = l1 ∧
  drop (S (length l1)) (l1 ++ x :: l2) = l2.
Proof.
  split_and!; [by apply list_lookup_middle|apply take_app_length|].
  change (x :: l2) with ([x] ++ l2). rewrite app_assoc. apply drop_app_length'. rewrite length_app. cbn. lia.
Qed.

(** A list is split in one way around an element that occurs once. *)
Lemma app_cons_unique {A} (u v : list A) x a b :
  u ++ x :: a = v ++ x :: b → x ∉ u → x ∉ v → u = v ∧ a = b.
Proof.
  revert v. induction u as [|y u IH]; intros [|z v] E Hu Hv; cbn in E.
  - by injection E as ->.
  - injection E as -> _. by destruct Hv; left.
  - injection E as -> _. by destruct Hu; left.
  - injection E as -> E. rewrite elem_of_cons in Hu, Hv. destruct (IH v E) as [-> ->]; tauto.
Qed.

(** * Routing *)

Lemma route_total r key :
  rs_wf (reg_state r) →
  ∃ l1 x l2, rs_regions (reg_state r) = l1 ++ x :: l2 ∧ route key r = Some x ∧
    r_contains x key = true ∧ ∀ y, y ∈ l1 ++ l2 → r_contains y key = false.
Proof.
  intros [Ht _ _]. destruct (tiled_unique [] _ key Ht (bytes_nil_le key)) as (l1 & x & l2 & E & Hc & H1 & H2).
  exists l1, x, l2. split; [done|]. split; [unfold route; rewrite E; by apply find_unique|]. split; [done|].
  intros y [Hy|Hy]%elem_of_app; auto.
Qed.

Lemma route_iff r key x :
  rs_wf (reg_state r) →
  route key r = Some x ↔ x ∈ rs_regions (reg_state r) ∧ r_contains x key = true.
Proof.
  intros Hw. destruct (route_total r key Hw) as (l1 & y & l2 & E & Hr & Hc & Hn).
  rewrite Hr, E. split.
  - intros [= ->]. split; [|done]. apply elem_of_app. right. left.
  - intros [Hx Hcx]. f_equal. destruct (decide (x ∈ l1 ++ l2)) as [Hin|Hin].
    + by rewrite Hn in Hcx.
    + apply elem_of_app in Hx as [Hx|Hx]; [by destruct Hin; apply elem_of_app; left|].
      apply elem_of_cons in Hx as [->|Hx]; [done|]. by destruct Hin; apply elem_of_app; right.
Qed.

(** * Splitting *)

Lemma persist_state io r : reg_state (persist io r).2 = reg_state r.
Proof. unfold persist. destruct (reg_file r); [|done]. by destruct io. Qed.

Lemma persist_ok r : (persist true r).1 = inl ().
Proof. unfold persist. by destruct (reg_file r). Qed.

Definition left_half (t : Region) (k : bytes) : Region := mkRegion (r_id t) (r_start t) k (r_epoch t + 1).
Definition right_half (t : Region) (k : bytes) (id : N) : Region := mkRegion id k (r_end t) (r_epoch t + 1).

(** The two outcomes of a split on a tiled table. *)
Lemma split_cases io k r :
  rs_wf (reg_state r) →
  ∃ l1 t l2, rs_regions (reg_state r) = l1 ++ t :: l2 ∧ r_contains t k = true ∧
    ((r_start t = k ∧ split io k r =
        (inr (InvalidInput "split_key must be strictly greater than the region start"), r)) ∨
     (bytes_lt (r_start t) k ∧
      let L := left_half t k in
      let R := right_half t k (rs_next_id (reg_state r)) in
      let p := persist io (r <| reg_state := mkRState (l1 ++ L :: R :: l2) (rs_next_id (reg_state r) + 1) |>) in
      split io k r = (match p.1 with inl _ => inl (L, R) | inr e => inr e end, p.2))).
Proof.
  intros Hw. destruct (route_total r k Hw) as (l1 & t & l2 & E & _ & Hc & Hn).
  exists l1, t, l2. split; [done|]. split; [done|].
  destruct (list_middle l1 t l2) as (Hi & Ht & Hd).
  unfold split. rewrite E, position_unique by (done || intros y Hy; apply Hn, elem_of_app; by left).
  rewrite Hi, Ht, Hd. apply r_contains_spec in Hc as [Hle _]. destruct (bytes_leb k (r_start t)) eqn:Hb.
  - left. split; [|done]. apply bytes_leb_le in Hb. by apply bytes_le_antisym.
  - right. apply bytes_leb_gt in Hb. split; [done|]. cbn zeta.
    fold (left_half t k) (right_half t k (rs_next_id (reg_state r))).
    match goal with |- context [persist io ?x] => destruct (persist io x) as [[?|?] ?] end; done.
Qed.

Lemma split_tiled l1 t l2 k id :
  tiled [] (l1 ++ t :: l2) → r_contains t k = true → bytes_lt (r_start t) k →
  tiled [] (l1 ++ left_half t k :: right_half t k id :: l2).
Proof.
  intros [Hs Ht]%tiled_app Hc Hlt. apply tiled_app. split; [done|].
  apply r_contains_spec in Hc as [_ Hend]. apply tiled_cons. split; [done|]. split; [done|].
  destruct l2 as [|y l2].
  - destruct Ht as [_ Ht]. done.
  - apply tiled_cons in Ht as (_ & Hl & Ht). apply tiled_cons. split; [done|]. split; [|done]. cbn.
    destruct Hend as [Hend|]; [|done]. rewrite Hend in Hl. by apply bytes_lt_nil in Hl.
Qed.

Lemma split_wf io k r : rs_wf (reg_state r) → rs_wf (reg_state (split io k r).2).
Proof.
  intros Hw. destruct (split_cases io k r Hw) as (l1 & t & l2 & E & Hc & [[_ ->]|[Hlt Hs]]); [done|].
  cbn zeta in Hs. rewrite Hs. cbn [snd]. rewrite persist_state. cbn.
  destruct Hw as [Ht Hnd Hids]. rewrite E in *. split; cbn [rs_regions rs_next_id].
  - by apply split_tiled.
  - rewrite !fmap_app, !fmap_cons in *. cbn [r_id left_half right_half].
    assert (Hfresh : rs_next_id (reg_state r) ∉ (r_id <$> l1) ++ r_id t :: (r_id <$> l2)).
    { rewrite <- fmap_cons, <- fmap_app. intros (x & Hx & Hin)%list_elem_of_fmap.
      rewrite Forall_forall in Hids. specialize (Hids x Hin). lia. }
    apply NoDup_app in Hnd as (N1 & N2 & N3). apply NoDup_cons in N3 as [N3 N4].
    rewrite elem_of_app, elem_of_cons in Hfresh.
    apply NoDup_app. split; [done|]. split.
    + intros x Hx. rewrite !elem_of_cons. specialize (N2 x Hx). rewrite elem_of_cons in N2.
      intros [->|[->|?]]; tauto.
    + apply NoDup_cons. split; [rewrite elem_of_cons; naive_solver|]. apply NoDup_cons. tauto.
  - apply Forall_app in Hids as [H1 H2]. apply Forall_cons in H2 as [Ht' H2].
    apply Forall_app. split; [eapply Forall_impl; [exact H1|]; cbn; lia|].
    apply Forall_cons. split; [cbn; lia|]. apply Forall_cons. split; [cbn; lia|].
    eapply Forall_impl; [exact H2|]. cbn. lia.
Qed.

(** * Merging *)

Definition merged (a b : Region) : Region :=
  mkRegion (r_id a) (r_start a) (r_end b) (N.max (r_epoch a) (r_epoch b) + 1).

Lemma seg_starts lo l hi x : seg lo l hi → x ∈ l → bytes_lt (r_start x) hi.
Proof.
  intros Hs Hx. assert (Hc : r_contains x (r_start x) = true).
  { apply r_contains_spec. split; [apply bytes_le_refl|].
    apply list_elem_of_split in Hx as (l1 & l2 & ->). apply seg_app in Hs as (mid & _ & Hs).
    destruct Hs as (<- & Hlt & _). by right. }
  by apply (seg_contains _ _ _ _ _ Hs Hx Hc).
Qed.

Lemma merge_cases io k r :
  rs_wf (reg_state r) →
  (merge io k r = (inr (InvalidInput "boundary is not a region start"), r) ∧
     ∀ x, x ∈ rs_regions (reg_state r) → r_start x ≠ k) ∨
  (k = [] ∧ merge io k r = (inr (InvalidInput "the left-most region has no left neighbour to merge with"), r)) ∨
  ∃ l1 a b l2, rs_regions (reg_state r) = l1 ++ a :: b :: l2 ∧ r_start b = k ∧ r_end a = k ∧
    let p := persist io (r <| reg_state := mkRState (l1 ++ merged a b :: l2) (rs_next_id (reg_state r)) |>) in
    merge io k r = (match p.1 with inl _ => inl (merged a b) | inr e => inr e end, p.2).
Proof.
  intros [Ht _ _]. unfold merge. destruct (position _ _) as [i|] eqn:E.
  2: { left. split; [done|]. intros x Hx. rewrite position_None in E.
       specialize (E x Hx). by apply bool_decide_eq_false in E. }
  right. apply position_Some in E as (l1 & b & l2 & El & <- & Hb & _). apply bool_decide_eq_true in Hb.
  destruct l1 as [|a l1 _] using rev_ind.
  { left. rewrite El in Ht. destruct Ht as [Hs _]. by rewrite <- Hb, Hs. }
  right. rewrite <- app_assoc in El. cbn [app] in El. exists l1, a, b, l2. split; [done|]. split; [done|].
  rewrite length_app. cbn [length]. rewrite Nat.add_1_r. rewrite El in *.
  apply tiled_app in Ht as [_ Ht]. apply tiled_cons in Ht as (_ & _ & Ht). destruct Ht as [He _].
  split; [congruence|]. cbn zeta.
  destruct (list_middle l1 a (b :: l2)) as (Hi & Htk & _).
  destruct (list_middle (l1 ++ [a]) b l2) as (Hi2 & _ & Hd).
  rewrite length_app, <- app_assoc in Hi2, Hd. cbn [length app] in Hi2, Hd. rewrite Nat.add_1_r in Hi2, Hd.
  rewrite Hi, Hi2, Htk, Hd. fold (merged a b).
  match goal with |- context [persist io ?x] => destruct (persist io x) as [[?|?] ?] end; done.
Qed.

Lemma merge_tiled l1 a b l2 :
  tiled [] (l1 ++ a :: b :: l2) → tiled [] (l1 ++ merged a b :: l2).
Proof.
  intros [Hs Ht]%tiled_app. apply tiled_app. split; [done|]. cbn [r_start merged].
  apply tiled_cons in Ht as (_ & Hlt & Ht). destruct l2 as [|y l2].
  - destruct Ht as [_ Ht]. done.
  - apply tiled_cons in Ht as (_ & Hlt2 & Ht). apply tiled_cons. split; [done|]. split; [|done].
    by eapply bytes_lt_trans.
Qed.

Lemma merge_wf io k r : rs_wf (reg_state r) → rs_wf (reg_state (merge io k r).2).
Proof.
  intros Hw. destruct (merge_cases io k r Hw) as [[-> _]|[[_ ->]|(l1 & a & b & l2 & E & _ & _ & Hm)]];
    [done|done|]. cbn zeta in Hm. rewrite Hm. cbn [snd]. rewrite persist_state. cbn.
  destruct Hw as [Ht Hnd Hids]. rewrite E in *. split; cbn [rs_regions rs_next_id].
  - by apply merge_tiled.
  - rewrite fmap_app, !fmap_cons in *. cbn [r_id merged].
    apply NoDup_app in Hnd as (N1 & N2 & N3). apply NoDup_cons in N3 as [N3 N4].
    apply NoDup_cons in N4 as [_ N4]. rewrite elem_of_cons in N3.
    apply NoDup_app. split; [done|]. split.
    + intros x Hx. specialize (N2 x Hx). rewrite !elem_of_cons in *. tauto.
    + apply NoDup_cons. tauto.
  - rewrite !Forall_app, !Forall_cons in *. naive_solver.
Qed.

(** * Keys after a change *)

Lemma contains_halves t k id key :
  r_contains t k = true → bytes_lt (r_start t) k →
  r_contains (left_half t k) key = r_contains t key && bytes_ltb key k ∧
  r_contains (right_half t k id) key = r_contains t key && negb (bytes_ltb key k).
Proof.
  intros [Hk Hend]%r_contains_spec Hlt. pose proof (bytes_nil_le (r_start t)) as Hnil.
  assert (Hkn : k ≠ []) by (intros ->; by apply bytes_lt_nil in Hlt).
  split; apply eq_true_iff_eq; rewrite r_contains_spec, andb_true_iff, ?negb_true_iff, r_contains_spec,
    ?bytes_ltb_lt, ?bytes_ltb_ge; cbn [left_half right_half r_start r_end].
  - split; [|tauto]. intros [? [?|?]]; [done|]. split; [|done]. split; [done|].
    destruct Hend; [by left|right]. by eapply bytes_lt_trans.
  - split; [|tauto]. intros [? ?]. split; [|done]. split; [|done]. by eapply bytes_lt_le, bytes_lt_le_trans.
Qed.

Lemma split_routes_state r r' l1 t l2 k id key :
  rs_wf (reg_state r) → rs_wf (reg_state r') →
  rs_regions (reg_state r) = l1 ++ t :: l2 → r_contains t k = true → bytes_lt (r_start t) k →
  rs_regions (reg_state r') = l1 ++ left_half t k :: right_half t k id :: l2 →
  route key r' = if r_contains t key then
                   Some (if bytes_ltb key k then left_half t k else right_half t k id)
                 else route key r.
Proof.
  intros Hw Hw' E Hc Hlt E'. destruct (contains_halves t k id key Hc Hlt) as [HL HR].
  destruct (r_contains t key) eqn:Ht.
  - apply route_iff; [done|]. rewrite E'. split.
    + apply elem_of_app. right. rewrite !elem_of_cons. destruct (bytes_ltb key k); auto.
    + destruct (bytes_ltb key k) eqn:Hb; [by rewrite HL|by rewrite HR].
  - destruct (route_total r key Hw) as (a & x & b & Ea & -> & Hx & _).
    apply route_iff; [done|]. split; [|done]. rewrite E'.
    assert (Hin : x ∈ l1 ++ t :: l2) by (rewrite <- E, Ea; apply elem_of_app; right; left).
    rewrite elem_of_app, elem_of_cons in Hin. rewrite elem_of_app, !elem_of_cons.
    destruct Hin as [?|[->|?]]; [auto|congruence|auto].
Qed.

(** * The file image *)

Definition region_fits (r : Region) : Prop :=
  is_u64 (r_id r) ∧ is_u64 (r_epoch r) ∧ fits (r_start r) ∧ fits (r_end r).

Definition state_fits (s : RState) : Prop :=
  is_u64 (rs_next_id s) ∧ is_u32 (N.of_nat (length (rs_regions s))) ∧ Forall region_fits (rs_regions s).

Definition region_enc (r : Region) : bytes :=
  u64_be (r_id r) ++ u64_be (r_epoch r) ++ lp (r_start r) ++ lp (r_end r).

Lemma encode_region_enc out r : encode_region out r = out ++ region_enc r.
Proof. unfold encode_region, put_bytes, region_enc, lp. by rewrite <- !app_assoc. Qed.

Lemma encode_regions_enc l out : fold_left encode_region l out = out ++ concat (region_enc <$> l).
Proof.
  revert out. induction l as [|r l IH]; intros out; cbn [fold_left]; [by rewrite app_nil_r|].
  by rewrite IH, encode_region_enc, fmap_cons, <- app_assoc.
Qed.

Lemma reads_region r : region_fits r → reads decode_region r (region_enc r).
Proof.
  intros (Hi & He & Hs & Hn). unfold decode_region, region_enc.
  eapply reads_bind; [by apply reads_u64|]. eapply reads_bind; [by apply reads_u64|].
  eapply reads_bind; [by apply reads_bytes|]. eapply reads_bind_ret; [by apply reads_bytes|].
  destruct r. apply reads_ret.
Qed.

(** The table is read back from its image, also when more follows. *)
Lemma decode_encode_state s tail : state_fits s → decode_state (encode_state s ++ tail) = Some s.
Proof.
  intros (Hn & Hl & Hr). unfold decode_state, encode_state. rewrite encode_regions_enc.
  assert (Hp : reads (next_id ← get_u64; count ← get_u32;
      regions ← get_many (N.to_nat count) decode_region; mret (mkRState regions next_id))
      s (u64_be (rs_next_id s) ++ u32_be (as_u32 (N.of_nat (length (rs_regions s))))
         ++ concat (region_enc <$> rs_regions s) ++ [])).
  { eapply reads_bind; [by apply reads_u64|].
    apply (reads_counted decode_region (λ regions, mret (mkRState regions (rs_next_id s))));
      [done| |destruct s; apply reads_ret].
    eapply Forall_impl; [exact Hr|]. intros r. apply reads_region. }
  rewrite app_nil_r in Hp. specialize (Hp [] tail). cbn [app length] in Hp.
  rewrite <- !app_assoc in *. by rewrite Hp.
Qed.

(** A restart finds the table that was last persisted. *)
Lemma reopen_persisted r f b e :
  reg_file r = Some f → state_fits (reg_state r) →
  open_inner (reg_file (persist true r).2) b e true = inl (persist true r).2.
Proof.
  intros Hf Hs. unfold persist. rewrite Hf. cbn [snd]. unfold open_inner. cbn.
  rewrite <- (app_nil_r (encode_state (reg_state r))) at 1. rewrite decode_encode_state by done.
  done.
Qed.

(** * Table prefixes *)

(** A key and a bound of four bytes compare as the key's table id and the bound's. *)
Lemma prefix_cmp key id :
  (TABLE_PREFIX_LEN ≤ length key)%nat → is_u32 id →
  bytes_le (table_prefix id) key ↔ id ≤ table_id_of key.
Proof.
  intros Hl Hid. unfold table_id_of. destruct (Nat.ltb_spec (length key) TABLE_PREFIX_LEN); [lia|].
  rewrite <- (take_drop TABLE_PREFIX_LEN key) at 1. set (a := take _ key). set (b := drop _ key).
  assert (La : length a = 4%nat) by (unfold a; rewrite length_take; unfold TABLE_PREFIX_LEN in *; lia).
  assert (Lp : length (table_prefix id) = 4%nat) by apply length_be_bytes.
  assert (Hc : bytes_cmp (table_prefix id) a = (id ?= be_N a))
    by (rewrite bytes_cmp_be_N by lia; unfold table_prefix; by rewrite be_N_u32).
  clearbody a b. revert Hc La Lp. generalize (table_prefix id). generalize 4%nat. intros n p Hc La Lp.
  assert (Hg : ∀ p a : bytes, length p = length a →
    (bytes_cmp p (a ++ b) = Gt ↔ bytes_cmp p a = Gt)).
  { clear. induction p as [|x p IH]; intros [|y a] Hl; cbn in *; try done; [by destruct b|].
    destruct (_ ?= _); [apply IH; lia|done|done]. }
  unfold bytes_le. rewrite Hg by lia. rewrite Hc. destruct (N.compare_spec id (be_N a)); split; try done; lia.
Qed.

Lemma table_range_contains id e ep key :
  (TABLE_PREFIX_LEN ≤ length key)%nat → is_u32 id → table_id_of key ≤ u32_max →
  r_contains (mkRegion e (table_range id).1 (table_range id).2 ep) key = true ↔ table_id_of key = id.
Proof.
  intros Hl Hid Hk. rewrite r_contains_spec. cbn [r_start r_end table_range fst snd].
  rewrite prefix_cmp by done. destruct (N.ltb_spec id u32_max) as [Hlt|Hge].
  - assert (Hn : table_prefix (id + 1) ≠ []) by done.
    rewrite <- bytes_nle_lt, prefix_cmp by (done || lia). split; [|intros <-; split; [lia|right; lia]].
    intros [? [?|?]]; [done|lia].
  - split; [intros [? _]; lia|intros ->; split; [lia|by left]].
Qed.

Lemma table_id_of_bound key : is_u32 (table_id_of key).
Proof.
  unfold table_id_of. destruct (Nat.ltb_spec (length key) TABLE_PREFIX_LEN); [done|].
  apply be_N_u32_bound. rewrite length_take. unfold TABLE_PREFIX_LEN in *. lia.
Qed.

Lemma table_key_parts id key :
  is_u32 id → table_id_of (table_key id key) = id ∧ strip_table_prefix (table_key id key) = key.
Proof.
  intros Hid. unfold table_id_of, strip_table_prefix, table_key. rewrite length_app.
  assert (Lp : length (table_prefix id) = 4%nat) by apply length_be_bytes. rewrite Lp.
  destruct (Nat.ltb_spec (4 + length key) TABLE_PREFIX_LEN); [unfold TABLE_PREFIX_LEN in *; lia|].
  unfold TABLE_PREFIX_LEN. rewrite <- Lp, take_app_length, drop_app_length. split; [by apply be_N_u32|done].
Qed.

(** * Prefix ranges *)

Lemma ff_le_prefix n y : bytes_le (replicate n xff) y ↔ replicate n xff `prefix_of` y.
Proof.
  revert y. induction n as [|n IH]; intros y; cbn [replicate].
  { split; intros _; [apply prefix_nil|apply bytes_nil_le]. }
  destruct y as [|b y]; [split; [done|by intros ?%prefix_nil_not]|].
  unfold bytes_le. cbn [bytes_cmp]. pose proof (Byte.to_N_bounded b) as Hb.
  change (Byte.to_N xff) with 255. destruct (N.compare_spec 255 (Byte.to_N b)) as [E|E|E]; [|lia|].
  - assert (b = xff) as -> by (apply byte_to_N_inj; by rewrite <- E). fold (bytes_le (replicate n xff) y).
    rewrite IH. split; [by apply prefix_cons|by apply prefix_cons_inv_2].
  - split; [done|]. intros <-%prefix_cons_inv_1. cbn in E. lia.
Qed.

Lemma bump_last_Some rp e :
  bump_last rp = Some e →
  ∃ q c n, rev rp = q ++ c :: replicate n xff ∧ Byte.to_N c < 255 ∧ e = q ++ [byte_of_N (Byte.to_N c + 1)].
Proof.
  induction rp as [|c rp IH]; cbn [bump_last]; [done|].
  destruct (N.ltb_spec (Byte.to_N c) 255) as [Hlt|Hge].
  - intros [= <-]. exists (rev rp), c, 0%nat. done.
  - intros He. destruct (IH He) as (q & d & n & Er & Hd & ->). exists q, d, (S n).
    cbn [rev]. rewrite Er, <- app_assoc. cbn [app]. split_and!; [|done|done].
    assert (c = xff) as -> by (apply byte_to_N_inj; pose proof (Byte.to_N_bounded c); cbn; lia).
    by rewrite <- replicate_cons_app.
Qed.

Lemma bump_last_None rp : bump_last rp = None ↔ rev rp = replicate (length rp) xff.
Proof.
  induction rp as [|c rp IH]; cbn [bump_last rev length]; [done|].
  rewrite replicate_S_end. destruct (N.ltb_spec (Byte.to_N c) 255) as [Hlt|Hge].
  - split; [done|]. intros [_ [= ->]]%app_inj_tail. cbn in Hlt. lia.
  - assert (c = xff) as -> by (apply byte_to_N_inj; pose proof (Byte.to_N_bounded c); cbn; lia).
    rewrite IH. split; [by intros ->|by intros [? _]%app_inj_tail].
Qed.

Lemma prefix_range p e x :
  prefix_successor p = Some e → bytes_le p x ∧ bytes_lt x e ↔ p `prefix_of` x.
Proof.
  unfold prefix_successor. intros (q & c & n & Ep & Hc & ->)%bump_last_Some. rewrite rev_involutive in Ep.
  subst p. set (d := byte_of_N _).
  assert (Hd : Byte.to_N d = Byte.to_N c + 1) by (unfold d; rewrite to_N_byte_of_N; apply N.mod_small; lia).
  clearbody d. revert x. induction q as [|b q IH]; intros x; cbn [app].
  - destruct x as [|y x]; [split; [by intros [? _]|by intros ?%prefix_nil_not]|].
    rewrite <- (bytes_nle_lt [d]). unfold bytes_le. cbn [bytes_cmp]. rewrite Hd.
    destruct (N.compare_spec (Byte.to_N c) (Byte.to_N y)) as [E|E|E].
    + apply byte_to_N_inj in E as ->. fold (bytes_le (replicate n xff) x). rewrite ff_le_prefix.
      destruct (N.compare_spec (Byte.to_N y + 1) (Byte.to_N y)); [lia|lia|].
      split; [intros [? _]; by apply prefix_cons|]. intros ?%prefix_cons_inv_2. split; [done|]. by intros ?.
    + split; [|intros ->%prefix_cons_inv_1; lia]. intros [_ Hn]. destruct Hn.
      destruct (N.compare_spec (Byte.to_N c + 1) (Byte.to_N y)); [by destruct x|done|lia].
    + split; [by intros [? _]|]. intros ->%prefix_cons_inv_1. lia.
  - destruct x as [|y x]; [split; [by intros [? _]|by intros ?%prefix_nil_not]|].
    unfold bytes_le, bytes_lt. cbn [bytes_cmp]. rewrite (N.compare_antisym (Byte.to_N b)).
    destruct (N.compare_spec (Byte.to_N b) (Byte.to_N y)) as [E|E|E]; cbn [CompOpp].
    + apply byte_to_N_inj in E as ->. specialize (IH x). unfold bytes_le, bytes_lt in IH. rewrite IH.
      split; [by apply prefix_cons|by apply prefix_cons_inv_2].
    + split; [by intros [_ ?]|]. intros ->%prefix_cons_inv_1. lia.
    + split; [by intros [? _]|]. intros ->%prefix_cons_inv_1. lia.
Qed.
