(* ===== verification/PdTso.v ===== *)
(** The single-process timestamp oracle ([pd/src/tso.rs]).

    Clock readings are inputs.  Additions and shifts wrap at 64 bits, as the release
    build's do; the theorems bound when they do not. *)

From stdpp Require Import base list numbers.
From Stdlib Require Import Strings.Byte Sorting.Sorted.
From S2P Require Import Prelude PdRegion.

Definition WINDOW : N := 65536.
Definition LOGICAL_BITS : N := 18.

Definition ts_split (ts : N) : N * N :=
  (N.shiftr ts LOGICAL_BITS, N.land ts (N.shiftl 1 LOGICAL_BITS - 1)).

Record TsoInner := mkTsoInner {
  ti_next : N;
  ti_upper : N;
}.

(** [tso_path]: [None] without a path, else the image of the watermark file. *)
Record Tso := mkTso {
  tso_inner : TsoInner;
  tso_path : option (option bytes);
}.

Definition tso_ephemeral : Tso := mkTso (mkTsoInner 1 0) None.

Definition tso_open (file : option bytes) : Tso :=
  let '(next, upper) :=
    match file with
    | Some b => if (8 <=? length b)%nat then let upper := be_N (take 8 b) in (upper, upper) else (1, 0)
    | None => (1, 0)
    end in
  mkTso (mkTsoInner next upper) (Some file).

(** [io]: whether [atomic_write] succeeds. *)
Definition alloc (clock : N) (io : bool) (count : N) (t : Tso) : (N + IoError) * Tso :=
  let count := N.max count 1 in
  let g := tso_inner t in
  let physical_floor := u64_shl clock LOGICAL_BITS in
  let next := if ti_next g <? physical_floor then physical_floor else ti_next g in
  let finish (upper : N) (path : option (option bytes)) :=
    (inl next, mkTso (mkTsoInner (u64_add next count) upper) path) in
  if ti_upper g <? u64_add next count then
    let new_upper := u64_add (u64_add next count) WINDOW in
    match tso_path t with
    | Some _ => if io then finish new_upper (Some (Some (u64_be new_upper)))
                else (inr IoFailure, mkTso (mkTsoInner next (ti_upper g)) (tso_path t))
    | None => finish new_upper None
    end
  else finish (ti_upper g) (tso_path t).

Definition tso_now (clock : N) (io : bool) (t : Tso) : (N + IoError) * Tso := alloc clock io 1 t.

(** * Histories of a durable oracle *)

Inductive tso_event :=
  | TAlloc (clock : N) (io : bool) (count : N)
  | TRestart
  (** A crash during an allocation, before or after the file was replaced. *)
  | TCrash (clock : N) (count : N) (written : bool).

(** One event: the oracle after it, and the range it handed out. *)
Definition tso_step (e : tso_event) (t : Tso) : Tso * list (N * N) :=
  match e with
  | TAlloc clock io count =>
    match alloc clock io count t with
    | (inl first, t) => (t, [(first, N.max count 1)])
    | (inr _, t) => (t, [])
    end
  | TRestart => (tso_open (default None (tso_path t)), [])
  | TCrash clock count written =>
    (tso_open (default None (tso_path (if written then (alloc clock true count t).2 else t))), [])
  end.

Fixpoint tso_run (es : list tso_event) (t : Tso) : list (N * N) :=
  match es with
  | [] => []
  | e :: es => let '(t, out) := tso_step e t in out ++ tso_run es t
  end.

(** How far an event can push the oracle past the wall clock. *)
Definition demand (e : tso_event) : N :=
  match e with
  | TAlloc _ _ count | TCrash _ count _ => N.max count 1 + WINDOW
  | TRestart => 0
  end.

Definition event_clock (e : tso_event) : N :=
  match e with TAlloc clock _ _ | TCrash clock _ _ => clock | TRestart => 0 end.

Fixpoint total_demand (es : list tso_event) : N :=
  match es with [] => 0 | e :: es => demand e + total_demand es end.

(** Clock readings before the year 3084, and the rest of the range as headroom. *)
Definition CLOCK_LIMIT : N := 35184372088832.
Definition HORIZON : N := 9223372036854775808.

Lemma horizon_clock clock : clock < CLOCK_LIMIT → u64_shl clock LOGICAL_BITS = clock * 262144 ∧ clock * 262144 < HORIZON.
Proof.
  unfold CLOCK_LIMIT, HORIZON. intros Hc. unfold u64_shl, LOGICAL_BITS. rewrite N.shiftl_mul_pow2.
  change (2 ^ 18) with 262144. rewrite as_u64_id by (unfold u64_max; lia). split; [done|lia].
Qed.

Lemma u64_add_small a b : a + b ≤ u64_max → u64_add a b = a + b.
Proof. apply as_u64_id. Qed.

(** Everything handed out so far is below [hi]; [d] bounds the oracle's lead. *)
Record tso_inv (t : Tso) (hi d : N) : Prop := mkTsoInv {
  tv_hi : hi ≤ ti_next (tso_inner t);
  tv_one : 1 ≤ ti_next (tso_inner t);
  tv_next : ti_next (tso_inner t) ≤ HORIZON + d;
  tv_upper : ti_upper (tso_inner t) ≤ HORIZON + d;
  tv_file : match tso_path t with
            | Some (Some b) => b = u64_be (ti_upper (tso_inner t)) ∧ hi ≤ ti_upper (tso_inner t) ∧
                               1 ≤ ti_upper (tso_inner t)
            | Some None => ti_upper (tso_inner t) = 0 ∧ hi ≤ 1
            | None => False
            end;
}.

Lemma tso_inv_weaken t hi d d' : d ≤ d' → tso_inv t hi d → tso_inv t hi d'.
Proof. intros ? [? ? ? ? ?]. split; try done; lia. Qed.

Lemma tso_open_image u :
  is_u64 u → tso_open (Some (u64_be u)) = mkTso (mkTsoInner u u) (Some (Some (u64_be u))).
Proof.
  intros Hu. assert (L : length (u64_be u) = 8%nat) by apply length_be_bytes.
  pose proof (be_N_u64 u Hu) as E. revert L E. generalize (u64_be u). intros b L E.
  unfold tso_open. rewrite L, take_ge, E by lia. done.
Qed.

Lemma tso_open_inv t hi d : d ≤ 4611686018427387904 → tso_inv t hi d →
  tso_inv (tso_open (default None (tso_path t))) hi d.
Proof.
  intros Hd [H1 H2 H3 H4 H5]. destruct (tso_path t) as [[b|]|]; [| |done].
  - destruct H5 as (-> & Hhi & Hu). unfold HORIZON in *.
    cbn [default]. unfold id. rewrite tso_open_image by (unfold u64_max; lia). split; cbn -[be_bytes]; unfold HORIZON; try done; lia.
  - destruct H5 as [Hu Hhi]. split; cbn; try done; unfold HORIZON; lia.
Qed.

(** One allocation: what it returns and that the invariant is kept. *)
Lemma alloc_inv clock io count t hi d r t' :
  tso_inv t hi d → clock < CLOCK_LIMIT → d + N.max count 1 + WINDOW ≤ 4611686018427387904 →
  alloc clock io count t = (r, t') →
  match r with
  | inl first => hi ≤ first ∧ 1 ≤ first ∧ clock * 262144 ≤ first ∧ first + N.max count 1 ≤ u64_max ∧
                 tso_inv t' (first + N.max count 1) (d + N.max count 1 + WINDOW)
  | inr _ => tso_inv t' hi (d + N.max count 1 + WINDOW)
  end.
Proof.
  intros [H1 H2 H3 H4 H5] Hc Hd. unfold alloc. destruct (horizon_clock clock Hc) as [-> Hh].
  set (c := N.max count 1) in *. assert (Hc1 : 1 ≤ c) by (unfold c; lia). clearbody c.
  set (next := if ti_next (tso_inner t) <? clock * 262144 then clock * 262144 else ti_next (tso_inner t)).
  assert (Hn : hi ≤ next ∧ 1 ≤ next ∧ clock * 262144 ≤ next ∧ next ≤ HORIZON + d).
  { unfold next. destruct (N.ltb_spec (ti_next (tso_inner t)) (clock * 262144)); lia. }
  clearbody next. unfold HORIZON, WINDOW, u64_max in *.
  rewrite (u64_add_small next c) by (unfold u64_max; lia).
  rewrite u64_add_small by (unfold u64_max; lia). cbn zeta.
  destruct (N.ltb_spec (ti_upper (tso_inner t)) (next + c)) as [Hlt|Hge].
  - destruct (tso_path t) as [f|] eqn:Ep; [|done]. destruct io.
    + intros [= <- <-]. split_and!; try lia. split; cbn; try split_and!; try done; unfold HORIZON; lia.
    + intros [= <- <-]. split; cbn; try done; unfold HORIZON; try lia.
  - intros [= <- <-]. split_and!; try lia. split; cbn; try lia; unfold HORIZON; try lia.
    destruct (tso_path t) as [[b|]|]; [| |done].
    + destruct H5 as (-> & ? & ?). split_and!; try done; lia.
    + destruct H5 as [? ?]. lia.
Qed.

Lemma tso_run_sorted es t hi d :
  tso_inv t hi d → Forall (λ e, event_clock e < CLOCK_LIMIT) es → d + total_demand es ≤ 4611686018427387904 →
  StronglySorted (λ a b, a.1 + a.2 ≤ b.1) (tso_run es t) ∧
  Forall (λ a, hi ≤ a.1 ∧ 1 ≤ a.1 ∧ a.1 + a.2 ≤ u64_max) (tso_run es t).
Proof.
  intros Hinv Hcl. revert t hi d Hinv. induction Hcl as [|e es Hc Hcl IH]; intros t hi d Hinv Hd.
  { split; constructor. }
  cbn [tso_run total_demand] in *. destruct e as [clock io count| |clock count written]; cbn [tso_step].
  - cbn [demand event_clock] in *.
    assert (Hb : d + N.max count 1 + WINDOW ≤ 4611686018427387904) by lia. destruct (alloc clock io count t) as [[first|err] t'] eqn:Ea.
    + destruct (alloc_inv _ _ _ _ hi d _ _ Hinv Hc Hb Ea) as (G1 & G2 & G3 & G4 & Hinv').
      destruct (IH t' _ (d + N.max count 1 + WINDOW) Hinv') as [Hs Hf]; [lia|]. cbn [app]. split.
      * constructor; [done|]. eapply list.Forall_impl; [exact Hf|]. cbn. tauto.
      * constructor; [done|]. eapply list.Forall_impl; [exact Hf|]. cbn. lia.
    + pose proof (alloc_inv _ _ _ _ hi d _ _ Hinv Hc Hb Ea) as Hinv'. cbn beta iota in Hinv'.
      cbn [app]. apply (IH t' hi _ Hinv'). lia.
  - cbn [app demand] in *. apply (IH _ hi d); [apply tso_open_inv; [lia|done]|lia].
  - cbn [app demand event_clock] in *.
    assert (Hb : d + N.max count 1 + WINDOW ≤ 4611686018427387904) by lia. apply (IH _ hi (d + N.max count 1 + WINDOW)); [|lia].
    apply tso_open_inv; [lia|]. destruct written; [|by eapply tso_inv_weaken; [|done]; lia].
    destruct (alloc clock true count t) as [[first|err] t'] eqn:Ea.
    + destruct (alloc_inv _ _ _ _ hi d _ _ Hinv Hc Hb Ea) as (? & ? & ? & ? & [K1 K2 K3 K4 K5]).
      cbn [snd]. split; try done; try lia.
      destruct (tso_path t') as [[b|]|]; [|lia|done]. destruct K5 as (? & ? & ?). split_and!; try done; lia.
    + exact (alloc_inv _ _ _ _ hi d _ _ Hinv Hc Hb Ea).
Qed.

Lemma tso_open_fresh : tso_inv (tso_open None) 0 0.
Proof. split; cbn; unfold HORIZON; try lia. Qed.
