(* ===== verification/PdCluster.v ===== *)
(** Cluster membership and region placement ([pd/src/cluster.rs]).  Addresses and
    names are the bytes of their UTF-8 text; the wall clock is an argument. *)

From stdpp Require Import base list numbers sorting.
From Stdlib Require Import Strings.Byte.
From S2P Require Import Prelude Encoding Cursor PdRegion.

Inductive Regime := Cp | Ap.

#[export] Instance regime_eq_dec : EqDecision Regime.
Proof. solve_decision. Defined.

Record Table := mkTable {
  tb_id : N;
  tb_name : bytes;
  tb_regime : Regime;
}.

Record ReplicaSet := mkReplicaSet {
  rp_region : Region;
  rp_regime : Regime;
  rp_voters : list N;
  rp_desired : list N;
}.

Definition bare (region : Region) : ReplicaSet := mkReplicaSet region Cp [] [].

Record PlacedRegion := mkPlaced {
  pl_region : Region;
  pl_node_id : N;
  pl_address : bytes;
  pl_regime : Regime;
  pl_voters : list N;
}.

Record NodeState := mkNodeState {
  ns_address : bytes;
  ns_last_seen : N;
  ns_down : bool;
  ns_regions : list ReplicaSet;
}.

Record Membership := mkMembership {
  mb_nodes : btree NodeState;
  mb_seed : list (Region * N);
}.

#[export] Instance eta_membership : Eta Membership := λ m, mkMembership (mb_nodes m) (mb_seed m).

Definition Membership_new : Membership := mkMembership [] [].
Definition seeded (seed : list (Region * N)) : Membership := mkMembership [] seed.

(** * Codec *)

Definition regime_tag (r : Regime) : byte := match r with Cp => x00 | Ap => x01 end.

Definition regime_of (tag : byte) : option Regime :=
  match tag with x00 => Some Cp | x01 => Some Ap | _ => None end.

(** One region of a node ([put_replica_set] in [pd/src/replicated.rs] writes the same). *)
Definition put_replica_set (out : bytes) (rs : ReplicaSet) : bytes :=
  let out := out ++ u64_be (r_id (rp_region rs)) in
  let out := out ++ u64_be (r_epoch (rp_region rs)) in
  let out := put_bytes out (r_start (rp_region rs)) in
  let out := put_bytes out (r_end (rp_region rs)) in
  let out := out ++ [regime_tag (rp_regime rs)] in
  let out := out ++ u32_be (as_u32 (N.of_nat (length (rp_voters rs)))) in
  fold_left (λ out v, out ++ u64_be v) (rp_voters rs) out.

Definition get_replica_set : Parser ReplicaSet :=
  id ← get_u64;
  epoch ← get_u64;
  start ← get_bytes;
  end_ ← get_bytes;
  tag ← get_byte;
  regime ← plift (regime_of tag);
  n ← get_u32;
  voters ← get_many (N.to_nat n) get_u64;
  mret (mkReplicaSet (mkRegion id start end_ epoch) regime voters []).

Definition encode_node (out : bytes) (p : N * NodeState) : bytes :=
  let '(id, n) := p in
  let out := out ++ u64_be id in
  let out := put_bytes out (ns_address n) in
  let out := out ++ u64_be (ns_last_seen n) in
  let out := out ++ [if ns_down n then x01 else x00] in
  let out := out ++ u32_be (as_u32 (N.of_nat (length (ns_regions n)))) in
  fold_left put_replica_set (ns_regions n) out.

Definition mb_encode_into (out : bytes) (m : Membership) : bytes :=
  fold_left encode_node (mb_nodes m)
    (out ++ u32_be (as_u32 (N.of_nat (length (mb_nodes m))))).

Definition decode_node : Parser (N * NodeState) :=
  id ← get_u64;
  raw ← get_bytes;
  address ← plift (from_utf8 raw);
  last_seen ← get_u64;
  d ← get_byte;
  n ← get_u32;
  regions ← get_many (N.to_nat n) get_replica_set;
  mret (id, mkNodeState address last_seen (negb (bool_decide (d = x00))) regions).

(** The number of bytes consumed, or [None] with the view untouched. *)
Definition mb_decode_from (b : bytes) (m : Membership) : option nat * Membership :=
  match (n ← get_u32; get_many (N.to_nat n) decode_node) b 0%nat with
  | None => (None, m)
  | Some (ns, pos) =>
    (Some pos, m <| mb_nodes := fold_left (λ a p, bt_insert p.1 p.2 a) ns [] |>)
  end.

(** * Heartbeats *)

Definition assign (m : Membership) (node_id : N) : list Region :=
  let seeded := fst <$> List.filter (λ p, p.2 =? node_id) (mb_seed m) in
  if negb (is_empty seeded) then seeded else
  let any_region := existsb (λ p, negb (is_empty (ns_regions p.2))) (mb_nodes m)
                    || negb (is_empty (mb_seed m)) in
  if any_region then [] else [mkRegion 1 [] [] 1].

Definition heartbeat (node_id : N) (address : bytes) (reported : list ReplicaSet) (now : N)
    (m : Membership) : list ReplicaSet * Membership :=
  let assigned :=
    if negb (is_empty reported) then reported else
    let existing := match bt_get node_id (mb_nodes m) with Some n => ns_regions n | None => [] end in
    if negb (is_empty existing) then existing else bare <$> assign m node_id in
  (assigned,
   m <| mb_nodes := bt_insert node_id (mkNodeState address now false assigned) (mb_nodes m) |>).

(** * Views *)

Definition node_addrs (m : Membership) : list (N * bytes) :=
  (λ p, (p.1, ns_address p.2)) <$> mb_nodes m.

Definition live_nodes (m : Membership) : list N :=
  fst <$> List.filter (λ p, negb (ns_down p.2)) (mb_nodes m).

(** [now.saturating_sub(last_seen) > timeout_ms]. *)
Definition expired (now timeout_ms : N) (n : NodeState) : bool :=
  negb (ns_down n) && (timeout_ms <? now - ns_last_seen n).

Definition sweep (now timeout_ms : N) (m : Membership) : list N * Membership :=
  (fst <$> List.filter (λ p, expired now timeout_ms p.2) (mb_nodes m),
   m <| mb_nodes := (λ p, (p.1, if expired now timeout_ms p.2
                                then mkNodeState (ns_address p.2) (ns_last_seen p.2) true (ns_regions p.2)
                                else p.2)) <$> mb_nodes m |>).

Definition place (id : N) (n : NodeState) (rs : ReplicaSet) : PlacedRegion :=
  mkPlaced (rp_region rs) id (ns_address n) (rp_regime rs) (rp_voters rs).

Fixpoint mb_route_nodes (nodes : btree NodeState) (key : bytes) : option PlacedRegion :=
  match nodes with
  | [] => None
  | (id, n) :: rest =>
    if ns_down n then mb_route_nodes rest key else
    match List.find (λ rs, r_contains (rp_region rs) key) (ns_regions n) with
    | Some rs => Some (place id n rs)
    | None => mb_route_nodes rest key
    end
  end.

Definition mb_route (key : bytes) (m : Membership) : option PlacedRegion :=
  mb_route_nodes (mb_nodes m) key.

Definition placed_le (a b : PlacedRegion) : Prop :=
  bytes_le (r_start (pl_region a)) (r_start (pl_region b)).
#[export] Instance placed_le_dec a b : Decision (placed_le a b).
Proof. unfold placed_le. apply _. Defined.

Definition mb_list (m : Membership) : list PlacedRegion :=
  merge_sort placed_le
    (concat ((λ p, if ns_down p.2 then [] else place p.1 p.2 <$> ns_regions p.2) <$> mb_nodes m)).

Definition is_down (node_id : N) (m : Membership) : bool :=
  match bt_get node_id (mb_nodes m) with Some n => ns_down n | None => false end.

(** * Codec round trip *)

Definition replica_fits (rs : ReplicaSet) : Prop :=
  is_u64 (r_id (rp_region rs)) ∧ is_u64 (r_epoch (rp_region rs)) ∧
  fits (r_start (rp_region rs)) ∧ fits (r_end (rp_region rs)) ∧
  is_u32 (N.of_nat (length (rp_voters rs))) ∧ Forall (λ v, is_u64 v) (rp_voters rs) ∧
  rp_desired rs = [].

Definition node_fits (p : N * NodeState) : Prop :=
  is_u64 p.1 ∧ fits (ns_address p.2) ∧ utf8_valid (ns_address p.2) = true ∧
  is_u64 (ns_last_seen p.2) ∧ is_u32 (N.of_nat (length (ns_regions p.2))) ∧
  Forall replica_fits (ns_regions p.2).

Record members_fit (m : Membership) : Prop := mkMembersFit {
  mf_sorted : bt_ok (mb_nodes m);
  mf_count : is_u32 (N.of_nat (length (mb_nodes m)));
  mf_nodes : Forall node_fits (mb_nodes m);
}.

(** Appending encoders as concatenations. *)
Lemma fold_append {A} (f : bytes → A → bytes) (enc : A → bytes) l out :
  (∀ out a, f out a = out ++ enc a) → fold_left f l out = out ++ concat (enc <$> l).
Proof.
  intros Hf. revert out. induction l as [|a l IH]; intros out; cbn [fold_left]; [by rewrite app_nil_r|].
  by rewrite IH, Hf, fmap_cons, <- app_assoc.
Qed.

Definition replica_enc (rs : ReplicaSet) : bytes :=
  u64_be (r_id (rp_region rs)) ++ u64_be (r_epoch (rp_region rs)) ++
  lp (r_start (rp_region rs)) ++ lp (r_end (rp_region rs)) ++ [regime_tag (rp_regime rs)] ++
  u32_be (as_u32 (N.of_nat (length (rp_voters rs)))) ++ concat (u64_be <$> rp_voters rs).

Lemma put_replica_set_enc out rs : put_replica_set out rs = out ++ replica_enc rs.
Proof.
  unfold put_replica_set, replica_enc, put_bytes, lp.
  rewrite (fold_append _ u64_be) by done. by rewrite <- !app_assoc.
Qed.

Lemma reads_regime r : reads (tag ← get_byte; plift (regime_of tag)) r [regime_tag r].
Proof. eapply reads_bind_ret; [apply reads_byte|]. apply reads_lift. by destruct r. Qed.

Lemma reads_replica_set rs : replica_fits rs → reads get_replica_set rs (replica_enc rs).
Proof.
  intros (Hi & He & Hs & Hn & Hl & Hv & Hd). unfold get_replica_set, replica_enc.
  eapply reads_bind; [by apply reads_u64|]. eapply reads_bind; [by apply reads_u64|].
  eapply reads_bind; [by apply reads_bytes|]. eapply reads_bind; [by apply reads_bytes|].
  eapply reads_bind; [apply reads_byte|].
  change (u32_be ?a ++ ?b) with ([] ++ u32_be a ++ b).
  eapply reads_bind; [apply (reads_lift _ (rp_regime rs)); by destruct (rp_regime rs)|].
  eapply reads_bind; [by apply reads_count|]. cbn beta. rewrite Nat2N.id.
  eapply reads_bind_ret; [by apply reads_u64s|].
  destruct rs as [[] ? ? ?]. cbn in *. subst. apply reads_ret.
Qed.

Definition node_enc (p : N * NodeState) : bytes :=
  u64_be p.1 ++ lp (ns_address p.2) ++ u64_be (ns_last_seen p.2) ++ [if ns_down p.2 then x01 else x00] ++
  u32_be (as_u32 (N.of_nat (length (ns_regions p.2)))) ++ concat (replica_enc <$> ns_regions p.2).

Lemma encode_node_enc out p : encode_node out p = out ++ node_enc p.
Proof.
  destruct p as [id n]. unfold encode_node, node_enc, put_bytes, lp.
  rewrite (fold_append _ replica_enc) by apply put_replica_set_enc. by rewrite <- !app_assoc.
Qed.

Lemma reads_node p : node_fits p → reads decode_node p (node_enc p).
Proof.
  destruct p as [id n]. intros (Hi & Ha & Hu & Hs & Hl & Hr). unfold decode_node, node_enc. cbn [fst snd] in *.
  eapply reads_bind; [by apply reads_u64|]. eapply reads_bind; [by apply reads_bytes|].
  change (u64_be (ns_last_seen n) ++ ?b) with ([] ++ u64_be (ns_last_seen n) ++ b).
  eapply reads_bind; [apply (reads_lift _ (ns_address n)); unfold from_utf8; by rewrite Hu|].
  eapply reads_bind; [by apply reads_u64|]. eapply reads_bind; [apply reads_byte|].
  eapply reads_bind; [by apply reads_count|]. cbn beta. rewrite Nat2N.id.
  eapply reads_bind_ret.
  { apply reads_many. eapply list.Forall_impl; [exact Hr|]. intros rs. apply reads_replica_set. }
  destruct n as [? ? [] ?]; apply reads_ret.
Qed.

Lemma mb_encode_into_enc out m :
  mb_encode_into out m =
  out ++ u32_be (as_u32 (N.of_nat (length (mb_nodes m)))) ++ concat (node_enc <$> mb_nodes m).
Proof. unfold mb_encode_into. rewrite (fold_append _ node_enc) by apply encode_node_enc. by rewrite <- app_assoc. Qed.

Lemma mb_decode_encode m m' tail :
  members_fit m →
  mb_decode_from (mb_encode_into [] m ++ tail) m' =
  (Some (length (mb_encode_into [] m)), m' <| mb_nodes := mb_nodes m |>).
Proof.
  intros [Hs Hc Hn]. rewrite mb_encode_into_enc. cbn [app]. unfold mb_decode_from.
  assert (Hp : reads (n ← get_u32; get_many (N.to_nat n) decode_node) (mb_nodes m)
    (u32_be (as_u32 (N.of_nat (length (mb_nodes m)))) ++ concat (node_enc <$> mb_nodes m))).
  { eapply reads_bind; [by apply reads_count|]. cbn beta. rewrite Nat2N.id. apply reads_many.
    eapply list.Forall_impl; [exact Hn|]. intros p. apply reads_node. }
  specialize (Hp [] tail). cbn [app length Nat.add] in Hp. rewrite Hp, bt_rebuild by done. done.
Qed.
