(* ===== verification/PdFsm.v ===== *)
(** PD's replicated state machine ([pd/src/replicated.rs]): the commands of its log,
    their codec, [PdFsm] with every operation, and its snapshot image. *)

From stdpp Require Import base list numbers strings sorting.
From Stdlib Require Import Strings.Byte.
From S2P Require Import Prelude Encoding Cursor PdRegion PdCluster.

Definition RESERVE_WINDOW : N := 65536.
Definition DEFAULT_REPLICAS : nat := 3.

(** [b"arcuxSTR"] and ["default"]. *)
Definition STORES_TAG : bytes := [x61; x72; x63; x75; x78; x53; x54; x52].
Definition DEFAULT_TABLE_NAME : bytes := [x64; x65; x66; x61; x75; x6c; x74].

(** * Commands *)

Inductive PdCmd :=
  | ReserveTs (upper : N)
  | DeclareTable (name : bytes) (regime : Regime)
  | Heartbeat (node_id : N) (address : bytes) (regions : list ReplicaSet) (now : N) (store_id : bytes).

Definition cmd_encode (c : PdCmd) : bytes :=
  match c with
  | ReserveTs upper => [x01] ++ u64_be upper
  | DeclareTable name regime => put_bytes [x03] name ++ [regime_tag regime]
  | Heartbeat node_id address regions now store_id =>
    let out := [x02] ++ u64_be node_id in
    let out := out ++ u64_be now in
    let out := put_bytes out address in
    let out := out ++ u32_be (as_u32 (N.of_nat (length regions))) in
    let out := fold_left put_replica_set regions out in
    put_bytes out store_id
  end.

Definition get_string : Parser bytes := raw ← get_bytes; plift (from_utf8 raw).

(** The trailing store id, absent from entries written before it existed. *)
Definition get_store_id : Parser bytes := λ buf pos,
  if (pos <? length buf)%nat then get_string buf pos else Some ([], pos).

Definition get_cmd : Parser PdCmd :=
  tag ← get_byte;
  match tag with
  | x01 => upper ← get_u64; mret (ReserveTs upper)
  | x03 =>
    name ← get_string;
    tag ← get_byte;
    regime ← plift (regime_of tag);
    mret (DeclareTable name regime)
  | x02 =>
    node_id ← get_u64;
    now ← get_u64;
    address ← get_string;
    n ← get_u32;
    regions ← get_many (N.to_nat n) get_replica_set;
    store_id ← get_store_id;
    mret (Heartbeat node_id address regions now store_id)
  | _ => plift None
  end.

Definition cmd_decode (b : bytes) : option PdCmd := fst <$> get_cmd b 0%nat.

(** * The state machine *)

Record PdFsm := mkPdFsm {
  f_members : Membership;
  f_tso_upper : N;
  f_regions : RegionRegistry;
  f_catalog : list Table;
  f_next_table_id : N;
  f_version : N;
  f_region_members : btree (list N);
  f_stores : btree bytes;
  f_replicas : nat;
}.

#[export] Instance eta_pdfsm : Eta PdFsm := λ f,
  mkPdFsm (f_members f) (f_tso_upper f) (f_regions f) (f_catalog f) (f_next_table_id f)
    (f_version f) (f_region_members f) (f_stores f) (f_replicas f).

Definition PdFsm_new : PdFsm :=
  mkPdFsm Membership_new 0 in_memory [mkTable DEFAULT_TABLE_ID DEFAULT_TABLE_NAME Cp]
    (DEFAULT_TABLE_ID + 1) 1 [] [] DEFAULT_REPLICAS.

Definition set_replicas (n : nat) (f : PdFsm) : PdFsm := f <| f_replicas := Nat.max n 1 |>.

Definition has (x : N) (l : list N) : bool := existsb (λ y, y =? x) l.

(** One region of the loop of [found_unfounded_regions]. *)
Definition found_region (founding : list N) (acc : btree (list N) * bool) (region : Region)
    : btree (list N) * bool :=
  let '(members, founded) := acc in
  match default [] (bt_get (r_id region) members) with
  | [] => (bt_insert (r_id region) founding members, true)
  | _ => (members, founded)
  end.

Definition found_unfounded_regions (f : PdFsm) : bool * PdFsm :=
  let live := live_nodes (f_members f) in
  if is_empty live then (false, f) else
  let founding := take (f_replicas f) live in
  let '(members, founded) :=
    fold_left (found_region founding) (list_regions (f_regions f)) (f_region_members f, false) in
  (founded, f <| f_region_members := members |>).

(** One report of the loop of [adopt_grown_voters]; [entry].[or_default] leaves an
    empty set behind. *)
Definition grow_region (node_id : N) (known : list N) (acc : btree (list N) * bool) (rs : ReplicaSet)
    : btree (list N) * bool :=
  let '(members, grown) := acc in
  if negb (has node_id (rp_voters rs)) || negb (has (r_id (rp_region rs)) known) then acc else
  let current := default [] (bt_get (r_id (rp_region rs)) members) in
  if (length current <? length (rp_voters rs))%nat && forallb (λ v, has v (rp_voters rs)) current
  then (bt_insert (r_id (rp_region rs)) (merge_sort N.le (rp_voters rs)) members, true)
  else (bt_insert (r_id (rp_region rs)) current members, grown).

Definition adopt_grown_voters (node_id : N) (reported : list ReplicaSet) (f : PdFsm) : bool * PdFsm :=
  let known := r_id <$> list_regions (f_regions f) in
  let '(members, grown) := fold_left (grow_region node_id known) reported (f_region_members f, false) in
  (grown, f <| f_region_members := members |>).

(** The loop of [desired]. *)
Fixpoint grow_desired (replicas : nat) (desired live : list N) : list N :=
  match live with
  | [] => desired
  | id :: live =>
    if (replicas <=? length desired)%nat then desired else
    grow_desired replicas (if has id desired then desired else desired ++ [id]) live
  end.

Definition desired (members live : list N) (f : PdFsm) : list N :=
  grow_desired (f_replicas f) members live.

Definition name_is (name : bytes) (t : Table) : bool := bool_decide (tb_name t = name).

Definition declare_table (name : bytes) (regime : Regime) (f : PdFsm) : PdFsm :=
  if is_empty name || bool_decide (name = DEFAULT_TABLE_NAME) then f else
  if existsb (name_is name) (f_catalog f) then f else
  let id := f_next_table_id f in
  if id =? u32_max then f else
  let f := f <| f_next_table_id := id + 1 |> <| f_catalog := f_catalog f ++ [mkTable id name regime] |> in
  let f := f <| f_regions := (split true (table_prefix id) (f_regions f)).2 |> in
  f <| f_version := f_version f + 1 |>.

Definition apply_cmd (c : PdCmd) (f : PdFsm) : PdFsm :=
  match c with
  | ReserveTs upper => f <| f_tso_upper := N.max (f_tso_upper f) upper |>
  | Heartbeat node_id address regions now store_id =>
    let f := if negb (is_empty store_id) then
               match bt_get node_id (f_stores f) with
               | Some _ => f
               | None => f <| f_stores := bt_insert node_id store_id (f_stores f) |>
               end
             else f in
    let is_new := negb (existsb (λ p, p.1 =? node_id) (node_addrs (f_members f))) in
    let '(grown, f) := adopt_grown_voters node_id regions f in
    let f := f <| f_members := (heartbeat node_id address regions now (f_members f)).2 |> in
    let '(founded, f) := found_unfounded_regions f in
    if is_new || grown || founded then f <| f_version := f_version f + 1 |> else f
  | DeclareTable name regime => (found_unfounded_regions (declare_table name regime f)).2
  end.

Definition fsm_apply (b : bytes) (f : PdFsm) : PdFsm :=
  match cmd_decode b with Some c => apply_cmd c f | None => f end.

(** * Views *)

Definition store_conflict (node_id : N) (store_id : bytes) (f : PdFsm) : option bytes :=
  if is_empty store_id then None else
  match bt_get node_id (f_stores f) with
  | Some bound => if bool_decide (bound = store_id) then None else Some bound
  | None => None
  end.

Definition regime_for (key : bytes) (f : PdFsm) : Regime :=
  let id := table_id_of key in
  match List.find (λ t, tb_id t =? id) (f_catalog f) with
  | Some t => tb_regime t
  | None => Cp
  end.

Definition assignment (f : PdFsm) : list ReplicaSet :=
  let live := live_nodes (f_members f) in
  (λ region,
     let voters := default [] (bt_get (r_id region) (f_region_members f)) in
     mkReplicaSet region (regime_for (r_start region) f) voters (desired voters live f))
  <$> list_regions (f_regions f).

Definition name_le (a b : Table) : Prop := bytes_le (tb_name a) (tb_name b).
#[export] Instance name_le_dec a b : Decision (name_le a b).
Proof. unfold name_le. apply _. Defined.

Definition catalog (f : PdFsm) : list Table := merge_sort name_le (f_catalog f).

Definition table_id (name : bytes) (f : PdFsm) : option N :=
  let name := if is_empty name then DEFAULT_TABLE_NAME else name in
  tb_id <$> List.find (name_is name) (f_catalog f).

Definition regions_of (node_id : N) (f : PdFsm) : list ReplicaSet :=
  (λ p, mkReplicaSet (pl_region p) (pl_regime p) (pl_voters p) [])
  <$> List.filter (λ p, pl_node_id p =? node_id) (mb_list (f_members f)).

Definition assignment_for (node_id : N) (f : PdFsm) : list ReplicaSet :=
  if f_version f =? 0 then regions_of node_id f else
  List.filter (λ rs, has node_id (rp_voters rs) || has node_id (rp_desired rs)) (assignment f).

(** * Snapshots *)

Definition put_table (out : bytes) (t : Table) : bytes :=
  let out := put_bytes out (tb_name t) in
  let out := out ++ [regime_tag (tb_regime t)] in
  out ++ u32_be (tb_id t).

Definition put_region_members (out : bytes) (p : N * list N) : bytes :=
  let out := out ++ u64_be p.1 in
  let out := out ++ u32_be (as_u32 (N.of_nat (length p.2))) in
  fold_left (λ out v, out ++ u64_be v) p.2 out.

Definition put_store (out : bytes) (p : N * bytes) : bytes := put_bytes (out ++ u64_be p.1) p.2.

Definition snapshot (f : PdFsm) : bytes :=
  let out := u64_be (f_tso_upper f) in
  let out := mb_encode_into out (f_members f) in
  let out := out ++ u64_be (f_version f) in
  let out := out ++ u32_be (f_next_table_id f) in
  let out := out ++ u32_be (as_u32 (N.of_nat (length (f_catalog f)))) in
  let out := fold_left put_table (f_catalog f) out in
  let out := out ++ u32_be (as_u32 (N.of_nat (length (f_region_members f)))) in
  let out := fold_left put_region_members (f_region_members f) out in
  let out := out ++ STORES_TAG in
  let out := out ++ u32_be (as_u32 (N.of_nat (length (f_stores f)))) in
  let out := fold_left put_store (f_stores f) out in
  reg_encode_into out (f_regions f).

Definition get_table : Parser Table :=
  name ← get_string;
  tag ← get_byte;
  regime ← plift (regime_of tag);
  id ← get_u32;
  mret (mkTable id name regime).

Definition get_region_members : Parser (N * list N) :=
  region ← get_u64;
  len ← get_u32;
  voters ← get_many (N.to_nat len) get_u64;
  mret (region, voters).

Definition get_store : Parser (N * bytes) := node ← get_u64; store ← get_string; mret (node, store).

(** The store section, read only when its tag is there. *)
Definition get_stores : Parser (list (N * bytes)) := λ buf pos,
  if bool_decide (take (length STORES_TAG) (drop pos buf) = STORES_TAG)
  then (n ← get_u32; get_many (N.to_nat n) get_store) buf (pos + length STORES_TAG)%nat
  else Some ([], pos).

Definition get_rest : Parser (N * N * list Table * list (N * list N) * list (N * bytes)) :=
  version ← get_u64;
  next_table_id ← get_u32;
  n ← get_u32;
  catalog ← get_many (N.to_nat n) get_table;
  n ← get_u32;
  members ← get_many (N.to_nat n) get_region_members;
  stores ← get_stores;
  mret (version, next_table_id, catalog, members, stores).

(** [BTreeMap::insert] of each pair read. *)
Definition bt_of {V} (l : list (N * V)) : btree V := fold_left (λ a p, bt_insert p.1 p.2 a) l [].

Definition restore (b : bytes) (f : PdFsm) : bool * PdFsm :=
  if (length b <? 8)%nat then (false, f) else
  let upper := be_N (take 8 b) in
  match mb_decode_from (drop 8 b) (f_members f) with
  | (None, _) => (false, f)
  | (Some pos, members) =>
    let f := f <| f_members := members |> in
    match get_rest b (pos + 8)%nat with
    | None => (false, f)
    | Some ((version, next_table_id, catalog, members, stores), pos) =>
      let '(ok, regions) := reg_decode_from (drop pos b) (f_regions f) in
      if ok then
        (true, f <| f_regions := regions |> <| f_stores := bt_of stores |> <| f_catalog := catalog |>
                 <| f_region_members := bt_of members |>
                 <| f_version := N.max (f_version f) version |>
                 <| f_next_table_id := N.max (f_next_table_id f) next_table_id |>
                 <| f_tso_upper := N.max (f_tso_upper f) upper |>)
      else (false, f)
    end
  end.
