(* ===== verification/PdFsmCorrect.v ===== *)
(** PD's state machine: command and snapshot round trips, the catalog invariant, and
    what happens to voter sets. *)

From stdpp Require Import base list numbers strings sorting sets.
From Stdlib Require Import Strings.Byte.
From S2P Require Import Prelude Encoding Cursor PdRegion PdRegionCorrect PdCluster PdFsm.

(** * Commands *)

Definition text_fits (s : bytes) : Prop := fits s ∧ utf8_valid s = true.

Definition cmd_fits (c : PdCmd) : Prop :=
  match c with
  | ReserveTs upper => is_u64 upper
  | DeclareTable name _ => text_fits name
  | Heartbeat node_id address regions now store_id =>
    is_u64 node_id ∧ is_u64 now ∧ text_fits address ∧ text_fits store_id ∧
    is_u32 (N.of_nat (length regions)) ∧ Forall replica_fits regions
  end.

Lemma reads_string s : text_fits s → reads get_string s (lp s).
Proof.
  intros [Hf Hu]. eapply reads_bind_ret; [by apply reads_bytes|].
  apply (reads_lift _ s). unfold from_utf8. by rewrite Hu.
Qed.

Lemma reads_store_id s : text_fits s → reads get_store_id s (lp s).
Proof.
  intros Hs p t. unfold get_store_id. destruct (Nat.ltb_spec (length p) (length (p ++ lp s ++ t))) as [_|Hl].
  - by apply reads_string.
  - rewrite !length_app, length_lp in Hl. lia.
Qed.

(** A regime read after its tag. *)
Lemma reads_tag {A} r (k : Regime → Parser A) y e :
  reads (k r) y e → reads (tag ← get_byte; regime ← plift (regime_of tag); k regime) y ([regime_tag r] ++ e).
Proof.
  intros Hk. eapply reads_bind; [apply reads_byte|]. change e with ([] ++ e).
  eapply reads_bind; [|exact Hk]. apply (reads_lift _ r). by destruct r.
Qed.

Lemma cmd_decode_encode c : cmd_fits c → cmd_decode (cmd_encode c) = Some c.
Proof.
  intros Hc. unfold cmd_decode. rewrite (reads_all get_cmd c); [done|].
  destruct c as [upper|name regime|node address regions now store]; unfold cmd_encode, get_cmd;
    cbn [cmd_fits] in Hc.
  - eapply reads_bind; [apply reads_byte|]. cbn beta iota.
    eapply reads_bind_ret; [by apply reads_u64|apply reads_ret].
  - unfold put_bytes. rewrite <- app_assoc. eapply reads_bind; [apply reads_byte|]. cbn beta iota.
    eapply reads_bind; [by apply reads_string|]. rewrite <- (app_nil_r [_]).
    apply (reads_tag regime (λ r, mret (DeclareTable name r))). apply reads_ret.
  - destruct Hc as (Hn & Hw & Ha & Hs & Hl & Hr). unfold put_bytes.
    rewrite (fold_append _ replica_enc) by apply put_replica_set_enc. rewrite <- !app_assoc.
    eapply reads_bind; [apply reads_byte|]. cbn beta iota.
    eapply reads_bind; [by apply reads_u64|]. eapply reads_bind; [by apply reads_u64|].
    rewrite (app_assoc (u32_be _) address). eapply reads_bind; [by apply reads_string|].
    apply (reads_counted get_replica_set (λ regions, store_id ← get_store_id;
      mret (Heartbeat node address regions now store_id)) regions replica_enc); [done| |].
    + eapply list.Forall_impl; [exact Hr|]. intros rs. apply reads_replica_set.
    + eapply reads_bind_ret; [by apply reads_store_id|apply reads_ret].
Qed.

(** * Snapshots *)

Definition table_fits (t : Table) : Prop := text_fits (tb_name t) ∧ is_u32 (tb_id t).
Definition rmembers_fit (p : N * list N) : Prop :=
  is_u64 p.1 ∧ is_u32 (N.of_nat (length p.2)) ∧ Forall (λ v, is_u64 v) p.2.
Definition store_fits (p : N * bytes) : Prop := is_u64 p.1 ∧ text_fits p.2.

Record fsm_fits (f : PdFsm) : Prop := mkFsmFits {
  ff_members : members_fit (f_members f);
  ff_upper : is_u64 (f_tso_upper f);
  ff_regions : state_fits (reg_state (f_regions f));
  ff_catalog : is_u32 (N.of_nat (length (f_catalog f))) ∧ Forall table_fits (f_catalog f);
  ff_next : is_u32 (f_next_table_id f);
  ff_version : is_u64 (f_version f);
  ff_rmembers : bt_ok (f_region_members f) ∧ is_u32 (N.of_nat (length (f_region_members f))) ∧
    Forall rmembers_fit (f_region_members f);
  ff_stores : bt_ok (f_stores f) ∧ is_u32 (N.of_nat (length (f_stores f))) ∧ Forall store_fits (f_stores f);
}.

Definition table_enc (t : Table) : bytes := lp (tb_name t) ++ [regime_tag (tb_regime t)] ++ u32_be (tb_id t).
Definition rmembers_enc (p : N * list N) : bytes :=
  u64_be p.1 ++ u32_be (as_u32 (N.of_nat (length p.2))) ++ concat (u64_be <$> p.2).
Definition store_enc (p : N * bytes) : bytes := u64_be p.1 ++ lp p.2.

Lemma reads_table t : table_fits t → reads get_table t (table_enc t).
Proof.
  intros [Hn Hi]. unfold get_table, table_enc. eapply reads_bind; [by apply reads_string|].
  apply (reads_tag (tb_regime t) (λ r, id ← get_u32; mret (mkTable id (tb_name t) r))).
  eapply reads_bind_ret; [by apply reads_u32|]. destruct t. apply reads_ret.
Qed.

Lemma reads_rmembers p : rmembers_fit p → reads get_region_members p (rmembers_enc p).
Proof.
  destruct p as [r vs]. intros (Hr & Hl & Hv). unfold get_region_members, rmembers_enc. cbn [fst snd] in *.
  eapply reads_bind; [by apply reads_u64|]. eapply reads_bind; [by apply reads_count|].
  cbn beta. rewrite Nat2N.id. eapply reads_bind_ret; [by apply reads_u64s|apply reads_ret].
Qed.

Lemma reads_store p : store_fits p → reads get_store p (store_enc p).
Proof.
  destruct p as [n s]. intros (Hn & Hs). eapply reads_bind; [by apply reads_u64|].
  eapply reads_bind_ret; [by apply reads_string|apply reads_ret].
Qed.

Lemma reads_stores l :
  is_u32 (N.of_nat (length l)) → Forall store_fits l →
  reads get_stores l (STORES_TAG ++ u32_be (as_u32 (N.of_nat (length l))) ++ concat (store_enc <$> l)).
Proof.
  intros Hl Hs p t. unfold get_stores. rewrite drop_app_length, <- app_assoc, take_app_length.
  rewrite bool_decide_true by done.
  assert (Hr : reads (n ← get_u32; get_many (N.to_nat n) get_store) l
    (u32_be (as_u32 (N.of_nat (length l))) ++ concat (store_enc <$> l))).
  { eapply reads_bind; [by apply reads_count|]. cbn beta. rewrite Nat2N.id. apply reads_many.
    eapply list.Forall_impl; [exact Hs|]. intros q. apply reads_store. }
  specialize (Hr (p ++ STORES_TAG) t). rewrite <- app_assoc in Hr.
  rewrite !length_app in Hr. rewrite !length_app, Hr. f_equal. f_equal. lia.
Qed.

Definition rest_enc (f : PdFsm) : bytes :=
  u64_be (f_version f) ++ u32_be (f_next_table_id f) ++
  u32_be (as_u32 (N.of_nat (length (f_catalog f)))) ++ concat (table_enc <$> f_catalog f) ++
  u32_be (as_u32 (N.of_nat (length (f_region_members f)))) ++ concat (rmembers_enc <$> f_region_members f) ++
  STORES_TAG ++ u32_be (as_u32 (N.of_nat (length (f_stores f)))) ++ concat (store_enc <$> f_stores f).

Lemma reads_rest f : fsm_fits f →
  reads get_rest (f_version f, f_next_table_id f, f_catalog f, f_region_members f, f_stores f) (rest_enc f).
Proof.
  intros [_ _ _ [Hcl Hc] Hn Hv (_ & Hml & Hm) (_ & Hsl & Hs)]. unfold get_rest, rest_enc.
  eapply reads_bind; [by apply reads_u64|]. eapply reads_bind; [by apply reads_u32|].
  eapply reads_bind; [by apply reads_count|]. cbn beta. rewrite Nat2N.id.
  eapply reads_bind; [apply reads_many; eapply list.Forall_impl; [exact Hc|]; intros t; apply reads_table|].
  eapply reads_bind; [by apply reads_count|]. cbn beta. rewrite Nat2N.id.
  eapply reads_bind; [apply reads_many; eapply list.Forall_impl; [exact Hm|]; intros p; apply reads_rmembers|].
  eapply reads_bind_ret; [by apply reads_stores|apply reads_ret].
Qed.

Lemma mb_encode_into_app out m : mb_encode_into out m = out ++ mb_encode_into [] m.
Proof. by rewrite !mb_encode_into_enc. Qed.

Lemma snapshot_enc f :
  snapshot f = u64_be (f_tso_upper f) ++ mb_encode_into [] (f_members f) ++ rest_enc f ++
               encode_state (reg_state (f_regions f)).
Proof.
  unfold snapshot, reg_encode_into, rest_enc.
  rewrite (fold_append put_table table_enc) by (intros o t; unfold put_table, put_bytes, table_enc, lp;
    by rewrite <- !app_assoc).
  rewrite (fold_append put_region_members rmembers_enc) by (intros o p; unfold put_region_members, rmembers_enc;
    rewrite (fold_append _ u64_be) by done; by rewrite <- !app_assoc).
  rewrite (fold_append put_store store_enc) by (intros o p; unfold put_store, put_bytes, store_enc, lp;
    by rewrite <- !app_assoc).
  rewrite mb_encode_into_app. by rewrite <- !app_assoc.
Qed.

(** What [restore] makes of [g] from a snapshot of [f]. *)
Definition restored (f g : PdFsm) : PdFsm :=
  mkPdFsm (mkMembership (mb_nodes (f_members f)) (mb_seed (f_members g)))
    (N.max (f_tso_upper g) (f_tso_upper f))
    (mkRegistry (reg_state (f_regions f)) (reg_file (f_regions g)))
    (f_catalog f) (N.max (f_next_table_id g) (f_next_table_id f))
    (N.max (f_version g) (f_version f)) (f_region_members f) (f_stores f) (f_replicas g).

Lemma restore_snapshot f g : fsm_fits f → restore (snapshot f) g = (true, restored f g).
Proof.
  intros Hf. rewrite snapshot_enc. unfold restore.
  set (u := u64_be (f_tso_upper f)). assert (Lu : length u = 8%nat) by apply length_be_bytes.
  set (m := mb_encode_into [] (f_members f)). set (rs := encode_state (reg_state (f_regions f))).
  destruct (Nat.ltb_spec (length (u ++ m ++ rest_enc f ++ rs)) 8) as [Hl|_].
  { rewrite length_app in Hl. lia. }
  cbn zeta. rewrite (take_app_length' _ _ 8) by done. rewrite (drop_app_length' _ _ 8) by done.
  assert (Hu : be_N u = f_tso_upper f) by (apply be_N_u64, Hf). rewrite Hu.
  assert (Hm : mb_decode_from (m ++ rest_enc f ++ rs) (f_members g) =
    (Some (length m), (f_members g) <| mb_nodes := mb_nodes (f_members f) |>)) by (apply mb_decode_encode, Hf).
  rewrite Hm.
  assert (Hr : get_rest (u ++ m ++ rest_enc f ++ rs) (length m + 8)%nat = Some ((f_version f,
    f_next_table_id f, f_catalog f, f_region_members f, f_stores f), (length (u ++ m ++ rest_enc f))%nat)).
  { rewrite app_assoc. replace (length m + 8)%nat with (length (u ++ m)) by (rewrite length_app; lia).
    rewrite (reads_rest f Hf (u ++ m) rs), app_assoc, (length_app (u ++ m)). done. }
  rewrite Hr. cbn beta iota.
  replace (drop (length (u ++ m ++ rest_enc f)) (u ++ m ++ rest_enc f ++ rs)) with (rs ++ [])
    by (rewrite app_nil_r, !app_assoc, drop_app_length; done).
  unfold reg_decode_from, rs. rewrite decode_encode_state by apply Hf.
  unfold bt_of. rewrite !bt_rebuild by apply Hf. done.
Qed.

(** * The catalog and the region table *)

(** Region starts of a cluster with table ids below [n]. *)
Definition table_starts (n : N) : list bytes :=
  [] :: ((λ i, table_prefix (N.of_nat i)) <$> seq 1 (N.to_nat n - 1)).

Record cat_inv (f : PdFsm) : Prop := mkCatInv {
  ci_wf : rs_wf (reg_state (f_regions f));
  ci_file : reg_file (f_regions f) = None;
  ci_next : 1 ≤ f_next_table_id f ≤ u32_max;
  ci_starts : r_start <$> list_regions (f_regions f) = table_starts (f_next_table_id f);
  ci_ids : tb_id <$> f_catalog f = N.of_nat <$> seq 0 (N.to_nat (f_next_table_id f));
  ci_names : NoDup (tb_name <$> f_catalog f);
}.

Lemma table_starts_S n : 1 ≤ n → table_starts (n + 1) = table_starts n ++ [table_prefix n].
Proof.
  intros Hn. unfold table_starts. replace (N.to_nat (n + 1) - 1)%nat with (S (N.to_nat n - 1)) by lia.
  rewrite seq_S, fmap_app. cbn [fmap list_fmap app]. do 3 f_equal. f_equal. lia.
Qed.

Lemma table_prefix_cmp i j :
  is_u32 i → is_u32 j → bytes_cmp (table_prefix i) (table_prefix j) = (i ?= j).
Proof.
  intros. unfold table_prefix. rewrite bytes_cmp_be_N by by rewrite !length_be_bytes.
  by rewrite !be_N_u32.
Qed.

Lemma table_starts_lt n s : n ≤ u32_max → 1 ≤ n → s ∈ table_starts n → bytes_lt s (table_prefix n).
Proof.
  intros Hn H1. unfold table_starts. rewrite elem_of_cons. intros [->|(i & -> & Hi)%list_elem_of_fmap].
  - done.
  - apply elem_of_seq in Hi. unfold bytes_lt. rewrite table_prefix_cmp by lia. apply N.compare_lt_iff. lia.
Qed.

Lemma tiled_last lo l1 x l2 : tiled lo (l1 ++ x :: l2) → r_end x = [] → l2 = [].
Proof.
  intros [_ Ht]%tiled_app He. destruct l2 as [|y l2]; [done|].
  apply tiled_cons in Ht as (_ & Hlt & _). rewrite He in Hlt. by apply bytes_lt_nil in Hlt.
Qed.

Lemma tiled_end lo l x : tiled lo (l ++ [x]) → r_end x = [].
Proof. by intros [_ [_ ?]]%tiled_app. Qed.

(** The tail of the table is split, and nothing else. *)
Lemma split_tail r n :
  rs_wf (reg_state r) → 1 ≤ n ≤ u32_max → r_start <$> list_regions r = table_starts n → reg_file r = None →
  r_start <$> list_regions (split true (table_prefix n) r).2 = table_starts (n + 1) ∧
  reg_file (split true (table_prefix n) r).2 = None.
Proof.
  intros Hw [H1 Hn] Hs Hf. unfold list_regions in *.
  destruct (split_cases true (table_prefix n) r Hw) as (l1 & t & l2 & E & Hc & Hcase).
  assert (Hlt : ∀ x, x ∈ rs_regions (reg_state r) → bytes_lt (r_start x) (table_prefix n)).
  { intros x Hx. apply table_starts_lt; [done..|]. rewrite <- Hs. by apply list_elem_of_fmap_2. }
  assert (l2 = []) as ->.
  { pose proof (rw_tiled _ Hw) as Ht. destruct (rs_regions (reg_state r)) as [|x l _] eqn:El using rev_ind;
      [by destruct l1|].
    assert (Hx : r_contains x (table_prefix n) = true).
    { apply r_contains_spec. split; [apply bytes_lt_le, Hlt, elem_of_app; right; left|left].
      by eapply tiled_end. }
    assert (x = t) as ->.
    { apply (inj Some). transitivity (route (table_prefix n) r); [symmetry|];
        apply route_iff; try done; rewrite El; split; try done.
      - apply elem_of_app. right. left.
      - rewrite E. apply elem_of_app. right. left. }
    rewrite E in Ht. eapply tiled_last; [exact Ht|]. rewrite <- E in Ht. by eapply tiled_end. }
  destruct Hcase as [[Heq _]|[_ Hsp]].
  { specialize (Hlt t). rewrite E, Heq in Hlt. destruct (bytes_lt_irrefl (table_prefix n)).
    apply Hlt, elem_of_app. right. left. }
  cbn zeta in Hsp. rewrite Hsp. cbn [snd]. unfold persist. cbn [reg_file set_field]. rewrite Hf. cbn.
  split; [|done]. rewrite table_starts_S, <- Hs, E, !fmap_app by done. by rewrite <- app_assoc.
Qed.

Lemma declare_inv name regime f : cat_inv f → cat_inv (declare_table name regime f).
Proof.
  intros Hi. pose proof Hi as Hi'. destruct Hi as [Hw Hfile [H1 Hn] Hs Hids Hnames]. unfold declare_table.
  destruct (_ || _); [done|]. destruct (existsb _ _) eqn:Hex; [done|].
  destruct (N.eqb_spec (f_next_table_id f) u32_max) as [|Hne]; [done|]. cbn zeta.
  destruct (split_tail (f_regions f) (f_next_table_id f) Hw ltac:(done) Hs Hfile) as [Hst Hf'].
  split; cbn; try done.
  - by apply split_wf.
  - lia.
  - replace (N.to_nat (f_next_table_id f + 1)) with (S (N.to_nat (f_next_table_id f))) by lia.
    rewrite seq_S, !fmap_app, Hids. cbn. by rewrite N2Nat.id.
  - rewrite fmap_app. apply NoDup_app. split; [done|]. split; [|apply NoDup_singleton].
    intros x Hx ->%list_elem_of_singleton. cbn in Hx. apply list_elem_of_fmap in Hx as (t & Ht & Hin).
    apply not_true_iff_false in Hex. apply Hex, existsb_exists. exists t. split; [by apply list_elem_of_In|].
    by apply bool_decide_eq_true.
Qed.

(** Operations that leave the tables alone. *)
Definition same_tables (f g : PdFsm) : Prop :=
  f_regions g = f_regions f ∧ f_catalog g = f_catalog f ∧ f_next_table_id g = f_next_table_id f.

Lemma cat_inv_same f g : same_tables f g → cat_inv f → cat_inv g.
Proof. intros (E1 & E2 & E3) [? ? ? ? ? ?]. split; rewrite ?E1, ?E2, ?E3; done. Qed.

Lemma found_same f : same_tables f (found_unfounded_regions f).2.
Proof. unfold found_unfounded_regions. destruct (is_empty _); [done|]. by destruct (fold_left _ _ _). Qed.

Lemma adopt_same n rs f : same_tables f (adopt_grown_voters n rs f).2.
Proof. unfold adopt_grown_voters. by destruct (fold_left _ _ _). Qed.

Lemma same_trans f g h : same_tables f g → same_tables g h → same_tables f h.
Proof. intros (? & ? & ?) (? & ? & ?). unfold same_tables. split_and!; congruence. Qed.

(** A heartbeat, as a sequence of updates. *)
Lemma heartbeat_same n a rs now s f : same_tables f (apply_cmd (Heartbeat n a rs now s) f).
Proof.
  cbn [apply_cmd]. set (f1 := if negb _ then _ else f).
  assert (H1 : same_tables f f1).
  { unfold f1. destruct (negb _); [|done]. by destruct (bt_get _ _). }
  cbn zeta. destruct (adopt_grown_voters n rs f1) as [grown f2] eqn:E2.
  assert (H2 : same_tables f1 f2) by (change f2 with (grown, f2).2; rewrite <- E2; apply adopt_same).
  set (f3 := f2 <| f_members := _ |>). destruct (found_unfounded_regions f3) as [founded f4] eqn:E4.
  assert (H4 : same_tables f3 f4) by (change f4 with (founded, f4).2; rewrite <- E4; apply found_same).
  assert (H3 : same_tables f2 f3) by done.
  pose proof (same_trans _ _ _ (same_trans _ _ _ H1 H2) (same_trans _ _ _ H3 H4)) as H.
  by destruct (_ || _).
Qed.

Lemma apply_inv c f : cat_inv f → cat_inv (apply_cmd c f).
Proof.
  intros Hi. destruct c as [upper|name regime|n a rs now s].
  - by apply (cat_inv_same f).
  - apply (cat_inv_same (declare_table name regime f)); [apply found_same|by apply declare_inv].
  - apply (cat_inv_same f); [apply heartbeat_same|done].
Qed.

Lemma new_inv : cat_inv PdFsm_new.
Proof.
  split; try done.
  - split; [done|apply NoDup_singleton|]. by repeat constructor.
  - apply NoDup_singleton.
Qed.

Definition fsm_run (log : list bytes) (f : PdFsm) : PdFsm := fold_left (λ f b, fsm_apply b f) log f.

Lemma run_inv log f : cat_inv f → cat_inv (fsm_run log f).
Proof.
  revert f. induction log as [|b log IH]; intros f Hf; [done|]. cbn. apply IH. unfold fsm_apply.
  destruct (cmd_decode b); [by apply apply_inv|done].
Qed.

Lemma tiled_next lo l i a b :
  tiled lo l → l !! i = Some a → l !! S i = Some b → r_end a = r_start b.
Proof.
  intros Ht Ha Hb. rewrite <- (take_drop_middle l i a Ha) in Ht. apply tiled_app in Ht as [_ Ht].
  assert (Hd : drop (S i) l !! 0%nat = Some b) by by rewrite lookup_drop, Nat.add_0_r.
  destruct (drop (S i) l) as [|y l']; [done|]. injection Hd as ->.
  apply tiled_cons in Ht as (_ & _ & [-> _]). done.
Qed.

Lemma table_starts_lookup n i :
  (i < N.to_nat n)%nat →
  table_starts n !! i = Some (if (i =? 0)%nat then [] else table_prefix (N.of_nat i)).
Proof.
  intros Hi. destruct i as [|i]; [done|].
  change (table_starts n !! S i) with (((λ i, table_prefix (N.of_nat i)) <$> seq 1 (N.to_nat n - 1)) !! i).
  rewrite list_lookup_fmap, lookup_seq_lt by lia. done.
Qed.

(** The region of table [i] contains the stored keys of that table. *)
Lemma table_region f key r :
  cat_inv f → (4 ≤ length key)%nat → table_id_of key < f_next_table_id f →
  list_regions (f_regions f) !! N.to_nat (table_id_of key) = Some r → r_contains r key = true.
Proof.
  intros [Hw _ [H1 Hn] Hs _ _] Hl Hk Hr. set (i := N.to_nat (table_id_of key)) in *.
  pose proof (table_starts_lookup (f_next_table_id f) i ltac:(lia)) as Hst.
  rewrite <- Hs, list_lookup_fmap, Hr in Hst. injection Hst as Hst.
  apply r_contains_spec. rewrite Hst. split.
  { destruct (Nat.eqb_spec i 0); [apply bytes_nil_le|]. apply prefix_cmp; [done|lia|lia]. }
  destruct (list_regions (f_regions f) !! S i) as [b|] eqn:Hb.
  - right. rewrite (tiled_next [] (rs_regions (reg_state (f_regions f))) i r b (rw_tiled _ Hw) Hr Hb).
    assert (Hlt : (S i < N.to_nat (f_next_table_id f))%nat).
    { apply lookup_lt_Some in Hb. apply (f_equal length) in Hs. rewrite length_fmap in Hs.
      unfold table_starts in Hs. cbn [length] in Hs. rewrite length_fmap, length_seq in Hs. lia. }
    pose proof (table_starts_lookup (f_next_table_id f) (S i) Hlt) as Hsb.
    rewrite <- Hs, list_lookup_fmap, Hb in Hsb. injection Hsb as ->. cbn [Nat.eqb].
    apply bytes_nle_lt. rewrite prefix_cmp by (done || lia). lia.
  - left. pose proof (rw_tiled _ Hw) as Ht. unfold list_regions in *.
    rewrite <- (take_drop_middle _ _ _ Hr), (drop_ge _ (S i)) in Ht by by apply lookup_ge_None.
    by eapply tiled_end.
Qed.

(** * Voter sets *)

Definition members_of (id : N) (m : btree (list N)) : list N := default [] (bt_get id m).

Lemma members_of_insert k vs m id :
  members_of id (bt_insert k vs m) = if id =? k then vs else members_of id m.
Proof. unfold members_of. rewrite bt_get_insert. by destruct (id =? k). Qed.

Lemma has_spec x l : has x l = true ↔ x ∈ l.
Proof.
  unfold has. rewrite existsb_exists. split.
  - intros (y & Hy & ->%N.eqb_eq). by apply list_elem_of_In.
  - intros Hx. exists x. split; [by apply list_elem_of_In|apply N.eqb_refl].
Qed.

Definition grows (m m' : btree (list N)) : Prop := ∀ id v, v ∈ members_of id m → v ∈ members_of id m'.

Lemma grow_region_grows n known acc rs : grows acc.1 (grow_region n known acc rs).1.
Proof.
  destruct acc as [m g]. unfold grow_region. destruct (_ || _); [by intros ?|]. cbn zeta. cbn [fst].
  fold (members_of (r_id (rp_region rs)) m). set (k := r_id (rp_region rs)).
  destruct (_ && _) eqn:Hc; intros id v Hv; cbn [fst]; rewrite members_of_insert.
  - apply andb_true_iff in Hc as [_ Hall]. destruct (N.eqb_spec id k) as [->|]; [|done].
    rewrite forallb_forall in Hall. rewrite merge_sort_Permutation.
    apply has_spec, Hall. by apply list_elem_of_In.
  - by destruct (N.eqb_spec id k) as [->|].
Qed.

Lemma found_region_grows fo acc r : grows acc.1 (found_region fo acc r).1.
Proof.
  destruct acc as [m g]. unfold found_region. fold (members_of (r_id r) m).
  destruct (members_of (r_id r) m) eqn:E; intros id v Hv; cbn [fst] in *; [|done].
  rewrite members_of_insert. destruct (N.eqb_spec id (r_id r)) as [->|]; [|done].
  rewrite E in Hv. by apply not_elem_of_nil in Hv.
Qed.

Lemma grows_fold {A} (step : btree (list N) * bool → A → btree (list N) * bool) l acc :
  (∀ acc a, grows acc.1 (step acc a).1) → grows acc.1 (fold_left step l acc).1.
Proof.
  intros Hs. revert acc. induction l as [|a l IH]; intros acc; [by intros ?|]. cbn.
  intros id v Hv. by apply IH, Hs.
Qed.

Lemma found_grows f : grows (f_region_members f) (f_region_members (found_unfounded_regions f).2).
Proof.
  unfold found_unfounded_regions. destruct (is_empty _); [by intros ?|].
  pose proof (grows_fold (found_region (take (f_replicas f) (live_nodes (f_members f))))
    (list_regions (f_regions f)) (f_region_members f, false) (found_region_grows _)) as H.
  destruct (fold_left _ _ _) as [m b]. exact H.
Qed.

Lemma adopt_grows n rs f : grows (f_region_members f) (f_region_members (adopt_grown_voters n rs f).2).
Proof.
  unfold adopt_grown_voters.
  pose proof (grows_fold (grow_region n (r_id <$> list_regions (f_regions f))) rs
    (f_region_members f, false) (grow_region_grows _ _)) as H.
  destruct (fold_left _ _ _) as [m b]. exact H.
Qed.

Lemma apply_grows c f : grows (f_region_members f) (f_region_members (apply_cmd c f)).
Proof.
  destruct c as [upper|name regime|n a rs now s]; [by intros ?| |].
  - cbn [apply_cmd]. intros id v Hv. apply found_grows. unfold declare_table.
    destruct (_ || _); [done|]. destruct (existsb _ _); [done|]. by destruct (_ =? _).
  - cbn [apply_cmd]. set (f1 := if negb _ then _ else f).
    assert (E1 : f_region_members f1 = f_region_members f).
    { unfold f1. destruct (negb _); [|done]. by destruct (bt_get _ _). }
    cbn zeta. pose proof (adopt_grows n rs f1) as G2. destruct (adopt_grown_voters n rs f1) as [grown f2].
    set (f3 := f2 <| f_members := _ |>). pose proof (found_grows f3) as G4.
    destruct (found_unfounded_regions f3) as [founded f4]. rewrite E1 in G2.
    intros id v Hv. assert (H4 : v ∈ members_of id (f_region_members f4)) by (apply G4, G2, Hv).
    by destruct (_ || _).
Qed.

(** Once a node is live, every region has voters. *)
Lemma found_nonempty f r :
  live_nodes (f_members f) ≠ [] → (1 ≤ f_replicas f)%nat → r ∈ list_regions (f_regions f) →
  members_of (r_id r) (f_region_members (found_unfounded_regions f).2) ≠ [].
Proof.
  intros Hl Hr Hin. unfold found_unfounded_regions.
  destruct (live_nodes (f_members f)) as [|x live] eqn:El; [done|]. cbn [is_empty].
  set (fo := take (f_replicas f) (x :: live)). assert (Hfo : fo ≠ []).
  { unfold fo. destruct (f_replicas f); [lia|done]. }
  apply list_elem_of_split in Hin as (l1 & l2 & ->). rewrite fold_left_app. cbn [fold_left].
  set (a1 := fold_left _ l1 _).
  assert (H1 : members_of (r_id r) (found_region fo a1 r).1 ≠ []).
  { destruct a1 as [m b]. unfold found_region. fold (members_of (r_id r) m).
    destruct (members_of (r_id r) m) eqn:E; cbn [fst]; [|by rewrite E].
    by rewrite members_of_insert, N.eqb_refl. }
  pose proof (grows_fold (found_region fo) l2 (found_region fo a1 r) (found_region_grows fo)) as H2.
  destruct (fold_left (found_region fo) l2 _) as [m b]. cbn [snd].
  change (members_of (r_id r) m ≠ []).
  destruct (members_of (r_id r) (found_region fo a1 r).1) as [|v vs] eqn:E; [done|].
  intros E'. specialize (H2 (r_id r) v). rewrite E in H2. cbn [fst] in H2. rewrite E' in H2.
  specialize (H2 ltac:(left)). by apply not_elem_of_nil in H2.
Qed.

(** The wanted voters: the members first, then live nodes, up to the target. *)
Lemma grow_desired_spec k live d :
  ∃ ext, grow_desired k d live = d ++ ext ∧ ext ⊆ live ∧ NoDup ext ∧ (∀ x, x ∈ ext → x ∉ d) ∧
    (length (d ++ ext) ≤ Nat.max k (length d))%nat ∧
    ((length (d ++ ext) < k)%nat → ∀ x, x ∈ live → x ∈ d ++ ext).
Proof.
  revert d. induction live as [|y live IH]; intros d; cbn [grow_desired].
  { exists []. rewrite app_nil_r. split_and!; [done|done|constructor| |lia|].
    - intros x Hx. by apply not_elem_of_nil in Hx.
    - intros _ x Hx. by apply not_elem_of_nil in Hx. }
  destruct (Nat.leb_spec k (length d)).
  { exists []. rewrite app_nil_r. split_and!; [done|set_solver|constructor| |lia|lia].
    intros x Hx. by apply not_elem_of_nil in Hx. }
  destruct (has y d) eqn:Hy.
  - apply has_spec in Hy. destruct (IH d) as (ext & E & Hs & Hn & Hd & Hl & Ha). exists ext.
    split_and!; [done|set_solver|done|done|done|].
    intros Hlt x [->|Hx]%elem_of_cons; [apply elem_of_app; by left|by apply Ha].
  - assert (Hy' : y ∉ d) by (intros H'%has_spec; congruence).
    destruct (IH (d ++ [y])) as (ext & E & Hs & Hn & Hd & Hl & Ha). exists (y :: ext).
    rewrite <- app_assoc in *. cbn [app] in *. rewrite !length_app in Hl. cbn [length] in Hl.
    split_and!; [done|set_solver| | |rewrite length_app; cbn [length]; lia|].
    + constructor; [|done]. intros Hin. apply (Hd y Hin). set_solver.
    + intros x [->|Hx]%elem_of_cons; [done|]. specialize (Hd x Hx). set_solver.
    + intros Hlt x [->|Hx]%elem_of_cons; [set_solver|by apply Ha].
Qed.
