(* ===== verification/PdReplica.v ===== *)
(** One PD replica ([PdReplica] of [pd/src/replicated.rs]) and the actor that drives it
    ([run_actor] of [pd/src/raft_group.rs]).

    A oneshot channel is a ticket; what is sent on it is a reply of the step.  [None]
    for a whole step means that the process panicked ([RaftNode::compact]'s [expect]). *)

From stdpp Require Import base list numbers strings gmap sorting.
From Stdlib Require Import Strings.Byte Sorting.Sorted.
From S2P Require Import Prelude Cursor RaftMessage RaftStorage RaftNode PdRegion PdCluster PdFsm.

Definition COMPACT_THRESHOLD : N := 64.

Record PdReplica (St : Type) := mkPdReplica {
  p_node : RaftNode St;
  p_fsm : PdFsm;
  p_served : N;
  p_was_leader : bool;
  p_pending_reset : option N;
}.
Arguments mkPdReplica {_}.
Arguments p_node {_} _.
Arguments p_fsm {_} _.
Arguments p_served {_} _.
Arguments p_was_leader {_} _.
Arguments p_pending_reset {_} _.

#[export] Instance eta_pdreplica St : Eta (PdReplica St) := λ r,
  mkPdReplica (p_node r) (p_fsm r) (p_served r) (p_was_leader r) (p_pending_reset r).

Record Ready := mkReady {
  rd_messages : list Message;
  rd_committed : list N;
}.

Section Replica.
Context {St : Type} `{Storage St}.
Implicit Types r : PdReplica St.

Definition recover r : PdReplica St :=
  match st_snapshot (n_storage (p_node r)) with
  | None => r
  | Some snap =>
    let fsm := (restore (sn_data snap) (p_fsm r)).2 in
    r <| p_fsm := fsm |> <| p_served := f_tso_upper fsm |>
  end.

Definition with_storage (id : N) (voters : list N) (storage : St) : PdReplica St :=
  recover (mkPdReplica (RaftNode_new (Config_new id voters) storage) PdFsm_new 0 false None).

Definition p_is_leader r : bool := is_leader (p_node r).

Definition p_tick r : PdReplica St := r <| p_node := tick (p_node r) |>.
Definition p_step (m : Message) r : PdReplica St := r <| p_node := step m (p_node r) |>.

Definition p_propose (cmd : PdCmd) r : (N + ProposeError) * PdReplica St :=
  let '(res, node) := propose (cmd_encode cmd) (p_node r) in (res, r <| p_node := node |>).

(** One committed entry: only normal, non-empty entries are commands. *)
Definition apply_entry (f : PdFsm) (e : Entry) : PdFsm :=
  if negb (is_conf_change e) && negb (is_empty (e_data e)) then fsm_apply (e_data e) f else f.

(** The election part of [ready]. *)
Definition ready_elect r : PdReplica St :=
  let leader_now := is_leader (p_node r) in
  let r := if leader_now && negb (p_was_leader r) then
             let '(res, node) := propose [] (p_node r) in
             r <| p_node := node |> <| p_pending_reset := match res with inl i => Some i | inr _ => None end |>
           else r in
  let r := if negb leader_now then r <| p_pending_reset := None |> else r in
  r <| p_was_leader := leader_now |>.

(** The part that adopts a snapshot and applies what is committed. *)
Definition ready_apply r : list N * PdReplica St :=
  let '(snap, node) := take_snapshot (p_node r) in
  let r := r <| p_node := node |> in
  let r := match snap with
           | Some (_, data) =>
             let fsm := (restore data (p_fsm r)).2 in
             r <| p_fsm := fsm |> <| p_served := N.max (p_served r) (f_tso_upper fsm) |>
           | None => r
           end in
  let '(entries, node) := take_committed (p_node r) in
  let r := r <| p_node := node |> in
  (e_index <$> entries, r <| p_fsm := fold_left apply_entry entries (p_fsm r) |>).

(** The part that jumps the cursor once this term's no-op is applied. *)
Definition ready_reset r : PdReplica St :=
  match p_pending_reset r with
  | Some idx => if idx <=? n_last_applied (p_node r)
                then r <| p_served := f_tso_upper (p_fsm r) |> <| p_pending_reset := None |> else r
  | None => r
  end.

Definition ready_compact r : option (PdReplica St) :=
  if st_first_index (n_storage (p_node r)) + COMPACT_THRESHOLD <=? n_last_applied (p_node r) + 1 then
    node ← compact (n_last_applied (p_node r)) (snapshot (p_fsm r)) (p_node r);
    Some (r <| p_node := node |>)
  else Some r.

Definition ready r : option (Ready * PdReplica St) :=
  let r := ready_elect r in
  let '(committed, r) := ready_apply r in
  let r := ready_reset r in
  r ← ready_compact r;
  let '(messages, node) := take_messages (p_node r) in
  Some (mkReady messages committed, r <| p_node := node |>).

Definition hand_out (count : N) r : option N * PdReplica St :=
  let count := N.max count 1 in
  if is_leader (p_node r) && (p_served r + count <=? f_tso_upper (p_fsm r))
  then (Some (p_served r), r <| p_served := p_served r + count |>)
  else (None, r).

Definition reserve_ts_cmd (count : N) r : PdCmd :=
  let need := p_served r + N.max count 1 in
  ReserveTs (N.max need (f_tso_upper (p_fsm r)) + RESERVE_WINDOW).

(** * The actor *)

Inductive Cmd :=
  | ATick
  | AStep (m : Message)
  | AStepReply (m : Message) (tx : N)
  | AHeartbeat (node_id : N) (address : bytes) (regions : list ReplicaSet) (now : N) (store_id : bytes) (tx : N)
  | AAllocTs (count : N) (tx : N)
  | ADeclareTable (name : bytes) (regime : Regime) (tx : N).

Inductive Reply :=
  | RMessage (m : option Message)
  | RAssigned (a : option (list ReplicaSet))
  | RTimestamps (t : option (N * N))
  | RDeclared (d : option (N * ReplicaSet * N)).

Record Actor := mkActor {
  a_replica : PdReplica St;
  a_pending_hb : btree (N * N);
  a_pending_decl : btree (bytes * N);
  a_pending_ts : btree (N * N);
}.

#[export] Instance eta_actor : Eta Actor := λ a,
  mkActor (a_replica a) (a_pending_hb a) (a_pending_decl a) (a_pending_ts a).

Definition is_response (b : MessageBody) : bool :=
  match b with
  | RequestVoteResp _ | AppendEntriesResp _ _ _ | InstallSnapshotResp _ => true
  | _ => false
  end.

(** The first [match]: the actor, the replies sent at once, and the awaited reply. *)
Definition act_cmd (c : Cmd) (a : Actor) : Actor * list (N * Reply) * option (N * N) :=
  let r := a_replica a in
  match c with
  | ATick => (a <| a_replica := p_tick r |>, [], None)
  | AStep m => (a <| a_replica := p_step m r |>, [], None)
  | AStepReply m tx => (a <| a_replica := p_step m r |>, [], Some (m_from m, tx))
  | AHeartbeat node_id address regions now store_id tx =>
    if negb (p_is_leader r) then (a, [(tx, RAssigned None)], None) else
    match p_propose (Heartbeat node_id address regions now store_id) r with
    | (inl index, r) =>
      (a <| a_replica := r |> <| a_pending_hb := bt_insert index (node_id, tx) (a_pending_hb a) |>, [], None)
    | (inr _, r) => (a <| a_replica := r |>, [(tx, RAssigned None)], None)
    end
  | ADeclareTable name regime tx =>
    if negb (p_is_leader r) then (a, [(tx, RDeclared None)], None) else
    match p_propose (DeclareTable name regime) r with
    | (inl index, r) =>
      (a <| a_replica := r |> <| a_pending_decl := bt_insert index (name, tx) (a_pending_decl a) |>, [], None)
    | (inr _, r) => (a <| a_replica := r |>, [(tx, RDeclared None)], None)
    end
  | AAllocTs count tx =>
    if negb (p_is_leader r) then (a, [(tx, RTimestamps None)], None) else
    match hand_out count r with
    | (Some first, r) => (a <| a_replica := r |>, [(tx, RTimestamps (Some (first, count)))], None)
    | (None, r) =>
      match p_propose (reserve_ts_cmd count r) r with
      | (inl index, r) =>
        (a <| a_replica := r |> <| a_pending_ts := bt_insert index (count, tx) (a_pending_ts a) |>, [], None)
      | (inr _, r) => (a <| a_replica := r |>, [(tx, RTimestamps None)], None)
      end
    end
  end.

(** The outbound messages: the first response to the awaiting peer answers it. *)
Fixpoint route_messages (reply : option (N * N)) (ms : list Message)
    : list (N * Reply) * list Message * option (N * N) :=
  match ms with
  | [] => ([], [], reply)
  | m :: ms =>
    match reply with
    | Some (from, tx) =>
      if (m_to m =? from) && is_response (m_body m) then
        let '(rs, out, reply) := route_messages None ms in ((tx, RMessage (Some m)) :: rs, out, reply)
      else let '(rs, out, reply) := route_messages reply ms in (rs, m :: out, reply)
    | None => let '(rs, out, reply) := route_messages None ms in (rs, m :: out, reply)
    end
  end.

Definition resolve_declared (name : bytes) (f : PdFsm) : option (N * ReplicaSet * N) :=
  id ← table_id name f;
  let start := table_prefix id in
  rs ← List.find (λ rs, bool_decide (r_start (rp_region rs) = start)) (assignment f);
  Some (id, rs, f_version f).

(** One committed index of the resolving loop. *)
Definition resolve_index (acc : Actor * list (N * Reply)) (index : N) : Actor * list (N * Reply) :=
  let '(a, out) := acc in
  let '(a, out) :=
    match bt_get index (a_pending_hb a) with
    | Some (node_id, tx) =>
      (a <| a_pending_hb := bt_remove index (a_pending_hb a) |>,
       out ++ [(tx, RAssigned (Some (assignment_for node_id (p_fsm (a_replica a)))))])
    | None => (a, out)
    end in
  let '(a, out) :=
    match bt_get index (a_pending_decl a) with
    | Some (name, tx) =>
      (a <| a_pending_decl := bt_remove index (a_pending_decl a) |>,
       out ++ [(tx, RDeclared (resolve_declared name (p_fsm (a_replica a))))])
    | None => (a, out)
    end in
  match bt_get index (a_pending_ts a) with
  | Some (count, tx) =>
    let '(first, r) := hand_out count (a_replica a) in
    (a <| a_pending_ts := bt_remove index (a_pending_ts a) |> <| a_replica := r |>,
     out ++ [(tx, RTimestamps ((λ first, (first, count)) <$> first))])
  | None => (a, out)
  end.

(** Parked proposals fail when leadership is lost. *)
Definition fail_parked (a : Actor) : Actor * list (N * Reply) :=
  if negb (p_is_leader (a_replica a)) then
    (mkActor (a_replica a) [] [] [],
     ((λ p, (p.2.2, RAssigned None)) <$> a_pending_hb a)
     ++ ((λ p, (p.2.2, RTimestamps None)) <$> a_pending_ts a)
     ++ ((λ p, (p.2.2, RDeclared None)) <$> a_pending_decl a))
  else (a, []).

(** One turn of the actor: the replies sent and the messages for the sender. *)
Definition actor_turn (c : Cmd) (a : Actor) : option (list (N * Reply) * list Message * Actor) :=
  let '(a, now, reply) := act_cmd c a in
  '(rdy, r) ← ready (a_replica a);
  let a := a <| a_replica := r |> in
  let '(routed, out, reply) := route_messages reply (rd_messages rdy) in
  let unanswered := match reply with Some (_, tx) => [(tx, RMessage None)] | None => [] end in
  let '(a, resolved) := fold_left resolve_index (rd_committed rdy) (a, []) in
  let '(a, failed) := fail_parked a in
  Some (now ++ routed ++ unanswered ++ resolved ++ failed, out, a).
End Replica.
Arguments Actor : clear implicits.
Arguments mkActor {_}.
