(* ===== verification/PdReplicaCorrect.v ===== *)
(** The timestamps one PD actor hands out, over any sequence of its turns. *)

From stdpp Require Import base list numbers strings gmap sorting.
From Stdlib Require Import Strings.Byte Sorting.Sorted.
From S2P Require Import Prelude Cursor RaftMessage RaftStorage RaftNode PdRegion PdCluster PdFsm PdReplica.

(** * The high-water never falls *)

Lemma found_upper f : f_tso_upper (found_unfounded_regions f).2 = f_tso_upper f.
Proof. unfold found_unfounded_regions. destruct (is_empty _); [done|]. by destruct (fold_left _ _ _). Qed.

Lemma adopt_upper n rs f : f_tso_upper (adopt_grown_voters n rs f).2 = f_tso_upper f.
Proof. unfold adopt_grown_voters. by destruct (fold_left _ _ _). Qed.

Lemma apply_upper c f : f_tso_upper f ≤ f_tso_upper (apply_cmd c f).
Proof.
  destruct c as [upper|name regime|n a rs now s]; cbn [apply_cmd].
  - cbn. lia.
  - rewrite found_upper. unfold declare_table. destruct (_ || _); [done|].
    destruct (existsb _ _); [done|]. by destruct (_ =? _).
  - set (f1 := if negb _ then _ else f).
    assert (E1 : f_tso_upper f1 = f_tso_upper f).
    { unfold f1. destruct (negb _); [|done]. by destruct (bt_get _ _). }
    cbn zeta. pose proof (adopt_upper n rs f1) as E2. destruct (adopt_grown_voters n rs f1) as [grown f2].
    set (f3 := f2 <| f_members := _ |>). pose proof (found_upper f3) as E4.
    destruct (found_unfounded_regions f3) as [founded f4]. cbn [snd] in *.
    change (f_tso_upper f3) with (f_tso_upper f2) in E4. rewrite <- E1, <- E2, <- E4.
    by destruct (_ || _).
Qed.

Lemma fsm_apply_upper b f : f_tso_upper f ≤ f_tso_upper (fsm_apply b f).
Proof. unfold fsm_apply. destruct (cmd_decode b); [apply apply_upper|done]. Qed.

Lemma restore_upper b f : f_tso_upper f ≤ f_tso_upper (restore b f).2.
Proof.
  unfold restore. destruct (_ <? _)%nat; [done|]. cbn zeta.
  destruct (mb_decode_from _ _) as [[pos|] ms]; [|done].
  destruct (get_rest _ _) as [[[[[[version next] cat] mem] stores] p]|]; [|done].
  destruct (reg_decode_from _ _) as [[] regs]; [|done]. cbn. lia.
Qed.

Lemma apply_entries_upper es f : f_tso_upper f ≤ f_tso_upper (fold_left apply_entry es f).
Proof.
  revert f. induction es as [|e es IH]; intros f; [done|]. cbn.
  etransitivity; [|apply IH]. unfold apply_entry. destruct (_ && _); [apply fsm_apply_upper|done].
Qed.

(** * Ranges *)

(** Ranges one after the other between [lo] and [hi]. *)
Fixpoint chain (lo : N) (l : list (N * N)) (hi : N) : Prop :=
  match l with
  | [] => lo ≤ hi
  | (first, count) :: l => lo ≤ first ∧ chain (first + N.max count 1) l hi
  end.

Lemma chain_le lo l hi : chain lo l hi → lo ≤ hi.
Proof.
  revert lo. induction l as [|[f c] l IH]; intros lo; cbn; [done|]. intros [? Hc%IH]. lia.
Qed.

Lemma chain_app lo l1 mid l2 hi : chain lo l1 mid → chain mid l2 hi → chain lo (l1 ++ l2) hi.
Proof.
  revert lo. induction l1 as [|[f c] l1 IH]; intros lo; cbn [chain app].
  - intros Hlo Hc. destruct l2 as [|[f c] l2]; cbn in *; [lia|]. destruct Hc. split; [lia|done].
  - intros [? ?] ?. split; [done|]. by apply IH.
Qed.

Lemma chain_lower lo l hi : chain lo l hi → Forall (λ x, lo ≤ x.1) l.
Proof.
  revert lo. induction l as [|[f c] l IH]; intros lo; cbn [chain]; [constructor|].
  intros [Hlo Hc%IH]. constructor; [done|]. eapply list.Forall_impl; [exact Hc|]. cbn. lia.
Qed.

Lemma chain_sorted lo l hi :
  chain lo l hi → StronglySorted (λ x y, x.1 + N.max x.2 1 ≤ y.1) l ∧
    Forall (λ x, lo ≤ x.1 ∧ x.1 + N.max x.2 1 ≤ hi) l.
Proof.
  revert lo. induction l as [|[f c] l IH]; intros lo; cbn [chain]; [split; constructor|].
  intros [Hlo Hc]. destruct (IH _ Hc) as [Hs Hf]. split.
  - constructor; [done|]. exact (chain_lower _ _ _ Hc).
  - constructor; [split; [done|by apply chain_le in Hc]|].
    eapply list.Forall_impl; [exact Hf|]. cbn. lia.
Qed.

Definition ts_of (out : list (N * Reply)) : list (N * N) :=
  omap (λ p, match p.2 with RTimestamps t => t | _ => None end) out.

Lemma ts_of_app a b : ts_of (a ++ b) = ts_of a ++ ts_of b.
Proof. apply omap_app. Qed.

Section Increasing.
Context {St : Type} `{Storage St}.
Implicit Types (r : PdReplica St) (a : Actor St).

Definition cursor_ok r : Prop := p_served r ≤ f_tso_upper (p_fsm r).

(** [r'] comes after [r], having handed out [l]. *)
Definition issues r (l : list (N * N)) r' : Prop :=
  cursor_ok r → cursor_ok r' ∧ chain (p_served r) l (p_served r').

Lemma issues_refl r : issues r [] r.
Proof. intros ?. cbn. split; [done|lia]. Qed.

Lemma issues_trans r1 l1 r2 l2 r3 : issues r1 l1 r2 → issues r2 l2 r3 → issues r1 (l1 ++ l2) r3.
Proof.
  intros H1 H2 Hr. destruct (H1 Hr) as [Hr2 C1]. destruct (H2 Hr2) as [Hr3 C2].
  split; [done|]. by eapply chain_app.
Qed.

(** An update that touches neither the cursor nor the state machine. *)
Lemma issues_node r r' : p_served r' = p_served r → p_fsm r' = p_fsm r → issues r [] r'.
Proof. unfold issues, cursor_ok. intros -> ->. cbn. lia. Qed.

Lemma hand_out_issues count r :
  issues r (match (hand_out count r).1 with Some first => [(first, count)] | None => [] end) (hand_out count r).2.
Proof.
  unfold hand_out. destruct (_ && _) eqn:E; [|apply issues_refl].
  apply andb_true_iff in E as [_ E%N.leb_le]. unfold issues, cursor_ok. cbn. lia.
Qed.

Lemma propose_issues cmd r : issues r [] (p_propose cmd r).2.
Proof. unfold p_propose. destruct (propose _ _). by apply issues_node. Qed.

Lemma ready_elect_issues r : issues r [] (ready_elect r).
Proof.
  unfold ready_elect. apply issues_node.
  - destruct (_ && _); [destruct (propose _ _)|]; by destruct (negb _).
  - destruct (_ && _); [destruct (propose _ _)|]; by destruct (negb _).
Qed.

Lemma ready_apply_issues r : issues r [] (ready_apply r).2.
Proof.
  unfold ready_apply. destruct (take_snapshot (p_node r)) as [snap node].
  set (r1 := match snap with Some _ => _ | None => _ end).
  assert (H1 : issues r [] r1).
  { unfold r1. destruct snap as [[i d]|]; [|by apply issues_node]. unfold issues, cursor_ok. cbn.
    pose proof (restore_upper d (p_fsm r)). lia. }
  clearbody r1. destruct (take_committed (p_node r1)) as [es node']. cbn [snd].
  change (@nil (N * N)) with ([] ++ [] : list (N * N)). eapply issues_trans; [exact H1|].
  unfold issues, cursor_ok. cbn. pose proof (apply_entries_upper es (p_fsm r1)). lia.
Qed.

Lemma ready_reset_issues r : issues r [] (ready_reset r).
Proof.
  unfold ready_reset. destruct (p_pending_reset r); [|apply issues_refl].
  destruct (_ <=? _); [|apply issues_refl]. unfold issues, cursor_ok. cbn. lia.
Qed.

Lemma ready_issues r rdy r' : ready r = Some (rdy, r') → issues r [] r'.
Proof.
  unfold ready. pose proof (ready_elect_issues r) as H1. set (r1 := ready_elect r) in *. clearbody r1.
  pose proof (ready_apply_issues r1) as H2. destruct (ready_apply r1) as [cs r2]. cbn [snd] in H2.
  pose proof (ready_reset_issues r2) as H3. set (r3 := ready_reset r2) in *. clearbody r3.
  destruct (ready_compact r3) as [r4|] eqn:Ec; [|done]. cbn. intros [= _ <-].
  assert (H4 : issues r3 [] (r4 <| p_node := (n_messages (p_node r4), (p_node r4) <| n_messages := [] |>).2 |>)).
  { unfold ready_compact in Ec. destruct (_ <=? _); [|injection Ec as <-; by apply issues_node].
    destruct (compact _ _ _); [|done]. cbn in Ec. injection Ec as <-. by apply issues_node. }
  exact (issues_trans _ _ _ _ _ H1 (issues_trans _ _ _ _ _ H2 (issues_trans _ _ _ _ _ H3 H4))).
Qed.

Lemma act_cmd_issues c a a' out reply :
  act_cmd c a = (a', out, reply) → issues (a_replica a) (ts_of out) (a_replica a').
Proof.
  destruct c as [|m|m tx|id ad rs now s tx|count tx|name regime tx]; cbn [act_cmd].
  - intros [= <- <- <-]. by apply issues_node.
  - intros [= <- <- <-]. by apply issues_node.
  - intros [= <- <- <-]. by apply issues_node.
  - destruct (negb _); [intros [= <- <- <-]; apply issues_refl|].
    match goal with |- context [p_propose ?x ?y] => pose proof (propose_issues x y) as P; destruct (p_propose x y) as [[i|e] r] end;
      intros [= <- <- <-]; exact P.
  - destruct (negb _); [intros [= <- <- <-]; apply issues_refl|].
    pose proof (hand_out_issues count (a_replica a)) as Hh. destruct (hand_out count (a_replica a)) as [[first|] r].
    + intros [= <- <- <-]. exact Hh.
    + match goal with |- context [p_propose ?x ?y] => pose proof (propose_issues x y) as P; destruct (p_propose x y) as [[i|e] r'] end;
        intros [= <- <- <-]; exact (issues_trans _ _ _ _ _ Hh P).
  - destruct (negb _); [intros [= <- <- <-]; apply issues_refl|].
    match goal with |- context [p_propose ?x ?y] => pose proof (propose_issues x y) as P; destruct (p_propose x y) as [[i|e] r] end;
      intros [= <- <- <-]; exact P.
Qed.

Lemma resolve_index_issues a out i :
  ∃ new, (resolve_index (a, out) i).2 = out ++ new ∧
    issues (a_replica a) (ts_of new) (a_replica (resolve_index (a, out) i).1).
Proof.
  unfold resolve_index.
  set (s1 := match bt_get i (a_pending_hb a) with Some _ => _ | None => _ end).
  assert (H1 : ∃ n1, s1.2 = out ++ n1 ∧ ts_of n1 = [] ∧ a_replica s1.1 = a_replica a).
  { unfold s1. destruct (bt_get i (a_pending_hb a)) as [[n tx]|]; [by eexists|].
    exists []. by rewrite app_nil_r. }
  destruct s1 as [a1 out1]. cbn [fst snd] in H1. destruct H1 as (n1 & -> & T1 & E1).
  set (s2 := match bt_get i (a_pending_decl a1) with Some _ => _ | None => _ end).
  assert (H2 : ∃ n2, s2.2 = (out ++ n1) ++ n2 ∧ ts_of n2 = [] ∧ a_replica s2.1 = a_replica a1).
  { unfold s2. destruct (bt_get i (a_pending_decl a1)) as [[n tx]|]; [by eexists|].
    exists []. by rewrite app_nil_r. }
  destruct s2 as [a2 out2]. cbn [fst snd] in H2. destruct H2 as (n2 & -> & T2 & E2).
  assert (E : a_replica a2 = a_replica a) by congruence.
  destruct (bt_get i (a_pending_ts a2)) as [[count tx]|].
  - pose proof (hand_out_issues count (a_replica a2)) as Hh.
    destruct (hand_out count (a_replica a2)) as [first r]. cbn [fst snd] in Hh |- *.
    exists (n1 ++ n2 ++ [(tx, RTimestamps ((λ first, (first, count)) <$> first))]).
    split; [by rewrite <- !app_assoc|]. rewrite !ts_of_app, T1, T2, <- E. by destruct first.
  - exists (n1 ++ n2). split; [by rewrite <- app_assoc|]. cbn [fst snd].
    rewrite ts_of_app, T1, T2, E. apply issues_refl.
Qed.

Lemma resolve_all_issues is_ a out :
  ∃ new, (fold_left resolve_index is_ (a, out)).2 = out ++ new ∧
    issues (a_replica a) (ts_of new) (a_replica (fold_left resolve_index is_ (a, out)).1).
Proof.
  revert a out. induction is_ as [|i is_ IH]; intros a out.
  { exists []. rewrite app_nil_r. split; [done|apply issues_refl]. }
  cbn [fold_left]. destruct (resolve_index_issues a out i) as (n1 & E1 & H1).
  destruct (resolve_index (a, out) i) as [a1 out1]. cbn [fst snd] in E1, H1. subst out1.
  destruct (IH a1 (out ++ n1)) as (n2 & E2 & H2). exists (n1 ++ n2).
  rewrite E2, <- app_assoc. split; [done|]. rewrite ts_of_app. by eapply issues_trans.
Qed.

Lemma route_messages_ts ms reply : ts_of (route_messages reply ms).1.1 = [].
Proof.
  revert reply. induction ms as [|m ms IH]; intros reply; [done|]. cbn [route_messages].
  pose proof (IH None) as Hn. destruct reply as [[from tx]|].
  - pose proof (IH (Some (from, tx))) as Hs.
    destruct (_ && _); [by destruct (route_messages None ms) as [[??]?]|].
    by destruct (route_messages (Some (from, tx)) ms) as [[??]?].
  - by destruct (route_messages None ms) as [[??]?].
Qed.

Lemma fail_parked_ts a : ts_of (fail_parked a).2 = [] ∧ a_replica (fail_parked a).1 = a_replica a.
Proof.
  unfold fail_parked. destruct (negb _); [|done]. split; [|done]. cbn [snd]. rewrite !ts_of_app.
  assert (H1 : ∀ {A} (g : A → N * Reply) l, (∀ x, match (g x).2 with RTimestamps t => t | _ => None end = None) →
    ts_of (g <$> l) = []).
  { intros A g l Hg. induction l as [|x l IH]; [done|]. rewrite fmap_cons. unfold ts_of. cbn. rewrite Hg. exact IH. }
  by rewrite !H1.
Qed.

Lemma turn_issues c a out ms a' :
  actor_turn c a = Some (out, ms, a') → issues (a_replica a) (ts_of out) (a_replica a').
Proof.
  unfold actor_turn. destruct (act_cmd c a) as [[a1 now] reply] eqn:E1. apply act_cmd_issues in E1.
  destruct (ready (a_replica a1)) as [[rdy r]|] eqn:E2; [|done]. cbn [mbind option_bind].
  apply ready_issues in E2. set (a2 := a1 <| a_replica := r |>).
  pose proof (route_messages_ts (rd_messages rdy) reply) as T.
  destruct (route_messages reply (rd_messages rdy)) as [[routed outm] reply']. cbn [fst] in T.
  destruct (resolve_all_issues (rd_committed rdy) a2 []) as (new & E3 & H3).
  destruct (fold_left resolve_index (rd_committed rdy) (a2, [])) as [a3 resolved]. cbn [fst snd app] in E3, H3.
  subst resolved. destruct (fail_parked_ts a3) as [T4 E4]. destruct (fail_parked a3) as [a4 failed].
  cbn [fst snd] in T4, E4. intros [= <- <- <-]. rewrite !ts_of_app, T, T4, E4, app_nil_r. cbn [app].
  assert (T5 : ts_of (match reply' with Some (_, tx) => [(tx, RMessage None)] | None => [] end) = [])
    by (by destruct reply' as [[? ?]|]).
  rewrite T5. cbn [app]. eapply issues_trans; [exact E1|].
  exact (issues_trans _ [] _ _ _ E2 H3).
Qed.

(** * Any number of turns *)

Fixpoint actor_run (cs : list Cmd) a : option (list (N * Reply) * Actor St) :=
  match cs with
  | [] => Some ([], a)
  | c :: cs => '(out, _, a) ← actor_turn c a; '(rest, a) ← actor_run cs a; Some (out ++ rest, a)
  end.

Lemma run_issues cs a out a' :
  actor_run cs a = Some (out, a') → issues (a_replica a) (ts_of out) (a_replica a').
Proof.
  revert a out. induction cs as [|c cs IH]; intros a out; cbn [actor_run].
  { intros [= <- <-]. apply issues_refl. }
  destruct (actor_turn c a) as [[[o ms] a1]|] eqn:E1; [|done]. cbn [mbind option_bind].
  destruct (actor_run cs a1) as [[rest a2]|] eqn:E2; [|done]. cbn. intros [= <- <-].
  rewrite ts_of_app. eapply issues_trans; [by eapply turn_issues|by eapply IH].
Qed.

Lemma with_storage_ok id voters s : cursor_ok (with_storage id voters s).
Proof. unfold with_storage, recover, cursor_ok. destruct (st_snapshot _); cbn; lia. Qed.
End Increasing.
