(* ===== verification/PdTheorems.v ===== *)
(** Properties of the placement driver and their witnesses: the region table, the timestamp
    oracle, the replicated state machine and its actor; and evaluated findings. *)

From stdpp Require Import base list numbers strings gmap sorting.
From Stdlib Require Import Strings.Byte Sorting.Sorted.
From S2P Require Import Prelude Encoding Cursor RaftMessage RaftStorage RaftNode PdRegion PdRegionCorrect PdTso PdCluster PdFsm.
From S2P Require Import PdFsmCorrect PdReplica PdReplicaCorrect.

(** * Regions *)

Inductive rop :=
  | RSplit (io : bool) (key : bytes)
  | RMerge (io : bool) (boundary : bytes).

Definition rop_exec (op : rop) (r : RegionRegistry) : RegionRegistry :=
  match op with
  | RSplit io key => (split io key r).2
  | RMerge io boundary => (merge io boundary r).2
  end.

Definition rops_exec (ops : list rop) (r : RegionRegistry) : RegionRegistry :=
  fold_left (λ r op, rop_exec op r) ops r.

Lemma rops_wf ops r : rs_wf (reg_state r) → rs_wf (reg_state (rops_exec ops r)).
Proof.
  revert r. induction ops as [|op ops IH]; intros r Hr; [done|]. cbn. apply IH.
  destruct op; [by apply split_wf|by apply merge_wf].
Qed.

Lemma in_memory_wf : rs_wf (reg_state in_memory).
Proof. split; [done|apply NoDup_singleton|by repeat constructor]. Qed.

(** C25. Through any splits and merges, whether they succeed, are refused or fail to
    persist, the region table stays a partition of the keyspace: every key is in
    exactly one region, routing finds that one, and region ids stay distinct and
    below the next id to assign. *)
Theorem region_table_partition ops key :
  let r := rops_exec ops in_memory in
  NoDup (r_id <$> list_regions r) ∧ Forall (λ x, r_id x < rs_next_id (reg_state r)) (list_regions r) ∧
  ∃ x, route key r = Some x ∧
    ∀ y, y ∈ list_regions r → r_contains y key = true ↔ y = x.
Proof.
  intros r. pose proof (rops_wf ops in_memory in_memory_wf) as Hw. fold r in Hw.
  split; [apply Hw|]. split; [apply Hw|].
  destruct (route_total r key Hw) as (l1 & x & l2 & E & Hr & Hc & _). exists x. split; [done|].
  intros y Hy. split; [|by intros ->]. intros Hcy. apply (inj Some). rewrite <- Hr. symmetry.
  by apply route_iff.
Qed.

(** A split is refused exactly at a region's start.  Otherwise the keys of the
    region below the split key go to the left half, which keeps the id, the others to
    the right half, which gets the next id; both get the next epoch, and no other key
    changes its region.  When the new table cannot be persisted the caller gets the
    error, but the table is split all the same. *)
Lemma split_moves_keys (r : RegionRegistry) (k : bytes) (io : bool) :
  rs_wf (reg_state r) →
  ∃ t, route k r = Some t ∧
    (r_start t = k → split io k r =
      (inr (InvalidInput "split_key must be strictly greater than the region start"), r)) ∧
    (r_start t ≠ k →
      let L := mkRegion (r_id t) (r_start t) k (r_epoch t + 1) in
      let R := mkRegion (rs_next_id (reg_state r)) k (r_end t) (r_epoch t + 1) in
      (split io k r).1 = (if negb io && bool_decide (reg_file r ≠ None) then inr IoFailure else inl (L, R)) ∧
      ∀ key, route key (split io k r).2 =
        if r_contains t key then Some (if bytes_ltb key k then L else R) else route key r).
Proof.
  intros Hw. destruct (split_cases io k r Hw) as (l1 & t & l2 & E & Hc & Hcase). exists t.
  split; [apply route_iff; [done|]; rewrite E; split; [apply elem_of_app; right; left|done]|].
  destruct Hcase as [[Hs Hsp]|[Hlt Hsp]].
  { split; [done|]. intros Hne. by destruct Hne. }
  split; [intros Hs; rewrite Hs in Hlt; by apply bytes_lt_irrefl in Hlt|]. intros _ L R. cbn zeta in Hsp.
  split.
  - rewrite Hsp. cbn [fst]. unfold persist. cbn [reg_file set_field].
    destruct (reg_file r) as [f|]; [|by rewrite bool_decide_false, andb_false_r by naive_solver].
    rewrite bool_decide_true, andb_true_r by done. by destruct io.
  - intros key. apply (split_routes_state r _ l1 t l2 k (rs_next_id (reg_state r))); try done.
    + by apply split_wf.
    + rewrite Hsp. cbn [snd]. by rewrite persist_state.
Qed.

(** Merging at the key of a split restores the table, but for the left half's
    epoch, which has grown by two, and the next id. *)
Lemma merge_undoes_split (r : RegionRegistry) (k : bytes) t :
  rs_wf (reg_state r) → route k r = Some t → r_start t ≠ k →
  let t' := mkRegion (r_id t) (r_start t) (r_end t) (r_epoch t + 2) in
  let r' := (merge true k (split true k r).2).2 in
  (merge true k (split true k r).2).1 = inl t' ∧
  ∃ l1 l2, list_regions r = l1 ++ t :: l2 ∧ list_regions r' = l1 ++ t' :: l2.
Proof.
  intros Hw Hr Hne t' r'. destruct (split_cases true k r Hw) as (l1 & x & l2 & E & Hc & Hcase).
  assert (x = t) as ->.
  { apply (inj Some). rewrite <- Hr. symmetry. apply route_iff; [done|]. rewrite E.
    split; [apply elem_of_app; right; left|done]. }
  destruct Hcase as [[Hs _]|[Hlt Hsp]]; [done|]. cbn zeta in Hsp.
  set (L := left_half t k) in *. set (R := right_half t k (rs_next_id (reg_state r))) in *.
  set (s := (split true k r).2) in *.
  assert (Es : rs_regions (reg_state s) = l1 ++ L :: R :: l2)
    by (unfold s; rewrite Hsp; cbn [snd]; by rewrite persist_state).
  assert (Hws : rs_wf (reg_state s)) by by apply split_wf.
  assert (Hm : merged L R = t').
  { unfold merged, L, R, t'. cbn. f_equal. lia. }
  destruct (merge_cases true k s Hws) as [[_ Hno]|[[-> _]|(m1 & a & b & m2 & Em & Hb & Ha & Hmg)]].
  - exfalso. apply (Hno R); [|done]. rewrite Es. apply elem_of_app. right. right. left.
  - exfalso. by apply bytes_lt_nil in Hlt.
  - assert (b = R) as ->.
    { apply (inj Some). transitivity (route k s); [symmetry|]; apply route_iff; try done; split.
      - rewrite Em. apply elem_of_app. right. right. left.
      - apply r_contains_spec. rewrite Hb. split; [apply bytes_le_refl|].
        pose proof (rw_tiled _ Hws) as Ht. rewrite Em in Ht.
        apply tiled_app in Ht as [_ Ht]. apply tiled_cons in Ht as (_ & _ & Ht).
        destruct m2 as [|y m2]; [left; by destruct Ht|]. apply tiled_cons in Ht as (Hs & Hl & _).
        right. congruence.
      - rewrite Es. apply elem_of_app. right. right. left.
      - apply r_contains_spec. split; [apply bytes_le_refl|]. by apply r_contains_spec in Hc as [_ ?]. }
    assert (Hsplit : m1 ++ [a] = l1 ++ [L] ∧ m2 = l2).
    { rewrite Em in Es. assert (Es' : (m1 ++ [a]) ++ R :: m2 = (l1 ++ [L]) ++ R :: l2) by by rewrite <- !app_assoc.
      pose proof (rw_nodup _ Hws) as Hnd. rewrite Em in Hnd.
      assert (Hnd' : NoDup ((m1 ++ [a]) ++ R :: m2)) by (rewrite <- app_assoc; by eapply NoDup_fmap_1).
      assert (Hn1 : R ∉ m1 ++ [a]) by (apply NoDup_app in Hnd' as (_ & Hd & _); intros Hin; apply (Hd R Hin); left).
      assert (Hn2 : R ∉ l1 ++ [L]) by (rewrite Es' in Hnd'; apply NoDup_app in Hnd' as (_ & Hd & _); intros Hin; apply (Hd R Hin); left).
      by apply (app_cons_unique _ _ R). }
    destruct Hsplit as [Hl ->]. apply app_inj_tail in Hl as [-> ->]. cbn zeta in Hmg. rewrite Hm in Hmg.
    unfold r'. rewrite Hmg. cbn [fst snd]. rewrite persist_ok. split; [done|].
    exists l1, l2. split; [done|]. unfold list_regions. by rewrite persist_state.
Qed.

(** A split is refused exactly at a region's start and otherwise moves exactly the
    keys of the region at or above the split key to a region with the next id, whether
    or not the new table reaches the disk; merging at that key restores the table up to
    the epoch. *)
Lemma split_and_merge_exact (r : RegionRegistry) (k : bytes) (io : bool) :
  rs_wf (reg_state r) →
  ∃ t, route k r = Some t ∧
    (r_start t = k → split io k r =
      (inr (InvalidInput "split_key must be strictly greater than the region start"), r)) ∧
    (r_start t ≠ k →
      let L := mkRegion (r_id t) (r_start t) k (r_epoch t + 1) in
      let R := mkRegion (rs_next_id (reg_state r)) k (r_end t) (r_epoch t + 1) in
      (split io k r).1 = (if negb io && bool_decide (reg_file r ≠ None) then inr IoFailure else inl (L, R)) ∧
      (∀ key, route key (split io k r).2 =
        if r_contains t key then Some (if bytes_ltb key k then L else R) else route key r) ∧
      let t' := mkRegion (r_id t) (r_start t) (r_end t) (r_epoch t + 2) in
      let '(m, r') := merge true k (split true k r).2 in
      m = inl t' ∧ ∃ l1 l2, list_regions r = l1 ++ t :: l2 ∧ list_regions r' = l1 ++ t' :: l2).
Proof.
  intros Hw. destruct (split_moves_keys r k io Hw) as (t & Ht & Hs & Hn). exists t. split_and!; [done|done|].
  intros Hne. destruct (Hn Hne) as [Ha Hb]. split_and!; [exact Ha|exact Hb|].
  pose proof (merge_undoes_split r k t Hw Ht Hne) as Hm. by destruct (merge true k (split true k r).2) as [m r'].
Qed.

(** The region table is found again after a restart as it was last persisted, and
    a command of the replicated log is decoded by every replica as it was proposed. *)
Lemma pd_codecs_roundtrip (r : RegionRegistry) f b e (c : PdCmd) :
  reg_file r = Some f → state_fits (reg_state r) → cmd_fits c →
  open_inner (reg_file (persist true r).2) b e true = inl (persist true r).2 ∧
  reg_state (persist true r).2 = reg_state r ∧
  cmd_decode (cmd_encode c) = Some c.
Proof.
  intros Hf Hs Hc. split; [by eapply reopen_persisted|]. split; [apply persist_state|].
  by apply cmd_decode_encode.
Qed.

(** A table's range holds exactly its stored keys: a stored key is in the range
    of its table and of no other, its table and user key are read back from it, and
    the range of any prefix that has a successor holds exactly the keys with that
    prefix. *)
Lemma table_ranges_exact id j rid epoch user_key prefix end_ key :
  is_u32 id → is_u32 j → prefix_successor prefix = Some end_ →
  let stored := table_key id user_key in
  (r_contains (mkRegion rid (table_range j).1 (table_range j).2 epoch) stored = true ↔ j = id) ∧
  table_id_of stored = id ∧ strip_table_prefix stored = user_key ∧
  (bytes_le prefix key ∧ bytes_lt key end_ ↔ prefix `prefix_of` key).
Proof.
  intros Hid Hj Hp stored. destruct (table_key_parts id user_key Hid) as [E1 E2]. fold stored in E1, E2.
  split; [|split; [done|split; [done|by apply prefix_range]]].
  rewrite table_range_contains; [by rewrite E1| |done|by rewrite E1].
  unfold stored, table_key. rewrite length_app. unfold table_prefix. rewrite length_be_bytes.
  unfold TABLE_PREFIX_LEN. lia.
Qed.

(** * Timestamps *)

(** C26. The oracle never hands out a timestamp twice: over any allocations, failed
    writes, restarts and crashes in the middle of an allocation, whatever the wall
    clock reads, the ranges handed out are one after the other and above zero, as
    long as clocks stay below 2^45 ms and the total demand below 2^62. *)
Theorem tso_never_repeats (es : list tso_event) :
  Forall (λ e, event_clock e < CLOCK_LIMIT) es → total_demand es ≤ 4611686018427387904 →
  StronglySorted (λ a b, a.1 + a.2 ≤ b.1) (tso_run es (tso_open None)) ∧
  Forall (λ a, 1 ≤ a.1 ∧ a.1 + a.2 ≤ u64_max) (tso_run es (tso_open None)).
Proof.
  intros Hc Hd. destruct (tso_run_sorted es (tso_open None) 0 0 tso_open_fresh Hc Hd) as [Hs Hf].
  split; [done|]. eapply list.Forall_impl; [exact Hf|]. cbn. tauto.
Qed.

(** C27. Over any turns of a PD actor, whatever messages, proposals and leadership
    changes it sees, the timestamp ranges it answers with are one after the other,
    and below the high-water its state machine has applied. *)
Theorem actor_timestamps_increase {St : Type} `{Storage St} id voters (storage : St) (cs : list Cmd) out a :
  actor_run cs (mkActor (with_storage id voters storage) [] [] []) = Some (out, a) →
  StronglySorted (λ x y, x.1 + N.max x.2 1 ≤ y.1) (ts_of out) ∧
  Forall (λ x, x.1 + N.max x.2 1 ≤ f_tso_upper (p_fsm (a_replica a))) (ts_of out).
Proof.
  intros Hrun. destruct (run_issues _ _ _ _ Hrun (with_storage_ok id voters storage)) as [Hok Hc].
  destruct (chain_sorted _ _ _ Hc) as [Hs Hf]. split; [done|].
  eapply list.Forall_impl; [exact Hf|]. unfold cursor_ok in Hok. cbn. lia.
Qed.

(** * The replicated state machine *)

(** C28. A replica that adopts a snapshot has the leader's members, region table,
    catalog, voter sets and store bindings, and its high-water, catalog version and
    id allocator never move back; a fresh replica has exactly the snapshot's state. *)
Theorem pd_snapshot_restores (f g : PdFsm) :
  fsm_fits f →
  let r := restore (snapshot f) g in
  r.1 = true ∧
  mb_nodes (f_members r.2) = mb_nodes (f_members f) ∧
  reg_state (f_regions r.2) = reg_state (f_regions f) ∧ f_catalog r.2 = f_catalog f ∧
  f_region_members r.2 = f_region_members f ∧ f_stores r.2 = f_stores f ∧
  f_tso_upper r.2 = N.max (f_tso_upper g) (f_tso_upper f) ∧
  f_version r.2 = N.max (f_version g) (f_version f) ∧
  f_next_table_id r.2 = N.max (f_next_table_id g) (f_next_table_id f).
Proof. intros Hf r. unfold r. rewrite restore_snapshot by done. done. Qed.

(** C29. Whatever log is applied, every table has its own region and no key of a
    declared table is outside it: table ids are 0, 1, 2, ... in declaration order,
    names are distinct, there are as many regions as tables, and a stored key of a
    declared table routes to the region at its table's position. *)
Theorem pd_catalog_tiles_keyspace (log : list bytes) :
  let f := fsm_run log PdFsm_new in
  tb_id <$> f_catalog f = N.of_nat <$> seq 0 (length (f_catalog f)) ∧
  NoDup (tb_name <$> f_catalog f) ∧
  length (list_regions (f_regions f)) = length (f_catalog f) ∧
  ∀ key i, (4 ≤ length key)%nat → table_id_of key = N.of_nat i → (i < length (f_catalog f))%nat →
    route key (f_regions f) = list_regions (f_regions f) !! i ∧ is_Some (route key (f_regions f)).
Proof.
  intros f. pose proof (run_inv log PdFsm_new new_inv) as Hi. fold f in Hi.
  assert (Hlen : length (f_catalog f) = N.to_nat (f_next_table_id f)).
  { pose proof (f_equal length (ci_ids _ Hi)) as E. by rewrite !length_fmap, length_seq in E. }
  assert (Hrl : length (list_regions (f_regions f)) = N.to_nat (f_next_table_id f)).
  { pose proof (f_equal length (ci_starts _ Hi)) as E. rewrite length_fmap in E. rewrite E.
    unfold table_starts. cbn [length]. rewrite length_fmap, length_seq. pose proof (ci_next _ Hi). lia. }
  split; [rewrite Hlen; apply Hi|]. split; [apply Hi|]. split; [lia|].
  intros key i Hl Hk Hlt.
  destruct (list_regions (f_regions f) !! i) as [r|] eqn:Hr; [|apply lookup_ge_None in Hr; lia].
  assert (Hrt : route key (f_regions f) = Some r); [|by rewrite Hrt].
  apply route_iff; [apply Hi|]. split; [by eapply list_elem_of_lookup_2|].
  apply (table_region f); [done|done|lia|]. by rewrite Hk, Nat2N.id.
Qed.

(** Voter sets never lose a voter: applying a command keeps every voter of every
    region, and once a node is live every region has one.  The voters PD asks for
    start with the members, add distinct live nodes only, and exceed neither the
    replication target nor the members; when they fall short every live node is
    among them. *)
Lemma voters_only_grow (f : PdFsm) (c : PdCmd) :
  (∀ id v, v ∈ members_of id (f_region_members f) → v ∈ members_of id (f_region_members (apply_cmd c f))) ∧
  (∀ r, live_nodes (f_members f) ≠ [] → (1 ≤ f_replicas f)%nat → r ∈ list_regions (f_regions f) →
     members_of (r_id r) (f_region_members (found_unfounded_regions f).2) ≠ []) ∧
  (∀ members live, ∃ ext, desired members live f = members ++ ext ∧ ext ⊆ live ∧ NoDup ext ∧
     (∀ x, x ∈ ext → x ∉ members) ∧
     (length (members ++ ext) ≤ Nat.max (f_replicas f) (length members))%nat ∧
     ((length (members ++ ext) < f_replicas f)%nat → ∀ x, x ∈ live → x ∈ members ++ ext)).
Proof.
  split; [apply apply_grows|]. split; [intros r; apply found_nonempty|].
  intros members live. apply grow_desired_spec.
Qed.

(** * Witnesses *)

(** Two regions, persisted. *)
Definition ex_registry : RegionRegistry :=
  mkRegistry (mkRState [mkRegion 1 [] [x6d] 2; mkRegion 2 [x6d] [] 2] 3) (Some []).

(** Ground facts, by evaluation. *)
Ltac ground :=
  repeat match goal with
  | |- _ ∧ _ => split
  | |- members_fit _ => split
  | |- Forall _ [] => constructor
  | |- Forall _ (_ :: _) => constructor
  | |- StronglySorted _ [] => constructor
  | |- StronglySorted _ (_ :: _) => constructor
  | |- _ < _ => reflexivity
  | |- _ ≤ _ => vm_compute; discriminate
  | |- _ = Gt → False => vm_compute; discriminate
  | |- _ = _ => reflexivity
  | |- Forall ?P ?l => let l' := eval vm_compute in l in change (Forall P l')
  | |- StronglySorted ?P ?l => let l' := eval vm_compute in l in change (StronglySorted P l')
  | |- _ => progress hnf
  end.

Lemma ex_registry_wf : rs_wf (reg_state ex_registry).
Proof.
  split; [by ground|apply (bool_decide_unpack _); vm_compute; exact I|by ground].
Qed.

Lemma split_and_merge_exact_witness :
  ∃ t, route [x63] ex_registry = Some t ∧
    (r_start t ≠ [x63] →
      route [x64] (split true [x63] ex_registry).2 = Some (mkRegion 3 [x63] [x6d] 3) ∧
      (merge true [x63] (split true [x63] ex_registry).2).1 = inl (mkRegion 1 [] [x6d] 4)).
Proof.
  destruct (split_and_merge_exact ex_registry [x63] true ex_registry_wf) as (t & Ht & _ & H).
  exists t. split; [exact Ht|]. intros Hne. destruct (H Hne) as (_ & Hr & Hm).
  assert (E : t = mkRegion 1 [] [x6d] 2) by (vm_compute in Ht; congruence). subst t.
  split; [rewrite Hr; vm_compute; reflexivity|].
  destruct (merge true [x63] (split true [x63] ex_registry).2) as [m r']. exact (proj1 Hm).
Defined.

Definition ex_cmd : PdCmd :=
  Heartbeat 7 [x61; x3a; x31] [mkReplicaSet (mkRegion 1 [] [x6d] 2) Ap [7; 8] []] 100 [x73].

Lemma pd_codecs_roundtrip_witness :
  open_inner (reg_file (persist true ex_registry).2) true 2 true = inl (persist true ex_registry).2 ∧
  reg_state (persist true ex_registry).2 = reg_state ex_registry ∧
  cmd_decode (cmd_encode ex_cmd) = Some ex_cmd.
Proof.
  apply (pd_codecs_roundtrip ex_registry [] true 2 ex_cmd); [reflexivity|ground|ground].
Defined.

Lemma table_ranges_exact_witness :
  table_id_of (table_key 5 [x6b]) = 5 ∧ strip_table_prefix (table_key 5 [x6b]) = [x6b] ∧
  (bytes_le [x61; xff] [x61; xff; x00] ∧ bytes_lt [x61; xff; x00] [x62] ↔ [x61; xff] `prefix_of` [x61; xff; x00]).
Proof.
  apply (table_ranges_exact 5 6 1 1 [x6b] [x61; xff] [x62] [x61; xff; x00]);
    [vm_compute; discriminate|vm_compute; discriminate|vm_compute; reflexivity].
Defined.

Definition ex_events : list tso_event :=
  [TAlloc 5 true 3; TAlloc 4 true 1; TCrash 9 2 true; TAlloc 2 false 70000; TRestart; TAlloc 0 true 1].

Lemma tso_never_repeats_witness :
  tso_run ex_events (tso_open None) = [(1310720, 3); (1310723, 1); (2424834, 1)] ∧
  StronglySorted (λ a b, a.1 + a.2 ≤ b.1) (tso_run ex_events (tso_open None)).
Proof.
  split; [vm_compute; reflexivity|]. apply (tso_never_repeats ex_events).
  - unfold ex_events. repeat (constructor; [vm_compute; reflexivity|]). constructor.
  - vm_compute. discriminate.
Defined.

Definition ex_actor : Actor MemStorage := mkActor (with_storage 1 [1] MemStorage_new) [] [] [].
Definition ex_turns : list Cmd :=
  replicate 20 ATick ++ [AAllocTs 5 1; AAllocTs 3 2; ADeclareTable [x74] Ap 3; AAllocTs 2 5].

Lemma actor_timestamps_increase_witness :
  ∃ out a, actor_run ex_turns ex_actor = Some (out, a) ∧ ts_of out = [(0, 5); (5, 3); (8, 2)] ∧
    StronglySorted (λ x y, x.1 + N.max x.2 1 ≤ y.1) (ts_of out).
Proof.
  destruct (actor_run ex_turns ex_actor) as [[out a]|] eqn:E; [|vm_compute in E; discriminate].
  exists out, a. split; [reflexivity|]. split.
  - assert (H : (λ p, ts_of p.1) <$> actor_run ex_turns ex_actor = Some [(0, 5); (5, 3); (8, 2)])
      by (vm_compute; reflexivity).
    rewrite E in H. exact (f_equal (default []) H).
  - apply (actor_timestamps_increase 1 [1] MemStorage_new ex_turns out a). exact E.
Defined.

Definition ex_fsm : PdFsm :=
  apply_cmd (ReserveTs 65536) (apply_cmd (DeclareTable [x74] Ap) (apply_cmd ex_cmd PdFsm_new)).

Lemma pd_snapshot_restores_witness :
  (restore (snapshot ex_fsm) PdFsm_new).1 = true ∧
  f_tso_upper (restore (snapshot ex_fsm) PdFsm_new).2 = 65536 ∧
  f_catalog (restore (snapshot ex_fsm) PdFsm_new).2 = f_catalog ex_fsm.
Proof.
  assert (Hf : fsm_fits ex_fsm) by (split; ground).
  destruct (pd_snapshot_restores ex_fsm PdFsm_new Hf) as (H1 & _ & _ & H2 & _ & _ & H3 & _).
  split; [exact H1|]. split; [rewrite H3; vm_compute; reflexivity|exact H2].
Defined.

(** * Findings

    Behaviours of the placement driver that its comments rule out, as evaluated
    executions. *)

(** * A cluster of actors

    The transport of [run_sender]: a request is answered through its ticket and the
    answer stepped into the sender; [keep] says which messages the network delivers. *)

Record World := mkWorld {
  w_actors : btree (Actor MemStorage);
  w_flight : list Message;
  w_out : list (N * (N * Reply));
}.

(** One turn of node [i]. *)
Definition world_turn (i : N) (c : Cmd) (w : World) : World :=
  match bt_get i (w_actors w) with
  | None => w
  | Some a =>
    match actor_turn c a with
    | None => w
    | Some (out, ms, a) =>
      let answers := omap (λ p : N * Reply, match p.2 with RMessage m => m | _ => None end) out in
      mkWorld (bt_insert i a (w_actors w)) (w_flight w ++ ms ++ answers)
        (w_out w ++ ((λ p, (i, p)) <$> List.filter (λ p : N * Reply, negb (p.1 =? 0)) out))
    end
  end.

Definition deliver (m : Message) (w : World) : World :=
  world_turn (m_to m) (if is_response (m_body m) then AStep m else AStepReply m 0) w.

(** Deliver what [keep] lets through until nothing is in flight; the rest is lost. *)
Fixpoint pump (fuel : nat) (keep : Message → bool) (w : World) : World :=
  match fuel with
  | O => w
  | S fuel =>
    match w_flight w with
    | [] => w
    | m :: ms =>
      let w := mkWorld (w_actors w) ms (w_out w) in
      pump fuel keep (if keep m then deliver m w else w)
    end
  end.

Definition all (m : Message) : bool := true.
Definition votes_only (m : Message) : bool :=
  match m_body m with RequestVote _ _ | RequestVoteResp _ => true | _ => false end.

(** [n] ticks of node [i], delivering after each. *)
Fixpoint campaign (n : nat) (keep : Message → bool) (i : N) (w : World) : World :=
  match n with
  | O => w
  | S n =>
    match bt_get i (w_actors w) with
    | Some a => if p_is_leader (a_replica a) then w
                else campaign n keep i (pump 200 keep (world_turn i ATick w))
    | None => w
    end
  end.

Definition three : World :=
  mkWorld ((λ i, (i, mkActor (with_storage i [1; 2; 3] MemStorage_new) [] [] [])) <$> [1; 2; 3]) [] [].

(** Node 1 leads and serves timestamps, then node 2 does; node 1 hears of node 2's
    reservation, wins again, and is asked before its no-op is committed. *)
Definition two_leaders : World :=
  let w := campaign 40 all 1 three in
  let w := pump 200 all (world_turn 1 (AAllocTs 100 11) w) in
  let w := campaign 40 all 2 w in
  let w := pump 200 all (world_turn 2 (AAllocTs 10 22) w) in
  let w := pump 200 all (world_turn 2 ATick w) in
  let w := campaign 40 votes_only 1 w in
  world_turn 1 (AAllocTs 70000 33) w.

(** [hand_out] checks leadership but not [pending_reset]: a re-elected leader serves
    from its old cursor, below and across what another leader handed out. *)
Theorem reelected_leader_repeats_timestamps :
  w_out two_leaders =
  [(1, (11, RTimestamps (Some (0, 100))));
   (2, (22, RTimestamps (Some (65636, 10))));
   (1, (33, RTimestamps (Some (100, 70000))))].
Proof. vm_compute. reflexivity. Qed.

(** * Region ids *)

(** Node 1 adopts a region minted by node 2 and splits; node 2 splits: one id twice. *)
Theorem adopted_ids_collide :
  ∃ r1 r2, open_empty None 1 true = inl r1 ∧ open_empty None 2 true = inl r2 ∧
    let shared := mkRegion (region_id 2 1) [] [] 1 in
    let r1 := (adopt true [shared] r1).2 in
    let r2 := (adopt true [shared] r2).2 in
    ∃ a b c d, (split true [x61] r1).1 = inl (a, b) ∧ (split true [x62] r2).1 = inl (c, d) ∧
      r_id b = r_id d.
Proof.
  eexists _, _. split; [reflexivity|]. split; [reflexivity|]. cbn zeta.
  eexists _, _, _, _. split; [vm_compute; reflexivity|]. split; [vm_compute; reflexivity|]. reflexivity.
Qed.

(** * Snapshots *)

(** A snapshot cut after its first section is refused, but the members are replaced. *)
Theorem truncated_snapshot_half_applies :
  let f := apply_cmd (Heartbeat 7 [x61] [] 100 [x73]) PdFsm_new in
  let cut := take (8 + length (mb_encode_into [] (f_members f)))%nat (snapshot f) in
  (restore cut PdFsm_new).1 = false ∧
  mb_nodes (f_members PdFsm_new) = [] ∧
  bt_keys (mb_nodes (f_members (restore cut PdFsm_new).2)) = [7].
Proof. vm_compute. auto. Qed.

(** A replica that adopts an older snapshot and replays the same log allocates
    other table ids. *)
Theorem older_snapshot_forks_ids :
  let old := PdFsm_new in
  let log := [cmd_encode (DeclareTable [x74] Cp)] in
  let now := fold_left (λ f b, fsm_apply b f) log old in
  let back := fold_left (λ f b, fsm_apply b f) log (restore (snapshot old) now).2 in
  table_id [x74] now = Some 1 ∧ table_id [x74] back = Some 2.
Proof. vm_compute. auto. Qed.
