(* ===== verification/AntiEntropy.v ===== *)
(** The core of AP anti-entropy ([server/src/anti_entropy.rs]): per-bucket digests,
    the Merkle descent, and the choice of versions to adopt.  Hashes keep their
    64-bit wrap-around. *)

From stdpp Require Import base list numbers gmap sorting.
From Stdlib Require Import Strings.Byte.
From S2P Require Import Prelude.

Definition LEAVES : nat := 256.

Record Version := mkVersion {
  v_key : bytes;
  v_version : N;
  v_value : bytes;
  v_is_delete : bool;
}.

#[export] Instance version_eq_dec : EqDecision Version.
Proof. solve_decision. Defined.

(** * Hashes *)

Definition FNV_OFFSET : N := 14695981039346656037.
Definition FNV_PRIME : N := 1099511628211.

Definition fnv1a_step (h : N) (b : bytes) : N :=
  let h := fold_left (λ h x, u64_mul (N.lxor h (Byte.to_N x)) FNV_PRIME) b h in
  u64_mul (N.lxor h 255) FNV_PRIME.

Definition fnv1a (b : bytes) : N := fnv1a_step FNV_OFFSET b.

Definition mix (a b : N) : N :=
  let h := fnv1a_step FNV_OFFSET (u64_be a) in
  fnv1a_step h (u64_be b).

(** * Digests *)

Definition bucket_of (key : bytes) : nat := N.to_nat (fnv1a key mod N.of_nat LEAVES).

(** [Ord] on [(&[u8], u64)]. *)
Definition entry_le (a b : bytes * N) : Prop := bytes_lt a.1 b.1 ∨ (a.1 = b.1 ∧ a.2 ≤ b.2).
#[export] Instance entry_le_dec a b : Decision (entry_le a b).
Proof. unfold entry_le. apply _. Defined.

Definition bucket_entries (i : nat) (versions : list Version) : list (bytes * N) :=
  (λ v, (v_key v, v_version v)) <$> List.filter (λ v, (bucket_of (v_key v) =? i)%nat) versions.

Definition leaf_hash (entries : list (bytes * N)) : N :=
  fold_left (λ h e, fnv1a_step (fnv1a_step h e.1) (u64_be e.2)) (merge_sort entry_le entries) FNV_OFFSET.

Definition digest (versions : list Version) : list N :=
  (λ i, leaf_hash (bucket_entries i versions)) <$> seq 0 LEAVES.

(** * The Merkle tree *)

(** [nodes[i]]. *)
Definition node (nodes : list N) (i : nat) : N := default 0 (nodes !! i).

Definition from_digest (leaves : list N) : list N :=
  let nodes := replicate LEAVES 0 ++ leaves in
  fold_left (λ nodes i, <[i := mix (node nodes (2 * i)) (node nodes (2 * i + 1))]> nodes)
    (rev (seq 1 (LEAVES - 1))) nodes.

(** The descent; the top of the stack is its head.  Every node is visited at most
    once, so [2 * LEAVES] turns are enough ([descend_all]). *)
Fixpoint descend (fuel : nat) (a b : list N) (stack out : list nat) : list nat :=
  match fuel with
  | O => out
  | S fuel =>
    match stack with
    | [] => out
    | i :: stack =>
      if node a i =? node b i then descend fuel a b stack out
      else if (LEAVES <=? i)%nat then descend fuel a b stack (out ++ [(i - LEAVES)%nat])
      else descend fuel a b ((2 * i + 1)%nat :: (2 * i)%nat :: stack) out
    end
  end.

Definition differing_leaves (a b : list N) : list nat :=
  merge_sort Nat.le (descend (2 * LEAVES) a b [1%nat] []).

Definition diff (local remote : list N) : list nat :=
  differing_leaves (from_digest local) (from_digest remote).

(** * Merging *)

Definition to_adopt (local : gmap bytes N) (remote : list Version) : list Version :=
  List.filter (λ r, match local !! v_key r with Some mine => mine <? v_version r | None => true end) remote.

(** * The descent is exact *)

Section Descent.
Context (a b : list N).

(** What the descent collects under node [i], [d] levels above the leaves. *)
Fixpoint pruned (d i : nat) : list nat :=
  if node a i =? node b i then []
  else match d with
       | O => [(i - LEAVES)%nat]
       | S d => pruned d (2 * i + 1) ++ pruned d (2 * i)
       end.

(** [i] is a node [d] levels above the leaves. *)
Definition in_tree (d i : nat) : Prop := (LEAVES ≤ i * 2 ^ d)%nat ∧ ((i + 1) * 2 ^ d ≤ 2 * LEAVES)%nat.

Lemma in_tree_children d i : in_tree (S d) i → in_tree d (2 * i) ∧ in_tree d (2 * i + 1) ∧ (1 ≤ i < LEAVES)%nat.
Proof.
  unfold in_tree. rewrite Nat.pow_succ_r'. assert (1 ≤ 2 ^ d)%nat by (pose proof (Nat.pow_nonzero 2 d); lia).
  unfold LEAVES. intros [H1 H2]. split_and!; nia.
Qed.

Definition visits (d : nat) : nat := (2 ^ S d - 1)%nat.

Lemma descend_subtree d i fuel stack out :
  in_tree d i → (visits d ≤ fuel)%nat →
  ∃ k, (k ≤ visits d)%nat ∧ (k ≤ fuel)%nat ∧
    descend fuel a b (i :: stack) out = descend (fuel - k) a b stack (out ++ pruned d i).
Proof.
  unfold visits. revert i fuel stack out. induction d as [|d IH]; intros i fuel stack out Hi Hf.
  - exists 1%nat. cbn in Hf. destruct fuel as [|fuel]; [lia|]. split; [cbn; lia|]. split; [lia|].
    rewrite Nat.sub_succ, Nat.sub_0_r. cbn [descend pruned].
    destruct (node a i =? node b i); [by rewrite app_nil_r|].
    destruct (Nat.leb_spec LEAVES i); [done|]. unfold in_tree in Hi. cbn in Hi. lia.
  - assert (Hp : (2 ^ S (S d) = 2 * 2 ^ S d)%nat) by apply Nat.pow_succ_r'.
    assert (Hp' : (2 ^ S d = 2 * 2 ^ d)%nat) by apply Nat.pow_succ_r'.
    assert (H2 : (1 ≤ 2 ^ d)%nat) by (pose proof (Nat.pow_nonzero 2 d); lia).
    destruct fuel as [|fuel]; [lia|]. cbn [descend pruned].
    destruct (node a i =? node b i).
    { exists 1%nat. rewrite Nat.sub_succ, Nat.sub_0_r, app_nil_r. split; [lia|]. split; [lia|done]. }
    destruct (in_tree_children d i Hi) as (C1 & C2 & ?). destruct (Nat.leb_spec LEAVES i); [lia|].
    destruct (IH (2 * i + 1)%nat fuel ((2 * i)%nat :: stack) out C2) as (k1 & K1 & F1 & ->); [lia|].
    destruct (IH (2 * i)%nat (fuel - k1)%nat stack (out ++ pruned d (2 * i + 1)) C1) as (k2 & K2 & F2 & ->);
      [lia|].
    exists (S (k1 + k2)). split; [lia|]. split; [lia|]. rewrite <- app_assoc. f_equal. lia.
Qed.

Lemma descend_all : descend (2 * LEAVES) a b [1%nat] [] = pruned 8 1.
Proof.
  destruct (descend_subtree 8 1 (2 * LEAVES) [] []) as (k & K & F & ->).
  - unfold in_tree, LEAVES. cbn. lia.
  - unfold visits, LEAVES. cbn. lia.
  - by destruct (_ - _)%nat.
Qed.

(** No two different pairs of children with one parent hash. *)
Definition no_collision : Prop := ∀ i, (1 ≤ i < LEAVES)%nat → node a i = node b i →
  node a (2 * i) = node b (2 * i) ∧ node a (2 * i + 1) = node b (2 * i + 1).

Definition leaf_differs (j : nat) : bool := negb (node a (LEAVES + j) =? node b (LEAVES + j)).

(** Matching hashes at [i] mean matching leaves below it. *)
Lemma equal_below d i :
  no_collision → in_tree d i → node a i = node b i →
  ∀ j, (i * 2 ^ d ≤ j < i * 2 ^ d + 2 ^ d)%nat → node a j = node b j.
Proof.
  intros Hn. revert i. induction d as [|d IH]; intros i Hi He j Hj.
  { cbn in Hj. by replace j with i by lia. }
  assert (Hp' : (2 ^ S d = 2 * 2 ^ d)%nat) by apply Nat.pow_succ_r'.
  assert (H2 : (1 ≤ 2 ^ d)%nat) by (pose proof (Nat.pow_nonzero 2 d); lia).
  destruct (in_tree_children d i Hi) as (C1 & C2 & Hr). destruct (Hn i Hr He) as [E1 E2].
  destruct (Nat.lt_ge_cases j (2 * i * 2 ^ d + 2 ^ d)).
  - apply (IH (2 * i)%nat C1 E1). nia.
  - apply (IH (2 * i + 1)%nat C2 E2). nia.
Qed.

Lemma pruned_exact d i :
  no_collision → in_tree d i →
  pruned d i ≡ₚ List.filter leaf_differs (seq (i * 2 ^ d - LEAVES) (2 ^ d)).
Proof.
  intros Hn. revert i. induction d as [|d IH]; intros i Hi.
  - cbn [pruned Nat.pow seq List.filter]. unfold leaf_differs.
    replace (LEAVES + (i * 1 - LEAVES))%nat with i by (unfold in_tree in Hi; cbn in Hi; lia).
    destruct (node a i =? node b i); [done|]. cbn [negb]. by rewrite Nat.mul_1_r.
  - assert (Hp' : (2 ^ S d = 2 * 2 ^ d)%nat) by apply Nat.pow_succ_r'.
    assert (H2 : (1 ≤ 2 ^ d)%nat) by (pose proof (Nat.pow_nonzero 2 d); lia).
    destruct (in_tree_children d i Hi) as (C1 & C2 & Hr).
    cbn [pruned]. destruct (N.eqb_spec (node a i) (node b i)) as [He|_].
    + assert (Hz : List.filter leaf_differs (seq (i * 2 ^ S d - LEAVES) (2 ^ S d)) = []); [|by rewrite Hz].
      assert (Hall : ∀ l, (∀ j, j ∈ l → leaf_differs j = false) → List.filter leaf_differs l = []).
      { induction l as [|j l IHl]; intros Hl; [done|]. cbn. rewrite Hl by left. apply IHl. intros k Hk.
        apply Hl. by right. }
      apply Hall. intros j Hj%elem_of_seq. unfold leaf_differs.
      rewrite (equal_below (S d) i Hn Hi He (LEAVES + j)), N.eqb_refl by (unfold in_tree in Hi; lia). done.
    + rewrite Permutation_app_comm, (IH _ C2), (IH _ C1).
      rewrite Hp'. replace (2 * 2 ^ d)%nat with (2 ^ d + 2 ^ d)%nat by lia.
      rewrite seq_app, List.filter_app.
      replace (i * (2 ^ d + 2 ^ d) - LEAVES)%nat with (2 * i * 2 ^ d - LEAVES)%nat by nia.
      replace (2 * i * 2 ^ d - LEAVES + 2 ^ d)%nat with ((2 * i + 1) * 2 ^ d - LEAVES)%nat
        by (unfold in_tree in C1; nia). done.
Qed.

(** Every collected leaf differs, collisions or not. *)
Lemma pruned_sound d i j :
  in_tree d i → j ∈ pruned d i → leaf_differs j = true ∧ (j < LEAVES)%nat.
Proof.
  revert i. induction d as [|d IH]; intros i Hi; cbn [pruned].
  - destruct (N.eqb_spec (node a i) (node b i)) as [|Hne]; [by intros ?%not_elem_of_nil|].
    intros ->%list_elem_of_singleton. destruct Hi as [Hi1 Hi2]. rewrite Nat.pow_0_r, Nat.mul_1_r in Hi1, Hi2.
    unfold leaf_differs. replace (LEAVES + (i - LEAVES))%nat with i by lia.
    destruct (N.eqb_spec (node a i) (node b i)); [done|]. split; [done|lia].
  - assert (Hp' : (2 ^ S d = 2 * 2 ^ d)%nat) by apply Nat.pow_succ_r'.
    assert (H2 : (1 ≤ 2 ^ d)%nat) by (pose proof (Nat.pow_nonzero 2 d); lia).
    destruct (in_tree_children d i Hi) as (C1 & C2 & _).
    destruct (node a i =? node b i); [by intros ?%not_elem_of_nil|].
    intros [Hj|Hj]%elem_of_app; [by apply (IH _ C2)|by apply (IH _ C1)].
Qed.

Lemma filter_seq_sorted f n m : Sorted Nat.le (List.filter f (seq n m)).
Proof.
  revert n. induction m as [|m IH]; intros n; cbn; [constructor|]. destruct (f n); [|apply IH].
  constructor; [apply IH|]. destruct (List.filter f (seq (S n) m)) as [|x l] eqn:E; [constructor|].
  constructor. assert (Hx : x ∈ List.filter f (seq (S n) m)) by (rewrite E; left).
  apply list_elem_of_In, List.filter_In in Hx as [Hx _]. apply list_elem_of_In, elem_of_seq in Hx. lia.
Qed.

Lemma differing_exact :
  no_collision → differing_leaves a b = List.filter leaf_differs (seq 0 LEAVES).
Proof.
  intros Hn. unfold differing_leaves. rewrite descend_all.
  pose proof (pruned_exact 8 1 Hn ltac:(unfold in_tree, LEAVES; cbn; lia)) as Hp.
  change (1 * 2 ^ 8 - LEAVES)%nat with 0%nat in Hp. change (2 ^ 8)%nat with LEAVES in Hp.
  apply (Sorted_unique Nat.le).
  - apply Sorted_merge_sort. intros x y. lia.
  - apply filter_seq_sorted.
  - by rewrite merge_sort_Permutation.
Qed.

Lemma differing_sound j : j ∈ differing_leaves a b → leaf_differs j = true ∧ (j < LEAVES)%nat.
Proof.
  unfold differing_leaves. rewrite merge_sort_Permutation, descend_all.
  apply pruned_sound. unfold in_tree, LEAVES. cbn. lia.
Qed.
End Descent.

(** * Digests compared *)

Lemma tree_leaf leaves j : node (from_digest leaves) (LEAVES + j) = default 0 (leaves !! j).
Proof.
  unfold from_digest.
  assert (Hl : ∀ (is_ : list nat) nodes, (∀ i, i ∈ is_ → (i < LEAVES)%nat) →
    node (fold_left (λ nodes i, <[i := mix (node nodes (2 * i)) (node nodes (2 * i + 1))]> nodes) is_ nodes)
      (LEAVES + j) = node nodes (LEAVES + j)).
  { induction is_ as [|i is_ IH]; intros nodes Hi; [done|]. cbn [fold_left]. rewrite IH.
    - unfold node. rewrite list_lookup_insert_ne; [done|]. specialize (Hi i ltac:(left)). lia.
    - intros k Hk. apply Hi. by right. }
  rewrite Hl.
  - unfold node. rewrite lookup_app_r, length_replicate by (rewrite length_replicate; lia).
    do 2 f_equal. lia.
  - intros i Hi.
    apply list_elem_of_In, in_rev, list_elem_of_In, elem_of_seq in Hi. unfold LEAVES in *. lia.
Qed.

(** The digests disagree on bucket [j]. *)
Definition digests_differ (l r : list N) (j : nat) : bool :=
  negb (default 0 (l !! j) =? default 0 (r !! j)).

Lemma leaf_differs_digest l r j :
  leaf_differs (from_digest l) (from_digest r) j = digests_differ l r j.
Proof. unfold leaf_differs, digests_differ. by rewrite !tree_leaf. Qed.

Lemma filter_ext_seq (f g : nat → bool) l : (∀ j, f j = g j) → List.filter f l = List.filter g l.
Proof. intros Hfg. induction l as [|x l IH]; [done|]. cbn. by rewrite Hfg, IH. Qed.

Lemma diff_filter l r :
  no_collision (from_digest l) (from_digest r) →
  diff l r = List.filter (digests_differ l r) (seq 0 LEAVES).
Proof.
  intros Hn. unfold diff. rewrite differing_exact by done.
  apply filter_ext_seq. intros j. apply leaf_differs_digest.
Qed.

Lemma diff_sound l r j : j ∈ diff l r → digests_differ l r j = true ∧ (j < LEAVES)%nat.
Proof. unfold diff. intros Hj. apply differing_sound in Hj as [Hd Hlt]. by rewrite leaf_differs_digest in Hd. Qed.

Lemma diff_refl l : diff l l = [].
Proof. unfold diff, differing_leaves. rewrite descend_all. cbn [pruned]. by rewrite N.eqb_refl. Qed.

Lemma bucket_of_lt k : (bucket_of k < LEAVES)%nat.
Proof.
  unfold bucket_of. assert (fnv1a k mod N.of_nat LEAVES < N.of_nat LEAVES) by (apply N.mod_lt; done). lia.
Qed.

Lemma digest_lookup vs i : (i < LEAVES)%nat → digest vs !! i = Some (leaf_hash (bucket_entries i vs)).
Proof. intros Hi. unfold digest. by rewrite list_lookup_fmap, lookup_seq_lt. Qed.

Lemma diff_elem l r k :
  no_collision (from_digest l) (from_digest r) →
  bucket_of k ∈ diff l r ↔ digests_differ l r (bucket_of k) = true.
Proof.
  intros Hn. rewrite diff_filter by done. rewrite list_elem_of_In, List.filter_In, <- list_elem_of_In, elem_of_seq.
  pose proof (bucket_of_lt k). split; [tauto|]. intros ?. split; [lia|done].
Qed.

(** * Order does not matter *)

#[export] Instance entry_le_total : Total entry_le.
Proof.
  intros [k v] [k' v']. unfold entry_le. cbn. destruct (decide (bytes_lt k k')); [tauto|].
  destruct (decide (k = k')) as [->|].
  { destruct (N.le_ge_cases v v'); [left|right]; by right. }
  right. left.
  apply bytes_nlt_le, bytes_le_lt_eq in n as [?|?]; [done|congruence].
Qed.

#[export] Instance entry_le_trans : Transitive entry_le.
Proof.
  intros [k v] [k' v'] [k'' v'']. unfold entry_le. cbn.
  intros [?|[-> ?]] [?|[-> ?]]; eauto using bytes_lt_trans. right. split; [done|lia].
Qed.

#[export] Instance entry_le_antisymm : AntiSymm (=) entry_le.
Proof.
  intros [k v] [k' v']. unfold entry_le. cbn. intros [H1|[-> ?]] [H2|[? ?]]; subst.
  - destruct (bytes_lt_irrefl k). by eapply bytes_lt_trans.
  - by apply bytes_lt_irrefl in H1.
  - by apply bytes_lt_irrefl in H2.
  - f_equal. lia.
Qed.

Lemma filter_permutation {A} (f : A → bool) (l l' : list A) : l ≡ₚ l' → List.filter f l ≡ₚ List.filter f l'.
Proof.
  induction 1 as [|x l l' _ IH|x y l|l l' l'' _ IH1 _ IH2]; cbn; [done| | |by rewrite IH1].
  - destruct (f x); [by f_equiv|done].
  - destruct (f x), (f y); try done. apply Permutation_swap.
Qed.

Lemma digest_permutation vs vs' : vs ≡ₚ vs' → digest vs = digest vs'.
Proof.
  intros Hp. unfold digest. apply list_fmap_ext. intros _ i _. unfold leaf_hash. f_equal.
  apply (Sorted_unique entry_le); [apply Sorted_merge_sort, _..|].
  rewrite !merge_sort_Permutation. unfold bucket_entries. by rewrite (filter_permutation _ _ _ Hp).
Qed.
