(* ===== verification/Ap.v ===== *)
(** The leaderless AP path of a data node: the hybrid logical clock
    ([server/src/hlc.rs]), local writes and their fan-out ([server/src/ap.rs]), and
    the handlers of [server/src/lib.rs] that replicate, compare, repair and reconcile.

    A node is its engine and its clock.  Clock readings are inputs; what a peer
    answers to an RPC, or that it does not answer, is an input too ([Peer]). *)

From stdpp Require Import base list numbers strings gmap.
From Stdlib Require Import Strings.Byte.
From S2P Require Import Prelude Encoding Keys Batch Memtable Db DbCorrect EngineApi.
From S2P Require Import Mvcc Scan AntiEntropy.

(** gRPC failures; interpolated values of the messages are dropped. *)
Inductive Status :=
  | Internal (msg : string)
  | InvalidArg (msg : string)
  | FailedPrecondition (msg : string)
  | Unavailable (msg : string).

#[export] Instance status_eq_dec : EqDecision Status.
Proof. solve_decision. Defined.

(** [map_err(|e| Status::internal(..))]. *)
Definition internal {A} (msg : string) (r : Result A) : Status + A :=
  match r with Ok a => inr a | Err _ => inl (Internal msg) end.

(** * The hybrid logical clock *)

Definition HLC_LOGICAL_BITS : N := 18.

Definition hlc_split (ts : N) : N * N :=
  (N.shiftr ts HLC_LOGICAL_BITS, N.land ts (N.shiftl 1 HLC_LOGICAL_BITS - 1)).

Definition hlc_new : N := 0.

(** [now]: the stamp, and the clock after it. *)
Definition hlc_now (clock last : N) : N * N :=
  let physical_floor := u64_shl clock HLC_LOGICAL_BITS in
  let next := N.max (u64_add last 1) physical_floor in
  (next, next).

Definition hlc_observe (remote last : N) : N := N.max last remote.

(** * The node *)

Record ApNode (E : Type) := mkApNode {
  an_engine : E;
  an_hlc : N;
}.
Arguments mkApNode {_} _ _.
Arguments an_engine {_} _.
Arguments an_hlc {_} _.

Record ReplicateApRequest := mkReplicateAp {
  ra_key : bytes;
  ra_value : bytes;
  ra_is_delete : bool;
  ra_hlc_ts : N;
}.

Definition to_ae_version (t : VersionedKv) : Version :=
  let '(key, ts, value, is_delete) := t in mkVersion key ts value is_delete.

Definition committed_batch (key : bytes) (value : Value) (start_ts commit_ts : N) : WriteBatch :=
  let b := batch_new in
  let b := batch_put b CfDefault (encode_data_key key start_ts) (Value_encode value) in
  batch_put b CfWrite (encode_data_key key commit_ts) (encode_write_value start_ts).

(** [if is_delete { Value::Delete } else { Value::Put(value) }]. *)
Definition wire_value (value : bytes) (is_delete : bool) : Value :=
  if is_delete then VDelete else VPut value.

(** What a peer answers: [None] when it is unreachable or answers with an error. *)
Record Peer := mkPeer {
  peer_digest : option (list N);
  peer_fetch : list nat → list bytes → option (list Version);
}.

Section node.
Context {E : Type} `{EngineOps E}.

(** [engine.write] on the node. *)
Definition node_write (batch : WriteBatch) (n : ApNode E) : ApNode E * Result N :=
  let '(e, r) := engine_write batch (an_engine n) in (mkApNode e (an_hlc n), r).

(** [ap_write]: the stamp, and the request fanned out to the peers. *)
Definition ap_write (clock : N) (key : bytes) (value : Value) (n : ApNode E)
    : ApNode E * (Status + N * ReplicateApRequest) :=
  let '(ts, last) := hlc_now clock (an_hlc n) in
  let is_delete := Value_is_delete value in
  let raw_value := match value with VPut v => v | VDelete => [] end in
  match node_write (committed_batch key value ts ts) (mkApNode (an_engine n) last) with
  | (n, Ok _) => (n, inr (ts, mkReplicateAp key raw_value is_delete ts))
  | (n, Err _) => (n, inl (Internal "ap local write"))
  end.

Definition ap_apply (key : bytes) (value : Value) (hlc_ts : N) (n : ApNode E)
    : ApNode E * (Status + unit) :=
  let n := mkApNode (an_engine n) (hlc_observe hlc_ts (an_hlc n)) in
  match node_write (committed_batch key value hlc_ts hlc_ts) n with
  | (n, Ok _) => (n, inr tt)
  | (n, Err _) => (n, inl (Internal "ap apply"))
  end.

Definition replicate_ap (req : ReplicateApRequest) (n : ApNode E) : ApNode E * (Status + unit) :=
  let value := wire_value (ra_value req) (ra_is_delete req) in
  ap_apply (ra_key req) value (ra_hlc_ts req) n.

(** [ap_digest]; an unknown region has no leaves. *)
Definition ap_digest (fuel : nat) (region : option (bytes * bytes)) (n : ApNode E) : Status + list N :=
  match region with
  | None => inr []
  | Some (start, end_) =>
    match internal "ap digest scan" (scan_versions fuel start end_ 0 (an_engine n)) with
    | inl s => inl s
    | inr versions => inr (digest (to_ae_version <$> versions))
    end
  end.

(** The latest version of one key. *)
Definition fetch_key (fuel : nat) (k : bytes) (e : E) : Result (option VersionedKv) :=
  vs ← scan_versions fuel k (k ++ [x00]) 1 e;
  Ok (head vs).

Fixpoint fetch_keys (fuel : nat) (keys : list bytes) (e : E) : Result (list VersionedKv) :=
  match keys with
  | [] => Ok []
  | k :: keys =>
    o ← fetch_key fuel k e;
    rest ← fetch_keys fuel keys e;
    Ok (match o with Some v => v :: rest | None => rest end)
  end.

(** [ap_fetch]; an unknown region has no entries. *)
Definition ap_fetch (fuel : nat) (region : option (bytes * bytes)) (buckets : list nat)
    (keys : list bytes) (n : ApNode E) : Status + list Version :=
  match region with
  | None => inr []
  | Some (start, end_) =>
    internal "ap fetch scan"
      (out ← fetch_keys fuel keys (an_engine n);
       scanned ← (match buckets with
                  | [] => Ok []
                  | _ => scan_versions fuel start end_ 0 (an_engine n)
                  end);
       Ok ((to_ae_version <$> out) ++
           List.filter (λ v, bool_decide (bucket_of (v_key v) ∈ buckets)) (to_ae_version <$> scanned)))
  end.

(** Adopt versions of a peer; a failed write is skipped. *)
Definition adopt (vs : list Version) (n : ApNode E) : ApNode E :=
  fold_left (λ n v, fst (ap_apply (v_key v) (wire_value (v_value v) (v_is_delete v)) (v_version v) n)) vs n.

(** One peer of [reconcile_ap_once]. *)
Definition reconcile_peer (local_digest : list N) (local_map : gmap bytes N) (n : ApNode E) (peer : Peer)
    : ApNode E :=
  match peer_digest peer with
  | None => n
  | Some leaves =>
    if negb (length leaves =? LEAVES)%nat then n else
    match diff local_digest leaves with
    | [] => n
    | buckets =>
      match peer_fetch peer buckets [] with
      | None => n
      | Some remote => adopt (to_adopt local_map remote) n
      end
    end
  end.

(** One region of [reconcile_ap_once]: a failed local scan skips the region. *)
Definition reconcile_region (fuel : nat) (start end_ : bytes) (peers : list Peer) (n : ApNode E) : ApNode E :=
  match scan_versions fuel start end_ 0 (an_engine n) with
  | Err _ => n
  | Ok local =>
    let local_vers := to_ae_version <$> local in
    let local_digest := digest local_vers in
    let local_map := list_to_map ((λ v, (v_key v, v_version v)) <$> rev local_vers) in
    fold_left (reconcile_peer local_digest local_map) peers n
  end.

(** [reconcile_ap_once]: the hosted regions with their peers; [None] for a region the
    routing table does not know. *)
Definition reconcile_ap_once (fuel : nat) (regions : list (option (bytes * bytes) * list Peer))
    (n : ApNode E) : ApNode E :=
  fold_left (λ n '(region, peers),
    match region with
    | None => n
    | Some (start, end_) => reconcile_region fuel start end_ peers n
    end) regions n.

(** The winner so far against one peer's version. *)
Definition better (best : option (N * bytes * bool)) (ver : option Version) : option (N * bytes * bool) :=
  match ver with
  | Some v =>
    match best with
    | Some (b, _, _) => if b <? v_version v then Some (v_version v, v_value v, v_is_delete v) else best
    | None => Some (v_version v, v_value v, v_is_delete v)
    end
  | None => best
  end.

(** [is_none_or(|t| best_ts > t)]. *)
Definition behind (best_ts : N) (o : option N) : bool :=
  match o with Some t => t <? best_ts | None => true end.

(** [ap_read_repair]: the node, the answer, and the push sent to each peer. *)
Definition ap_read_repair (fuel : nat) (key : bytes) (peers : list Peer) (n : ApNode E)
    : ApNode E * (Status + Result (option bytes)) * list (option ReplicateApRequest) :=
  match scan_versions fuel key (key ++ [x00]) 1 (an_engine n) with
  | Err e => (n, inr (Err e), [])
  | Ok vs =>
    let local := (λ '(_, ts, val, del), (ts, val, del)) <$> head vs in
    let local_ts := (λ '(ts, _, _), ts) <$> local in
    let vers := (λ p, peer_fetch p [] [key] ≫= head) <$> peers in
    match fold_left better vers local with
    | None => (n, inr (Ok None), [])
    | Some (best_ts, best_val, best_del) =>
      let '(n, r) :=
        if behind best_ts local_ts then ap_apply key (wire_value best_val best_del) best_ts n
        else (n, inr tt) in
      match r with
      | inl s => (n, inl s, [])
      | inr _ =>
        (n, inr (Ok (if best_del then None else Some best_val)),
         (λ ver, if behind best_ts (v_version <$> ver)
                 then Some (mkReplicateAp key best_val best_del best_ts) else None) <$> vers)
      end
    end
  end.
End node.
