(* ===== verification/ApCorrect.v ===== *)
(** Last-Writer-Wins states, the specification of an AP region: a state maps each key to its
    latest version, and states merge by the later stamp.  Replicas over the storage engine
    implement them. *)

From stdpp Require Import base list numbers gmap strings sorting.
From Stdlib Require Import Strings.Byte.
From S2P Require Import Prelude Encoding Keys Batch OrdMap Memtable SstableCorrect Db DbCorrect EngineApi Mvcc MvccCorrect.
From S2P Require Import Scan ScanCorrect AntiEntropy Ap.

(** A version of a key: stamp, value, tombstone. *)
Abbreviation Ver := (N * bytes * bool)%type.
Abbreviation stamp x := (x.1.1).
Abbreviation ApState := (gmap bytes Ver).

(** The later write wins; on a tie the state's own version stays. *)
Definition later (x y : Ver) : Ver := if stamp x <? stamp y then y else x.
Definition lww (a b : ApState) : ApState := union_with (λ x y, Some (later x y)) a b.

(** Writing a version under its stamp: an equal stamp is overwritten. *)
Definition lww_put (m : ApState) (k : bytes) (x : Ver) : ApState :=
  match m !! k with
  | Some y => if stamp y <=? stamp x then <[k := x]> m else m
  | None => <[k := x]> m
  end.

(** No stamp names two different writes of a key. *)
Definition agree (a b : ApState) : Prop :=
  ∀ k x y, a !! k = Some x → b !! k = Some y → stamp x = stamp y → x = y.

(** * The merge *)

Lemma lookup_lww a b k :
  lww a b !! k = match a !! k, b !! k with
                 | Some x, Some y => Some (later x y)
                 | Some x, None => Some x
                 | None, o => o
                 end.
Proof. unfold lww. rewrite lookup_union_with. by destruct (a !! k), (b !! k). Qed.

Lemma lookup_lww_put m k x k' :
  lww_put m k x !! k' =
  if decide (k = k') then match m !! k with
                          | Some y => if stamp y <=? stamp x then Some x else Some y
                          | None => Some x
                          end
  else m !! k'.
Proof.
  unfold lww_put. case_decide as Hk; [subst k'|].
  - destruct (m !! k) as [y|] eqn:Em; [|by rewrite lookup_insert_eq].
    destruct (stamp y <=? stamp x); [by rewrite lookup_insert_eq|done].
  - destruct (m !! k) as [y|]; [destruct (stamp y <=? stamp x); [|done]|]; by rewrite lookup_insert_ne.
Qed.

(** A state's versions only move to later stamps. *)
Definition advances (a b : ApState) : Prop :=
  ∀ k x, a !! k = Some x → ∃ y, b !! k = Some y ∧ stamp x ≤ stamp y.

#[export] Instance advances_preorder : PreOrder advances.
Proof.
  split.
  - intros a k x Hx. exists x. split; [done|lia].
  - intros a b c Hab Hbc k x Hx. destruct (Hab k x Hx) as (y & Hy & ?).
    destruct (Hbc k y Hy) as (z & Hz & ?). exists z. split; [done|lia].
Qed.

Lemma lww_put_advances m k x : advances m (lww_put m k x).
Proof.
  intros k' y Hy. rewrite lookup_lww_put. case_decide as Hk; [subst k'|exists y; split; [done|lia]].
  rewrite Hy. destruct (N.leb_spec (stamp y) (stamp x)); eexists; (split; [done|lia]).
Qed.

Lemma lww_advances a b : advances a (lww a b).
Proof.
  intros k x Hx. rewrite lookup_lww, Hx. destruct (b !! k) as [y|]; [|exists x; split; [done|lia]].
  exists (later x y). split; [done|]. unfold later. destruct (N.ltb_spec (stamp x) (stamp y)); lia.
Qed.

(** * Several writes *)

Definition puts (m : ApState) (l : list (bytes * Ver)) : ApState :=
  fold_left (λ m p, lww_put m p.1 p.2) l m.

Lemma puts_cons m k x l : puts m ((k, x) :: l) = puts (lww_put m k x) l.
Proof. done. Qed.

Lemma puts_advances l m : advances m (puts m l).
Proof.
  revert m. induction l as [|[k x] l IH]; intros m; [reflexivity|]. rewrite puts_cons.
  etrans; [apply lww_put_advances|apply IH].
Qed.

Lemma puts_notin l m k : k ∉ l.*1 → puts m l !! k = m !! k.
Proof.
  revert m. induction l as [|[k' x] l IH]; intros m Hk; [done|]. rewrite puts_cons. cbn in Hk.
  apply not_elem_of_cons in Hk as [Hne Hk]. rewrite IH by done. rewrite lookup_lww_put, decide_False; done.
Qed.

Lemma puts_in l m k x : NoDup l.*1 → (k, x) ∈ l → puts m l !! k = lww_put m k x !! k.
Proof.
  revert m. induction l as [|[k' x'] l IH]; intros m Hd Hin; [by apply elem_of_nil in Hin|].
  rewrite puts_cons. cbn in Hd.
  apply NoDup_cons in Hd as [Hn Hd]. apply elem_of_cons in Hin as [[= <- <-]|Hin].
  - by apply puts_notin.
  - rewrite IH by done. assert (k' ≠ k) by (intros ->; apply Hn, list_elem_of_fmap; by exists (k, x)).
    rewrite !lookup_lww_put. repeat case_decide; done.
Qed.

(** * The latest of a set of writes *)

(** [m] holds, for every key, a write of [R] no other write of the key is later than. *)
Definition is_latest (R : bytes → Ver → Prop) (m : ApState) : Prop := ∀ k,
  match m !! k with
  | Some x => R k x ∧ ∀ y, R k y → stamp y ≤ stamp x
  | None => ∀ x, ¬ R k x
  end.

(** No stamp names two writes of one key. *)
Definition unique_stamps (R : bytes → Ver → Prop) : Prop :=
  ∀ k x y, R k x → R k y → stamp x = stamp y → x = y.

Lemma is_latest_unique R S a b :
  (∀ k x, R k x ↔ S k x) → unique_stamps R → is_latest R a → is_latest S b → a = b.
Proof.
  intros HRS Hu Ha Hb. apply map_eq. intros k. specialize (Ha k). specialize (Hb k).
  destruct (a !! k) as [x|], (b !! k) as [y|]; [|exfalso|exfalso|done].
  - destruct Ha as [Hx Ha], Hb as [Hy Hb]. f_equal. apply (Hu k); [done|by apply HRS|].
    specialize (Ha y (proj2 (HRS k y) Hy)). specialize (Hb x (proj1 (HRS k x) Hx)). lia.
  - apply (Hb x), HRS, Ha.
  - apply (Ha y), HRS, Hb.
Qed.

Lemma is_latest_ext R S m : (∀ k x, R k x ↔ S k x) → is_latest R m → is_latest S m.
Proof.
  intros HRS Hm k. specialize (Hm k). destruct (m !! k) as [x|].
  - split; [apply HRS, Hm|]. intros y Hy%HRS. by apply Hm.
  - intros x Hx%HRS. by apply (Hm x).
Qed.

Lemma is_latest_self m : is_latest (λ k x, m !! k = Some x) m.
Proof.
  intros k. destruct (m !! k) as [x|] eqn:E; [|done]. split; [done|]. intros y [= ->]. lia.
Qed.

Lemma is_latest_put R m k x :
  is_latest R m → is_latest (λ k' y, R k' y ∨ (k', y) = (k, x)) (lww_put m k x).
Proof.
  intros Hm k'. specialize (Hm k'). rewrite lookup_lww_put. case_decide as Hk; [subst k'|].
  - destruct (m !! k) as [y|].
    + destruct Hm as [Hy Hmax]. destruct (N.leb_spec (stamp y) (stamp x)).
      * split; [by right|]. intros z [Hz|[= ->]]; [|lia]. specialize (Hmax z Hz). lia.
      * split; [by left|]. intros z [Hz|[= ->]]; [by apply Hmax|lia].
    + split; [by right|]. intros z [Hz|[= ->]]; [by destruct (Hm z)|lia].
  - destruct (m !! k') as [y|].
    + destruct Hm as [Hy Hmax]. split; [by left|]. intros z [Hz|[= ? _]]; [by apply Hmax|by subst].
    + intros z [Hz|[= ? _]]; [by apply (Hm z)|by subst].
Qed.

Lemma puts_latest l R m : is_latest R m → is_latest (λ k x, R k x ∨ (k, x) ∈ l) (puts m l).
Proof.
  revert R m. induction l as [|[k x] l IH]; intros R m Hm.
  - eapply is_latest_ext; [|exact Hm]. intros k x. rewrite elem_of_nil. tauto.
  - rewrite puts_cons. eapply is_latest_ext; [|apply IH, is_latest_put, Hm]. intros k' y. cbn.
    rewrite elem_of_cons. tauto.
Qed.

(** * Merging several states *)

Definition merged (m : ApState) (ms : list ApState) : ApState := fold_left lww ms m.

(** Some state holds the version. *)
Definition held (ms : list ApState) (k : bytes) (x : Ver) : Prop := ∃ a, a ∈ ms ∧ a !! k = Some x.

Lemma held_perm ms ms' k x : ms ≡ₚ ms' → held ms k x ↔ held ms' k x.
Proof. intros Hp. unfold held. by setoid_rewrite Hp. Qed.

Lemma is_latest_lww R a b :
  is_latest R a → is_latest (λ k x, R k x ∨ b !! k = Some x) (lww a b).
Proof.
  intros Ha k. specialize (Ha k). rewrite lookup_lww. destruct (a !! k) as [x|], (b !! k) as [y|].
  - destruct Ha as [Hx Hmax]. unfold later. destruct (N.ltb_spec (stamp x) (stamp y)).
    + split; [by right|]. intros z [Hz|[= ->]]; [|lia]. specialize (Hmax z Hz). lia.
    + split; [by left|]. intros z [Hz|[= ->]]; [by apply Hmax|lia].
  - destruct Ha as [Hx Hmax]. split; [by left|]. intros z [Hz|?]; [by apply Hmax|done].
  - split; [by right|]. intros z [Hz|[= ->]]; [by destruct (Ha z)|lia].
  - intros z [Hz|?]; [by apply (Ha z)|done].
Qed.

Lemma merged_latest_from R m ms : is_latest R m → is_latest (λ k x, R k x ∨ held ms k x) (merged m ms).
Proof.
  revert R m. induction ms as [|a ms IH]; intros R m Hm.
  - eapply is_latest_ext; [|exact Hm]. intros k x. split; [by left|].
    intros [?|(? & ?%elem_of_nil & _)]; done.
  - eapply is_latest_ext; [|apply (IH (λ k x, R k x ∨ a !! k = Some x) (lww m a)), is_latest_lww, Hm]. intros k x. cbn. unfold held. split.
    + intros [[?|?]|(b & ? & ?)]; [by left|right; exists a; split; [left|done]|right; exists b; split; [by right|done]].
    + intros [?|(b & [->|?]%elem_of_cons & ?)]; [by left; left|by left; right|right; by exists b].
Qed.

Lemma merged_latest m ms : is_latest (held (m :: ms)) (merged m ms).
Proof.
  eapply is_latest_ext; [|apply merged_latest_from, is_latest_self]. intros k x. cbn. unfold held. split.
  - intros [?|(a & ? & ?)]; [exists m; split; [left|done]|exists a; split; [by right|done]].
  - intros (a & [->|?]%elem_of_cons & ?); [by left|right; by exists a].
Qed.

(** * Replicas

    Replicas of an AP region over the storage engine: what a region holds is the
    latest version of each key, every write merges into it by Last-Writer-Wins, and
    reconciliation with peers computes the merge of their states. *)

#[local] Arguments encode_data_key : simpl never.
#[local] Arguments encode_write_value : simpl never.
#[local] Arguments Value_encode : simpl never.
#[local] Arguments decode_write_value : simpl never.

Definition to_version (p : bytes * Ver) : Version := mkVersion p.1 p.2.1.1 p.2.1.2 p.2.2.
Definition versions (m : ApState) : list Version := to_version <$> gmap_iter m.

Lemma to_ae_versioned p : to_ae_version (versioned p) = to_version p.
Proof. by destruct p as [k [[c v] d]]. Qed.

(** * What a region of the engine holds *)

Lemma committed_get st k v s c cf k' :
  apply_batch st (committed_batch k v s c) cf k' =
  match cf with
  | CfDefault => if decide (k' = encode_data_key k s) then Some (MPut (Value_encode v)) else st cf k'
  | CfWrite => if decide (k' = encode_data_key k c) then Some (MPut (encode_write_value s)) else st cf k'
  | CfLock => st cf k'
  end.
Proof.
  unfold apply_batch, committed_batch. cbn. destruct cf; cbn; repeat case_decide; cbn; try done; naive_solver.
Qed.

(** Every Write-CF entry is a version of a key in use. *)
Definition versions_only (K : bytes → Prop) (st : Store) : Prop :=
  ∀ k, is_Some (st CfWrite k) → ∃ uk c, k = encode_data_key uk c ∧ is_u64 c ∧ K uk.

(** The latest version of a key in a store, written by an AP write. *)
Definition holds_latest (st : Store) (uk : bytes) (o : option Ver) : Prop :=
  match o with
  | None => ∀ c, is_u64 c → commit_at st uk c = None
  | Some (c, v, d) =>
    newest st uk c (MPut (encode_write_value c)) ∧
    st CfDefault (encode_data_key uk c) = Some (MPut (Value_encode (wire_value v d))) ∧
    (d = true → v = [])
  end.

Record ap_store (K : bytes → Prop) (start end_ : bytes) (st : Store) (m : ApState) : Prop := mkApStore {
  as_keys : versions_only K st;
  as_latest : ∀ uk, K uk → in_range start end_ uk → holds_latest st uk (m !! uk);
  as_dom : ∀ uk x, m !! uk = Some x → K uk ∧ in_range start end_ uk;
}.

Lemma newest_after st uk c w k v ts :
  is_u64 ts → is_u64 c → newest st uk c w → (k = uk → c ≤ ts → False) →
  newest (apply_batch st (committed_batch k v ts ts)) uk c w.
Proof.
  intros Hts Hc (_ & Hw & Hm) Hne. split_and!; [done| |].
  - rewrite committed_get, decide_False; [done|]. intros [-> ->]%encode_data_key_inj; [|done..]. by apply Hne.
  - intros c' Hc' Hs. rewrite committed_get in Hs. case_decide as Hd; [|by apply Hm].
    apply encode_data_key_inj in Hd as [-> ->]; [|done..]. destruct (N.le_gt_cases ts c); [done|].
    exfalso. apply Hne; [done|lia].
Qed.

(** An AP write of a key of the region merges into its state. *)
Lemma ap_store_put K start end_ st m k v d ts :
  ap_store K start end_ st m → K k → in_range start end_ k → is_u64 ts → (d = true → v = []) →
  ap_store K start end_ (apply_batch st (committed_batch k (wire_value v d) ts ts)) (lww_put m k (ts, v, d)).
Proof.
  intros [Hk Hl Hd] HK Hr Hts Hv. split.
  - intros k' Hs. rewrite committed_get in Hs. case_decide as Heq; [|by apply Hk]. subst. eauto.
  - intros uk HKu Hru. specialize (Hl uk HKu Hru). unfold lww_put.
    assert (Hput : uk = k → match m !! k with Some y => stamp y ≤ ts | None => True end →
      holds_latest (apply_batch st (committed_batch k (wire_value v d) ts ts)) uk (Some (ts, v, d))).
    { intros -> Hle. split_and!; [|by rewrite committed_get, decide_True|done].
      split_and!; [done|by rewrite committed_get, decide_True|]. intros c' Hc' Hs.
      rewrite committed_get in Hs. case_decide as Heq.
      { by apply encode_data_key_inj in Heq as [_ ->]. }
      destruct (m !! k) as [[[c w] d']|]; [|by rewrite Hl in Hs; destruct Hs].
      destruct Hl as [(_ & _ & Hm) _]. cbn in Hle. specialize (Hm c' Hc' Hs). lia. }
    assert (Hkeep : (uk = k → match m !! k with Some y => ts < stamp y | None => False end) →
      holds_latest (apply_batch st (committed_batch k (wire_value v d) ts ts)) uk (m !! uk)).
    { intros Hlt. destruct (m !! uk) as [[[c w] d']|] eqn:Em; cbn.
      - destruct Hl as [Hn Hv']. destruct Hn as [Hc Hn]. split.
        + apply newest_after; [done|done|done|]. intros -> Hle. specialize (Hlt eq_refl).
          rewrite Em in Hlt. cbn in Hlt. lia.
        + rewrite committed_get, decide_False; [done|].
          intros [-> ->]%encode_data_key_inj; [|done..]. specialize (Hlt eq_refl). rewrite Em in Hlt. cbn in Hlt. lia.
      - intros c Hc. rewrite committed_get, decide_False; [by apply Hl|].
        intros [-> ->]%encode_data_key_inj; [|done..]. specialize (Hlt eq_refl). by rewrite Em in Hlt. }
    destruct (m !! k) as [y|] eqn:Ey.
    + destruct (N.leb_spec (stamp y) (stamp (ts, v, d))) as [Hle|Hlt].
      * destruct (decide (uk = k)) as [->|]; [rewrite lookup_insert_eq; by apply Hput|].
        rewrite lookup_insert_ne by done. by apply Hkeep.
      * by apply Hkeep.
    + destruct (decide (uk = k)) as [->|]; [rewrite lookup_insert_eq; by apply Hput|].
      rewrite lookup_insert_ne by done. by apply Hkeep.
  - intros uk x. unfold lww_put. destruct (m !! k) as [y|]; [destruct (stamp y <=? _); [|apply Hd]|];
      (destruct (decide (uk = k)) as [->|]; [by rewrite lookup_insert_eq|rewrite lookup_insert_ne by done; apply Hd]).
Qed.

(** An AP write of a key elsewhere does not touch it. *)
Lemma ap_store_other K start end_ st m k v d ts :
  ap_store K start end_ st m → K k → ¬ in_range start end_ k → is_u64 ts →
  ap_store K start end_ (apply_batch st (committed_batch k (wire_value v d) ts ts)) m.
Proof.
  intros [Hk Hl Hd] HK Hr Hts. split; [| |done].
  - intros k' Hs. rewrite committed_get in Hs. case_decide as Heq; [|by apply Hk]. subst. eauto.
  - intros uk HKu Hru. specialize (Hl uk HKu Hru). assert (k ≠ uk) as Hne by (by intros ->).
    destruct (m !! uk) as [[[c w] d']|]; cbn.
    + destruct Hl as [[Hc Hn] Hv]. split; [by apply newest_after|].
      rewrite committed_get, decide_False; [done|]. by intros [-> _]%encode_data_key_inj.
    + intros c Hc. rewrite committed_get, decide_False; [by apply Hl|]. by intros [-> _]%encode_data_key_inj.
Qed.

Lemma latest_of_store K start end_ st m uk x :
  ap_store K start end_ st m → K uk → in_range start end_ uk →
  latest_version st uk x ↔ m !! uk = Some x.
Proof.
  intros [_ Hl _] HK Hr. specialize (Hl uk HK Hr). destruct (m !! uk) as [[[c v] d]|] eqn:Em; cbn in Hl.
  - destruct Hl as (Hn & Hv & Hd).
    assert (Hx : version_at st uk c (MPut (encode_write_value c)) = Some (c, v, d)).
    { destruct Hn as [Hc _]. unfold version_at. rewrite decode_encode_write_value by done. cbn.
      unfold st_get. rewrite Hv. cbn. rewrite Value_decode_encode. cbn.
      destruct d; cbn; [by rewrite Hd|done]. }
    split.
    + intros (c' & w' & Hn' & Hx'). destruct (newest_unique _ _ _ _ _ _ Hn Hn') as [<- <-]. congruence.
    + intros [= <-]. by exists c, (MPut (encode_write_value c)).
  - split; [|done]. intros (c' & w' & (Hc' & Hw & _) & _). by rewrite Hl in Hw.
Qed.

Section replica.
Context {E : Type} `{EngineLaws E}.
Context (K : bytes → Prop) (HK : ∀ a b, K a → K b → a = b ∨ apart a b).

(** The node's engine holds [m] in the range. *)
Definition node_holds (start end_ : bytes) (n : ApNode E) (m : ApState) : Prop :=
  ∃ st, holds (an_engine n) st ∧ ap_store K start end_ st m.

(** Versions the engine's size accounting is proved for. *)
Definition small_version (k : bytes) (x : Ver) : Prop :=
  is_u64 (stamp x) ∧ (x.2 = true → x.1.2 = []) ∧ small_op (OpWrite (committed_batch k (wire_value x.1.2 x.2) (stamp x) (stamp x))).

Lemma ap_scan start end_ n m :
  (∀ uk, K uk → uk `prefix_of` start → uk = start) → node_holds start end_ n m →
  ∃ f, ∀ fuel limit, (f ≤ fuel)%nat →
    scan_versions fuel start end_ limit (an_engine n) = Ok (limited limit (versioned <$> gmap_iter m)).
Proof.
  intros Hstart (st & Hh & Hs).
  destruct (scan_versions_run K HK (an_engine n) st Hh (as_keys _ _ _ _ _ Hs) start end_ Hstart)
    as (f & out & [Hsort Hd] & Hr).
  exists f. intros fuel limit Hf. rewrite (Hr fuel limit Hf). do 3 f_equal.
  apply ksorted_elem_ext; [done|apply gmap_iter_sorted|]. intros [uk x]. rewrite Hd, elem_of_gmap_iter.
  split.
  - intros (HKu & Hru & _ & Hl). by eapply latest_of_store.
  - intros Hm. destruct (as_dom _ _ _ _ _ Hs uk x Hm) as [HKu Hru]. split_and!; [done|done| |by eapply latest_of_store].
    pose proof (as_latest _ _ _ _ _ Hs uk HKu Hru) as Hl. rewrite Hm in Hl. destruct x as [[c v] d].
    destruct Hl as ((Hc & Hw & _) & _). exists c. by rewrite Hw.
Qed.

Lemma committed_write n st k v ts :
  holds (an_engine n) st → small_op (OpWrite (committed_batch k v ts ts)) →
  ∃ n' seq, node_write (committed_batch k v ts ts) n = (n', Ok seq) ∧ an_hlc n' = an_hlc n ∧
    holds (an_engine n') (apply_batch st (committed_batch k v ts ts)).
Proof.
  intros Hh Hsm. destruct (holds_write _ st _ _ Hh Hsm (spec_write _ _)) as (e' & seq & Hs & Hh').
  exists (mkApNode e' (an_hlc n)), seq. split_and!; [|done|done].
  unfold node_write, engine_write. change (batch_is_empty _) with false. cbv iota. by rewrite Hs.
Qed.

(** [ap_apply] merges the version into the region's state. *)
Lemma ap_apply_holds start end_ n m k x :
  node_holds start end_ n m → K k → in_range start end_ k → small_version k x →
  ∃ n', ap_apply k (wire_value x.1.2 x.2) (stamp x) n = (n', inr tt) ∧
    node_holds start end_ n' (lww_put m k x) ∧ an_hlc n' = N.max (an_hlc n) (stamp x).
Proof.
  destruct x as [[ts v] d]. cbn. intros (st & Hh & Hs) HKk Hr (Hts & Hd & Hsm).
  unfold ap_apply.
  destruct (committed_write (mkApNode (an_engine n) (hlc_observe ts (an_hlc n))) st k (wire_value v d) ts Hh Hsm)
    as (n' & seq & -> & Hc & Hh').
  exists n'. split_and!; [done| |by rewrite Hc]. eexists. split; [exact Hh'|]. by apply ap_store_put.
Qed.

(** * Reconciliation *)

Section region.
Context (start end_ : bytes) (Hstart : ∀ uk, K uk → uk `prefix_of` start → uk = start).
Abbreviation region_holds := (node_holds start end_).

(** A version the region's replicas accept. *)
Definition region_version (k : bytes) (x : Ver) : Prop :=
  K k ∧ in_range start end_ k ∧ small_version k x.

Lemma adopt_holds l n m :
  (∀ k x, (k, x) ∈ l → region_version k x) → region_holds n m →
  region_holds (adopt (to_version <$> l) n) (puts m l).
Proof.
  revert n m. induction l as [|[k x] l IH]; intros n m Hl Hm; [done|].
  rewrite puts_cons. destruct (Hl k x ltac:(left)) as (HKk & Hr & Hsm).
  destruct (ap_apply_holds start end_ n m k x Hm HKk Hr Hsm) as (n' & Ha & Hm' & _).
  cbn [fmap list_fmap]. change (adopt (to_version (k, x) :: (to_version <$> l)) n) with
    (adopt (to_version <$> l) (fst (ap_apply k (wire_value x.1.2 x.2) (stamp x) n))).
  rewrite Ha. apply IH; [|done]. intros k' x' Hin. apply Hl. by right.
Qed.

(** What the node knows of its own versions. *)
Definition known (m : ApState) : gmap bytes N := (λ x, stamp x) <$> m.

Lemma NoDup_gmap_iter (m : ApState) : NoDup (gmap_iter m).*1.
Proof. unfold gmap_iter. rewrite merge_sort_Permutation. apply NoDup_fst_map_to_list. Qed.

Lemma local_map_known m :
  list_to_map ((λ v, (v_key v, v_version v)) <$> rev (versions m)) = known m.
Proof.
  assert (Hp : rev (gmap_iter m) ≡ₚ map_to_list m).
  { rewrite <- Permutation_rev. apply merge_sort_Permutation. }
  assert (Hf : (λ v, (v_key v, v_version v)) <$> rev (versions m)
    = prod_map id (λ x : Ver, stamp x) <$> rev (gmap_iter m)).
  { unfold versions. rewrite <- !map_rev, <- list_fmap_compose. done. }
  rewrite Hf, list_to_map_fmap. unfold known. f_equal. rewrite <- (list_to_map_to_list m) at 2.
  apply list_to_map_proper; [|done]. rewrite Hp. apply NoDup_fst_map_to_list.
Qed.

(** What is adopted of a peer's buckets. *)
Definition taken (m : ApState) (buckets : list nat) (p : bytes * Ver) : bool :=
  bool_decide (bucket_of p.1 ∈ buckets) &&
  match m !! p.1 with Some x => stamp x <? stamp p.2 | None => true end.

Lemma adopted_versions m buckets m' :
  to_adopt (known m) (List.filter (λ v, bool_decide (bucket_of (v_key v) ∈ buckets)) (versions m'))
  = to_version <$> List.filter (taken m buckets) (gmap_iter m').
Proof.
  unfold versions, to_adopt. induction (gmap_iter m') as [|[k x] l IH]; [done|]. cbn.
  unfold taken at 1. cbn. case_bool_decide as Hb; cbn; [|exact IH].
  unfold known. rewrite lookup_fmap. destruct (m !! k) as [y|]; cbn; [|by f_equal].
  destruct (stamp y <? stamp x); cbn; [by f_equal|exact IH].
Qed.

(** * Faithful hashes *)

(** Leaves with one hash hold the same keys at the same versions. *)
Definition faithful (a b : ApState) : Prop := ∀ i, (i < LEAVES)%nat →
  leaf_hash (bucket_entries i (versions a)) = leaf_hash (bucket_entries i (versions b)) →
  bucket_entries i (versions a) = bucket_entries i (versions b).

(** The hashes of two states do not collide, in the leaves and in the tree. *)
Definition hashes_apart (a b : ApState) : Prop :=
  faithful a b ∧ no_collision (from_digest (digest (versions a))) (from_digest (digest (versions b))).

Lemma bucket_entries_elem m k c :
  (k, c) ∈ bucket_entries (bucket_of k) (versions m) ↔ ∃ x, m !! k = Some x ∧ stamp x = c.
Proof.
  unfold bucket_entries, versions. rewrite list_elem_of_fmap. split.
  - intros (v & [= -> ->] & Hv). apply list_elem_of_In, List.filter_In in Hv as [Hv _].
    apply list_elem_of_In, list_elem_of_fmap in Hv as ([k' x] & -> & Hx%elem_of_gmap_iter). by exists x.
  - intros (x & Hx & <-). exists (to_version (k, x)). split; [done|].
    apply list_elem_of_In, List.filter_In. split; [|apply Nat.eqb_refl].
    apply list_elem_of_In, list_elem_of_fmap. exists (k, x). split; [done|]. by apply elem_of_gmap_iter.
Qed.

(** A bucket the descent skips holds nothing newer. *)
Lemma skipped_bucket a b k y :
  hashes_apart a b → b !! k = Some y →
  bucket_of k ∉ diff (digest (versions a)) (digest (versions b)) →
  ∃ x, a !! k = Some x ∧ stamp x = stamp y.
Proof.
  intros [Hf Hn] Hy Hb. rewrite diff_elem in Hb by done. apply not_true_is_false in Hb.
  unfold digests_differ in Hb. pose proof (bucket_of_lt k) as Hlt.
  rewrite !digest_lookup in Hb by done. cbv [from_option id] in Hb. apply negb_false_iff, N.eqb_eq in Hb.
  apply bucket_entries_elem. rewrite (Hf _ Hlt Hb). apply bucket_entries_elem. eauto.
Qed.

Lemma NoDup_filter_fst {A B} (f : A * B → bool) l : NoDup l.*1 → NoDup (List.filter f l).*1.
Proof.
  induction l as [|[a b] l IH]; [done|]. cbn. intros [Hn Hd]%NoDup_cons. destruct (f (a, b)); [|by apply IH].
  cbn. apply NoDup_cons. split; [|by apply IH]. intros ([a' b'] & -> & Hin)%list_elem_of_fmap.
  apply list_elem_of_In, List.filter_In in Hin as [Hin%list_elem_of_In _]. apply Hn, list_elem_of_fmap.
  by exists (a', b').
Qed.

(** Adopting from one peer is the merge with its state. *)
Lemma taken_merge bs m cur m' :
  (∀ k y, m' !! k = Some y → bucket_of k ∉ bs → ∃ x, m !! k = Some x ∧ stamp x = stamp y) →
  advances m cur → agree cur m' →
  puts cur (List.filter (taken m bs) (gmap_iter m')) = lww cur m'.
Proof.
  intros Hskip Hadv Hag. apply map_eq. intros k. rewrite lookup_lww.
  set (l := List.filter _ _).
  assert (Hin : ∀ x, (k, x) ∈ l ↔ m' !! k = Some x ∧ taken m bs (k, x) = true).
  { intros x. unfold l. by rewrite list_elem_of_In, List.filter_In, <- list_elem_of_In, elem_of_gmap_iter. }
  assert (Hnot : (∀ x, (k, x) ∉ l) → puts cur l !! k = cur !! k).
  { intros Hx. apply puts_notin. intros ([? x] & ? & ?)%list_elem_of_fmap. cbn in *. subst. by eapply Hx. }
  assert (Hnd : NoDup l.*1) by apply NoDup_filter_fst, NoDup_gmap_iter.
  destruct (m' !! k) as [y|] eqn:Ey.
  - destruct (taken m bs (k, y)) eqn:Et.
    + rewrite (puts_in l cur k y Hnd) by (by apply Hin). rewrite lookup_lww_put, decide_True by done.
      destruct (cur !! k) as [z|] eqn:Ez; [|done]. unfold later.
      destruct (N.leb_spec (stamp z) (stamp y)), (N.ltb_spec (stamp z) (stamp y)); try done; try lia.
      f_equal. symmetry. apply (Hag k); [done|done|lia].
    + rewrite Hnot; [|intros x Hx; apply Hin in Hx as [[= <-] ?]; congruence].
      assert (∃ x, m !! k = Some x ∧ stamp y ≤ stamp x) as (x & Hx & Hle).
      { unfold taken in Et. cbn in Et. case_bool_decide as Hb.
        - destruct (m !! k) as [x|]; [|done]. exists x. split; [done|]. by apply N.ltb_ge.
        - destruct (Hskip k y Ey Hb) as (x & ? & ?). exists x. split; [done|lia]. }
      destruct (Hadv k x Hx) as (z & -> & ?). unfold later. destruct (N.ltb_spec (stamp z) (stamp y)); [lia|done].
  - rewrite Hnot; [by destruct (cur !! k)|]. intros x Hx. apply Hin in Hx as [? _]. done.
Qed.
(** * Peers *)

Definition rpc {A} (r : Status + A) : option A := match r with inr a => Some a | inl _ => None end.

(** A peer that answers from its node, or does not answer. *)
Definition serve (fuel : nat) (o : option (ApNode E)) : Peer :=
  match o with
  | None => mkPeer None (λ _ _, None)
  | Some n => mkPeer (rpc (ap_digest fuel (Some (start, end_)) n))
                (λ bs ks, rpc (ap_fetch fuel (Some (start, end_)) bs ks n))
  end.

(** The node's scan of the region ends with its state. *)
Definition scans (fuel : nat) (n : ApNode E) (m : ApState) : Prop :=
  scan_versions fuel start end_ 0 (an_engine n) = Ok (versioned <$> gmap_iter m).

Lemma node_scans n m : region_holds n m → ∃ f, ∀ fuel, (f ≤ fuel)%nat → scans fuel n m.
Proof.
  intros Hm. destruct (ap_scan start end_ n m Hstart Hm) as [f Hf]. exists f. intros fuel Hle. by apply (Hf fuel 0%nat).
Qed.

Lemma scans_versions m : to_ae_version <$> (versioned <$> gmap_iter m) = versions m.
Proof. rewrite <- list_fmap_compose. apply list_fmap_ext. intros _ p _. apply to_ae_versioned. Qed.

Lemma serve_digest fuel n m : scans fuel n m → peer_digest (serve fuel (Some n)) = Some (digest (versions m)).
Proof. unfold scans. intros Hs. cbn [serve peer_digest ap_digest]. by rewrite Hs, <- scans_versions. Qed.

Lemma serve_fetch fuel n m b bs :
  scans fuel n m →
  peer_fetch (serve fuel (Some n)) (b :: bs) []
  = Some (List.filter (λ v, bool_decide (bucket_of (v_key v) ∈ b :: bs)) (versions m)).
Proof.
  unfold scans. intros Hs. cbn [serve peer_fetch ap_fetch fetch_keys mbind result_mbind].
  rewrite Hs. cbn [mbind result_mbind internal rpc fmap list_fmap app]. by rewrite <- scans_versions.
Qed.

Lemma filter_none {A} (f : A → bool) l : (∀ x, f x = false) → List.filter f l = [].
Proof. intros Hf. induction l as [|x l IH]; [done|]. cbn. by rewrite Hf. Qed.

Lemma reconcile_peer_holds fuel m n cur n' m' :
  scans fuel n' m' → (∀ k x, m' !! k = Some x → region_version k x) →
  hashes_apart m m' → advances m cur → agree cur m' → region_holds n cur →
  region_holds (reconcile_peer (digest (versions m)) (known m) n (serve fuel (Some n'))) (lww cur m').
Proof.
  intros Hs Hv Hh Hadv Hag Hcur. unfold reconcile_peer. rewrite (serve_digest _ _ _ Hs).
  unfold digest at 1. rewrite length_fmap, length_seq, Nat.eqb_refl. cbn [negb].
  pose proof (λ k y, skipped_bucket m m' k y Hh) as Hskip.
  destruct (diff (digest (versions m)) (digest (versions m'))) as [|b bs].
  - rewrite <- (taken_merge [] m cur m' Hskip Hadv Hag), filter_none; [done|].
    intros p. unfold taken. by rewrite bool_decide_eq_false_2 by apply not_elem_of_nil.
  - rewrite (serve_fetch _ _ _ _ _ Hs), adopted_versions, <- (taken_merge (b :: bs) m cur m' Hskip Hadv Hag).
    apply adopt_holds; [|done]. intros k x Hin. apply Hv.
    apply list_elem_of_In, List.filter_In in Hin as [Hin _]. by apply list_elem_of_In, elem_of_gmap_iter in Hin.
Qed.

(** Peers with their states; [None] is an unreachable peer. *)
Abbreviation Peers := (list (option (ApNode E * ApState))).
Definition states (ns : Peers) : list ApState := omap (λ o, snd <$> o) ns.

Lemma states_elem ns n m : Some (n, m) ∈ ns → m ∈ states ns.
Proof. intros Hin. apply list_elem_of_omap. by exists (Some (n, m)). Qed.

Lemma peers_scan (ns : Peers) :
  (∀ n m, Some (n, m) ∈ ns → region_holds n m) →
  ∃ f, ∀ fuel, (f ≤ fuel)%nat → ∀ n m, Some (n, m) ∈ ns → scans fuel n m.
Proof.
  induction ns as [|o ns IH]; intros Hn.
  { exists 0%nat. intros fuel _ n m Hin. by apply elem_of_nil in Hin. }
  destruct IH as [f Hf]. { intros n m Hin. apply Hn. by right. }
  destruct o as [[n m]|].
  - destruct (node_scans n m) as [g Hg]; [apply Hn; left|]. exists (max f g). intros fuel Hle n' m' Hin.
    apply elem_of_cons in Hin as [[= -> ->]|Hin]; [apply Hg; lia|apply Hf; [lia|done]].
  - exists f. intros fuel Hle n' m' Hin. apply elem_of_cons in Hin as [?|Hin]; [done|by apply Hf].
Qed.

(** The peers hold their states, and no stamp names two writes of a key. *)
Record peers_ok (m : ApState) (ns : Peers) : Prop := mkPeersOk {
  rc_holds : ∀ n' m', Some (n', m') ∈ ns → region_holds n' m';
  rc_versions : ∀ n' m' k x, Some (n', m') ∈ ns → m' !! k = Some x → region_version k x;
  rc_stamps : unique_stamps (held (m :: states ns));
}.

Definition hashes_ok (m : ApState) (ns : Peers) : Prop :=
  ∀ n' m', Some (n', m') ∈ ns → hashes_apart m m'.

Lemma reconcile_peers_hold fuel m all ns n cur :
  peers_ok m all → hashes_ok m all → (∀ n' m', Some (n', m') ∈ all → scans fuel n' m') →
  (∀ o, o ∈ ns → o ∈ all) → advances m cur → (∀ k x, cur !! k = Some x → held (m :: states all) k x) →
  region_holds n cur →
  region_holds (fold_left (reconcile_peer (digest (versions m)) (known m)) ((λ o, serve fuel (fst <$> o)) <$> ns) n)
    (merged cur (states ns)).
Proof.
  intros Hrc Hhash Hscan. revert n cur. induction ns as [|o ns IH]; intros n cur Hin Hadv Hheld Hcur; [done|].
  destruct o as [[n' m']|]; [|apply IH; [set_solver|done..]].
  assert (Hall : Some (n', m') ∈ all) by (apply Hin; left).
  cbn [fmap list_fmap option_fmap option_map fold_left fst]. apply (IH _ (lww cur m')).
  - intros o Ho. apply Hin. by right.
  - etrans; [exact Hadv|apply lww_advances].
  - intros k x. rewrite lookup_lww.
    assert (Hm' : m' !! k = Some x → held (m :: states all) k x).
    { intros Hx. exists m'. split; [right; by eapply states_elem|done]. }
    destruct (cur !! k) as [y|] eqn:Ey, (m' !! k) as [z|] eqn:Ez; [|intros [= <-]; auto|auto|done].
    intros [= <-]. unfold later in *. destruct (stamp y <? stamp z); auto.
  - apply reconcile_peer_holds; [by apply Hscan|by intros; eapply (rc_versions _ _ Hrc)|by eapply Hhash|done| |done].
    intros k x y Hx Hy Hs. eapply (rc_stamps _ _ Hrc k); [by apply Hheld| |done].
    exists m'. split; [right; by eapply states_elem|done].
Qed.

Lemma reconcile_region_holds n m ns :
  peers_ok m ns → hashes_ok m ns → region_holds n m →
  ∃ f, ∀ fuel, (f ≤ fuel)%nat →
    region_holds (reconcile_region fuel start end_ ((λ o, serve fuel (fst <$> o)) <$> ns) n) (merged m (states ns)).
Proof.
  intros Hrc Hhash Hm. destruct (peers_scan ns (rc_holds _ _ Hrc)) as [f Hf]. destruct (node_scans n m Hm) as [g Hg].
  exists (max f g). intros fuel Hle. unfold reconcile_region. rewrite (Hg fuel) by lia.
  rewrite scans_versions, local_map_known.
  apply (reconcile_peers_hold fuel m ns ns n m Hrc Hhash); [by apply Hf; lia|done|reflexivity| |done].
  intros k x Hx. exists m. split; [left|done].
Qed.
(** * Read repair *)

Lemma only_key key uk : in_range key (key ++ [x00]) uk ↔ uk = key.
Proof.
  unfold in_range, past_end.
  replace (match key ++ [x00] with [] => false | _ => bytes_leb (key ++ [x00]) uk end)
    with (bytes_leb (key ++ [x00]) uk) by (by destruct key).
  rewrite <- not_true_iff_false, bytes_leb_le, bytes_succ. split.
  - intros [Hle Hn]. by apply bytes_le_lt_eq in Hle as [?|?].
  - intros ->. split; [apply bytes_le_refl|apply bytes_lt_irrefl].
Qed.

(** The latest version of one key, read as a scan of its own range. *)
Lemma key_scan n m key :
  region_holds n m → K key → in_range start end_ key →
  ∃ f, ∀ fuel, (f ≤ fuel)%nat → scan_versions fuel key (key ++ [x00]) 1 (an_engine n)
    = Ok (match m !! key with Some x => [versioned (key, x)] | None => [] end).
Proof.
  intros (st & Hh & [Hk Hl Hd]) HKk Hr.
  set (mk := match m !! key with Some x => {[key := x]} | None => ∅ end : ApState).
  assert (Hmk : mk !! key = m !! key).
  { unfold mk. destruct (m !! key); [apply lookup_singleton_eq|apply lookup_empty]. }
  destruct (ap_scan key (key ++ [x00]) n mk) as [f Hf].
  - intros uk HKu Hp. destruct (HK uk key HKu HKk) as [?|[Ha _]]; [done|]. by destruct Ha.
  - exists st. split; [done|]. split; [done| |].
    + intros uk HKu ->%only_key. rewrite Hmk. by apply Hl.
    + intros uk x Hx. assert (uk = key) as ->; [|by rewrite only_key].
      unfold mk in Hx. destruct (m !! key); [|by rewrite lookup_empty in Hx]. by apply lookup_singleton_Some in Hx as [? _].
  - exists f. intros fuel Hle. rewrite (Hf fuel 1%nat Hle). unfold mk. destruct (m !! key) as [x|];
      unfold gmap_iter; [by rewrite map_to_list_singleton|by rewrite map_to_list_empty].
Qed.

(** Every reachable peer answers for the key. *)
Lemma peers_key_scan (ns : Peers) key :
  (∀ n m, Some (n, m) ∈ ns → region_holds n m) → K key → in_range start end_ key →
  ∃ f, ∀ fuel, (f ≤ fuel)%nat →
    (λ o, peer_fetch (serve fuel (fst <$> o)) [] [key] ≫= head) <$> ns
    = (λ o : option (ApNode E * ApState), o ≫= λ p, (λ x, to_version (key, x)) <$> p.2 !! key) <$> ns.
Proof.
  intros Hn HKk Hr. induction ns as [|o ns IH]; [by exists 0%nat|].
  destruct IH as [f Hf]. { intros n m Hin. apply Hn. by right. }
  destruct o as [[n m]|]; [|exists f; intros fuel Hle; cbn; f_equal; by apply Hf].
  destruct (key_scan n m key) as [g Hg]; [apply Hn; left|done|done|].
  exists (max f g). intros fuel Hle. cbn [fmap list_fmap]. f_equal; [|apply Hf; lia].
  cbn [option_fmap option_map fst serve peer_fetch ap_fetch fetch_keys].
  unfold fetch_key. rewrite Hg by lia. cbn. by destruct (m !! key) as [[[? ?] ?]|].
Qed.

(** The winner of a read repair is the merge of the replicas' versions. *)
Lemma best_merged (ns : Peers) m key :
  fold_left better ((λ o : option (ApNode E * ApState), o ≫= λ p, (λ x, to_version (key, x)) <$> p.2 !! key) <$> ns)
    (m !! key) = merged m (states ns) !! key.
Proof.
  revert m. induction ns as [|o ns IH]; intros m; [done|].
  destruct o as [[n m']|]; [|apply IH]. cbn [fmap list_fmap fold_left].
  change (merged m (states (Some (n, m') :: ns))) with (merged (lww m m') (states ns)). rewrite <- IH. f_equal.
  rewrite lookup_lww. cbn. destruct (m' !! key) as [[[c v] d]|]; cbn; [|by destruct (m !! key)].
  destruct (m !! key) as [[[c' v'] d']|]; [|done]. unfold later. cbn. by destruct (c' <? c).
Qed.
(** The region's state with one key set. *)
Definition with_key (key : bytes) (o : option Ver) (m : ApState) : ApState := partial_alter (λ _, o) key m.

Lemma with_key_same key m : with_key key (m !! key) m = m.
Proof. apply partial_alter_self. Qed.

Lemma lww_put_behind m key x :
  behind (stamp x) ((λ y, stamp y) <$> m !! key) = true → lww_put m key x = with_key key (Some x) m.
Proof.
  intros Hb. apply map_eq. intros k. rewrite lookup_lww_put. unfold with_key. case_decide as Hk; [subst k|].
  - rewrite lookup_partial_alter_eq. destruct (m !! key) as [y|]; [|done]. cbn in Hb.
    destruct (N.leb_spec (stamp y) (stamp x)); [done|]. apply N.ltb_lt in Hb. lia.
  - by rewrite lookup_partial_alter_ne.
Qed.

(** Taking the winner where it is newer, or keeping it where it is held. *)
Lemma settle n m key x :
  region_holds n m → region_version key x →
  (∀ y, m !! key = Some y → stamp y ≤ stamp x ∧ (stamp y = stamp x → y = x)) →
  let '(n', r) := if behind (stamp x) ((λ y, stamp y) <$> m !! key)
                  then ap_apply key (wire_value x.1.2 x.2) (stamp x) n else (n, inr tt) in
  r = inr tt ∧ region_holds n' (with_key key (Some x) m).
Proof.
  intros Hm (HKk & Hr & Hsm) Hle. destruct (behind _ _) eqn:Hb.
  - destruct (ap_apply_holds start end_ n m key x Hm HKk Hr Hsm) as (n' & -> & Hm' & _).
    split; [done|]. by rewrite <- lww_put_behind.
  - split; [done|]. destruct (m !! key) as [y|] eqn:Ey; [|done]. cbn in Hb. apply N.ltb_ge in Hb.
    destruct (Hle y eq_refl) as [? Heq]. rewrite <- Heq, <- Ey, with_key_same by lia. done.
Qed.

(** What a peer does with the push it may be sent. *)
Definition receive (push : option ReplicateApRequest) (n : ApNode E) : ApNode E :=
  match push with Some req => fst (replicate_ap req n) | None => n end.

(** The value a version shows to a reader. *)
Definition shown (o : option Ver) : option bytes :=
  match o with Some (_, v, false) => Some v | _ => None end.

(** What the winner of a key is, in every replica. *)
Lemma winner_settles n m m0 ns key x :
  peers_ok m0 ns → (∀ y, m0 !! key = Some y → region_version key y) → merged m0 (states ns) !! key = Some x →
  m ∈ m0 :: states ns → region_holds n m →
  let '(n', r) := if behind (stamp x) ((λ y, stamp y) <$> m !! key)
                  then ap_apply key (wire_value x.1.2 x.2) (stamp x) n else (n, inr tt) in
  r = inr tt ∧ region_holds n' (with_key key (Some x) m).
Proof.
  intros Hok Hloc Hb Hin Hm. pose proof (merged_latest m0 (states ns) key) as Hlat. rewrite Hb in Hlat.
  destruct Hlat as [Hx Hmax]. apply settle; [done| |].
  - destruct Hx as (a & [->|Ha]%elem_of_cons & Hx); [by apply Hloc|].
    apply list_elem_of_omap in Ha as ([[n' m']|] & Hin' & [= ->]). by eapply rc_versions.
  - intros y Hy. assert (held (m0 :: states ns) key y) by (by exists m). split; [by apply Hmax|].
    intros Hs. by eapply (rc_stamps _ _ Hok).
Qed.

Lemma winner_absent m m0 ns key :
  merged m0 (states ns) !! key = None → m ∈ m0 :: states ns → with_key key None m = m.
Proof.
  intros Hb Hin. pose proof (merged_latest m0 (states ns) key) as Hlat. rewrite Hb in Hlat.
  destruct (m !! key) as [y|] eqn:Ey; [destruct (Hlat y); by exists m|]. by rewrite <- Ey, with_key_same.
Qed.

Lemma read_repair_holds n m ns key :
  region_holds n m → peers_ok m ns → K key → in_range start end_ key →
  (∀ x, m !! key = Some x → region_version key x) →
  let best := merged m (states ns) !! key in
  ∃ f, ∀ fuel, (f ≤ fuel)%nat →
    ∃ n' pushes,
      ap_read_repair fuel key ((λ o, serve fuel (fst <$> o)) <$> ns) n = (n', inr (Ok (shown best)), pushes) ∧
      region_holds n' (with_key key best m) ∧
      ∀ i ni mi, ns !! i = Some (Some (ni, mi)) →
        region_holds (receive (default None (pushes !! i)) ni) (with_key key best mi).
Proof.
  intros Hm Hok HKk Hr Hloc best.
  destruct (key_scan n m key Hm HKk Hr) as [f Hf].
  destruct (peers_key_scan ns key (rc_holds _ _ Hok) HKk Hr) as [g Hg].
  exists (max f g). intros fuel Hle. unfold ap_read_repair. rewrite Hf by lia.
  rewrite <- list_fmap_compose. specialize (Hg fuel ltac:(lia)). unfold compose. rewrite Hg.
  assert (Hl : (λ '(_, ts, val, del), (ts, val, del)) <$>
    head (match m !! key with Some x => [versioned (key, x)] | None => [] end) = m !! key)
    by (by destruct (m !! key) as [[[? ?] ?]|]).
  rewrite Hl, best_merged. fold best.
  assert (Hpeer : ∀ i ni mi, ns !! i = Some (Some (ni, mi)) → mi ∈ m :: states ns ∧ region_holds ni mi).
  { intros i ni mi Hi%list_elem_of_lookup_2. split; [right; by eapply states_elem|by eapply rc_holds]. }
  destruct best as [[[c v] d]|] eqn:Eb; unfold best in Eb.
  - pose proof (winner_settles n m m ns key _ Hok Hloc Eb ltac:(left) Hm) as Hset.
    replace ((λ '(ts, _, _), ts) <$> m !! key) with ((λ y : Ver, stamp y) <$> m !! key)
      by (by destruct (m !! key) as [[[? ?] ?]|]).
    cbn [fst snd] in Hset. destruct (if behind _ _ then _ else _) as [n' r]. destruct Hset as [-> Hn'].
    eexists _, _. split_and!; [by destruct d|done|]. intros i ni mi Hi. destruct (Hpeer i ni mi Hi) as [Hin Hni].
    pose proof (winner_settles ni mi m ns key _ Hok Hloc Eb Hin Hni) as Hs. cbn [fst snd] in Hs.
    rewrite !list_lookup_fmap, Hi. cbn [fmap option_fmap option_map mbind option_bind snd default from_option id].
    replace (v_version <$> ((λ x, to_version (key, x)) <$> mi !! key)) with ((λ y : Ver, stamp y) <$> mi !! key)
      by (by destruct (mi !! key)).
    destruct (behind c _); [|by apply Hs]. unfold receive, replicate_ap. cbn [ra_key ra_value ra_is_delete ra_hlc_ts].
    by destruct (ap_apply key _ c ni) as [n'' r'']; apply Hs.
  - exists n, []. split_and!; [done|rewrite (winner_absent m m ns); [done|done|left]|]. intros i ni mi Hi. cbn.
    destruct (Hpeer i ni mi Hi) as [Hin Hni]. by rewrite (winner_absent mi m ns).
Qed.
(** * Writes and their delivery *)

Definition request_write (r : ReplicateApRequest) : bytes * Ver :=
  (ra_key r, (ra_hlc_ts r, ra_value r, ra_is_delete r)).

(** Requests that arrive at a node, in the order they arrive. *)
Definition deliver (reqs : list ReplicateApRequest) (n : ApNode E) : ApNode E :=
  fold_left (λ n r, fst (replicate_ap r n)) reqs n.

Lemma deliver_adopt reqs n : deliver reqs n = adopt (to_version <$> (request_write <$> reqs)) n.
Proof. revert n. induction reqs as [|r reqs IH]; intros n; [done|]. apply IH. Qed.

Lemma deliver_holds reqs n m :
  (∀ r, r ∈ reqs → region_version (ra_key r) (request_write r).2) → region_holds n m →
  region_holds (deliver reqs n) (puts m (request_write <$> reqs)).
Proof.
  intros Hr Hm. rewrite deliver_adopt. apply adopt_holds; [|done].
  intros k x (r & [= -> ->] & Hin)%list_elem_of_fmap. by apply (Hr r).
Qed.

(** The clock is not below any version the node holds. *)
Definition clocked (n : ApNode E) (m : ApState) : Prop := ∀ k x, m !! k = Some x → stamp x ≤ an_hlc n.

Lemma clocked_put n m k x n' :
  clocked n m → an_hlc n ≤ an_hlc n' → stamp x ≤ an_hlc n' → clocked n' (lww_put m k x).
Proof.
  intros Hc Hle Hx k' y. rewrite lookup_lww_put. case_decide.
  - destruct (m !! k) as [z|] eqn:Ez; [|intros [= <-]; lia].
    specialize (Hc k z Ez). destruct (stamp z <=? stamp x); intros [= <-]; lia.
  - intros Hy. specialize (Hc k' y Hy). lia.
Qed.

Lemma deliver_clocked reqs n m :
  (∀ r, r ∈ reqs → region_version (ra_key r) (request_write r).2) → region_holds n m → clocked n m →
  clocked (deliver reqs n) (puts m (request_write <$> reqs)) ∧ an_hlc n ≤ an_hlc (deliver reqs n).
Proof.
  revert n m. induction reqs as [|r reqs IH]; intros n m Hr Hm Hc; [split; [done|cbn; lia]|].
  destruct (Hr r ltac:(left)) as (HKk & Hrg & Hsm).
  destruct (ap_apply_holds start end_ n m (ra_key r) (request_write r).2 Hm HKk Hrg Hsm) as (n' & Ha & Hm' & Hh).
  change (deliver (r :: reqs) n) with (deliver reqs (fst (ap_apply (ra_key r)
    (wire_value (ra_value r) (ra_is_delete r)) (ra_hlc_ts r) n))).
  cbn [request_write fst snd] in Ha. rewrite Ha. cbn [fst]. cbn [fmap list_fmap].
  change (request_write r) with (ra_key r, (request_write r).2). rewrite puts_cons.
  destruct (IH n' (lww_put m (ra_key r) (request_write r).2)) as [Hcl Hle]; [by intros; apply Hr; right|done| |].
  - apply (clocked_put n); [done|lia..].
  - split; [done|lia].
Qed.

Lemma hlc_now_above clock last :
  last < u64_max → let ts := fst (hlc_now clock last) in
    hlc_now clock last = (ts, ts) ∧ last < ts ∧ is_u64 ts.
Proof.
  intros Hl. unfold hlc_now, u64_add. cbn zeta. cbn [fst]. rewrite as_u64_id by lia. pose proof (as_u64_bound (N.shiftl clock HLC_LOGICAL_BITS)).
  unfold u64_shl. split_and!; [done|lia|lia].
Qed.

Definition raw_value (v : Value) : bytes := match v with VPut v => v | VDelete => [] end.

Lemma ap_write_holds n m clock key value :
  region_holds n m → clocked n m → K key → in_range start end_ key → an_hlc n < u64_max →
  let ts := fst (hlc_now clock (an_hlc n)) in
  let x := (ts, raw_value value, Value_is_delete value) in
  small_op (OpWrite (committed_batch key value ts ts)) →
  ∃ n', ap_write clock key value n
      = (n', inr (ts, mkReplicateAp key (raw_value value) (Value_is_delete value) ts)) ∧
    region_holds n' (<[key := x]> m) ∧ clocked n' (<[key := x]> m) ∧ an_hlc n' = ts ∧ an_hlc n < ts.
Proof.
  intros (st & Hh & Hs) Hc HKk Hr Hl ts x Hsm. destruct (hlc_now_above clock (an_hlc n) Hl) as (Hts & Hlt & Hu).
  fold ts in Hts, Hlt, Hu. unfold ap_write. rewrite Hts. clearbody ts.
  destruct (committed_write (mkApNode (an_engine n) ts) st key value ts Hh Hsm) as (n' & seq & -> & Hn' & Hh').
  exists n'. split_and!; [done| | |done|done].
  - assert (Heq : lww_put m key x = <[key := x]> m).
    { unfold lww_put. destruct (m !! key) as [y|] eqn:Ey; [|done]. specialize (Hc key y Ey).
      destruct (N.leb_spec (stamp y) (stamp x)); [done|]. subst x. cbn in *. lia. }
    rewrite <- Heq. eexists. split; [exact Hh'|]. subst x.
    replace (committed_batch key value ts ts) with
      (committed_batch key (wire_value (raw_value value) (Value_is_delete value)) ts ts) by (by destruct value).
    apply ap_store_put; try done. by destruct value.
  - intros k y. destruct (decide (k = key)) as [->|].
    + rewrite lookup_insert_eq. intros [= <-]. rewrite Hn'. subst x. cbn. lia.
    + rewrite lookup_insert_ne by done. intros Hy. specialize (Hc k y Hy). rewrite Hn'. cbn. lia.
Qed.
End region.
End replica.
