(* ===== verification/ApTheorems.v ===== *)
(** The AP path: correctness statements, concrete runs at which they apply, and findings. *)

From stdpp Require Import base list numbers strings gmap sorting.
From Stdlib Require Import Strings.Byte.
From S2P Require Import Prelude Crc Encoding Keys Batch OrdMap Memtable SstableCorrect Db DbCorrect Engine.
From S2P Require Import EngineApi Mvcc MvccCorrect Scan ScanCorrect EngineTheorems AntiEntropy Ap ApCorrect.

(** * Anti-entropy *)

Definition all_merged {E} (nodes : list (ApNode E * ApState)) : ApState := match nodes with [] => ∅ | p :: ns => merged p.2 ns.*2 end.

Lemma all_merged_latest {E} (nodes : list (ApNode E * ApState)) : is_latest (held nodes.*2) (all_merged nodes).
Proof.
  unfold all_merged. destruct nodes as [|p ns]; [|apply merged_latest]. intros k. rewrite lookup_empty.
  intros x (a & ?%elem_of_nil & _). done.
Qed.

Section cluster.
Context {E : Type} `{EngineLaws E}.
Context (K : bytes → Prop) (HK : ∀ a b, K a → K b → a = b ∨ apart a b).
Context (start end_ : bytes) (Hstart : ∀ uk, K uk → uk `prefix_of` start → uk = start).
Context (nodes : list (ApNode E * ApState)).
Context (Hn : ∀ n m, (n, m) ∈ nodes → node_holds K start end_ n m).
Context (Hv : ∀ n m k x, (n, m) ∈ nodes → m !! k = Some x → region_version K start end_ k x).
Context (Hu : unique_stamps (held nodes.*2)).
Context (Hh : ∀ a b, a ∈ nodes.*2 → b ∈ nodes.*2 → hashes_apart a b).

Lemma states_some (l : list (ApNode E * ApState)) : states (Some <$> l) = l.*2.
Proof.
  induction l as [|p l IH]; [done|]. change (p.2 :: states (Some <$> l) = p.2 :: l.*2). by rewrite IH.
Qed.

(** The other replicas of node [i], as the peers it reconciles with. *)
Definition others (fuel i : nat) : list Peer := (λ p, serve start end_ fuel (Some p.1)) <$> delete i nodes.

Lemma node_converges i n mi :
  nodes !! i = Some (n, mi) →
  ∃ f, ∀ fuel, (f ≤ fuel)%nat →
    node_holds K start end_ (reconcile_region fuel start end_ (others fuel i) n) (all_merged nodes).
Proof.
  intros Ei. set (ns := Some <$> delete i nodes). pose proof (delete_Permutation _ _ _ Ei) as Hp.
  assert (Hsub : ∀ n' m', Some (n', m') ∈ ns → (n', m') ∈ nodes).
  { intros n' m' (p & [= <-] & Hin)%list_elem_of_fmap. rewrite Hp. by right. }
  assert (Hheld : ∀ k x, held (mi :: states ns) k x ↔ held nodes.*2 k x).
  { intros k x. unfold ns. rewrite states_some. apply held_perm. symmetry. exact (fmap_Permutation snd _ _ Hp). }
  destruct (reconcile_region_holds K HK start end_ Hstart n mi ns) as [f Hf].
  - split.
    + intros n' m' Hin. by apply Hn, Hsub.
    + intros n' m' k x Hin. by eapply Hv, Hsub.
    + intros k x y Hx%Hheld Hy%Hheld. by apply (Hu k).
  - intros n' m' Hin. apply Hh; apply list_elem_of_fmap; [exists (n, mi)|exists (n', m')]; split; try done.
    + rewrite Hp. left.
    + by apply Hsub.
  - apply Hn. rewrite Hp. left.
  - exists f. intros fuel Hle. specialize (Hf fuel Hle).
    rewrite (is_latest_unique _ _ _ _ (λ k x, iff_sym (Hheld k x)) Hu (all_merged_latest nodes) (merged_latest mi (states ns))).
    unfold others. unfold ns in Hf at 1. by rewrite <- list_fmap_compose in Hf.
Qed.
End cluster.

(** C36. One round of anti-entropy converges: when every replica of a region
    reconciles with every other, all end in one state, which holds for each key the
    latest version any replica held; provided no stamp names two writes of a key,
    no hash of the compared trees collides, and no key in use is a prefix of
    another. *)
Theorem anti_entropy_converges {E : Type} `{EngineLaws E} (K : bytes → Prop) (start end_ : bytes)
    (nodes : list (ApNode E * ApState)) :
  (∀ a b, K a → K b → a = b ∨ apart a b) →
  (∀ uk, K uk → uk `prefix_of` start → uk = start) →
  (∀ n m, (n, m) ∈ nodes → node_holds K start end_ n m) →
  (∀ n m k x, (n, m) ∈ nodes → m !! k = Some x → region_version K start end_ k x) →
  unique_stamps (held nodes.*2) →
  (∀ a b, a ∈ nodes.*2 → b ∈ nodes.*2 → hashes_apart a b) →
  ∃ m f, is_latest (held nodes.*2) m ∧
    ∀ fuel i n mi, (f ≤ fuel)%nat → nodes !! i = Some (n, mi) →
      node_holds K start end_ (reconcile_region fuel start end_ (others start end_ nodes fuel i) n) m.
Proof.
  intros HK Hstart Hn Hv Hu Hh.
  destruct (uniform_fuel (λ i fuel, ∀ n mi, nodes !! i = Some (n, mi) → node_holds K start end_
    (reconcile_region fuel start end_ (others start end_ nodes fuel i) n) (all_merged nodes)) (length nodes)) as [f Hf].
  - intros i _. destruct (nodes !! i) as [[n mi]|] eqn:Ei; [|by exists 0%nat].
    destruct (node_converges K HK start end_ Hstart nodes Hn Hv Hu Hh i n mi Ei) as [f Hf].
    exists f. intros fuel Hle n' m' [= <- <-]. by apply Hf.
  - exists (all_merged nodes), f. split; [apply all_merged_latest|]. intros fuel i n mi Hle Hi.
    apply (Hf i fuel (lookup_lt_Some _ _ _ Hi) Hle n mi Hi).
Qed.

(** C37. Writes reach agreement however they are delivered, as long as no two versions of a key
    bear the same stamp: nodes in one state that receive the same replication requests, in any
    order and any number of times, hold the same state, in which each key has its latest
    version; a node's clock never falls behind a version it holds.  The clocks do not ensure
    distinct stamps (nodes may draw equal ones); with equal stamps the order of delivery
    decides, as [hlc_tie_diverges] shows. *)
Theorem ap_deliveries_converge {E : Type} `{EngineLaws E} (K : bytes → Prop) (start end_ : bytes)
    (n n' : ApNode E) m reqs reqs' :
  node_holds K start end_ n m → node_holds K start end_ n' m → clocked n m →
  (∀ r, r ∈ reqs → region_version K start end_ (ra_key r) (request_write r).2) →
  (∀ r, r ∈ reqs ↔ r ∈ reqs') →
  unique_stamps (λ k x, m !! k = Some x ∨ (k, x) ∈ request_write <$> reqs) →
  ∃ m', node_holds K start end_ (deliver reqs n) m' ∧ node_holds K start end_ (deliver reqs' n') m' ∧
    is_latest (λ k x, m !! k = Some x ∨ (k, x) ∈ request_write <$> reqs) m' ∧
    clocked (deliver reqs n) m'.
Proof.
  intros Hm Hm' Hc Hv Heq Hu.
  assert (Hl : is_latest (λ k x, m !! k = Some x ∨ (k, x) ∈ request_write <$> reqs) (puts m (request_write <$> reqs))).
  { apply (puts_latest _ (λ k x, m !! k = Some x)), is_latest_self. }
  exists (puts m (request_write <$> reqs)). split_and!; [by apply deliver_holds| |done|].
  - replace (puts m (request_write <$> reqs)) with (puts m (request_write <$> reqs')).
    + apply deliver_holds; [|done]. intros r Hr%Heq. by apply Hv.
    + symmetry. eapply is_latest_unique; [|exact Hu|exact Hl|apply (puts_latest _ (λ k x, m !! k = Some x)), is_latest_self].
      intros k x. cbn. rewrite !list_elem_of_fmap. by setoid_rewrite Heq.
  - by eapply deliver_clocked.
Qed.

(** A local AP write succeeds without any peer, is stamped above every version
    the node holds, and replaces the key's version; the request it fans out carries
    that stamp and value. *)
Lemma ap_write_wins {E : Type} `{EngineLaws E} (K : bytes → Prop) (start end_ : bytes)
    (n : ApNode E) m clock key value :
  node_holds K start end_ n m → clocked n m → K key → in_range start end_ key → an_hlc n < u64_max →
  small_op (OpWrite (committed_batch key value (fst (hlc_now clock (an_hlc n))) (fst (hlc_now clock (an_hlc n))))) →
  ∃ n' ts req, ap_write clock key value n = (n', inr (ts, req)) ∧
    request_write req = (key, (ts, raw_value value, Value_is_delete value)) ∧
    node_holds K start end_ n' (<[key := (request_write req).2]> m) ∧
    clocked n' (<[key := (request_write req).2]> m) ∧
    an_hlc n < ts ∧ u64_shl clock HLC_LOGICAL_BITS ≤ ts.
Proof.
  intros Hm Hc HKk Hr Hl Hsm.
  destruct (ap_write_holds K start end_ n m clock key value Hm Hc HKk Hr Hl Hsm) as (n' & Hw & Hh & Hcl & _ & Hlt).
  eexists _, _, _. split_and!; [exact Hw|done|done|done|done|]. unfold hlc_now. cbn [fst]. lia.
Qed.

(** A read repair answers with the latest version any reachable replica holds,
    leaves it on the reading node, and the push it sends to each peer brings that
    peer to the same version. *)
Lemma read_repair_agrees {E : Type} `{EngineLaws E} (K : bytes → Prop) (start end_ : bytes)
    (n : ApNode E) m ns key :
  (∀ a b, K a → K b → a = b ∨ apart a b) →
  node_holds K start end_ n m → peers_ok K start end_ m ns → K key → in_range start end_ key →
  (∀ x, m !! key = Some x → region_version K start end_ key x) →
  ∃ best f, is_latest (held (m :: states ns)) (merged m (states ns)) ∧ best = merged m (states ns) !! key ∧
    ∀ fuel, (f ≤ fuel)%nat → ∃ n' pushes,
      ap_read_repair fuel key ((λ o, serve start end_ fuel (fst <$> o)) <$> ns) n = (n', inr (Ok (shown best)), pushes) ∧
      node_holds K start end_ n' (with_key key best m) ∧
      ∀ i ni mi, ns !! i = Some (Some (ni, mi)) →
        node_holds K start end_ (receive (default None (pushes !! i)) ni) (with_key key best mi).
Proof.
  intros HK Hm Hok HKk Hr Hloc.
  destruct (read_repair_holds K HK start end_ n m ns key Hm Hok HKk Hr Hloc) as [f Hf].
  eexists _, f. split_and!; [apply merged_latest|done|exact Hf].
Qed.

(** The Merkle comparison is exact: every reported bucket differs, whatever the
    hashes; when no inner hash collides, exactly the differing buckets are reported,
    in order; and a digest does not depend on the order of the versions. *)
Lemma merkle_diff_exact (l r : list N) :
  (∀ j, j ∈ diff l r → digests_differ l r j = true ∧ (j < LEAVES)%nat) ∧
  (no_collision (from_digest l) (from_digest r) →
    diff l r = List.filter (digests_differ l r) (seq 0 LEAVES)) ∧
  (∀ vs vs', vs ≡ₚ vs' → digest vs = digest vs').
Proof.
  split; [intros j; apply diff_sound|]. split; [apply diff_filter|apply digest_permutation].
Qed.

(** * Concrete runs *)

(** Decide that the hashes of two states do not collide. *)
Definition no_collisionb (ta tb : list N) : bool :=
  forallb (λ i, implb (node ta i =? node tb i)
                  ((node ta (2 * i) =? node tb (2 * i)) && (node ta (2 * i + 1) =? node tb (2 * i + 1))))
    (seq 1 (LEAVES - 1)).

Lemma no_collisionb_sound ta tb : no_collisionb ta tb = true → no_collision ta tb.
Proof.
  unfold no_collisionb. rewrite forallb_forall. intros Hf i Hi Heq.
  specialize (Hf i ltac:(apply in_seq; unfold LEAVES in *; lia)).
  rewrite Heq, N.eqb_refl in Hf. apply andb_true_iff in Hf as [H1%N.eqb_eq H2%N.eqb_eq]. split; assumption.
Qed.

Definition faithfulb (ea eb : nat → list (bytes * N)) : bool :=
  forallb (λ i, implb (leaf_hash (ea i) =? leaf_hash (eb i)) (bool_decide (ea i = eb i))) (seq 0 LEAVES).

Lemma faithfulb_sound ea eb :
  faithfulb ea eb = true → ∀ i, (i < LEAVES)%nat → leaf_hash (ea i) = leaf_hash (eb i) → ea i = eb i.
Proof.
  unfold faithfulb. rewrite forallb_forall. intros Hf i Hi Heq. specialize (Hf i ltac:(apply in_seq; lia)).
  rewrite Heq, N.eqb_refl in Hf. by apply bool_decide_eq_true in Hf.
Qed.

Definition hashes_apartb (a b : ApState) : bool :=
  faithfulb (λ i, bucket_entries i (versions a)) (λ i, bucket_entries i (versions b)) &&
  no_collisionb (from_digest (digest (versions a))) (from_digest (digest (versions b))).

Lemma hashes_apartb_sound a b : hashes_apartb a b = true → hashes_apart a b.
Proof.
  unfold hashes_apartb. intros [H1 H2]%andb_true_iff. split; [|by apply no_collisionb_sound].
  exact (faithfulb_sound _ _ H1).
Qed.

Definition ap_n0 : ApNode (Core (gmap bytes MemValue)) := mkApNode ex_c0 0.

Lemma ap_n0_holds : node_holds ex_K [] [] ap_n0 ∅.
Proof.
  exists empty_store. split; [apply ex_holds0|]. split.
  - intros k Hs. by apply is_Some_None in Hs.
  - intros uk _ _. by rewrite lookup_empty.
  - intros uk x Hx. by rewrite lookup_empty in Hx.
Qed.

Lemma ex_start uk : ex_K uk → uk `prefix_of` [] → uk = [].
Proof. by intros [->| ->] [x Hx]. Qed.

Lemma ex_region_version k x :
  ex_K k → small_version k x → region_version ex_K [] [] k x.
Proof. intros HK ?. split; [done|]. split; [|done]. split; [by destruct HK as [->| ->]|done]. Qed.

(** Two replicas: one wrote a key, the other deleted it later and wrote another. *)
Definition ap_r1 : list ReplicateApRequest := [mkReplicateAp [x61] [x31] false 5].
Definition ap_r2 : list ReplicateApRequest := [mkReplicateAp [x61] [] true 7; mkReplicateAp [x62] [x32] false 3].

Definition ap_m1 : ApState := puts ∅ (request_write <$> ap_r1).
Definition ap_m2 : ApState := puts ∅ (request_write <$> ap_r2).
Definition ap_nodes : list (ApNode (Core (gmap bytes MemValue)) * ApState) :=
  [(deliver ap_r1 ap_n0, ap_m1); (deliver ap_r2 ap_n0, ap_m2)].

Lemma ap_reqs_ok r : r ∈ ap_r1 ++ ap_r2 → region_version ex_K [] [] (ra_key r) (request_write r).2.
Proof.
  cbn. intros [->|[->|[->|Hr%elem_of_nil]%elem_of_cons]%elem_of_cons]%elem_of_cons; [..|done];
    (apply ex_region_version; [by (left + right)|split_and!; by vm_compute]).
Qed.

Lemma ap_node1_holds : node_holds ex_K [] [] (deliver ap_r1 ap_n0) ap_m1.
Proof.
  refine (deliver_holds ex_K [] [] ap_r1 ap_n0 ∅ _ ap_n0_holds). intros r Hr. apply ap_reqs_ok, elem_of_app. by left.
Qed.
Lemma ap_node2_holds : node_holds ex_K [] [] (deliver ap_r2 ap_n0) ap_m2.
Proof.
  refine (deliver_holds ex_K [] [] ap_r2 ap_n0 ∅ _ ap_n0_holds). intros r Hr. apply ap_reqs_ok, elem_of_app. by right.
Qed.

#[local] Opaque deliver.

Lemma ap_nodes_hold n m : (n, m) ∈ ap_nodes → node_holds ex_K [] [] n m.
Proof.
  unfold ap_nodes. rewrite !elem_of_cons, elem_of_nil, !pair_equal_spec.
  intros [[-> ->]|[[-> ->]|[]]]; [apply ap_node1_holds|apply ap_node2_holds].
Qed.

Lemma puts_held l k x : puts ∅ l !! k = Some x → (k, x) ∈ l.
Proof.
  intros Hx. pose proof (puts_latest l _ _ (is_latest_self ∅) k) as Hl. rewrite Hx in Hl.
  destruct Hl as [[He|?] _]; [by rewrite lookup_empty in He|done].
Qed.

Lemma ap_nodes_held k x : held ap_nodes.*2 k x → (k, x) ∈ request_write <$> (ap_r1 ++ ap_r2).
Proof.
  rewrite fmap_app, elem_of_app. unfold ap_nodes, held. cbn [fmap list_fmap snd].
  intros (a & Ha & Hx). rewrite !elem_of_cons, elem_of_nil in Ha.
  destruct Ha as [->|[->|[]]]; apply puts_held in Hx; auto.
Qed.

Lemma ap_nodes_versions n m k x : (n, m) ∈ ap_nodes → m !! k = Some x → region_version ex_K [] [] k x.
Proof.
  intros Hn Hx. assert (Hh : held ap_nodes.*2 k x) by (exists m; split; [apply list_elem_of_fmap; by exists (n, m)|done]).
  apply ap_nodes_held, list_elem_of_fmap in Hh as (r & [= -> ->] & Hr). by apply ap_reqs_ok.
Qed.

Lemma ap_writes_unique : unique_stamps (λ k x, (k, x) ∈ request_write <$> (ap_r1 ++ ap_r2)).
Proof.
  intros k x y Hx Hy Hs. cbn in Hx, Hy. rewrite !elem_of_cons, elem_of_nil in Hx, Hy.
  destruct Hx as [[= -> ->]|[[= -> ->]|[[= -> ->]|[]]]], Hy as [[= ?]|[[= ?]|[[= ?]|[]]]];
    subst; cbn in Hs; congruence.
Qed.

Lemma hashes_apart_refl a : hashes_apart a a.
Proof. split; [intros i _ _; reflexivity|intros i _ _; split; reflexivity]. Qed.

Lemma hashes_apart_sym a b : hashes_apart a b → hashes_apart b a.
Proof.
  intros [Hf Hn]. split.
  - intros i Hi Heq. symmetry. apply (Hf i Hi). symmetry. exact Heq.
  - intros i Hi Heq. destruct (Hn i Hi (eq_sym Heq)) as [H1 H2]. split; symmetry; assumption.
Qed.

Lemma ap_hashes12 : hashes_apart ap_m1 ap_m2.
Proof. apply hashes_apartb_sound. vm_cast_no_check (eq_refl true). Qed.

Lemma ap_hashes a b : a ∈ ap_nodes.*2 → b ∈ ap_nodes.*2 → hashes_apart a b.
Proof.
  unfold ap_nodes. cbn [fmap list_fmap snd]. rewrite !elem_of_cons, !elem_of_nil.
  intros [->|[->|[]]] [->|[->|[]]];
    [apply hashes_apart_refl|apply ap_hashes12|apply hashes_apart_sym, ap_hashes12|apply hashes_apart_refl].
Qed.

Lemma anti_entropy_converges_witness :
  ∃ m f, is_latest (held ap_nodes.*2) m ∧
    ∀ fuel i n mi, (f ≤ fuel)%nat → ap_nodes !! i = Some (n, mi) →
      node_holds ex_K [] [] (reconcile_region fuel [] [] (others [] [] ap_nodes fuel i) n) m.
Proof.
  apply (anti_entropy_converges ex_K [] [] ap_nodes ex_K_apart ex_start ap_nodes_hold ap_nodes_versions).
  - intros k x y Hx%ap_nodes_held Hy%ap_nodes_held. by apply (ap_writes_unique k).
  - apply ap_hashes.
Defined.

Lemma ap_deliveries_converge_witness :
  ∃ m', node_holds ex_K [] [] (deliver (ap_r1 ++ ap_r2) ap_n0) m' ∧
    node_holds ex_K [] [] (deliver (ap_r2 ++ ap_r1) ap_n0) m' ∧
    is_latest (λ k x, (∅ : ApState) !! k = Some x ∨ (k, x) ∈ request_write <$> (ap_r1 ++ ap_r2)) m' ∧
    clocked (deliver (ap_r1 ++ ap_r2) ap_n0) m'.
Proof.
  apply (ap_deliveries_converge ex_K [] [] ap_n0 ap_n0 ∅ (ap_r1 ++ ap_r2) (ap_r2 ++ ap_r1)).
  - apply ap_n0_holds.
  - apply ap_n0_holds.
  - intros k x Hx. by rewrite lookup_empty in Hx.
  - apply ap_reqs_ok.
  - intros r. rewrite !elem_of_app. tauto.
  - intros k x y [Hx|Hx] [Hy|Hy]; try by rewrite lookup_empty in *. by apply (ap_writes_unique k).
Defined.

Lemma ap_write_wins_witness :
  ∃ n' ts req, ap_write 9 [x62] VDelete ap_n0 = (n', inr (ts, req)) ∧
    request_write req = ([x62], (ts, raw_value VDelete, true)) ∧
    node_holds ex_K [] [] n' (<[[x62] := (request_write req).2]> ∅) ∧
    clocked n' (<[[x62] := (request_write req).2]> ∅) ∧
    0 < ts ∧ u64_shl 9 HLC_LOGICAL_BITS ≤ ts.
Proof.
  apply (ap_write_wins ex_K [] [] ap_n0 ∅ 9 [x62] VDelete).
  - apply ap_n0_holds.
  - intros k x Hx. by rewrite lookup_empty in Hx.
  - by right.
  - by vm_compute.
  - by vm_compute.
  - by vm_compute.
Defined.

Definition ap_peers : list (option (ApNode (Core (gmap bytes MemValue)) * ApState)) :=
  [None; Some (deliver ap_r2 ap_n0, ap_m2)].

Lemma ap_peers_ok : peers_ok ex_K [] [] ap_m1 ap_peers.
Proof.
  assert (Hin : ∀ n m, Some (n, m) ∈ ap_peers → (n, m) ∈ ap_nodes).
  { unfold ap_peers, ap_nodes. intros n m. rewrite !elem_of_cons, elem_of_nil. intros [?|[?|[]]]; [done|].
    right. left. by apply Some_inj. }
  split.
  - intros n m Hn%Hin. by apply ap_nodes_hold.
  - intros n m k x Hn%Hin. by eapply ap_nodes_versions.
  - intros k x y Hx Hy. by apply (ap_writes_unique k); apply ap_nodes_held.
Qed.

Lemma read_repair_agrees_witness :
  ∃ best f, is_latest (held (ap_m1 :: states ap_peers)) (merged ap_m1 (states ap_peers)) ∧
    best = merged ap_m1 (states ap_peers) !! [x61] ∧
    ∀ fuel, (f ≤ fuel)%nat → ∃ n' pushes,
      ap_read_repair fuel [x61] ((λ o, serve [] [] fuel (fst <$> o)) <$> ap_peers) (deliver ap_r1 ap_n0)
        = (n', inr (Ok (shown best)), pushes) ∧
      node_holds ex_K [] [] n' (with_key [x61] best ap_m1) ∧
      ∀ i ni mi, ap_peers !! i = Some (Some (ni, mi)) →
        node_holds ex_K [] [] (receive (default None (pushes !! i)) ni) (with_key [x61] best mi).
Proof.
  apply (read_repair_agrees ex_K [] [] (deliver ap_r1 ap_n0) ap_m1 ap_peers [x61] ex_K_apart).
  - apply ap_nodes_hold. left.
  - apply ap_peers_ok.
  - by left.
  - by vm_compute.
  - intros x. apply (ap_nodes_versions (deliver ap_r1 ap_n0) ap_m1). left.
Defined.

(** * Findings

    Behaviours of the AP path that its comments exclude, evaluated. *)

(** Two fresh nodes write one key in the same millisecond. *)
Definition tie_a := ap_write 9 [x61] (VPut [x31]) ap_n0.
Definition tie_b := ap_write 9 [x61] (VPut [x32]) ap_n0.

Definition tie_req (r : ApNode (Core (gmap bytes MemValue)) * (Status + N * ReplicateApRequest))
    : option ReplicateApRequest :=
  match r.2 with inr (_, req) => Some req | inl _ => None end.

Definition seen (n : ApNode (Core (gmap bytes MemValue))) := scan_versions 9 [] [] 0 (an_engine n).

(** The nodes' versions, as their scans list them. *)
Definition tie_vers (v : bytes) : list Version := [mkVersion [x61] 2359296 v false].

Lemma tie_digests : digest (tie_vers [x31]) = digest (tie_vers [x32]).
Proof. vm_compute. reflexivity. Qed.

(** Equal digests: nothing is fetched. *)
Lemma reconcile_tie n n' v v' :
  seen n = Ok [([x61], 2359296, v, false)] → seen n' = Ok [([x61], 2359296, v', false)] →
  digest (tie_vers v) = digest (tie_vers v') →
  reconcile_region 9 [] [] [serve [] [] 9 (Some n')] n = n.
Proof.
  unfold seen. intros H1 H2 Hd. unfold reconcile_region. rewrite H1.
  cbn [fmap list_fmap to_ae_version fold_left]. unfold reconcile_peer, serve, peer_digest, ap_digest. rewrite H2.
  cbn [internal rpc fmap list_fmap to_ae_version]. fold (tie_vers v) (tie_vers v'). rewrite Hd, diff_refl.
  by destruct (negb _).
Qed.

(** Both stamps are equal: the nodes keep different values through a mutual
    reconciliation, and swap them when each receives the other's write. *)
Lemma hlc_tie_diverges :
  let ts := 9 * 262144 in
  seen (reconcile_region 9 [] [] [serve [] [] 9 (Some tie_b.1)] tie_a.1) = Ok [([x61], ts, [x31], false)] ∧
  seen (reconcile_region 9 [] [] [serve [] [] 9 (Some tie_a.1)] tie_b.1) = Ok [([x61], ts, [x32], false)] ∧
  seen (receive (tie_req tie_b) tie_a.1) = Ok [([x61], ts, [x32], false)] ∧
  seen (receive (tie_req tie_a) tie_b.1) = Ok [([x61], ts, [x31], false)].
Proof.
  assert (Ha : seen tie_a.1 = Ok [([x61], 2359296, [x31], false)]) by (vm_compute; reflexivity).
  assert (Hb : seen tie_b.1 = Ok [([x61], 2359296, [x32], false)]) by (vm_compute; reflexivity).
  cbv zeta. rewrite (reconcile_tie _ _ _ _ Ha Hb tie_digests), (reconcile_tie _ _ _ _ Hb Ha (eq_sym tie_digests)).
  split; [exact Ha|]. split; [exact Hb|]. split; vm_compute; reflexivity.
Qed.
