(* ===== verification/RaftCmd.v ===== *)
(** The commands a region's Raft log carries ([server/src/raft_cmd.rs]) and the state
    machine that applies them to the engine ([prewrite_region], [make_apply],
    [make_snapshot] and [make_restore] of [server/src/lib.rs]).  Log output is left
    out. *)

From stdpp Require Import base list numbers strings gmap.
From Stdlib Require Import Strings.Byte.
From S2P Require Import Prelude Encoding Keys Batch Memtable Db DbCorrect EngineApi Mvcc Percolator Scan.
From S2P Require Import Cursor PdRegion Ap.

Inductive Command :=
  | Autocommit (batch : WriteBatch)
  | Prewrite (mutations : list Mutation) (primary : bytes) (start_ts ttl : N)
  | Commit (primary : bytes) (keys : list bytes) (start_ts commit_ts : N)
  | Resolve (keys : list bytes) (start_ts commit_ts : N).

(** * Codec *)

Definition TAG_AUTOCOMMIT : byte := x00.
Definition TAG_PREWRITE : byte := x01.
Definition TAG_COMMIT : byte := x02.
Definition TAG_RESOLVE : byte := x03.

Definition put_u64 (buf : bytes) (n : N) : bytes := buf ++ u64_be n.
Definition put_count (buf : bytes) (n : nat) : bytes := buf ++ u32_be (as_u32 (N.of_nat n)).

Definition Command_encode (c : Command) : bytes :=
  match c with
  | Autocommit batch => [TAG_AUTOCOMMIT] ++ batch_encode batch
  | Prewrite mutations primary start_ts ttl =>
    let buf := [TAG_PREWRITE] in
    let buf := put_u64 buf start_ts in
    let buf := put_u64 buf ttl in
    let buf := put_length_prefixed buf primary in
    let buf := put_count buf (length mutations) in
    fold_left (λ buf m, put_length_prefixed (put_length_prefixed buf (mu_key m)) (Value_encode (mu_value m)))
      mutations buf
  | Commit primary keys start_ts commit_ts =>
    let buf := [TAG_COMMIT] in
    let buf := put_u64 buf start_ts in
    let buf := put_u64 buf commit_ts in
    let buf := put_length_prefixed buf primary in
    let buf := put_count buf (length keys) in
    fold_left put_length_prefixed keys buf
  | Resolve keys start_ts commit_ts =>
    let buf := [TAG_RESOLVE] in
    let buf := put_u64 buf start_ts in
    let buf := put_u64 buf commit_ts in
    let buf := put_count buf (length keys) in
    fold_left put_length_prefixed keys buf
  end.

Definition get_mutation : Parser Mutation :=
  key ← (get_length_prefixed : Parser bytes);
  vb ← (get_length_prefixed : Parser bytes);
  value ← plift (Value_decode vb);
  mret (mkMutation key value).

Definition get_keys : Parser (list bytes) :=
  count ← get_u32;
  get_many (N.to_nat count) get_length_prefixed.

Definition get_prewrite : Parser Command :=
  start_ts ← get_u64;
  ttl ← get_u64;
  primary ← (get_length_prefixed : Parser bytes);
  count ← get_u32;
  mutations ← get_many (N.to_nat count) get_mutation;
  mret (Prewrite mutations primary start_ts ttl).

Definition get_commit : Parser Command :=
  start_ts ← get_u64;
  commit_ts ← get_u64;
  primary ← (get_length_prefixed : Parser bytes);
  keys ← get_keys;
  mret (Commit primary keys start_ts commit_ts).

Definition get_resolve : Parser Command :=
  start_ts ← get_u64;
  commit_ts ← get_u64;
  keys ← get_keys;
  mret (Resolve keys start_ts commit_ts).

Definition Command_decode (buf : bytes) : option Command :=
  match buf with
  | [] => None
  | tag :: rest =>
    match tag with
    | x00 => Autocommit <$> batch_decode rest
    | x01 => fst <$> get_prewrite rest 0%nat
    | x02 => fst <$> get_commit rest 0%nat
    | x03 => fst <$> get_resolve rest 0%nat
    | _ => None
    end
  end.

(** * Applying an entry *)

Section apply.
Context {E : Type} `{EngineOps E}.

(** The loop over the mutations: the keys locked so far, and the outcome. *)
Fixpoint prewrite_region_loop (mutations : list Mutation) (primary : bytes) (start_ts ttl : N)
    (acquired : list bytes) (e : E) : E * (list bytes * Result unit) :=
  match mutations with
  | [] => (e, (acquired, Ok tt))
  | m :: ms =>
    match prewrite_one (mu_key m) (mu_value m) primary start_ts ttl e with
    | (e, Ok _) => prewrite_region_loop ms primary start_ts ttl (acquired ++ [mu_key m]) e
    | (e, Err err) => (e, (acquired, Err err))
    end
  end.

Definition prewrite_region (mutations : list Mutation) (primary : bytes) (start_ts ttl : N) : EM E unit := λ e,
  let '(e, (acquired, result)) := prewrite_region_loop mutations primary start_ts ttl [] e in
  match result with
  | Ok _ => (e, Ok tt)
  | Err err => (rollback_all start_ts acquired e, Err err)
  end.

(** The loop of [Command::Resolve]. *)
Fixpoint resolve_keys (keys : list bytes) (start_ts commit_ts : N) : EM E unit :=
  match keys with
  | [] => mret tt
  | k :: keys =>
    _ ← (if commit_ts =? 0 then resolve_rollback k start_ts else resolve_commit k start_ts commit_ts);
    resolve_keys keys start_ts commit_ts
  end.

(** Placeholder mutations: only their keys are read; the primary first. *)
Definition commit_mutations (primary : bytes) (keys : list bytes) : list Mutation :=
  Mutation_delete primary :: (Mutation_delete <$> List.filter (λ k, negb (bool_decide (k = primary))) keys).

Definition apply_command (c : Command) : EM E unit :=
  match c with
  | Autocommit batch => _ ← engine_write batch; mret tt
  | Prewrite mutations primary start_ts ttl => prewrite_region mutations primary start_ts ttl
  | Resolve keys start_ts commit_ts => resolve_keys keys start_ts commit_ts
  | Commit primary keys start_ts commit_ts =>
    tx ← em_lift (Transaction_new start_ts (commit_mutations primary keys));
    commit tx commit_ts
  end.

(** [make_apply]: an empty entry is the election no-op. *)
Definition make_apply (data : bytes) : EM E unit :=
  match data with
  | [] => mret tt
  | _ =>
    match Command_decode data with
    | Some c => apply_command c
    | None => em_lift (Err (Corruption "undecodable raft command"))
    end
  end.

(** * Snapshots *)

Definition encode_pair (b : bytes) (p : bytes * bytes) : bytes :=
  b ++ u32_be (as_u32 (N.of_nat (length p.1))) ++ p.1 ++ u32_be (as_u32 (N.of_nat (length p.2))) ++ p.2.

Definition encode_kv_pairs (pairs : list (bytes * bytes)) : bytes :=
  fold_left encode_pair pairs (u64_be (as_u64 (N.of_nat (length pairs)))).

(** The [take] closure of [decode_kv_pairs]. *)
Definition kv_take (n : nat) : Parser bytes := λ buf p,
  if (length buf <? p + n)%nat then None else Some (slice p (p + n) buf, (p + n)%nat).

Definition decode_pair : Parser (bytes * bytes) :=
  kl ← kv_take 4;
  k ← kv_take (N.to_nat (be_N kl));
  vl ← kv_take 4;
  v ← kv_take (N.to_nat (be_N vl));
  mret (k, v).

(** Up to [count] pairs; a pair takes at least eight bytes, so the buffer's length
    bounds the turns. *)
Fixpoint decode_pairs (fuel : nat) (count : N) (buf : bytes) (p : nat) : list (bytes * bytes) :=
  match fuel with
  | O => []
  | S fuel =>
    if count =? 0 then [] else
    match decode_pair buf p with
    | None => []
    | Some (kv, p) => kv :: decode_pairs fuel (count - 1) buf p
    end
  end.

Definition decode_kv_pairs (b : bytes) : list (bytes * bytes) :=
  match kv_take 8 b 0%nat with
  | None => []
  | Some (count_b, p) => decode_pairs (S (length b)) (be_N count_b) b p
  end.

(** [make_snapshot]: the region's current range, or the one it was founded with. *)
Definition make_snapshot (fuel : nat) (regions : RegionRegistry) (region_id : N) (start end_ : bytes) (e : E)
    : bytes :=
  let '(start, end_) :=
    match List.find (λ r, r_id r =? region_id) (list_regions regions) with
    | Some r => (r_start r, r_end r)
    | None => (start, end_)
    end in
  let pairs := match snd (scan fuel start end_ u64_max 0 false e) with Ok pairs => pairs | Err _ => [] end in
  encode_kv_pairs pairs.

(** [make_restore]: a failed write is ignored. *)
Definition make_restore (b : bytes) (e : E) : E :=
  fold_left (λ e p, fst (engine_write (committed_batch p.1 (VPut p.2) 1 1) e)) (decode_kv_pairs b) e.
End apply.
