(* ===== verification/RaftCmdCorrect.v ===== *)
(** The replicated state machine of a region: its codecs invert, two replicas that
    apply one log agree, a resolve entry settles a transaction's locks, a transaction replicated step by step is the single-node
    transaction, and a snapshot restores the committed state on a blank replica. *)

From stdpp Require Import base list numbers strings gmap.
From Stdlib Require Import Strings.Byte.
From S2P Require Import Prelude Encoding Keys Batch OrdMap Memtable SstableCorrect Db DbCorrect EngineApi.
From S2P Require Import Mvcc MvccCorrect Percolator TxnCorrect Scan ScanCorrect Cursor PdRegion Ap ApCorrect RaftCmd.

#[local] Arguments encode_data_key : simpl never.
#[local] Arguments encode_write_value : simpl never.
#[local] Arguments Value_encode : simpl never.

(** * Codecs *)

Definition mutation_fits (m : Mutation) : Prop := fits (mu_key m) ∧ fits (Value_encode (mu_value m)).

(** Commands whose lengths and timestamps the fields can hold. *)
Definition command_ok (c : Command) : Prop :=
  match c with
  | Autocommit batch => batch_wf batch
  | Prewrite ms primary start_ts ttl =>
    is_u64 start_ts ∧ is_u64 ttl ∧ fits primary ∧ is_u32 (N.of_nat (length ms)) ∧ Forall mutation_fits ms
  | Commit primary keys start_ts commit_ts =>
    is_u64 start_ts ∧ is_u64 commit_ts ∧ fits primary ∧ is_u32 (N.of_nat (length keys)) ∧ Forall fits keys
  | Resolve keys start_ts commit_ts =>
    is_u64 start_ts ∧ is_u64 commit_ts ∧ is_u32 (N.of_nat (length keys)) ∧ Forall fits keys
  end.

Lemma reads_lp b : fits b → reads (get_length_prefixed : Parser bytes) b (lp b).
Proof. intros Hf p s. rewrite get_put_length_prefixed by done. rewrite length_lp. do 2 f_equal. lia. Qed.

Definition mutation_enc (m : Mutation) : bytes := lp (mu_key m) ++ lp (Value_encode (mu_value m)).

Lemma reads_mutation m : mutation_fits m → reads get_mutation m (mutation_enc m).
Proof.
  intros [Hk Hv]. unfold get_mutation, mutation_enc. eapply reads_bind; [by apply reads_lp|].
  eapply reads_bind_ret; [by apply reads_lp|]. change [] with ([] ++ [] : bytes).
  eapply reads_bind; [apply (reads_lift _ (mu_value m)), Value_decode_encode|]. destruct m. apply reads_ret.
Qed.

Lemma fold_put_keys keys buf : fold_left put_length_prefixed keys buf = buf ++ concat (lp <$> keys).
Proof.
  revert buf. induction keys as [|k keys IH]; intros buf; cbn; [by rewrite app_nil_r|].
  rewrite IH. unfold put_length_prefixed, lp. by rewrite <- !app_assoc.
Qed.

Lemma fold_put_mutations ms buf :
  fold_left (λ buf m, put_length_prefixed (put_length_prefixed buf (mu_key m)) (Value_encode (mu_value m))) ms buf
  = buf ++ concat (mutation_enc <$> ms).
Proof.
  revert buf. induction ms as [|m ms IH]; intros buf; cbn; [by rewrite app_nil_r|].
  rewrite IH. unfold mutation_enc, put_length_prefixed, lp. by rewrite <- !app_assoc.
Qed.

Lemma reads_keys keys :
  is_u32 (N.of_nat (length keys)) → Forall fits keys →
  reads get_keys keys (u32_be (as_u32 (N.of_nat (length keys))) ++ concat (lp <$> keys)).
Proof.
  intros Hl Hk. eapply reads_bind; [by apply reads_count|]. cbn beta. rewrite Nat2N.id.
  apply reads_many. eapply list.Forall_impl; [exact Hk|]. intros k. apply reads_lp.
Qed.

(** A reader at the start of a buffer that begins with the encoding. *)
Lemma reads_prefix {A} (g : Parser A) x e s : reads g x e → fst <$> g (e ++ s) 0%nat = Some x.
Proof. intros Hg. specialize (Hg [] s). cbn in Hg. by rewrite Hg. Qed.

Lemma command_roundtrip c s : command_ok c → Command_decode (Command_encode c ++ s) = Some c.
Proof.
  destruct c as [batch|ms primary start_ts ttl|primary keys start_ts commit_ts|keys start_ts commit_ts]; cbn [command_ok].
  - intros Hb. cbn. by rewrite batch_decode_encode_app.
  - intros (Hs & Ht & Hp & Hl & Hm). unfold Command_encode, put_u64, put_count. cbv zeta.
    rewrite fold_put_mutations, put_length_prefixed_lp, <- !app_assoc. cbn [app Command_decode TAG_PREWRITE].
    rewrite !app_assoc. apply reads_prefix. rewrite <- !app_assoc.
    eapply reads_bind; [by apply reads_u64|]. eapply reads_bind; [by apply reads_u64|].
    eapply reads_bind; [by apply reads_lp|].
    rewrite <- (app_nil_r (concat _)). apply reads_counted; [done| |apply reads_ret].
    eapply list.Forall_impl; [exact Hm|]. intros m. apply reads_mutation.
  - intros (Hs & Ht & Hp & Hl & Hk). unfold Command_encode, put_u64, put_count. cbv zeta.
    rewrite fold_put_keys, put_length_prefixed_lp, <- !app_assoc. cbn [app Command_decode TAG_COMMIT].
    rewrite !app_assoc. apply reads_prefix. rewrite <- !app_assoc.
    eapply reads_bind; [by apply reads_u64|]. eapply reads_bind; [by apply reads_u64|].
    eapply reads_bind; [by apply reads_lp|].
    eapply reads_bind_ret; [by apply reads_keys|apply reads_ret].
  - intros (Hs & Ht & Hl & Hk). unfold Command_encode, put_u64, put_count. cbv zeta.
    rewrite fold_put_keys, <- !app_assoc. cbn [app Command_decode TAG_RESOLVE].
    rewrite !app_assoc. apply reads_prefix. rewrite <- !app_assoc.
    eapply reads_bind; [by apply reads_u64|]. eapply reads_bind; [by apply reads_u64|].
    eapply reads_bind_ret; [by apply reads_keys|apply reads_ret].
Qed.

Definition pair_fits (p : bytes * bytes) : Prop := fits p.1 ∧ fits p.2.
Definition pair_enc (p : bytes * bytes) : bytes := lp p.1 ++ lp p.2.

Lemma encode_kv_pairs_enc pairs :
  encode_kv_pairs pairs = u64_be (as_u64 (N.of_nat (length pairs))) ++ concat (pair_enc <$> pairs).
Proof.
  unfold encode_kv_pairs. generalize (u64_be (as_u64 (N.of_nat (length pairs)))) as b.
  induction pairs as [|p pairs IH]; intros b; cbn; [by rewrite app_nil_r|].
  rewrite IH. unfold encode_pair, pair_enc, lp. by rewrite <- !app_assoc.
Qed.

Lemma reads_take b : reads (kv_take (length b)) b b.
Proof.
  intros p s. unfold kv_take. destruct (Nat.ltb_spec (length (p ++ b ++ s)) (length p + length b)) as [Hl|_].
  { rewrite !length_app in Hl. lia. }
  by rewrite slice_app' by lia.
Qed.

Lemma reads_pair p : pair_fits p → reads decode_pair p (pair_enc p).
Proof.
  destruct p as [k v]. intros [Hk Hv]. cbn in Hk, Hv. unfold decode_pair, pair_enc, lp. cbn [fst snd].
  rewrite <- !app_assoc. eapply reads_bind; [apply (reads_take (u32_be _))|].
  rewrite be_N_lp_len by done. eapply reads_bind; [apply reads_take|].
  eapply reads_bind; [apply (reads_take (u32_be _))|]. rewrite be_N_lp_len by done.
  eapply reads_bind_ret; [apply reads_take|apply reads_ret].
Qed.

Lemma decode_pairs_enc pairs p s fuel :
  Forall pair_fits pairs → (length pairs < fuel)%nat →
  decode_pairs fuel (N.of_nat (length pairs)) (p ++ concat (pair_enc <$> pairs) ++ s) (length p) = pairs.
Proof.
  intros Hf. revert p fuel. induction Hf as [|kv pairs Hp _ IH]; intros p fuel Hl; destruct fuel as [|fuel]; try (cbn in Hl; lia).
  - done.
  - cbn [length] in Hl |- *. cbn [decode_pairs fmap list_fmap concat].
    rewrite (proj2 (N.eqb_neq (N.of_nat (S (length pairs))) 0)) by lia. rewrite <- app_assoc.
    rewrite (reads_pair kv Hp p). f_equal. rewrite <- length_app, (app_assoc p).
    replace (N.of_nat (S (length pairs)) - 1) with (N.of_nat (length pairs)) by lia. apply IH. lia.
Qed.

Lemma kv_pairs_roundtrip pairs :
  is_u64 (N.of_nat (length pairs)) → Forall pair_fits pairs →
  decode_kv_pairs (encode_kv_pairs pairs) = pairs.
Proof.
  intros Hl Hf. unfold decode_kv_pairs. rewrite encode_kv_pairs_enc, as_u64_id by done.
  set (c := u64_be _). pose proof (reads_take c [] (concat (pair_enc <$> pairs))) as Hc.
  cbn [app length Nat.add] in Hc. assert (Hc8 : length c = 8%nat) by apply length_be_bytes. rewrite Hc8 in Hc. rewrite Hc.
  replace (be_N c) with (N.of_nat (length pairs)) by (symmetry; by apply be_N_u64). rewrite <- Hc8.
  rewrite <- (app_nil_r (concat _)).
  apply decode_pairs_enc; [done|]. rewrite !length_app.
  assert (Hlen : (length pairs ≤ length (concat (pair_enc <$> pairs)))%nat); [|lia].
  clear. induction pairs as [|p pairs IH]; [done|]. rewrite fmap_cons. cbn [concat length].
  rewrite length_app. unfold pair_enc at 1. rewrite length_app, !length_lp. lia.
Qed.

(** * Agreement of replicas *)

Lemma spec_op_total {E} `{EngineLaws E} (e : E) st op : holds e st → ∃ o, spec_op st op o.
Proof.
  intros Hh. destruct op as [b|p|r].
  - eexists. constructor.
  - destruct (holds_seek e st CfWrite (encode_data_key (pw_key p) u64_max) Hh) as (newest & _ & Hs).
    destruct (conflicts (pw_key p) (pw_start_ts p) newest) eqn:Hc; [eexists; by eapply spec_prewrite_conflict|].
    destruct (st_get st CfLock (pw_key p)) eqn:Hl; eexists; [by eapply spec_prewrite_locked|by eapply spec_prewrite_ok].
  - destruct (st_get st CfLock (rs_key r)) as [b|] eqn:Hb; [|eexists; by apply spec_resolve_none].
    destruct (Lock_decode b) as [l|] eqn:Hl; [|eexists; by eapply spec_resolve_corrupt].
    destruct (decide (lock_start_ts l = rs_start_ts r)); eexists; [by eapply spec_resolve_ok|by eapply spec_resolve_other].
Qed.

(** The answer of a request, without its sequence number. *)
Definition erase (r : Result N) : Result unit := (λ _, tt) <$> r.

Section agreement.
Context {E1 E2 : Type} `{EngineLaws E1} `{EngineLaws E2}.

(** Programs on two engines that agree whenever the engines hold one store. *)
Definition alike {A} (m1 : EM E1 A) (m2 : EM E2 A) : Prop :=
  ∀ e1 e2 st, holds e1 st → holds e2 st →
  ∃ st', holds (m1 e1).1 st' ∧ holds (m2 e2).1 st' ∧ (m1 e1).2 = (m2 e2).2.

Lemma alike_ret {A} (a : A) : alike (mret a) (mret a).
Proof. intros e1 e2 st H1' H2'. by exists st. Qed.

Lemma alike_lift {A} (r : Result A) : alike (em_lift r) (em_lift r).
Proof. intros e1 e2 st H1' H2'. by exists st. Qed.

Lemma alike_bind {A B} (m1 : EM E1 A) (m2 : EM E2 A) (k1 : A → EM E1 B) (k2 : A → EM E2 B) :
  alike m1 m2 → (∀ a, alike (k1 a) (k2 a)) → alike (m1 ≫= k1) (m2 ≫= k2).
Proof.
  intros Hm Hk e1 e2 st He1 He2. destruct (Hm e1 e2 st He1 He2) as (st' & H1' & H2' & Hr).
  unfold mbind, em_bind. destruct (m1 e1) as [e1' r1], (m2 e2) as [e2' r2]. cbn in *. subst r2.
  destruct r1 as [a|err]; [by apply (Hk a e1' e2' st')|]. by exists st'.
Qed.

(** One request: the same outcome up to the sequence number. *)
Lemma submit_alike (e1 : E1) (e2 : E2) st op :
  small_op op → holds e1 st → holds e2 st →
  ∃ st', holds (submit e1 op).1 st' ∧ holds (submit e2 op).1 st' ∧ erase (submit e1 op).2 = erase (submit e2 op).2.
Proof.
  intros Hsm H1' H2'. destruct (spec_op_total e1 st op H1') as [[b|r] Ho].
  - destruct (holds_write e1 st op b H1' Hsm Ho) as (e1' & s1 & -> & ?).
    destruct (holds_write e2 st op b H2' Hsm Ho) as (e2' & s2 & -> & ?). by exists (apply_batch st b).
  - destruct (holds_answer e1 st op r H1' Hsm Ho) as (e1' & -> & ?).
    destruct (holds_answer e2 st op r H2' Hsm Ho) as (e2' & -> & ?). by exists st.
Qed.

Lemma unit_alike (m1 : EM E1 N) (m2 : EM E2 N) {A} (k1 : EM E1 A) (k2 : EM E2 A) :
  (∀ (e1 : E1) (e2 : E2) st, holds e1 st → holds e2 st →
    ∃ st', holds (m1 e1).1 st' ∧ holds (m2 e2).1 st' ∧ erase (m1 e1).2 = erase (m2 e2).2) →
  alike k1 k2 → alike (_ ← m1; k1) (_ ← m2; k2).
Proof.
  intros Hm Hk e1 e2 st He1 He2. destruct (Hm e1 e2 st He1 He2) as (st' & H1' & H2' & Hr).
  unfold mbind, em_bind. destruct (m1 e1) as [e1' r1], (m2 e2) as [e2' r2]. cbn in *.
  destruct r1 as [s1|err], r2 as [s2|err']; cbn in Hr; try done; [by apply (Hk e1' e2' st')|].
  exists st'. cbn. split_and!; [done|done|]. by injection Hr as ->.
Qed.

Lemma submit_then_alike op {A} (k1 : EM E1 A) (k2 : EM E2 A) :
  small_op op → alike k1 k2 → alike (_ ← em_submit op; k1) (_ ← em_submit op; k2).
Proof. intros Hsm. apply unit_alike. intros e1 e2 st H1' H2'. exact (submit_alike e1 e2 st op Hsm H1' H2'). Qed.

Lemma write_then_alike b {A} (k1 : EM E1 A) (k2 : EM E2 A) :
  small_op (OpWrite b) → alike k1 k2 → alike (_ ← engine_write b; k1) (_ ← engine_write b; k2).
Proof.
  intros Hsm. apply unit_alike. intros e1 e2 st H1' H2'. unfold engine_write.
  destruct (batch_is_empty b); [by exists st|].
  exact (submit_alike e1 e2 st _ Hsm H1' H2').
Qed.

(** * One entry *)

Definition prewrite_op (primary : bytes) (start_ts ttl : N) (m : Mutation) : Op :=
  OpPrewrite (mkPrewrite (mu_key m) (Value_encode (mu_value m)) primary start_ts ttl
    (match mu_value m with VPut _ => LockPut | VDelete => LockDelete end)).
Definition rollback_op (start_ts : N) (k : bytes) : Op := OpResolve (mkResolve k start_ts RRollback).
Definition commit_op (start_ts commit_ts : N) (k : bytes) : Op := OpResolve (mkResolve k start_ts (RCommit commit_ts)).
Definition primary_batch (primary : bytes) (start_ts commit_ts : N) : WriteBatch :=
  batch_delete (batch_put batch_new CfWrite (encode_data_key primary commit_ts) (encode_write_value start_ts))
    CfLock primary.

(** The requests a command may make of the engine. *)
Definition command_ops (c : Command) : list Op :=
  match c with
  | Autocommit b => [OpWrite b]
  | Prewrite ms primary start_ts ttl =>
    (prewrite_op primary start_ts ttl <$> ms) ++ (rollback_op start_ts <$> (mu_key <$> ms))
  | Commit primary keys start_ts commit_ts =>
    OpWrite (primary_batch primary start_ts commit_ts) :: (commit_op start_ts commit_ts <$> keys)
  | Resolve keys start_ts commit_ts =>
    (rollback_op start_ts <$> keys) ++ (commit_op start_ts commit_ts <$> keys)
  end.

Definition small_entry (data : bytes) : Prop :=
  match Command_decode data with Some c => Forall small_op (command_ops c) | None => True end.

Lemma rollback_all_alike start_ts ks (e1 : E1) (e2 : E2) st :
  Forall (λ k, small_op (rollback_op start_ts k)) ks → holds e1 st → holds e2 st →
  ∃ st', holds (rollback_all start_ts ks e1) st' ∧ holds (rollback_all start_ts ks e2) st'.
Proof.
  intros Hs. revert e1 e2 st. induction Hs as [|k ks Hk _ IH]; intros e1 e2 st H1' H2'; [by exists st|].
  cbn [rollback_all].
  destruct (submit_then_alike (rollback_op start_ts k) (mret tt) (mret tt) Hk (alike_ret tt) e1 e2 st H1' H2')
    as (st' & Ha & Hb & _).
  by apply (IH _ _ st').
Qed.

Lemma prewrite_region_alike ms primary start_ts ttl :
  Forall small_op (prewrite_op primary start_ts ttl <$> ms) →
  Forall (λ m, small_op (rollback_op start_ts (mu_key m))) ms →
  alike (prewrite_region ms primary start_ts ttl) (prewrite_region ms primary start_ts ttl).
Proof.
  intros Hp Hr e1 e2 st H1' H2'. unfold prewrite_region.
  assert (Hloop : ∀ ms' acq (e1 : E1) (e2 : E2) st, Forall small_op (prewrite_op primary start_ts ttl <$> ms') →
    Forall (λ m, small_op (rollback_op start_ts (mu_key m))) ms' →
    Forall (λ k, small_op (rollback_op start_ts k)) acq → holds e1 st → holds e2 st →
    let r1 := prewrite_region_loop ms' primary start_ts ttl acq e1 in
    let r2 := prewrite_region_loop ms' primary start_ts ttl acq e2 in
    ∃ st', holds r1.1 st' ∧ holds r2.1 st' ∧ r1.2 = r2.2 ∧
      Forall (λ k, small_op (rollback_op start_ts k)) r1.2.1).
  { clear. induction ms' as [|m ms' IH]; intros acq e1 e2 st Hp Hr Ha H1' H2'; [by exists st|].
    cbn [prewrite_region_loop fmap list_fmap] in *. apply Forall_cons in Hp as [Hp1 Hp], Hr as [Hr1 Hr].
    destruct (submit_alike e1 e2 st _ Hp1 H1' H2') as (st' & Hb1 & Hb2 & He).
    unfold prewrite_one, em_submit. fold (prewrite_op primary start_ts ttl m).
    destruct (submit e1 _) as [e1' r1], (submit e2 _) as [e2' r2]. cbn in Hb1, Hb2, He.
    destruct r1 as [s1|x], r2 as [s2|y]; cbn in He; try done.
    - apply (IH _ _ _ st'); try done. apply Forall_app. split; [done|by constructor].
    - injection He as ->. by exists st'. }
  destruct (Hloop ms [] e1 e2 st Hp Hr (Forall_nil_2 _) H1' H2') as (st' & Ha & Hb & He & Hacq).
  destruct (prewrite_region_loop ms primary start_ts ttl [] e1) as [e1' [acq1 res1]].
  destruct (prewrite_region_loop ms primary start_ts ttl [] e2) as [e2' [acq2 res2]].
  cbn in Ha, Hb, He, Hacq. injection He as -> ->. destruct res2 as [u|err]; [by exists st'|].
  destruct (rollback_all_alike start_ts acq2 e1' e2' st' Hacq Ha Hb) as (st'' & ? & ?). by exists st''.
Qed.

Lemma resolve_keys_alike keys start_ts commit_ts :
  Forall (λ k, small_op (rollback_op start_ts k) ∧ small_op (commit_op start_ts commit_ts k)) keys →
  alike (resolve_keys keys start_ts commit_ts) (resolve_keys keys start_ts commit_ts).
Proof.
  induction 1 as [|k keys [Hr Hc] _ IH]; [apply alike_ret|]. cbn [resolve_keys].
  apply alike_bind; [|intros []; exact IH].
  destruct (commit_ts =? 0); [apply (submit_then_alike (rollback_op start_ts k))|apply (submit_then_alike (commit_op start_ts commit_ts k))];
    try done; apply alike_ret.
Qed.

Lemma finalize_alike tx commit_ts ms :
  Forall (λ m, mu_key m ≠ tx_primary tx → small_op (commit_op (tx_start_ts tx) commit_ts (mu_key m))) ms →
  alike (finalize_loop tx commit_ts ms) (finalize_loop tx commit_ts ms).
Proof.
  induction 1 as [|m ms Hm _ IH]; [apply alike_ret|]. cbn [finalize_loop]. case_decide; [done|].
  apply alike_bind; [|intros []; exact IH]. apply (submit_then_alike (commit_op (tx_start_ts tx) commit_ts (mu_key m)));
    [by apply Hm|apply alike_ret].
Qed.

Lemma apply_command_alike c :
  Forall small_op (command_ops c) → alike (apply_command c) (apply_command c).
Proof.
  destruct c as [batch|ms primary start_ts ttl|primary keys start_ts commit_ts|keys start_ts commit_ts];
    cbn [command_ops apply_command].
  - intros [Hb _]%Forall_cons. apply write_then_alike; [done|apply alike_ret].
  - intros [Hp Hr]%Forall_app. apply prewrite_region_alike; [done|]. by rewrite !Forall_fmap in Hr.
  - intros [Hb Hk]%Forall_cons. rewrite Forall_fmap in Hk.
    set (tx := mkTransaction start_ts primary (commit_mutations primary keys)).
    change (alike (commit tx commit_ts) (commit tx commit_ts)). apply alike_bind.
    + apply (write_then_alike (primary_batch primary start_ts commit_ts)); [done|apply alike_ret].
    + intros []. apply finalize_alike. constructor; [by intros []|]. apply Forall_fmap. rewrite Forall_forall.
      intros k Hin _. apply list_elem_of_In, List.filter_In in Hin as [Hin%list_elem_of_In _].
      rewrite Forall_forall in Hk. by apply Hk.
  - intros [Hr Hc]%Forall_app. rewrite Forall_fmap in Hr, Hc. apply resolve_keys_alike. by apply Forall_and.
Qed.

Lemma make_apply_alike data : small_entry data → alike (make_apply data) (make_apply data).
Proof.
  unfold small_entry, make_apply. intros Hs. destruct data as [|b data]; [apply alike_ret|].
  destruct (Command_decode (b :: data)) as [c|]; [by apply apply_command_alike|apply alike_lift].
Qed.
End agreement.

(** Entries applied one after the other, with their answers. *)
Fixpoint apply_log {E} `{EngineOps E} (entries : list bytes) (e : E) : E * list (Result unit) :=
  match entries with
  | [] => (e, [])
  | data :: entries =>
    let '(e, r) := make_apply data e in
    let '(e, rs) := apply_log entries e in
    (e, r :: rs)
  end.

Lemma apply_log_alike {E1 E2} `{EngineLaws E1} `{EngineLaws E2} entries (e1 : E1) (e2 : E2) st :
  Forall small_entry entries → holds e1 st → holds e2 st →
  ∃ st', holds (apply_log entries e1).1 st' ∧ holds (apply_log entries e2).1 st' ∧
    (apply_log entries e1).2 = (apply_log entries e2).2.
Proof.
  intros Hs. revert e1 e2 st. induction Hs as [|data entries Hd _ IH]; intros e1 e2 st H1' H2'; [by exists st|].
  cbn [apply_log]. destruct (make_apply_alike data Hd e1 e2 st H1' H2') as (st1 & Ha & Hb & Hr).
  destruct (make_apply data e1) as [e1' r1], (make_apply data e2) as [e2' r2]. cbn in Ha, Hb, Hr. subst r2.
  destruct (IH e1' e2' st1 Ha Hb) as (st2 & Hc & Hd' & Hrs). exists st2.
  destruct (apply_log entries e1') as [e1'' rs1], (apply_log entries e2') as [e2'' rs2]. cbn in *. by subst.
Qed.

(** Engines that hold one store answer every read alike. *)
Lemma reads_alike {E1 E2} `{EngineLaws E1} `{EngineLaws E2} (e1 : E1) (e2 : E2) st :
  holds e1 st → holds e2 st →
  (∀ cf k, get_cf_raw e1 cf k = get_cf_raw e2 cf k) ∧ (∀ cf from, seek_cf_raw e1 cf from = seek_cf_raw e2 cf from).
Proof.
  intros H1' H2'. split.
  - intros cf k. by rewrite (holds_get e1 st), (holds_get e2 st).
  - intros cf from. destruct (holds_seek e1 st cf from H1') as (o1 & -> & S1).
    destruct (holds_seek e2 st cf from H2') as (o2 & -> & S2). by rewrite (is_seek_unique _ _ _ _ S1 S2).
Qed.

Lemma mvcc_reads_alike {E1 E2} `{EngineLaws E1} `{EngineLaws E2} (e1 : E1) (e2 : E2) st key ts :
  holds e1 st → holds e2 st → mvcc_get_unresolved key ts e1 = mvcc_get_unresolved key ts e2.
Proof.
  intros H1' H2'. destruct (reads_alike e1 e2 st H1' H2') as [Hg Hs].
  assert (Hr : read_committed key ts e1 = read_committed key ts e2).
  { unfold read_committed. rewrite Hs. destruct (seek_cf_raw e2 _ _) as [[[k v]|]|]; [|done..].
    cbn. destruct (decode_data_key k) as [[uk c]|]; [|done]. case_decide; [|done]. destruct v as [sb|]; [|done].
    destruct (decode_write_value sb); [|done]. cbn. by rewrite Hg. }
  unfold mvcc_get_unresolved. rewrite Hg, Hr. done.
Qed.

(** * Settling a transaction's locks *)

Section resolving.
Context (K : bytes → Prop) (HK : ∀ a b, K a → K b → a = b ∨ apart a b).
(** [commit_ts] 0 stands for a rollback. *)
Context (start_ts commit_ts : N).

(** The transaction holds the lock on the key. *)
Definition locked_by (st : Store) (k : bytes) : bool :=
  match lock_of st k with Some l => lock_start_ts l =? start_ts | None => false end.

Definition settle_spec (k : bytes) : ResolveSpec :=
  mkResolve k start_ts (if commit_ts =? 0 then RRollback else RCommit commit_ts).

Definition settle_key (st : Store) (k : bytes) : Store :=
  if locked_by st k then apply_batch st (build_resolve_batch (settle_spec k)) else st.

Definition settled (keys : list bytes) (st : Store) : Store := fold_left settle_key keys st.

(** The key's lock, if any, decodes. *)
Definition readable_lock (st : Store) (k : bytes) : Prop := ∀ b, st_get st CfLock k = Some b → is_Some (Lock_decode b).

Lemma locked_by_some st k : locked_by st k = true →
  ∃ b l, st_get st CfLock k = Some b ∧ Lock_decode b = Some l ∧ lock_start_ts l = start_ts.
Proof.
  unfold locked_by, lock_of. destruct (st_get st CfLock k) as [b|]; [|done]. cbn. destruct (Lock_decode b) as [l|] eqn:Hl; [|done].
  intros ?%N.eqb_eq. eauto.
Qed.

(** What settling leaves of a key it finds locked. *)
Lemma settle_ours st k :
  locked_by st k = true →
  st_get (settle_key st k) CfLock k = None ∧
  (∀ c, commit_at (settle_key st k) k c
    = if decide (commit_ts ≠ 0 ∧ encode_data_key k c = encode_data_key k commit_ts)
      then Some (MPut (encode_write_value start_ts)) else commit_at st k c) ∧
  (∀ s, st_get (settle_key st k) CfDefault (encode_data_key k s)
    = if decide (commit_ts = 0 ∧ encode_data_key k s = encode_data_key k start_ts) then None
      else st_get st CfDefault (encode_data_key k s)).
Proof.
  intros Hl. unfold settle_key. rewrite Hl. unfold settle_spec. destruct (N.eqb_spec commit_ts 0) as [Hz|Hz].
  - pose proof (rollback_effect st k start_ts) as He. split_and!.
    + rewrite He, !st_get_set, decide_False, decide_True by naive_solver. done.
    + intros c. rewrite (He CfWrite), decide_False by naive_solver. by rewrite !st_set_ne by naive_solver.
    + intros s. rewrite He, !st_get_set. repeat case_decide; naive_solver.
  - pose proof (commit_effect st k start_ts commit_ts) as He. split_and!.
    + rewrite He, !st_get_set, decide_True by done. done.
    + intros c. rewrite (He CfWrite). rewrite st_set_ne by naive_solver. case_decide as Hd.
      * destruct Hd as [_ ->]. apply st_set_eq.
      * rewrite st_set_ne by naive_solver. done.
    + intros s. rewrite He, !st_get_set. repeat case_decide; naive_solver.
Qed.

Lemma locked_by_same st st' k : st_get st' CfLock k = st_get st CfLock k → locked_by st' k = locked_by st k.
Proof. intros He. unfold locked_by, lock_of. by rewrite He. Qed.

Lemma settle_unlocks st k : locked_by (settle_key st k) k = false.
Proof.
  destruct (locked_by st k) eqn:Hl; [|by unfold settle_key; rewrite Hl].
  apply settle_ours in Hl as [Hn _]. unfold locked_by, lock_of. by rewrite Hn.
Qed.

Lemma settle_same st st' k : key_same st st' k → key_same (settle_key st k) (settle_key st' k) k.
Proof.
  intros Hs. pose proof (locked_by_same _ _ _ (ks_lock _ _ _ Hs)) as He. destruct (locked_by st k) eqn:Hl.
  - destruct (settle_ours st k Hl) as (A & B & C), (settle_ours st' k He) as (A' & B' & C').
    constructor; [intros c; rewrite B, B', (ks_write _ _ _ Hs)|intros s; rewrite C, C', (ks_default _ _ _ Hs)|rewrite A, A']; done.
  - unfold settle_key. by rewrite Hl, He.
Qed.

Context (Hcommit : commit_ts = 0 ∨ start_ts < commit_ts ∧ is_u64 commit_ts).

Lemma settle_step st k : K k → locked_by st k = true → txn_step K st (OpResolve (settle_spec k)) (settle_key st k).
Proof.
  intros HKk Hl. unfold settle_key. rewrite Hl. apply locked_by_some in Hl as (b & l & Hb & Hd & Hs). split.
  - split; [done|]. cbn. destruct (N.eqb_spec commit_ts 0); [done|]. by destruct Hcommit.
  - exists (build_resolve_batch (settle_spec k)). split; [by eapply spec_resolve_ok|done].
Qed.

Lemma settle_inv st k : txn_inv K st → K k → txn_inv K (settle_key st k).
Proof.
  intros Hi HKk. destruct (locked_by st k) eqn:Hl; [|unfold settle_key; by rewrite Hl].
  eapply (txn_step_inv K HK); [done|by apply settle_step].
Qed.

Lemma settle_other st k k' : txn_inv K st → K k → k ≠ k' → key_same st (settle_key st k) k'.
Proof.
  intros Hi HKk Hne. destruct (locked_by st k) eqn:Hl; [|unfold settle_key; by rewrite Hl].
  eapply (txn_step_other K HK); [done|by apply settle_step|done].
Qed.

Lemma settled_key keys st k :
  txn_inv K st → Forall K keys →
  txn_inv K (settled keys st) ∧ key_same (if decide (k ∈ keys) then settle_key st k else st) (settled keys st) k.
Proof.
  intros Hi HKs. revert st Hi. induction HKs as [|a keys HKa HKs IH]; intros st Hi; [by rewrite decide_False by set_solver|].
  unfold settled. cbn [fold_left]. fold (settled keys (settle_key st a)). destruct (IH _ (settle_inv st a Hi HKa)) as [Hi' Hk].
  split; [done|]. destruct (decide (k = a)) as [->|Hne].
  - rewrite decide_True by set_solver. eapply key_same_trans; [|exact Hk]. case_decide; [|done].
    assert (settle_key (settle_key st a) a = settle_key st a) as ->; [|done]. unfold settle_key at 1. by rewrite settle_unlocks.
  - eapply key_same_trans; [|exact Hk]. pose proof (settle_other st a k Hi HKa ltac:(done)) as Ho.
    destruct (decide (k ∈ keys)); [rewrite decide_True by set_solver; by apply settle_same|]. by rewrite decide_False by set_solver.
Qed.

Lemma settled_again keys st : txn_inv K st → Forall K keys → settled keys (settled keys st) = settled keys st.
Proof.
  intros Hi HKs. assert (Hf : ∀ k, k ∈ keys → locked_by (settled keys st) k = false).
  { intros k Hk. destruct (settled_key keys st k Hi HKs) as [_ Hs]. rewrite decide_True in Hs by done.
    rewrite (locked_by_same _ _ _ (ks_lock _ _ _ Hs)). apply settle_unlocks. }
  unfold settled at 1. revert Hf. generalize (settled keys st) as st'. intros st'. clear. induction keys as [|k keys IH]; intros Hf; [done|].
  cbn. assert (settle_key st' k = st') as -> by (unfold settle_key; rewrite Hf; [done|by left]). apply IH. intros k' Hk'. apply Hf. by right.
Qed.

Lemma locked_by_spec st k : locked_by st k = true ↔ ∃ l, lock_of st k = Some l ∧ lock_start_ts l = start_ts.
Proof. unfold locked_by. destruct (lock_of st k) as [l|]; [rewrite N.eqb_eq|]; naive_solver. Qed.

(** The transaction's locks are gone, with the values of a rolled-back one; no other is. *)
Lemma settled_locks keys st k :
  txn_inv K st → Forall K keys →
  (k ∈ keys ∧ locked_by st k = true → st_get (settled keys st) CfLock k = None ∧
    (commit_ts = 0 → st_get (settled keys st) CfDefault (encode_data_key k start_ts) = None)) ∧
  (¬ (k ∈ keys ∧ locked_by st k = true) → st_get (settled keys st) CfLock k = st_get st CfLock k).
Proof.
  intros Hi HKs. pose proof (proj2 (settled_key keys st k Hi HKs)) as Hkey. split.
  - intros [Hin Hl]. rewrite decide_True in Hkey by done. destruct (settle_ours st k Hl) as (Hn & _ & Hd).
    rewrite (ks_lock _ _ _ Hkey), (ks_default _ _ _ Hkey), Hd. split; [done|]. intros Hz. by rewrite decide_True.
  - intros Hno. rewrite (ks_lock _ _ _ Hkey). case_decide; [|done]. unfold settle_key.
    destruct (locked_by st k) eqn:Hl; [by destruct Hno|done].
Qed.

Lemma settled_readable keys st :
  txn_inv K st → Forall K keys → Forall (readable_lock st) keys → Forall (readable_lock (settled keys st)) keys.
Proof.
  intros Hi HKs Hrl. rewrite Forall_forall in Hrl |- *. intros k Hin b. destruct (settled_locks keys st k Hi HKs) as [H1 H2].
  destruct (decide (locked_by st k = true)) as [Hl|Hl]; [by destruct H1 as [-> _]|].
  rewrite H2; [by apply Hrl|]. by intros [_ ?].
Qed.

(** Reads of a key a settled transaction had locked, and of one it had not. *)
Lemma settled_read keys st k ts r :
  txn_inv K st → Forall K keys → K k → is_u64 ts →
  (k ∈ keys → locked_by st k = true → commit_ts = 0 ∨ ts < commit_ts) →
  snapshot_read st k ts r → snapshot_read (settled keys st) k ts r.
Proof.
  intros Hi HKs HKk Hts Hor Hr. destruct (settled_key keys st k Hi HKs) as [_ Hs]. eapply key_same_snapshot; [done|exact Hs|].
  case_decide as Hin; [|done]. destruct (locked_by st k) eqn:Hl; [|unfold settle_key; by rewrite Hl].
  eapply (txn_step_snapshot K HK); [done|done|done|by apply settle_step| |done].
  cbn. destruct (N.eqb_spec commit_ts 0); [done|]. intros _. by destruct (Hor Hin eq_refl).
Qed.

Context (Hstart : is_u64 start_ts).

Lemma settled_read_new keys st k ts v :
  txn_inv K st → Forall K keys → k ∈ keys → locked_by st k = true → commit_ts ≠ 0 → is_u64 ts → commit_ts ≤ ts →
  (∀ c, commit_ts < c ≤ ts → commit_at st k c = None) →
  st_get st CfDefault (encode_data_key k start_ts) = Some (Value_encode v) →
  snapshot_read (settled keys st) k ts (Ok (Value_into_option v)).
Proof.
  intros Hi HKs Hin Hl Hz Hts Hle Hno Hv. destruct (settled_key keys st k Hi HKs) as [_ Hs]. rewrite decide_True in Hs by done.
  eapply key_same_snapshot; [done|exact Hs|]. destruct (settle_ours st k Hl) as (_ & Hw & Hd).
  assert (value_at (settle_key st k) k (MPut (encode_write_value start_ts)) = Ok (Value_into_option v)) as <-.
  { unfold value_at. rewrite decode_encode_write_value by done. cbn. rewrite Hd, decide_False by naive_solver.
    by rewrite Hv, Value_decode_encode. }
  apply (snap_some _ _ _ commit_ts); [done|by rewrite Hw, decide_True|]. intros c Hc.
  rewrite Hw, decide_False; [by apply Hno|]. intros [_ [_ E]%encode_data_key_inj]; lia.
Qed.

Context {E : Type} `{EngineLaws E}.

Lemma resolve_one (e : E) st k :
  holds e st → readable_lock st k → small_op (rollback_op start_ts k) → small_op (commit_op start_ts commit_ts k) →
  ∃ e', (if commit_ts =? 0 then resolve_rollback k start_ts else resolve_commit k start_ts commit_ts) e = (e', Ok tt) ∧
    holds e' (settle_key st k).
Proof.
  intros Hh Hrl Hs1 Hs2.
  assert (Hs : small_op (OpResolve (settle_spec k))) by (unfold settle_spec; by destruct (commit_ts =? 0)).
  assert (Hsub : ∃ e' n, submit e (OpResolve (settle_spec k)) = (e', Ok n) ∧ holds e' (settle_key st k)).
  { unfold settle_key. destruct (locked_by st k) eqn:Hl.
    - apply locked_by_some in Hl as (b & l & Hb & Hd & Hst). apply holds_write; [done|done|]. by eapply spec_resolve_ok.
    - destruct (holds_answer e st (OpResolve (settle_spec k)) (Ok 0) Hh Hs) as (e' & He & Hh'); [|by exists e', 0].
      unfold locked_by, lock_of in Hl. destruct (st_get st CfLock k) as [b|] eqn:Hb; [|by apply spec_resolve_none].
      destruct (Hrl b Hb) as [l Hd]. eapply spec_resolve_other; [done|done|]. cbn in *. rewrite Hd in Hl. by apply N.eqb_neq. }
  destruct Hsub as (e' & n & He & Hh'). exists e'. split; [|done]. unfold settle_spec in He.
  destruct (commit_ts =? 0); em_simpl; by rewrite He.
Qed.

Lemma resolve_keys_settle keys (e : E) st :
  holds e st → txn_inv K st → Forall K keys → Forall (readable_lock st) keys →
  Forall (λ k, small_op (rollback_op start_ts k) ∧ small_op (commit_op start_ts commit_ts k)) keys →
  ∃ e', resolve_keys keys start_ts commit_ts e = (e', Ok tt) ∧ holds e' (settled keys st).
Proof.
  intros Hh Hi HKs. revert e st Hh Hi. induction HKs as [|k keys HKk HKs IH]; intros e st Hh Hi Hrl Hsm; [by exists e|].
  apply Forall_cons in Hrl as [Hrk Hrl], Hsm as [[Hs1 Hs2] Hsm].
  destruct (resolve_one e st k Hh Hrk Hs1 Hs2) as (e1 & He1 & Hh1).
  destruct (IH e1 _ Hh1 (settle_inv st k Hi HKk)) as (e2 & He2 & Hh2); [|done|].
  { eapply list.Forall_impl; [exact Hrl|]. intros k' Hk' b Hb. destruct (decide (k = k')) as [<-|Hne].
    - destruct (locked_by st k) eqn:Hl; [|unfold settle_key in Hb; rewrite Hl in Hb; by apply Hk'].
      apply settle_ours in Hl as [Hn _]. congruence.
    - apply Hk'. by rewrite <- (ks_lock _ _ _ (settle_other st k k' Hi HKk Hne)). }
  exists e2. split; [|done]. cbn [resolve_keys]. unfold mbind at 1, em_bind at 1. by rewrite He1.
Qed.

(** The same through the log. *)
Lemma apply_resolve keys (e : E) :
  command_ok (Resolve keys start_ts commit_ts) →
  make_apply (Command_encode (Resolve keys start_ts commit_ts)) e = resolve_keys keys start_ts commit_ts e.
Proof.
  intros Hok. pose proof (command_roundtrip _ [] Hok) as Hd. rewrite app_nil_r in Hd. unfold make_apply. rewrite Hd.
  by destruct (Command_encode _).
Qed.
End resolving.

(** * The replicated transaction is the local one *)

Section transaction.
Context {E : Type} `{EngineOps E}.

Lemma prewrite_rest_region tx ttl ms acq (e : E) :
  prewrite_rest tx ttl ms acq e = prewrite_region_loop ms (tx_primary tx) (tx_start_ts tx) ttl acq e.
Proof.
  revert acq e. induction ms as [|m ms IH]; intros acq e; [done|]. cbn [prewrite_rest prewrite_region_loop].
  destruct (prewrite_one _ _ _ _ _ e) as [e' [s|err]]; [apply IH|done].
Qed.

Lemma prewrite_command start_ts ms tx ttl (e : E) :
  Transaction_new start_ts ms = Ok tx →
  apply_command (Prewrite ms (tx_primary tx) start_ts ttl) e = prewrite tx ttl e.
Proof.
  destruct ms as [|m ms]; [done|]. intros [= <-]. cbn [apply_command tx_primary].
  unfold prewrite_region, prewrite. cbn [tx_mutations tx_primary tx_start_ts prewrite_region_loop app].
  destruct (prewrite_one _ _ _ _ _ e) as [e' [s|err]]; [|done].
  by rewrite (prewrite_rest_region (mkTransaction start_ts (mu_key m) (m :: ms))).
Qed.

Lemma finalize_keys tx commit_ts ms ms' (e : E) :
  List.filter (λ k, negb (bool_decide (k = tx_primary tx))) (mu_key <$> ms) =
  List.filter (λ k, negb (bool_decide (k = tx_primary tx))) (mu_key <$> ms') →
  finalize_loop tx commit_ts ms e = finalize_loop tx commit_ts ms' e.
Proof.
  assert (Hloop : ∀ ms e, finalize_loop tx commit_ts ms e = finalize_loop tx commit_ts
    (Mutation_delete <$> List.filter (λ k, negb (bool_decide (k = tx_primary tx))) (mu_key <$> ms)) e).
  { clear. induction ms as [|m ms IH]; intros e; [done|]. cbn. case_decide as Hd.
    - rewrite bool_decide_eq_true_2 by done. apply IH.
    - rewrite bool_decide_eq_false_2 by done. cbn. rewrite decide_False by done.
      unfold mbind, em_bind. destruct (resolve_commit _ _ _ e) as [e' [u|err]]; [apply IH|done]. }
  intros Hf. by rewrite Hloop, Hf, <- Hloop.
Qed.

Lemma finalize_same_txn tx tx' commit_ts ms (e : E) :
  tx_primary tx = tx_primary tx' → tx_start_ts tx = tx_start_ts tx' →
  finalize_loop tx commit_ts ms e = finalize_loop tx' commit_ts ms e.
Proof.
  intros Hp Hs. revert e. induction ms as [|m ms IH]; intros e; [done|]. cbn [finalize_loop]. rewrite Hp, Hs.
  case_decide; [apply IH|]. unfold mbind, em_bind. destruct (resolve_commit _ _ _ e) as [e' [u|err]]; [apply IH|done].
Qed.

Lemma commit_command start_ts ms tx commit_ts (e : E) :
  Transaction_new start_ts ms = Ok tx →
  apply_command (Commit (tx_primary tx) (mu_key <$> ms) start_ts commit_ts) e = commit tx commit_ts e.
Proof.
  destruct ms as [|m ms]; [done|]. intros [= <-]. set (tx := mkTransaction start_ts (mu_key m) (m :: ms)).
  set (tx' := mkTransaction start_ts (mu_key m) (commit_mutations (mu_key m) (mu_key <$> m :: ms))).
  change (commit tx' commit_ts e = commit tx commit_ts e). unfold commit, mbind, em_bind.
  change (commit_primary tx' commit_ts e) with (commit_primary tx commit_ts e).
  destruct (commit_primary tx commit_ts e) as [e' [u|err]]; [|done].
  unfold finalize_secondaries. rewrite (finalize_same_txn tx' tx) by done. apply finalize_keys. cbn. rewrite bool_decide_eq_true_2 by done. cbn.
  induction ms as [|m' ms IH]; [done|]. cbn. destruct (bool_decide (mu_key m' = mu_key m)) eqn:Hb; cbn; [done|].
  rewrite Hb. cbn. by f_equal.
Qed.
End transaction.

(** * Snapshots *)

(** The store after the pairs of a snapshot are written at the lowest timestamp. *)
Definition restored (st : Store) (pairs : list (bytes * bytes)) : Store :=
  fold_left (λ st p, apply_batch st (committed_batch p.1 (VPut p.2) 1 1)) pairs st.

Lemma restored_lock pairs st k : restored st pairs CfLock k = st CfLock k.
Proof.
  unfold restored. revert st. induction pairs as [|p pairs IH]; intros st; [done|]. cbn [fold_left].
  by rewrite IH, committed_get.
Qed.

(** Only the lowest version of the pairs' keys is written. *)
Lemma restored_other pairs st cf k c :
  is_u64 c → cf ≠ CfLock → (c = 1 → k ∉ pairs.*1) →
  restored st pairs cf (encode_data_key k c) = st cf (encode_data_key k c).
Proof.
  intros Hc Hcf. unfold restored. revert st. induction pairs as [|p pairs IH]; intros st Hk; [done|]. cbn [fold_left].
  rewrite IH by (intros ->; specialize (Hk eq_refl); cbn in Hk; set_solver). rewrite committed_get.
  destruct cf; [| |done]; (rewrite decide_False; [done|]; intros [-> ->]%encode_data_key_inj; [|done..];
    apply Hk; [done|left]).
Qed.

Lemma restored_pair pairs st k v :
  NoDup pairs.*1 → (k, v) ∈ pairs →
  restored st pairs CfWrite (encode_data_key k 1) = Some (MPut (encode_write_value 1)) ∧
  restored st pairs CfDefault (encode_data_key k 1) = Some (MPut (Value_encode (VPut v))).
Proof.
  revert st. induction pairs as [|[k' v'] pairs IH]; intros st Hd Hin; [by apply elem_of_nil in Hin|].
  cbn in Hd. apply NoDup_cons in Hd as [Hn Hd]. change (restored st ((k', v') :: pairs)) with
    (restored (apply_batch st (committed_batch k' (VPut v') 1 1)) pairs).
  apply elem_of_cons in Hin as [[= <- <-]|Hin]; [|by apply IH].
  rewrite !restored_other by done. rewrite !committed_get, !decide_True by done. done.
Qed.

Lemma ksorted_keys_NoDup {V} (l : list (bytes * V)) : ksorted l → NoDup l.*1.
Proof.
  induction l as [|[k v] l IH]; [constructor|]. intros [Hs Hlt]%ksorted_cons. cbn. apply NoDup_cons. split; [|by apply IH].
  intros ([k' v'] & -> & Hin)%list_elem_of_fmap. by apply Hlt, bytes_lt_irrefl in Hin.
Qed.

Lemma versions_separated (K : bytes → Prop) (HK : ∀ a b, K a → K b → a = b ∨ apart a b) st uk :
  versions_only K st → K uk → separated st uk.
Proof.
  intros Hv HKu k Hs. destruct (Hv k Hs) as (uk' & c & -> & Hc & HK'). exists uk', c.
  split_and!; [done|done|]. by apply HK.
Qed.

Section snapshot.
Context {E : Type} `{EngineLaws E}.
Context (K : bytes → Prop) (HK : ∀ a b, K a → K b → a = b ∨ apart a b).
Context (start end_ : bytes).

(** A replica that holds nothing of the range. *)
Record blank (st : Store) : Prop := mkBlank {
  bl_keys : versions_only K st;
  bl_versions : ∀ uk c, K uk → in_range start end_ uk → is_u64 c → commit_at st uk c = None;
  bl_locks : ∀ uk, K uk → in_range start end_ uk → st_get st CfLock uk = None;
}.

Definition small_pair (p : bytes * bytes) : Prop :=
  pair_fits p ∧ small_op (OpWrite (committed_batch p.1 (VPut p.2) 1 1)).

Lemma restore_holds pairs (e : E) st :
  Forall small_pair pairs → holds e st →
  holds (fold_left (λ e p, fst (engine_write (committed_batch p.1 (VPut p.2) 1 1) e)) pairs e) (restored st pairs).
Proof.
  intros Hs. revert e st. induction Hs as [|p pairs [_ Hp] _ IH]; intros e st Hh; [done|]. cbn [fold_left].
  apply IH. destruct (committed_write (mkApNode e 0) st p.1 (VPut p.2) 1 Hh Hp) as (n' & seq & Hw & _ & Hh').
  unfold node_write in Hw. cbn [an_engine] in Hw. destruct (engine_write _ e) as [e' r]. injection Hw as <- _. exact Hh'.
Qed.

Lemma restored_versions pairs st :
  versions_only K st → Forall (λ p, K p.1) pairs → versions_only K (restored st pairs).
Proof.
  intros Hv Hp. unfold restored. revert st Hv. induction Hp as [|p pairs HKp _ IH]; intros st Hv; [done|].
  cbn [fold_left]. apply IH. intros k Hs. rewrite committed_get in Hs. case_decide as Hd; [|by apply Hv].
  subst. exists p.1, 1. split_and!; [done|by vm_compute|done].
Qed.

Lemma restored_snapshot pairs st uk ts v :
  blank st → K uk → in_range start end_ uk → 1 ≤ ts → is_u64 ts → NoDup pairs.*1 →
  v = snd <$> List.find (λ p, bool_decide (p.1 = uk)) pairs →
  snapshot_read (restored st pairs) uk ts (Ok v).
Proof.
  intros [_ Hb _] HKu Hr Hts Hu Hd ->.
  destruct (List.find (λ p, bool_decide (p.1 = uk)) pairs) as [[k v]|] eqn:Hf; cbn [fmap option_fmap option_map snd].
  - apply find_some in Hf as [Hin%list_elem_of_In Heq%bool_decide_eq_true]. cbn in Heq. subst k.
    destruct (restored_pair pairs st uk v Hd Hin) as [Hw Hv].
    replace (Ok (Some v)) with (value_at (restored st pairs) uk (MPut (encode_write_value 1))).
    + apply (snap_some _ _ _ 1); [done|done|]. intros c' Hc'. rewrite restored_other by (done || lia).
      apply Hb; [done|done|lia].
    + unfold value_at. rewrite decode_encode_write_value by done. cbn. unfold st_get. rewrite Hv. cbn.
      by rewrite Value_decode_encode.
  - apply snap_none. intros c Hc. rewrite restored_other; [apply Hb; [done|done|lia]|lia|done|].
    intros -> ([k v] & -> & Hin)%list_elem_of_fmap. apply list_elem_of_In in Hin.
    pose proof (find_none _ _ Hf _ Hin) as Hn. cbn in Hn. by apply bool_decide_eq_false in Hn.
Qed.
End snapshot.
