(* ===== verification/MemLock.v ===== *)
(** In-flight fast-path writes of a region leader ([server/src/memlock.rs]): the record
    a [put] keeps from before it is proposed until it is resolved, and the test a read
    waits on. *)

From stdpp Require Import base list numbers gmap sorting.
From Stdlib Require Import Strings.Byte.
From S2P Require Import Prelude OrdMap Memtable.

(** [BTreeMap<Vec<u8>, Vec<u64>>]; its ordered iteration is [gmap_iter]. *)
Abbreviation InFlight := (gmap bytes (list N)).

Record InFlightGuard := mkGuard {
  g_key : bytes;
  g_commit_ts : N;
}.

#[export] Instance guard_eq_dec : EqDecision InFlightGuard.
Proof. solve_decision. Defined.

Definition InFlight_new : InFlight := ∅.

Definition register (key : bytes) (commit_ts : N) (keys : InFlight) : InFlight * InFlightGuard :=
  (<[key := default [] (keys !! key) ++ [commit_ts]]> keys, mkGuard key commit_ts).

(** [iter().take_while(p)]. *)
Fixpoint take_while {A} (p : A → bool) (l : list A) : list A :=
  match l with [] => [] | x :: l => if p x then x :: take_while p l else [] end.

Definition blocks_read (start end_ : bytes) (read_ts : N) (keys : InFlight) : bool :=
  existsb (λ p, existsb (λ ts, ts <=? read_ts) p.2)
    (take_while (λ p, match end_ with [] => true | _ => negb (bytes_leb end_ p.1) end)
      (List.filter (λ p, bytes_leb start p.1) (gmap_iter keys))).

(** [tss.remove(tss.position(ts)?)]. *)
Fixpoint remove_first (ts : N) (tss : list N) : list N :=
  match tss with
  | [] => []
  | x :: tss => if x =? ts then tss else x :: remove_first ts tss
  end.

(** [InFlightGuard::drop]. *)
Definition guard_drop (g : InFlightGuard) (keys : InFlight) : InFlight :=
  match keys !! g_key g with
  | None => keys
  | Some tss =>
    match remove_first (g_commit_ts g) tss with
    | [] => delete (g_key g) keys
    | tss => <[g_key g := tss]> keys
    end
  end.

(** * Correctness *)

(** The timestamps of the live guards of a key. *)
Definition of_key (k : bytes) (live : list InFlightGuard) : list N :=
  g_commit_ts <$> filter (λ g, g_key g = k) live.

(** The record is the live guards, key by key. *)
Definition tracks (keys : InFlight) (live : list InFlightGuard) : Prop :=
  ∀ k, match keys !! k with
       | Some tss => tss ≠ [] ∧ tss ≡ₚ of_key k live
       | None => of_key k live = []
       end.

(** Writes come and go: any live guard may be dropped, however its write ended. *)
Inductive inflight_steps : InFlight → list InFlightGuard → Prop :=
  | inflight_new : inflight_steps InFlight_new []
  | inflight_register keys live key ts :
      inflight_steps keys live →
      inflight_steps (fst (register key ts keys)) (snd (register key ts keys) :: live)
  | inflight_drop keys live1 g live2 :
      inflight_steps keys (live1 ++ g :: live2) → inflight_steps (guard_drop g keys) (live1 ++ live2).

Lemma of_key_cons k g live :
  of_key k (g :: live) = if decide (g_key g = k) then g_commit_ts g :: of_key k live else of_key k live.
Proof. unfold of_key. rewrite filter_cons. by case_decide. Qed.

Lemma of_key_perm k live live' : live ≡ₚ live' → of_key k live ≡ₚ of_key k live'.
Proof. intros Hp. unfold of_key. by rewrite Hp. Qed.

Lemma remove_first_perm ts tss : ts ∈ tss → tss ≡ₚ ts :: remove_first ts tss.
Proof.
  induction tss as [|x tss IH]; [by intros ?%elem_of_nil|]. cbn. destruct (N.eqb_spec x ts) as [->|Hne]; [done|].
  intros [->|Hin]%elem_of_cons; [done|]. rewrite (IH Hin) at 1. apply Permutation_swap.
Qed.

Lemma tracks_register keys live key ts :
  tracks keys live → tracks (fst (register key ts keys)) (mkGuard key ts :: live).
Proof.
  intros Ht k. specialize (Ht k). unfold register. cbn [fst]. rewrite of_key_cons. cbn [g_key g_commit_ts].
  case_decide as Hk; [subst k|by rewrite lookup_insert_ne].
  rewrite lookup_insert_eq. split; [by destruct (default [] (keys !! key))|].
  destruct (keys !! key) as [tss|]; cbn; [destruct Ht as [_ ->]|rewrite Ht; done]. by rewrite Permutation_app_comm.
Qed.

Lemma tracks_drop keys g live : tracks keys (g :: live) → tracks (guard_drop g keys) live.
Proof.
  intros Ht k. pose proof (Ht (g_key g)) as Hg. specialize (Ht k). unfold guard_drop.
  rewrite of_key_cons, decide_True in Hg by done.
  destruct (keys !! g_key g) as [tss|] eqn:Eg; [|done]. destruct Hg as [_ Hp].
  assert (Hrem : remove_first (g_commit_ts g) tss ≡ₚ of_key (g_key g) live).
  { apply (Permutation_cons_inv (a := g_commit_ts g)). rewrite <- Hp. symmetry. apply remove_first_perm.
    rewrite Hp. left. }
  rewrite of_key_cons in Ht. case_decide as Hk; [subst k|].
  - destruct (remove_first (g_commit_ts g) tss) as [|x l].
    + rewrite lookup_delete_eq. by apply Permutation_nil_l in Hrem.
    + by rewrite lookup_insert_eq.
  - destruct (remove_first (g_commit_ts g) tss) as [|x l];
      [by rewrite lookup_delete_ne|by rewrite lookup_insert_ne].
Qed.

Lemma inflight_tracks keys live : inflight_steps keys live → tracks keys live.
Proof.
  induction 1 as [|keys live key ts _ IH|keys live1 g live2 _ IH].
  - intros k. unfold InFlight_new. by rewrite (lookup_empty (M := gmap bytes)).
  - by apply tracks_register.
  - apply tracks_drop. intros k. specialize (IH k).
    assert (Hp : of_key k (live1 ++ g :: live2) ≡ₚ of_key k (g :: live1 ++ live2)).
    { apply of_key_perm. symmetry. apply Permutation_middle. }
    destruct (keys !! k) as [tss|]; [by rewrite Hp in IH|]. rewrite IH in Hp. by apply Permutation_nil_l in Hp.
Qed.

(** Over keys in order, stopping at the end of the range loses nothing. *)
Lemma take_while_sorted {V} (end_ : bytes) (l : list (bytes * V)) x :
  ksorted l →
  x ∈ take_while (λ p, match end_ with [] => true | _ => negb (bytes_leb end_ p.1) end) l ↔
  x ∈ l ∧ (end_ = [] ∨ bytes_lt x.1 end_).
Proof.
  assert (Hend : ∀ k, (match end_ with [] => true | _ => negb (bytes_leb end_ k) end) = true ↔ (end_ = [] ∨ bytes_lt k end_)).
  { intros k. destruct end_ as [|b t]; [split; [by left|done]|]. rewrite negb_true_iff, <- not_true_iff_false, bytes_leb_le.
    rewrite bytes_nle_lt. split; [by right|]. by intros [?|?]. }
  induction l as [|[k v] l IH]; intros Hs; cbn [take_while fst]; [rewrite elem_of_nil; tauto|].
  apply ksorted_cons in Hs as [Hs Hlt]. specialize (IH Hs). specialize (Hend k).
  destruct (match end_ with [] => true | _ => negb (bytes_leb end_ k) end) eqn:Hk.
  - rewrite !elem_of_cons, IH. split; [intros [->|[? ?]]; [split; [by left|by apply Hend]|split; [by right|done]]|].
    intros [[->|?] ?]; [by left|by right].
  - rewrite elem_of_nil. split; [done|]. intros [Hin Hr]. exfalso.
    assert (end_ = [] ∨ bytes_lt k end_) as Hc%Hend; [|done].
    destruct Hr as [?|Hr]; [by left|]. right. apply elem_of_cons in Hin as [->|Hin]; [done|]. destruct x as [k' v'].
    eapply bytes_lt_trans; [by eapply Hlt|done].
Qed.

Lemma ksorted_filter {V} (f : bytes * V → bool) l : ksorted l → ksorted (List.filter f l).
Proof.
  induction l as [|[k v] l IH]; [done|]. intros [Hs Hlt]%ksorted_cons. cbn. destruct (f (k, v)); [|by apply IH].
  apply ksorted_cons. split; [by apply IH|]. intros k' v' Hin.
  apply list_elem_of_In, List.filter_In in Hin as [Hin%list_elem_of_In _]. by eapply Hlt.
Qed.

Lemma blocks_read_live start end_ read_ts keys live :
  tracks keys live →
  blocks_read start end_ read_ts keys = true ↔
  ∃ g, g ∈ live ∧ bytes_le start (g_key g) ∧ (end_ = [] ∨ bytes_lt (g_key g) end_) ∧ g_commit_ts g ≤ read_ts.
Proof.
  intros Ht. unfold blocks_read. rewrite existsb_exists.
  setoid_rewrite <- list_elem_of_In. setoid_rewrite take_while_sorted; [|apply ksorted_filter, gmap_iter_sorted].
  setoid_rewrite list_elem_of_In. setoid_rewrite List.filter_In. setoid_rewrite <- list_elem_of_In.
  assert (Hof : ∀ k ts, ts ∈ of_key k live ↔ ∃ g, g ∈ live ∧ g_key g = k ∧ g_commit_ts g = ts).
  { intros k ts. unfold of_key. rewrite list_elem_of_fmap. setoid_rewrite list_elem_of_filter. naive_solver. }
  split.
  - intros ([k tss] & [[Hin Hle%bytes_leb_le] Hend] & Hex). cbn in *. apply elem_of_gmap_iter in Hin.
    specialize (Ht k). rewrite Hin in Ht. destruct Ht as [_ Hp].
    apply existsb_exists in Hex as (ts & Hts%list_elem_of_In & Hr%N.leb_le). rewrite Hp in Hts.
    apply Hof in Hts as (g & Hg & <- & <-). by exists g.
  - intros (g & Hg & Hle & Hend & Hr). specialize (Ht (g_key g)).
    assert (Hts : g_commit_ts g ∈ of_key (g_key g) live) by (apply Hof; by exists g).
    destruct (keys !! g_key g) as [tss|] eqn:Ek; [|rewrite Ht in Hts; by apply elem_of_nil in Hts].
    destruct Ht as [_ Hp]. exists (g_key g, tss). cbn. split_and!; [by apply elem_of_gmap_iter|by apply bytes_leb_le|done|].
    apply existsb_exists. exists (g_commit_ts g). rewrite <- list_elem_of_In, Hp. split; [done|by apply N.leb_le].
Qed.
