(* ===== verification/ServerTheorems.v ===== *)
(** The CP path of a data node: correctness statements and concrete runs at which they
    apply. *)

From stdpp Require Import base list numbers strings gmap.
From Stdlib Require Import Strings.Byte.
From S2P Require Import Prelude Crc Encoding Keys Batch OrdMap Memtable SstableCorrect Db DbCorrect Engine.
From S2P Require Import EngineApi Mvcc MvccCorrect Percolator TxnCorrect Scan ScanCorrect.
From S2P Require Import EngineTheorems Cursor PdRegion Ap ApCorrect RaftCmd RaftCmdCorrect MemLock.

#[local] Arguments encode_data_key : simpl never.
#[local] Arguments encode_write_value : simpl never.
#[local] Arguments Value_encode : simpl never.

(** C38. A resolve entry of the log settles a transaction's locks: applied by any replica, it
    takes away the transaction's locks on the keys it names and no other.  With a commit
    timestamp each such key reads as the value the transaction prewrote from that timestamp on,
    up to the key's next commit, and as before below it; with 0 the prewritten value is gone and
    every read answers as before.  Keys that the transaction had not locked are left alone,
    applying the entry again changes nothing, and all replicas that held one store still do. *)
Theorem resolve_entry_settles {E : Type} `{EngineLaws E} (K : bytes → Prop) st keys start_ts commit_ts :
  (∀ a b, K a → K b → a = b ∨ apart a b) → txn_inv K st → Forall K keys → Forall (readable_lock st) keys →
  command_ok (Resolve keys start_ts commit_ts) → commit_ts = 0 ∨ start_ts < commit_ts →
  Forall small_op (command_ops (Resolve keys start_ts commit_ts)) →
  let entry := Command_encode (Resolve keys start_ts commit_ts) in
  let ours k := k ∈ keys ∧ ∃ l, lock_of st k = Some l ∧ lock_start_ts l = start_ts in
  ∃ st', txn_inv K st' ∧
    (∀ k, (ours k → st_get st' CfLock k = None ∧
            (commit_ts = 0 → st_get st' CfDefault (encode_data_key k start_ts) = None)) ∧
          (¬ ours k → st_get st' CfLock k = st_get st CfLock k)) ∧
    ∀ e : E, holds e st →
      ∃ e' e'', make_apply entry e = (e', Ok tt) ∧ holds e' st' ∧ make_apply entry e' = (e'', Ok tt) ∧ holds e'' st' ∧
      ∀ k ts, K k → is_u64 ts →
        ((ours k → commit_ts = 0 ∨ ts < commit_ts) → read_committed k ts e' = read_committed k ts e) ∧
        (∀ v, ours k → commit_ts ≠ 0 → commit_ts ≤ ts → (∀ c, commit_ts < c ≤ ts → commit_at st k c = None) →
          st_get st CfDefault (encode_data_key k start_ts) = Some (Value_encode v) →
          read_committed k ts e' = Ok (Value_into_option v)).
Proof.
  intros HK Hi HKs Hrl Hok Hcts Hsm entry ours. pose proof Hok as (Hst & Hct & _).
  assert (Hc : commit_ts = 0 ∨ start_ts < commit_ts ∧ is_u64 commit_ts) by tauto.
  assert (Hsm' : Forall (λ k, small_op (rollback_op start_ts k) ∧ small_op (commit_op start_ts commit_ts k)) keys).
  { apply Forall_app in Hsm as [Hr Hcm]. rewrite Forall_fmap in Hr, Hcm. by apply Forall_and. }
  assert (Hours : ∀ k, ours k ↔ k ∈ keys ∧ locked_by start_ts st k = true) by (intros k; by rewrite locked_by_spec).
  set (st' := settled start_ts commit_ts keys st).
  assert (Hi' : txn_inv K st') by by apply (settled_key K HK start_ts commit_ts Hc keys st []).
  exists st'. split; [done|]. split.
  { intros k. rewrite Hours. by apply (settled_locks K HK start_ts commit_ts Hc). }
  intros e Hh.
  destruct (resolve_keys_settle K HK start_ts commit_ts Hc keys e st Hh Hi HKs Hrl Hsm') as (e' & He' & Hh').
  destruct (resolve_keys_settle K HK start_ts commit_ts Hc keys e' st' Hh' Hi' HKs) as (e'' & He'' & Hh'');
    [by apply (settled_readable K HK start_ts commit_ts Hc)|done|].
  unfold st' in Hh''. rewrite (settled_again K HK start_ts commit_ts Hc) in Hh'' by done. fold st' in Hh''.
  exists e', e''. unfold entry. rewrite !apply_resolve by done. split_and!; [done|done|done|done|].
  intros k ts HKk Hts. split.
  - intros Hor. apply (read_same e e' st st'); [done|done|by apply (txn_inv_separated K HK)..|done|].
    intros r. apply (settled_read K HK start_ts commit_ts Hc keys st k ts r); [done..|]. intros Hin Hl. by apply Hor, Hours.
  - intros v [Hin Hl]%Hours Hz Hle Hno Hv. eapply snapshot_read_det;
      [apply read_committed_snapshot; [exact Hh'|by apply (txn_inv_separated K HK)|done]|].
    by apply (settled_read_new K HK start_ts commit_ts Hc Hst).
Qed.

(** C39. A transaction replicated step by step is the single-node transaction: applying
    its encoded prewrite and commit entries runs [Transaction::prewrite] and
    [Transaction::commit], with the same answers, and the election no-op changes
    nothing. *)
Theorem replicated_transaction {E : Type} `{EngineOps E} start_ts ms tx ttl commit_ts (e : E) :
  Transaction_new start_ts ms = Ok tx →
  command_ok (Prewrite ms (tx_primary tx) start_ts ttl) →
  command_ok (Commit (tx_primary tx) (mu_key <$> ms) start_ts commit_ts) →
  apply_log [[]; Command_encode (Prewrite ms (tx_primary tx) start_ts ttl);
             Command_encode (Commit (tx_primary tx) (mu_key <$> ms) start_ts commit_ts)] e
  = let '(e1, r1) := prewrite tx ttl e in
    let '(e2, r2) := commit tx commit_ts e1 in
    (e2, [Ok tt; r1; r2]).
Proof.
  intros Htx Hp Hc. pose proof (command_roundtrip _ [] Hp) as Dp. pose proof (command_roundtrip _ [] Hc) as Dc.
  rewrite app_nil_r in Dp, Dc.
  assert (Hm : ∀ c (e : E), Command_decode (Command_encode c) = Some c →
    make_apply (Command_encode c) e = apply_command c e).
  { intros c e' Hd. unfold make_apply. rewrite Hd. by destruct (Command_encode c). }
  cbn [apply_log]. change (make_apply [] e) with (e, Ok tt : Result unit). cbv beta iota.
  rewrite Hm by done. rewrite (prewrite_command start_ts ms tx ttl e Htx). destruct (prewrite tx ttl e) as [e1 r1].
  rewrite Hm by done. rewrite (commit_command start_ts ms tx commit_ts e1 Htx).
  by destruct (commit tx commit_ts e1) as [e2 r2].
Qed.

(** The range a snapshot covers. *)
Definition snapshot_range (regions : RegionRegistry) (region_id : N) (start end_ : bytes) : bytes * bytes :=
  match List.find (λ r, r_id r =? region_id) (list_regions regions) with
  | Some r => (r_start r, r_end r)
  | None => (start, end_)
  end.

(** A committed value is stored. *)
Lemma visible_stored {E : Type} `{EngineLaws E} (K : bytes → Prop) (e : E) st uk v :
  (∀ a b, K a → K b → a = b ∨ apart a b) → holds e st → versions_only K st → K uk →
  mvcc_get_unresolved uk u64_max e = Ok (Some v) → stored st uk.
Proof.
  intros HK Hh Hv HKu Hr.
  assert (Hrc : read_committed uk u64_max e = Ok (Some v)).
  { revert Hr. unfold mvcc_get_unresolved. rewrite (holds_get e st) by done. cbn.
    destruct (st_get st CfLock uk) as [lb|]; [|done]. destruct (Lock_decode lb) as [l|]; [|done]. cbn.
    by destruct (lock_start_ts l <=? u64_max). }
  pose proof (read_committed_snapshot e st uk u64_max Hh) as Hs. rewrite Hrc in Hs.
  specialize (Hs (versions_separated K HK st uk Hv HKu) ltac:(done)).
  inversion Hs as [|c w Hc Hw Hn Heq]. exists c. split; [done|]. by rewrite Hw.
Qed.

Lemma snapshot_sizes {E : Type} `{EngineLaws E} (K : bytes → Prop) st start end_ (e : E) out (keys : list bytes) :
  NoDup out.*1 →
  (∀ uk v, (uk, v) ∈ out ↔ K uk ∧ in_range start end_ uk ∧ stored st uk ∧ visible e u64_max uk v) →
  (∀ uk c, is_u64 c → is_Some (commit_at st uk c) → uk ∈ keys) → is_u64 (N.of_nat (length keys)) →
  (∀ uk v, K uk → mvcc_get_unresolved uk u64_max e = Ok (Some v) → small_pair (uk, v)) →
  is_u64 (N.of_nat (length out)) ∧ Forall small_pair out.
Proof.
  intros Hnd Hd Hkeys Hlen Hfit. split.
  - assert (Hle : (length out.*1 ≤ length keys)%nat).
    { apply submseteq_length, NoDup_submseteq; [done|]. intros uk ([k v] & -> & Hin)%list_elem_of_fmap.
      apply Hd in Hin as (_ & _ & (c & Hc & Hs) & _). by eapply Hkeys. }
    rewrite length_fmap in Hle. lia.
  - rewrite Forall_forall. intros [uk v] Hin. apply Hd in Hin as (HKu & _ & _ & Hvis). by apply Hfit.
Qed.

(** C40. A snapshot restored on a blank replica serves the keys that nobody had locked: every
    key of the region's current range that is not locked on the replica that took the snapshot
    reads, at any timestamp from 1 on, as its latest committed value there, and as absent when
    it is deleted or was never written.  A key that is locked reads as absent, whatever had
    been committed for it before the lock. *)
Theorem snapshot_restores_blank {E1 E2 : Type} `{EngineLaws E1} `{EngineLaws E2} (K : bytes → Prop)
    regions region_id start0 end0 (e : E1) st (f : E2) stf (keys : list bytes) :
  let '(start, end_) := snapshot_range regions region_id start0 end0 in
  (∀ a b, K a → K b → a = b ∨ apart a b) →
  (∀ uk, K uk → uk `prefix_of` start → uk = start) →
  holds e st → versions_only K st →
  (∀ uk err, K uk → mvcc_get_unresolved uk u64_max e = Err err → is_locked_err err = true) →
  holds f stf → blank K start end_ stf →
  (∀ uk c, is_u64 c → is_Some (commit_at st uk c) → uk ∈ keys) → is_u64 (N.of_nat (length keys)) →
  (∀ uk v, K uk → mvcc_get_unresolved uk u64_max e = Ok (Some v) → small_pair (uk, v)) →
  ∃ n, ∀ fuel, (n ≤ fuel)%nat →
    let f' := make_restore (make_snapshot fuel regions region_id start0 end0 e) f in
    ∀ uk ts, K uk → bytes_le start uk → past_end end_ uk = false → 1 ≤ ts → is_u64 ts →
      mvcc_get_unresolved uk ts f'
      = Ok (match mvcc_get_unresolved uk u64_max e with Ok o => o | Err _ => None end).
Proof.
  destruct (snapshot_range regions region_id start0 end0) as [start end_] eqn:Hrange.
  intros HK Hstart He Hv Hl Hf Hb Hkeys Hlen Hfit.
  destruct (scan_correct_run K HK e st He Hv start end_ Hstart u64_max ltac:(eauto)) as (n & out & [Hso Hd] & Hrun).
  assert (Hnd : NoDup out.*1) by by apply ksorted_keys_NoDup.
  destruct (snapshot_sizes K st start end_ e out keys Hnd Hd Hkeys Hlen Hfit) as [Hlen' Hsmall].
  exists n. intros fuel Hle f' uk ts HKu Hsu Hpe Hts Hu.
  assert (Hf' : holds f' (restored stf out)).
  { unfold f', make_restore, make_snapshot. unfold snapshot_range in Hrange. rewrite Hrange, (Hrun fuel 0%nat Hle).
    change (limited 0 out) with out. cbn [snd]. rewrite kv_pairs_roundtrip; [|exact Hlen'|].
    - by apply restore_holds.
    - eapply list.Forall_impl; [exact Hsmall|]. by intros p [? _]. }
  assert (Hval : (match mvcc_get_unresolved uk u64_max e with Ok o => o | Err _ => None end)
    = snd <$> List.find (λ p, bool_decide (p.1 = uk)) out).
  { destruct (List.find _ out) as [[k v]|] eqn:Hfind; cbn.
    - apply find_some in Hfind as [Hin%list_elem_of_In Heq%bool_decide_eq_true]. cbn in Heq. subst k.
      apply Hd in Hin as (_ & _ & _ & Hvis). unfold visible in Hvis. by rewrite Hvis.
    - destruct (mvcc_get_unresolved uk u64_max e) as [[v|]|err] eqn:Hr; try done. exfalso.
      assert (Hin : (uk, v) ∈ out).
      { apply Hd. split; [done|]. split; [by split|]. split; [exact (visible_stored K e st uk v HK He Hv HKu Hr)|exact Hr]. }
      apply list_elem_of_In in Hin. pose proof (find_none _ _ Hfind _ Hin) as Hn. cbn in Hn.
      by rewrite bool_decide_eq_true_2 in Hn. }
  rewrite Hval. unfold mvcc_get_unresolved. rewrite (holds_get f' (restored stf out)) by done.
  unfold st_get. rewrite restored_lock. pose proof (bl_locks _ _ _ _ Hb uk HKu (conj Hsu Hpe)) as Hlk.
  unfold st_get in Hlk. rewrite Hlk. cbn.
  eapply snapshot_read_det; [apply read_committed_snapshot; [exact Hf'| |done]|].
  - apply (versions_separated K HK); [|done]. apply restored_versions; [apply Hb|]. rewrite Forall_forall.
    intros [k v] Hin. by apply Hd in Hin as [? _].
  - by apply (restored_snapshot K start end_).
Qed.

(** A read waits exactly for the writes in flight that its snapshot includes:
    whatever writes were registered and dropped, in whatever order, [blocks_read] finds
    the registered and not yet dropped writes in the range that commit at or below the
    read, and nothing else. *)
Lemma reads_wait_for_in_flight_writes keys live start end_ read_ts :
  inflight_steps keys live →
  blocks_read start end_ read_ts keys = true ↔
  ∃ g, g ∈ live ∧ bytes_le start (g_key g) ∧ (end_ = [] ∨ bytes_lt (g_key g) end_) ∧ g_commit_ts g ≤ read_ts.
Proof. intros Hs. by apply blocks_read_live, inflight_tracks. Qed.

(** * Concrete runs *)

Definition ex_prewrite : Command := Prewrite ex_muts [x61] 5 100.
Definition ex_commit : Command := Commit [x61] (mu_key <$> ex_muts) 5 7.
Definition ex_log : list bytes := [[]; Command_encode ex_prewrite; Command_encode ex_commit].

Lemma ex_prewrite_ok : command_ok ex_prewrite.
Proof. split_and!; [by vm_compute..|]. repeat constructor; by vm_compute. Qed.
Lemma ex_commit_ok : command_ok ex_commit.
Proof. split_and!; [by vm_compute..|]. repeat constructor; by vm_compute. Qed.

(** Key [a] is prewritten at 5; an entry that also names the unlocked [b] commits it at 7. *)
Lemma resolve_entry_settles_witness :
  let entry := Command_encode (Resolve [[x61]; [x62]] 5 7) in
  ∃ e', make_apply entry ex_e2 = (e', Ok tt) ∧
    read_committed [x61] 7 e' = Ok (Some [x31]) ∧ read_committed [x61] 6 e' = Ok None ∧ read_committed [x62] 9 e' = Ok None.
Proof.
  destruct (resolve_entry_settles (E := Core (gmap bytes MemValue)) ex_K ex_st2 [[x61]; [x62]] 5 7 ex_K_apart)
    as (st' & _ & _ & Hall).
  - exact (txn_steps_inv ex_K ex_K_apart _ _ _ (txn_inv_empty ex_K) ex_step).
  - constructor; [by left|]. constructor; [by right|constructor].
  - constructor; [|constructor; [|constructor]]; intros b Hb; vm_compute in Hb; [|done]. injection Hb as <-. vm_compute. eauto.
  - split_and!; [by vm_compute..|]. repeat constructor; by vm_compute.
  - right. by vm_compute.
  - repeat (constructor; [by vm_compute|]); constructor.
  - destruct (Hall ex_e2 ex_holds2) as (e' & e'' & He & _ & _ & _ & Hr). exists e'. split; [exact He|].
    assert (Hours : [x61] ∈ [[x61]; [x62]] ∧ ∃ l, lock_of ex_st2 [x61] = Some l ∧ lock_start_ts l = 5)
      by (split; [by left|]; exists (pw_lock ex_pw); split; vm_compute; reflexivity).
    split_and!.
    + apply (Hr [x61] 7 ltac:(by left) ltac:(by vm_compute)) with (v := VPut [x31]); [exact Hours|done|lia| |vm_compute; reflexivity].
      intros c Hc. lia.
    + rewrite (proj1 (Hr [x61] 6 ltac:(by left) ltac:(by vm_compute))) by (intros _; right; lia). vm_compute. reflexivity.
    + rewrite (proj1 (Hr [x62] 9 ltac:(by right) ltac:(by vm_compute))); [vm_compute; reflexivity|].
      intros [_ (l & Hl & _)]. vm_compute in Hl. done.
Defined.

Lemma replicated_transaction_witness :
  apply_log ex_log ex_c0
  = let '(e1, r1) := prewrite ex_tx 100 ex_c0 in
    let '(e2, r2) := commit ex_tx 7 e1 in
    (e2, [Ok tt; r1; r2]).
Proof. exact (replicated_transaction 5 ex_muts ex_tx 100 7 ex_c0 eq_refl ex_prewrite_ok ex_commit_ok). Defined.

Lemma ex_blank : blank ex_K [] [] empty_store.
Proof. split; [intros k Hs; by apply is_Some_None in Hs|done|done]. Qed.

Lemma ex_versions1 : versions_only ex_K ex_st1.
Proof. intros k Hk. apply ex_st1_keys in Hk as ->. exists [x61], 7. split_and!; [done|by vm_compute|by left]. Qed.

Lemma snapshot_restores_blank_witness :
  ∃ n, ∀ fuel, (n ≤ fuel)%nat →
    let f' := make_restore (make_snapshot fuel in_memory 99 [] [] ex_e1) ex_c0 in
    ∀ uk ts, ex_K uk → bytes_le [] uk → past_end [] uk = false → 1 ≤ ts → is_u64 ts →
      mvcc_get_unresolved uk ts f'
      = Ok (match mvcc_get_unresolved uk u64_max ex_e1 with Ok o => o | Err _ => None end).
Proof.
  apply (snapshot_restores_blank ex_K in_memory 99 [] [] ex_e1 ex_st1 ex_c0 empty_store [[x61]]).
  - apply ex_K_apart.
  - by intros uk [->| ->] [x Hx].
  - apply ex_holds1.
  - apply ex_versions1.
  - intros uk err [->| ->] He; vm_compute in He; discriminate.
  - apply ex_holds0.
  - apply ex_blank.
  - intros uk c Hc Hs. apply ex_st1_keys, encode_data_key_inj in Hs as [-> _]; [left|done|by vm_compute].
  - by vm_compute.
  - intros uk v [->| ->] Hr; vm_compute in Hr; [|done]. injection Hr as <-.
    split; [split; by vm_compute|by vm_compute].
Defined.

(** Two writes of one key, the first of them done. *)
Definition ex_in_flight : InFlight :=
  guard_drop (mkGuard [x6b] 10) (fst (register [x6b] 20 (fst (register [x6b] 10 InFlight_new)))).

Lemma reads_wait_for_in_flight_writes_witness :
  inflight_steps ex_in_flight [mkGuard [x6b] 20] ∧
  (blocks_read [x6b] [x6c] 25 ex_in_flight = true ↔
   ∃ g, g ∈ [mkGuard [x6b] 20] ∧ bytes_le [x6b] (g_key g) ∧ ([x6c] = [] ∨ bytes_lt (g_key g) [x6c]) ∧ g_commit_ts g ≤ 25).
Proof.
  assert (Hs : inflight_steps ex_in_flight [mkGuard [x6b] 20]).
  { apply (inflight_drop _ [mkGuard [x6b] 20] (mkGuard [x6b] 10) []).
    apply (inflight_register _ [mkGuard [x6b] 10] [x6b] 20), (inflight_register _ [] [x6b] 10), inflight_new. }
  split; [exact Hs|]. exact (reads_wait_for_in_flight_writes _ _ [x6b] [x6c] 25 Hs).
Defined.
