(* ===== verification/CrossTxn.v ===== *)
(** Transactions across regions ([server/src/cross_txn.rs]): the coordinator and the
    reader, over one engine per region.

    [Regions] is the trait: [region_of] gives the region that owns a key, and a region's
    engine is a component of the state.  Every operation runs in the engine of a region. *)

From stdpp Require Import base functions list numbers strings gmap.
From Stdlib Require Import Strings.Byte.
From S2P Require Import Prelude Encoding Keys Batch Memtable Db EngineApi Mvcc Percolator.

Record CrossTxn := mkCrossTxn {
  x_start_ts : N;
  x_primary : bytes;
  x_mutations : list Mutation;
}.

Definition CrossTxn_new (start_ts : N) (mutations : list Mutation) : Result CrossTxn :=
  match mutations with
  | [] => Err (InvalidArgument "transaction needs at least one mutation")
  | first :: _ => Ok (mkCrossTxn start_ts (mu_key first) mutations)
  end.

Section cross.
Context {E : Type} `{EngineOps E} (region_of : bytes → N).
Abbreviation Regions := (N → E).

(** [regions.engine(regions.region_of(key))], and an operation on it. *)
Definition engine (rs : Regions) (key : bytes) : E := rs (region_of key).

Definition in_region {A} (key : bytes) (op : EM E A) : EM Regions A := λ rs,
  let '(e, r) := op (engine rs key) in (<[region_of key := e]> rs, r).

(** The prewrites, in order: the keys locked, and the first error. *)
Fixpoint x_prewrite_loop (tx : CrossTxn) (ttl : N) (ms : list Mutation) (acquired : list bytes)
    (rs : Regions) : Regions * (list bytes * Result unit) :=
  match ms with
  | [] => (rs, (acquired, Ok tt))
  | m :: ms =>
    match in_region (mu_key m) (prewrite_one (mu_key m) (mu_value m) (x_primary tx) (x_start_ts tx) ttl) rs with
    | (rs, Ok _) => x_prewrite_loop tx ttl ms (acquired ++ [mu_key m]) rs
    | (rs, Err err) => (rs, (acquired, Err err))
    end
  end.

(** [let _ = ..resolve_rollback(k, self.start_ts)] over the acquired keys. *)
Fixpoint x_rollback (start_ts : N) (acquired : list bytes) (rs : Regions) : Regions :=
  match acquired with
  | [] => rs
  | k :: ks => x_rollback start_ts ks (in_region k (resolve_rollback k start_ts) rs).1
  end.

Definition x_prewrite (tx : CrossTxn) (ttl : N) : EM Regions unit := λ rs,
  match x_mutations tx with
  | [] => (rs, Err (Io "index out of bounds")) (* not built by [CrossTxn_new] *)
  | first :: rest =>
    let '(rs, (acquired, result)) :=
      match in_region (x_primary tx)
        (prewrite_one (x_primary tx) (mu_value first) (x_primary tx) (x_start_ts tx) ttl) rs with
      | (rs, Ok _) => x_prewrite_loop tx ttl rest [x_primary tx] rs
      | (rs, Err err) => (rs, ([], Err err))
      end in
    match result with
    | Ok _ => (rs, Ok tt)
    | Err err => (x_rollback (x_start_ts tx) acquired rs, Err err)
    end
  end.

(** The transaction of the first mutation alone, in the primary's region. *)
Definition x_commit_primary (tx : CrossTxn) (commit_ts : N) : EM Regions unit := λ rs,
  match x_mutations tx with
  | [] => (rs, Err (Io "index out of bounds")) (* not built by [CrossTxn_new] *)
  | first :: _ =>
    match Transaction_new (x_start_ts tx) [first] with
    | Ok view => in_region (x_primary tx) (commit_primary view commit_ts) rs
    | Err err => (rs, Err err)
    end
  end.

Fixpoint x_finalize_loop (tx : CrossTxn) (commit_ts : N) (ms : list Mutation) : EM Regions unit :=
  match ms with
  | [] => mret tt
  | m :: ms =>
    if decide (mu_key m = x_primary tx) then x_finalize_loop tx commit_ts ms else
    _ ← in_region (mu_key m) (resolve_commit (mu_key m) (x_start_ts tx) commit_ts);
    x_finalize_loop tx commit_ts ms
  end.

Definition x_finalize_secondaries (tx : CrossTxn) (commit_ts : N) : EM Regions unit :=
  x_finalize_loop tx commit_ts (x_mutations tx).

Definition x_commit (tx : CrossTxn) (commit_ts : N) : EM Regions unit :=
  _ ← x_commit_primary tx commit_ts;
  x_finalize_secondaries tx commit_ts.

(** [for _ in 0..8]: the lock of the key is settled as its primary's region decides.  The
    key, primary and TTL that the error message prints are left out. *)
Fixpoint cross_resolve (n : nat) (fuel : nat) (key : bytes) (read_ts : N) : EM Regions unit :=
  match n with
  | O => mret tt
  | S n =>
    o ← em_read (λ rs, get_cf_raw (engine rs key) CfLock key);
    match o with
    | None => mret tt
    | Some lock_bytes =>
      lock ← em_lift (ok_or (Lock_decode lock_bytes) (Corruption "lock decode"));
      if read_ts <? lock_start_ts lock then mret tt else
      status ← in_region (lock_primary lock)
        (check_txn_status fuel (lock_primary lock) (lock_start_ts lock) read_ts);
      _ ← match status with
          | Committed commit_ts => in_region key (resolve_commit key (lock_start_ts lock) commit_ts)
          | RolledBack => in_region key (resolve_rollback key (lock_start_ts lock))
          | Locked _ => em_lift (Err (KeyIsLocked "key awaits primary"))
          end;
      cross_resolve n fuel key read_ts
    end
  end.

Definition cross_get (fuel : nat) (key : bytes) (read_ts : N) : EM Regions (option bytes) :=
  _ ← cross_resolve 8 fuel key read_ts;
  em_read (λ rs, mvcc_get_unresolved key read_ts (engine rs key)).
End cross.
