(* ===== verification/CrossTheorems.v ===== *)
(** Transactions across regions: what the coordinator and the readers do to the stores of the
    regions, whether a transaction reaches its commit point or not; theorems and witnesses. *)

From stdpp Require Import base functions list numbers strings gmap.
From Stdlib Require Import Strings.Byte.
From S2P Require Import Prelude Encoding Keys Batch Memtable Db DbCorrect EngineApi Mvcc MvccCorrect Percolator TxnCorrect.
From S2P Require Import CrossTxn Crc OrdMap Engine EngineTheorems.

#[local] Arguments encode_data_key : simpl never.
#[local] Arguments encode_write_value : simpl never.
#[local] Arguments Lock_encode : simpl never.
#[local] Arguments Lock_decode : simpl never.
#[local] Arguments Value_encode : simpl never.
#[local] Arguments decode_write_value : simpl never.

(** * One store per region *)

Section world.
Context (K : bytes → Prop) (HK : ∀ a b, K a → K b → a = b ∨ apart a b) (region_of : bytes → N).
Implicit Types (sts : N → Store) (key : bytes).

(** The store of the region that owns a key. *)
Definition store_of sts key : Store := sts (region_of key).

Definition winv sts : Prop := ∀ r, txn_inv K (sts r).

(** A request of the protocol in the region of its key. *)
Definition wstep sts (op : Op) sts' : Prop :=
  ∃ st', txn_step K (store_of sts (op_user_key op)) op st' ∧ sts' = <[region_of (op_user_key op) := st']> sts.

Inductive wsteps : (N → Store) → list Op → (N → Store) → Prop :=
  | wnil sts : wsteps sts [] sts
  | wcons sts op sts1 ops sts2 : wstep sts op sts1 → wsteps sts1 ops sts2 → wsteps sts (op :: ops) sts2.

Lemma wsteps_app sts1 ops1 sts2 ops2 sts3 :
  wsteps sts1 ops1 sts2 → wsteps sts2 ops2 sts3 → wsteps sts1 (ops1 ++ ops2) sts3.
Proof. induction 1; cbn; [done|]. intros. econstructor; eauto. Qed.

Lemma wsteps_one sts op sts' : wstep sts op sts' → wsteps sts [op] sts'.
Proof. intros. econstructor; [done|constructor]. Qed.

(** What a step keeps of the region of a key. *)
Lemma wstep_at sts op sts' key :
  wstep sts op sts' →
  (txn_step K (store_of sts key) op (store_of sts' key) ∧ region_of (op_user_key op) = region_of key) ∨
  store_of sts' key = store_of sts key.
Proof.
  intros (st' & Hs & ->). unfold store_of in *.
  destruct (decide (region_of (op_user_key op) = region_of key)) as [Er|Hne].
  - left. split; [|done]. rewrite Er in *. by rewrite fn_lookup_insert.
  - right. by rewrite fn_lookup_insert_ne.
Qed.

Lemma wstep_inv sts op sts' : winv sts → wstep sts op sts' → winv sts'.
Proof.
  intros Hi (st' & Hs & ->) r. destruct (decide (region_of (op_user_key op) = r)) as [<-|Hne].
  - rewrite fn_lookup_insert. eapply (txn_step_inv K HK); [|exact Hs]. apply Hi.
  - rewrite fn_lookup_insert_ne by done. apply Hi.
Qed.

Lemma wsteps_inv sts ops sts' : winv sts → wsteps sts ops sts' → winv sts'.
Proof. intros Hi Hs. induction Hs as [|sts op sts1 ops sts2 H1 _ IH]; [done|]. eauto using wstep_inv. Qed.

Lemma wstep_other sts op sts' key :
  winv sts → wstep sts op sts' → op_user_key op ≠ key → key_same (store_of sts key) (store_of sts' key) key.
Proof.
  intros Hi Hs Hne. destruct (wstep_at _ _ _ key Hs) as [[Ht _]| ->]; [|done].
  eapply txn_step_other; [done|apply Hi|done|done].
Qed.

Lemma wsteps_other sts ops sts' key :
  winv sts → wsteps sts ops sts' → Forall (λ op, op_user_key op ≠ key) ops →
  key_same (store_of sts key) (store_of sts' key) key.
Proof.
  intros Hi Hs. induction Hs as [|sts op sts1 ops sts2 H1 Hs IH]; [done|].
  intros [Hc Hf]%Forall_cons_1. eapply key_same_trans; [by eapply wstep_other|].
  apply IH; [by eapply wstep_inv|done].
Qed.

Lemma wsteps_snapshot sts ops sts' key ts r :
  winv sts → K key → is_u64 ts → wsteps sts ops sts' → Forall (commits_above key ts) ops →
  snapshot_read (store_of sts key) key ts r → snapshot_read (store_of sts' key) key ts r.
Proof.
  intros Hi HKk Hts Hs. induction Hs as [|sts op sts1 ops sts2 H1 Hs IH]; [done|].
  intros [Hc Hf]%Forall_cons_1 Hr. apply IH; [by eapply wstep_inv|done|].
  destruct (wstep_at _ _ _ key H1) as [[Ht _]| ->]; [|done].
  by eapply (txn_step_snapshot K HK); [apply Hi|..].
Qed.

(** Requests other than commits write no commit record. *)
Definition no_commit (op : Op) : Prop :=
  match op with OpResolve (mkResolve _ _ (RCommit _)) => False | _ => True end.

Lemma no_commit_above key ts op : no_commit op → commits_above key ts op.
Proof. by destruct op as [| |[? ? []]]. Qed.

Lemma no_commit_writes st op st' k :
  txn_inv K st → txn_step K st op st' → no_commit op → st' CfWrite k = st CfWrite k.
Proof.
  intros Hi Hs Hn. destruct (txn_step_cases K HK _ _ _ Hi Hs)
    as [(p & -> & _ & _ & _ & _ & Est)|[(k' & l & c & -> & _)|(k' & l & -> & _ & _ & Est)]];
    [|done|]; rewrite (Est CfWrite), !st_set_ne by (by intros [? _]); done.
Qed.

Lemma wsteps_writes sts ops sts' key k :
  winv sts → wsteps sts ops sts' → Forall no_commit ops →
  store_of sts' key CfWrite k = store_of sts key CfWrite k.
Proof.
  intros Hi Hs. induction Hs as [|sts op sts1 ops sts2 H1 Hs IH]; [done|].
  intros [Hc Hf]%Forall_cons_1. rewrite IH by (done || by eapply wstep_inv).
  destruct (wstep_at _ _ _ key H1) as [[Ht _]| ->]; [|done]. eapply no_commit_writes; [apply Hi|done|done].
Qed.

(** ** The engines *)

Section run.
Context {E : Type} `{EngineLaws E}.
Implicit Types (rs : N → E).

Definition whold rs sts : Prop := ∀ r, holds (rs r) (sts r).

Lemma whold_step rs sts key e' st' :
  whold rs sts → holds e' st' → whold (<[region_of key := e']> rs) (<[region_of key := st']> sts).
Proof.
  intros Hh He r. destruct (decide (region_of key = r)) as [<-|Hne].
  - by rewrite !fn_lookup_insert.
  - rewrite !fn_lookup_insert_ne by done. apply Hh.
Qed.

Lemma whold_same rs sts key e' :
  whold rs sts → holds e' (store_of sts key) → whold (<[region_of key := e']> rs) sts.
Proof.
  intros Hh He r. destruct (decide (region_of key = r)) as [<-|Hne].
  - by rewrite fn_lookup_insert.
  - rewrite fn_lookup_insert_ne by done. apply Hh.
Qed.

Lemma in_region_run {A} key (op : EM E A) rs e' r :
  op (engine region_of rs key) = (e', r) → in_region region_of key op rs = (<[region_of key := e']> rs, r).
Proof. intros Ho. unfold in_region. by rewrite Ho. Qed.

(** A read of the committed versions of a key, from the stores. *)
Lemma read_engine rs sts key ts r :
  whold rs sts → winv sts → K key → is_u64 ts → snapshot_read (store_of sts key) key ts r →
  read_committed key ts (engine region_of rs key) = r.
Proof.
  intros Hh Hi HKk Hts Hr. eapply snapshot_read_det; [|exact Hr].
  apply read_committed_snapshot; [apply Hh|apply (txn_inv_separated K HK); [apply Hi|done]|done].
Qed.

Lemma engine_snapshot rs sts key ts :
  whold rs sts → winv sts → K key → is_u64 ts →
  snapshot_read (store_of sts key) key ts (read_committed key ts (engine region_of rs key)).
Proof.
  intros Hh Hi HKk Hts. apply read_committed_snapshot; [apply Hh|apply (txn_inv_separated K HK); [apply Hi|done]|done].
Qed.

(** A read that the lock of its key does not stop. *)
Lemma read_unresolved rs sts key ts :
  whold rs sts →
  (st_get (store_of sts key) CfLock key = None ∨
   ∃ l, lock_of (store_of sts key) key = Some l ∧ ts < lock_start_ts l) →
  mvcc_get_unresolved key ts (engine region_of rs key) = read_committed key ts (engine region_of rs key).
Proof.
  intros Hh Hl. unfold mvcc_get_unresolved. rewrite (holds_get (engine region_of rs key) _ CfLock key (Hh (region_of key))).
  cbn [mbind result_mbind]. unfold lock_of, store_of in *. destruct Hl as [Hn|(l & Hl & Hlt)]; [by rewrite Hn|].
  destruct (st_get (sts (region_of key)) CfLock key) as [b|]; [|done]. cbn in Hl. rewrite Hl. cbn.
  destruct (N.leb_spec (lock_start_ts l) ts); [lia|done].
Qed.

(** Resolving the lock a transaction holds on a key, and one it does not hold. *)
Lemma resolve_ours rs sts key start action l :
  whold rs sts → lock_of (store_of sts key) key = Some l → lock_start_ts l = start →
  op_ok K (OpResolve (mkResolve key start action)) → small_op (OpResolve (mkResolve key start action)) →
  let b := build_resolve_batch (mkResolve key start action) in
  ∃ e' seq, submit (engine region_of rs key) (OpResolve (mkResolve key start action)) = (e', Ok seq) ∧
    whold (<[region_of key := e']> rs) (<[region_of key := apply_batch (store_of sts key) b]> sts) ∧
    wstep sts (OpResolve (mkResolve key start action)) (<[region_of key := apply_batch (store_of sts key) b]> sts).
Proof.
  intros Hh Hl Hst Hok Hsm b.
  assert (Hs : spec_op (store_of sts key) (OpResolve (mkResolve key start action)) (inl b)).
  { unfold lock_of in Hl. destruct (st_get (store_of sts key) CfLock key) as [lb|] eqn:El; [|done].
    by eapply spec_resolve_ok. }
  destruct (holds_write (engine region_of rs key) (store_of sts key) _ _ (Hh (region_of key)) Hsm Hs) as (e' & seq & Hsub & Hh').
  exists e', seq. split; [done|]. split; [by apply whold_step|].
  exists (apply_batch (store_of sts key) b). split; [|done]. split; [done|]. by exists b.
Qed.

Lemma resolve_none rs sts key start action :
  whold rs sts → st_get (store_of sts key) CfLock key = None →
  small_op (OpResolve (mkResolve key start action)) →
  ∃ e', submit (engine region_of rs key) (OpResolve (mkResolve key start action)) = (e', Ok 0) ∧
    whold (<[region_of key := e']> rs) sts.
Proof.
  intros Hh Hl Hsm.
  destruct (holds_answer (engine region_of rs key) (store_of sts key)
    (OpResolve (mkResolve key start action)) (Ok 0) (Hh (region_of key)) Hsm) as (e' & Hsub & Hh'); [by constructor|].
  exists e'. split; [done|]. by apply whold_same.
Qed.
End run.
End world.

(** * The transaction *)

(** The transaction as one region sees it. *)
Definition view (tx : CrossTxn) : Transaction := mkTransaction (x_start_ts tx) (x_primary tx) (x_mutations tx).

Section coordinator.
Context (K : bytes → Prop) (HK : ∀ a b, K a → K b → a = b ∨ apart a b) (region_of : bytes → N).
Context {E : Type} `{EngineLaws E}.
Context (tx : CrossTxn) (ttl cts : N) (Hsz : txn_sized (view tx) ttl cts).
Context (HKs : Forall (λ m, K (mu_key m)) (x_mutations tx)).
Implicit Types (rs : N → E) (sts : N → Store) (m : Mutation) (key : bytes).

Abbreviation st_of := (store_of region_of).
Abbreviation steps := (wsteps K region_of).
Abbreviation muts := (x_mutations tx).
Abbreviation start := (x_start_ts tx).

Lemma key_of m : m ∈ muts → K (mu_key m).
Proof. exact (proj1 (list.Forall_forall _ _) HKs m). Qed.

Lemma small_commit m : m ∈ muts → small_op (commit_req (view tx) cts m).
Proof. exact (proj1 (list.Forall_forall _ _) (ts_finalize _ _ _ Hsz) m). Qed.

Lemma small_prewrite m : m ∈ muts → small_op (prewrite_req (view tx) ttl m).
Proof. exact (proj1 (list.Forall_forall _ _) (ts_prewrite _ _ _ Hsz) m). Qed.

Lemma commit_allowed m : m ∈ muts → op_ok K (commit_req (view tx) cts m).
Proof. intros Hin. split; [by apply key_of|]. apply (ts_commit _ _ _ Hsz). Qed.

(** ** After the commit point *)

(** The requests of a transaction that commits. *)
Definition of_txn (op : Op) : Prop :=
  ∃ m, m ∈ muts ∧ (op = prewrite_req (view tx) ttl m ∨ op = commit_req (view tx) cts m).

Lemma of_txn_above key ts op : of_txn op → ts < cts ∨ key ∉ mu_key <$> muts → commits_above key ts op.
Proof.
  intros (m & Hin & [->| ->]) Hor; [done|]. cbn. intros <-. destruct Hor as [|Hn]; [done|].
  destruct Hn. by apply list_elem_of_fmap_2.
Qed.

(** The primary is committed and the others are prewritten or committed. *)
Record decided sts0 sts : Prop := mkDecided {
  d_steps : ∃ ops, steps sts0 ops sts ∧ Forall of_txn ops;
  d_primary : ∃ m, m ∈ muts ∧ mu_key m = x_primary tx ∧ applied (view tx) (st_of sts (mu_key m)) cts m;
  d_muts m : m ∈ muts → prepared (view tx) ttl (st_of sts (mu_key m)) m ∨ applied (view tx) (st_of sts (mu_key m)) cts m;
}.

Lemma decided_inv sts0 sts : winv K sts0 → decided sts0 sts → winv K sts.
Proof. intros Hi [(ops & Hs & _) _ _]. by eapply (wsteps_inv K HK). Qed.

(** A mutation is rolled forward, by the coordinator or by a reader. *)
Lemma settle_ok sts0 sts rs m :
  winv K sts0 → NoDup (mu_key <$> muts) → whold rs sts → decided sts0 sts → m ∈ muts →
  ∃ rs' sts', in_region region_of (mu_key m) (resolve_commit (mu_key m) start cts) rs = (rs', Ok tt) ∧
    whold rs' sts' ∧ decided sts0 sts' ∧ applied (view tx) (st_of sts' (mu_key m)) cts m.
Proof.
  intros Hi0 Hnd Hh Hd Hin. pose proof (decided_inv _ _ Hi0 Hd) as Hi.
  destruct Hd as [(ops & Hs & Hof) (p & Hp & Epk & Hap) Hall].
  destruct (Hall m Hin) as [Hprep|Happ].
  - destruct Hsz as [Hst [Hlt Hc] Httl _ _ _ _].
    destruct (commit_step_ok K (view tx) ttl Hst Httl (st_of sts (mu_key m)) cts m (Hi _) (key_of m Hin) Hlt Hc Hprep)
      as (_ & _ & Ha).
    destruct Hprep as (Hlock & _).
    destruct (resolve_ours K region_of rs sts (mu_key m) start (RCommit cts) _ Hh Hlock)
      as (e' & seq & Hsub & Hh' & Hw); [done|by apply commit_allowed|by apply small_commit|].
    set (sts' := <[region_of (mu_key m) := _]> sts) in *.
    assert (Hm : applied (view tx) (st_of sts' (mu_key m)) cts m).
    { unfold sts', store_of. rewrite fn_lookup_insert. exact Ha. }
    assert (Hsame : ∀ m', m' ∈ muts → mu_key m' = mu_key m → m' = m).
    { intros m' Hin' Ek. apply list_elem_of_lookup in Hin as [i Hi1], Hin' as [j Hj1].
      assert (i = j) as ->; [|congruence]. eapply NoDup_lookup; [exact Hnd|..]; rewrite list_lookup_fmap.
      - by rewrite Hi1. - by rewrite Hj1, <- Ek. }
    exists (<[region_of (mu_key m) := e']> rs), sts'. split_and!; [|done| |done].
    { apply in_region_run. em_simpl. by rewrite Hsub. }
    constructor.
    + exists (ops ++ [commit_req (view tx) cts m]). split; [eapply wsteps_app; [done|by apply wsteps_one]|].
      apply Forall_app. split; [done|]. constructor; [|done]. exists m. auto.
    + exists p. split_and!; [done|done|]. destruct (decide (mu_key p = mu_key m)) as [Ek|Hne].
      { by rewrite (Hsame p Hp Ek). }
      eapply applied_same; [|exact Hap]. eapply (wstep_other K HK); [done|done|]. cbn. congruence.
    + intros m' Hin'. destruct (decide (mu_key m' = mu_key m)) as [Ek|Hne].
      { right. by rewrite (Hsame m' Hin' Ek). }
      assert (Hks : key_same (st_of sts (mu_key m')) (st_of sts' (mu_key m')) (mu_key m')).
      { eapply (wstep_other K HK); [done|done|]. cbn. congruence. }
      destruct (Hall m' Hin') as [?|?]; [left; by eapply prepared_same|right; by eapply applied_same].
  - destruct (resolve_none region_of rs sts (mu_key m) start (RCommit cts) Hh) as (e' & Hsub & Hh');
      [apply Happ|by apply small_commit|].
    exists (<[region_of (mu_key m) := e']> rs), sts. split_and!; [|done| |done].
    { apply in_region_run. em_simpl. by rewrite Hsub. }
    constructor; eauto.
Qed.

(** The coordinator's finalization, as far as it gets. *)
Lemma finalize_decided sts0 sts rs ms :
  winv K sts0 → NoDup (mu_key <$> muts) → whold rs sts → decided sts0 sts → Forall (.∈ muts) ms →
  ∃ rs' sts', x_finalize_loop region_of tx cts ms rs = (rs', Ok tt) ∧ whold rs' sts' ∧ decided sts0 sts'.
Proof.
  intros Hi0 Hnd Hh Hd Hms. revert rs sts Hh Hd. induction Hms as [|m ms Hin _ IH]; intros rs sts Hh Hd.
  { eauto. }
  cbn [x_finalize_loop]. case_decide; [by apply (IH rs sts)|].
  destruct (settle_ok sts0 sts rs m Hi0 Hnd Hh Hd Hin) as (rs1 & sts1 & E1 & Hh1 & Hd1 & _).
  destruct (IH rs1 sts1 Hh1 Hd1) as (rs' & sts' & E2 & Hr). exists rs', sts'. split; [|done].
  cbv [mbind em_bind]. by rewrite E1.
Qed.

(** The commit lookup finds a newest commit in its first step. *)
Lemma find_commit_newest (e : E) st key s c fuel :
  holds e st → separated st key → committed st key s c →
  (∀ c', is_u64 c' → c < c' → commit_at st key c' = None) →
  find_commit_ts (S fuel) key s e = Ok (Some c).
Proof.
  intros Hh Hsep (Hc & b & Hb & Hdec) Hnew. unfold find_commit_ts. cbn [find_commit_loop].
  destruct (holds_seek e st CfWrite (encode_data_key key u64_max) Hh) as (o & -> & Ho). cbn [mbind result_mbind].
  pose proof (seek_lands st key (encode_data_key key u64_max) o Hsep (max_le_version key u64_max ltac:(done)) Ho) as Hl.
  destruct o as [[k v]|].
  - destruct Hl as (uk & c' & Hdk & -> & Hc' & Hst & _ & Hmax).
    destruct (Hmax c Hc ltac:(by eexists) (max_le_version key c Hc)) as [-> Hle].
    rewrite Hdk. rewrite decide_True by done.
    assert (c' = c) as ->.
    { destruct (decide (c' = c)); [done|]. rewrite Hnew in Hst by (done || lia). done. }
    rewrite Hb in Hst. injection Hst as <-. by rewrite decide_True.
  - by rewrite (Hl c (max_le_version key c Hc)) in Hb.
Qed.

(** The primary's region answers that the transaction committed. *)
Lemma decided_status sts0 sts rs fuel ts :
  winv K sts0 → whold rs sts → decided sts0 sts → (0 < fuel)%nat →
  check_txn_status fuel (x_primary tx) start ts (engine region_of rs (x_primary tx))
  = (engine region_of rs (x_primary tx), Ok (Committed cts)).
Proof.
  intros Hi0 Hh Hd Hf. pose proof (decided_inv _ _ Hi0 Hd) as Hi.
  destruct Hd as [_ (p & Hp & Epk & (P1 & _ & P3 & P4)) _]. rewrite Epk in *.
  set (e := engine region_of rs (x_primary tx)). assert (He : holds e (st_of sts (x_primary tx))) by apply Hh.
  assert (HKp : K (x_primary tx)) by (rewrite <- Epk; by apply key_of).
  unfold check_txn_status, primary_lock. em_simpl. rewrite (holds_get e _ CfLock _ He), P4. cbn [mbind result_mbind].
  unfold write_status. destruct fuel as [|fuel]; [lia|].
  rewrite (find_commit_newest e (st_of sts (x_primary tx)) (x_primary tx) start cts fuel He); [done| | |done].
  - apply (txn_inv_separated K HK); [apply Hi|done].
  - destruct Hsz as [Hst [_ Hc] _ _ _ _ _]. split; [done|]. eexists. split; [exact P1|].
    by apply decode_encode_write_value.
Qed.

(** A lock that the loop of [cross_get] looks at. *)
Lemma lock_seen rs sts key l :
  whold rs sts → lock_of (st_of sts key) key = Some l →
  ∃ b, get_cf_raw (engine region_of rs key) CfLock key = Ok (Some b) ∧ Lock_decode b = Some l.
Proof.
  intros Hh Hl. rewrite (holds_get (engine region_of rs key) (st_of sts key) CfLock key) by apply Hh.
  unfold lock_of in Hl. destruct (st_get (st_of sts key) CfLock key) as [b|]; [|done]. by exists b.
Qed.

Lemma cross_resolve_unlocked n fuel key ts rs sts :
  whold rs sts → st_get (st_of sts key) CfLock key = None →
  cross_resolve region_of n fuel key ts rs = (rs, Ok tt).
Proof.
  intros Hh Hl. destruct n as [|n]; [done|]. cbn [cross_resolve]. em_simpl.
  by rewrite (holds_get (engine region_of rs key) (st_of sts key) CfLock key), Hl by apply Hh.
Qed.

Lemma cross_resolve_later n fuel key ts rs sts l :
  whold rs sts → lock_of (st_of sts key) key = Some l → ts < lock_start_ts l →
  cross_resolve region_of n fuel key ts rs = (rs, Ok tt).
Proof.
  intros Hh Hl Hlt. destruct n as [|n]; [done|]. cbn [cross_resolve]. em_simpl.
  destruct (lock_seen rs sts key l Hh Hl) as (b & -> & Hdec). rewrite Hdec. cbn [ok_or].
  by rewrite (proj2 (N.ltb_lt _ _) Hlt).
Qed.

(** The loop settles a mutation of a committed transaction. *)
Lemma cross_resolve_decided sts0 sts rs fuel m ts n :
  winv K sts0 → NoDup (mu_key <$> muts) → whold rs sts → decided sts0 sts → m ∈ muts → (0 < fuel)%nat →
  ∃ rs' sts', cross_resolve region_of (S n) fuel (mu_key m) ts rs = (rs', Ok tt) ∧ whold rs' sts' ∧ decided sts0 sts' ∧
    (applied (view tx) (st_of sts' (mu_key m)) cts m ∨
     prepared (view tx) ttl (st_of sts' (mu_key m)) m ∧ ts < start).
Proof.
  intros Hi0 Hnd Hh Hd Hin Hf. destruct (d_muts _ _ Hd m Hin) as [Hp|Ha].
  2:{ exists rs, sts. split_and!; [by apply (cross_resolve_unlocked _ _ _ _ _ sts); [|apply Ha]|done|done|by left]. }
  pose proof (proj1 Hp) as Hl. destruct (N.ltb_spec ts start) as [Hlt|Hge].
  { exists rs, sts. split_and!; [|done|done|by right]. by eapply cross_resolve_later. }
  cbn [cross_resolve]. em_simpl. destruct (lock_seen rs sts _ _ Hh Hl) as (b & -> & Hdec).
  rewrite Hdec. cbn [ok_or]. change (lock_start_ts _) with start. change (lock_primary _) with (x_primary tx).
  rewrite (proj2 (N.ltb_ge _ _) Hge).
  rewrite (in_region_run region_of (x_primary tx) _ rs _ _ (decided_status sts0 sts rs fuel ts Hi0 Hh Hd Hf)).
  set (rs1 := <[region_of (x_primary tx) := _]> rs).
  assert (Hh1 : whold rs1 sts) by (apply whold_same; [done|apply Hh]).
  destruct (settle_ok sts0 sts rs1 m Hi0 Hnd Hh1 Hd Hin) as (rs2 & sts2 & E2 & Hh2 & Hd2 & Ha2).
  revert E2. em_simpl. intros ->. exists rs2, sts2. split_and!; [|done|done|by left].
  by apply (cross_resolve_unlocked _ _ _ _ _ sts2); [|apply Ha2].
Qed.

(** A read of a committed transaction's key: the mutation from the commit timestamp on,
    what was there before it below. *)
Lemma cross_get_decided rs0 sts0 sts rs fuel m ts :
  whold rs0 sts0 → winv K sts0 → NoDup (mu_key <$> muts) → whold rs sts → decided sts0 sts → m ∈ muts → (0 < fuel)%nat →
  is_u64 ts →
  ∃ rs' sts', cross_get region_of fuel (mu_key m) ts rs
      = (rs', if cts <=? ts then Ok (Value_into_option (mu_value m))
              else read_committed (mu_key m) ts (engine region_of rs0 (mu_key m))) ∧
    whold rs' sts' ∧ decided sts0 sts'.
Proof.
  intros Hh0 Hi0 Hnd Hh Hd Hin Hf Hts.
  destruct (cross_resolve_decided sts0 sts rs fuel m ts 7 Hi0 Hnd Hh Hd Hin Hf) as (rs' & sts' & E1 & Hh' & Hd' & Hor).
  pose proof (decided_inv _ _ Hi0 Hd') as Hi'. pose proof (key_of m Hin) as HKm.
  exists rs', sts'. split; [|done]. unfold cross_get. em_simpl. rewrite E1. f_equal.
  rewrite (read_unresolved region_of rs' sts' (mu_key m) ts Hh').
  2:{ destruct Hor as [Ha|[Hp Hlt]]; [left; apply Ha|right]. eexists. split; [apply Hp|done]. }
  destruct Hsz as [Hst [Hlt Hc] Httl _ _ _ _]. apply (read_engine K HK region_of rs' sts'); [done|done|done|done|].
  destruct (N.leb_spec cts ts) as [Hle|Hgt].
  - destruct Hor as [Ha|[_ Hlt']]; [|cbn in *; lia].
    by apply (applied_read (view tx) ttl Hst Httl (st_of sts' (mu_key m)) cts).
  - destruct Hd' as [(ops & Hs & Hof) _ _].
    eapply (wsteps_snapshot K HK); [exact Hi0|done|done|exact Hs| |by apply (engine_snapshot K HK region_of rs0 sts0)].
    eapply list.Forall_impl; [exact Hof|]. intros op Ho. by apply of_txn_above; [|left].
Qed.

(** ** Prewrite *)

(** One prewrite: the lock is taken, or a conflict changes nothing. *)
Lemma x_prewrite_one rs sts m :
  whold rs sts → winv K sts → m ∈ muts →
  ∃ rs' r, in_region region_of (mu_key m) (prewrite_one (mu_key m) (mu_value m) (x_primary tx) start ttl) rs = (rs', r) ∧
    ((∃ seq sts', r = Ok seq ∧ whold rs' sts' ∧ wstep K region_of sts (prewrite_req (view tx) ttl m) sts' ∧
      free (view tx) (st_of sts (mu_key m)) m ∧ prepared (view tx) ttl (st_of sts' (mu_key m)) m) ∨
     (∃ msg, r = Err (Conflict msg) ∧ whold rs' sts ∧ ~ free (view tx) (st_of sts (mu_key m)) m)).
Proof.
  intros Hh Hi Hin. pose proof (Hh (region_of (mu_key m))) as He. pose proof (Hi (region_of (mu_key m))) as Hie.
  destruct Hsz as [Hst _ Httl Hp _ _ _].
  pose proof (prewrite_one_ok K HK (view tx) ttl Hst Httl Hp (engine region_of rs (mu_key m)) (st_of sts (mu_key m)) m
    He Hie (key_of m Hin)) as Hfree.
  destruct (prewrite_one_cases K HK (view tx) ttl Hst Httl Hp (engine region_of rs (mu_key m)) (st_of sts (mu_key m)) m
    He Hie (key_of m Hin) (small_prewrite m Hin)) as [(e1 & seq & st1 & E1 & _ & Hs1 & _)|(e1 & msg & E1 & Hh1)].
  - assert (Hf : free (view tx) (st_of sts (mu_key m)) m).
    { destruct (txn_step_cases K HK _ _ _ Hie Hs1) as [(p & [= <-] & _ & _ & Hno & Hl & _)|[(? & ? & ? & [=] & _)|(? & ? & [=] & _)]].
      by split. }
    destruct (Hfree Hf (small_prewrite m Hin)) as (e' & seq' & st' & E' & Hh' & Hs' & Hp').
    eexists _, _. split; [by apply in_region_run|]. left. exists seq', (<[region_of (mu_key m) := st']> sts).
    split_and!; [done|by apply whold_step|by exists st'|done|]. unfold store_of. by rewrite fn_lookup_insert.
  - eexists _, _. split; [by apply in_region_run|]. right. exists msg. split_and!; [done|by apply whold_same|].
    intros Hf. destruct (Hfree Hf (small_prewrite m Hin)) as (e' & seq' & st' & E' & _). by rewrite E1 in E'.
Qed.

Lemma x_prewrite_loop_ok ms acq rs sts :
  whold rs sts → winv K sts → Forall (.∈ muts) ms → NoDup (mu_key <$> ms) →
  Forall (λ m, free (view tx) (st_of sts (mu_key m)) m) ms →
  ∃ rs' sts', x_prewrite_loop region_of tx ttl ms acq rs = (rs', (acq ++ (mu_key <$> ms), Ok tt)) ∧
    whold rs' sts' ∧ steps sts (prewrite_req (view tx) ttl <$> ms) sts' ∧
    Forall (λ m, prepared (view tx) ttl (st_of sts' (mu_key m)) m) ms.
Proof.
  intros Hh Hi Hms. revert acq rs sts Hh Hi. induction Hms as [|m ms Hin Hms IH]; intros acq rs sts Hh Hi Hnd Hfree.
  { exists rs, sts. cbn. rewrite app_nil_r. split_and!; [done|done|constructor|done]. }
  rewrite fmap_cons in Hnd. apply NoDup_cons in Hnd as [Hnin Hnd]. apply Forall_cons in Hfree as [Hfm Hfree].
  destruct (x_prewrite_one rs sts m Hh Hi Hin) as (rs1 & r & E1 & [(seq & sts1 & -> & Hh1 & Hs1 & _ & Hp1)|(? & _ & _ & Hn)]);
    [|done].
  pose proof (wstep_inv K HK region_of _ _ _ Hi Hs1) as Hi1.
  assert (Hne : ∀ m', m' ∈ ms → mu_key m ≠ mu_key m').
  { intros m' Hin' Heq. apply Hnin. rewrite Heq. by apply list_elem_of_fmap_2. }
  destruct (IH (acq ++ [mu_key m]) rs1 sts1 Hh1 Hi1 Hnd) as (rs' & sts' & E2 & Hh' & Hs' & Hp').
  { rewrite list.Forall_forall in *. intros m' Hin'. eapply free_same; [|by apply Hfree].
    eapply (wstep_other K HK); [done|done|by apply Hne]. }
  exists rs', sts'. cbn [x_prewrite_loop fmap list_fmap]. rewrite E1, E2, <- app_assoc.
  split_and!; [done|done|by econstructor|]. constructor; [|done].
  eapply prepared_same; [|exact Hp1]. clear -HK Hi1 Hs' Hne.
  eapply (wsteps_other K HK); [exact Hi1|exact Hs'|]. apply Forall_fmap, list.Forall_forall. cbn. intros m' Hin' Ek.
  by destruct (Hne m' Hin').
Qed.

(** The primary commits: the transaction is decided. *)
Lemma x_commit_primary_ok sts0 sts rs first rest :
  muts = first :: rest → x_primary tx = mu_key first → NoDup (mu_key <$> muts) →
  whold rs sts → winv K sts → steps sts0 (prewrite_req (view tx) ttl <$> muts) sts →
  Forall (λ m, prepared (view tx) ttl (st_of sts (mu_key m)) m) muts →
  ∃ rs' sts', x_commit_primary region_of tx cts rs = (rs', Ok tt) ∧ whold rs' sts' ∧ decided sts0 sts'.
Proof.
  intros Em Ep Hnd Hh Hi Hs0 Hprep. assert (Hin : first ∈ muts) by (rewrite Em; left).
  rewrite list.Forall_forall in Hprep. destruct Hsz as [Hst [Hlt Hc] Httl _ _ _ _].
  destruct (commit_step_ok K (view tx) ttl Hst Httl (st_of sts (mu_key first)) cts first (Hi _) (key_of _ Hin) Hlt Hc
    (Hprep _ Hin)) as (_ & Hstep & Ha). set (b := build_resolve_batch _) in *.
  destruct (holds_write (engine region_of rs (mu_key first)) (st_of sts (mu_key first)) (OpWrite b) b
    (Hh (region_of (mu_key first))) (small_commit _ Hin)) as (e' & seq & Hsub & Hh'); [constructor|].
  set (st' := apply_batch (st_of sts (mu_key first)) b) in *.
  assert (Hw : wstep K region_of sts (commit_req (view tx) cts first) (<[region_of (mu_key first) := st']> sts)) by (by exists st').
  exists (<[region_of (mu_key first) := e']> rs), (<[region_of (mu_key first) := st']> sts).
  split_and!; [|by apply whold_step|].
  { unfold x_commit_primary. rewrite Em, Ep. cbn [Transaction_new].
    apply in_region_run, (commit_primary_run _ _ _ _ seq). exact Hsub. }
  assert (Haf : applied (view tx) (st_of (<[region_of (mu_key first) := st']> sts) (mu_key first)) cts first).
  { unfold store_of. by rewrite fn_lookup_insert. }
  constructor.
  - eexists. split; [eapply wsteps_app; [exact Hs0|by apply wsteps_one]|]. apply Forall_app. split.
    + apply Forall_fmap, list.Forall_forall. intros m Hm. exists m. auto.
    + constructor; [|done]. exists first. auto.
  - by exists first.
  - intros m Hm. rewrite Em, fmap_cons in Hnd. apply NoDup_cons in Hnd as [Hnin _].
    pose proof Hm as Hm'. rewrite Em in Hm'. apply elem_of_cons in Hm' as [->|Hm']; [by right|]. left.
    eapply prepared_same; [|by apply Hprep]. eapply (wstep_other K HK); [done|exact Hw|]. cbn.
    intros Ek. apply Hnin. rewrite Ek. by apply list_elem_of_fmap_2.
Qed.
End coordinator.

(** * Aborted transactions

    Transactions across regions that never reach their commit point: a coordinator that
    stops in the middle of its prewrites, or whose prewrite is refused, leaves nothing that
    a reader sees. *)

#[local] Arguments encode_data_key : simpl never.
#[local] Arguments Lock_encode : simpl never.
#[local] Arguments Lock_decode : simpl never.

Section abort.
Context (K : bytes → Prop) (HK : ∀ a b, K a → K b → a = b ∨ apart a b) (region_of : bytes → N).
Context {E : Type} `{EngineLaws E}.
Context (tx : CrossTxn) (ttl cts : N) (Hsz : txn_sized (view tx) ttl cts).
Context (HKs : Forall (λ m, K (mu_key m)) (x_mutations tx)) (HKp : K (x_primary tx)).
Context (Hsmp : small_op (rollback_req (view tx) (x_primary tx))).
Implicit Types (rs : N → E) (sts : N → Store) (m : Mutation) (key : bytes).

Abbreviation st_of := (store_of region_of).
Abbreviation steps := (wsteps K region_of).
Abbreviation muts := (x_mutations tx).
Abbreviation start := (x_start_ts tx).

(** The lock a mutation's prewrite takes. *)
Definition our_lock m : Lock := pw_lock (mutation_spec start ttl (x_primary tx) m).

(** Nothing is committed; locks other than those of the acquired keys are as they were. *)
Record undecided (acq : list bytes) sts0 sts : Prop := mkUndecided {
  u_steps : ∃ ops, steps sts0 ops sts ∧ Forall no_commit ops;
  u_lock key : st_get (st_of sts key) CfLock key = st_get (st_of sts0 key) CfLock key ∨
    (st_get (st_of sts0 key) CfLock key = None ∧ key ∈ acq ∧
     ∃ m, m ∈ muts ∧ mu_key m = key ∧ lock_of (st_of sts key) key = Some (our_lock m));
}.

Lemma undecided_inv acq sts0 sts : winv K sts0 → undecided acq sts0 sts → winv K sts.
Proof. intros Hi [(ops & Hs & _) _]. by eapply (wsteps_inv K HK). Qed.

Lemma undecided_start sts : undecided [] sts sts.
Proof. constructor; [by exists []; split; [constructor|]|by left]. Qed.

Lemma undecided_writes acq sts0 sts key k :
  winv K sts0 → undecided acq sts0 sts → st_of sts key CfWrite k = st_of sts0 key CfWrite k.
Proof. intros Hi [(ops & Hs & Hn) _]. by apply (wsteps_writes K HK region_of sts0 ops). Qed.

(** A step on an unlocked or acquired key, which leaves other keys alone. *)
Lemma undecided_step acq acq' sts0 sts op sts' :
  winv K sts0 → undecided acq sts0 sts → wstep K region_of sts op sts' → no_commit op →
  acq ⊆ op_user_key op :: acq' →
  (st_get (st_of sts' (op_user_key op)) CfLock (op_user_key op) = st_get (st_of sts0 (op_user_key op)) CfLock (op_user_key op) ∨
    (st_get (st_of sts0 (op_user_key op)) CfLock (op_user_key op) = None ∧ op_user_key op ∈ acq' ∧
     ∃ m, m ∈ muts ∧ mu_key m = op_user_key op ∧ lock_of (st_of sts' (op_user_key op)) (op_user_key op) = Some (our_lock m))) →
  undecided acq' sts0 sts'.
Proof.
  intros Hi0 Hu Hw Hn Hsub Hk. pose proof (undecided_inv _ _ _ Hi0 Hu) as Hi. destruct Hu as [(ops & Hs & Hno) Hl].
  constructor.
  - exists (ops ++ [op]). split; [eapply wsteps_app; [done|by apply wsteps_one]|].
    apply Forall_app. split; [done|by constructor].
  - intros key. destruct (decide (op_user_key op = key)) as [<-|Hne]; [done|].
    pose proof (wstep_other K HK region_of _ _ _ key Hi Hw Hne) as Hks. rewrite (ks_lock _ _ _ Hks), (key_same_lock _ _ _ Hks).
    destruct (Hl key) as [?|(? & Hin & ?)]; [by left|right]. split_and!; [done| |done].
    apply Hsub, elem_of_cons in Hin as [->|]; done.
Qed.

(** Rolling one key back. *)
Lemma x_rollback_one acq acq' sts0 sts rs key :
  winv K sts0 → whold rs sts → undecided acq sts0 sts → K key → small_op (rollback_req (view tx) key) →
  st_get (st_of sts0 key) CfLock key = None → acq ⊆ key :: acq' →
  ∃ rs' sts', in_region region_of key (resolve_rollback key start) rs = (rs', Ok tt) ∧ whold rs' sts' ∧
    undecided acq' sts0 sts' ∧ st_get (st_of sts' key) CfLock key = None.
Proof.
  intros Hi0 Hh Hu HKk Hsm Hfree Hsub. destruct (u_lock _ _ _ Hu key) as [Hn|(_ & Hin & m & Hm & Ek & Hl)].
  - rewrite Hfree in Hn. destruct (resolve_none region_of rs sts key start RRollback Hh Hn Hsm) as (e' & Es & Hh').
    eexists _, sts. split_and!; [apply in_region_run; em_simpl; by rewrite Es|done| |done].
    destruct Hu as [Hs Hl]. constructor; [done|]. intros k. destruct (Hl k) as [?|(? & Hin & ?)]; [by left|].
    apply Hsub, elem_of_cons in Hin as [->|]; [left; congruence|right; eauto].
  - destruct (resolve_ours K region_of rs sts key start RRollback _ Hh Hl) as (e' & seq & Es & Hh' & Hw); [done|done|done|].
    set (sts' := <[region_of key := _]> sts) in *.
    assert (Hk : st_get (st_of sts' key) CfLock key = None).
    { unfold sts', store_of. rewrite fn_lookup_insert, rollback_effect, !st_get_set.
      rewrite decide_False by (by intros [? _]). by rewrite decide_True. }
    eexists _, sts'. split_and!; [apply in_region_run; em_simpl; by rewrite Es|done| |done].
    eapply undecided_step; [done|done|exact Hw|done|done|]. cbn. left. congruence.
Qed.

(** The prewrites, whatever their outcome. *)
Lemma x_prewrite_loop_any ms acq sts0 sts rs :
  winv K sts0 → whold rs sts → undecided acq sts0 sts → Forall (.∈ muts) ms →
  Forall (λ k, st_get (st_of sts0 k) CfLock k = None) acq → acq ⊆ mu_key <$> muts →
  ∃ rs' sts' acq' r, x_prewrite_loop region_of tx ttl ms acq rs = (rs', (acq', r)) ∧ whold rs' sts' ∧
    undecided acq' sts0 sts' ∧ Forall (λ k, st_get (st_of sts0 k) CfLock k = None) acq' ∧ acq' ⊆ mu_key <$> muts.
Proof.
  intros Hi0 Hh Hu Hms. revert acq rs sts Hh Hu. induction Hms as [|m ms Hin Hms IH]; intros acq rs sts Hh Hu Hfr Hsub.
  { exists rs, sts, acq, (Ok tt). auto. }
  pose proof (undecided_inv _ _ _ Hi0 Hu) as Hi. cbn [x_prewrite_loop].
  destruct (x_prewrite_one K HK region_of tx ttl cts Hsz HKs rs sts m Hh Hi Hin)
    as (rs1 & r & -> & [(seq & sts1 & -> & Hh1 & Hs1 & [Hf _] & Hp1)|(msg & -> & Hh1 & _)]).
  2:{ exists rs1, sts, acq, (Err (Conflict msg)). auto. }
  assert (Hf0 : st_get (st_of sts0 (mu_key m)) CfLock (mu_key m) = None).
  { destruct (u_lock _ _ _ Hu (mu_key m)) as [Hs|(? & _)]; [by rewrite <- Hs|done]. }
  apply (IH (acq ++ [mu_key m]) rs1 sts1); [done| | |].
  - eapply undecided_step; [done|done|exact Hs1|done| |].
    + intros k Hk. right. apply elem_of_app. by left.
    + right. split_and!; [done|apply elem_of_app; right; left|]. exists m. split_and!; [done|done|apply Hp1].
  - apply Forall_app. split; [done|by constructor].
  - intros k [?|Hk%list_elem_of_singleton]%elem_of_app; [auto|]. subst. by apply list_elem_of_fmap_2.
Qed.

(** The rollback of the acquired locks restores the locks. *)
Lemma x_rollback_ok acq sts0 sts rs :
  winv K sts0 → whold rs sts → undecided acq sts0 sts →
  Forall (λ k, st_get (st_of sts0 k) CfLock k = None) acq → acq ⊆ mu_key <$> muts →
  ∃ sts', whold (x_rollback region_of start acq rs) sts' ∧ undecided [] sts0 sts'.
Proof.
  intros Hi0. revert rs sts. induction acq as [|k acq IH]; intros rs sts Hh Hu Hfr Hsub; [by exists sts|].
  apply Forall_cons in Hfr as [Hk Hfr]. cbn [x_rollback].
  assert (Hin : k ∈ mu_key <$> muts) by (apply Hsub; left).
  destruct (x_rollback_one (k :: acq) acq sts0 sts rs k Hi0 Hh Hu) as (rs1 & sts1 & E1 & Hh1 & Hu1 & _).
  - apply list_elem_of_fmap in Hin as (m & -> & Hm). by apply (key_of K tx HKs).
  - by apply (ts_rollback _ _ _ Hsz).
  - done.
  - done.
  - rewrite E1. apply (IH rs1 sts1); [done|done|done|]. intros x Hx. apply Hsub. by right.
Qed.

(** ** Readers *)

(** The stores before the transaction, its primary neither locked nor committed. *)
Context (rs0 : N → E) (sts0 : N → Store) (Hh0 : whold rs0 sts0) (Hi0 : winv K sts0).
Context (Hunlocked : st_get (st_of sts0 (x_primary tx)) CfLock (x_primary tx) = None).
Context (Hfresh : ∀ c, ~ committed (st_of sts0 (x_primary tx)) (x_primary tx) start c).
(** The commit lookup has fuel for every record of the primary's region. *)
Context (recs : list bytes) (Hrecs : ∀ k, is_Some (st_of sts0 (x_primary tx) CfWrite k) → k ∈ recs).
Context (fuel : nat) (Hfuel : (length recs < fuel)%nat).

Lemma status_unlocked acq sts rs :
  whold rs sts → undecided acq sts0 sts →
  write_status fuel (x_primary tx) start (engine region_of rs (x_primary tx)) = Ok RolledBack.
Proof.
  intros Hh Hu. pose proof (undecided_inv _ _ _ Hi0 Hu) as Hi.
  destruct (find_commit_loop_spec (engine region_of rs (x_primary tx)) (st_of sts (x_primary tx)) (x_primary tx) start recs
    (Hh _)) with (fuel := fuel) (s := encode_data_key (x_primary tx) u64_max) as (o & Eo & Ho).
  - apply (txn_inv_separated K HK); [apply Hi|done].
  - intros k. rewrite (undecided_writes acq sts0 sts) by done. apply Hrecs.
  - by apply max_le_version.
  - eapply Nat.le_lt_trans; [apply length_filter|done].
  - unfold write_status, find_commit_ts. rewrite Eo. cbn. destruct o as [c|]; [|done].
    destruct Ho as [(Hc & b & Hb & Hd) _]. destruct (Hfresh c). split; [done|]. exists b.
    by rewrite <- (undecided_writes acq sts0 sts).
Qed.

(** The primary's region: rolled back, unless its lock has not expired. *)
Lemma status_undecided acq sts rs ts :
  whold rs sts → undecided acq sts0 sts →
  ∃ rs' sts' s, in_region region_of (x_primary tx) (check_txn_status fuel (x_primary tx) start ts) rs = (rs', Ok s) ∧
    whold rs' sts' ∧ undecided acq sts0 sts' ∧ (s = RolledBack ∨ s = Locked ttl ∧ ts ≤ ttl).
Proof.
  intros Hh Hu. set (e := engine region_of rs (x_primary tx)).
  assert (He : holds e (st_of sts (x_primary tx))) by apply Hh.
  destruct (u_lock _ _ _ Hu (x_primary tx)) as [Hn|(_ & Hin & m & Hm & Ek & Hl)].
  - rewrite Hunlocked in Hn. exists (<[region_of (x_primary tx) := e]> rs), sts, RolledBack.
    split_and!; [|by apply whold_same|done|by left]. apply in_region_run. unfold check_txn_status, primary_lock. em_simpl.
    rewrite (holds_get e _ CfLock _ He), Hn. cbn [mbind result_mbind]. by rewrite (status_unlocked acq sts).
  - assert (Hpl : primary_lock (x_primary tx) e = Ok (Some (our_lock m))).
    { unfold primary_lock. rewrite (holds_get e _ CfLock _ He). unfold lock_of in Hl.
      destruct (st_get (st_of sts (x_primary tx)) CfLock (x_primary tx)) as [b|]; [|done]. cbn in *. by rewrite Hl. }
    assert (Hck : check_txn_status fuel (x_primary tx) start ts e
      = if ttl <? ts then (_ ← roll_back (x_primary tx) start; mret RolledBack : EM E TxnStatus) e else (e, Ok (Locked ttl))).
    { unfold check_txn_status. cbv [em_read mbind em_bind]. rewrite Hpl. change (lock_start_ts (our_lock m)) with start.
      rewrite N.eqb_refl. change (lock_ttl _) with ttl. by destruct (ttl <? ts). }
    destruct (N.ltb_spec ttl ts) as [Hlt|Hge].
    + destruct (x_rollback_one acq acq sts0 sts rs (x_primary tx) Hi0 Hh Hu HKp Hsmp Hunlocked)
        as (rs' & sts' & E1 & Hh' & Hu' & _); [by intros x Hx; right|].
      exists rs', sts', RolledBack. split_and!; [|done|done|by left]. unfold in_region in *. fold e in E1 |- *.
      rewrite Hck. unfold roll_back. cbv [mbind em_bind mret em_ret]. destruct (resolve_rollback _ _ e) as [e1 r1].
      apply pair_equal_spec in E1 as [<- ->]. done.
    + exists (<[region_of (x_primary tx) := e]> rs), sts, (Locked ttl).
      split_and!; [by apply in_region_run|by apply whold_same|done|by right].
Qed.

(** The loop: the key ends unlocked, or the reader's snapshot is older than the
    transaction, or the primary's lock is alive. *)
Lemma cross_resolve_undecided acq sts rs key ts n :
  whold rs sts → undecided acq sts0 sts → K key → small_op (rollback_req (view tx) key) →
  st_get (st_of sts0 key) CfLock key = None →
  ∃ rs' sts' r, cross_resolve region_of (S n) fuel key ts rs = (rs', r) ∧ whold rs' sts' ∧ undecided acq sts0 sts' ∧
    (r = Ok tt ∧ (st_get (st_of sts' key) CfLock key = None ∨
       ∃ l, lock_of (st_of sts' key) key = Some l ∧ ts < lock_start_ts l) ∨
     r = Err (KeyIsLocked "key awaits primary") ∧ start ≤ ts ≤ ttl).
Proof.
  intros Hh Hu HKk Hsm Hfree. destruct (u_lock _ _ _ Hu key) as [Hn|(_ & Hin & m & Hm & Ek & Hl)].
  { rewrite Hfree in Hn. exists rs, sts, (Ok tt). split_and!; [|done|done|auto].
    by apply (cross_resolve_unlocked region_of _ _ _ _ _ sts). }
  destruct (N.ltb_spec ts start) as [Hlt|Hge].
  { exists rs, sts, (Ok tt). split_and!; [|done|done|left; split; [done|right; by eexists]].
    by apply (cross_resolve_later region_of _ _ _ _ _ sts (our_lock m)). }
  cbn [cross_resolve]. em_simpl. destruct (lock_seen region_of rs sts _ _ Hh Hl) as (b & -> & Hdec).
  rewrite Hdec. cbn [ok_or]. change (lock_start_ts (our_lock m)) with start. change (lock_primary (our_lock m)) with (x_primary tx).
  rewrite (proj2 (N.ltb_ge _ _) Hge).
  destruct (status_undecided acq sts rs ts Hh Hu) as (rs1 & sts1 & s & -> & Hh1 & Hu1 & [->|[-> Hle]]).
  - destruct (x_rollback_one acq acq sts0 sts1 rs1 key Hi0 Hh1 Hu1 HKk Hsm Hfree)
      as (rs2 & sts2 & E2 & Hh2 & Hu2 & Hl2); [by intros x Hx; right|].
    revert E2. em_simpl. intros ->. exists rs2, sts2, (Ok tt). split_and!; [|done|done|auto].
    by apply (cross_resolve_unlocked region_of _ _ _ _ _ sts2).
  - exists rs1, sts1. eexists. split_and!; [done|done|done|right; done].
Qed.

(** A read of a key of a transaction that did not reach its commit point. *)
Lemma cross_get_undecided acq sts rs key ts :
  whold rs sts → undecided acq sts0 sts → K key → small_op (rollback_req (view tx) key) →
  st_get (st_of sts0 key) CfLock key = None → is_u64 ts →
  ∃ rs' sts' r, cross_get region_of fuel key ts rs = (rs', r) ∧ whold rs' sts' ∧ undecided acq sts0 sts' ∧
    (r = read_committed key ts (engine region_of rs0 key) ∨
     r = Err (KeyIsLocked "key awaits primary") ∧ start ≤ ts ≤ ttl).
Proof.
  intros Hh Hu HKk Hsm Hfree Hts.
  destruct (cross_resolve_undecided acq sts rs key ts 7 Hh Hu HKk Hsm Hfree)
    as (rs' & sts' & r & Er & Hh' & Hu' & [[-> Hl]|[-> Hle]]); unfold cross_get; em_simpl; rewrite Er.
  - exists rs', sts'. eexists. split_and!; [done|done|done|left].
    rewrite (read_unresolved region_of rs' sts' key ts Hh' Hl).
    pose proof (undecided_inv _ _ _ Hi0 Hu') as Hi'. destruct Hu' as [(ops & Hs & Hno) _].
    apply (read_engine K HK region_of rs' sts'); [done|done|done|done|].
    eapply (wsteps_snapshot K HK); [exact Hi0|done|done|exact Hs| |by apply (engine_snapshot K HK region_of rs0 sts0)].
    eapply list.Forall_impl; [exact Hno|]. intros op. apply no_commit_above.
  - exists rs', sts'. eexists. split_and!; [done|done|done|by right].
Qed.
End abort.

(** * Theorems

    Transactions across regions: correctness statements, and a two-region transaction at
    which they apply. *)

(** What happens after the commit point: the coordinator finalizes its first [n]
    mutations, and readers read, in any order and any number of times. *)
Inductive xevent :=
  | XFinalize (n : nat)
  | XRead (key : bytes) (ts : N).

Section theorems.
Context (K : bytes → Prop) (HK : ∀ a b, K a → K b → a = b ∨ apart a b) (region_of : bytes → N).
Context {E : Type} `{EngineLaws E}.

Definition x_event (fuel : nat) (tx : CrossTxn) (cts : N) (rs : N → E) (ev : xevent) : N → E :=
  match ev with
  | XFinalize n => (x_finalize_loop region_of tx cts (take n (x_mutations tx)) rs).1
  | XRead key ts => (cross_get region_of fuel key ts rs).1
  end.

Definition x_run (fuel : nat) (tx : CrossTxn) (cts : N) : list xevent → (N → E) → (N → E) :=
  λ evs rs, fold_left (x_event fuel tx cts) evs rs.

(** Reads are of keys of the transaction. *)
Definition x_reads (muts : list Mutation) (ev : xevent) : Prop :=
  match ev with XFinalize _ => True | XRead key ts => key ∈ mu_key <$> muts ∧ is_u64 ts end.

Lemma take_muts {A} n (l : list A) : Forall (.∈ l) (take n l).
Proof. apply list.Forall_forall. intros x. apply subseteq_take. Qed.

Lemma x_run_decided fuel tx ttl cts evs (rs0 rs : N → E) sts0 sts :
  txn_sized (view tx) ttl cts → Forall (λ m, K (mu_key m)) (x_mutations tx) →
  whold rs0 sts0 → winv K sts0 → NoDup (mu_key <$> x_mutations tx) → (0 < fuel)%nat →
  whold rs sts → decided K region_of tx ttl cts sts0 sts → Forall (x_reads (x_mutations tx)) evs →
  ∃ sts', whold (x_run fuel tx cts evs rs) sts' ∧ decided K region_of tx ttl cts sts0 sts'.
Proof.
  intros Hsz HKs Hh0 Hi0 Hnd Hf. revert rs sts.
  induction evs as [|ev evs IH]; intros rs sts Hh Hd Hev; [by exists sts|].
  apply Forall_cons in Hev as [He Hev]. cbn [x_run fold_left]. destruct ev as [n|key ts]; cbn [x_event].
  - destruct (finalize_decided K HK region_of tx ttl cts Hsz HKs sts0 sts rs (take n (x_mutations tx)))
      as (rs' & sts' & -> & Hh' & Hd'); [done|done|done|done|apply take_muts|]. by apply (IH rs' sts').
  - destruct He as [(m & -> & Hin)%list_elem_of_fmap Hts].
    destruct (cross_get_decided K HK region_of tx ttl cts Hsz HKs rs0 sts0 sts rs fuel m ts) as (rs' & sts' & -> & Hh' & Hd');
      [done..|]. by apply (IH rs' sts').
Qed.

(** The primary is the first iteration of the loop. *)
Lemma x_prewrite_eq tx ttl first rest (rs : N → E) :
  x_mutations tx = first :: rest → x_primary tx = mu_key first →
  x_prewrite region_of tx ttl rs =
    let '(rs, (acquired, result)) := x_prewrite_loop region_of tx ttl (first :: rest) [] rs in
    match result with
    | Ok _ => (rs, Ok tt)
    | Err err => (x_rollback region_of (x_start_ts tx) acquired rs, Err err)
    end.
Proof.
  intros Em Ep. unfold x_prewrite. rewrite Em. cbn [x_prewrite_loop]. rewrite <- !Ep.
  by destruct (in_region _ _ _ rs) as [rs1 [|]].
Qed.

Lemma cross_new start_ts muts tx :
  CrossTxn_new start_ts muts = Ok tx →
  ∃ first rest, muts = first :: rest ∧ tx = mkCrossTxn start_ts (mu_key first) (first :: rest).
Proof. destruct muts as [|first rest]; [done|]. intros [= <-]. by exists first, rest. Qed.

(** C5. A transaction over several regions is atomic: committing the primary commits it
    all.  From then on every read of one of its keys at or after the commit timestamp
    returns the mutation, and every read before it what was there before, in whichever
    regions the keys live, however far the coordinator gets with its secondaries before it
    stops, and whatever reads came first; other keys read as before. *)
Theorem cross_region_commit_atomic (rs0 : N → E) sts0 start_ts muts tx ttl cts :
  CrossTxn_new start_ts muts = Ok tx → whold rs0 sts0 → winv K sts0 → txn_sized (view tx) ttl cts →
  Forall (λ m, K (mu_key m)) muts → NoDup (mu_key <$> muts) →
  Forall (λ m, free (view tx) (store_of region_of sts0 (mu_key m)) m) muts →
  ∃ rs1 rs2, x_prewrite region_of tx ttl rs0 = (rs1, Ok tt) ∧ x_commit_primary region_of tx cts rs1 = (rs2, Ok tt) ∧
    ∀ fuel evs, (0 < fuel)%nat → Forall (x_reads muts) evs →
      x_commit region_of tx cts rs1 = (x_run fuel tx cts [XFinalize (length muts)] rs2, Ok tt) ∧
      (∀ m ts, m ∈ muts → is_u64 ts →
        (cross_get region_of fuel (mu_key m) ts (x_run fuel tx cts evs rs2)).2
        = if cts <=? ts then Ok (Value_into_option (mu_value m))
          else read_committed (mu_key m) ts (engine region_of rs0 (mu_key m))) ∧
      (∀ key ts, K key → is_u64 ts → key ∉ mu_key <$> muts →
        read_committed key ts (engine region_of (x_run fuel tx cts evs rs2) key)
        = read_committed key ts (engine region_of rs0 key)).
Proof.
  intros (first & rest & -> & ->)%cross_new Hh0 Hi0 Hsz HKs Hnd Hfree.
  set (tx := mkCrossTxn start_ts (mu_key first) (first :: rest)) in *.
  destruct (x_prewrite_loop_ok K HK region_of tx ttl cts Hsz HKs (first :: rest) [] rs0 sts0 Hh0 Hi0)
    as (rs1 & sts1 & E1 & Hh1 & Hs1 & Hp1); [by apply list.Forall_forall|done|done|].
  pose proof (wsteps_inv K HK region_of _ _ _ Hi0 Hs1) as Hi1.
  destruct (x_commit_primary_ok K HK region_of tx ttl cts Hsz HKs sts0 sts1 rs1 first rest)
    as (rs2 & sts2 & E2 & Hh2 & Hd2); [done..|].
  exists rs1, rs2. split_and!; [by rewrite (x_prewrite_eq tx ttl first rest), E1|done|].
  intros fuel evs Hf Hev. split_and!.
  - destruct (finalize_decided K HK region_of tx ttl cts Hsz HKs sts0 sts2 rs2 (first :: rest))
      as (rs3 & sts3 & E3 & _); [done|done|done|done|by apply list.Forall_forall|].
    unfold x_commit. cbv [mbind em_bind]. rewrite E2. unfold x_run. cbn [fold_left x_event]. rewrite firstn_all.
    change (x_finalize_secondaries region_of tx cts rs2) with (x_finalize_loop region_of tx cts (first :: rest) rs2).
    change (x_mutations tx) with (first :: rest). by rewrite E3.
  - intros m ts Hin Hts.
    destruct (x_run_decided fuel tx ttl cts evs rs0 rs2 sts0 sts2) as (sts3 & Hh3 & Hd3); [done..|].
    destruct (cross_get_decided K HK region_of tx ttl cts Hsz HKs rs0 sts0 sts3 (x_run fuel tx cts evs rs2) fuel m ts)
      as (rs' & sts' & -> & _); done.
  - intros key ts HKk Hts Hn.
    destruct (x_run_decided fuel tx ttl cts evs rs0 rs2 sts0 sts2) as (sts3 & Hh3 & Hd3); [done..|].
    pose proof (decided_inv K HK region_of tx ttl cts _ _ Hi0 Hd3) as Hi3. destruct Hd3 as [(ops & Hs & Hof) _ _].
    apply (read_engine K HK region_of _ sts3); [done|done|done|done|].
    eapply (wsteps_snapshot K HK); [exact Hi0|done|done|exact Hs| |by apply (engine_snapshot K HK region_of rs0 sts0)].
    eapply list.Forall_impl; [exact Hof|]. intros op Ho. by eapply of_txn_above; [|right].
Qed.

(** ** Transactions that do not commit *)

Section aborted.
Context (rs0 : N → E) (sts0 : N → Store) (start_ts : N) (first : Mutation) (rest : list Mutation) (ttl cts : N).
Abbreviation tx := (mkCrossTxn start_ts (mu_key first) (first :: rest)).
Context (Hh0 : whold rs0 sts0) (Hi0 : winv K sts0) (Hsz : txn_sized (view tx) ttl cts).
Context (HKs : Forall (λ m, K (mu_key m)) (first :: rest)).

Lemma small_rollback m : m ∈ first :: rest → small_op (rollback_req (view tx) (mu_key m)).
Proof. intros Hin. apply (ts_rollback _ _ _ Hsz). by apply list_elem_of_fmap_2. Qed.

(** A refused prewrite. *)
Lemma refused_prewrite rs' err :
  x_prewrite region_of tx ttl rs0 = (rs', Err err) →
  ∃ sts', whold rs' sts' ∧ undecided K region_of tx ttl [] sts0 sts'.
Proof.
  intros Hp. rewrite (x_prewrite_eq tx ttl first rest) in Hp by done.
  destruct (x_prewrite_loop_any K HK region_of tx ttl cts Hsz HKs (first :: rest) [] sts0 sts0 rs0)
    as (rs1 & sts1 & acq & r & E1 & Hh1 & Hu1 & Hf1 & Hsub); [done|done|apply undecided_start|by apply list.Forall_forall|done| |].
  { intros k Hk%elem_of_nil. done. }
  rewrite E1 in Hp. destruct r as [|err']; [done|]. apply pair_equal_spec in Hp as [<- _].
  by apply (x_rollback_ok K HK region_of tx ttl cts Hsz HKs acq sts0 sts1 rs1).
Qed.

Lemma undecided_reads rs sts acq key ts :
  whold rs sts → undecided K region_of tx ttl acq sts0 sts → K key → is_u64 ts →
  read_committed key ts (engine region_of rs key) = read_committed key ts (engine region_of rs0 key).
Proof.
  intros Hh Hu HKk Hts. pose proof (undecided_inv K HK region_of tx ttl _ _ _ Hi0 Hu) as Hi.
  destruct Hu as [(ops & Hs & Hno) _]. apply (read_engine K HK region_of _ sts); [done|done|done|done|].
  eapply (wsteps_snapshot K HK); [exact Hi0|done|done|exact Hs| |by apply (engine_snapshot K HK region_of rs0 sts0)].
  eapply list.Forall_impl; [exact Hno|]. intros op. apply no_commit_above.
Qed.

Context (Hunlocked : ∀ m, m ∈ first :: rest → st_get (store_of region_of sts0 (mu_key m)) CfLock (mu_key m) = None).
Context (Hfresh : ∀ c, ~ committed (store_of region_of sts0 (mu_key first)) (mu_key first) start_ts c).
Context (recs : list bytes) (Hrecs : ∀ k, is_Some (store_of region_of sts0 (mu_key first) CfWrite k) → k ∈ recs).
Context (fuel : nat) (Hfuel : (length recs < fuel)%nat).

(** One read of a key of the transaction. *)
Lemma aborted_read acq sts rs m ts :
  whold rs sts → undecided K region_of tx ttl acq sts0 sts → m ∈ first :: rest → is_u64 ts →
  ∃ rs' sts' r, cross_get region_of fuel (mu_key m) ts rs = (rs', r) ∧ whold rs' sts' ∧
    undecided K region_of tx ttl acq sts0 sts' ∧
    (r = read_committed (mu_key m) ts (engine region_of rs0 (mu_key m)) ∨
     r = Err (KeyIsLocked "key awaits primary") ∧ start_ts ≤ ts ≤ ttl).
Proof.
  intros Hh Hu Hin Hts. assert (Hf : first ∈ first :: rest) by left.
  apply (cross_get_undecided K HK region_of tx ttl (key_of K tx HKs first Hf) (small_rollback first Hf)
    rs0 sts0 Hh0 Hi0 (Hunlocked first Hf) Hfresh recs Hrecs fuel Hfuel acq sts rs (mu_key m) ts);
    [done|done|by apply (key_of K tx HKs)|by apply small_rollback|by apply Hunlocked|done].
Qed.

Lemma aborted_run acq reads sts rs :
  whold rs sts → undecided K region_of tx ttl acq sts0 sts →
  Forall (λ r : bytes * N, x_reads (first :: rest) (XRead r.1 r.2)) reads →
  ∃ sts', whold (x_run fuel tx cts (uncurry XRead <$> reads) rs) sts' ∧ undecided K region_of tx ttl acq sts0 sts'.
Proof.
  intros Hh Hu Hr. revert rs sts Hh Hu. induction Hr as [|[key ts] reads [Hk Hts] _ IH]; intros rs sts Hh Hu; [by exists sts|].
  cbn [fst snd] in *. apply list_elem_of_fmap in Hk as (m & -> & Hin).
  destruct (aborted_read acq sts rs m ts Hh Hu Hin Hts) as (rs' & sts' & r & E1 & Hh' & Hu' & _).
  unfold x_run. cbn [fmap list_fmap uncurry fold_left x_event]. rewrite E1. by apply (IH rs' sts').
Qed.
End aborted.

(** C6. A transaction over several regions that does not reach its commit point is
    invisible.  When its prewrite is refused, every lock and every read is as before.  When
    the coordinator stops after any number of prewrites, a read of one of its keys returns
    what was there before, or is told to wait while the primary's lock has not expired;
    this is so whatever reads came first. *)
Theorem cross_region_abort_invisible (rs0 : N → E) sts0 start_ts muts tx ttl cts :
  CrossTxn_new start_ts muts = Ok tx → whold rs0 sts0 → winv K sts0 → txn_sized (view tx) ttl cts →
  Forall (λ m, K (mu_key m)) muts →
  (∀ rs' err, x_prewrite region_of tx ttl rs0 = (rs', Err err) →
    ∃ sts', whold rs' sts' ∧
      (∀ key, st_get (store_of region_of sts' key) CfLock key = st_get (store_of region_of sts0 key) CfLock key) ∧
      ∀ key ts, K key → is_u64 ts →
        read_committed key ts (engine region_of rs' key) = read_committed key ts (engine region_of rs0 key)) ∧
  ((∀ m, m ∈ muts → st_get (store_of region_of sts0 (mu_key m)) CfLock (mu_key m) = None) →
   (∀ c, ~ committed (store_of region_of sts0 (x_primary tx)) (x_primary tx) start_ts c) →
   ∃ fuel0, ∀ n fuel reads m ts, (fuel0 ≤ fuel)%nat →
     Forall (λ r, x_reads muts (XRead r.1 r.2)) reads → m ∈ muts → is_u64 ts →
     let rs1 := (x_prewrite_loop region_of tx ttl (take n muts) [] rs0).1 in
     let r := (cross_get region_of fuel (mu_key m) ts (x_run fuel tx cts (uncurry XRead <$> reads) rs1)).2 in
     r = read_committed (mu_key m) ts (engine region_of rs0 (mu_key m)) ∨
     r = Err (KeyIsLocked "key awaits primary") ∧ start_ts ≤ ts ≤ ttl).
Proof.
  intros (first & rest & -> & ->)%cross_new Hh0 Hi0 Hsz HKs. split.
  - intros rs' err Hp.
    destruct (refused_prewrite rs0 sts0 start_ts first rest ttl cts Hh0 Hi0 Hsz HKs rs' err Hp) as (sts' & Hh' & Hu').
    exists sts'. split_and!; [done| |].
    + intros key. destruct (u_lock _ _ _ _ _ _ _ Hu' key) as [?|(_ & Hin & _)]; [done|]. by apply elem_of_nil in Hin.
    + intros key ts HKk Hts. by eapply (undecided_reads rs0 sts0).
  - intros Hun Hfresh. cbn [x_primary] in Hfresh.
    destruct (holds_finite (rs0 (region_of (mu_key first))) _ CfWrite (Hh0 _)) as [recs Hrecs].
    exists (S (length recs)). intros n fuel reads m ts Hf Hr Hin Hts rs1 r.
    destruct (x_prewrite_loop_any K HK region_of (mkCrossTxn start_ts (mu_key first) (first :: rest)) ttl cts Hsz HKs
      (take n (first :: rest)) [] sts0 sts0 rs0) as (rs' & sts' & acq & res & E1 & Hh1 & Hu1 & _);
      [done|done|apply undecided_start|apply take_muts|done| |].
    { intros k Hk%elem_of_nil. done. }
    unfold r, rs1. rewrite E1. cbn [fst].
    destruct (aborted_run rs0 sts0 start_ts first rest ttl cts Hh0 Hi0 Hsz HKs Hun Hfresh recs Hrecs fuel Hf acq reads sts' rs'
      Hh1 Hu1 Hr) as (sts2 & Hh2 & Hu2).
    destruct (aborted_read rs0 sts0 start_ts first rest ttl cts Hh0 Hi0 Hsz HKs Hun Hfresh recs Hrecs fuel Hf acq sts2 _ m ts
      Hh2 Hu2 Hin Hts) as (rs3 & sts3 & r3 & -> & _ & _ & Hor). done.
Qed.
End theorems.

(** * A transaction over two regions *)

Definition ex_region_of (key : bytes) : N := if bytes_leb [x62] key then 2 else 1.
Definition ex_regions : N → Core (gmap bytes MemValue) := λ _, ex_c0.
Definition ex_xtx : CrossTxn := mkCrossTxn 5 [x61] ex_muts.

Lemma ex_whold : whold ex_regions (λ _, empty_store).
Proof. intros r. apply ex_holds0. Qed.

(** The second key is read after a reader met its lock; at 6 it reads as before. *)
Lemma cross_region_commit_witness :
  ex_region_of [x61] ≠ ex_region_of [x62] ∧
  ∃ rs1 rs2, x_prewrite ex_region_of ex_xtx 100 ex_regions = (rs1, Ok tt) ∧
    x_commit_primary ex_region_of ex_xtx 7 rs1 = (rs2, Ok tt) ∧
    (cross_get ex_region_of 1 [x62] 9 (x_run ex_region_of 1 ex_xtx 7 [XRead [x62] 6; XFinalize 1] rs2)).2 = Ok None ∧
    (cross_get ex_region_of 1 [x61] 9 (x_run ex_region_of 1 ex_xtx 7 [XRead [x62] 6; XFinalize 1] rs2)).2 = Ok (Some [x31]).
Proof.
  split; [vm_compute; discriminate|].
  destruct (cross_region_commit_atomic ex_K ex_K_apart ex_region_of ex_regions (λ _, empty_store) 5 ex_muts ex_xtx 100 7)
    as (rs1 & rs2 & E1 & E2 & Hr).
  - reflexivity.
  - apply ex_whold.
  - intros r. apply txn_inv_empty.
  - apply ex_sized.
  - apply ex_keys.
  - apply ex_nodup.
  - repeat constructor.
  - exists rs1, rs2. split; [exact E1|]. split; [exact E2|].
    destruct (Hr 1%nat [XRead [x62] 6; XFinalize 1]) as (_ & Hg & _); [lia| |].
    { constructor; [|by constructor]. split; [right; left|]. vm_compute. discriminate. }
    split.
    + apply (Hg (Mutation_delete [x62]) 9); [right; left|]. vm_compute. discriminate.
    + apply (Hg (Mutation_put [x61] [x31]) 9); [left|]. vm_compute. discriminate.
Defined.

Lemma cross_region_abort_witness :
  ∃ fuel0, ∀ fuel, (fuel0 ≤ fuel)%nat →
    let r := (cross_get ex_region_of fuel [x62] 101
      (x_run ex_region_of fuel ex_xtx 7 [XRead [x62] 50] (x_prewrite_loop ex_region_of ex_xtx 100 ex_muts [] ex_regions).1)).2 in
    r = read_committed [x62] 101 ex_c0 ∨ r = Err (KeyIsLocked "key awaits primary") ∧ 5 ≤ 101 ≤ 100.
Proof.
  destruct (cross_region_abort_invisible ex_K ex_K_apart ex_region_of ex_regions (λ _, empty_store) 5 ex_muts ex_xtx 100 7)
    as [_ Hs].
  - reflexivity.
  - apply ex_whold.
  - intros r. apply txn_inv_empty.
  - apply ex_sized.
  - apply ex_keys.
  - destruct Hs as [fuel0 Hf]; [done|by intros c (_ & b & ? & _)|].
    exists fuel0. intros fuel Hle. apply (Hf 2%nat fuel [([x62], 50)] (Mutation_delete [x62]) 101); [done| |right; left|].
    + constructor; [|done]. split; [right; left|]. vm_compute. discriminate.
    + vm_compute. discriminate.
Defined.
