(* ===== verification/GroupActor.v ===== *)
(** The actor that drives a region's Raft node ([server/src/raft_group.rs]): commands from
    the node's handles, committed entries applied to the state machine, parked proposals
    and reads, snapshots.

    A oneshot channel is a ticket; what is sent on it is a reply of the turn.  A sender
    dropped without an answer is read by the waiting handle as its [unwrap_or] value
    ([propose], [read_index]), which is the reply recorded here.  Log output is left
    out. *)

From stdpp Require Import base list numbers strings gmap.
From Stdlib Require Import Strings.Byte.
From S2P Require Import Prelude Cursor RaftMessage RaftStorage RaftNode.

Definition COMPACT_THRESHOLD : N := 64.
(** [PROPOSAL_TIMEOUT], in milliseconds. *)
Definition PROPOSAL_TIMEOUT : N := 5000.

Inductive ProposeResult :=
  | Applied (r : Result unit)
  | NotLeading (leader_hint : option N)
  | Undetermined.

Inductive ReadResult :=
  | Ready
  | ReadElsewhere (leader_hint : option N).

(** [Cmd]; the ticket stands for the sender. *)
Inductive Cmd :=
  | GTick
  | GStep (m : Message)
  | GStepReply (m : Message) (tx : N)
  | GPropose (data : bytes) (tx : N)
  | GProposeConf (cc : ConfChange) (tx : N)
  | GReadIndex (tx : N)
  | GTransferLeader (target : N) (tx : N)
  | GStop.

Inductive Reply :=
  | RProposed (r : ProposeResult)
  | RRead (r : ReadResult)
  | RTransferred (accepted : bool)
  | RMessage (m : option Message).

Record PendingRead := mkPendingRead {
  pr_tx : N;
  pr_index : option N;
}.

Record Observable := mkObservable {
  o_role : Role;
  o_leader_id : option N;
  o_voters : list N;
  o_learners : list N;
  o_progress : btree (N * N);
}.

(** The actor's variables, and the state machine its closures act on. *)
Record Group (St E : Type) := mkGroup {
  g_node : RaftNode St;
  g_state : E;
  g_pending : btree (N * N);
  g_reads : btree PendingRead;
  g_next_read_ctx : N;
  g_was_leader : bool;
  g_obs : Observable;
}.
Arguments mkGroup {_ _}.
Arguments g_node {_ _} _.
Arguments g_state {_ _} _.
Arguments g_pending {_ _} _.
Arguments g_reads {_ _} _.
Arguments g_next_read_ctx {_ _} _.
Arguments g_was_leader {_ _} _.
Arguments g_obs {_ _} _.

#[export] Instance eta_group St E : Eta (Group St E) := λ g,
  mkGroup (g_node g) (g_state g) (g_pending g) (g_reads g) (g_next_read_ctx g) (g_was_leader g) (g_obs g).

Definition is_response (b : MessageBody) : bool :=
  match b with
  | RequestVoteResp _ | AppendEntriesResp _ _ _ | InstallSnapshotResp _ => true
  | _ => false
  end.

(** What a waiting handle reads when its sender is dropped. *)
Definition dropped_proposal (p : N * (N * N)) : N * Reply := (p.2.1, RProposed (NotLeading None)).
Definition dropped_read (p : N * PendingRead) : N * Reply := (pr_tx p.2, RRead (ReadElsewhere None)).

(** [pending.insert(index, (tx, 0))]: a sender parked there before is dropped. *)
Definition park (index tx : N) (pending : btree (N * N)) : btree (N * N) * list (N * Reply) :=
  (bt_insert index (tx, 0) pending,
   match bt_get index pending with Some old => [dropped_proposal (index, old)] | None => [] end).

Definition park_read (ctx tx : N) (reads : btree PendingRead) : btree PendingRead * list (N * Reply) :=
  (bt_insert ctx (mkPendingRead tx None) reads,
   match bt_get ctx reads with Some old => [dropped_read (ctx, old)] | None => [] end).

(** The outbound messages: the first response to the awaiting peer answers it. *)
Fixpoint route_messages (reply : option (N * N)) (ms : list Message) : list (N * Reply) * list Message :=
  match ms with
  | [] => (match reply with Some (_, tx) => [(tx, RMessage None)] | None => [] end, [])
  | m :: ms =>
    match reply with
    | Some (from, tx) =>
      if (m_to m =? from) && is_response (m_body m) then
        let '(rs, out) := route_messages None ms in ((tx, RMessage (Some m)) :: rs, out)
      else let '(rs, out) := route_messages reply ms in (rs, m :: out)
    | None => let '(rs, out) := route_messages None ms in (rs, m :: out)
    end
  end.

Section Actor.
Context {St E : Type} `{Storage St}.
(** The closures a group is started with, and the tick period in milliseconds. *)
Context (apply : bytes → E → E * Result unit) (snapshot : E → bytes) (restore : bytes → E → E) (tick_ms : N).
Implicit Types (g : Group St E) (n : RaftNode St).

(** [start]: the node over its storage, nothing parked. *)
Definition start (id : N) (voters : list N) (storage : St) (state : E) : Group St E :=
  mkGroup (RaftNode_new (Config_new id voters) storage) state [] [] 0 false (mkObservable Follower None [] [] []).

(** The [match] on the command: the actor, the replies, and the awaited response. *)
Definition act (c : Cmd) g : Group St E * list (N * Reply) * option (N * N) :=
  let n := g_node g in
  match c with
  | GTick => (g <| g_node := tick n |>, [], None)
  | GStep m => (g <| g_node := step m n |>, [], None)
  | GStepReply m tx => (g <| g_node := step m n |>, [], Some (m_from m, tx))
  | GReadIndex tx =>
    let ctx := g_next_read_ctx g + 1 in
    let g := g <| g_next_read_ctx := ctx |> in
    match read_index ctx n with
    | (inl _, n) => let '(reads, d) := park_read ctx tx (g_reads g) in (g <| g_node := n |> <| g_reads := reads |>, d, None)
    | (inr _, n) => (g <| g_node := n |>, [(tx, RRead (ReadElsewhere (n_leader_id n)))], None)
    end
  | GPropose data tx =>
    match propose data n with
    | (inl index, n) =>
      let '(pending, d) := park index tx (g_pending g) in (g <| g_node := n |> <| g_pending := pending |>, d, None)
    | (inr _, n) => (g <| g_node := n |>, [(tx, RProposed (NotLeading (n_leader_id n)))], None)
    end
  | GProposeConf cc tx =>
    match propose_conf_change cc n with
    | (inl index, n) =>
      let '(pending, d) := park index tx (g_pending g) in (g <| g_node := n |> <| g_pending := pending |>, d, None)
    | (inr _, n) => (g <| g_node := n |>, [(tx, RProposed (NotLeading (n_leader_id n)))], None)
    end
  | GTransferLeader target tx =>
    let '(res, n) := transfer_leadership target n in
    (g <| g_node := n |>, [(tx, RTransferred (match res with inl _ => true | inr _ => false end))], None)
  | GStop => (g, [], None)
  end.

(** A no-op in the first turn of a leadership. *)
Definition elect g : Group St E :=
  let g := if is_leader (g_node g) && negb (g_was_leader g)
           then g <| g_node := (propose [] (g_node g)).2 |> else g in
  g <| g_was_leader := is_leader (g_node g) |>.

Definition adopt_snapshot g : Group St E :=
  let '(snap, n) := take_snapshot (g_node g) in
  let g := g <| g_node := n |> in
  match snap with Some (_, data) => g <| g_state := restore data (g_state g) |> | None => g end.

(** One committed entry: applied, and its parked proposer answered. *)
Definition apply_entry (acc : Group St E * list (N * Reply)) (e : Entry) : Group St E * list (N * Reply) :=
  let '(g, out) := acc in
  let '(s, outcome) := if is_conf_change e then (g_state g, Ok tt) else apply (e_data e) (g_state g) in
  let g := g <| g_state := s |> in
  match bt_get (e_index e) (g_pending g) with
  | Some (tx, _) => (g <| g_pending := bt_remove (e_index e) (g_pending g) |>, out ++ [(tx, RProposed (Applied outcome))])
  | None => (g, out)
  end.

Definition apply_committed g : Group St E * list (N * Reply) :=
  let '(entries, n) := take_committed (g_node g) in
  fold_left apply_entry entries (g <| g_node := n |>, []).

(** [None]: [RaftNode::compact] panics. *)
Definition maybe_compact g : option (Group St E) :=
  let n := g_node g in
  if st_first_index (n_storage n) + COMPACT_THRESHOLD <=? n_last_applied n + 1 then
    n ← compact (n_last_applied n) (snapshot (g_state g)) n;
    Some (g <| g_node := n |>)
  else Some g.

(** [if let Some(read) = reads.get_mut(&ctx)]. *)
Definition confirm (reads : btree PendingRead) (r : N * N) : btree PendingRead :=
  match bt_get r.1 reads with
  | Some p => bt_insert r.1 (mkPendingRead (pr_tx p) (Some r.2)) reads
  | None => reads
  end.

(** Confirmed reads whose index is applied. *)
Definition read_done (applied : N) (p : N * PendingRead) : bool :=
  match pr_index p.2 with Some index => index <=? applied | None => false end.

Definition answer_reads g : Group St E * list (N * Reply) :=
  let '(states, n) := take_read_states (g_node g) in
  let reads := fold_left confirm states (g_reads g) in
  let applied := n_last_applied n in
  (g <| g_node := n |> <| g_reads := List.filter (λ p, negb (read_done applied p)) reads |>,
   (λ p, (pr_tx p.2, RRead Ready)) <$> List.filter (read_done applied) reads).

(** Leadership lost: what is parked is undetermined, reads go elsewhere. *)
Definition fail_parked g : Group St E * list (N * Reply) :=
  if is_leader (g_node g) then (g, []) else
  (g <| g_pending := [] |> <| g_reads := [] |>,
   ((λ p : N * (N * N), (p.2.1, RProposed Undetermined)) <$> g_pending g)
   ++ ((λ p : N * PendingRead, (pr_tx p.2, RRead (ReadElsewhere (n_leader_id (g_node g))))) <$> g_reads g)).

(** The deadline of parked proposals, counted in ticks. *)
Definition deadline_ticks : N := PROPOSAL_TIMEOUT / N.max tick_ms 1.

Definition expired (p : N * (N * N)) : bool := deadline_ticks <=? p.2.2.

Definition expire g : Group St E * list (N * Reply) :=
  let pending := (λ p : N * (N * N), (p.1, (p.2.1, p.2.2 + 1))) <$> g_pending g in
  (g <| g_pending := List.filter (λ p, negb (expired p)) pending |>,
   (λ p : N * (N * N), (p.2.1, RProposed Undetermined)) <$> List.filter expired pending).

Definition observe g : Group St E :=
  let n := g_node g in
  let progress :=
    if is_leader n then
      fold_left (λ m p, match progress p n with Some pr => bt_insert p pr m | None => m end)
        (n_voters n ++ n_learners n) []
    else [] in
  g <| g_obs := mkObservable (n_role n) (n_leader_id n) (n_voters n) (n_learners n) progress |>.

(** The actor is gone: everything parked is dropped. *)
Definition dropped g : list (N * Reply) := (dropped_proposal <$> g_pending g) ++ (dropped_read <$> g_reads g).

Definition is_tick (c : Cmd) : bool := match c with GTick => true | _ => false end.

(** The rest of a turn: the node's effects are drained and published. *)
Definition drain (ticked : bool) (reply : option (N * N)) g : list (N * Reply) * list Message * option (Group St E) :=
  let g := elect g in
  let '(ms, n) := take_messages (g_node g) in
  let '(routed, out) := route_messages reply ms in
  let g := adopt_snapshot (g <| g_node := n |>) in
  let '(g, answered) := apply_committed g in
  match maybe_compact g with
  | None => (routed ++ answered ++ dropped g, out, None)
  | Some g =>
    let '(g, read) := answer_reads g in
    let '(g, failed) := fail_parked g in
    let '(g, late) := if ticked then expire g else (g, []) in
    (routed ++ answered ++ read ++ failed ++ late, out, Some (observe g))
  end.

(** One turn: the replies, the messages for the sender, and the actor, gone after a
    [Stop] or a panic. *)
Definition turn (c : Cmd) g : list (N * Reply) * list Message * option (Group St E) :=
  match c with
  | GStop => (dropped g, [], None)
  | _ =>
    let '(g, now, reply) := act c g in
    let '(rs, out, g) := drain (is_tick c) reply g in
    (now ++ rs, out, g)
  end.

(** * Handles *)

Definition g_is_leader g : bool := bool_decide (o_role (g_obs g) = Leader).

Definition peer_caught_up (peer : N) g : bool :=
  match bt_get peer (o_progress (g_obs g)) with Some (matched, last) => last <=? matched | None => false end.

(** [campaign]: a [TimeoutNow] stepped at oneself. *)
Definition campaign (tx : N) g : Cmd := GStepReply (mkMessage (n_id (g_node g)) (n_id (g_node g)) 0 TimeoutNow) tx.

(** What the handles answer once the actor is gone. *)
Definition gone (c : Cmd) : list (N * Reply) :=
  match c with
  | GPropose _ tx | GProposeConf _ tx => [(tx, RProposed (NotLeading None))]
  | GReadIndex tx => [(tx, RRead (ReadElsewhere None))]
  | GTransferLeader _ tx => [(tx, RTransferred false)]
  | GStepReply _ tx => [(tx, RMessage None)]
  | GTick | GStep _ | GStop => []
  end.

(** The commands of the channel in order. *)
Fixpoint run_actor (cs : list Cmd) (og : option (Group St E)) : list (N * Reply) * list Message * option (Group St E) :=
  match cs with
  | [] => ([], [], og)
  | c :: cs =>
    let '(rs, out, og) := match og with Some g => turn c g | None => (gone c, [], None) end in
    let '(rs', out', og) := run_actor cs og in
    (rs ++ rs', out ++ out', og)
  end.
End Actor.
