(* ===== verification/GroupActorCorrect.v ===== *)
(** What the actor of a Raft group does with the requests it is given: every ticket is
    answered exactly once, parked proposals within the deadline. *)

From stdpp Require Import base list numbers strings gmap.
From Stdlib Require Import Strings.Byte.
From S2P Require Import Prelude Cursor RaftMessage RaftStorage RaftNode GroupActor.

(** * Tickets *)

Definition ptx (p : N * (N * N)) : N := p.2.1.
Definition rtx (p : N * PendingRead) : N := pr_tx p.2.

(** The tickets a command brings. *)
Definition new_tickets (c : Cmd) : list N :=
  match c with
  | GStepReply _ tx | GPropose _ tx | GProposeConf _ tx | GReadIndex tx | GTransferLeader _ tx => [tx]
  | GTick | GStep _ | GStop => []
  end.

Definition tickets {St E} (g : Group St E) : list N := (ptx <$> g_pending g) ++ (rtx <$> g_reads g).

Record group_ok {St E} (g : Group St E) : Prop := mkGroupOk {
  go_pending : bt_ok (g_pending g);
  go_reads : bt_ok (g_reads g);
}.

Lemma filter_split {A} (f : A → bool) l : l ≡ₚ List.filter (λ x, negb (f x)) l ++ List.filter f l.
Proof.
  induction l as [|x l IH]; [done|]. cbn. destruct (f x); cbn; [|by rewrite <- IH].
  rewrite <- Permutation_middle. by rewrite <- IH.
Qed.

Lemma park_tickets index tx pending :
  bt_ok pending →
  bt_ok (park index tx pending).1 ∧
  tx :: (ptx <$> pending) ≡ₚ (park index tx pending).2.*1 ++ (ptx <$> (park index tx pending).1).
Proof.
  intros Hok. unfold park. cbn [fst snd]. split; [by apply bt_insert_ok|]. rewrite bt_insert_perm by done. cbn.
  destruct (bt_get index pending) as [old|] eqn:Hg.
  - rewrite (bt_remove_perm index old pending) at 1 by done. cbn. apply Permutation_swap.
  - by rewrite bt_remove_absent.
Qed.

Lemma park_read_tickets ctx tx reads :
  bt_ok reads →
  bt_ok (park_read ctx tx reads).1 ∧
  tx :: (rtx <$> reads) ≡ₚ (park_read ctx tx reads).2.*1 ++ (rtx <$> (park_read ctx tx reads).1).
Proof.
  intros Hok. unfold park_read. cbn [fst snd]. split; [by apply bt_insert_ok|]. rewrite bt_insert_perm by done. cbn.
  destruct (bt_get ctx reads) as [old|] eqn:Hg.
  - rewrite (bt_remove_perm ctx old reads) at 1 by done. cbn. apply Permutation_swap.
  - by rewrite bt_remove_absent.
Qed.

Lemma route_tickets reply ms :
  (route_messages reply ms).1.*1 = match reply with Some (_, tx) => [tx] | None => [] end.
Proof.
  revert reply. induction ms as [|m ms IH]; intros [[from tx]|]; cbn [route_messages]; try done.
  - destruct (_ && _); [specialize (IH None)|specialize (IH (Some (from, tx)))];
      destruct (route_messages _ ms) as [rs out]; cbn in *; by rewrite IH.
  - specialize (IH None). by destruct (route_messages None ms) as [rs out].
Qed.

Lemma confirm_tickets reads r :
  bt_ok reads → bt_ok (confirm reads r) ∧ rtx <$> confirm reads r ≡ₚ rtx <$> reads.
Proof.
  intros Hok. unfold confirm. destruct (bt_get r.1 reads) as [p|] eqn:Hg; [|done]. split; [by apply bt_insert_ok|].
  rewrite bt_insert_perm by done. rewrite (bt_remove_perm r.1 p reads) at 2 by done. done.
Qed.

Lemma confirms_tickets states reads :
  bt_ok reads → bt_ok (fold_left confirm states reads) ∧ rtx <$> fold_left confirm states reads ≡ₚ rtx <$> reads.
Proof.
  revert reads. induction states as [|r states IH]; intros reads Hok; [done|]. cbn [fold_left].
  destruct (confirm_tickets reads r Hok) as [Hok' Hp]. destruct (IH _ Hok') as [? IHp]. split; [done|]. by rewrite IHp.
Qed.

Lemma dropped_fst {St E} (g : Group St E) : (dropped g).*1 = tickets g.
Proof.
  unfold dropped, tickets. rewrite fmap_app, <- !list_fmap_compose. done.
Qed.

Section Turn.
Context {St E : Type} `{Storage St}.
Context (apply : bytes → E → E * Result unit) (snapshot : E → bytes) (restore : bytes → E → E) (tick_ms : N).
Implicit Types (g : Group St E).
#[local] Abbreviation turn := (turn apply snapshot restore tick_ms).

(** One part of a turn keeps the tickets: those it had and those that arrive are those
    answered and those it still has. *)
Definition keeps (g : Group St E) (arrive : list N) (rs : list (N * Reply)) (g' : Group St E) : Prop :=
  group_ok g → group_ok g' ∧ tickets g ++ arrive ≡ₚ rs.*1 ++ tickets g'.

Lemma keeps_frame g g' : g_pending g' = g_pending g → g_reads g' = g_reads g → keeps g [] [] g'.
Proof.
  intros Hp Hr [? ?]. split; [split; congruence|]. unfold tickets. by rewrite Hp, Hr, app_nil_r.
Qed.

Lemma keeps_trans g1 g2 g3 arrive rs rs' : keeps g1 arrive rs g2 → keeps g2 [] rs' g3 → keeps g1 arrive (rs ++ rs') g3.
Proof.
  intros H1 H2 Hok. destruct (H1 Hok) as [Hok2 P1]. destruct (H2 Hok2) as [Hok3 P2]. split; [done|].
  rewrite app_nil_r in P2. rewrite P1, P2, fmap_app. by rewrite <- app_assoc.
Qed.

(** The awaited response is answered by the routing. *)
Lemma act_keeps c g g' rs reply :
  c ≠ GStop → act c g = (g', rs, reply) →
  ∃ arrive, new_tickets c ≡ₚ arrive ++ match reply with Some (_, tx) => [tx] | None => [] end ∧ keeps g arrive rs g'.
Proof.
  assert (Hpark : ∀ index tx n g, 
    keeps g [tx] (park index tx (g_pending g)).2 (g <| g_node := n |> <| g_pending := (park index tx (g_pending g)).1 |>)).
  { intros index tx n g0 [Hp Hr]. destruct (park_tickets index tx (g_pending g0) Hp) as [Hok Hperm].
    destruct (park index tx (g_pending g0)) as [p d]. cbn [fst snd] in *. split; [by split|].
    unfold tickets. cbn [g_pending g_reads set_field]. rewrite (Permutation_app_comm _ [tx]), app_assoc. cbn [app].
    rewrite app_comm_cons. etransitivity; [apply Permutation_app_tail; exact Hperm|]. by rewrite <- app_assoc. }
  intros Hns Ha. destruct c as [|m|m tx|data tx|cc tx|tx|target tx|]; cbn [act new_tickets] in *.
  - injection Ha as <- <- <-. exists []. split; [done|]. by apply keeps_frame.
  - injection Ha as <- <- <-. exists []. split; [done|]. by apply keeps_frame.
  - injection Ha as <- <- <-. exists []. split; [done|]. by apply keeps_frame.
  - destruct (propose data (g_node g)) as [[index|e] n].
    + specialize (Hpark index tx n g). destruct (park index tx (g_pending g)) as [p d].
      injection Ha as <- <- <-. exists [tx]. by split.
    + injection Ha as <- <- <-. exists [tx]. split; [done|]. intros [? ?]. split; [by split|]. by rewrite Permutation_app_comm.
  - destruct (propose_conf_change cc (g_node g)) as [[index|e] n].
    + specialize (Hpark index tx n g). destruct (park index tx (g_pending g)) as [p d].
      injection Ha as <- <- <-. exists [tx]. by split.
    + injection Ha as <- <- <-. exists [tx]. split; [done|]. intros [? ?]. split; [by split|]. by rewrite Permutation_app_comm.
  - destruct (read_index _ _) as [[[]|e] n].
    + destruct (park_read _ _ _) as [p d] eqn:Hpr. injection Ha as <- <- <-. exists [tx]. split; [done|]. intros [Hp Hr].
      destruct (park_read_tickets (g_next_read_ctx g + 1) tx (g_reads g) Hr) as [Hok Hperm].
      cbn [g_reads set_field] in Hpr. cbn in Hpr. rewrite Hpr in Hok, Hperm. cbn [fst snd] in *. split; [by split|].
      unfold tickets. cbn. rewrite <- app_assoc, (Permutation_app_comm (rtx <$> g_reads g)). cbn. rewrite Hperm.
      rewrite !app_assoc. f_equiv. apply Permutation_app_comm.
    + injection Ha as <- <- <-. exists [tx]. split; [done|]. intros [? ?]. split; [by split|]. by rewrite Permutation_app_comm.
  - destruct (transfer_leadership target (g_node g)) as [res n]. injection Ha as <- <- <-. exists [tx]. split; [done|].
    intros [? ?]. split; [by split|]. by rewrite Permutation_app_comm.
  - done.
Qed.

Lemma elect_keeps g : keeps g [] [] (elect g).
Proof. unfold elect. apply keeps_frame; by destruct (_ && _). Qed.

Lemma adopt_snapshot_keeps g : keeps g [] [] (adopt_snapshot restore g).
Proof.
  unfold adopt_snapshot. destruct (take_snapshot (g_node g)) as [[[i data]|] n]; by apply keeps_frame.
Qed.

Lemma apply_entry_keeps acc e :
  ∃ rs, (apply_entry apply acc e).2 = acc.2 ++ rs ∧ keeps acc.1 [] rs (apply_entry apply acc e).1.
Proof.
  destruct acc as [g out]. unfold apply_entry. destruct (if is_conf_change e then _ else _) as [s outcome].
  cbn [g_pending set_field]. cbn. destruct (bt_get (e_index e) (g_pending g)) as [[tx k]|] eqn:Hg; cbn.
  - exists [(tx, RProposed (Applied outcome))]. split; [done|]. intros [Hp Hr].
    split; [split; [by apply bt_remove_ok|done]|]. unfold tickets. cbn.
    rewrite (bt_remove_perm (e_index e) (tx, k) (g_pending g)) at 1 by done. by rewrite app_nil_r.
  - exists []. split; [by rewrite app_nil_r|]. by apply keeps_frame.
Qed.

Lemma apply_entries_keeps es acc :
  ∃ rs, (fold_left (apply_entry apply) es acc).2 = acc.2 ++ rs ∧
    keeps acc.1 [] rs (fold_left (apply_entry apply) es acc).1.
Proof.
  revert acc. induction es as [|e es IH]; intros acc; cbn [fold_left].
  { exists []. split; [by rewrite app_nil_r|]. by apply keeps_frame. }
  destruct (apply_entry_keeps acc e) as (rs & E1 & K1). destruct (IH (apply_entry apply acc e)) as (rs' & E2 & K2).
  exists (rs ++ rs'). split; [by rewrite E2, E1, <- app_assoc|]. by eapply keeps_trans.
Qed.

Lemma apply_committed_keeps g : keeps g [] (apply_committed apply g).2 (apply_committed apply g).1.
Proof.
  unfold apply_committed. destruct (take_committed (g_node g)) as [es n].
  destruct (apply_entries_keeps es (g <| g_node := n |>, [])) as (rs & E1 & K1). rewrite E1. cbn [app snd fst] in *.
  apply (keeps_trans g (g <| g_node := n |>) _ [] [] rs); [by apply keeps_frame|done].
Qed.

Lemma maybe_compact_frame g g' :
  maybe_compact snapshot g = Some g' → g_pending g' = g_pending g ∧ g_reads g' = g_reads g.
Proof.
  unfold maybe_compact. destruct (_ <=? _); [|by intros [= ->]].
  destruct (compact _ _ _); [|done]. by intros [= <-].
Qed.

Lemma answer_reads_keeps g : keeps g [] (answer_reads g).2 (answer_reads g).1.
Proof.
  unfold answer_reads, take_read_states. cbn [fst snd]. intros [Hp Hr].
  destruct (confirms_tickets (n_ready_reads (g_node g)) (g_reads g) Hr) as [Hok Hperm].
  split; [split; [done|by apply bt_filter_ok]|]. unfold tickets. cbn. rewrite app_nil_r, <- Hperm.
  rewrite (filter_split (read_done (n_last_applied (g_node g)))) at 1. rewrite <- list_fmap_compose, fmap_app.
  rewrite app_assoc. apply Permutation_app_comm.
Qed.

Lemma fail_parked_keeps g : keeps g [] (fail_parked g).2 (fail_parked g).1.
Proof.
  unfold fail_parked. destruct (is_leader (g_node g)); cbn [fst snd]; [by apply keeps_frame|]. intros _.
  split; [by split; constructor|]. unfold tickets. cbn. by rewrite !app_nil_r, fmap_app, <- !list_fmap_compose.
Qed.

Lemma expire_keeps g : keeps g [] (expire tick_ms g).2 (expire tick_ms g).1.
Proof.
  unfold expire. cbn [fst snd]. intros [Hp Hr].
  set (bumped := (λ p : N * (N * N), (p.1, (p.2.1, p.2.2 + 1))) <$> g_pending g).
  assert (Hb : bt_ok bumped).
  { unfold bt_ok, bt_keys, bumped. rewrite <- list_fmap_compose. exact Hp. }
  split; [split; [by apply bt_filter_ok|done]|]. unfold tickets. cbn.
  assert (Hbt : ptx <$> g_pending g = ptx <$> bumped) by (unfold bumped; by rewrite <- list_fmap_compose).
  rewrite app_nil_r, Hbt, (filter_split (expired tick_ms) bumped) at 1. rewrite <- list_fmap_compose, fmap_app.
  rewrite (Permutation_app_comm (ptx <$> _)). by rewrite <- app_assoc.
Qed.

Definition all_tickets (og : option (Group St E)) : list N := match og with Some g => tickets g | None => [] end.

Lemma drain_tickets ticked reply g rs out og :
  group_ok g → drain apply snapshot restore tick_ms ticked reply g = (rs, out, og) →
  (∀ g', og = Some g' → group_ok g') ∧
  tickets g ++ match reply with Some (_, tx) => [tx] | None => [] end ≡ₚ rs.*1 ++ all_tickets og.
Proof.
  intros Hok. unfold drain. pose proof (elect_keeps g) as K1. revert K1. generalize (elect g) as g1. intros g1 K1.
  destruct (take_messages (g_node g1)) as [ms n2]. pose proof (route_tickets reply ms) as Hrt.
  destruct (route_messages reply ms) as [routed out']. cbn [fst] in Hrt. pose proof (adopt_snapshot_keeps (g1 <| g_node := n2 |>)) as K2.
  assert (K12 : keeps g [] [] (adopt_snapshot restore (g1 <| g_node := n2 |>))).
  { apply (keeps_trans g g1 _ [] [] []); [done|].
    apply (keeps_trans g1 (g1 <| g_node := n2 |>) _ [] [] []); [by apply keeps_frame|done]. }
  clear K1 K2. revert K12. generalize (adopt_snapshot restore (g1 <| g_node := n2 |>)) as g2. intros g2 K2.
  pose proof (keeps_trans _ _ _ _ _ _ K2 (apply_committed_keeps g2)) as K3.
  destruct (apply_committed apply g2) as [g3 answered]. cbn [fst snd app] in K3.
  destruct (maybe_compact snapshot g3) as [g4|] eqn:Hc.
  - destruct (maybe_compact_frame _ _ Hc) as [F1 F2].
    pose proof (keeps_trans _ _ _ _ _ _ K3 (keeps_frame g3 g4 F1 F2)) as K4. rewrite app_nil_r in K4.
    pose proof (keeps_trans _ _ _ _ _ _ K4 (answer_reads_keeps g4)) as K5.
    destruct (answer_reads g4) as [g5 read]. cbn [fst snd] in K5.
    pose proof (keeps_trans _ _ _ _ _ _ K5 (fail_parked_keeps g5)) as K6.
    destruct (fail_parked g5) as [g6 failed]. cbn [fst snd] in K6.
    assert (K7 : keeps g6 [] (if ticked then expire tick_ms g6 else (g6, [])).2 (if ticked then expire tick_ms g6 else (g6, [])).1).
    { destruct ticked; [apply expire_keeps|by apply keeps_frame]. }
    pose proof (keeps_trans _ _ _ _ _ _ K6 K7) as K8.
    destruct (if ticked then _ else _) as [g7 late]. cbn [fst snd] in K8. intros Heq.
    apply pair_equal_spec in Heq as [[<- <-]%pair_equal_spec <-]. destruct (K8 Hok) as [Hok7 Hp].
    split; [intros g' [= <-]; by destruct Hok7|]. cbn [all_tickets]. rewrite app_nil_r in Hp.
    change (tickets (observe g7)) with (tickets g7). rewrite Hp, !fmap_app, Hrt, <- !app_assoc.
    rewrite (Permutation_app_comm (match reply with Some _ => _ | None => _ end)). rewrite <- !app_assoc.
    repeat f_equiv.
  - intros Heq. apply pair_equal_spec in Heq as [[<- <-]%pair_equal_spec <-]. split; [done|].
    destruct (K3 Hok) as [_ Hp]. cbn [all_tickets]. rewrite app_nil_r in Hp. rewrite Hp, !fmap_app, Hrt, dropped_fst, app_nil_r.
    apply Permutation_app_comm.
Qed.

Lemma turn_tickets c g rs out og :
  group_ok g → turn c g = (rs, out, og) →
  (∀ g', og = Some g' → group_ok g') ∧ tickets g ++ new_tickets c ≡ₚ rs.*1 ++ all_tickets og.
Proof.
  intros Hok Ht. assert (Hc : c = GStop ∨ c ≠ GStop) by (destruct c; by (left + right)).
  destruct Hc as [->|Hc].
  { cbn in Ht. injection Ht as <- <- <-. split; [done|]. cbn. by rewrite dropped_fst. }
  assert (Hb : turn c g = let '(g1, now, reply) := act c g in
    let '(rs, out, g2) := drain apply snapshot restore tick_ms (is_tick c) reply g1 in (now ++ rs, out, g2)) by by destruct c.
  rewrite Hb in Ht. clear Hb. destruct (act c g) as [[g1 now] reply] eqn:Ha.
  destruct (act_keeps c g g1 now reply Hc Ha) as (arrive & Hn & Hk). destruct (Hk Hok) as [Hok1 Hp].
  destruct (drain _ _ _ _ _ _ _) as [[rs' out'] og'] eqn:Hd. injection Ht as <- <- <-.
  destruct (drain_tickets _ _ _ _ _ _ Hok1 Hd) as [Hok2 Hp2]. split; [done|].
  rewrite Hn, app_assoc, Hp, fmap_app, <- !app_assoc, Hp2. done.
Qed.

Lemma gone_tickets c : (gone c).*1 = new_tickets c.
Proof. by destruct c. Qed.

(** Every ticket is answered once, or still parked. *)
Lemma run_actor_tickets cs og rs out og' :
  (∀ g, og = Some g → group_ok g) → run_actor apply snapshot restore tick_ms cs og = (rs, out, og') →
  (∀ g, og' = Some g → group_ok g) ∧ all_tickets og ++ concat (new_tickets <$> cs) ≡ₚ rs.*1 ++ all_tickets og'.
Proof.
  revert og rs out. induction cs as [|c cs IH]; intros og rs out Hok Hr; cbn [run_actor] in Hr.
  { injection Hr as <- <- <-. split; [done|]. by rewrite app_nil_r. }
  set (t := match og with Some g => turn c g | None => (gone c, [], None) end) in Hr.
  assert (Ht : (∀ g, t.2 = Some g → group_ok g) ∧ all_tickets og ++ new_tickets c ≡ₚ t.1.1.*1 ++ all_tickets t.2).
  { unfold t. destruct og as [g|]; cbn [all_tickets].
    - destruct (turn c g) as [[rs1 out1] og1] eqn:Ht. by apply (turn_tickets _ _ _ _ _ (Hok _ eq_refl) Ht).
    - cbn. by rewrite gone_tickets, app_nil_r. }
  destruct t as [[rs1 out1] og1]. cbn [fst snd] in Ht. destruct Ht as [Hok1 Hp1].
  destruct (run_actor _ _ _ _ cs og1) as [[rs2 out2] og2] eqn:Hr2. injection Hr as <- <- <-.
  destruct (IH _ _ _ Hok1 Hr2) as [Hok2 Hp2]. split; [done|]. rewrite fmap_cons. cbn [concat].
  rewrite app_assoc, Hp1, fmap_app, <- !app_assoc, Hp2. done.
Qed.

(** * Deadlines *)

Definition answers (tx : N) (rs : list (N * Reply)) : Prop := ∃ r, (tx, RProposed r) ∈ rs.

(** A parked proposal stays parked or is answered as one. *)
Definition holds_on (tx k : N) (rs : list (N * Reply)) (g : Group St E) : Prop :=
  answers tx rs ∨ ∃ idx, (idx, (tx, k)) ∈ g_pending g.

Lemma holds_on_frame tx k idx g g' :
  (idx, (tx, k)) ∈ g_pending g → g_pending g' = g_pending g → holds_on tx k [] g'.
Proof. intros Hin Hp. right. exists idx. by rewrite Hp. Qed.

Lemma park_parked idx' tx' pending p :
  bt_ok pending → p ∈ pending → answers (ptx p) (park idx' tx' pending).2 ∨ p ∈ (park idx' tx' pending).1.
Proof.
  intros Hok Hin. unfold park. cbn [fst snd]. destruct (decide (p.1 = idx')) as [<-|Hne].
  - left. destruct p as [i v]. rewrite (bt_get_elem i v) by done. eexists. by apply list_elem_of_singleton.
  - right. rewrite bt_insert_perm by done. right. unfold bt_remove.
    apply list_elem_of_In, filter_In. split; [by apply list_elem_of_In|]. apply negb_true_iff, N.eqb_neq. done.
Qed.

Lemma act_parked c g g' rs reply tx k idx :
  group_ok g → (idx, (tx, k)) ∈ g_pending g → act c g = (g', rs, reply) → holds_on tx k rs g'.
Proof.
  intros [Hp _] Hin.
  assert (Hpark : ∀ index tx' n, let g' := g <| g_node := n |> <| g_pending := (park index tx' (g_pending g)).1 |> in
    holds_on tx k (park index tx' (g_pending g)).2 g').
  { intros index tx' n. destruct (park_parked index tx' (g_pending g) _ Hp Hin) as [?|?]; [by left|right; by exists idx]. }
  assert (Hfr : ∀ rs g', g_pending g' = g_pending g → holds_on tx k rs g') by (intros ?? E0; right; exists idx; by rewrite E0).
  destruct c as [|m|m tx'|data tx'|cc tx'|tx'|target tx'|]; cbn [act].
  - intros [= <- <- <-]. by apply Hfr.
  - intros [= <- <- <-]. by apply Hfr.
  - intros [= <- <- <-]. by apply Hfr.
  - destruct (propose _ _) as [[index|e] n]; [|intros [= <- <- <-]; by apply Hfr].
    specialize (Hpark index tx' n). destruct (park _ _ _) as [p d]. by intros [= <- <- <-].
  - destruct (propose_conf_change _ _) as [[index|e] n]; [|intros [= <- <- <-]; by apply Hfr].
    specialize (Hpark index tx' n). destruct (park _ _ _) as [p d]. by intros [= <- <- <-].
  - destruct (read_index _ _) as [[[]|e] n]; [|intros [= <- <- <-]; by apply Hfr].
    destruct (park_read _ _ _) as [p d]. intros [= <- <- <-]. by apply Hfr.
  - destruct (transfer_leadership _ _) as [res n]. intros [= <- <- <-]. by apply Hfr.
  - intros [= <- <- <-]. by apply Hfr.
Qed.

Lemma answers_app tx rs rs' : answers tx rs ∨ answers tx rs' → answers tx (rs ++ rs').
Proof. intros [[r ?]|[r ?]]; exists r; apply elem_of_app; tauto. Qed.

Lemma apply_entries_parked es acc tx k :
  bt_ok (g_pending acc.1) → holds_on tx k acc.2 acc.1 →
  holds_on tx k (fold_left (apply_entry apply) es acc).2 (fold_left (apply_entry apply) es acc).1.
Proof.
  revert acc. induction es as [|e es IH]; intros [g out] Hok Hh; [done|]. cbn [fold_left]. cbn [fst snd] in Hok, Hh.
  apply IH; unfold apply_entry; destruct (if is_conf_change e then _ else _) as [s outcome];
    destruct (bt_get (e_index e) _) as [[tx' k']|] eqn:Hg; cbn [fst snd] in *; try done.
  - by apply bt_remove_ok.
  - destruct Hh as [Ha|[idx Hin]]; [left; apply answers_app; by left|].
    destruct (decide (idx = e_index e)) as [->|Hne].
    + left. apply answers_app. right. eexists. apply (bt_get_elem _ _ _ Hok) in Hin. cbn in Hg. rewrite Hg in Hin.
      injection Hin as -> ->. by apply list_elem_of_singleton.
    + right. exists idx. cbn. unfold bt_remove. apply list_elem_of_In, filter_In. split; [by apply list_elem_of_In|].
      by apply negb_true_iff, N.eqb_neq.
Qed.

Lemma fail_parked_parked g tx k idx :
  (idx, (tx, k)) ∈ g_pending g → answers tx (fail_parked g).2 ∨ (idx, (tx, k)) ∈ g_pending (fail_parked g).1.
Proof.
  intros Hin. unfold fail_parked. destruct (is_leader (g_node g)); [by right|]. left. exists Undetermined.
  apply elem_of_app. left. apply list_elem_of_fmap. by exists (idx, (tx, k)).
Qed.

Lemma expire_parked g tx k idx :
  (idx, (tx, k)) ∈ g_pending g →
  answers tx (expire tick_ms g).2 ∨
  (idx, (tx, k + 1)) ∈ g_pending (expire tick_ms g).1 ∧ k + 1 < deadline_ticks tick_ms.
Proof.
  intros Hin. unfold expire. cbn [fst snd]. cbn [g_pending set_field]. cbn.
  assert (Hb : (idx, (tx, k + 1)) ∈ (λ p : N * (N * N), (p.1, (p.2.1, p.2.2 + 1))) <$> g_pending g)
    by (apply list_elem_of_fmap; by exists (idx, (tx, k))).
  destruct (expired tick_ms (idx, (tx, k + 1))) eqn:He.
  - left. exists Undetermined. apply list_elem_of_fmap. exists (idx, (tx, k + 1)). split; [done|].
    apply list_elem_of_In, filter_In. split; [by apply list_elem_of_In|done].
  - right. split; [|by apply N.leb_gt in He]. apply list_elem_of_In, filter_In. split; [by apply list_elem_of_In|by rewrite He].
Qed.

(** What a turn does with a proposal parked for [k] ticks. *)
Definition stays (ticked : bool) (tx k : N) (rs : list (N * Reply)) (og : option (Group St E)) : Prop :=
  answers tx rs ∨ ∃ g' idx, og = Some g' ∧ (idx, (tx, k + if ticked then 1 else 0)) ∈ g_pending g' ∧
    (ticked = true → k + 1 < deadline_ticks tick_ms).

Lemma drain_parked ticked reply g rs out og tx k idx :
  group_ok g → (idx, (tx, k)) ∈ g_pending g →
  drain apply snapshot restore tick_ms ticked reply g = (rs, out, og) → stays ticked tx k rs og.
Proof.
  intros Hok Hin. unfold drain.
  assert (F1 : g_pending (elect g) = g_pending g) by (unfold elect; by destruct (_ && _)).
  revert F1. generalize (elect g) as g1. intros g1 F1. destruct (take_messages (g_node g1)) as [ms n2].
  destruct (route_messages reply ms) as [routed out'].
  assert (F2 : g_pending (adopt_snapshot restore (g1 <| g_node := n2 |>)) = g_pending g).
  { rewrite <- F1. unfold adopt_snapshot. by destruct (take_snapshot _) as [[[i data]|] n]. }
  revert F2. generalize (adopt_snapshot restore (g1 <| g_node := n2 |>)) as g2. intros g2 F2. clear F1.
  assert (Hc : holds_on tx k (apply_committed apply g2).2 (apply_committed apply g2).1).
  { unfold apply_committed. destruct (take_committed (g_node g2)) as [es n]. apply apply_entries_parked; cbn [fst snd g_pending].
    - cbn. rewrite F2. apply Hok.
    - right. exists idx. cbn. by rewrite F2. }
  destruct (apply_committed apply g2) as [g3 answered]. cbn [fst snd] in Hc.
  destruct (maybe_compact snapshot g3) as [g4|] eqn:Hcp.
  2:{ intros Heq. apply pair_equal_spec in Heq as [[<- <-]%pair_equal_spec <-]. left. apply answers_app. right.
      apply answers_app. destruct Hc as [?|[idx' Hin']]; [by left|]. right. exists (NotLeading None). unfold dropped.
      apply elem_of_app. left. apply list_elem_of_fmap. by exists (idx', (tx, k)). }
  destruct (maybe_compact_frame _ _ Hcp) as [F3 _]. clear Hcp.
  assert (F4 : g_pending (answer_reads g4).1 = g_pending g3) by (rewrite <- F3; by unfold answer_reads, take_read_states).
  destruct (answer_reads g4) as [g5 read]. cbn [fst] in F4.
  destruct Hc as [Ha|[idx' Hin']].
  { destruct (fail_parked g5) as [g6 failed]. destruct (if ticked then _ else _) as [g7 late]. intros Heq.
    apply pair_equal_spec in Heq as [[<- <-]%pair_equal_spec <-]. left. apply answers_app. right. apply answers_app. by left. }
  rewrite <- F4 in Hin'. pose proof (fail_parked_parked g5 tx k idx' Hin') as Hf.
  destruct (fail_parked g5) as [g6 failed]. cbn [fst snd] in Hf.
  assert (Hl : answers tx (failed ++ (if ticked then expire tick_ms g6 else (g6, [])).2) ∨
    (idx', (tx, k + if ticked then 1 else 0)) ∈ g_pending (if ticked then expire tick_ms g6 else (g6, [])).1 ∧
    (ticked = true → k + 1 < deadline_ticks tick_ms)).
  { destruct Hf as [?|Hin6]; [left; apply answers_app; by left|]. destruct ticked; cbn [fst snd].
    - destruct (expire_parked g6 tx k idx' Hin6) as [?|[? ?]]; [left; apply answers_app; by right|by right].
    - right. rewrite N.add_0_r. by split. }
  destruct (if ticked then _ else _) as [g7 late]. cbn [fst snd] in Hl. intros Heq.
  apply pair_equal_spec in Heq as [[<- <-]%pair_equal_spec <-]. destruct Hl as [?|[? ?]].
  - left. do 3 (apply answers_app; right). done.
  - right. by exists (observe g7), idx'.
Qed.

Lemma turn_parked c g rs out og tx k idx :
  group_ok g → (idx, (tx, k)) ∈ g_pending g → turn c g = (rs, out, og) → stays (is_tick c) tx k rs og.
Proof.
  intros Hok Hin Ht. assert (Hc : c = GStop ∨ c ≠ GStop) by (destruct c; by (left + right)).
  destruct Hc as [->|Hc].
  { cbn in Ht. injection Ht as <- <- <-. left. exists (NotLeading None). unfold dropped. apply elem_of_app. left.
    apply list_elem_of_fmap. by exists (idx, (tx, k)). }
  assert (Hb : turn c g = let '(g1, now, reply) := act c g in
    let '(rs, out, g2) := drain apply snapshot restore tick_ms (is_tick c) reply g1 in (now ++ rs, out, g2)) by by destruct c.
  rewrite Hb in Ht. clear Hb. destruct (act c g) as [[g1 now] reply] eqn:Ha.
  destruct (act_keeps c g g1 now reply Hc Ha) as (arrive & Hn & Hk). destruct (Hk Hok) as [Hok1 _].
  pose proof (act_parked _ _ _ _ _ _ _ _ Hok Hin Ha) as Hp.
  destruct (drain _ _ _ _ _ _ _) as [[rs' out'] og'] eqn:Hd. injection Ht as <- <- <-.
  destruct Hp as [?|[idx' Hin']]; [left; apply answers_app; by left|].
  destruct (drain_parked _ _ _ _ _ _ _ _ _ Hok1 Hin' Hd) as [?|?]; [left; apply answers_app; by right|by right].
Qed.

Definition ticks (cs : list Cmd) : N := N.of_nat (length (List.filter is_tick cs)).

(** A parked proposal outlives no deadline. *)
Lemma run_actor_deadline cs g rs out og tx k idx :
  group_ok g → (idx, (tx, k)) ∈ g_pending g → k < N.max (deadline_ticks tick_ms) 1 →
  N.max (deadline_ticks tick_ms) 1 ≤ k + ticks cs →
  run_actor apply snapshot restore tick_ms cs (Some g) = (rs, out, og) → answers tx rs.
Proof.
  revert g rs out k idx. induction cs as [|c cs IH]; intros g rs out k idx Hok Hin Hlt Hle Hr; cbn [run_actor] in Hr.
  { unfold ticks in Hle. cbn in Hle. lia. }
  destruct (turn c g) as [[rs1 out1] og1] eqn:Ht.
  destruct (turn_tickets _ _ _ _ _ Hok Ht) as [Hok1 _].
  destruct (run_actor _ _ _ _ cs og1) as [[rs2 out2] og2] eqn:Hr2. injection Hr as <- <- <-.
  destruct (turn_parked _ _ _ _ _ _ _ _ Hok Hin Ht) as [?|(g' & idx' & -> & Hin' & Hd)]; [apply answers_app; by left|].
  apply answers_app. right. unfold ticks in Hle. cbn [List.filter] in Hle.
  destruct (is_tick c) eqn:Htick.
  - specialize (Hd eq_refl). cbn [length] in Hle. apply (IH g' rs2 out2 (k + 1) idx' (Hok1 _ eq_refl) Hin'); [lia| |done].
    unfold ticks. lia.
  - rewrite N.add_0_r in Hin'. by apply (IH g' rs2 out2 k idx' (Hok1 _ eq_refl) Hin').
Qed.

Lemma propose_turn data tx g rs out og :
  group_ok g → turn (GPropose data tx) g = (rs, out, og) → stays false tx 0 rs og.
Proof.
  intros Hok Ht. cbn [GroupActor.turn] in Ht. destruct (act (GPropose data tx) g) as [[g1 now] reply] eqn:Ha.
  destruct (act_keeps (GPropose data tx) g g1 now reply ltac:(done) Ha) as (arrive & _ & Hk). destruct (Hk Hok) as [Hok1 _].
  assert (Hp : holds_on tx 0 now g1).
  { revert Ha. cbn [act]. destruct (propose data (g_node g)) as [[index|e] n].
    - destruct (park index tx (g_pending g)) as [p d] eqn:Hpk. intros [= <- <- <-]. right. exists index. cbn.
      injection Hpk as <- _. destruct Hok as [Hokp _]. rewrite bt_insert_perm by done. left.
    - intros [= <- <- <-]. left. eexists. by apply list_elem_of_singleton. }
  destruct (drain _ _ _ _ _ _ _) as [[rs' out'] og'] eqn:Hd. injection Ht as <- <- <-.
  destruct Hp as [?|[idx Hin]]; [left; apply answers_app; by left|].
  destruct (drain_parked _ _ _ _ _ _ _ _ _ Hok1 Hin Hd) as [?|?]; [left; apply answers_app; by right|by right].
Qed.

Lemma proposal_deadline data tx cs g rs out og :
  group_ok g → N.max (deadline_ticks tick_ms) 1 ≤ ticks cs →
  run_actor apply snapshot restore tick_ms (GPropose data tx :: cs) (Some g) = (rs, out, og) → answers tx rs.
Proof.
  intros Hok Hle Hr. cbn [run_actor] in Hr. destruct (turn (GPropose data tx) g) as [[rs1 out1] og1] eqn:Ht.
  destruct (turn_tickets _ _ _ _ _ Hok Ht) as [Hok1 _].
  destruct (run_actor _ _ _ _ cs og1) as [[rs2 out2] og2] eqn:Hr2. injection Hr as <- <- <-. apply answers_app.
  destruct (propose_turn _ _ _ _ _ _ Hok Ht) as [?|(g' & idx & -> & Hin & _)]; [by left|right].
  by apply (run_actor_deadline cs g' rs2 out2 og2 tx 0 idx (Hok1 _ eq_refl) Hin); [lia|lia|].
Qed.

Lemma answered_once tx (rs : list (N * Reply)) r r' : NoDup rs.*1 → (tx, r) ∈ rs → (tx, r') ∈ rs → r = r'.
Proof.
  induction rs as [|[t x] rs IH]; [by intros _ ?%elem_of_nil|]. rewrite fmap_cons, NoDup_cons. intros [Hn Hnd].
  rewrite !elem_of_cons. intros [[= -> ->]|H1] [[= ->]|H2]; [done| | |by apply IH].
  - apply (list_elem_of_fmap_2 fst) in H2. done.
  - subst. apply (list_elem_of_fmap_2 fst) in H1. done.
Qed.
End Turn.
