(* ===== verification/GroupCluster.v ===== *)
(** The replicas of a region: Raft groups whose actors apply to engines, exchanging
    messages under an adversarial network.  Every execution is one of [RaftCluster], so
    what holds of the nodes there holds of the replicas, and their state machines have
    run the same entries. *)

From stdpp Require Import base list numbers strings gmap.
From Stdlib Require Import Strings.Byte.
From S2P Require Import Prelude Cursor RaftMessage RaftStorage RaftNode RaftProto.
From S2P Require Import RaftSafety RaftInvariant RaftRefine RaftCluster GroupActor.

(** * What the node's operations leave alone *)

Section Frame.
Context {St : Type} `{Storage St}.
Implicit Types n : RaftNode St.

(** Neither the applied index nor an installed snapshot changes. *)
Definition idle n n' : Prop :=
  n_last_applied n' = n_last_applied n ∧ n_pending_snapshot n' = n_pending_snapshot n.

#[local] Instance idle_preorder : PreOrder idle.
Proof. split; [done|]. intros n1 n2 n3 [? ?] [? ?]. split; congruence. Qed.

Lemma idle_fold {A} (f : RaftNode St → A → RaftNode St) l n :
  (∀ n a, idle n (f n a)) → idle n (fold_left f l n).
Proof. intros Hf. revert n. induction l as [|a l IH]; intros n; [done|]. cbn. etransitivity; [apply Hf|apply IH]. Qed.

Lemma become_follower_idle t l n : idle n (become_follower t l n).
Proof. unfold become_follower. by destruct (_ <? _). Qed.

Lemma recompute_conf_idle n : idle n (recompute_conf n).
Proof.
  unfold recompute_conf. destruct (conf_at _ _) as [v l].
  match goal with |- context [if _ && _ then become_follower _ _ ?x else _] => set (n1 := x) end.
  assert (H1 : idle n n1) by (unfold n1; destruct (n_transfer_target _); [by destruct (contains _ _)|done]).
  destruct (_ && _); [|done]. etransitivity; [exact H1|apply become_follower_idle].
Qed.

Lemma send_append_idle to n : idle n (send_append to n).
Proof. unfold send_append, send_snapshot. destruct (_ <? _); [|done]. by destruct (st_snapshot _). Qed.

Lemma broadcast_append_idle n : idle n (broadcast_append n).
Proof. apply idle_fold. intros. apply send_append_idle. Qed.

Lemma advance_reads_idle n : idle n (advance_reads n).
Proof. unfold advance_reads. destruct (_ || _); [done|]. by destruct (confirm_reads _ _). Qed.

Lemma maybe_advance_commit_idle n : idle n (maybe_advance_commit n).
Proof.
  unfold maybe_advance_commit. destruct (commit_scan _ _) as [i|]; [|done].
  match goal with |- idle _ (advance_reads ?x) => transitivity x; [done|apply advance_reads_idle] end.
Qed.

Lemma become_leader_idle n : idle n (become_leader n).
Proof.
  unfold become_leader. match goal with |- idle _ (broadcast_append ?x) => transitivity x; [|apply broadcast_append_idle] end.
  match goal with |- context [fold_left ?f ?l ?x] => pose proof (idle_fold f l x) as Hf end.
  destruct (Hf ltac:(done)) as [H1 H2]. split; [exact H1|exact H2].
Qed.

Lemma start_election_idle n : idle n (start_election n).
Proof.
  unfold start_election. destruct (_ <=? _)%nat.
  - match goal with |- idle _ (become_leader ?x) => transitivity x; [done|apply become_leader_idle] end.
  - match goal with |- idle _ (fold_left ?f ?l ?x) => transitivity x; [done|by apply idle_fold] end.
Qed.

Lemma tick_idle n : idle n (tick n).
Proof.
  assert (Hq : ∀ n, idle n (check_quorum_tick n)).
  { intros m. unfold check_quorum_tick. destruct (_ <=? _); [|done]. destruct (_ && _); [|done].
    match goal with |- idle _ (become_follower _ _ ?x) => transitivity x; [done|apply become_follower_idle] end. }
  assert (Hf : ∀ n, idle n (let n := n <| n_election_elapsed := n_election_elapsed n + 1 |> in
    if (n_randomized_election_timeout n <=? n_election_elapsed n) && is_voter n then start_election n else n)).
  { intros m. cbn zeta. destruct (_ && _); [|done].
    match goal with |- idle _ (start_election ?x) => transitivity x; [done|apply start_election_idle] end. }
  unfold tick. destruct (n_role n); [apply Hf|apply Hf|]. etransitivity; [|apply Hq].
  set (n1 := match n_transfer_target n with Some _ => _ | None => _ end).
  assert (H1 : idle n n1) by (unfold n1; destruct (n_transfer_target n); [by destruct (_ <=? _)|done]).
  transitivity n1; [done|]. clearbody n1. cbn zeta. destruct (_ <=? _); [|by split].
  match goal with |- idle _ (broadcast_append ?x) => transitivity x; [done|apply broadcast_append_idle] end.
Qed.

Lemma propose_idle data n : idle n (propose data n).2.
Proof.
  unfold propose. destruct (negb _); [done|]. destruct (n_transfer_target n); [done|]. cbn [snd].
  etransitivity; [|apply broadcast_append_idle].
  match goal with |- idle _ (maybe_advance_commit ?x) => transitivity x; [done|apply maybe_advance_commit_idle] end.
Qed.

Lemma read_index_idle ctx n : idle n (read_index ctx n).2.
Proof.
  unfold read_index. destruct (negb _); [done|]. cbn [snd]. etransitivity; [|apply advance_reads_idle].
  match goal with |- idle _ (broadcast_append ?x) => transitivity x; [done|apply broadcast_append_idle] end.
Qed.

Lemma transfer_idle target n : idle n (transfer_leadership target n).2.
Proof.
  unfold transfer_leadership. destruct (negb _); [done|]. destruct (_ || _); [done|]. cbn [snd].
  destruct (match progress _ _ with Some _ => _ | None => _ end); [done|].
  match goal with |- idle _ (send_append _ ?x) => transitivity x; [done|apply send_append_idle] end.
Qed.

Lemma append_entries_idle from t pi pt es lc rr n : idle n (handle_append_entries from t pi pt es lc rr n).
Proof.
  unfold handle_append_entries. destruct (_ <? _); [done|]. cbn zeta. destruct (_ <=? _); [done|].
  destruct (_ && _); [done|]. destruct (splice _ _ _ _ _) as [s app].
  set (n1 := match app with Some _ => _ | None => _ end).
  assert (H1 : idle n n1).
  { unfold n1. destruct app; [|done].
    match goal with |- idle _ (recompute_conf ?x) => transitivity x; [done|apply recompute_conf_idle] end. }
  clearbody n1. destruct H1. by destruct (_ <? _).
Qed.

Lemma append_resp_idle from t ok mi rr n : idle n (handle_append_resp from t ok mi rr n).
Proof.
  unfold handle_append_resp. destruct (_ || _); [done|]. etransitivity; [|apply advance_reads_idle].
  destruct ok; cbn zeta.
  - match goal with |- context [maybe_advance_commit ?x] =>
      assert (H1 : idle n (maybe_advance_commit x)) by (transitivity x; [done|apply maybe_advance_commit_idle]);
      generalize dependent (maybe_advance_commit x) end.
    intros n1 [? ?]. by destruct (_ && _).
  - match goal with |- idle _ (send_append _ ?x) => transitivity x; [done|apply send_append_idle] end.
Qed.

(** No message but a snapshot. *)
Definition no_snapshot (m : Message) : Prop :=
  match m_body m with InstallSnapshot _ _ _ _ _ => False | _ => True end.

Lemma step_idle m n : no_snapshot m → idle n (step m n).
Proof.
  intros Hm. unfold step.
  match goal with |- idle _ (dispatch _ ?x) => set (n1 := x) end.
  assert (H1 : idle n n1) by (unfold n1; destruct (_ <? _); [apply become_follower_idle|done]). clearbody n1.
  etransitivity; [exact H1|]. clear H1. unfold dispatch, no_snapshot in *. destruct (m_body m); try done.
  - unfold handle_request_vote. destruct (_ <=? _); [|done]. by destruct (_ && _).
  - unfold handle_request_vote_resp. destruct (_ || _); [done|]. destruct (_ && _); [|done].
    destruct (_ <=? _)%nat; [|done].
    match goal with |- idle _ (become_leader ?x) => transitivity x; [done|apply become_leader_idle] end.
  - apply append_entries_idle.
  - apply append_resp_idle.
  - unfold handle_install_snapshot_resp. destruct (_ || _); [done|].
    match goal with |- idle _ (maybe_advance_commit ?x) => transitivity x; [done|apply maybe_advance_commit_idle] end.
  - unfold handle_timeout_now. destruct (_ || _); [done|apply start_election_idle].
Qed.
End Frame.

(** * Where entries come from *)

Section Provenance.
Context (P : bytes → Prop).
Implicit Types n : RaftNode MemStorage.

Definition carried (m : Message) : Prop :=
  match m_body m with AppendEntries _ _ es _ _ => Forall (λ e, P (e_data e)) es | _ => True end.

(** The entries of the log and of the messages to send. *)
Record data_ok n : Prop := mkDataOk {
  do_log : Forall (λ e, P (e_data e)) (ms_log (n_storage n));
  do_out : Forall carried (n_messages n);
}.

(** Nothing but such entries is added. *)
Definition keeps_data n n' : Prop := data_ok n → data_ok n'.

#[local] Instance keeps_data_preorder : PreOrder keeps_data.
Proof. split; [by intros n Hn|]. intros n1 n2 n3 H1 H2 Hn. by apply H2, H1. Qed.

Lemma data_frame n n' : n_storage n' = n_storage n → n_messages n' = n_messages n → keeps_data n n'.
Proof. intros E1 E2 [? ?]. split; congruence. Qed.

Lemma data_fold {A} (f : RaftNode MemStorage → A → RaftNode MemStorage) l n :
  (∀ n a, keeps_data n (f n a)) → keeps_data n (fold_left f l n).
Proof. intros Hf. revert n. induction l as [|a l IH]; intros n; [done|]. cbn. etransitivity; [apply Hf|apply IH]. Qed.

Lemma send_data to t b n : carried (mkMessage (n_id n) to t b) → keeps_data n (send to t b n).
Proof. intros Hc [? ?]. split; [done|]. cbn. apply Forall_app_2; [done|by constructor]. Qed.

Lemma hard_data hs n : keeps_data n (n <| n_storage := st_save_hard_state hs (n_storage n) |>).
Proof. intros [? ?]. by split. Qed.

Lemma become_follower_data t l n : keeps_data n (become_follower t l n).
Proof. intros [? ?]. unfold become_follower. by destruct (_ <? _). Qed.

Lemma recompute_conf_data n : keeps_data n (recompute_conf n).
Proof.
  unfold recompute_conf. destruct (conf_at _ _) as [v l].
  match goal with |- context [if _ && _ then become_follower _ _ ?x else _] => set (n1 := x) end.
  assert (H1 : keeps_data n n1) by (unfold n1; destruct (n_transfer_target _); [by destruct (contains _ _); apply data_frame|by apply data_frame]).
  destruct (_ && _); [|done]. etransitivity; [exact H1|apply become_follower_data].
Qed.

Lemma entries_data lo hi (s : MemStorage) :
  Forall (λ e, P (e_data e)) (ms_log s) → Forall (λ e, P (e_data e)) (st_entries lo hi s).
Proof.
  intros Hs. apply list.Forall_forall. intros e He. rewrite list.Forall_forall in Hs. apply Hs. by eapply plain_entries_in.
Qed.

Lemma send_append_data to n : keeps_data n (send_append to n).
Proof.
  intros Hn. unfold send_append, send_snapshot. destruct (_ <? _).
  - destruct (st_snapshot _); [|done]. by apply send_data.
  - apply send_data; [|done]. apply entries_data, Hn.
Qed.

Lemma broadcast_append_data n : keeps_data n (broadcast_append n).
Proof. apply data_fold. intros. apply send_append_data. Qed.

Lemma advance_reads_data n : keeps_data n (advance_reads n).
Proof. unfold advance_reads. destruct (_ || _); [done|]. destruct (confirm_reads _ _). by apply data_frame. Qed.

Lemma maybe_advance_commit_data n : keeps_data n (maybe_advance_commit n).
Proof.
  unfold maybe_advance_commit. destruct (commit_scan _ _) as [i|]; [|done].
  match goal with |- keeps_data _ (advance_reads ?x) => transitivity x; [by apply data_frame|apply advance_reads_data] end.
Qed.

Lemma become_leader_data n : keeps_data n (become_leader n).
Proof.
  unfold become_leader.
  match goal with |- keeps_data _ (broadcast_append ?x) => transitivity x; [|apply broadcast_append_data] end.
  match goal with |- context [fold_left ?f ?l ?x] =>
    assert (Hf : keeps_data n (fold_left f l x)) by (transitivity x; [by apply data_frame|apply data_fold; intros; by apply data_frame]);
    generalize dependent (fold_left f l x) end.
  intros n1 Hf. etransitivity; [exact Hf|]. by apply data_frame.
Qed.

Lemma start_election_data n : keeps_data n (start_election n).
Proof.
  intros Hn. unfold start_election. cbn zeta.
  match goal with |- context [reset_election_timer ?x] => assert (H1 : data_ok (reset_election_timer x)) by (destruct Hn; by split);
    generalize dependent (reset_election_timer x) end.
  intros n1 H1. destruct (_ <=? _)%nat; [by apply become_leader_data|]. revert H1. apply data_fold. intros. by apply send_data.
Qed.

Lemma tick_data n : keeps_data n (tick n).
Proof.
  assert (Hq : ∀ n, keeps_data n (check_quorum_tick n)).
  { intros m. unfold check_quorum_tick. destruct (_ <=? _); [|by apply data_frame]. destruct (_ && _); [|by apply data_frame].
    match goal with |- keeps_data _ (become_follower _ _ ?x) => transitivity x; [by apply data_frame|apply become_follower_data] end. }
  unfold tick. destruct (n_role n).
  1, 2: destruct (_ && _); [|by apply data_frame];
    match goal with |- keeps_data _ (start_election ?x) => transitivity x; [by apply data_frame|apply start_election_data] end.
  etransitivity; [|apply Hq].
  set (n1 := match n_transfer_target n with Some _ => _ | None => _ end).
  assert (H1 : keeps_data n n1) by (unfold n1; destruct (n_transfer_target n); [by destruct (_ <=? _); apply data_frame|done]).
  transitivity n1; [done|]. clearbody n1. cbn zeta. destruct (_ <=? _); [|by apply data_frame].
  match goal with |- keeps_data _ (broadcast_append ?x) => transitivity x; [by apply data_frame|apply broadcast_append_data] end.
Qed.

Lemma propose_data data n : P data → keeps_data n (propose data n).2.
Proof.
  intros Hd. unfold propose. destruct (negb _); [done|]. destruct (n_transfer_target n); [done|]. cbn [snd].
  etransitivity; [|apply broadcast_append_data]. etransitivity; [|apply maybe_advance_commit_data].
  intros [Hl Ho]. split; [|done]. cbn. apply Forall_app_2; [done|by constructor].
Qed.

Lemma read_index_data ctx n : keeps_data n (read_index ctx n).2.
Proof.
  unfold read_index. destruct (negb _); [done|]. cbn [snd]. etransitivity; [|apply advance_reads_data].
  match goal with |- keeps_data _ (broadcast_append ?x) => transitivity x; [by apply data_frame|apply broadcast_append_data] end.
Qed.

Lemma transfer_data target n : keeps_data n (transfer_leadership target n).2.
Proof.
  unfold transfer_leadership. destruct (negb _); [done|]. destruct (_ || _); [done|]. cbn [snd].
  destruct (match progress _ _ with Some _ => _ | None => _ end).
  - intros [? ?]. split; [done|]. cbn. apply Forall_app_2; [done|by constructor].
  - match goal with |- keeps_data _ (send_append _ ?x) => transitivity x; [by apply data_frame|apply send_append_data] end.
Qed.

Lemma splice_data base pi k es (s : MemStorage) :
  Forall (λ e, P (e_data e)) (ms_log s) → Forall (λ e, P (e_data e)) (ms_log (splice base pi k es s).1).
Proof.
  revert k. induction es as [|e es IH]; intros k Hs; [done|]. cbn [splice]. destruct (_ <=? _); [by apply IH|].
  destruct (_ <=? _); [|done]. destruct (negb _); [|by apply IH]. cbn. unfold ms_truncate_suffix.
  destruct (_ <=? _); cbn; [done|by apply Forall_take].
Qed.

Lemma append_entries_data from t pi pt es lc rr n :
  Forall (λ e, P (e_data e)) es → keeps_data n (handle_append_entries from t pi pt es lc rr n).
Proof.
  intros Hes Hn. unfold handle_append_entries. destruct (_ <? _); [by apply send_data|]. cbn zeta.
  match goal with |- context [reset_election_timer ?x] => assert (H1 : data_ok (reset_election_timer x)) by (destruct Hn; by split);
    generalize dependent (reset_election_timer x) end.
  intros n1 H1. destruct (_ <=? _); [by apply send_data|]. destruct (_ && _); [by apply send_data|].
  pose proof (splice_data (st_first_index (n_storage n1) - 1) pi 0 es (n_storage n1) (do_log _ H1)) as Hsp.
  destruct (splice _ _ _ _ _) as [s app]. cbn [fst] in Hsp.
  set (n2 := match app with Some _ => _ | None => _ end).
  assert (H2 : data_ok n2).
  { destruct H1 as [_ Ho]. unfold n2. destruct app; [|by split]. apply recompute_conf_data. split; [|done]. cbn.
    rewrite ms_append_eq. cbn. apply Forall_app_2; [done|by apply Forall_drop]. }
  clearbody n2. apply send_data; [done|]. destruct H2. by destruct (_ <? _).
Qed.

Lemma append_resp_data from t ok mi rr n : keeps_data n (handle_append_resp from t ok mi rr n).
Proof.
  unfold handle_append_resp. destruct (_ || _); [done|]. etransitivity; [|apply advance_reads_data].
  destruct ok; cbn zeta.
  - match goal with |- context [maybe_advance_commit ?x] =>
      assert (H1 : keeps_data n (maybe_advance_commit x)) by (transitivity x; [by apply data_frame|apply maybe_advance_commit_data]);
      generalize dependent (maybe_advance_commit x) end.
    intros n1 H1. etransitivity; [exact H1|]. destruct (_ && _); [|done].
    intros [? ?]. split; [done|]. cbn. apply Forall_app_2; [done|by constructor].
  - match goal with |- keeps_data _ (send_append _ ?x) => transitivity x; [by apply data_frame|apply send_append_data] end.
Qed.

Lemma step_data m n : no_snapshot m → carried m → keeps_data n (step m n).
Proof.
  intros Hm Hc. unfold step.
  match goal with |- keeps_data _ (dispatch _ ?x) => set (n1 := x) end.
  assert (H1 : keeps_data n n1) by (unfold n1; destruct (_ <? _); [apply become_follower_data|done]). clearbody n1.
  etransitivity; [exact H1|]. clear H1. unfold dispatch, no_snapshot, carried in *. destruct (m_body m); try done.
  - unfold handle_request_vote. intros Hn. destruct (_ <=? _); [|by apply send_data].
    destruct (_ && _); apply send_data; try done. destruct Hn. by split.
  - unfold handle_request_vote_resp. destruct (_ || _); [done|]. destruct (_ && _); [|done].
    destruct (_ <=? _)%nat; [|by apply data_frame].
    match goal with |- keeps_data _ (become_leader ?x) => transitivity x; [by apply data_frame|apply become_leader_data] end.
  - by apply append_entries_data.
  - apply append_resp_data.
  - unfold handle_install_snapshot_resp. destruct (_ || _); [done|].
    match goal with |- keeps_data _ (maybe_advance_commit ?x) => transitivity x; [by apply data_frame|apply maybe_advance_commit_data] end.
  - unfold handle_timeout_now. destruct (_ || _); [done|apply start_election_data].
Qed.
End Provenance.

(** * The group of replicas *)

Inductive gevent :=
  | EvTick (i : N)
  | EvDeliver (k : nat) (tx : option N)
  | EvPropose (i : N) (data : bytes) (tx : N)
  | EvConf (i : N) (cc : ConfChange) (tx : N)
  | EvRead (i tx : N)
  | EvTransfer (i target tx : N)
  | EvCampaign (i tx : N)
  | EvStop (i : N).

Definition no_conf (e : gevent) : bool := match e with EvConf _ _ _ => false | _ => true end.

(** The messages that go back as responses of RPCs. *)
Definition responses (rs : list (N * Reply)) : list Message :=
  omap (λ p, match p.2 with RMessage m => m | _ => None end) rs.

Record gcluster (E : Type) := mkGcluster {
  gc_groups : N → option (Group MemStorage E);
  gc_net : list Message;
}.
Arguments mkGcluster {_}.
Arguments gc_groups {_} _ _.
Arguments gc_net {_} _.

Section Replicas.
Context {E : Type}.
Context (apply : bytes → E → E * Result unit) (snapshot : E → bytes) (restore : bytes → E → E) (tick_ms : N).
(** The voters, and the state each replica starts with. *)
Context (B : list N) (e0 : N → E).
Implicit Types (g : Group MemStorage E) (gc : gcluster E) (c : cluster).

Definition on_group (i : N) (cmd : Cmd) gc : gcluster E :=
  match gc_groups gc i with
  | None => gc
  | Some g =>
    let '(rs, out, g') := turn apply snapshot restore tick_ms cmd g in
    mkGcluster (upd i g' (gc_groups gc)) (gc_net gc ++ out ++ responses rs)
  end.

Definition gexec gc (e : gevent) : gcluster E :=
  match e with
  | EvTick i => on_group i GTick gc
  | EvDeliver k tx =>
    match gc_net gc !! k with
    | Some m => on_group (m_to m) (match tx with Some tx => GStepReply m tx | None => GStep m end) gc
    | None => gc
    end
  | EvPropose i data tx => on_group i (GPropose data tx) gc
  | EvConf i cc tx => on_group i (GProposeConf cc tx) gc
  | EvRead i tx => on_group i (GReadIndex tx) gc
  | EvTransfer i target tx => on_group i (GTransferLeader target tx) gc
  | EvCampaign i tx => on_group i (GStepReply (mkMessage i i 0 TimeoutNow) tx) gc
  | EvStop i => on_group i GStop gc
  end.

Definition ginit : gcluster E := mkGcluster (λ i, Some (start i B MemStorage_new (e0 i))) [].

Definition grun (evs : list gevent) : gcluster E := fold_left gexec evs ginit.

(** No replica has compacted its log. *)
Definition uncompacted gc : Prop :=
  ∀ i g, gc_groups gc i = Some g → ms_snap (n_storage (g_node g)) = None.

(** * Simulation *)

#[local] Abbreviation cfgs := (λ i, Config_new i B).
#[local] Abbreviation exec := (RaftCluster.exec cfgs).

(** What is proposed satisfies [P], as the no-op does. *)
Context (P : bytes → Prop) (HP0 : P []).

Definition allowed (e : event) : Prop := static e = true ∧ match e with Propose _ data => P data | _ => True end.
Definition gallowed (e : gevent) : Prop := no_conf e = true ∧ match e with EvPropose _ data _ => P data | _ => True end.

(** The entries a node was handed, in order. *)
Definition applied_by (i : N) c : list Entry := omap (λ p, if p.1 =? i then Some p.2 else None) (c_applied c).

(** The state machine run over entries. *)
Definition run_entries (es : list Entry) (s : E) : E := fold_left (λ s e, (apply (e_data e) s).1) es s.

(** Node [i] moves to [n'], sending [ms] and applying [es]. *)
Record moves c (i : N) (n' : RaftNode MemStorage) (ms : list Message) (es : list Entry) c' : Prop := mkMoves {
  mv_reach : ∃ evs, Forall allowed evs ∧ c' = fold_left exec evs c;
  mv_node : c_nodes c' i = n';
  mv_others j : j ≠ i → c_nodes c' j = c_nodes c j;
  mv_net : c_net c' = c_net c ++ ms;
  mv_applied : c_applied c' = c_applied c ++ map (pair i) es;
}.

Lemma moves_trans c1 i n2 ms es c2 n3 ms' es' c3 :
  moves c1 i n2 ms es c2 → moves c2 i n3 ms' es' c3 → moves c1 i n3 (ms ++ ms') (es ++ es') c3.
Proof.
  intros [(evs & Hs & ->) Hn Ho Hnet Ha] [(evs' & Hs' & ->) Hn' Ho' Hnet' Ha']. split.
  - exists (evs ++ evs'). rewrite fold_left_app. split; [by apply Forall_app_2|done].
  - done.
  - intros j Hj. by rewrite Ho', Ho.
  - by rewrite Hnet', Hnet, app_assoc.
  - by rewrite Ha', Ha, map_app, app_assoc.
Qed.

Lemma moves_on c i f ev :
  allowed ev → exec c ev = on_node i f c → moves c i (f (c_nodes c i)) [] [] (exec c ev).
Proof.
  intros Hs He. split.
  - exists [ev]. split; [by constructor|done].
  - rewrite He. cbn. unfold upd. by rewrite N.eqb_refl.
  - intros j Hj. rewrite He. cbn. unfold upd. apply N.eqb_neq in Hj. by rewrite Hj.
  - by rewrite He, app_nil_r.
  - by rewrite He, app_nil_r.
Qed.

Lemma moves_messages c i :
  moves c i (take_messages (c_nodes c i)).2 (take_messages (c_nodes c i)).1 [] (exec c (TakeMessages i)).
Proof.
  split.
  - exists [TakeMessages i]. split; [|done]. by repeat constructor.
  - cbn. unfold upd. by rewrite N.eqb_refl.
  - intros j Hj. cbn. unfold upd. apply N.eqb_neq in Hj. by rewrite Hj.
  - done.
  - cbn. by rewrite app_nil_r.
Qed.

Lemma moves_committed c i :
  moves c i (take_committed (c_nodes c i)).2 [] (take_committed (c_nodes c i)).1 (exec c (TakeCommitted i)).
Proof.
  cbn [exec]. destruct (take_committed (c_nodes c i)) as [es n] eqn:Ht. split; cbn [fst snd].
  - exists [TakeCommitted i]. split; [by repeat constructor|]. cbn. by rewrite Ht.
  - cbn. unfold upd. by rewrite N.eqb_refl.
  - intros j Hj. cbn. unfold upd. apply N.eqb_neq in Hj. by rewrite Hj.
  - by rewrite app_nil_r.
  - done.
Qed.

Lemma applied_by_moves c i n' ms es c' j :
  moves c i n' ms es c' → applied_by j c' = if j =? i then applied_by i c ++ es else applied_by j c.
Proof.
  intros Hm. unfold applied_by. rewrite (mv_applied _ _ _ _ _ _ Hm), omap_app.
  destruct (N.eqb_spec j i) as [->|Hne].
  - f_equal. clear Hm. induction es as [|e es IH]; [done|]. cbn. rewrite N.eqb_refl. cbn. by rewrite IH.
  - rewrite <- (app_nil_r (omap _ (c_applied c))) at 2. f_equal. clear Hm. induction es as [|e es IH]; [done|]. cbn.
    destruct (N.eqb_spec i j); [by subst|done].
Qed.

Record gsim gc c : Prop := mkGsim {
  gs_reach : ∃ evs, Forall allowed evs ∧ c = run cfgs evs;
  gs_node i g : gc_groups gc i = Some g → g_node g = c_nodes c i;
  gs_net m : m ∈ gc_net gc → m ∈ c_net c;
  gs_snap i g : gc_groups gc i = Some g → n_pending_snapshot (g_node g) = None;
  gs_state i g : gc_groups gc i = Some g → g_state g = run_entries (applied_by i c) (e0 i);
  gs_length i g : gc_groups gc i = Some g → N.of_nat (length (applied_by i c)) = n_last_applied (g_node g);
  gs_index i k e : applied_by i c !! k = Some e → e_index e = N.of_nat k + 1;
}.

Definition reachable c : Prop := ∃ evs, Forall allowed evs ∧ c = run cfgs evs.

Lemma allowed_static evs : Forall allowed evs → forallb static evs = true.
Proof. induction 1 as [|e evs [He _] _ IH]; [done|]. cbn. by rewrite He. Qed.

(** What the group's safety says of a reachable state. *)
Lemma reachable_sim c : reachable c → ∃ (gh : ghost) net, sim B gh c net.
Proof.
  intros (evs & Hs%allowed_static & ->).
  destruct (sim_run cfgs B (λ _, eq_refl) (λ _, eq_refl) evs []) as (gh & _ & net & _ & _ & Hsim & _);
    [by rewrite app_nil_r|]. by exists gh, net.
Qed.

(** The entries handed out next follow those handed out before. *)
Lemma committed_entries (gh : ghost) c net i :
  sim B gh c net →
  let '(es, n') := take_committed (c_nodes c i) in
  n_last_applied n' = n_last_applied (c_nodes c i) + N.of_nat (length es) ∧
  ∀ k e, es !! k = Some e → e_index e = n_last_applied (c_nodes c i) + N.of_nat k + 1 ∧ is_conf_change e = false.
Proof.
  intros Hs. set (n := c_nodes c i). unfold take_committed.
  destruct (N.leb_spec (n_commit_index n) (n_last_applied n)) as [Hle|Hlt]; [cbn; split; [lia|done]|].
  pose proof (no_storage _ _ _ (sim_ok _ _ _ _ Hs i)) as Hst. fold n in Hst.
  pose proof (inv_node _ _ _ (sim_inv _ _ _ _ Hs) i) as Ni. destruct (ni_commit _ _ _ _ Ni) as [Hlen _]. cbn in Hlen.
  fold n in Hlen. set (la := n_last_applied n) in *. set (ci := n_commit_index n) in *.
  assert (Hes : st_entries (la + 1) ci (n_storage n)
    = slice (N.to_nat la) (N.to_nat ci) (ms_log (n_storage n))).
  { cbn. unfold ms_entries. rewrite (plain_base _ Hst). destruct (N.ltb_spec ci (N.max (la + 1) (0 + 1))) as [?|_]; [lia|].
    replace (N.to_nat (N.max (la + 1) (0 + 1) - 0 - 1)) with (N.to_nat la) by lia.
    destruct (_ <=? _)%nat eqn:Hcmp; [apply Nat.leb_le in Hcmp; lia|]. f_equal. lia. }
  rewrite Hes. cbn [fst snd]. split.
  - unfold slice. cbn. rewrite length_take, length_drop. lia.
  - intros k e Hk. unfold slice in Hk. apply lookup_take_Some in Hk as [Hk _]. rewrite lookup_drop in Hk.
    destruct (ps_log _ Hst _ _ Hk) as [-> Ht]. split; [lia|]. unfold is_conf_change. by rewrite Ht.
Qed.

Lemma moves_refl c i : moves c i (c_nodes c i) [] [] c.
Proof. split; [exists []; by split|done|done|by rewrite app_nil_r|by rewrite app_nil_r]. Qed.

Lemma reachable_moves c i n' ms es c' : reachable c → moves c i n' ms es c' → reachable c'.
Proof.
  intros (evs & Hs & ->) [(evs' & Hs' & ->) _ _ _ _]. exists (evs ++ evs'). unfold run.
  rewrite fold_left_app. split; [by apply Forall_app_2|done].
Qed.

(** ** Replies that carry no message *)

Lemma responses_app rs rs' : responses (rs ++ rs') = responses rs ++ responses rs'.
Proof. apply omap_app. Qed.

Lemma responses_fmap {A} (f : A → N * Reply) l : (∀ x, ∀ m, (f x).2 ≠ RMessage m) → responses (f <$> l) = [].
Proof.
  intros Hf. induction l as [|x l IH]; [done|]. cbn. destruct ((f x).2) eqn:E2; try done. by apply Hf in E2.
Qed.

Lemma route_responses reply ms m :
  m ∈ (route_messages reply ms).2 ++ responses (route_messages reply ms).1 → m ∈ ms.
Proof.
  revert reply. induction ms as [|x ms IH]; intros [[from tx]|]; cbn [route_messages]; [done|done| |].
  - destruct (_ && _); [specialize (IH None)|specialize (IH (Some (from, tx)))];
      destruct (route_messages _ ms) as [rs out]; cbn in *; set_solver.
  - specialize (IH None). destruct (route_messages None ms) as [rs out]. cbn in *. set_solver.
Qed.

Lemma apply_entries_responses es (acc : Group MemStorage E * list (N * Reply)) :
  responses (fold_left (apply_entry apply) es acc).2 = responses acc.2.
Proof.
  revert acc. induction es as [|e es IH]; intros acc; [done|]. cbn [fold_left]. rewrite IH. destruct acc as [g out].
  unfold apply_entry. destruct (if is_conf_change e then _ else _) as [s outcome].
  destruct (bt_get _ _) as [[tx k]|]; [|done]. cbn [snd]. rewrite responses_app. by rewrite app_nil_r.
Qed.

Lemma dropped_responses g : responses (dropped g) = [].
Proof. unfold dropped. rewrite responses_app, !responses_fmap; done. Qed.

(** ** The rest of a turn *)

Lemma apply_entries_state es (acc : Group MemStorage E * list (N * Reply)) :
  (∀ k e, es !! k = Some e → is_conf_change e = false) →
  let g' := (fold_left (apply_entry apply) es acc).1 in
  g_node g' = g_node acc.1 ∧ g_state g' = run_entries es (g_state acc.1).
Proof.
  revert acc. induction es as [|e es IH]; intros acc Hes; [done|]. cbn [fold_left].
  assert (He : is_conf_change e = false) by by apply (Hes 0%nat).
  destruct (IH (apply_entry apply acc e)) as [-> ->]; [intros k; apply (Hes (S k))|]. destruct acc as [g out].
  unfold apply_entry. rewrite He. cbn [fst]. unfold run_entries. cbn [fold_left].
  destruct (apply (e_data e) (g_state g)) as [s outcome]. by destruct (bt_get _ _) as [[tx k]|].
Qed.

Lemma maybe_compact_uncompacted g g' :
  plain_storage (n_storage (g_node g)) → maybe_compact snapshot g = Some g' → ms_snap (n_storage (g_node g')) = None →
  g' = g.
Proof.
  intros Hp. unfold maybe_compact. rewrite (plain_first_index _ Hp).
  destruct (N.leb_spec (1 + COMPACT_THRESHOLD) (n_last_applied (g_node g) + 1)) as [Hle|]; [|by intros [= ->]].
  unfold compact. unfold COMPACT_THRESHOLD in Hle. cbn [st_snapshot mem_storage]. rewrite (ps_snap _ Hp).
  destruct (N.leb_spec (n_last_applied (g_node g)) 0); [lia|]. rewrite N.ltb_irrefl. cbn [orb].
  destruct (st_term _ _) as [t|]; [|done]. cbn [mbind option_bind]. destruct (conf_at _ _) as [v l]. cbn [mbind option_bind].
  intros [= <-]. cbn. unfold ms_compact. rewrite (plain_base _ Hp).
  destruct (N.leb_spec (n_last_applied (g_node g)) 0); [lia|]. done.
Qed.

(** What a turn leaves behind, when it did not compact. *)
Record drained c (i : N) g ms es c' (og : option (Group MemStorage E)) : Prop := mkDrained {
  dr_index k e : es !! k = Some e → e_index e = n_last_applied (g_node g) + N.of_nat k + 1;
  dr_moves : ∃ n', moves c i n' ms es c' ∧
    ∀ g', og = Some g' → ms_snap (n_storage (g_node g')) = None →
      g_node g' = n' ∧ g_state g' = run_entries es (g_state g) ∧ n_pending_snapshot n' = None ∧
      n_last_applied n' = n_last_applied (g_node g) + N.of_nat (length es);
}.

Lemma elect_moves c i g :
  g_node g = c_nodes c i →
  idle (g_node g) (g_node (elect g)) ∧ g_state (elect g) = g_state g ∧
  ∃ c', moves c i (g_node (elect g)) [] [] c'.
Proof.
  intros Hn. unfold elect. destruct (_ && _); cbn [g_node g_state set_field].
  - split; [apply propose_idle|]. split; [done|]. exists (exec c (Propose i [])). rewrite Hn.
    by apply (moves_on c i (λ n, (propose [] n).2)); [split|].
  - split; [done|]. split; [done|]. exists c. cbn. rewrite Hn. apply moves_refl.
Qed.

Lemma drain_moves c i g ticked reply rs out og :
  reachable c → g_node g = c_nodes c i → n_pending_snapshot (g_node g) = None →
  drain apply snapshot restore tick_ms ticked reply g = (rs, out, og) →
  ∃ ms es c', (∀ m, m ∈ out ++ responses rs → m ∈ ms) ∧ drained c i g ms es c' og.
Proof.
  intros Hre Hn Hps. unfold drain. destruct (elect_moves c i g Hn) as ([Hla Hps1] & Hst1 & c1 & M1).
  pose proof (reachable_moves _ _ _ _ _ _ Hre M1) as Hre1. revert Hla Hps1 Hst1 M1. generalize (elect g) as g1.
  intros g1 Hla Hps1 Hst1 M1. pose proof (mv_node _ _ _ _ _ _ M1) as Hn1.
  pose proof (moves_messages c1 i) as M2. rewrite Hn1 in M2.
  destruct (take_messages (g_node g1)) as [ms n2] eqn:Htm. cbn [fst snd] in M2.
  assert (F2 : idle (g_node g1) n2) by (injection Htm as <- <-; done).
  pose proof (moves_trans _ _ _ _ _ _ _ _ _ _ M1 M2) as M12. cbn [app] in M12. set (c2 := exec c1 (TakeMessages i)) in *.
  pose proof (route_responses reply ms) as Hrt. destruct (route_messages reply ms) as [routed out'].
  cbn [fst snd] in Hrt.
  (* no snapshot to adopt *)
  destruct F2 as [Hla2 Hps2]. rewrite Hps1, Hps in Hps2.
  set (g2 := g1 <| g_node := n2 |>).
  assert (M3 : moves c2 i (g_node (adopt_snapshot restore g2)) [] [] (exec c2 (TakeSnapshot i))).
  { unfold adopt_snapshot, g2. cbn [g_node set_field]. unfold take_snapshot. cbn. rewrite Hps2. cbn.
    pose proof (moves_on c2 i (λ n, (take_snapshot n).2) (TakeSnapshot i) (conj eq_refl I) eq_refl) as M.
    rewrite (mv_node _ _ _ _ _ _ M2) in M. exact M. }
  assert (F3 : n_last_applied (g_node (adopt_snapshot restore g2)) = n_last_applied n2 ∧
    n_pending_snapshot (g_node (adopt_snapshot restore g2)) = None ∧
    g_state (adopt_snapshot restore g2) = g_state g1).
  { unfold adopt_snapshot, g2, take_snapshot. cbn. rewrite Hps2. done. }
  destruct F3 as (Hla3 & Hps3 & Hst3).
  pose proof (moves_trans _ _ _ _ _ _ _ _ _ _ M12 M3) as M13. cbn [app] in M13. rewrite app_nil_r in M13.
  pose proof (reachable_moves _ _ _ _ _ _ Hre M13) as Hre3. set (c3 := exec c2 (TakeSnapshot i)) in *.
  revert M3 M13 Hla3 Hps3 Hst3. generalize (adopt_snapshot restore g2) as g3. intros g3 M3 M13 Hla3 Hps3 Hst3.
  pose proof (mv_node _ _ _ _ _ _ M13) as Hn3. clearbody c3. clear M1 M2 M12 M3 g2 c2.
  destruct (reachable_sim c3 Hre3) as (gh & net & Hsim).
  pose proof (committed_entries gh c3 net i Hsim) as Hce. pose proof (moves_committed c3 i) as M4.
  pose proof (no_storage _ _ _ (sim_ok _ _ _ _ Hsim i)) as Hplain. rewrite Hn3 in Hce, M4, Hplain.
  unfold apply_committed. assert (Htc : n_storage (take_committed (g_node g3)).2 = n_storage (g_node g3) ∧
    n_pending_snapshot (take_committed (g_node g3)).2 = n_pending_snapshot (g_node g3))
    by (unfold take_committed; by destruct (_ <=? _)).
  destruct (take_committed (g_node g3)) as [es n4]. cbn [fst snd] in M4, Htc. destruct Hce as [Hla4 Hidx].
  destruct Htc as [Hsto4 Hps4].
  destruct (apply_entries_state es (g3 <| g_node := n4 |>, []) (λ k e H, proj2 (Hidx k e H))) as [Hn4 Hst4].
  pose proof (apply_entries_responses es (g3 <| g_node := n4 |>, [])) as Hrsp.
  destruct (fold_left (apply_entry apply) es (g3 <| g_node := n4 |>, [])) as [g4 answered].
  cbn [fst snd] in Hn4, Hst4, Hrsp. cbn in Hn4, Hst4.
  pose proof (moves_trans _ _ _ _ _ _ _ _ _ _ M13 M4) as M14. cbn [app] in M14. rewrite app_nil_r in M14.
  set (c4 := exec c3 (TakeCommitted i)) in *.
  assert (Hindex : ∀ k e, es !! k = Some e → e_index e = n_last_applied (g_node g) + N.of_nat k + 1).
  { intros k e Hk. destruct (Hidx k e Hk) as [-> _]. by rewrite Hla3, Hla2, Hla. }
  destruct (maybe_compact snapshot g4) as [g5|] eqn:Hcp.
  2:{ intros Heq. apply pair_equal_spec in Heq as [[<- <-]%pair_equal_spec <-]. exists ms, es, c4. split.
      - intros m. rewrite !responses_app, Hrsp, dropped_responses. cbn. rewrite app_nil_r. apply Hrt.
      - split; [done|]. exists n4. by split. }
  pose proof (moves_on c4 i (λ n, (take_read_states n).2) (TakeReads i) (conj eq_refl I) eq_refl) as M5.
  rewrite (mv_node _ _ _ _ _ _ M4) in M5.
  pose proof (moves_trans _ _ _ _ _ _ _ _ _ _ M14 M5) as M15. rewrite !app_nil_r in M15.
  unfold answer_reads. cbn [take_read_states].
  set (g6 := g5 <| g_node := _ |> <| g_reads := _ |>).
  assert (Hfp : g_node (fail_parked g6).1 = g_node g6 ∧ g_state (fail_parked g6).1 = g_state g6 ∧ responses (fail_parked g6).2 = []).
  { unfold fail_parked. destruct (is_leader (g_node g6)); [done|]. split_and!; [done|done|]. cbn [snd].
    rewrite responses_app, !responses_fmap; done. }
  destruct (fail_parked g6) as [g7 failed]. cbn [fst snd] in Hfp. destruct Hfp as (Hn7 & Hst7 & Hr7).
  assert (Hex : let x := if ticked then expire tick_ms g7 else (g7, []) in
    g_node x.1 = g_node g7 ∧ g_state x.1 = g_state g7 ∧ responses x.2 = []).
  { destruct ticked; [|done]. split_and!; [done|done|]. unfold expire. cbn [snd]. by apply responses_fmap. }
  destruct (if ticked then _ else _) as [g8 late]. cbn [fst snd] in Hex. destruct Hex as (Hn8 & Hst8 & Hr8).
  intros Heq. apply pair_equal_spec in Heq as [[<- <-]%pair_equal_spec <-].
  exists ms, es, (exec c4 (TakeReads i)). split.
  - intros m. rewrite !responses_app, Hrsp, Hr7, Hr8. rewrite responses_fmap by done. cbn [app]. rewrite !app_nil_r. apply Hrt.
  - split; [done|]. exists (take_read_states n4).2. split; [exact M15|]. intros g' [= <-] Hsn.
    assert (g5 = g4) as ->.
    { apply (maybe_compact_uncompacted g4 g5); [rewrite Hn4, Hsto4; exact Hplain|exact Hcp|].
      cbn in Hsn. rewrite Hn8, Hn7 in Hsn. exact Hsn. }
    cbn [observe g_node g_state set_field]. cbn. rewrite Hn8, Hst8, Hn7, Hst7. unfold g6. cbn. rewrite Hn4. split_and!.
    + done.
    + by rewrite Hst4, Hst3, Hst1.
    + by rewrite Hps4.
    + by rewrite Hla4, Hla3, Hla2, Hla.
Qed.

(** ** A turn *)

Lemma run_entries_app es es' s : run_entries (es ++ es') s = run_entries es' (run_entries es s).
Proof. apply fold_left_app. Qed.

(** A turn that ends with the replica's group in state [og]. *)
Lemma gsim_update gc c i g ms es c' og net :
  gsim gc c → gc_groups gc i = Some g → drained c i g ms es c' og →
  (∀ m, m ∈ net → m ∈ ms) → uncompacted (mkGcluster (upd i og (gc_groups gc)) (gc_net gc ++ net)) →
  gsim (mkGcluster (upd i og (gc_groups gc)) (gc_net gc ++ net)) c'.
Proof.
  intros Hg Hi [Hidx (n' & Hm & Hog)] Hnet Hun.
  assert (Hown : ∀ g', og = Some g' → g_node g' = n' ∧ g_state g' = run_entries es (g_state g) ∧
    n_pending_snapshot n' = None ∧ n_last_applied n' = n_last_applied (g_node g) + N.of_nat (length es)).
  { intros g' ->. apply (Hog g' eq_refl), (Hun i). cbn. unfold upd. by rewrite N.eqb_refl. }
  pose proof (λ j, applied_by_moves c i n' ms es c' j Hm) as Hap.
  assert (Hcase : ∀ j g', gc_groups (mkGcluster (upd i og (gc_groups gc)) (gc_net gc ++ net)) j = Some g' →
    j = i ∧ og = Some g' ∨ j ≠ i ∧ gc_groups gc j = Some g').
  { intros j g'. cbn. unfold upd. destruct (N.eqb_spec j i); [by left|by right]. }
  pose proof (gs_length _ _ Hg i g Hi) as Hlen. split.
  - exact (reachable_moves _ _ _ _ _ _ (gs_reach _ _ Hg) Hm).
  - intros j g' [[-> Hj]|[Hne Hj]]%Hcase.
    + rewrite (mv_node _ _ _ _ _ _ Hm). by destruct (Hown _ Hj).
    + rewrite (mv_others _ _ _ _ _ _ Hm) by done. by apply (gs_node _ _ Hg).
  - intros m. cbn. rewrite (mv_net _ _ _ _ _ _ Hm), !elem_of_app. intros [Hin|Hin]; [left; by apply (gs_net _ _ Hg)|right; by apply Hnet].
  - intros j g' [[-> Hj]|[Hne Hj]]%Hcase; [by destruct (Hown _ Hj) as (-> & _ & ? & _)|by apply (gs_snap _ _ Hg j)].
  - intros j g' [[-> Hj]|[Hne Hj]]%Hcase; rewrite Hap.
    + rewrite N.eqb_refl, run_entries_app, <- (gs_state _ _ Hg i g Hi). by destruct (Hown _ Hj) as (_ & ? & _).
    + apply N.eqb_neq in Hne. rewrite Hne. by apply (gs_state _ _ Hg).
  - intros j g' [[-> Hj]|[Hne Hj]]%Hcase; rewrite Hap.
    + rewrite N.eqb_refl, length_app. destruct (Hown _ Hj) as (-> & _ & _ & ->). lia.
    + apply N.eqb_neq in Hne. rewrite Hne. by apply (gs_length _ _ Hg).
  - intros j k e. rewrite Hap. destruct (N.eqb_spec j i) as [->|]; [|apply (gs_index _ _ Hg)].
    rewrite lookup_app_Some. intros [Hk|[Hge Hk]]; [by apply (gs_index _ _ Hg) in Hk|]. apply Hidx in Hk. lia.
Qed.

(** The command of a turn is a move of the node. *)
Record acts c (i : N) g (cmd : Cmd) : Prop := mkActs {
  ac_not_stop : cmd ≠ GStop;
  ac_state : g_state (act cmd g).1.1 = g_state g;
  ac_quiet : responses (act cmd g).1.2 = [];
  ac_idle : idle (g_node g) (g_node (act cmd g).1.1);
  ac_moves : ∃ c1, moves c i (g_node (act cmd g).1.1) [] [] c1;
}.

Lemma gsim_turn gc c i g cmd :
  gsim gc c → gc_groups gc i = Some g → acts c i g cmd → uncompacted (on_group i cmd gc) →
  ∃ c', gsim (on_group i cmd gc) c'.
Proof.
  intros Hg Hi [Hns Hst Hq [Hla Hps] (c1 & M1)]. unfold on_group. rewrite Hi.
  assert (Hb : turn apply snapshot restore tick_ms cmd g = let '(g1, now, reply) := act cmd g in
    let '(rs, out, g2) := drain apply snapshot restore tick_ms (is_tick cmd) reply g1 in (now ++ rs, out, g2)) by by destruct cmd.
  rewrite Hb. clear Hb. destruct (act cmd g) as [[g1 now] reply]. cbn [fst snd] in *.
  destruct (drain _ _ _ _ _ _ g1) as [[rs out] og] eqn:Hd.
  pose proof (reachable_moves _ _ _ _ _ _ (gs_reach _ _ Hg) M1) as Hre.
  assert (Hn1 : g_node g1 = c_nodes c1 i) by (symmetry; apply M1).
  assert (Hp1 : n_pending_snapshot (g_node g1) = None) by (rewrite Hps; by apply (gs_snap _ _ Hg i)).
  destruct (drain_moves c1 i g1 _ _ _ _ _ Hre Hn1 Hp1 Hd) as (ms & es & c2 & Hms & [Hidx (n' & M2 & Hog)]).
  intros Hun. exists c2. apply (gsim_update gc c i g ms es c2); [done|done| | |exact Hun].
  - split; [intros k e Hk; rewrite <- Hla; by apply Hidx|]. exists n'.
    split; [exact (moves_trans _ _ _ _ _ _ _ _ _ _ M1 M2)|]. intros g' Hog' Hsn.
    destruct (Hog g' Hog' Hsn) as (? & ? & ? & ?). by rewrite <- Hst, <- Hla.
  - intros m. rewrite responses_app, Hq. apply Hms.
Qed.

Lemma act_step_acts c i g cmd m f :
  reachable c → g_node g = c_nodes c i → cmd = GStep m ∨ (∃ tx, cmd = GStepReply m tx) → no_snapshot m →
  allowed f → exec c f = on_node i (step m) c → acts c i g cmd.
Proof.
  intros Hre Hn Hc Hm Hs He. assert (Ha : (act cmd g).1 = (g <| g_node := step m (g_node g) |>, [])) by (destruct Hc as [->|[tx ->]]; done).
  split; rewrite ?Ha; cbn [fst snd].
  - by destruct Hc as [->|[tx ->]].
  - done.
  - done.
  - by apply step_idle.
  - exists (exec c f). rewrite Hn. exact (moves_on c i (step m) f Hs He).
Qed.

Lemma act_acts gc c e i cmd g :
  gsim gc c → gc_groups gc i = Some g → gallowed e →
  (i, cmd) = match e with
             | EvTick i => (i, GTick)
             | EvPropose i data tx => (i, GPropose data tx)
             | EvRead i tx => (i, GReadIndex tx)
             | EvTransfer i target tx => (i, GTransferLeader target tx)
             | EvCampaign i tx => (i, GStepReply (mkMessage i i 0 TimeoutNow) tx)
             | _ => (i, GStop)
             end → cmd ≠ GStop → acts c i g cmd.
Proof.
  intros Hg Hi [_ HPe] He Hns. pose proof (gs_node _ _ Hg i g Hi) as Hn.
  destruct e as [j|k tx|j data tx|j cc tx|j tx|j target tx|j tx|j];
    try (by injection He as ->); injection He as -> ->.
  - split; [done|done|done|apply tick_idle|]. exists (exec c (Tick j)). cbn [act fst snd]. cbn [g_node set_field]. cbn [g_node]. rewrite Hn.
    exact (moves_on c j tick (Tick j) (conj eq_refl I) eq_refl).
  - pose proof (moves_on c j (λ n, (propose data n).2) (Propose j data) (conj eq_refl HPe) eq_refl) as M.
    pose proof (propose_idle data (g_node g)) as Hid. rewrite <- Hn in M.
    split; [done| | | |exists (exec c (Propose j data))]; unfold act; destruct (propose data (g_node g)) as [[index|err] n]; try done;
      unfold park; cbn [fst snd]; try done. by destruct (bt_get _ _).
  - set (ctx := g_next_read_ctx g + 1).
    pose proof (moves_on c j (λ n, (read_index ctx n).2) (ReadIndex j ctx) (conj eq_refl I) eq_refl) as M.
    pose proof (read_index_idle ctx (g_node g)) as Hid. rewrite <- Hn in M.
    split; [done| | | |exists (exec c (ReadIndex j ctx))]; unfold act; fold ctx; destruct (read_index ctx (g_node g)) as [[index|err] n]; try done;
      unfold park_read; cbn [fst snd]; try done. by destruct (bt_get _ _).
  - pose proof (moves_on c j (λ n, (transfer_leadership target n).2) (Transfer j target) (conj eq_refl I) eq_refl) as M.
    pose proof (transfer_idle target (g_node g)) as Hid. rewrite <- Hn in M.
    split; [done| | | |exists (exec c (Transfer j target))]; unfold act; by destruct (transfer_leadership target (g_node g)) as [res n].
  - apply (act_step_acts c j g _ (mkMessage j j 0 TimeoutNow) (Campaign j)); [apply Hg|done|right; by exists tx|done|done|done].
Qed.

Lemma gsim_exec gc c e :
  gsim gc c → gallowed e → uncompacted (gexec gc e) → ∃ c', gsim (gexec gc e) c'.
Proof.
  intros Hg Hal Hun. pose proof (proj1 Hal) as Hnc.
  assert (Hcmd : ∀ i cmd, (∀ g, gc_groups gc i = Some g → acts c i g cmd) → uncompacted (on_group i cmd gc) →
    ∃ c', gsim (on_group i cmd gc) c').
  { intros i cmd Ha Hu. destruct (gc_groups gc i) as [g|] eqn:Hi.
    - by apply (gsim_turn gc c i g cmd Hg Hi (Ha g eq_refl)).
    - exists c. unfold on_group. by rewrite Hi. }
  destruct e as [i|k tx|i data tx|i cc tx|i tx|i target tx|i tx|i]; cbn [gexec] in *; try done.
  - apply Hcmd; [|done]. intros g Hi. by apply (act_acts gc c (EvTick i)).
  - destruct (gc_net gc !! k) as [m|] eqn:Hk; [|by exists c]. apply Hcmd; [|done]. intros g Hi.
    apply list_elem_of_lookup_2, (gs_net _ _ Hg) in Hk. apply list_elem_of_lookup in Hk as [k' Hk'].
    destruct (reachable_sim c (gs_reach _ _ Hg)) as (gh & net & Hsim).
    assert (Hns : no_snapshot m).
    { pose proof (sim_deliverable B gh c net m Hsim (sim_net _ _ _ _ Hsim m (list_elem_of_lookup_2 _ _ _ Hk'))) as Hd.
      unfold deliverable, no_snapshot in *. by destruct (m_body m). }
    apply (act_step_acts c (m_to m) g _ m (Deliver k')); [apply Hg|by apply (gs_node _ _ Hg)| |done|done|].
    + destruct tx as [tx|]; [right; by exists tx|by left].
    + cbn. by rewrite Hk'.
  - apply Hcmd; [|done]. intros g Hi. by apply (act_acts gc c (EvPropose i data tx)).
  - apply Hcmd; [|done]. intros g Hi. by apply (act_acts gc c (EvRead i tx)).
  - apply Hcmd; [|done]. intros g Hi. by apply (act_acts gc c (EvTransfer i target tx)).
  - apply Hcmd; [|done]. intros g Hi. by apply (act_acts gc c (EvCampaign i tx)).
  - unfold on_group in *. destruct (gc_groups gc i) as [g|] eqn:Hi; [|by exists c]. exists c. cbn in Hun |- *.
    assert (Hcase : ∀ j g', upd i None (gc_groups gc) j = Some g' → gc_groups gc j = Some g').
    { intros j g'. unfold upd. by destruct (j =? i). }
    destruct Hg as [H1 H2 H3 H4 H5 H6 H7]. split; cbn; try (intros j g' Hj%Hcase); eauto.
    intros m. rewrite dropped_responses, app_nil_r. apply H3.
Qed.

Lemma gsim_init : gsim ginit (cluster_init cfgs).
Proof.
  assert (Hn : ∀ i, n_last_applied (RaftNode_new (Config_new i B) MemStorage_new) = 0 ∧
    n_pending_snapshot (RaftNode_new (Config_new i B) MemStorage_new) = None).
  { intros i. unfold RaftNode_new. match goal with |- context [recompute_conf ?x] => destruct (recompute_conf_idle x) as [-> ->] end. done. }
  split; cbn; try done.
  - exists []. by split.
  - by intros i g [= <-].
  - intros i g [= <-]. apply Hn.
  - by intros i g [= <-].
  - intros i g [= <-]. cbn. symmetry. apply Hn.
Qed.

(** Every execution without membership changes or compactions is one of the group. *)
Lemma gsim_run evs :
  Forall gallowed evs → (∀ evs1 evs2, evs = evs1 ++ evs2 → uncompacted (grun evs1)) →
  ∃ c, gsim (grun evs) c.
Proof.
  induction evs as [|e evs IH] using rev_ind; intros Hnc Hun; [exists (cluster_init cfgs); apply gsim_init|].
  apply Forall_app in Hnc as [Hnc [He _]%Forall_cons].
  destruct IH as [c Hg]; [done| |].
  { intros evs1 evs2 ->. apply (Hun evs1 (evs2 ++ [e])). by rewrite app_assoc. }
  unfold grun. rewrite fold_left_app. cbn. apply (gsim_exec _ c); [exact Hg|done|].
  specialize (Hun (evs ++ [e]) []). rewrite app_nil_r in Hun. specialize (Hun eq_refl). unfold grun in Hun.
  by rewrite fold_left_app in Hun.
Qed.

(** Replicas that applied as many entries applied the same. *)
Lemma applied_logs_same gc c i j gi gj :
  gsim gc c → gc_groups gc i = Some gi → gc_groups gc j = Some gj →
  n_last_applied (g_node gi) = n_last_applied (g_node gj) → applied_by i c = applied_by j c.
Proof.
  intros Hg Hi Hj Hla. pose proof (gs_length _ _ Hg i gi Hi) as Li. pose proof (gs_length _ _ Hg j gj Hj) as Lj.
  destruct (reachable_sim c (gs_reach _ _ Hg)) as (gh & net & Hsim).
  assert (Hin : ∀ a k e, applied_by a c !! k = Some e → (a, e) ∈ c_applied c).
  { intros a k e Hk. apply list_elem_of_lookup_2 in Hk. unfold applied_by in Hk.
    apply list_elem_of_omap in Hk as ([b e'] & Hin & Hb). cbn in Hb. destruct (N.eqb_spec b a) as [->|]; [|done].
    by injection Hb as ->. }
  apply list_eq_same_length with (length (applied_by i c)); [lia|lia|].
  intros k e e' _ He He'. apply (applied_agree B gh c net i j e e' Hsim); [by eapply Hin|by eapply Hin|].
  by rewrite (gs_index _ _ Hg _ _ _ He), (gs_index _ _ Hg _ _ _ He').
Qed.

(** Every entry a replica applied was proposed. *)
Lemma data_run evs :
  Forall allowed evs →
  (∀ i, data_ok P (c_nodes (run cfgs evs) i)) ∧ Forall (carried P) (c_net (run cfgs evs)) ∧
  Forall (λ p, P (e_data p.2)) (c_applied (run cfgs evs)).
Proof.
  induction evs as [|e evs IH] using rev_ind; intros Ha.
  { split_and!; [|done|done]. intros i. unfold run. cbn. unfold RaftNode_new. apply recompute_conf_data. by split. }
  apply Forall_app in Ha as [Ha [[Hst HPe] _]%Forall_cons]. destruct (IH Ha) as (Hn & Hnet & Hap).
  destruct (reachable_sim (run cfgs evs)) as (gh & net & Hsim); [by exists evs|].
  unfold run in *. rewrite fold_left_app. cbn [fold_left]. set (c := fold_left exec evs (cluster_init cfgs)) in *.
  assert (Hon : ∀ i f, (data_ok P (c_nodes c i) → data_ok P (f (c_nodes c i))) →
    (∀ j, data_ok P (c_nodes (on_node i f c) j)) ∧ Forall (carried P) (c_net (on_node i f c)) ∧
    Forall (λ p, P (e_data p.2)) (c_applied (on_node i f c))).
  { intros i f Hf. split_and!; [|done|done]. intros j. cbn. unfold upd. destruct (N.eqb_spec j i) as [->|]; [|done]. by apply Hf. }
  destruct e as [i|k|i data|i ctx|i target|i|i|i|i|i|i cc|i index data|i]; try done; cbn [RaftCluster.exec].
  - apply Hon, tick_data.
  - destruct (c_net c !! k) as [m|] eqn:Hk; [|done]. pose proof (list_elem_of_lookup_2 _ _ _ Hk) as Hm. apply Hon, step_data.
    + pose proof (sim_deliverable B gh c net m Hsim (sim_net _ _ _ _ Hsim m Hm)) as Hd.
      unfold deliverable, no_snapshot in *. by destruct (m_body m).
    + rewrite list.Forall_forall in Hnet. by apply Hnet.
  - by apply Hon, propose_data.
  - apply Hon, read_index_data.
  - apply Hon, transfer_data.
  - split_and!; [|by apply Forall_app_2; [|apply Hn]|done]. intros j. cbn. unfold upd. destruct (N.eqb_spec j i) as [->|]; [|done].
    destruct (Hn i). by split.
  - pose proof (Hn i) as [Hl Ho]. assert (He : Forall (λ e, P (e_data e)) (take_committed (c_nodes c i)).1).
    { unfold take_committed. destruct (_ <=? _); [done|]. by apply entries_data. }
    assert (Hd : data_ok P (take_committed (c_nodes c i)).2) by (unfold take_committed; by destruct (_ <=? _)).
    destruct (take_committed (c_nodes c i)) as [es n]. cbn [fst snd] in *. split_and!; [|done|].
    + intros j. cbn. unfold upd. by destruct (N.eqb_spec j i) as [->|].
    + cbn. apply Forall_app_2; [done|]. rewrite Forall_map. done.
  - apply Hon. intros [? ?]. by split.
  - apply Hon. intros [? ?]. by split.
  - apply Hon. intros [? ?]. unfold RaftNode_new. apply recompute_conf_data. by split.
  - apply Hon, step_data; done.
Qed.

Lemma applied_proposed gc c i : gsim gc c → Forall (λ e, P (e_data e)) (applied_by i c).
Proof.
  intros Hg. destruct (gs_reach _ _ Hg) as (evs & Ha & ->). destruct (data_run evs Ha) as (_ & _ & Hap).
  apply list.Forall_forall. intros e He. unfold applied_by in He. apply list_elem_of_omap in He as ([b e'] & Hin & Hb). cbn in Hb.
  destruct (b =? i); [|done]. injection Hb as ->. rewrite list.Forall_forall in Hap. by apply (Hap (b, e)).
Qed.
End Replicas.
