(* ===== verification/GroupTheorems.v ===== *)
(** The replicas of a region: correctness statements and concrete runs at which they
    apply. *)

From stdpp Require Import base list numbers strings gmap.
From Stdlib Require Import Strings.Byte.
From S2P Require Import Prelude Crc Keys Batch OrdMap Memtable Db DbCorrect Engine EngineApi Mvcc MvccCorrect.
From S2P Require Import Percolator TxnCorrect Scan PdRegion Ap RaftCmd RaftCmdCorrect EngineTheorems.
From S2P Require Import Cursor RaftMessage RaftStorage RaftNode RaftProto RaftRefine RaftCluster.
From S2P Require Import GroupActor GroupActorCorrect GroupCluster.

(** The closures a region's group is started with. *)
Section Region.
Context {E : Type} `{EngineLaws E} (fuel : nat) (regions : RegionRegistry) (region_id : N) (start end_ : bytes)
  (tick_ms : N) (B : list N) (e0 : N → E).

Definition region_run (evs : list gevent) : gcluster E :=
  grun make_apply (make_snapshot fuel regions region_id start end_) make_restore tick_ms B e0 evs.

Lemma run_entries_log (es : list Entry) (e : E) : run_entries make_apply es e = (apply_log (e_data <$> es) e).1.
Proof.
  revert e. induction es as [|x es IH]; intros e; [done|]. unfold run_entries in *. cbn. rewrite IH.
  destruct (make_apply (e_data x) e) as [e1 r]. cbn. by destruct (apply_log (e_data <$> es) e1).
Qed.

(** An entry some caller proposed in [evs], or the empty one a leader starts its term with. *)
Definition proposed_in (evs : list gevent) (data : bytes) : Prop :=
  data = [] ∨ ∃ i tx, EvPropose i data tx ∈ evs.

Lemma gallowed_proposed evs :
  Forall (gallowed small_entry) evs → Forall (gallowed (λ d, small_entry d ∧ proposed_in evs d)) evs.
Proof.
  rewrite !list.Forall_forall. intros Ha e He. destruct (Ha e He) as [Hc Hp]. split; [done|].
  destruct e as [| |i data tx| | | | |]; try done. split; [done|]. right. by exists i, tx.
Qed.

(** C18. The replicas of a region agree, until the first of them compacts its log (the actor
    does so once 64 entries are applied above its base) and while membership is static:
    whatever the network does to messages and whichever replicas stop, two replicas that have
    applied as many entries applied the same ones, each proposed by a caller or the empty entry of
    a new leader, hold one store and answer every read alike. *)
Theorem replicas_agree st evs i j gi gj :
  (∀ i, holds (e0 i) st) → Forall (gallowed small_entry) evs →
  (∀ evs1 evs2, evs = evs1 ++ evs2 → uncompacted (region_run evs1)) →
  gc_groups (region_run evs) i = Some gi → gc_groups (region_run evs) j = Some gj →
  n_last_applied (g_node gi) = n_last_applied (g_node gj) →
  ∃ log, Forall (proposed_in evs) log ∧ length log = N.to_nat (n_last_applied (g_node gi)) ∧
    g_state gi = (apply_log log (e0 i)).1 ∧ g_state gj = (apply_log log (e0 j)).1 ∧
    (∃ st', holds (g_state gi) st' ∧ holds (g_state gj) st') ∧
    ∀ key ts, mvcc_get_unresolved key ts (g_state gi) = mvcc_get_unresolved key ts (g_state gj).
Proof.
  intros Hst Hev Hun Hi Hj Hla.
  destruct (gsim_run make_apply (make_snapshot fuel regions region_id start end_) make_restore tick_ms B e0
    (λ d, small_entry d ∧ proposed_in evs d) (conj I (or_introl eq_refl)) evs (gallowed_proposed evs Hev) Hun) as [c Hg].
  pose proof (gs_state _ _ _ _ _ _ Hg i gi Hi) as Hsi. pose proof (gs_state _ _ _ _ _ _ Hg j gj Hj) as Hsj.
  pose proof (gs_length _ _ _ _ _ _ Hg i gi Hi) as Hlen. rewrite run_entries_log in Hsi, Hsj.
  rewrite <- (applied_logs_same _ _ _ _ _ _ _ _ _ _ Hg Hi Hj Hla) in Hsj.
  pose proof (applied_proposed _ _ _ _ _ _ i Hg) as Hsm.
  assert (Hboth : Forall (λ d, small_entry d ∧ proposed_in evs d) (e_data <$> applied_by i c)) by by rewrite Forall_fmap.
  apply Forall_and in Hboth as [Hlog Hprop]. exists (e_data <$> applied_by i c).
  destruct (apply_log_alike (e_data <$> applied_by i c) (e0 i) (e0 j) st Hlog (Hst i) (Hst j)) as (st' & Ha & Hb & _).
  split_and!; [done|rewrite length_fmap; lia|done|done|exists st'; by rewrite Hsi, Hsj|].
  intros key ts. rewrite Hsi, Hsj. by apply (mvcc_reads_alike _ _ st').
Qed.
End Region.

Section Requests.
Context {St E : Type} `{Storage St}.
Context (apply : bytes → E → E * Result unit) (snapshot : E → bytes) (restore : bytes → E → E) (tick_ms : N).

(** C19. No caller is left waiting or answered twice: each request given to a group's actor
    is answered at most once, and a proposal exactly once, at the latest when the deadline of
    five seconds has passed, whatever the node, its peers and the other callers do. *)
Theorem requests_answered_once cs (g : Group St E) data tx :
  group_ok g → NoDup (tickets g ++ concat (new_tickets <$> GPropose data tx :: cs)) →
  N.max (deadline_ticks tick_ms) 1 ≤ ticks cs →
  let '(rs, _, _) := run_actor apply snapshot restore tick_ms (GPropose data tx :: cs) (Some g) in
  NoDup rs.*1 ∧ ∃ r, (tx, RProposed r) ∈ rs ∧ ∀ x, (tx, x) ∈ rs → x = RProposed r.
Proof.
  intros Hok Hnd Hle. destruct (run_actor _ _ _ _ _ _) as [[rs out] og] eqn:Hr.
  destruct (run_actor_tickets apply snapshot restore tick_ms (GPropose data tx :: cs) (Some g) rs out og) as [_ Hp];
    [by intros ? [= <-]|done|]. cbn [all_tickets] in Hp.
  assert (Hnr : NoDup rs.*1) by (rewrite Hp in Hnd; by apply NoDup_app in Hnd as [? _]).
  split; [done|].
  destruct (proposal_deadline apply snapshot restore tick_ms data tx cs g rs out og Hok Hle Hr) as [r Hin].
  exists r. split; [done|]. intros x Hx. by apply (answered_once tx rs).
Qed.
End Requests.

(** * Concrete runs *)

(** The replica that acts. *)
Definition actor_of {E} (gc : gcluster E) (e : gevent) : N :=
  match e with
  | EvTick i | EvPropose i _ _ | EvConf i _ _ | EvRead i _ | EvTransfer i _ _ | EvCampaign i _ | EvStop i => i
  | EvDeliver k _ => match gc_net gc !! k with Some m => m_to m | None => 0 end
  end.

(** No turn of the run compacts. *)
Fixpoint never_compacts {E} (exec : gcluster E → gevent → gcluster E) (evs : list gevent) (gc : gcluster E) : bool :=
  match evs with
  | [] => true
  | e :: evs =>
    let gc' := exec gc e in
    match gc_groups gc' (actor_of gc e) with
    | Some g => match ms_snap (n_storage (g_node g)) with None => true | Some _ => false end
    | None => true
    end && never_compacts exec evs gc'
  end.

Lemma never_compacts_uncompacted {E} apply snapshot restore tick_ms evs (gc : gcluster E) :
  uncompacted gc → never_compacts (gexec apply snapshot restore tick_ms) evs gc = true →
  ∀ evs1 evs2, evs = evs1 ++ evs2 → uncompacted (fold_left (gexec apply snapshot restore tick_ms) evs1 gc).
Proof.
  revert gc. induction evs as [|e evs IH]; intros gc Hu Hn evs1 evs2 He.
  { destruct evs1; [done|discriminate He]. }
  destruct evs1 as [|e1 evs1]; [done|]. injection He as <- ->. cbn [never_compacts] in Hn.
  apply andb_true_iff in Hn as [H1 H2]. cbn [fold_left]. refine (IH _ _ H2 evs1 evs2 eq_refl).
  assert (Hon : ∀ i cmd,
    match gc_groups (on_group apply snapshot restore tick_ms i cmd gc) i with
    | Some g => match ms_snap (n_storage (g_node g)) with None => true | Some _ => false end | None => true end = true →
    uncompacted (on_group apply snapshot restore tick_ms i cmd gc)).
  { intros i cmd Hi j g Hj. destruct (N.eq_dec j i) as [->|Hne].
    - rewrite Hj in Hi. by destruct (ms_snap _).
    - apply (Hu j). unfold on_group in Hj. destruct (gc_groups gc i); [|done].
      destruct (turn _ _ _ _ _ _) as [[rs out] g']. cbn in Hj. unfold upd in Hj. apply N.eqb_neq in Hne. by rewrite Hne in Hj. }
  destruct e; cbn [gexec actor_of] in *; try (by apply Hon). destruct (gc_net gc !! k); [by apply Hon|done].
Qed.

(** Node 1 is elected by node 2 and a put is replicated to it; both apply it. *)
Definition ex_put : bytes := Command_encode (Autocommit (committed_batch [x61] (VPut [x31]) 50 50)).
Definition ex_replication : list gevent :=
  [EvCampaign 1 100; EvDeliver 0 (Some 101); EvDeliver 2 None; EvPropose 1 ex_put 7;
   EvDeliver 7 (Some 102); EvDeliver 9 None; EvTick 1; EvDeliver 10 (Some 103)].
#[local] Abbreviation ex_region := (region_run 9 in_memory 99 [] [] 30 [1; 2; 3] (λ _, ex_c0)).

Lemma ex_replication_uncompacted evs1 evs2 : ex_replication = evs1 ++ evs2 → uncompacted (ex_region evs1).
Proof.
  apply never_compacts_uncompacted; [|vm_compute; reflexivity]. intros i g [= <-].
  destruct (RaftNode_new_ok [1; 2; 3] i (Config_new i [1; 2; 3]) MemStorage_new eq_refl eq_refl) as (Hok & _); [by split|].
  apply (no_storage _ _ _ Hok).
Qed.

(** Both applied the leader's empty entry and the put; they read it alike. *)
Lemma replicas_agree_witness :
  n_last_applied <$> (g_node <$> gc_groups (ex_region ex_replication) 2) = Some 2 ∧
  ∀ g1 g2, gc_groups (ex_region ex_replication) 1 = Some g1 → gc_groups (ex_region ex_replication) 2 = Some g2 →
    mvcc_get_unresolved [x61] 60 (g_state g1) = mvcc_get_unresolved [x61] 60 (g_state g2).
Proof.
  split; [vm_compute; reflexivity|]. intros g1 g2 H1 H2.
  destruct (replicas_agree 9 in_memory 99 [] [] 30 [1; 2; 3] (λ _, ex_c0) empty_store ex_replication 1 2 g1 g2) as (log & _ & _ & _ & _ & _ & Hr).
  - intros i. apply ex_holds0.
  - repeat (constructor; [split; [done|try exact I]|]); [|constructor]. repeat constructor; by vm_compute.
  - apply ex_replication_uncompacted.
  - exact H1.
  - exact H2.
  - assert (E : n_last_applied <$> (g_node <$> gc_groups (ex_region ex_replication) 1) =
      n_last_applied <$> (g_node <$> gc_groups (ex_region ex_replication) 2)) by (vm_compute; reflexivity).
    rewrite H1, H2 in E. injection E as E. exact E.
  - apply Hr.
Defined.

(** A follower that is given a put, and ticks for five seconds. *)
Definition ex_follower : Group MemStorage (Core (gmap bytes MemValue)) := GroupActor.start 1 [1; 2; 3] MemStorage_new ex_c0.

Lemma requests_answered_once_witness :
  let '(rs, _, _) := run_actor make_apply (make_snapshot 9 in_memory 99 [] []) make_restore 1000
    (GPropose ex_put 7 :: replicate 5 GTick) (Some ex_follower) in
  NoDup rs.*1 ∧ ∃ r, (7, RProposed r) ∈ rs ∧ ∀ x, (7, x) ∈ rs → x = RProposed r.
Proof.
  apply (requests_answered_once make_apply (make_snapshot 9 in_memory 99 [] []) make_restore 1000 (replicate 5 GTick) ex_follower ex_put 7).
  - split; constructor.
  - cbn. repeat constructor. set_solver.
  - vm_compute. discriminate.
Defined.
