(* ===== verification/Catalog.v ===== *)
(** A data node's copy of the catalog ([server/src/catalog.rs]): the tables by id and by
    name.  [Table] has the fields of PD's ([PdCluster.Table]); names are byte strings.  The
    lock-protected [Arc<Tables>] is the value it holds: an update replaces it. *)

From stdpp Require Import base list numbers gmap sorting.
From Stdlib Require Import Strings.Byte Sorting.Sorted.
From S2P Require Import Prelude Cursor Keys PdRegion PdCluster PdFsm.

Definition default_table : Table := mkTable DEFAULT_TABLE_ID DEFAULT_TABLE_NAME Cp.

(** [by_name] is a hash map, [by_id] an ordered one. *)
Record Tables := mkTables {
  t_by_name : gmap bytes N;
  t_by_id : btree Table;
}.

(** [by_id.entry(DEFAULT_TABLE_ID).or_insert_with(..)]. *)
Definition with_default (by_id : btree Table) : btree Table :=
  match bt_get DEFAULT_TABLE_ID by_id with
  | Some _ => by_id
  | None => bt_insert DEFAULT_TABLE_ID default_table by_id
  end.

Definition Tables_from (tables : list Table) : Tables :=
  let by_id := with_default (fold_left (λ m t, bt_insert (tb_id t) t m) tables []) in
  mkTables (fold_left (λ m t, <[tb_name t := tb_id t]> m) by_id.*2 ∅) by_id.

Definition Tables_bootstrap : Tables := Tables_from [default_table].

Definition id_of (name : bytes) (t : Tables) : option N :=
  if is_empty name then Some DEFAULT_TABLE_ID else t_by_name t !! name.

Definition Tables_get (id : N) (t : Tables) : option Table := bt_get id (t_by_id t).

Definition Tables_regime_of (name : bytes) (t : Tables) : option Regime :=
  id ← id_of name t;
  tb_regime <$> Tables_get id t.

Definition Tables_list (t : Tables) : list Table := (t_by_id t).*2.

Definition regime_of_key (stored_key : bytes) (t : Tables) : Regime :=
  match Tables_get (table_id_of stored_key) t with Some t => tb_regime t | None => Cp end.

(** [Catalog::install] and [Catalog::insert]. *)
Definition install (tables : list Table) (_ : Tables) : Tables := Tables_from tables.

Definition Catalog_insert (table : Table) (cur : Tables) : Tables :=
  let tables := List.filter (λ t, negb (tb_id t =? tb_id table) && negb (bool_decide (tb_name t = tb_name table))) (Tables_list cur) in
  install (tables ++ [table]) cur.
