(* ===== verification/Grpc.v ===== *)
(** Statuses of remote calls ([tonic::Status]), as the callers of the nodes and of the
    placement driver see them, and the operations on their text. *)

From stdpp Require Import base list numbers strings.
From S2P Require Import Prelude Ap.

Inductive Code := InvalidArgumentCode | DeadlineExceededCode | NotFoundCode | AlreadyExistsCode | FailedPreconditionCode
  | UnimplementedCode | InternalCode | UnavailableCode.

#[export] Instance code_eq_dec : EqDecision Code.
Proof. solve_decision. Defined.

(** [ts_source] is whether it has a source error, as a failure of the transport does and a
    status sent by a server does not. *)
Record TStatus := mkTStatus { ts_source : bool; ts_code : Code; ts_message : string }.

#[export] Instance tstatus_eq_dec : EqDecision TStatus.
Proof. solve_decision. Defined.

(** A handler's status, as it arrives. *)
Definition server_status (s : Status) : TStatus :=
  match s with
  | Internal m => mkTStatus false InternalCode m
  | InvalidArg m => mkTStatus false InvalidArgumentCode m
  | FailedPrecondition m => mkTStatus false FailedPreconditionCode m
  | Unavailable m => mkTStatus false UnavailableCode m
  end.

(** * Text *)

(** [str::starts_with]. *)
Definition starts_with (p m : string) : bool := String.prefix p m.

(** The rest of the string after a prefix. *)
Fixpoint strip_prefix (p m : string) : option string :=
  match p, m with
  | EmptyString, m => Some m
  | String a p, String b m => if Ascii.eqb a b then strip_prefix p m else None
  | _, EmptyString => None
  end.

(** [str::split_once], the part after the first occurrence. *)
Fixpoint after_first (p m : string) : option string :=
  match strip_prefix p m with
  | Some rest => Some rest
  | None => match m with EmptyString => None | String _ m => after_first p m end
  end.

(** [str::contains]. *)
Definition contains_str (p m : string) : bool := match after_first p m with Some _ => true | None => false end.

(** [char::is_whitespace], for ASCII. *)
Definition is_space (a : Ascii.ascii) : bool :=
  let n := Ascii.N_of_ascii a in (n =? 32) || ((9 <=? n) && (n <=? 13)).

Fixpoint trim_start (s : string) : string :=
  match s with
  | String a s' => if is_space a then trim_start s' else s
  | EmptyString => EmptyString
  end.

Fixpoint string_rev (acc s : string) : string :=
  match s with EmptyString => acc | String a s => string_rev (String a acc) s end.

(** [str::trim]. *)
Definition trim (s : string) : string :=
  let rev := string_rev EmptyString in rev (trim_start (rev (trim_start s))).

(** [str::split] at a character. *)
Fixpoint split_char (c : Ascii.ascii) (s : string) : list string :=
  match s with
  | EmptyString => [EmptyString]
  | String a s =>
    if Ascii.eqb a c then EmptyString :: split_char c s else
    match split_char c s with
    | x :: xs => String a x :: xs
    | [] => [String a EmptyString]
    end
  end.
