(* ===== verification/RaftTransport.v ===== *)
(** Raft over RPCs: the wire forms of messages ([server/src/raft_transport.rs], and
    [pd/src/raft_wire.rs] for PD's one group), the service that steps a request into its group
    ([RaftApi] in [server/src/lib.rs]) and the sender that feeds a response back
    ([server/src/raft_group.rs]).

    The conversions of a message of the wrong kind are [unreachable!], here [None]. *)

From stdpp Require Import base list numbers strings gmap.
From Stdlib Require Import Strings.Byte.
From S2P Require Import Prelude Grpc Cursor RaftMessage RaftStorage RaftNode GroupActor.

(** * The wire *)

Record LogEntryPb := mkLogEntryPb { le_term : N; le_index : N; le_data : bytes; le_entry_type : N }.

Record RequestVoteRequest := mkVoteRequest {
  vq_term : N; vq_candidate_id : N; vq_last_log_index : N; vq_last_log_term : N; vq_group_id : N;
}.
Record RequestVoteResponse := mkVoteResponse { vp_term : N; vp_vote_granted : bool }.

Record AppendEntriesRequest := mkAppendRequest {
  aq_term : N; aq_leader_id : N; aq_prev_log_index : N; aq_prev_log_term : N; aq_entries : list LogEntryPb;
  aq_leader_commit : N; aq_group_id : N; aq_read_round : N;
}.
Record AppendEntriesResponse := mkAppendResponse { ar_term : N; ar_success : bool; ar_match_index : N; ar_read_round : N }.

Record InstallSnapshotRequest := mkSnapshotRequest {
  sq_term : N; sq_leader_id : N; sq_last_included_index : N; sq_last_included_term : N; sq_data : bytes;
  sq_group_id : N; sq_conf_state : list N; sq_learners : list N;
}.
Record InstallSnapshotResponse := mkSnapshotResponse { sp_term : N }.

Record TimeoutNowRequest := mkTimeoutRequest { tq_term : N; tq_leader_id : N; tq_group_id : N }.

Definition ENTRY_NORMAL : N := 0.
Definition ENTRY_CONF_CHANGE : N := 1.

Definition entry_to_proto (e : Entry) : LogEntryPb :=
  mkLogEntryPb (e_term e) (e_index e) (e_data e)
    (match e_type e with Normal => ENTRY_NORMAL | ConfChangeEntry => ENTRY_CONF_CHANGE end).

Definition entry_from_proto (p : LogEntryPb) : Entry :=
  mkEntry (le_term p) (le_index p) (if le_entry_type p =? ENTRY_CONF_CHANGE then ConfChangeEntry else Normal) (le_data p).

(** ** A message as a request *)

Definition vote_request (m : Message) (group_id : N) : option RequestVoteRequest :=
  match m_body m with
  | RequestVote lli llt => Some (mkVoteRequest (m_term m) (m_from m) lli llt group_id)
  | _ => None
  end.

Definition append_request (m : Message) (group_id : N) : option AppendEntriesRequest :=
  match m_body m with
  | AppendEntries pli plt es lc rr =>
    Some (mkAppendRequest (m_term m) (m_from m) pli plt (entry_to_proto <$> es) lc group_id rr)
  | _ => None
  end.

Definition install_snapshot_request (m : Message) (group_id : N) : option InstallSnapshotRequest :=
  match m_body m with
  | InstallSnapshot lii lit cs ls data => Some (mkSnapshotRequest (m_term m) (m_from m) lii lit data group_id cs ls)
  | _ => None
  end.

Definition timeout_now_request (m : Message) (group_id : N) : option TimeoutNowRequest :=
  match m_body m with
  | TimeoutNow => Some (mkTimeoutRequest (m_term m) (m_from m) group_id)
  | _ => None
  end.

(** ** A request as a message *)

Definition vote_request_to_msg (req : RequestVoteRequest) (self_id : N) : Message :=
  mkMessage (vq_candidate_id req) self_id (vq_term req) (RequestVote (vq_last_log_index req) (vq_last_log_term req)).

Definition append_request_to_msg (req : AppendEntriesRequest) (self_id : N) : Message :=
  mkMessage (aq_leader_id req) self_id (aq_term req)
    (AppendEntries (aq_prev_log_index req) (aq_prev_log_term req) (entry_from_proto <$> aq_entries req)
       (aq_leader_commit req) (aq_read_round req)).

Definition install_snapshot_request_to_msg (req : InstallSnapshotRequest) (self_id : N) : Message :=
  mkMessage (sq_leader_id req) self_id (sq_term req)
    (InstallSnapshot (sq_last_included_index req) (sq_last_included_term req) (sq_conf_state req) (sq_learners req) (sq_data req)).

Definition timeout_now_request_to_msg (req : TimeoutNowRequest) (self_id : N) : Message :=
  mkMessage (tq_leader_id req) self_id (tq_term req) TimeoutNow.

(** ** A reply as a response, and back *)

Definition vote_response (reply : option Message) : RequestVoteResponse :=
  match reply with
  | Some m => match m_body m with RequestVoteResp granted => mkVoteResponse (m_term m) granted | _ => mkVoteResponse 0 false end
  | None => mkVoteResponse 0 false
  end.

Definition append_response (reply : option Message) : AppendEntriesResponse :=
  match reply with
  | Some m =>
    match m_body m with
    | AppendEntriesResp success mi rr => mkAppendResponse (m_term m) success mi rr
    | _ => mkAppendResponse 0 false 0 0
    end
  | None => mkAppendResponse 0 false 0 0
  end.

Definition install_snapshot_response (reply : option Message) : InstallSnapshotResponse :=
  mkSnapshotResponse (match reply with Some m => m_term m | None => 0 end).

Definition vote_response_to_msg (resp : RequestVoteResponse) (peer self_id : N) : Message :=
  mkMessage peer self_id (vp_term resp) (RequestVoteResp (vp_vote_granted resp)).

Definition append_response_to_msg (resp : AppendEntriesResponse) (peer self_id : N) : Message :=
  mkMessage peer self_id (ar_term resp) (AppendEntriesResp (ar_success resp) (ar_match_index resp) (ar_read_round resp)).

Definition install_snapshot_response_to_msg (resp : InstallSnapshotResponse) (peer self_id sent_index : N) : Message :=
  mkMessage peer self_id (sp_term resp) (InstallSnapshotResp sent_index).

(** * The service *)

(** The requests of [RaftService] and their responses. *)
Inductive RaftReq :=
  | QVote (r : RequestVoteRequest)
  | QAppend (r : AppendEntriesRequest)
  | QSnapshot (r : InstallSnapshotRequest)
  | QTimeout (r : TimeoutNowRequest).

Inductive RaftResp :=
  | PVote (r : RequestVoteResponse)
  | PAppend (r : AppendEntriesResponse)
  | PSnapshot (r : InstallSnapshotResponse)
  | PTimeout.

Section service.
Context {St E : Type} `{Storage St}.
Context (apply : bytes → E → E * Result unit) (snapshot : E → bytes) (restore : bytes → E → E) (tick_ms : N).

(** A group as its handle sees it: an id, and the actor, gone once it stopped. *)
Record Hosted := mkHosted { h_id : N; h_actor : option (Group St E) }.

(** What the reply channel of ticket [tx] got. *)
Definition reply_on (tx : N) (rs : list (N * Reply)) : option Message :=
  match List.find (λ p : N * Reply, p.1 =? tx) rs with
  | Some (_, RMessage m) => m
  | _ => None
  end.

(** [step_reply]: the reply, the messages for the sender and the group after the turn. *)
Definition step_reply (tx : N) (m : Message) (h : Hosted) : option Message * list Message * Hosted :=
  match h_actor h with
  | None => (None, [], h)
  | Some g =>
    let '(rs, out, g) := turn apply snapshot restore tick_ms (GStepReply m tx) g in
    (reply_on tx rs, out, mkHosted (h_id h) g)
  end.

Definition handle_request_vote_rpc (tx : N) (req : RequestVoteRequest) (h : Hosted) : RaftResp * list Message * Hosted :=
  let '(reply, out, h) := step_reply tx (vote_request_to_msg req (h_id h)) h in (PVote (vote_response reply), out, h).

Definition handle_append_entries_rpc (tx : N) (req : AppendEntriesRequest) (h : Hosted) : RaftResp * list Message * Hosted :=
  let '(reply, out, h) := step_reply tx (append_request_to_msg req (h_id h)) h in (PAppend (append_response reply), out, h).

Definition handle_install_snapshot_rpc (tx : N) (req : InstallSnapshotRequest) (h : Hosted) : RaftResp * list Message * Hosted :=
  let '(reply, out, h) := step_reply tx (install_snapshot_request_to_msg req (h_id h)) h in
  (PSnapshot (install_snapshot_response reply), out, h).

Definition handle_timeout_now_rpc (tx : N) (req : TimeoutNowRequest) (h : Hosted) : RaftResp * list Message * Hosted :=
  let '(_, out, h) := step_reply tx (timeout_now_request_to_msg req (h_id h)) h in (PTimeout, out, h).

Definition group_id_of (q : RaftReq) : N :=
  match q with
  | QVote r => vq_group_id r
  | QAppend r => aq_group_id r
  | QSnapshot r => sq_group_id r
  | QTimeout r => tq_group_id r
  end.

Definition handle_rpc (tx : N) (q : RaftReq) (h : Hosted) : RaftResp * list Message * Hosted :=
  match q with
  | QVote r => handle_request_vote_rpc tx r h
  | QAppend r => handle_append_entries_rpc tx r h
  | QSnapshot r => handle_install_snapshot_rpc tx r h
  | QTimeout r => handle_timeout_now_rpc tx r h
  end.

(** [RaftApi]: the group the request names, or none. *)
Definition serve_raft (tx : N) (q : RaftReq) (groups : gmap N Hosted) : (TStatus + RaftResp) * list Message * gmap N Hosted :=
  match groups !! group_id_of q with
  | Some h => let '(resp, out, h) := handle_rpc tx q h in (inr resp, out, <[group_id_of q := h]> groups)
  | None => (inl (mkTStatus false NotFoundCode "no such Raft group on this node"), [], groups)
  end.
End service.
Arguments Hosted : clear implicits.
Arguments mkHosted {_ _} _ _.
Arguments h_id {_ _} _.
Arguments h_actor {_ _} _.

(** * The sender *)

(** The RPC that ships a message; responses are never shipped. *)
Definition ship (group_id : N) (m : Message) : option RaftReq :=
  match m_body m with
  | RequestVote _ _ => QVote <$> vote_request m group_id
  | AppendEntries _ _ _ _ _ => QAppend <$> append_request m group_id
  | InstallSnapshot _ _ _ _ _ => QSnapshot <$> install_snapshot_request m group_id
  | TimeoutNow => QTimeout <$> timeout_now_request m group_id
  | RequestVoteResp _ | AppendEntriesResp _ _ _ | InstallSnapshotResp _ => None
  end.

(** What the RPC's result feeds back to the sender's own actor. *)
Definition feedback (self_id : N) (m : Message) (resp : TStatus + RaftResp) : list Cmd :=
  match m_body m, resp with
  | RequestVote _ _, inr (PVote r) => [GStep (vote_response_to_msg r (m_to m) self_id)]
  | AppendEntries _ _ _ _ _, inr (PAppend r) => [GStep (append_response_to_msg r (m_to m) self_id)]
  | InstallSnapshot sent _ _ _ _, inr (PSnapshot r) => [GStep (install_snapshot_response_to_msg r (m_to m) self_id sent)]
  | _, _ => []
  end.

(** * PD's group *)

Definition PD_GROUP_ID : N := 0.
Definition pd_vote_request (m : Message) : option RequestVoteRequest := vote_request m PD_GROUP_ID.
Definition pd_append_request (m : Message) : option AppendEntriesRequest := append_request m PD_GROUP_ID.
Definition pd_install_snapshot_request (m : Message) : option InstallSnapshotRequest := install_snapshot_request m PD_GROUP_ID.
Definition pd_timeout_now_request (m : Message) : option TimeoutNowRequest := timeout_now_request m PD_GROUP_ID.
Definition pd_ship (m : Message) : option RaftReq := ship PD_GROUP_ID m.

(** * Correctness

    The transport carries Raft's messages: a request reaches its group as the message that was
    sent, and the sender is given the group's own reply. *)

(** * Conversions *)

Lemma entry_roundtrip e : entry_from_proto (entry_to_proto e) = e.
Proof. by destruct e as [?? [] ?]. Qed.

Lemma entries_roundtrip (es : list Entry) : entry_from_proto <$> (entry_to_proto <$> es) = es.
Proof. induction es as [|e es IH]; [done|]. rewrite !fmap_cons. by rewrite entry_roundtrip, IH. Qed.

(** The message a request is stepped in as. *)
Definition message_of (q : RaftReq) (self_id : N) : Message :=
  match q with
  | QVote r => vote_request_to_msg r self_id
  | QAppend r => append_request_to_msg r self_id
  | QSnapshot r => install_snapshot_request_to_msg r self_id
  | QTimeout r => timeout_now_request_to_msg r self_id
  end.

Lemma ship_roundtrip gid m q : ship gid m = Some q → message_of q (m_to m) = m ∧ group_id_of q = gid.
Proof.
  destruct m as [from to term []]; cbn; intros [= <-]; try done. split; [|done].
  unfold message_of, append_request_to_msg. cbn. by rewrite entries_roundtrip.
Qed.

(** * The reply of a node *)

Section node.
Context {St : Type} `{Storage St}.
Implicit Types n : RaftNode St.

(** What the helpers of the handlers leave alone. *)
Definition frame n : N * list Message * N * N := (n_id n, n_messages n, n_current_term n, n_commit_index n).

Lemma reset_election_timer_frame n : frame (reset_election_timer n) = frame n.
Proof. done. Qed.

Lemma become_follower_frame term leader n :
  frame (become_follower term leader n) = (n_id n, n_messages n, N.max (n_current_term n) term, n_commit_index n).
Proof.
  unfold become_follower. destruct (N.ltb_spec (n_current_term n) term); rewrite reset_election_timer_frame; unfold frame; cbn.
  - by rewrite N.max_r by lia.
  - by rewrite N.max_l by lia.
Qed.

Lemma recompute_conf_frame n : frame (recompute_conf n) = frame n.
Proof.
  unfold recompute_conf. destruct (conf_at _ n) as [v l]. set (n1 := n <| n_voters := v |> <| n_learners := l |>).
  assert (H1 : frame n1 = frame n) by done. clearbody n1.
  set (n2 := match n_transfer_target n1 with Some _ => _ | None => _ end).
  assert (H2 : frame n2 = frame n1) by (unfold n2; destruct (n_transfer_target n1); [by destruct (contains _ _)|done]).
  clearbody n2. destruct (is_leader n2 && negb (is_voter n2)); [|congruence].
  rewrite become_follower_frame, N.max_id, <- H1, <- H2. done.
Qed.

(** The reply of [n] that answers [m], [n'] being the node after the step. *)
Definition answers_msg (m : Message) n n' (r : Message) : Prop :=
  m_from r = n_id n ∧ m_to r = m_from m ∧ m_term r = n_current_term n' ∧
  match m_body m with
  | RequestVote _ _ => ∃ granted, m_body r = RequestVoteResp granted
  | AppendEntries _ _ _ _ rr => ∃ success mi, m_body r = AppendEntriesResp success mi rr
  | InstallSnapshot sent _ _ _ _ => ∃ mi, m_body r = InstallSnapshotResp mi ∧
    (m_term r = m_term m → sent ≤ mi ∧ mi ≤ n_commit_index n')
  | _ => False
  end.

Definition asks_reply (b : MessageBody) : bool :=
  match b with RequestVote _ _ | AppendEntries _ _ _ _ _ | InstallSnapshot _ _ _ _ _ => true | _ => false end.

(** The identity of a node and its messages. *)
Definition ids n : N * list Message := (n_id n, n_messages n).

(** A reply sent from a node with the messages [n] had. *)
Lemma reply_sent m b n n1 :
  ids n1 = ids n →
  (match m_body m with
   | RequestVote _ _ => ∃ granted, b = RequestVoteResp granted
   | AppendEntries _ _ _ _ rr => ∃ success mi, b = AppendEntriesResp success mi rr
   | InstallSnapshot sent _ _ _ _ => ∃ mi, b = InstallSnapshotResp mi ∧
     (n_current_term n1 = m_term m → sent ≤ mi ∧ mi ≤ n_commit_index n1)
   | _ => False
   end) →
  ∃ r, n_messages (send (m_from m) (n_current_term n1) b n1) = n_messages n ++ [r] ∧
    answers_msg m n (send (m_from m) (n_current_term n1) b n1) r.
Proof.
  intros [= Hid Hm] Hb. exists (mkMessage (n_id n1) (m_from m) (n_current_term n1) b). cbn. rewrite Hm. split; [done|].
  unfold answers_msg. cbn. by split_and!.
Qed.

Lemma frame_ids n n1 : frame n1 = frame n → ids n1 = ids n.
Proof. unfold frame, ids. by intros [= -> -> _ _]. Qed.

Lemma frame_commit n n1 : frame n1 = frame n → n_commit_index n1 = n_commit_index n.
Proof. by intros [= _ _ _ ?]. Qed.

Lemma vote_answers m lli llt n :
  m_body m = RequestVote lli llt →
  ∃ r, n_messages (dispatch m n) = n_messages n ++ [r] ∧ answers_msg m n (dispatch m n) r.
Proof.
  intros Hb. unfold dispatch. rewrite Hb. unfold handle_request_vote.
  destruct (n_current_term n <=? m_term m); [|apply reply_sent; [done|rewrite Hb; eauto]].
  destruct (_ && _); apply reply_sent; try done; rewrite Hb; eauto.
Qed.

Lemma append_answers m pli plt es lc rr n :
  m_body m = AppendEntries pli plt es lc rr →
  ∃ r, n_messages (dispatch m n) = n_messages n ++ [r] ∧ answers_msg m n (dispatch m n) r.
Proof.
  intros Hb. unfold dispatch. rewrite Hb. unfold handle_append_entries.
  destruct (m_term m <? n_current_term n); [apply reply_sent; [done|rewrite Hb; eauto]|].
  set (n1 := reset_election_timer _). assert (H1 : frame n1 = frame n) by done. clearbody n1.
  destruct (_ <=? _); [apply reply_sent; [by apply frame_ids|rewrite Hb; eauto]|].
  destruct (_ && _); [apply reply_sent; [by apply frame_ids|rewrite Hb; eauto]|].
  destruct (splice _ _ _ _ _) as [s k]. set (n2 := match k with Some _ => _ | None => _ end).
  assert (H2 : frame n2 = frame n1) by (unfold n2; destruct k; [by rewrite recompute_conf_frame|done]). clearbody n2.
  apply reply_sent; [|rewrite Hb; eauto]. transitivity (ids n2); [by destruct (_ <? _)|]. by apply frame_ids; rewrite H2.
Qed.

Lemma snapshot_answers m lii lit cs ls data n :
  m_body m = InstallSnapshot lii lit cs ls data →
  ∃ r, n_messages (dispatch m n) = n_messages n ++ [r] ∧ answers_msg m n (dispatch m n) r.
Proof.
  intros Hb. unfold dispatch. rewrite Hb. unfold handle_install_snapshot.
  destruct (N.ltb_spec (m_term m) (n_current_term n)) as [Hlt|_].
  { apply reply_sent; [done|]. rewrite Hb. eexists. split; [done|]. lia. }
  set (n1 := reset_election_timer _). assert (H1 : frame n1 = frame n) by done. clearbody n1.
  destruct (N.leb_spec lii (n_commit_index n1)) as [Hle|_].
  { apply reply_sent; [by apply frame_ids|]. rewrite Hb. eexists. split; [done|]. lia. }
  set (n2 := n1 <| n_storage := _ |> <| n_commit_index := lii |> <| n_last_applied := lii |> <| n_pending_snapshot := _ |>).
  pose proof (recompute_conf_frame n2) as H2. assert (H3 : ids n2 = ids n1) by done.
  assert (H4 : n_commit_index n2 = lii) by done.
  apply reply_sent.
  - rewrite (frame_ids _ _ H2), H3. by apply frame_ids.
  - rewrite Hb. eexists. split; [done|]. intros _. rewrite (frame_commit _ _ H2), H4. lia.
Qed.

(** A node answers a request with one message, its reply. *)
Lemma step_answers m n :
  asks_reply (m_body m) = true → ∃ r, n_messages (step m n) = n_messages n ++ [r] ∧ answers_msg m n (step m n) r.
Proof.
  intros Ha. unfold step. set (n1 := if _ <? _ then _ else n). assert (H1 : ids n1 = ids n).
  { unfold n1. destruct (_ <? _); [|done]. unfold become_follower. by destruct (_ <? _). }
  injection H1 as H0 H1. rewrite <- H1. clearbody n1.
  assert (Hd : ∃ r, n_messages (dispatch m n1) = n_messages n1 ++ [r] ∧ answers_msg m n1 (dispatch m n1) r).
  { destruct (m_body m) eqn:Hb; try done; [by eapply vote_answers|by eapply append_answers|by eapply snapshot_answers]. }
  destruct Hd as (r & Hm & Hf & Hr). exists r. split; [done|]. split; [by rewrite Hf|done].
Qed.

(** ** What is sent later goes behind *)

Definition extends n n' : Prop := ∃ out, n_messages n' = n_messages n ++ out.

#[local] Instance extends_preorder : PreOrder extends.
Proof.
  split.
  - intros n. exists []. by rewrite app_nil_r.
  - intros n1 n2 n3 [o1 H1] [o2 H2]. exists (o1 ++ o2). by rewrite H2, H1, app_assoc.
Qed.

Lemma same_extends n n' : n_messages n' = n_messages n → extends n n'.
Proof. intros Hm. exists []. by rewrite app_nil_r. Qed.

Lemma send_append_extends to n : extends n (send_append to n).
Proof.
  unfold send_append. destruct (_ <? _); [|by eexists]. unfold send_snapshot. destruct (st_snapshot _); [by eexists|reflexivity].
Qed.

Lemma broadcast_extends n : extends n (broadcast_append n).
Proof.
  unfold broadcast_append. generalize (replication_peers n) as l. intros l. revert n.
  induction l as [|p l IH]; intros n; cbn; [reflexivity|]. etransitivity; [apply send_append_extends|apply IH].
Qed.

Lemma advance_commit_extends n : extends n (maybe_advance_commit n).
Proof.
  unfold maybe_advance_commit. destruct (commit_scan _ n); [|reflexivity]. apply same_extends.
  unfold advance_reads. destruct (_ || _); [done|]. by destruct (confirm_reads _ _).
Qed.

Lemma propose_extends data n : extends n (propose data n).2.
Proof.
  unfold propose. destruct (negb _); [reflexivity|]. destruct (n_transfer_target n); [reflexivity|]. cbn.
  etransitivity; [|apply broadcast_extends]. etransitivity; [|apply advance_commit_extends]. by apply same_extends.
Qed.
End node.

(** * The actor *)

Section actor.
Context {St E : Type} `{Storage St}.
Context (apply : bytes → E → E * Result unit) (snapshot : E → bytes) (restore : bytes → E → E) (tick_ms : N).
Implicit Types g : Group St E.

Lemma elect_extends g : extends (g_node g) (g_node (elect g)).
Proof. unfold elect. destruct (_ && _); cbn; [apply propose_extends|by exists []; rewrite app_nil_r]. Qed.

Lemma route_reply from tx r ms :
  m_to r = from → is_response (m_body r) = true →
  ∃ rs, (route_messages (Some (from, tx)) (r :: ms)).1 = (tx, RMessage (Some r)) :: rs.
Proof.
  intros Ht Hr. cbn. rewrite (proj2 (N.eqb_eq _ _) Ht), Hr. cbn. destruct (route_messages None ms). by eexists.
Qed.

(** The replies of a turn begin with what the messages were routed to. *)
Lemma drain_routed ticked reply g :
  ∃ rest, (drain apply snapshot restore tick_ms ticked reply g).1.1 = (route_messages reply (n_messages (g_node (elect g)))).1 ++ rest.
Proof.
  unfold drain. cbn [take_messages]. destruct (route_messages _ _) as [routed out]. cbn [fst snd].
  destruct (apply_committed _ _) as [g1 answered]. destruct (maybe_compact _ g1) as [g2|]; [|by eexists].
  destruct (answer_reads g2) as [g3 read]. destruct (fail_parked g3) as [g4 failed].
  destruct (if ticked then _ else _) as [g5 late]. by eexists.
Qed.

(** An idle actor answers a request with the node's reply. *)
Lemma turn_replies tx m g :
  n_messages (g_node g) = [] → asks_reply (m_body m) = true →
  ∃ r, reply_on tx (turn apply snapshot restore tick_ms (GStepReply m tx) g).1.1 = Some r ∧ answers_msg m (g_node g) (step m (g_node g)) r.
Proof.
  intros Hidle Ha. destruct (step_answers m (g_node g) Ha) as (r & Hm & Hr). exists r. split; [|done].
  rewrite Hidle in Hm. cbn in Hm. unfold turn. cbn [act]. set (g1 := g <| g_node := step m (g_node g) |>).
  destruct (drain_routed false (Some (m_from m, tx)) g1) as [rest Hd]. destruct (elect_extends g1) as [out Hout].
  cbn [is_tick] in *. destruct (drain _ _ _ _ _ _ g1) as [[rs out'] og]. cbn [fst snd app] in Hd |- *. rewrite Hd, Hout.
  change (n_messages (g_node g1)) with (n_messages (step m (g_node g))). rewrite Hm.
  destruct Hr as (_ & Ht & _ & Hbody).
  assert (Hresp : is_response (m_body r) = true).
  { destruct (m_body m); try done; [by destruct Hbody as [? ->]|by destruct Hbody as (? & ? & ->)|by destruct Hbody as (? & -> & _)]. }
  destruct (route_reply (m_from m) tx r out Ht Hresp) as [rs' Hrs]. cbn [app]. rewrite Hrs. unfold reply_on. cbn. by rewrite N.eqb_refl.
Qed.

(** ** Every turn leaves the actor idle *)

Lemma apply_entries_messages es (acc : Group St E * list (N * Reply)) : g_node (fold_left (apply_entry apply) es acc).1 = g_node acc.1.
Proof.
  revert acc. induction es as [|e es IH]; intros acc; cbn; [done|]. rewrite IH. destruct acc as [g out]. unfold apply_entry.
  destruct (if is_conf_change e then _ else _) as [st oc]. by destruct (bt_get _ _) as [[]|].
Qed.

Lemma drain_idle ticked reply g g' :
  (drain apply snapshot restore tick_ms ticked reply g).2 = Some g' → n_messages (g_node g') = [].
Proof.
  unfold drain. cbn [take_messages]. destruct (route_messages _ _) as [routed out].
  set (g1 := adopt_snapshot restore _). assert (H1 : n_messages (g_node g1) = []).
  { unfold g1, adopt_snapshot. cbn. by destruct (n_pending_snapshot _) as [[]|]. }
  clearbody g1. unfold apply_committed. destruct (take_committed (g_node g1)) as [es n2] eqn:Et.
  assert (H2 : n_messages n2 = []). { unfold take_committed in Et. destruct (_ <=? _) in Et; injection Et as _ <-; done. }
  pose proof (apply_entries_messages es (g1 <| g_node := n2 |>, [])) as H3. cbn in H3.
  destruct (fold_left _ es _) as [g3 answered]. cbn in H3. destruct (maybe_compact snapshot g3) as [g4|] eqn:Ec; [|done].
  assert (H4 : n_messages (g_node g4) = []).
  { unfold maybe_compact in Ec. destruct (_ <=? _) in Ec; [|injection Ec as <-; by rewrite H3].
    unfold compact in Ec. destruct (_ || _) in Ec; [injection Ec as <-; cbn; by rewrite H3|].
    destruct (st_term _ _) in Ec; [|done]. cbn in Ec. destruct (conf_at _ _) in Ec. injection Ec as <-. cbn. by rewrite H3. }
  unfold answer_reads. cbn [take_read_states]. unfold fail_parked. destruct (is_leader _); destruct ticked; cbn; by intros [= <-].
Qed.

Lemma turn_idle c g g' : (turn apply snapshot restore tick_ms c g).2 = Some g' → n_messages (g_node g') = [].
Proof.
  unfold turn. destruct c; try done;
    match goal with |- context [act ?c g] =>
      destruct (act c g) as [[g1 now] reply]; pose proof (drain_idle (is_tick c) reply g1 g') as Hd
    end; cbn [is_tick] in *; destruct (drain _ _ _ _ _ _ g1) as [[rs out] og]; exact Hd.
Qed.
End actor.

(** * The exchange *)

Section exchange.
Context {St E : Type} `{Storage St}.
Context (apply : bytes → E → E * Result unit) (snapshot : E → bytes) (restore : bytes → E → E) (tick_ms : N).
Implicit Types (g : Group St E) (groups : gmap N (Hosted St E)).

(** What the sender of [m] is to be fed back: the peer's reply to it; the reply to a snapshot
    names the index that was sent, which the peer then holds unless it is in another term. *)
Definition fed_back (m : Message) (n n' : RaftNode St) (reply : option Message) (cmds : list Cmd) : Prop :=
  match m_body m with
  | TimeoutNow => cmds = []
  | InstallSnapshot sent _ _ _ _ => ∃ r, reply = Some r ∧ answers_msg m n n' r ∧
    cmds = [GStep (mkMessage (m_from r) (m_to r) (m_term r) (InstallSnapshotResp sent))] ∧
    (m_term r = m_term m → sent ≤ n_commit_index n')
  | _ => ∃ r, reply = Some r ∧ answers_msg m n n' r ∧ cmds = [GStep r]
  end.

Lemma step_reply_turn tx m (h : Hosted St E) g :
  h_actor h = Some g →
  step_reply apply snapshot restore tick_ms tx m h =
    let t := turn apply snapshot restore tick_ms (GStepReply m tx) g in (reply_on tx t.1.1, t.1.2, mkHosted (h_id h) t.2).
Proof. intros Hg. unfold step_reply. rewrite Hg. by destruct (turn _ _ _ _ _ g) as [[rs out] og]. Qed.

(** The service steps the request in as the message it was. *)
Lemma serve_steps gid m q tx groups h g :
  ship gid m = Some q → groups !! gid = Some h → h_actor h = Some g → h_id h = m_to m →
  let t := turn apply snapshot restore tick_ms (GStepReply m tx) g in
  serve_raft apply snapshot restore tick_ms tx q groups =
    (inr match m_body m with
         | RequestVote _ _ => PVote (vote_response (reply_on tx t.1.1))
         | AppendEntries _ _ _ _ _ => PAppend (append_response (reply_on tx t.1.1))
         | InstallSnapshot _ _ _ _ _ => PSnapshot (install_snapshot_response (reply_on tx t.1.1))
         | _ => PTimeout
         end, t.1.2, <[gid := mkHosted (m_to m) t.2]> groups).
Proof.
  intros Hs Hh Hg Hid. destruct (ship_roundtrip _ _ _ Hs) as [Hm Hgid]. unfold serve_raft. rewrite Hgid, Hh.
  destruct m as [from to term body]. cbn [m_to m_body] in *. subst to. unfold handle_rpc.
  destruct body; try done; injection Hs as <-; cbn [message_of] in Hm;
    unfold handle_request_vote_rpc, handle_append_entries_rpc, handle_install_snapshot_rpc, handle_timeout_now_rpc;
    rewrite (step_reply_turn tx _ h g Hg), Hm; reflexivity.
Qed.

(** A node that has seen a term ignores the answer of a group that is gone. *)
Lemma stale_response_ignored r (n : RaftNode St) :
  n_current_term n ≠ 0 → m_term r = 0 → is_response (m_body r) = true → step r n = n.
Proof.
  intros Hn Ht Hr. unfold step. rewrite Ht. destruct (N.ltb_spec (n_current_term n) 0); [lia|].
  destruct r as [from to term body]. cbn in Ht, Hr |- *. subst term. unfold dispatch. cbn.
  assert (Hz : (0 =? n_current_term n) = false) by (apply N.eqb_neq; lia).
  destruct body; try done; unfold handle_request_vote_resp, handle_append_resp, handle_install_snapshot_resp; rewrite Hz; by rewrite orb_true_r.
Qed.

(** The group of id [to] between two turns. *)
Definition hosted_ok (to : N) (h : Hosted St E) : Prop :=
  h_id h = to ∧ ∀ g, h_actor h = Some g → n_id (g_node g) = to ∧ n_messages (g_node g) = [].

(** What becomes of a message that is shipped as request [q]. *)
Definition exchanged (gid : N) (m : Message) (q : RaftReq) (tx : N) groups : Prop :=
  let '(resp, out, groups') := serve_raft apply snapshot restore tick_ms tx q groups in
  let fed := feedback (m_from m) m resp in
  match groups !! gid ≫= h_actor with
  | Some g =>
    let t := turn apply snapshot restore tick_ms (GStepReply m tx) g in
    out = t.1.2 ∧ groups' = <[gid := mkHosted (m_to m) t.2]> groups ∧
    fed_back m (g_node g) (step m (g_node g)) (reply_on tx t.1.1) fed
  | None =>
    out = [] ∧ groups' = groups ∧
    Forall (λ c, ∃ r, c = GStep r ∧ ∀ n : RaftNode St, n_current_term n ≠ 0 → step r n = n) fed
  end.
End exchange.

Section theorem.
Context {St E : Type} `{Storage St}.
Context (apply : bytes → E → E * Result unit) (snapshot : E → bytes) (restore : bytes → E → E) (tick_ms : N).

(** C32. The transport carries a message as it is.  A request that a group of node [m_to m] is
    sent over an RPC is stepped into the group the request names as the very message the sender
    emitted, log entries included, and the sender's actor is fed the reply of that turn, back
    from the peer; only the reply to a snapshot is rebuilt, with the index that was sent, and
    when it is of the sender's term the peer has indeed committed through that index.  A
    [TimeoutNow] feeds nothing back.  When the node does not host the group, or the group has
    stopped, no group changes, and what is fed back, if anything, changes no node that has seen
    a term. *)
Theorem rpc_carries_message gid m q tx (groups : gmap N (Hosted St E)) :
  ship gid m = Some q → (∀ h, groups !! gid = Some h → hosted_ok (m_to m) h) →
  exchanged apply snapshot restore tick_ms gid m q tx groups.
Proof.
  intros Hs Hok. unfold exchanged. destruct (ship_roundtrip _ _ _ Hs) as [Hm Hgid].
  destruct (groups !! gid) as [h|] eqn:Hh; cbn [mbind option_bind].
  2: { unfold serve_raft. rewrite Hgid, Hh. split_and!; [done..|]. unfold feedback. by destruct (m_body m). }
  destruct (Hok h eq_refl) as [Hid Hact]. destruct (h_actor h) as [g|] eqn:Hg.
  - destruct (Hact g eq_refl) as [Hn Hidle].
    rewrite (serve_steps apply snapshot restore tick_ms gid m q tx groups h g Hs Hh Hg Hid).
    split_and!; [done..|]. unfold fed_back, feedback. destruct (asks_reply (m_body m)) eqn:Ha.
    2: { unfold ship in Hs. by destruct (m_body m). }
    destruct (turn_replies apply snapshot restore tick_ms tx m g Hidle Ha) as (r & Hr & Hans). rewrite Hr.
    destruct (Hans) as (Hf & Hto & Ht & Hb). rewrite Hn in Hf. destruct r as [rf rt rterm rb]. cbn in Hf, Hto, Ht, Hb. subst rf rt.
    destruct (m_body m) eqn:Hbm; try done.
    + destruct Hb as [granted ->]. eexists. by split_and!.
    + destruct Hb as (success & mi & ->). eexists. by split_and!.
    + destruct Hb as (mi & -> & Hle). eexists. split_and!; [done..|]. cbn. intros Hterm. destruct (Hle Hterm). lia.
  - unfold serve_raft. rewrite Hgid, Hh. unfold handle_rpc.
    assert (Hstep : ∀ msg, step_reply apply snapshot restore tick_ms tx msg h = (None, [], h)) by (intros; unfold step_reply; by rewrite Hg).
    destruct m as [from to term body]. destruct body; try done; injection Hs as <-;
      unfold handle_request_vote_rpc, handle_append_entries_rpc, handle_install_snapshot_rpc, handle_timeout_now_rpc;
      rewrite Hstep; cbn in Hgid |- *; (split; [done|split; [by apply insert_id|]]); repeat constructor;
      (eexists; split; [reflexivity|]); intros n Hn; by apply stale_response_ignored.
Qed.
End theorem.

(** * Witness *)

(** Node 2 of a group of two, region 7; node 1 leads it and sends an entry. *)
Definition log_apply (data : bytes) (s : list bytes) : list bytes * Result unit := (s ++ [data], Ok tt).

Definition follower_of_two : Group MemStorage (list bytes) := start 2 [1; 2] MemStorage_new [].

Definition first_append : Message := mkMessage 1 2 3 (AppendEntries 0 0 [mkEntry 3 1 ConfChangeEntry [x61]] 0 4).

Lemma rpc_carries_message_witness :
  let groups : gmap N (Hosted MemStorage (list bytes)) := {[7 := mkHosted 2 (Some follower_of_two)]} in
  ∃ q, ship 7 first_append = Some q ∧ exchanged log_apply (@mjoin list _ byte) (λ _ s, s) 50 7 first_append q 9 groups ∧
    feedback 1 first_append (serve_raft log_apply (@mjoin list _ byte) (λ _ s, s) 50 9 q groups).1.1 =
      [GStep (mkMessage 2 1 3 (AppendEntriesResp true 1 4))].
Proof.
  intros groups. eexists. split; [reflexivity|]. split; [|vm_compute; reflexivity].
  apply (rpc_carries_message log_apply (@mjoin list _ byte) (λ _ s, s) 50 7 first_append); [reflexivity|].
  intros h [= <-]. split; [reflexivity|]. by intros g [= <-].
Defined.
