(* ===== verification/Format.v ===== *)
(** The format marker and the owner of a data directory ([pd/src/format.rs], with
    [atomic_write] of [pd/src/persist.rs]).

    A directory maps file names to the text each file reads as ([from_utf8_lossy]).  An
    operation may stop at any step of a write, by an error or a crash; [DirIo] says which of
    its steps fail.  Error messages are left out. *)

From stdpp Require Import base list numbers strings gmap.
From Stdlib Require Import Strings.Ascii.
From S2P Require Import Prelude Grpc.

Abbreviation Dir := (gmap string string).

(** * Numbers in text *)

Definition digit (n : N) : ascii := ascii_of_N (48 + n).
Definition digit_val (a : ascii) : option N :=
  let n := N_of_ascii a in if (48 <=? n) && (n <=? 57) then Some (n - 48) else None.

Fixpoint show_digits (fuel : nat) (n : N) (acc : string) : string :=
  match fuel with
  | O => acc
  | S fuel =>
    let acc := String (digit (n mod 10)) acc in
    if n / 10 =? 0 then acc else show_digits fuel (n / 10) acc
  end.

(** [Display] of an integer; an integer has no more digits than bits. *)
Definition show_N (n : N) : string := show_digits (S (N.size_nat n)) n EmptyString.

Fixpoint read_digits (s : string) (v : N) : option N :=
  match s with
  | EmptyString => Some v
  | String a s => d ← digit_val a; read_digits s (10 * v + d)
  end.

(** [str::parse] of an unsigned integer up to [max]. *)
Definition parse_uint (max : N) (s : string) : option N :=
  let s := match s with String a s' => if Ascii.eqb a "+" then s' else s | EmptyString => s end in
  match s with
  | EmptyString => None
  | s => v ← read_digits s 0; if v <=? max then Some v else None
  end.

(** [str::split_once] at a character. *)
Fixpoint split_once (c : ascii) (s : string) : option (string * string) :=
  match s with
  | EmptyString => None
  | String a s => if Ascii.eqb a c then Some (EmptyString, s) else '(l, r) ← split_once c s; Some (String a l, r)
  end.

Fixpoint strip_cr (s : string) : string :=
  match s with
  | EmptyString => EmptyString
  | String a EmptyString => if Ascii.eqb a "013" then EmptyString else String a EmptyString
  | String a s => String a (strip_cr s)
  end.

(** [str::lines]: no line after a final line break. *)
Definition lines (s : string) : list string :=
  let ls := split_char "010" s in
  strip_cr <$> match last ls with Some EmptyString => removelast ls | _ => ls end.

(** * Writing *)

(** Where a write stops: before the temporary file exists, in the middle of it, or before the
    rename. *)
Inductive Stop := AtCreate | AtWrite (written : nat) | AtRename.

Record DirIo := mkDirIo { io_create : bool; io_read : bool; io_list : bool; io_stop : option Stop }.
Definition io_ok : DirIo := mkDirIo true true true None.

Inductive FormatError := FeIo | FeMismatch.

Definition tmp_of (name : string) : string := name +:+ ".tmp".

Definition atomic_write (stop : option Stop) (name text : string) (d : Dir) : (FormatError + unit) * Dir :=
  match stop with
  | Some AtCreate => (inl FeIo, d)
  | Some (AtWrite k) => (inl FeIo, <[tmp_of name := String.substring 0 k text]> d)
  | Some AtRename => (inl FeIo, <[tmp_of name := text]> d)
  | None => (inr tt, delete (tmp_of name) (<[name := text]> d))
  end.

(** * The marker *)

Definition FORMAT : N := 3.
Definition FORMAT_FILE : string := "format".
Definition MARKER_PREFIX : string := "arcux-format".
Definition NL : string := String "010" EmptyString.

Definition marker_text : string := MARKER_PREFIX +:+ " " +:+ show_N FORMAT +:+ NL.

Definition found_format (text : string) : option N :=
  v ← strip_prefix MARKER_PREFIX (trim text); parse_uint u32_max (trim v).

Definition check_or_init (io : DirIo) (d : Dir) : (FormatError + unit) * Dir :=
  if negb (io_create io) then (inl FeIo, d) else
  if negb (io_read io) then (inl FeIo, d) else
  match d !! FORMAT_FILE with
  | Some text => (match found_format text with Some v => if v =? FORMAT then inr tt else inl FeMismatch | None => inl FeMismatch end, d)
  | None =>
    if negb (io_list io) then (inl FeIo, d) else
    if bool_decide (d = ∅) then atomic_write (io_stop io) FORMAT_FILE marker_text d else (inl FeMismatch, d)
  end.

(** * The owner *)

Definition IDENTITY_FILE : string := "identity".

Definition parse_identity (text : string) : option ((string * N) * string) :=
  let ls := lines text in
  l0 ← ls !! 0%nat;
  '(role, id) ← split_once " " (trim l0);
  l1 ← ls !! 1%nat;
  store ← strip_prefix "store " (trim l1);
  id ← parse_uint u64_max (trim id);
  Some ((role, id), store).

Definition identity_text (role : string) (id : N) (store : string) : string :=
  role +:+ " " +:+ show_N id +:+ NL +:+ "store " +:+ store +:+ NL.

(** [fresh] is the token [new_store_id] draws. *)
Definition claim_identity (io : DirIo) (fresh : string) (role : string) (id : N) (d : Dir) : (FormatError + string) * Dir :=
  if negb (io_read io) then (inl FeIo, d) else
  match d !! IDENTITY_FILE with
  | Some text =>
    match parse_identity text with
    | None => (inl FeMismatch, d)
    | Some (owner, store) => (if bool_decide (owner = (role, id)) then inr store else inl FeMismatch, d)
    end
  | None =>
    match atomic_write (io_stop io) IDENTITY_FILE (identity_text role id fresh) d with
    | (inl e, d) => (inl e, d)
    | (inr _, d) => (inr fresh, d)
    end
  end.

(** How a process opens its directory: the marker, then the owner ([AppState::open_multiraft]
    and PD's [main]). *)
Record Opening := mkOpening { op_role : string; op_id : N; op_fresh : string; op_marker_io : DirIo; op_claim_io : DirIo }.

Definition open_dir (o : Opening) (d : Dir) : (FormatError + string) * Dir :=
  match check_or_init (op_marker_io o) d with
  | (inl e, d) => (inl e, d)
  | (inr _, d) => claim_identity (op_claim_io o) (op_fresh o) (op_role o) (op_id o) d
  end.

(** The openings of a directory over time. *)
Fixpoint openings (os : list Opening) (d : Dir) : list (Opening * (FormatError + string)) * Dir :=
  match os with
  | [] => ([], d)
  | o :: os =>
    let '(r, d) := open_dir o d in
    let '(rs, d) := openings os d in
    ((o, r) :: rs, d)
  end.

(** * Correctness

    A data directory has one owner for good. *)

(** * Numbers *)

Lemma digit_val_digit n : n < 10 → digit_val (digit n) = Some n.
Proof.
  intros Hn. unfold digit_val, digit. rewrite N_ascii_embedding by lia.
  destruct (N.leb_spec 48 (48 + n)); [|lia]. destruct (N.leb_spec (48 + n) 57); [|lia]. cbn. f_equal. lia.
Qed.

Lemma read_show fuel n acc : n < 2 ^ N.of_nat fuel → fuel ≠ 0%nat → read_digits (show_digits fuel n acc) 0 = read_digits acc n.
Proof.
  revert n acc. induction fuel as [|fuel IH]; intros n acc Hn Hf; [done|]. cbn [show_digits].
  pose proof (N.div_mod n 10 ltac:(done)) as Hdm. pose proof (N.mod_lt n 10 ltac:(done)) as Hm.
  destruct (N.eqb_spec (n / 10) 0) as [Hz|Hz].
  - cbn [read_digits]. rewrite digit_val_digit by done. cbn. f_equal. lia.
  - assert (Hf' : fuel ≠ 0%nat). { intros ->. change (2 ^ N.of_nat 1) with 2 in Hn. assert (n / 10 = 0) by (apply N.div_small; lia). lia. }
    rewrite IH; [|rewrite Nat2N.inj_succ, N.pow_succ_r' in Hn; apply N.Div0.div_lt_upper_bound; lia|done].
    cbn [read_digits]. rewrite digit_val_digit by done. cbn. f_equal. lia.
Qed.

Lemma show_N_digits n : read_digits (show_N n) 0 = Some n.
Proof.
  unfold show_N. rewrite read_show; [done| |done]. rewrite Nat2N.inj_succ.
  destruct n as [|p]; [done|]. cbn [N.size_nat]. pose proof (N.size_gt (N.pos p)) as Hs. cbn in Hs.
  rewrite N.pow_succ_r'. replace (N.of_nat (Pos.size_nat p)) with (N.pos (Pos.size p)); [lia|].
  clear Hs. induction p as [p IH|p IH|]; cbn [Pos.size_nat Pos.size]; [rewrite Nat2N.inj_succ, <- IH; lia..|done].
Qed.

(** * Words *)

Fixpoint all_chars (p : ascii → bool) (s : string) : bool :=
  match s with EmptyString => true | String a s => p a && all_chars p s end.

(** A word: not empty, and without white space. *)
Definition word (s : string) : bool := match s with EmptyString => false | _ => all_chars (λ a, negb (is_space a)) s end.

Definition is_digit (a : ascii) : bool := match digit_val a with Some _ => true | None => false end.

Lemma all_chars_mono (p q : ascii → bool) s : (∀ a, p a = true → q a = true) → all_chars p s = true → all_chars q s = true.
Proof. intros Hpq. induction s as [|a s IH]; cbn; [done|]. intros [Ha Hs]%andb_prop. by rewrite (Hpq a Ha), IH. Qed.

Lemma all_chars_app p s t : all_chars p (s +:+ t) = all_chars p s && all_chars p t.
Proof. induction s as [|a s IH]; [done|]. change (String a s +:+ t) with (String a (s +:+ t)). cbn. by rewrite IH, andb_assoc. Qed.

Lemma show_digits_all fuel n acc : all_chars is_digit acc = true → all_chars is_digit (show_digits fuel n acc) = true.
Proof.
  revert n acc. induction fuel as [|fuel IH]; intros n acc Ha; [done|]. cbn [show_digits].
  assert (Hs : all_chars is_digit (String (digit (n mod 10)) acc) = true).
  { cbn [all_chars]. unfold is_digit at 1. rewrite digit_val_digit by (apply N.mod_lt; lia). done. }
  destruct (_ =? 0); [done|by apply IH].
Qed.

Lemma show_digits_cons fuel n acc : acc ≠ EmptyString → show_digits fuel n acc ≠ EmptyString.
Proof. revert n acc. induction fuel as [|fuel IH]; intros n acc Ha; [done|]. cbn. destruct (_ =? 0); [done|by apply IH]. Qed.

Lemma digit_not_space a : is_digit a = true → negb (is_space a) = true.
Proof.
  unfold is_digit, digit_val, is_space. destruct (N.leb_spec 48 (N_of_ascii a)); [|done]. cbn. intros _.
  destruct (N.eqb_spec (N_of_ascii a) 32); [lia|]. destruct (N.leb_spec (N_of_ascii a) 13); [lia|]. by rewrite andb_false_r.
Qed.

Lemma show_N_all n : all_chars is_digit (show_N n) = true.
Proof. by apply show_digits_all. Qed.

Lemma show_N_cons n : ∃ a s, show_N n = String a s ∧ is_digit a = true.
Proof.
  pose proof (show_N_all n) as Ha. destruct (show_N n) as [|a s] eqn:E.
  - exfalso. revert E. unfold show_N. cbn [show_digits]. destruct (_ =? 0); [done|]. by apply show_digits_cons.
  - exists a, s. cbn in Ha. apply andb_prop in Ha as [? _]. done.
Qed.

Lemma show_N_word n : word (show_N n) = true.
Proof.
  destruct (show_N_cons n) as (a & s & E & _). pose proof (show_N_all n) as Ha. rewrite E in *.
  exact (all_chars_mono _ _ (String a s) digit_not_space Ha).
Qed.

Lemma parse_show max n : n ≤ max → parse_uint max (show_N n) = Some n.
Proof.
  intros Hn. destruct (show_N_cons n) as (a & s & E & Ha). pose proof (show_N_digits n) as Hr. rewrite E in Hr |- *. unfold parse_uint.
  assert (Hplus : Ascii.eqb a "+" = false) by (apply Ascii.eqb_neq; by intros ->).
  rewrite Hplus, Hr. cbn. by destruct (N.leb_spec n max); [|lia].
Qed.

(** * Trimming and splitting *)

Lemma string_rev_app acc s t : string_rev acc (s +:+ t) = string_rev (string_rev acc s) t.
Proof. revert acc. induction s as [|a s IH]; intros acc; [done|]. apply IH. Qed.

Lemma string_app_assoc (s t u : string) : (s +:+ t) +:+ u = s +:+ (t +:+ u).
Proof. induction s as [|a s IH]; [done|]. exact (f_equal (String a) IH). Qed.

Lemma string_rev_acc acc s : string_rev acc s = string_rev EmptyString s +:+ acc.
Proof.
  revert acc. induction s as [|a s IH]; intros acc; [done|]. cbn [string_rev]. rewrite IH, (IH (String a EmptyString)).
  by rewrite string_app_assoc.
Qed.

Lemma string_rev_involutive s : string_rev EmptyString (string_rev EmptyString s) = s.
Proof.
  induction s as [|a s IH]; [done|]. cbn [string_rev]. rewrite (string_rev_acc (String a EmptyString)), string_rev_app, IH. done.
Qed.

(** A line that begins and ends with a word. *)
Lemma trim_words a s t z : is_space a = false → is_space z = false → String a s = t +:+ String z EmptyString → trim (String a s) = String a s.
Proof.
  intros Ha Hz E. unfold trim. cbn [trim_start]. rewrite Ha. rewrite E at 1. rewrite string_rev_app. cbn [string_rev trim_start].
  rewrite Hz. rewrite <- (string_rev_involutive (String a s)). f_equal. rewrite E, string_rev_app. done.
Qed.

Lemma word_cons s : word s = true → ∃ a s', s = String a s' ∧ is_space a = false.
Proof.
  unfold word. destruct s as [|a s]; [done|]. cbn. intros [Ha _]%andb_prop. exists a, s. split; [done|]. by destruct (is_space a).
Qed.

Lemma word_snoc s : word s = true → ∃ s' z, s = s' +:+ String z EmptyString ∧ is_space z = false.
Proof.
  induction s as [|a s IH]; [done|]. unfold word. cbn. intros [Ha Hs]%andb_prop. destruct s as [|b s].
  - exists EmptyString, a. split; [done|]. by destruct (is_space a).
  - destruct IH as (s' & z & E & Hz); [exact Hs|]. exists (String a s'), z. split; [|done]. by rewrite E.
Qed.

Lemma trim_between s m t : word s = true → word t = true → trim (s +:+ m +:+ t) = s +:+ m +:+ t.
Proof.
  intros (a & s' & -> & Ha)%word_cons (t' & z & -> & Hz)%word_snoc.
  change (String a s' +:+ m +:+ t' +:+ String z EmptyString) with (String a (s' +:+ m +:+ t' +:+ String z EmptyString)).
  apply (trim_words _ _ (String a (s' +:+ m +:+ t')) z); [done..|]. change (String a (s' +:+ m +:+ t')) with (String a s' +:+ m +:+ t').
  rewrite !string_app_assoc. done.
Qed.

Lemma trim_word s : word s = true → trim s = s.
Proof.
  intros Hw. destruct (word_cons s Hw) as (a & s' & E & Ha). destruct (word_snoc s Hw) as (t & z & E' & Hz).
  rewrite E in E' |- *. by eapply trim_words.
Qed.

Definition lacks_char (c : ascii) (s : string) : bool := all_chars (λ a, negb (Ascii.eqb a c)) s.

Lemma word_lacks c s : is_space c = true → word s = true → lacks_char c s = true.
Proof.
  intros Hc Hw. assert (Ha : all_chars (λ a, negb (is_space a)) s = true) by (by destruct s).
  eapply all_chars_mono; [|exact Ha]. cbn. intros a Hs. destruct (Ascii.eqb_spec a c) as [->|]; [|done]. by rewrite Hc in Hs.
Qed.

Lemma split_once_app c s t : lacks_char c s = true → split_once c (s +:+ String c t) = Some (s, t).
Proof.
  induction s as [|a s IH]; intros Hs.
  - change (EmptyString +:+ String c t) with (String c t). cbn. by rewrite Ascii.eqb_refl.
  - unfold lacks_char in Hs. cbn in Hs. apply andb_prop in Hs as [Ha Hs]. change (String a s +:+ String c t) with (String a (s +:+ String c t)).
    cbn. destruct (Ascii.eqb a c); [done|]. rewrite IH by done. done.
Qed.

Lemma split_char_app c s t : lacks_char c s = true → split_char c (s +:+ String c t) = s :: split_char c t.
Proof.
  induction s as [|a s IH]; intros Hs.
  - change (EmptyString +:+ String c t) with (String c t). cbn. by rewrite Ascii.eqb_refl.
  - unfold lacks_char in Hs. cbn in Hs. apply andb_prop in Hs as [Ha Hs]. change (String a s +:+ String c t) with (String a (s +:+ String c t)).
    cbn. destruct (Ascii.eqb a c); [done|]. by rewrite IH.
Qed.

Lemma strip_cr_word s t : word t = true → strip_cr (s +:+ t) = s +:+ t.
Proof.
  intros (t' & z & -> & Hz)%word_snoc. rewrite <- string_app_assoc. generalize (s +:+ t') as u. clear s t'. intros u.
  assert (Hcr : Ascii.eqb z "013" = false) by (apply Ascii.eqb_neq; by intros ->).
  induction u as [|a u IH]; [change (strip_cr (String z EmptyString) = String z EmptyString); cbn; by rewrite Hcr|]. change (String a u +:+ String z EmptyString) with (String a (u +:+ String z EmptyString)).
  cbn. destruct (u +:+ String z EmptyString) eqn:E; [by destruct u|]. by rewrite IH.
Qed.

Lemma strip_prefix_app p s : strip_prefix p (p +:+ s) = Some s.
Proof.
  induction p as [|a p IH]; [done|]. change (String a p +:+ s) with (String a (p +:+ s)). cbn. by rewrite Ascii.eqb_refl.
Qed.

Lemma lacks_app c s t : lacks_char c (s +:+ t) = lacks_char c s && lacks_char c t.
Proof. apply all_chars_app. Qed.

(** The owner a directory names is read back. *)
Lemma identity_roundtrip role id store :
  word role = true → word store = true → id ≤ u64_max → parse_identity (identity_text role id store) = Some ((role, id), store).
Proof.
  intros Hr Hs Hid. set (l0 := role +:+ " " +:+ show_N id). set (l1 := "store " +:+ store).
  assert (Hn : word (show_N id) = true) by apply show_N_word.
  assert (Hl : lines (identity_text role id store) = [l0; l1]).
  { unfold lines. replace (identity_text role id store) with (l0 +:+ String "010" (l1 +:+ String "010" EmptyString)).
    2: { unfold identity_text, l0, l1, NL. rewrite !string_app_assoc. done. }
    rewrite !split_char_app.
    - cbn [split_char last removelast fmap list_fmap]. unfold l0, l1. rewrite <- string_app_assoc, !strip_cr_word by done. done.
    - unfold l1. rewrite lacks_app, (word_lacks _ store) by done. done.
    - unfold l0. rewrite !lacks_app, (word_lacks "010" role), (word_lacks "010" (show_N id)) by done. done. }
  unfold parse_identity. rewrite Hl. cbn [lookup list_lookup mbind option_bind].
  unfold l0. rewrite trim_between by done. change (role +:+ " " +:+ show_N id) with (role +:+ String " " (show_N id)).
  rewrite split_once_app by (by apply word_lacks). cbn [mbind option_bind].
  unfold l1. change "store " with ("store" +:+ " "). rewrite string_app_assoc, trim_between by done.
  rewrite <- string_app_assoc. change ("store" +:+ " ") with "store ". rewrite strip_prefix_app. cbn [mbind option_bind].
  rewrite trim_word, parse_show by done. done.
Qed.

(** * The owner of a directory *)

(** The directory is marked, and belongs to [own], with this store id. *)
Definition kept (own : string * N) (store : string) (d : Dir) : Prop :=
  (∃ text, d !! FORMAT_FILE = Some text ∧ found_format text = Some FORMAT) ∧
  ∃ text, d !! IDENTITY_FILE = Some text ∧ parse_identity text = Some (own, store).

Definition opening_ok (o : Opening) : Prop := word (op_role o) = true ∧ word (op_fresh o) = true ∧ op_id o ≤ u64_max.

Definition owner_of (o : Opening) : string * N := (op_role o, op_id o).

(** A write touches its file and a temporary one. *)
Lemma atomic_write_other stop name text d other :
  other ≠ name → other ≠ tmp_of name → (atomic_write stop name text d).2 !! other = d !! other.
Proof.
  intros Hn Ht. unfold atomic_write. destruct stop as [[|k|]|]; cbn; [done|by rewrite lookup_insert_ne..|].
  by rewrite lookup_delete_ne, lookup_insert_ne.
Qed.

Lemma check_marked io d d' : check_or_init io d = (inr tt, d') →
  (∃ text, d' !! FORMAT_FILE = Some text ∧ found_format text = Some FORMAT) ∧ d' !! IDENTITY_FILE = d !! IDENTITY_FILE.
Proof.
  unfold check_or_init. destruct (io_create io); [|done]. destruct (io_read io); [|done]. cbn [negb].
  destruct (d !! FORMAT_FILE) as [text|] eqn:Hf.
  - destruct (found_format text) as [v|] eqn:Hv; [|done]. destruct (N.eqb_spec v FORMAT) as [->|]; [|done]. intros [= <-]. split; [|done]. eauto.
  - destruct (io_list io); [|done]. cbn [negb]. destruct (bool_decide (d = ∅)); [|done]. intros Hw.
    pose proof (atomic_write_other (io_stop io) FORMAT_FILE marker_text d IDENTITY_FILE) as Ho. rewrite Hw in Ho.
    split; [|by apply Ho]. unfold atomic_write in Hw. destruct (io_stop io) as [[]|]; try done. injection Hw as <-.
    exists marker_text. split; [|vm_compute; reflexivity]. rewrite lookup_delete_ne, lookup_insert_eq; [done|]. by vm_compute.
Qed.

(** An owned directory does not change, and opens for its owner only. *)
Lemma kept_open own store o d : kept own store d →
  (open_dir o d).2 = d ∧ (∀ s, (open_dir o d).1 = inr s → own = owner_of o ∧ s = store).
Proof.
  intros [(text & Hf & Hv) (itext & Hi & Hp)]. unfold open_dir, check_or_init. rewrite Hf, Hv.
  destruct (io_create _); [|done]. destruct (io_read (op_marker_io o)); [|done]. cbn. unfold claim_identity.
  destruct (io_read _); [|done]. rewrite Hi, Hp. cbn. split; [done|]. intros s.
  destruct (bool_decide_reflect (own = (op_role o, op_id o))) as [->|]; [|done]. by intros [= <-].
Qed.

(** A first success makes the directory its owner's. *)
Lemma open_keeps o d s d' : opening_ok o → open_dir o d = (inr s, d') → kept (owner_of o) s d'.
Proof.
  intros (Hr & Hs & Hid). unfold open_dir. destruct (check_or_init _ d) as [[e|[]] d1] eqn:Hc; [done|].
  apply check_marked in Hc as [(text & Hf & Hv) _]. unfold claim_identity. destruct (io_read _); [|done]. cbn [negb].
  destruct (d1 !! IDENTITY_FILE) as [itext|] eqn:Hi.
  - destruct (parse_identity itext) as [[own store]|] eqn:Hp; [|done].
    destruct (bool_decide_reflect (own = (op_role o, op_id o))) as [->|]; [|done]. intros [= <- <-]. split; eauto.
  - pose proof (atomic_write_other (io_stop (op_claim_io o)) IDENTITY_FILE (identity_text (op_role o) (op_id o) (op_fresh o)) d1 FORMAT_FILE) as Ho.
    unfold atomic_write in *. destruct (io_stop _) as [[]|]; try done. intros [= <- <-]. cbn in Ho. split.
    + exists text. split; [|done]. rewrite Ho; [done|by vm_compute..].
    + exists (identity_text (op_role o) (op_id o) (op_fresh o)). split; [|by apply identity_roundtrip].
      rewrite lookup_delete_ne, lookup_insert_eq; [done|]. by vm_compute.
Qed.

Lemma kept_openings own store os d : kept own store d →
  (openings os d).2 = d ∧ ∀ o s, (o, inr s) ∈ (openings os d).1 → own = owner_of o ∧ s = store.
Proof.
  intros Hk. induction os as [|o os IH]; [split; [done|]; by intros o s ?%not_elem_of_nil|]. cbn [openings].
  destruct (kept_open own store o d Hk) as [Hd Hs]. destruct (open_dir o d) as [r d1]. cbn in Hd, Hs. subst d1.
  destruct (openings os d) as [rs d2]. cbn in IH |- *. destruct IH as [-> IH]. split; [done|].
  intros o' s [E|Hin]%elem_of_cons; [injection E as -> <-; by apply Hs|by apply IH].
Qed.

Lemma openings_kept os d o s : Forall opening_ok os → (o, inr s) ∈ (openings os d).1 →
  kept (owner_of o) s (openings os d).2 ∧ ∀ o' s', (o', inr s') ∈ (openings os d).1 → owner_of o = owner_of o' ∧ s' = s.
Proof.
  revert d. induction os as [|o1 os IH]; intros d Hok; [by intros ?%not_elem_of_nil|]. apply Forall_cons_1 in Hok as [Ho1 Hok].
  cbn [openings]. destruct (open_dir o1 d) as [r1 d1] eqn:E1. destruct r1 as [e|s1].
  - specialize (IH d1 Hok). destruct (openings os d1) as [rs d2]. cbn in IH |- *. intros Hin.
    apply elem_of_cons in Hin as [[=]|Hin]. destruct (IH Hin) as [Hk Hu]. split; [done|].
    intros o' s' [[=]|Hin']%elem_of_cons. by apply Hu.
  - pose proof (open_keeps o1 d s1 d1 Ho1 E1) as Hk. destruct (kept_openings _ _ os d1 Hk) as [Hd Hu]. clear IH.
    destruct (openings os d1) as [rs d2]. cbn in Hd, Hu |- *. subst d2. intros Hin.
    assert (Hall : ∀ o' s', (o', inr s') ∈ (o1, inr s1) :: rs → owner_of o1 = owner_of o' ∧ s' = s1).
    { intros o' s' [E|Hin']%elem_of_cons; [by injection E as -> ->|by apply Hu]. }
    destruct (Hall o s Hin) as [Ho ->]. rewrite <- Ho. by split.
Qed.

(** C33. A data directory has one owner for good ([check_or_init], [claim_identity]).  Whatever
    processes open a directory over time, as whichever node or PD replica, with any of their
    reads and writes failing or cut short by a crash: all the openings that succeed are of one
    role and id and are given one store id.  From the first success on the directory no longer
    changes; its owner opens it again, with that store id, whenever the disk works, and anyone
    else is refused. *)
Theorem directory_has_one_owner os d o s :
  Forall opening_ok os → (o, inr s) ∈ (openings os d).1 →
  (∀ o' s', (o', inr s') ∈ (openings os d).1 → owner_of o' = owner_of o ∧ s' = s) ∧
  (∀ o', owner_of o' = owner_of o → op_marker_io o' = io_ok → op_claim_io o' = io_ok →
    open_dir o' (openings os d).2 = (inr s, (openings os d).2)) ∧
  (∀ o', owner_of o' ≠ owner_of o → ∃ e, open_dir o' (openings os d).2 = (inl e, (openings os d).2)).
Proof.
  intros Hok Hin. destruct (openings_kept os d o s Hok Hin) as [Hk Hu]. set (d' := (openings os d).2) in *. split; [|split].
  - intros o' s' Hin'. destruct (Hu o' s' Hin') as [-> ->]. done.
  - intros o' Ho Hm Hc. destruct Hk as [(text & Hf & Hv) (itext & Hi & Hp)]. unfold open_dir, check_or_init.
    rewrite Hm, Hf, Hv. cbn. unfold claim_identity. rewrite Hc, Hi, Hp. cbn. by rewrite bool_decide_true by (by rewrite <- Ho).
  - intros o' Ho. destruct (kept_open _ _ o' d' Hk) as [Hd Hs]. destruct (open_dir o' d') as [[e|s'] d1]; cbn in Hd, Hs; subst d1.
    + by exists e.
    + destruct (Hs s' eq_refl) as [E _]. by destruct Ho.
Qed.

(** * Witness *)

(** A first start that loses the claim, a second that succeeds, a stranger, and a restart. *)
Definition four_starts : list Opening :=
  [mkOpening "node" 2 "1f" io_ok (mkDirIo true true true (Some AtRename)); mkOpening "node" 2 "2e" io_ok io_ok;
   mkOpening "node" 5 "3d" io_ok io_ok; mkOpening "node" 2 "4c" io_ok io_ok].

Lemma directory_has_one_owner_witness :
  (openings four_starts ∅).1.*2 = [inl FeIo; inr "2e"; inl FeMismatch; inr "2e"] ∧
  ∃ o, (o, inr "2e") ∈ (openings four_starts ∅).1 ∧
    ∀ o' s', (o', inr s') ∈ (openings four_starts ∅).1 → owner_of o' = owner_of o ∧ s' = "2e".
Proof.
  split; [vm_compute; reflexivity|]. exists (mkOpening "node" 2 "2e" io_ok io_ok).
  assert (Hin : (mkOpening "node" 2 "2e" io_ok io_ok, inr "2e") ∈ (openings four_starts ∅).1).
  { apply (list_elem_of_lookup_2 _ 1%nat). vm_compute. reflexivity. }
  split; [exact Hin|]. apply (directory_has_one_owner four_starts ∅ _ "2e"); [|exact Hin].
  by repeat constructor.
Defined.

(** * A crash during the first start *)

(** A first start cut short while it writes the marker leaves a temporary file, which makes
    the directory pass for an old one: no later start opens it. *)
Lemma crash_bars_directory :
  let crashed := mkOpening "node" 2 "1f" (mkDirIo true true true (Some AtRename)) io_ok in
  let d := (open_dir crashed ∅).2 in
  d !! FORMAT_FILE = None ∧ ∀ o, ∃ e, open_dir o d = (inl e, d).
Proof.
  intros crashed d. assert (Hd : d = {["format.tmp" := marker_text]}) by (vm_compute; reflexivity).
  rewrite Hd. split; [by vm_compute|]. intros o. unfold open_dir, check_or_init.
  destruct (io_create _); [|by eexists]. destruct (io_read _); [|by eexists]. cbn [negb]. destruct (io_list _); by eexists.
Qed.
