(* ===== verification/KvService.v ===== *)
(** A data node's client API ([KvApi] and the request paths of [AppState] in
    [server/src/lib.rs]).

    A handler is asynchronous: between two of its steps the rest of the node runs.  It is a
    program ([Prog]) of steps on the node's state, each under one lock or on one blocking
    thread, and of awaited answers from the Raft groups.  Log output is left out, and so are
    the interpolated values of messages. *)

From stdpp Require Import base list numbers strings gmap sorting.
From Stdlib Require Import Strings.Byte.
From S2P Require Import Prelude Prog Encoding Keys Batch Memtable Db DbCorrect EngineApi Mvcc Percolator Scan.
From S2P Require Import Cursor PdRegion PdTso PdCluster Catalog AntiEntropy Ap MemLock RaftCmd RaftMessage RaftNode GroupActor.

(** * Timestamps *)

(** [TimestampSource::now]; the wall clock's reading is an input, the failure a
    [TsoUnavailable]. *)
Class TimestampSource (C : Type) := {
  clock_now : N → C → C * (string + N);
}.

(** [LocalClock]: the in-process oracle. *)
Record LocalClock := mkLocalClock { lc_tso : Tso }.
Definition LocalClock_new : LocalClock := mkLocalClock tso_ephemeral.

#[export] Instance local_clock : TimestampSource LocalClock := {|
  clock_now wall c :=
    match tso_now wall true (lc_tso c) with
    | (inl ts, t) => (mkLocalClock t, inr ts)
    | (inr _, t) => (mkLocalClock t, inl "ephemeral tso never fails")
    end;
|}.

Definition TSO_BATCH : N := 256.

(** [PdClock]: the reserved window, and what PD answers to the coming refills
    ([resp.timestamp], [resp.count], or that it cannot be reached). *)
Record PdClock := mkPdClock {
  pc_window : N * N;
  pc_answers : list (option (N * N));
}.

#[export] Instance pd_clock : TimestampSource PdClock := {|
  clock_now _ c :=
    let '(next, end_) := pc_window c in
    let take (w : N * N) (answers : list (option (N * N))) :=
      (mkPdClock (u64_add w.1 1, w.2) answers, inr w.1) in
    if end_ <=? next then
      match pc_answers c with
      | Some (timestamp, count) :: answers => take (timestamp, u64_add timestamp count) answers
      | None :: answers => (mkPdClock (next, end_) answers, inl "pd unreachable")
      | [] => (c, inl "pd unreachable")
      end
    else take (next, end_) (pc_answers c);
|}.

(** * Wire types *)

(** [kv::KeyError]: its kind, which the server always sets ([KeUnspecified] has none). *)
Inductive KeyError :=
  | KeLocked (primary : bytes) (lock_ts ttl : N)
  | KeConflict (detail : string)
  | KeInvalid (detail : string)
  | KeRetryable (detail : string)
  | KeRegionStale (new_epoch : N)
  | KeNotLeader (leader_hint : bytes)
  | KeUndetermined
  | KeUnspecified.

#[export] Instance key_error_eq_dec : EqDecision KeyError.
Proof. solve_decision. Defined.

Record Context_ := mkContext { cx_region_id : N; cx_region_epoch : N }.

#[export] Instance context_eq_dec : EqDecision Context_.
Proof. solve_decision. Defined.

Record GetRequest := mkGet { gq_table : bytes; gq_key : bytes; gq_read_ts : N; gq_context : option Context_ }.
Record GetResponse := mkGetResponse { gr_found : bool; gr_value : bytes; gr_error : option KeyError; gr_read_ts : N }.
Record PutRequest := mkPut { pq_table : bytes; pq_key : bytes; pq_value : bytes; pq_context : option Context_ }.
Record DeleteRequest := mkDelete { dq_table : bytes; dq_key : bytes; dq_context : option Context_ }.
(** [PutResponse], [DeleteResponse] and [CommitResponse]. *)
Record WriteResponse := mkWriteResponse { wr_commit_ts : N; wr_error : option KeyError }.
Record ScanRequest := mkScan {
  sq_table : bytes; sq_start_key : bytes; sq_end_key : bytes; sq_read_ts : N; sq_limit : N; sq_context : option Context_;
}.
(** [kv::Mutation]; [op] as it is on the wire ([0] put, [1] delete). *)
Record KvMutation := mkKvMutation { km_op : N; km_key : bytes; km_value : bytes }.
Record PrewriteRequest := mkPrewriteRequest {
  wq_mutations : list KvMutation; wq_primary : bytes; wq_start_ts : N; wq_ttl : N; wq_context : option Context_;
}.
Record CommitRequest := mkCommitRequest {
  cq_primary : bytes; cq_keys : list bytes; cq_start_ts : N; cq_context : option Context_;
}.

Inductive TxnFate := FateCommitted | FateRolledBack | FateLocked.
Record CheckTxnStatusResponse := mkStatusResponse {
  sr_fate : TxnFate; sr_commit_ts : N; sr_ttl : N; sr_error : option KeyError;
}.

Definition region_stale (new_epoch : N) : KeyError := KeRegionStale new_epoch.
Definition not_leader (leader : option N) : KeyError :=
  KeNotLeader (match leader with Some id => u64_be id | None => [] end).
Definition undetermined : KeyError := KeUndetermined.
Definition ap_no_txn : Status :=
  FailedPrecondition "AP regions are leaderless (LWW); use autocommit Put/Delete, not transactions".

Definition committed_status (commit_ts : N) : CheckTxnStatusResponse := mkStatusResponse FateCommitted commit_ts 0 None.
Definition rolled_back_status : CheckTxnStatusResponse := mkStatusResponse FateRolledBack 0 0 None.
Definition locked_status (ttl : N) : CheckTxnStatusResponse := mkStatusResponse FateLocked 0 ttl None.
Definition check_status_err (ke : KeyError) : CheckTxnStatusResponse := mkStatusResponse FateRolledBack 0 0 (Some ke).

Inductive Classified := CKey (ke : KeyError) | CStatus (s : Status).

Definition classify (e : Error) : Classified :=
  match e with
  | Conflict detail => CKey (KeConflict detail)
  | KeyIsLocked detail => CKey (KeRetryable detail)
  | InvalidArgument d => CStatus (InvalidArg d)
  | Io d => CStatus (Internal d)
  | Corruption d => CStatus (Internal d)
  end.

Definition classify_to_key (e : Error) : Status + KeyError :=
  match classify e with CKey ke => inr ke | CStatus s => inl s end.

Definition to_engine_mutation (m : KvMutation) : Mutation :=
  if km_op m =? 1 then Mutation_delete (km_key m) else Mutation_put (km_key m) (km_value m).

(** * Programs *)

(** What a handler awaits from a region's group, and the timer. *)
Inductive Call :=
  | CPropose (region : N) (data : bytes)
  | CReadIndex (region : N)
  | CSleep.

Definition Answer (c : Call) : Type :=
  match c with
  | CPropose _ _ => ProposeResult
  | CReadIndex _ => ReadResult
  | CSleep => unit
  end.

(** A handler's body: [?] returns the status. *)
Abbreviation PM := (Fallible Answer Status).

Definition k_await {S} (c : Call) : PM S (Answer c) := p_await c.

(** * The node *)

(** The fields of [AppState] that requests use.  [s_raft] has, for each hosted group, what
    its actor last published; [s_wall] is the wall clock in milliseconds. *)
Record AppState (E C : Type) := mkAppState {
  s_engine : E;
  s_in_flight : InFlight;
  s_clock : C;
  s_regions : RegionRegistry;
  s_raft : option (gmap N Observable);
  s_ap : option (list N);
  s_hlc : N;
  s_tables : Tables;
  s_pd : bool;
  s_wall : N;
}.
Arguments mkAppState {_ _}.
Arguments s_engine {_ _} _.
Arguments s_in_flight {_ _} _.
Arguments s_clock {_ _} _.
Arguments s_regions {_ _} _.
Arguments s_raft {_ _} _.
Arguments s_ap {_ _} _.
Arguments s_hlc {_ _} _.
Arguments s_tables {_ _} _.
Arguments s_pd {_ _} _.
Arguments s_wall {_ _} _.

#[export] Instance eta_app E C : Eta (AppState E C) := λ s,
  mkAppState (s_engine s) (s_in_flight s) (s_clock s) (s_regions s) (s_raft s) (s_ap s) (s_hlc s) (s_tables s) (s_pd s) (s_wall s).

(** [AppState::open]: a direct node over its opened engine and region table. *)
Definition AppState_open {E} (e : E) (regions : RegionRegistry) (wall : N) : AppState E LocalClock :=
  mkAppState e InFlight_new LocalClock_new regions None None hlc_new Tables_bootstrap false wall.

Definition AUTOCOMMIT_LEASE : N := N.shiftl 1 32.

Section handlers.
Context {E C : Type} `{EngineOps E} `{TimestampSource C}.
(** The fuel of the engine's searches, and what the peers of an AP region answer. *)
Context (fuel : nat) (peers_of : N → list Peer).
Abbreviation App := (AppState E C).
Implicit Types (s : App).

(** ** Routing *)

Definition group_for (key : bytes) s : option N :=
  groups ← s_raft s;
  region ← route key (s_regions s);
  _ ← groups !! r_id region;
  Some (r_id region).

Definition ap_for (key : bytes) s : option N :=
  hosted ← s_ap s;
  region ← route key (s_regions s);
  if existsb (N.eqb (r_id region)) hosted then Some (r_id region) else None.

Definition table_id (name : bytes) s : Status + N :=
  match id_of name (s_tables s) with
  | Some id => inr id
  | None => inl (FailedPrecondition "table does not exist")
  end.

Definition stored_key (table user_key : bytes) s : Status + bytes :=
  match table_id table s with inr id => inr (table_key id user_key) | inl e => inl e end.

Definition check_context (ctx : option Context_) (key : bytes) s : option KeyError :=
  ctx ← ctx;
  if cx_region_id ctx =? 0 then None else
  match by_id (cx_region_id ctx) (s_regions s) with
  | Some r =>
    if (r_epoch r =? cx_region_epoch ctx) && r_contains r key then None else Some (region_stale (r_epoch r))
  | None => Some (region_stale 0)
  end.

(** [group.is_leader()] and [group.leader_id()], as last published. *)
Definition leads (region : N) s : bool :=
  match groups ← s_raft s; groups !! region with
  | Some o => bool_decide (o_role o = Leader)
  | None => false
  end.
Definition leader_hint (region : N) s : option N :=
  groups ← s_raft s;
  o ← groups !! region;
  o_leader_id o.

(** ** Steps *)

(** [clock.now()] on a blocking thread. *)
Definition now : PM App N :=
  r ← k_step (λ s, let '(c, r) := clock_now (s_wall s) (s_clock s) in (s <| s_clock := c |>, r));
  match r with inr ts => mret ts | inl d => k_fail (Unavailable d) end.

Definition on_engine {A} (op : EM E A) : PM App (Result A) :=
  k_step (λ s, let '(e, r) := op (s_engine s) in (s <| s_engine := e |>, r)).

Definition on_ap {A} (op : ApNode E → ApNode E * A) : PM App A :=
  k_step (λ s, let '(n, a) := op (mkApNode (s_engine s) (s_hlc s)) in
    (s <| s_engine := an_engine n |> <| s_hlc := an_hlc n |>, a)).

(** [for _ in 0..200] of [await_in_flight], after the first test. *)
Fixpoint wait_loop (n : nat) (start end_ : bytes) (read_ts : N) : PM App unit :=
  match n with
  | O => k_fail (Unavailable "a write that belongs in this read's snapshot is still in flight — retry")
  | S n =>
    _ ← k_await CSleep;
    blocked ← k_look (λ s, blocks_read start end_ read_ts (s_in_flight s));
    if blocked : bool then wait_loop n start end_ read_ts else mret tt
  end.

Definition await_in_flight (start end_ : bytes) (read_ts : N) : PM App unit :=
  blocked ← k_look (λ s, blocks_read start end_ read_ts (s_in_flight s));
  if blocked : bool then wait_loop 200 start end_ read_ts else mret tt.

(** The answer of a proposal, as the write paths report it. *)
Definition proposed (commit_ts : N) (r : ProposeResult) : Status + N * option KeyError :=
  match r with
  | Applied (Ok _) => inr (commit_ts, None)
  | Applied (Err e) => match classify_to_key e with inr ke => inr (0, Some ke) | inl s => inl s end
  | NotLeading hint => inr (0, Some (not_leader hint))
  | Undetermined => inr (0, Some undetermined)
  end.

(** [group.is_leader()], and the redirect when it does not. *)
Definition if_leads {A} (region : N) (elsewhere : option N → A) (body : PM App A) : PM App A :=
  led ← k_look (leads region);
  if led : bool then body else
  hint ← k_look (leader_hint region);
  mret (elsewhere hint).

(** ** The replicated paths *)

(** The guard is dropped on every return from the proposal. *)
Definition replicated_autocommit (region : N) (key : bytes) (value : Value) : PM App (N * option KeyError) :=
  if_leads region (λ hint, (0, Some (not_leader hint))) (
    start_ts ← now;
    commit_ts ← now;
    let data := Command_encode (Autocommit (committed_batch key value start_ts commit_ts)) in
    guard ← k_step (λ s, let '(f, g) := register key commit_ts (s_in_flight s) in (s <| s_in_flight := f |>, g));
    r ← k_await (CPropose region data);
    _ ← k_step (λ s, (s <| s_in_flight := guard_drop guard (s_in_flight s) |>, tt));
    k_lift (proposed commit_ts r)).

Definition replicated_prewrite (region : N) (req : PrewriteRequest) : PM App (option KeyError) :=
  if_leads region (λ hint, Some (not_leader hint)) (
    let cmd := Prewrite (to_engine_mutation <$> wq_mutations req) (wq_primary req) (wq_start_ts req) (wq_ttl req) in
    r ← k_await (CPropose region (Command_encode cmd));
    out ← k_lift (proposed 0 r);
    mret out.2).

Definition replicated_commit (region : N) (req : CommitRequest) : PM App (N * option KeyError) :=
  if_leads region (λ hint, (0, Some (not_leader hint))) (
    commit_ts ← now;
    r ← k_await (CPropose region (Command_encode (Commit (cq_primary req) (cq_keys req) (cq_start_ts req) commit_ts)));
    k_lift (proposed commit_ts r)).

Definition replicated_resolve (region : N) (keys : list bytes) (start_ts commit_ts : N) : PM App (option KeyError) :=
  if_leads region (λ hint, Some (not_leader hint)) (
    r ← k_await (CPropose region (Command_encode (Resolve keys start_ts commit_ts)));
    out ← k_lift (proposed 0 r);
    mret out.2).

Definition peek (primary : bytes) (start_ts : N) : PM App TxnStatus :=
  r ← on_engine (em_read (check_txn_status_peek fuel primary start_ts));
  match r with Ok st => mret st | Err _ => k_fail (Internal "check_txn_status") end.

Definition app_check_txn_status (region : N) (primary : bytes) (start_ts now_ts : N) : PM App CheckTxnStatusResponse :=
  r ← k_await (CReadIndex region);
  match r with
  | ReadElsewhere hint => mret (check_status_err (not_leader hint))
  | Ready =>
    st ← peek primary start_ts;
    let settle :=
      o ← replicated_resolve region [primary] start_ts 0;
      match o with
      | Some ke => mret (check_status_err ke)
      | None =>
        settled ← peek primary start_ts;
        mret (match settled with Committed commit_ts => committed_status commit_ts | _ => rolled_back_status end)
      end in
    match st with
    | Committed commit_ts => mret (committed_status commit_ts)
    | Locked ttl => if now_ts <=? ttl then mret (locked_status ttl) else settle
    | RolledBack => settle
    end
  end.

Definition locked_key_error (key : bytes) : PM App (option KeyError) :=
  r ← on_engine (em_read (λ e, get_cf_raw e CfLock key));
  match r with
  | Err _ => k_fail (Internal "lock read")
  | Ok lock => mret (l ← lock ≫= Lock_decode; Some (KeLocked (lock_primary l) (lock_start_ts l) (lock_ttl l)))
  end.

(** ** The service *)

Definition begin : PM App N := now.

Definition no_group {A} (stale : A) (key : bytes) (body : N → PM App A) : PM App A :=
  g ← k_look (group_for key);
  match g with None => mret stale | Some region => body region end.

(** An engine outcome as a response: expected errors in its body, others as a status. *)
Definition answer {A B} (r : Result A) (ok : A → B) (err : KeyError → B) : PM App B :=
  match r with
  | Ok a => mret (ok a)
  | Err e => match classify e with CKey ke => mret (err ke) | CStatus s => k_fail s end
  end.

Definition replicated : PM App bool := k_look (λ s, match s_raft s with Some _ => true | None => false end).

Definition kv_prewrite (req : PrewriteRequest) : PM App (list KeyError) :=
  ap ← k_look (ap_for (wq_primary req));
  match ap with
  | Some _ => k_fail ap_no_txn
  | None =>
    raft ← replicated;
    if raft : bool then
      let route_key := match wq_mutations req with m :: _ => km_key m | [] => wq_primary req end in
      no_group [region_stale 0] route_key (λ region,
        error ← replicated_prewrite region req;
        mret (match error with Some ke => [ke] | None => [] end))
    else
    stale ← k_look (check_context (wq_context req) (wq_primary req));
    match stale with
    | Some ke => mret [ke]
    | None =>
      match Transaction_new (wq_start_ts req) (to_engine_mutation <$> wq_mutations req) with
      | Err e => answer (Err e) (λ _ : unit, []) (λ ke, [ke])
      | Ok txn =>
        r ← on_engine (prewrite txn (wq_ttl req));
        answer r (λ _, []) (λ ke, [ke])
      end
    end
  end.

Definition kv_commit (req : CommitRequest) : PM App WriteResponse :=
  ap ← k_look (ap_for (cq_primary req));
  match ap with
  | Some _ => k_fail ap_no_txn
  | None =>
    raft ← replicated;
    if raft : bool then
      no_group (mkWriteResponse 0 (Some (region_stale 0))) (cq_primary req) (λ region,
        out ← replicated_commit region req;
        mret (mkWriteResponse out.1 out.2))
    else
    stale ← k_look (check_context (cq_context req) (cq_primary req));
    match stale with
    | Some ke => mret (mkWriteResponse 0 (Some ke))
    | None =>
      commit_ts ← now;
      match Transaction_new (cq_start_ts req) (commit_mutations (cq_primary req) (cq_keys req)) with
      | Err e => answer (Err e) (λ _ : unit, mkWriteResponse commit_ts None) (λ ke, mkWriteResponse 0 (Some ke))
      | Ok txn =>
        r ← on_engine (commit txn commit_ts);
        answer r (λ _, mkWriteResponse commit_ts None) (λ ke, mkWriteResponse 0 (Some ke))
      end
    end
  end.

(** The timestamp of a read: the request's, or the clock's. *)
Definition read_at (read_ts : N) : PM App N := if read_ts =? 0 then now else mret read_ts.

Definition found (read_ts : N) (o : option bytes) : GetResponse :=
  match o with
  | Some value => mkGetResponse true value None read_ts
  | None => mkGetResponse false [] None read_ts
  end.

(** The read of [get] once the request is known to be served here. *)
Definition get_local (raft : bool) (key : bytes) (req_ts : N) : PM App GetResponse :=
  read_ts ← read_at req_ts;
  _ ← await_in_flight key (key ++ [x00]) read_ts;
  res ← on_engine (if raft then em_read (mvcc_get_unresolved key read_ts) else mvcc_get fuel key read_ts);
  let error ke := mkGetResponse false [] (Some ke) read_ts in
  match res with
  | Err (KeyIsLocked detail) =>
    locked ← if raft then locked_key_error key else mret None;
    match locked with
    | Some ke => mret (error ke)
    | None => answer (Err (KeyIsLocked detail)) (found read_ts) error
    end
  | _ => answer res (found read_ts) error
  end.

Definition kv_get (req : GetRequest) : PM App GetResponse :=
  sk ← k_look (stored_key (gq_table req) (gq_key req));
  key ← k_lift sk;
  stale ← k_look (check_context (gq_context req) key);
  let error ke := mkGetResponse false [] (Some ke) 0 in
  match stale with
  | Some ke => mret (error ke)
  | None =>
    ap ← k_look (ap_for key);
    match ap with
    | Some region =>
      res ← on_ap (λ n, let '(n, r, _) := ap_read_repair fuel key (peers_of region) n in (n, r));
      res ← k_lift res;
      answer res (found 0) error
    | None =>
      raft ← replicated;
      if raft : bool then
        no_group (error (region_stale 0)) key (λ region,
          r ← k_await (CReadIndex region);
          match r with
          | Ready => get_local true key (gq_read_ts req)
          | ReadElsewhere hint => mret (error (not_leader hint))
          end)
      else get_local false key (gq_read_ts req)
    end
  end.

(** [autocommit]: a transaction of one mutation. *)
Definition autocommit (m : Mutation) : PM App (Result N) :=
  start_ts ← now;
  match Transaction_new start_ts [m] with
  | Err e => mret (Err e)
  | Ok txn =>
    r ← on_engine (prewrite txn (N.min (start_ts + AUTOCOMMIT_LEASE) u64_max));
    match r with
    | Err e => mret (Err e)
    | Ok _ =>
      commit_ts ← now;
      r ← on_engine (commit txn commit_ts);
      mret (match r with Ok _ => Ok commit_ts | Err e => Err e end)
    end
  end.

(** What [put] and [delete] share. *)
Definition kv_write (table user_key : bytes) (value : Value) (ctx : option Context_) : PM App WriteResponse :=
  sk ← k_look (stored_key table user_key);
  key ← k_lift sk;
  stale ← k_look (check_context ctx key);
  match stale with
  | Some ke => mret (mkWriteResponse 0 (Some ke))
  | None =>
    ap ← k_look (ap_for key);
    match ap with
    | Some _ =>
      wall ← k_look s_wall;
      r ← on_ap (λ n, ap_write wall key value n);
      out ← k_lift r;
      mret (mkWriteResponse out.1 None)
    | None =>
      raft ← replicated;
      if raft : bool then
        no_group (mkWriteResponse 0 (Some (region_stale 0))) key (λ region,
          out ← replicated_autocommit region key value;
          mret (mkWriteResponse out.1 out.2))
      else
      res ← autocommit (mkMutation key value);
      answer res (λ commit_ts, mkWriteResponse commit_ts None) (λ ke, mkWriteResponse 0 (Some ke))
    end
  end.

Definition kv_put (req : PutRequest) : PM App WriteResponse :=
  kv_write (pq_table req) (pq_key req) (VPut (pq_value req)) (pq_context req).

Definition kv_delete (req : DeleteRequest) : PM App WriteResponse :=
  kv_write (dq_table req) (dq_key req) VDelete (dq_context req).

(** The range a scan request names. *)
Definition scan_range (id : N) (req : ScanRequest) : bytes * bytes :=
  let '(table_start, table_end) := table_range id in
  if is_empty (sq_start_key req) && is_empty (sq_end_key req) then (table_start, table_end)
  else (table_key id (sq_start_key req),
        if is_empty (sq_end_key req) then table_end else table_key id (sq_end_key req)).

Definition kv_scan (req : ScanRequest) : PM App (list (bytes * bytes)) :=
  tid ← k_look (table_id (sq_table req));
  id ← k_lift tid;
  let '(start, end_) := scan_range id req in
  stale ← k_look (check_context (sq_context req) start);
  match stale with
  | Some _ => k_fail (FailedPrecondition "region stale; re-resolve and rescan")
  | None =>
    ap ← k_look (ap_for start);
    mode ← match ap with
      | Some _ => mret (true, false)
      | None =>
        raft ← replicated;
        if raft : bool then
          g ← k_look (group_for start);
          match g with
          | None => k_fail (FailedPrecondition "region not hosted on this node")
          | Some region =>
            r ← k_await (CReadIndex region);
            match r with
            | Ready => mret (false, false)
            | ReadElsewhere _ => k_fail (Unavailable "not the region leader; scan on the leader")
            end
          end
        else mret (false, true)
      end;
    let '(use_max_ts, resolve) := mode : bool * bool in
    read_ts ← if use_max_ts then mret u64_max else read_at (sq_read_ts req);
    _ ← await_in_flight start end_ read_ts;
    res ← on_engine (scan fuel start end_ read_ts (N.to_nat (sq_limit req)) resolve);
    match res with
    | Err _ => k_fail (Internal "scan")
    | Ok pairs => mret ((λ '(key, value), (strip_table_prefix key, value)) <$> pairs)
    end
  end.

(** [list_tables]: the catalog by name.  On the wire a regime is [0] (CP) or [1] (AP). *)
Definition regime_to_wire (r : Regime) : N := match r with Cp => 0 | PdCluster.Ap => 1 end.
Definition listed_le (a b : N * bytes * N) : Prop := bytes_le a.1.2 b.1.2.

#[export] Instance listed_le_dec : RelDecision listed_le.
Proof. intros a b. apply bytes_le_dec. Defined.

Definition kv_list_tables : PM App (list (N * bytes * N)) :=
  k_look (λ s, merge_sort listed_le ((λ t, (tb_id t, tb_name t, regime_to_wire (tb_regime t))) <$> Tables_list (s_tables s))).

Definition kv_check_txn_status (primary : bytes) (start_ts now_ts : N) : PM App CheckTxnStatusResponse :=
  no_group (check_status_err (region_stale 0)) primary (λ region, app_check_txn_status region primary start_ts now_ts).

Definition kv_resolve_lock (keys : list bytes) (start_ts commit_ts : N) : PM App (option KeyError) :=
  match keys with
  | [] => mret None
  | route_key :: _ =>
    no_group (Some (region_stale 0)) route_key (λ region, replicated_resolve region keys start_ts commit_ts)
  end.
End handlers.
