(* ===== verification/KvDirect.v ===== *)
(** The direct (unreplicated) path of a data node: its requests act on a multi-version map.

    [History] is the abstract state, the writes in the order of their commit timestamps; the
    handlers are shown to keep the engine's store and the history in correspondence. *)

From stdpp Require Import base list numbers strings gmap.
From Stdlib Require Import Strings.Byte.
From S2P Require Import Prelude Encoding Keys Batch OrdMap Memtable SstableCorrect Db DbCorrect EngineApi Mvcc MvccCorrect.
From S2P Require Import Percolator TxnCorrect Scan ScanCorrect PdRegion PdTso Catalog AntiEntropy Ap MemLock GroupActor Prog.
From S2P Require Import KvService.

#[local] Arguments encode_data_key : simpl never.
#[local] Arguments encode_write_value : simpl never.
#[local] Arguments Lock_encode : simpl never.
#[local] Arguments Lock_decode : simpl never.
#[local] Arguments Value_encode : simpl never.
#[local] Arguments decode_write_value : simpl never.

(** * Clocks *)

(** What the request paths need of a timestamp source.  [clock_at c lo k]: the next [k]
    timestamps come, increasing and from [lo] on, whatever the wall clock reads. *)
Class ClockLaws (C : Type) `{TimestampSource C} := {
  wall_ok : N → Prop;
  clock_at : C → N → N → Prop;
  clock_now_ok wall c lo k :
    clock_at c lo (k + 1) → wall_ok wall →
    ∃ ts c', clock_now wall c = (c', inr ts) ∧ lo ≤ ts ∧ ts < u64_max ∧ clock_at c' (ts + 1) k;
  clock_at_less c lo k k' : k ≤ k' → clock_at c lo k' → clock_at c lo k;
}.

(** The in-process oracle: clocks below 2^45 ms, and 2^62 timestamps. *)
#[export] Instance local_clock_laws : ClockLaws LocalClock.
Proof.
  refine {| wall_ok wall := wall < CLOCK_LIMIT;
            clock_at c lo k := tso_path (lc_tso c) = None ∧ lo ≤ ti_next (tso_inner (lc_tso c)) ∧
              N.max (ti_next (tso_inner (lc_tso c))) HORIZON + k ≤ HORIZON + 4611686018427387904 |}.
  2:{ intros c lo k k' Hle (? & ? & ?). split_and!; [done|done|lia]. }
  intros wall [[[next upper] path]] lo k (Hp & Hlo & Hroom) Hw. cbn [lc_tso tso_path tso_inner ti_next] in *. subst path.
  destruct (horizon_clock wall Hw) as [Hfl Hhor]. unfold clock_now, local_clock, tso_now, alloc.
  cbn [lc_tso tso_inner tso_path ti_next ti_upper].
  change (N.max 1 1) with 1. set (n := if next <? _ then _ else _).
  assert (Hn : next ≤ n ∧ n ≤ N.max next HORIZON).
  { unfold n. rewrite Hfl. destruct (N.ltb_spec next (wall * 262144)); lia. }
  clearbody n. clear Hfl Hhor Hw. unfold HORIZON in *. assert (Ha : u64_add n 1 = n + 1).
  { unfold u64_add, as_u64. apply N.mod_small. lia. }
  exists n. destruct (upper <? u64_add n 1); eexists; (split; [reflexivity|]); cbn [lc_tso tso_inner tso_path ti_next];
    rewrite Ha; unfold u64_max; split_and!; (done || lia).
Defined.

(** The ranges PD answers with, one after the other, give [k] timestamps from [lo] on. *)
Fixpoint chain (answers : list (option (N * N))) (lo k : N) : Prop :=
  match answers with
  | Some (ts, count) :: answers =>
    k = 0 ∨ (lo ≤ ts ∧ 0 < count ∧ ts + count ≤ u64_max ∧ (k ≤ count ∨ chain answers (ts + count) (k - count)))
  | _ => k = 0
  end.

Lemma chain_zero answers lo : chain answers lo 0.
Proof. destruct answers as [|[[ts count]|] answers]; cbn; auto. Qed.

Lemma chain_less answers lo k k' : k ≤ k' → chain answers lo k' → chain answers lo k.
Proof.
  revert lo k k'. induction answers as [|[[ts count]|] answers IH]; intros lo k k' Hle; cbn; [lia| |lia].
  intros [?|(? & ? & ? & Hor)]; [lia|]. right. split_and!; [done|done|done|].
  destruct Hor as [?|Hc]; [left; lia|]. right. eapply IH; [|exact Hc]. lia.
Qed.

#[export] Instance pd_clock_laws : ClockLaws PdClock.
Proof.
  refine {| wall_ok _ := True;
            clock_at c lo k := k = 0 ∨
              if (pc_window c).2 <=? (pc_window c).1 then chain (pc_answers c) lo k
              else lo ≤ (pc_window c).1 ∧ (pc_window c).2 ≤ u64_max ∧
                (k ≤ (pc_window c).2 - (pc_window c).1 ∨
                 chain (pc_answers c) (pc_window c).2 (k - ((pc_window c).2 - (pc_window c).1))) |}.
  2:{ intros [[n e] answers] lo k k' Hle [?|Hat]; cbn in *; [left; lia|right].
      destruct (e <=? n); [by eapply chain_less|]. destruct Hat as (? & ? & Hor). split_and!; [done|done|].
      destruct Hor as [?|Hc]; [left; lia|]. right. eapply chain_less; [|exact Hc]. lia. }
  assert (Hnext : ∀ n e answers k, n < e → e ≤ u64_max → k + 1 ≤ e - n ∨ chain answers e (k + 1 - (e - n)) →
    k = 0 ∨ if e <=? n + 1 then chain answers (n + 1) k
      else n + 1 ≤ n + 1 ∧ e ≤ u64_max ∧ (k ≤ e - (n + 1) ∨ chain answers e (k - (e - (n + 1))))).
  { intros n e answers k Hlt Hmax Hor. destruct (N.leb_spec e (n + 1)).
    - assert (e = n + 1) as -> by lia. replace (k + 1 - (n + 1 - n)) with k in Hor by lia.
      destruct Hor; [left; lia|by right].
    - right. split_and!; [lia|done|]. replace (k - (e - (n + 1))) with (k + 1 - (e - n)) by lia.
      destruct Hor; [left; lia|by right]. }
  intros wall [[n e] answers] lo k [?|Hat] _; cbn in *; [lia|]. destruct (N.leb_spec e n).
  - destruct answers as [|[[ts count]|] answers]; cbn in Hat; [lia| |lia].
    destruct Hat as [?|(Hlo & Hc & Hmax & Hor)]; [lia|].
    eexists _, _. split; [reflexivity|]. cbn. rewrite !u64_add_small by lia. split_and!; [done|lia|].
    apply Hnext; [lia|done|]. by replace (ts + count - ts) with count by lia.
  - destruct Hat as (Hlo & Hmax & Hor). eexists _, _. split; [reflexivity|]. cbn. rewrite u64_add_small by lia.
    split_and!; [done|lia|]. by apply Hnext.
Defined.

(** * Histories *)

(** A committed write: key, commit timestamp, value.  A history has the newest first. *)
Abbreviation KvWrite := (bytes * N * Value)%type.
Abbreviation History := (list KvWrite).

(** What a read of [key] at [ts] returns. *)
Fixpoint spec_read (h : History) (key : bytes) (ts : N) : option bytes :=
  match h with
  | [] => None
  | (k, c, v) :: h => if bool_decide (k = key) && (c <=? ts) then Value_into_option v else spec_read h key ts
  end.

(** Writes within the size the memtable accounting is proved for. *)
Definition small_write (key : bytes) (value : Value) : Prop :=
  (N.of_nat (length key + length (Value_encode value)) ≤ 67108864)%N.

Lemma length_Lock_encode l : length (Lock_encode l) = (21 + length (lock_primary l))%nat.
Proof.
  unfold Lock_encode. rewrite put_length_prefixed_lp, !length_app, length_lp, !length_be_bytes. cbn. lia.
Qed.

Lemma small_write_sized start_ts ttl cts key value :
  small_write key value → is_u64 start_ts → is_u64 ttl → start_ts < cts → is_u64 cts →
  txn_sized (mkTransaction start_ts key [mkMutation key value]) ttl cts.
Proof.
  unfold small_write. intros Hs Hst Httl Hlt Hc.
  constructor; cbn [tx_start_ts tx_primary tx_mutations]; [done|done|done|unfold fits, u32_max in *; lia|..].
  - constructor; [|done]. unfold small_op, batch_weight. cbn [req_batch prewrite_req]. unfold build_prewrite_batch.
    cbn -[Lock_encode encode_data_key Value_encode]. rewrite length_Lock_encode, length_encode_data_key. cbn [lock_primary]. lia.
  - constructor; [|done]. unfold small_op, batch_weight. cbn -[encode_data_key encode_write_value].
    rewrite length_encode_data_key. unfold encode_write_value. rewrite length_be_bytes. lia.
  - intros k Hk. cbn in Hk. apply list_elem_of_singleton in Hk as ->. unfold small_op, batch_weight.
    cbn -[encode_data_key]. rewrite length_encode_data_key. lia.
Qed.

Section direct.
Context {E C : Type} `{EngineLaws E} `{ClockLaws C}.
(** The stored keys in use; none is a proper prefix of another. *)
Context (K : bytes → Prop) (HK : ∀ a b, K a → K b → a = b ∨ apart a b).
Implicit Types (e : E) (h : History).

(** The engine holds the history: no locks, one commit record per write, below [lo]. *)
Record holds_history e h (lo : N) : Prop := mkHoldsHistory {
  hh_store : ∃ st, holds e st ∧ txn_inv K st ∧ (∀ key, st_get st CfLock key = None) ∧
    (∀ k, is_Some (st CfWrite k) → k ∈ (λ w : KvWrite, encode_data_key w.1.1 w.1.2) <$> h) ∧
    ∀ key ts, K key → is_u64 ts → snapshot_read st key ts (Ok (spec_read h key ts));
  hh_below : Forall (λ w : KvWrite, is_u64 w.1.2 ∧ w.1.2 < lo) h;
}.

Lemma holds_history_mono e h lo lo' : lo ≤ lo' → holds_history e h lo → holds_history e h lo'.
Proof.
  intros Hle [Hs Hb]. constructor; [done|]. eapply list.Forall_impl; [exact Hb|]. cbn. intros w [? ?]. split; [done|lia].
Qed.

(** Only a commit adds a record. *)
Lemma txn_step_records st op st' k :
  txn_inv K st → txn_step K st op st' → is_Some (st' CfWrite k) →
  is_Some (st CfWrite k) ∨ ∃ key s c, op = OpResolve (mkResolve key s (RCommit c)) ∧ k = encode_data_key key c.
Proof.
  intros Hi Hs. destruct (txn_step_cases K HK _ _ _ Hi Hs)
    as [(p & -> & _ & _ & _ & _ & Est)|[(key & l & c & -> & _ & _ & _ & _ & Est)|(key & l & -> & _ & _ & Est)]];
    rewrite (Est CfWrite); rewrite st_set_ne by (by intros [? _]); unfold st_set; case_decide as Hd; auto.
  - by destruct Hd.
  - destruct Hd as [_ <-]. right. eauto.
  - by destruct Hd.
Qed.

Lemma txn_steps_records st ops st' k :
  txn_inv K st → txn_steps K st ops st' → is_Some (st' CfWrite k) →
  is_Some (st CfWrite k) ∨ ∃ key s c, OpResolve (mkResolve key s (RCommit c)) ∈ ops ∧ k = encode_data_key key c.
Proof.
  intros Hi Hs. induction Hs as [st st' Est|st op st1 ops st2 Hone Hs IH]; intros Hk; [left; by rewrite <- (Est CfWrite)|].
  destruct (IH (txn_step_inv K HK _ _ _ Hi Hone) Hk) as [Hk'|(key & s & c & Hin & ->)].
  - destruct (txn_step_records _ _ _ _ Hi Hone Hk') as [?|(key & s & c & -> & ->)]; [by left|right].
    exists key, s, c. split; [left|done].
  - right. exists key, s, c. split; [by right|done].
Qed.

(** ** One write *)

Lemma history_free e st h lo start_ts key value :
  (∀ key, st_get st CfLock key = None) →
  (∀ k, is_Some (st CfWrite k) → k ∈ (λ w : KvWrite, encode_data_key w.1.1 w.1.2) <$> h) →
  Forall (λ w : KvWrite, is_u64 w.1.2 ∧ w.1.2 < lo) h → lo ≤ start_ts →
  free (mkTransaction start_ts key [mkMutation key value]) st (mkMutation key value).
Proof.
  intros Hl Hr Hb Hle. split; [apply Hl|]. intros c Hc Hge. cbn [tx_start_ts mu_key] in *.
  destruct (commit_at st key c) as [w|] eqn:Ew; [|done]. exfalso.
  assert (Hk : is_Some (commit_at st key c)) by (by rewrite Ew).
  apply Hr, list_elem_of_fmap in Hk as ([[k c'] v] & Ek & Hin).
  rewrite list.Forall_forall in Hb. destruct (Hb _ Hin) as [Hc' Hlt]. cbn in *.
  apply encode_data_key_inj in Ek as [_ ->]; [lia|done|done].
Qed.

(** The prewrite and the commit of a single-mutation transaction. *)
Lemma write_history e h lo start_ts ttl key value :
  holds_history e h lo → K key → small_write key value → lo ≤ start_ts → start_ts < u64_max → is_u64 ttl →
  let tx := mkTransaction start_ts key [mkMutation key value] in
  ∃ e1, prewrite tx ttl e = (e1, Ok tt) ∧
    ∀ cts, start_ts < cts → is_u64 cts →
      ∃ e2, commit tx cts e1 = (e2, Ok tt) ∧ holds_history e2 ((key, cts, value) :: h) (cts + 1).
Proof.
  intros [(st & Hh & Hi & Hl & Hr & Hread) Hb] HKk Hsm Hle Hmax Httl tx. assert (Hst : is_u64 start_ts) by lia.
  set (m := mkMutation key value). assert (HKs : Forall (λ m, K (mu_key m)) [m]) by (by constructor).
  assert (Hnd : NoDup (mu_key <$> [m])) by apply NoDup_singleton.
  pose proof (history_free e st h lo start_ts key value Hl Hr Hb Hle) as Hfree.
  destruct (prewrite_run K HK e st start_ts [m] tx ttl (start_ts + 1)) as (e1 & st1 & Ep & Hh1 & Hi1 & Hs1 & Hp1);
    [done|done|done|by apply small_write_sized; [..|lia|unfold u64_max in *; lia]|done|done|by constructor|].
  exists e1. split; [done|]. intros cts Hlt Hc.
  destruct (commit_run K HK e1 st1 start_ts [m] tx ttl cts) as (e2 & st2 & Ec & Hh2 & Hi2 & Hs2 & Ha2);
    [done|done|done|by apply small_write_sized|done|done|done|].
  exists e2. split; [done|]. apply Forall_cons in Ha2 as [Ha2 _].
  pose proof (txn_steps_app K _ _ _ _ _ Hs1 Hs2) as Hs. constructor.
  2:{ constructor; [split; [done|cbn; lia]|]. eapply list.Forall_impl; [exact Hb|]. cbn. intros w [? ?]. split; [done|lia]. }
  exists st2. split_and!; [done|done| | |].
  - intros k. destruct (decide (k = key)) as [->|Hne]; [apply Ha2|].
    assert (Hks : key_same st st2 k) by (eapply (txn_steps_other K HK); [done|exact Hs|repeat constructor; cbn; congruence]).
    by rewrite (ks_lock _ _ _ Hks).
  - intros k Hk. destruct (txn_steps_records _ _ _ k Hi Hs Hk) as [Hk'|(k' & s & c & Hin & ->)].
    + right. by apply Hr.
    + cbn in Hin. rewrite !elem_of_cons in Hin. destruct Hin as [[=]|[Heq|Hin%elem_of_nil]]; [|done].
      injection Heq as <- _ <-. left.
  - intros k ts HKk' Hts. cbn [spec_read]. destruct (bool_decide_reflect (key = k)) as [<-|Hne]; cbn [andb].
    + destruct (N.leb_spec cts ts).
      { by apply (applied_read tx ttl Hst Httl st2 cts m ts Hts). }
      eapply (txn_steps_snapshot K HK); [exact Hi|done|done|exact Hs| |by apply Hread].
      apply (txn_requests_above tx ttl cts [m]). by left.
    + eapply (txn_steps_snapshot K HK); [exact Hi|done|done|exact Hs| |by apply Hread].
      apply (txn_requests_above tx ttl cts [m]). right. cbn. intros Hin%list_elem_of_singleton. done.
Qed.

(** ** Reads *)

Lemma history_read e h lo key ts :
  holds_history e h lo → K key → is_u64 ts → read_committed key ts e = Ok (spec_read h key ts).
Proof.
  intros [(st & Hh & Hi & _ & _ & Hread) _] HKk Hts.
  eapply snapshot_read_det; [|by apply Hread]. by apply read_committed_snapshot; [|apply (txn_inv_separated K HK)|].
Qed.

Lemma history_get e h lo fuel key ts :
  holds_history e h lo → K key → is_u64 ts → mvcc_get fuel key ts e = (e, Ok (spec_read h key ts)).
Proof.
  intros Hh HKk Hts. rewrite <- (history_read e h lo key ts) by done.
  destruct Hh as [(st & Hh & _ & Hl & _) _]. by apply (mvcc_get_unlocked fuel key ts e st).
Qed.

(** A scan that resolves locks, where there are none. *)
Lemma scan_resolving e st fuel it end_ ts limit seen out :
  holds e st → (∀ key, st_get st CfLock key = None) →
  scan_loop fuel it end_ ts limit true seen out e = scan_loop fuel it end_ ts limit false seen out e.
Proof.
  intros Hh Hl. revert it seen out. induction fuel as [|fuel IH]; intros it seen out; [done|]. cbn [scan_loop].
  destruct (merge_next it e) as [[[[wkey wv]|err]|] it']; [|done|done].
  destruct (decode_data_key wkey) as [[uk c]|]; [|apply IH]. destruct (past_end end_ uk); [done|]. case_decide; [apply IH|].
  assert (Hrd : scan_read fuel true uk ts e = scan_read fuel false uk ts e).
  { unfold scan_read. rewrite (mvcc_get_unlocked fuel uk ts e st Hh (Hl uk)). unfold em_read, mvcc_get_unresolved.
    by rewrite (holds_get e st CfLock uk Hh), Hl. }
  rewrite Hrd. unfold scan_read, em_read.
  destruct (mvcc_get_unresolved uk ts e) as [[v|]|err]; [|apply IH|destruct (is_locked_err err); [apply IH|done]].
  destruct (negb _ && _); [done|apply IH].
Qed.

Lemma history_scan e h lo fuel start end_ ts limit :
  holds_history e h lo → is_u64 ts → (length h < fuel)%nat → (∀ uk, K uk → uk `prefix_of` start → uk = start) →
  ∃ out, scan fuel start end_ ts limit true e = (e, Ok (limited limit out)) ∧ ksorted out ∧
    ∀ uk v, (uk, v) ∈ out ↔ K uk ∧ bytes_le start uk ∧ past_end end_ uk = false ∧ spec_read h uk ts = Some v.
Proof.
  intros Hhh Hts Hf Hstart. pose proof Hhh as [(st & Hh & Hi & Hl & Hr & Hread) Hb].
  assert (Hun : ∀ uk, K uk → mvcc_get_unresolved uk ts e = Ok (spec_read h uk ts)).
  { intros uk HKu. unfold mvcc_get_unresolved. rewrite (holds_get e st CfLock uk Hh), Hl. cbn [mbind result_mbind].
    by apply (history_read e h lo). }
  destruct (scan_correct_fuel K HK e st Hh (ti_keys K _ st Hi) start end_ Hstart ts) with
    (keys := (λ w : KvWrite, encode_data_key w.1.1 w.1.2) <$> h) as (out & [Hs Hd] & Hscan).
  { intros uk HKu err. by rewrite (Hun uk HKu). }
  { exact Hr. }
  exists out. split; [|split; [done|]].
  - unfold scan. rewrite (scan_resolving e st) by done. apply Hscan. by rewrite length_fmap.
  - intros uk v. rewrite Hd. unfold in_range, visible, stored. split.
    + intros (HKu & [? ?] & _ & Hv). rewrite (Hun uk HKu) in Hv. split_and!; [done|done|done|congruence].
    + intros (HKu & ? & ? & Hv). split_and!; [done|done|done| |by rewrite (Hun uk HKu), Hv].
      pose proof (Hread uk ts HKu Hts) as Hsr. rewrite Hv in Hsr. inversion Hsr as [|c w Hc Hw Hn Heq].
      exists c. split; [lia|by rewrite Hw].
Qed.
End direct.

(** * The handlers

    The handlers of a direct node, against the multi-version map. *)

(** * Requests *)

Inductive Request :=
  | RqPut (r : PutRequest)
  | RqDelete (r : DeleteRequest)
  | RqGet (r : GetRequest)
  | RqScan (r : ScanRequest).

Inductive Response :=
  | RsWrite (r : Status + WriteResponse)
  | RsGet (r : Status + GetResponse)
  | RsScan (r : Status + list (bytes * bytes)).

Section direct.
Context {E C : Type} `{EngineLaws E} `{ClockLaws C}.
Context (K : bytes → Prop) (HK : ∀ a b, K a → K b → a = b ∨ apart a b).
Context (fuel : nat) (peers_of : N → list Peer).
(** The node's tables and regions, which requests do not change. *)
Context (s0 : AppState E C).
Abbreviation App := (AppState E C).
Implicit Types (s : App) (h : History).

(** The handlers, one request after the other. *)
Definition serve (r : Request) : Prog Answer App Response :=
  match r with
  | RqPut r => prog_bind (kv_put r) (λ x, Ret (RsWrite x))
  | RqDelete r => prog_bind (kv_delete r) (λ x, Ret (RsWrite x))
  | RqGet r => prog_bind (kv_get fuel peers_of r) (λ x, Ret (RsGet x))
  | RqScan r => prog_bind (kv_scan fuel r) (λ x, Ret (RsScan x))
  end.

Fixpoint serve_all (rs : list Request) : Prog Answer App (list Response) :=
  match rs with
  | [] => Ret []
  | r :: rs => prog_bind (serve r) (λ x, prog_bind (serve_all rs) (λ xs, Ret (x :: xs)))
  end.

(** * The specification *)

(** The timestamp of a read: the one asked for, or one after every write. *)
Definition reads_at (req_ts : N) h (ts : N) : Prop :=
  if req_ts =? 0 then Forall (λ w : KvWrite, w.1.2 < ts) h else ts = req_ts.

Definition served_write (table user_key : bytes) (value : Value) (ctx : option Context_) h
    (r : Status + WriteResponse) h' : Prop :=
  match stored_key table user_key s0 with
  | inl st => r = inl st ∧ h' = h
  | inr key =>
    match check_context ctx key s0 with
    | Some ke => r = inr (mkWriteResponse 0 (Some ke)) ∧ h' = h
    | None => ∃ cts, r = inr (mkWriteResponse cts None) ∧ h' = (key, cts, value) :: h ∧ Forall (λ w : KvWrite, w.1.2 < cts) h
    end
  end.

Definition served_get (req : GetRequest) h (r : Status + GetResponse) : Prop :=
  match stored_key (gq_table req) (gq_key req) s0 with
  | inl st => r = inl st
  | inr key =>
    match check_context (gq_context req) key s0 with
    | Some ke => r = inr (mkGetResponse false [] (Some ke) 0)
    | None => ∃ ts, r = inr (found ts (spec_read h key ts)) ∧ reads_at (gq_read_ts req) h ts
    end
  end.

(** The visible keys of the range, in order, up to the limit. *)
Definition served_scan (req : ScanRequest) h (r : Status + list (bytes * bytes)) : Prop :=
  match table_id (sq_table req) s0 with
  | inl st => r = inl st
  | inr id =>
    let '(start, end_) := scan_range id req in
    match check_context (sq_context req) start s0 with
    | Some _ => r = inl (FailedPrecondition "region stale; re-resolve and rescan")
    | None => ∃ ts out, reads_at (sq_read_ts req) h ts ∧
        r = inr ((λ '(key, value), (strip_table_prefix key, value)) <$> limited (N.to_nat (sq_limit req)) out) ∧
        ksorted out ∧
        ∀ uk v, (uk, v) ∈ out ↔ K uk ∧ bytes_le start uk ∧ past_end end_ uk = false ∧ spec_read h uk ts = Some v
    end
  end.

Definition served (r : Request) h (x : Response) h' : Prop :=
  match r, x with
  | RqPut r, RsWrite x => served_write (pq_table r) (pq_key r) (VPut (pq_value r)) (pq_context r) h x h'
  | RqDelete r, RsWrite x => served_write (dq_table r) (dq_key r) VDelete (dq_context r) h x h'
  | RqGet r, RsGet x => served_get r h x ∧ h' = h
  | RqScan r, RsScan x => served_scan r h x ∧ h' = h
  | _, _ => False
  end.

Inductive served_all : list Request → History → list Response → History → Prop :=
  | served_nil h : served_all [] h [] h
  | served_cons r h x h1 rs xs h2 : served r h x h1 → served_all rs h1 xs h2 → served_all (r :: rs) h (x :: xs) h2.

(** Requests on keys in use, within the sizes. *)
Definition write_ok (table user_key : bytes) (value : Value) : Prop :=
  ∀ key, stored_key table user_key s0 = inr key → K key ∧ small_write key value.

Definition request_ok (r : Request) : Prop :=
  match r with
  | RqPut r => write_ok (pq_table r) (pq_key r) (VPut (pq_value r))
  | RqDelete r => write_ok (dq_table r) (dq_key r) VDelete
  | RqGet r => is_u64 (gq_read_ts r) ∧ ∀ key, stored_key (gq_table r) (gq_key r) s0 = inr key → K key
  | RqScan r => is_u64 (sq_read_ts r) ∧
      ∀ id, table_id (sq_table r) s0 = inr id → ∀ uk, K uk → uk `prefix_of` (scan_range id r).1 → uk = (scan_range id r).1
  end.

(** * Executions *)

(** Requests are served one after another: only the wall clock moves between the steps of one,
    and nothing is awaited but timers. *)
Definition env_direct s s1 : Prop := ∃ wall, s1 = s <| s_wall := wall |> ∧ (wall_ok (s_wall s) → wall_ok wall).
Definition answers_direct (c : Call) s (a : Answer c) s' : Prop := s' = s.

(** Its timers answer; it hosts no Raft group that would. *)
Definition timers (c : Call) s : option (App * Answer c) :=
  match c with
  | CSleep => Some (s, tt)
  | _ => None
  end.

Lemma timers_answer c s s' a : timers c s = Some (s', a) → answers_direct c s a s'.
Proof. by destruct c; [..|intros [= <- <-]]. Qed.

Abbreviation wpd := (wp env_direct answers_direct).

Record direct s : Prop := mkDirect {
  dr_raft : s_raft s = None;
  dr_ap : s_ap s = None;
  dr_flight : s_in_flight s = InFlight_new;
  dr_tables : s_tables s = s_tables s0;
  dr_regions : s_regions s = s_regions s0;
  dr_wall : wall_ok (s_wall s);
}.

(** The node holds the history and has [k] timestamps left. *)
Definition node_at s h (k : N) : Prop :=
  direct s ∧ ∃ lo, holds_history K (s_engine s) h lo ∧ clock_at (s_clock s) lo k.

Lemma env_frame s s1 : direct s → env_direct s s1 → direct s1 ∧ s_engine s1 = s_engine s ∧ s_clock s1 = s_clock s.
Proof. intros [? ? ? ? ? Hw] (w & -> & Hok). split; [|done]. constructor; [done..|]. by apply Hok. Qed.

Lemma wp_look_direct {A} (f : App → A) v s (Q : Status + A → App → Prop) :
  direct s → (∀ s1, direct s1 → f s1 = v) →
  (∀ s1, direct s1 → s_engine s1 = s_engine s → s_clock s1 = s_clock s → Q (inr v) s1) → wpd (k_look f) Q s.
Proof.
  intros Hd Hf HQ. apply wp_look. intros s1 He. destruct (env_frame s s1 Hd He) as (Hd1 & ? & ?).
  rewrite (Hf s1 Hd1). auto.
Qed.

Lemma wp_engine {A} (op : EM E A) e' r s (Q : Status + Result A → App → Prop) :
  direct s → op (s_engine s) = (e', r) →
  (∀ s1, direct s1 → s_engine s1 = e' → s_clock s1 = s_clock s → Q (inr r) s1) → wpd (on_engine op) Q s.
Proof.
  intros Hd Ho HQ. apply wp_step. intros s1 He. destruct (env_frame s s1 Hd He) as (Hd1 & Ee & Ec).
  rewrite Ee, Ho. cbn. apply HQ; [by destruct Hd1|done|done].
Qed.

Lemma wp_now s lo k (Q : Status + N → App → Prop) :
  direct s → clock_at (s_clock s) lo (k + 1) →
  (∀ s1 ts, direct s1 → s_engine s1 = s_engine s → lo ≤ ts → ts < u64_max → clock_at (s_clock s1) (ts + 1) k → Q (inr ts) s1) →
  wpd now Q s.
Proof.
  intros Hd Hc HQ. unfold now. apply wp_bind, wp_step. intros s1 He. destruct (env_frame s s1 Hd He) as (Hd1 & Ee & Ec).
  destruct (clock_now_ok (s_wall s1) (s_clock s1) lo k) as (ts & c' & -> & Hlo & Hmax & Hat); [by rewrite Ec|apply Hd1|].
  cbn. apply HQ; [by destruct Hd1|done|done|done|done].
Qed.

Lemma wp_ret {A} (a : A) s (Q : Status + A → App → Prop) : Q (inr a) s → wpd (mret a : PM App A) Q s.
Proof. done. Qed.

Lemma stored_key_direct table user_key s : direct s → stored_key table user_key s = stored_key table user_key s0.
Proof. intros Hd. unfold stored_key, table_id. by rewrite (dr_tables s Hd). Qed.

Lemma table_id_direct table s : direct s → table_id table s = table_id table s0.
Proof. intros Hd. unfold table_id. by rewrite (dr_tables s Hd). Qed.

Lemma check_context_direct ctx key s : direct s → check_context ctx key s = check_context ctx key s0.
Proof. intros Hd. unfold check_context. by rewrite (dr_regions s Hd). Qed.

Lemma ap_for_direct key s : direct s → ap_for key s = None.
Proof. intros Hd. unfold ap_for. by rewrite (dr_ap s Hd). Qed.

Lemma replicated_direct s : direct s → (match s_raft s with Some _ => true | None => false end) = false.
Proof. intros Hd. by rewrite (dr_raft s Hd). Qed.

Lemma no_write_in_flight start end_ ts s : direct s → blocks_read start end_ ts (s_in_flight s) = false.
Proof. intros Hd. by rewrite (dr_flight s Hd). Qed.

Lemma wp_await_in_flight start end_ ts s (Q : Status + unit → App → Prop) :
  direct s → (∀ s1, direct s1 → s_engine s1 = s_engine s → s_clock s1 = s_clock s → Q (inr tt) s1) →
  wpd (await_in_flight start end_ ts) Q s.
Proof.
  intros Hd HQ. unfold await_in_flight. apply wp_bind.
  apply (wp_look_direct _ false); [done|by intros; apply no_write_in_flight|]. intros s1 Hd1 Ee Ec. by apply HQ.
Qed.

(** The first steps of a request: the stored key and the routing check. *)
Lemma wp_admit {A} (f : App → Status + bytes) (r : Status + bytes) ctx (k : bytes → option KeyError → PM App A) s Q :
  direct s → (∀ s1, direct s1 → f s1 = r) →
  match r with
  | inl st => ∀ s1, direct s1 → s_engine s1 = s_engine s → s_clock s1 = s_clock s → Q (inl st) s1
  | inr key => ∀ s1, direct s1 → s_engine s1 = s_engine s → s_clock s1 = s_clock s →
      wpd (k key (check_context ctx key s0)) Q s1
  end →
  wpd (sk ← k_look f; key ← k_lift sk; stale ← k_look (check_context ctx key); k key stale) Q s.
Proof.
  intros Hd Hf Hk. apply wp_bind. apply (wp_look_direct _ r); [done|done|]. intros s1 Hd1 Ee Ec. cbn [then_].
  apply wp_bind. destruct r as [st|key]; [by apply Hk|]. change (wpd (k_look (check_context ctx key) ≫= k key) Q s1).
  apply wp_bind. apply (wp_look_direct _ (check_context ctx key s0)); [done|by intros; apply check_context_direct|].
  intros s2 Hd2 Ee2 Ec2. apply Hk; [done|congruence|congruence].
Qed.

(** * The handlers *)

Lemma autocommit_ok s h lo k key value (Q : Status + Result N → App → Prop) :
  direct s → holds_history K (s_engine s) h lo → clock_at (s_clock s) lo (k + 2) → K key → small_write key value →
  (∀ s1 cts, node_at s1 ((key, cts, value) :: h) k → Forall (λ w : KvWrite, w.1.2 < cts) h → Q (inr (Ok cts)) s1) →
  wpd (autocommit (mkMutation key value)) Q s.
Proof.
  intros Hd Hh Hc HKk Hsm HQ. unfold autocommit. apply wp_bind. replace (k + 2) with (k + 1 + 1) in Hc by lia.
  apply (wp_now s lo (k + 1)); [done|done|]. intros s1 start Hd1 Ee1 Hlo Hmax Hc1. cbn [then_ Transaction_new mu_key].
  apply wp_bind.
  destruct (write_history K HK (s_engine s1) h lo start (N.min (start + AUTOCOMMIT_LEASE) u64_max) key value)
    as (e1 & Ep & Hcommit); [by rewrite Ee1|done|done|done|done|lia|].
  apply (wp_engine _ e1 (Ok tt)); [done|exact Ep|]. intros s2 Hd2 Ee2 Ec2. cbn [then_]. apply wp_bind.
  apply (wp_now s2 (start + 1) k); [done|by rewrite Ec2|]. intros s3 cts Hd3 Ee3 Hlt Hmax3 Hc3. cbn [then_]. apply wp_bind.
  destruct (Hcommit cts) as (e2 & Ec & Hh2); [lia|lia|].
  apply (wp_engine _ e2 (Ok tt)); [done|by rewrite Ee3, Ee2|]. intros s4 Hd4 Ee4 Ec4. cbn [then_]. apply wp_ret.
  apply HQ.
  - split; [done|]. exists (cts + 1). by rewrite Ee4, Ec4.
  - eapply list.Forall_impl; [exact (hh_below K _ _ _ Hh)|]. cbn. intros w [? ?]. lia.
Qed.

Lemma kv_write_ok s h k table user_key value ctx (Q : Status + WriteResponse → App → Prop) :
  node_at s h (k + 2) → write_ok table user_key value →
  (∀ s1 r h', served_write table user_key value ctx h r h' → node_at s1 h' k → Q r s1) →
  wpd (kv_write table user_key value ctx) Q s.
Proof.
  intros [Hd (lo & Hh & Hc)] Hok HQ. unfold kv_write. unfold served_write in HQ.
  assert (Hkeep : ∀ s1, direct s1 → s_engine s1 = s_engine s → s_clock s1 = s_clock s → node_at s1 h k).
  { intros s1 Hd1 Ee Ec. split; [done|]. exists lo. rewrite Ee, Ec. split; [done|]. apply (clock_at_less _ _ k (k + 2)); [lia|done]. }
  apply (wp_admit _ (stored_key table user_key s0)); [done|by intros; apply stored_key_direct|].
  destruct (stored_key table user_key s0) as [st|key] eqn:Esk; intros s1 Hd1 Ee Ec; [by apply (HQ s1 _ h); auto|].
  destruct (check_context ctx key s0) as [ke|]; [apply (HQ s1 _ h); auto|].
  apply wp_bind, (wp_look_direct _ None); [done|by intros; apply ap_for_direct|]. intros s2 Hd2 Ee2 Ec2. cbn [then_].
  apply wp_bind, (wp_look_direct _ false); [done|by intros; apply replicated_direct|]. intros s3 Hd3 Ee3 Ec3. cbn [then_].
  apply wp_bind. destruct (Hok key Esk) as [HKk Hsm].
  apply (autocommit_ok s3 h lo k); [done|congruence|congruence|done|done|].
  intros s4 cts Hn Hf. cbn. apply (HQ s4 _ ((key, cts, value) :: h)); [|done]. by exists cts.
Qed.

(** A refused request does nothing. *)
Lemma kv_write_refused s table user_key value ctx key ke (Q : Status + WriteResponse → App → Prop) :
  direct s → stored_key table user_key s0 = inr key → check_context ctx key s0 = Some ke →
  (∀ s1, direct s1 → s_engine s1 = s_engine s → s_clock s1 = s_clock s → Q (inr (mkWriteResponse 0 (Some ke))) s1) →
  wpd (kv_write table user_key value ctx) Q s.
Proof.
  intros Hd Hk Hc HQ. apply (wp_admit _ (stored_key table user_key s0)); [done|by intros; apply stored_key_direct|].
  rewrite Hk. intros s1 Hd1 Ee Ec. rewrite Hc. by apply HQ.
Qed.

Lemma kv_get_refused s req key ke (Q : Status + GetResponse → App → Prop) :
  direct s → stored_key (gq_table req) (gq_key req) s0 = inr key → check_context (gq_context req) key s0 = Some ke →
  (∀ s1, direct s1 → s_engine s1 = s_engine s → s_clock s1 = s_clock s → Q (inr (mkGetResponse false [] (Some ke) 0)) s1) →
  wpd (kv_get fuel peers_of req) Q s.
Proof.
  intros Hd Hk Hc HQ. apply (wp_admit _ (stored_key (gq_table req) (gq_key req) s0)); [done|by intros; apply stored_key_direct|].
  rewrite Hk. intros s1 Hd1 Ee Ec. rewrite Hc. by apply HQ.
Qed.

(** The timestamp of a read. *)
Lemma wp_read_at s h lo k req_ts (Q : Status + N → App → Prop) :
  direct s → holds_history K (s_engine s) h lo → clock_at (s_clock s) lo (k + 1) → is_u64 req_ts →
  (∀ s1 ts, node_at s1 h k → s_engine s1 = s_engine s → is_u64 ts → reads_at req_ts h ts → Q (inr ts) s1) →
  wpd (read_at req_ts) Q s.
Proof.
  intros Hd Hh Hc Hreq HQ. unfold read_at. unfold reads_at in HQ. destruct (req_ts =? 0).
  - apply (wp_now s lo k); [done|done|]. intros s1 ts Hd1 Ee Hlo Hmax Hc1. apply HQ; [|done|lia|].
    + split; [done|]. exists (ts + 1). rewrite Ee. split; [|done]. apply (holds_history_mono K _ _ lo); [lia|done].
    + eapply list.Forall_impl; [exact (hh_below K _ _ _ Hh)|]. cbn. intros w [? ?]. lia.
  - apply wp_ret, HQ; [|done|done|done]. split; [done|]. exists lo. split; [done|].
    apply (clock_at_less _ _ k (k + 1)); [lia|done].
Qed.

Lemma node_at_frame s s1 h k : node_at s h k → direct s1 → s_engine s1 = s_engine s → s_clock s1 = s_clock s → node_at s1 h k.
Proof. intros [_ (lo & Hh & Hc)] Hd Ee Ec. split; [done|]. exists lo. by rewrite Ee, Ec. Qed.

Lemma node_at_less s h k k' : k ≤ k' → node_at s h k' → node_at s h k.
Proof. intros Hle [Hd (lo & Hh & Hc)]. split; [done|]. exists lo. split; [done|]. by apply (clock_at_less _ _ k k'). Qed.

Lemma kv_get_ok s h k req (Q : Status + GetResponse → App → Prop) :
  node_at s h (k + 1) → request_ok (RqGet req) →
  (∀ s1 r, served_get req h r → node_at s1 h k → Q r s1) → wpd (kv_get fuel peers_of req) Q s.
Proof.
  intros Hn [Hts Hok] HQ. pose proof Hn as [Hd (lo & Hh & Hc)]. unfold kv_get. unfold served_get in HQ.
  assert (Hkeep : ∀ s1, direct s1 → s_engine s1 = s_engine s → s_clock s1 = s_clock s → node_at s1 h k).
  { intros s1 Hd1 Ee Ec. apply (node_at_less _ _ k (k + 1)); [lia|]. by eapply node_at_frame. }
  apply (wp_admit _ (stored_key (gq_table req) (gq_key req) s0)); [done|by intros; apply stored_key_direct|].
  destruct (stored_key (gq_table req) (gq_key req) s0) as [st|key] eqn:Esk; intros s1 Hd1 Ee Ec; [apply (HQ s1); auto|].
  cbv zeta. destruct (check_context (gq_context req) key s0) as [ke|]; [apply (HQ s1); auto|].
  apply wp_bind, (wp_look_direct _ None); [done|by intros; apply ap_for_direct|]. intros s2 Hd2 Ee2 Ec2. cbn [then_].
  apply wp_bind, (wp_look_direct _ false); [done|by intros; apply replicated_direct|]. intros s3 Hd3 Ee3 Ec3. cbn [then_].
  unfold get_local. apply wp_bind, (wp_read_at s3 h lo k); [done|congruence|congruence|done|].
  intros s4 ts Hn4 Ee4 Hts4 Hat. cbn [then_]. apply wp_bind, wp_await_in_flight; [apply Hn4|].
  intros s5 Hd5 Ee5 Ec5. cbn [then_]. apply wp_bind.
  apply (wp_engine _ (s_engine s5) (Ok (spec_read h key ts))); [done| |].
  { apply (history_get K HK _ h lo); [congruence|by apply Hok|done]. }
  intros s6 Hd6 Ee6 Ec6. cbn [then_]. apply (HQ s6 (inr (found ts (spec_read h key ts)))); [by exists ts|].
  apply (node_at_frame s4); [done|done|congruence|congruence].
Qed.

Lemma kv_scan_ok s h k req (Q : Status + list (bytes * bytes) → App → Prop) :
  node_at s h (k + 1) → request_ok (RqScan req) → (length h < fuel)%nat →
  (∀ s1 r, served_scan req h r → node_at s1 h k → Q r s1) → wpd (kv_scan fuel req) Q s.
Proof.
  intros Hn [Hts Hok] Hf HQ. pose proof Hn as [Hd (lo & Hh & Hc)]. unfold kv_scan. unfold served_scan in HQ.
  assert (Hkeep : ∀ s1, direct s1 → s_engine s1 = s_engine s → s_clock s1 = s_clock s → node_at s1 h k).
  { intros s1 Hd1 Ee Ec. apply (node_at_less _ _ k (k + 1)); [lia|]. by eapply node_at_frame. }
  apply wp_bind, (wp_look_direct _ (table_id (sq_table req) s0)); [done|by intros; apply table_id_direct|].
  intros s1 Hd1 Ee Ec. cbn [then_]. apply wp_bind. destruct (table_id (sq_table req) s0) as [st|id] eqn:Etid; [apply (HQ s1); auto|].
  specialize (Hok id eq_refl). cbn [k_lift wp then_]. destruct (scan_range id req) as [start end_]. cbn [fst] in Hok.
  apply wp_bind, (wp_look_direct _ (check_context (sq_context req) start s0)); [done|by intros; apply check_context_direct|].
  intros s2 Hd2 Ee2 Ec2. cbn [then_].
  destruct (check_context (sq_context req) start s0) as [ke|]; [apply (HQ s2); [done|by apply Hkeep; congruence]|].
  apply wp_bind, (wp_look_direct _ None); [done|by intros; apply ap_for_direct|]. intros s3 Hd3 Ee3 Ec3. cbn [then_].
  apply wp_bind, wp_bind, (wp_look_direct _ false); [done|by intros; apply replicated_direct|]. intros s4 Hd4 Ee4 Ec4. cbn [then_].
  apply wp_ret. cbn [then_]. apply wp_bind, (wp_read_at s4 h lo k); [done|congruence|congruence|done|].
  intros s5 ts Hn5 Ee5 Hts5 Hat. cbn [then_]. apply wp_bind, wp_await_in_flight; [apply Hn5|].
  intros s6 Hd6 Ee6 Ec6. cbn [then_]. apply wp_bind.
  destruct (history_scan K HK (s_engine s6) h lo fuel start end_ ts (N.to_nat (sq_limit req)))
    as (out & Escan & Hs & Hin); [congruence|done|done|done|].
  apply (wp_engine _ (s_engine s6) (Ok (limited (N.to_nat (sq_limit req)) out))); [done|done|].
  intros s7 Hd7 Ee7 Ec7. cbn [then_]. apply wp_ret, HQ; [by exists ts, out|].
  apply (node_at_frame s5); [done|done|congruence|congruence].
Qed.

Lemma served_length r h x h' : served r h x h' → (length h' ≤ S (length h))%nat.
Proof.
  destruct r, x; cbn; try done; try (intros [_ ->]; lia); unfold served_write;
    (destruct (stored_key _ _ s0); [intros [_ ->]; lia|]; destruct (check_context _ _ s0); [intros [_ ->]; lia|];
     intros (cts & _ & -> & _); cbn; lia).
Qed.

Lemma serve_ok s h k r (Q : Response → App → Prop) :
  node_at s h (k + 2) → request_ok r → (length h < fuel)%nat →
  (∀ s1 x h', served r h x h' → node_at s1 h' k → Q x s1) → wpd (serve r) Q s.
Proof.
  intros Hn Hok Hf HQ. assert (Hn1 : node_at s h (k + 1)) by (apply (node_at_less _ _ _ (k + 2)); [lia|done]).
  destruct r as [r|r|r|r]; cbn [serve]; apply wp_prog_bind.
  - apply (kv_write_ok s h k); [done|done|]. intros s1 x h' Hs Hn'. by apply (HQ s1 (RsWrite x) h').
  - apply (kv_write_ok s h k); [done|done|]. intros s1 x h' Hs Hn'. by apply (HQ s1 (RsWrite x) h').
  - apply (kv_get_ok s h k); [done|done|]. intros s1 x Hs Hn'. by apply (HQ s1 (RsGet x) h).
  - apply (kv_scan_ok s h k); [done|done|done|]. intros s1 x Hs Hn'. by apply (HQ s1 (RsScan x) h).
Qed.

Lemma serve_all_ok rs s h :
  node_at s h (2 * N.of_nat (length rs)) → Forall request_ok rs → (length h + length rs ≤ fuel)%nat →
  wpd (serve_all rs) (λ xs s', ∃ h', served_all rs h xs h' ∧ node_at s' h' 0) s.
Proof.
  intros Hn Hok. revert s h Hn. induction Hok as [|r rs Hr _ IH]; intros s h Hn Hf.
  { cbn. exists h. split; [constructor|]. by apply (node_at_less _ _ 0 0). }
  cbn [serve_all length] in *. apply wp_prog_bind. apply (serve_ok s h (2 * N.of_nat (length rs))); [|done|lia|].
  { by replace (2 * N.of_nat (length rs) + 2) with (2 * N.of_nat (S (length rs))) by lia. }
  intros s1 x h1 Hs Hn1. apply wp_prog_bind. pose proof (served_length _ _ _ _ Hs).
  eapply wp_mono; [|apply (IH s1 h1); [done|lia]]. cbn. intros xs s' (h' & Hss & Hn'). exists h'. split; [|done].
  by econstructor.
Qed.
End direct.
