(* ===== verification/KvTheorems.v ===== *)
(** The client API of a data node: correctness statements, and requests at which they
    apply. *)

From stdpp Require Import base list numbers strings gmap.
From Stdlib Require Import Strings.Byte.
From S2P Require Import Prelude Crc Encoding Keys Batch OrdMap Memtable Db DbCorrect Engine EngineApi Mvcc MvccCorrect.
From S2P Require Import Percolator TxnCorrect Scan EngineTheorems PdRegion PdTso Catalog AntiEntropy Ap MemLock GroupActor.
From S2P Require Import Prog KvService KvDirect.

Section direct.
Context {E C : Type} `{EngineLaws E} `{ClockLaws C}.
Context (K : bytes → Prop) (HK : ∀ a b, K a → K b → a = b ∨ apart a b).

(** C7. A direct node that serves its requests one after another is a multi-version map, from
    its request handlers down to the engine's files: whatever puts, deletes, gets and scans it
    serves, on which tables, with which routing contexts and however the wall clock moves,
    every response is the map's.  No other handler runs between the steps of one (requests that
    overlap may meet each other's locks, which this does not describe).  A write
    takes a timestamp above every earlier one; a get returns the newest version at its
    timestamp; a scan returns the visible keys of its range, in order, up to its limit; an
    unknown table and a stale context are refused and change nothing. *)
Theorem direct_node_is_versioned_map fuel peers_of (s : AppState E C) h rs :
  node_at K s s h (2 * N.of_nat (length rs)) → Forall (request_ok K s) rs → (length h + length rs ≤ fuel)%nat →
  wp env_direct answers_direct (serve_all fuel peers_of rs)
    (λ xs s', ∃ h', served_all K s rs h xs h' ∧ node_at K s s' h' 0) s.
Proof. by apply serve_all_ok. Qed.
End direct.

(** * A fresh node *)

Definition kv_node : AppState (Core (gmap bytes MemValue)) LocalClock := AppState_open ex_c0 in_memory 5.
Definition kv_K (k : bytes) : Prop := k = table_key 0 [x61] ∨ k = table_key 0 [x62].

Lemma kv_K_apart a b : kv_K a → kv_K b → a = b ∨ apart a b.
Proof.
  intros [->| ->] [->| ->]; auto; right; split; intros [x Hx]; vm_compute in Hx; discriminate.
Qed.

Lemma kv_node_fresh k : k ≤ 4611686018427387904 → node_at kv_K kv_node kv_node [] k.
Proof.
  intros Hk. split; [constructor; reflexivity || (vm_compute; reflexivity)|]. exists 0. split.
  - constructor; [|done]. exists empty_store. split_and!; [apply ex_holds0|apply txn_inv_empty|done|by intros ? []|].
    intros key ts _ _. by apply snap_none.
  - split_and!; [done|vm_compute; discriminate|]. cbn [lc_tso kv_node AppState_open s_clock LocalClock_new tso_ephemeral tso_inner ti_next].
    unfold HORIZON. lia.
Qed.

Definition kv_requests : list Request :=
  [RqPut (mkPut [] [x61] [x31] None); RqPut (mkPut [] [x62] [x32] None); RqGet (mkGet [] [x61] 0 None);
   RqDelete (mkDelete [] [x61] None); RqGet (mkGet [] [x61] 0 None); RqScan (mkScan [] [] [] 0 0 None);
   RqGet (mkGet [x75] [x61] 0 None); RqPut (mkPut [] [x61] [x33] (Some (mkContext 1 9)))].

Lemma kv_put_ok table value k : stored_key table k kv_node = inr (table_key 0 k) → kv_K (table_key 0 k) →
  small_write (table_key 0 k) value → write_ok kv_K kv_node table k value.
Proof. intros Hs HK Hsm key Hk. rewrite Hs in Hk. injection Hk as <-. done. Qed.

Lemma kv_requests_ok : Forall (request_ok kv_K kv_node) kv_requests.
Proof.
  assert (Ha : kv_K (table_key 0 [x61])) by (by left). assert (Hb : kv_K (table_key 0 [x62])) by (by right).
  assert (Hget : ∀ table, request_ok kv_K kv_node (RqGet (mkGet table [x61] 0 None))
    ↔ ∀ key, stored_key table [x61] kv_node = inr key → kv_K key) by (split; [by intros []|by split]).
  unfold kv_requests. repeat (apply Forall_cons; split); [..|done].
  - by apply kv_put_ok.
  - by apply kv_put_ok.
  - apply Hget. intros key Hk. vm_compute in Hk. injection Hk as <-. exact Ha.
  - by apply kv_put_ok.
  - apply Hget. intros key Hk. vm_compute in Hk. injection Hk as <-. exact Ha.
  - split; [done|]. intros id Hid uk [->| ->] Hp; vm_compute in Hid; injection Hid as <-;
      destruct Hp as [x Hx]; vm_compute in Hx; discriminate.
  - apply Hget. intros key Hk. vm_compute in Hk. discriminate.
  - by apply kv_put_ok.
Qed.

Definition kv_run := run timers (serve_all 20 (λ _, []) kv_requests) kv_node.

Lemma direct_node_is_versioned_map_witness :
  ∃ s' xs h', kv_run = Some (s', xs) ∧ served_all kv_K kv_node kv_requests [] xs h' ∧
    xs = [RsWrite (inr (mkWriteResponse 1310721 None)); RsWrite (inr (mkWriteResponse 1310723 None));
          RsGet (inr (mkGetResponse true [x31] None 1310724)); RsWrite (inr (mkWriteResponse 1310726 None));
          RsGet (inr (mkGetResponse false [] None 1310727)); RsScan (inr [([x62], [x32])]);
          RsGet (inl (FailedPrecondition "table does not exist")); RsWrite (inr (mkWriteResponse 0 (Some (KeRegionStale 1))))].
Proof.
  destruct kv_run as [[s' xs]|] eqn:Er; [|vm_compute in Er; discriminate].
  assert (Hw : wp env_direct answers_direct (serve_all 20 (λ _, []) kv_requests)
    (λ xs s', ∃ h', served_all kv_K kv_node kv_requests [] xs h' ∧ node_at kv_K kv_node s' h' 0) kv_node).
  { apply (direct_node_is_versioned_map kv_K kv_K_apart).
    - apply kv_node_fresh. vm_compute. discriminate.
    - apply kv_requests_ok.
    - vm_compute. lia. }
  apply (run_wp _ _ timers _ kv_node s' xs) in Hw as (h' & Hs & _); [| |apply timers_answer|exact Er].
  - exists s', xs, h'. split; [reflexivity|]. split; [exact Hs|].
    assert (Hx : snd <$> kv_run = Some xs) by (by rewrite Er).
    vm_compute in Hx. injection Hx as <-. reflexivity.
  - intros s. exists (s_wall s). split; [by destruct s|done].
Defined.
