(* ===== verification/Client.v ===== *)
(** The client library ([client/src/lib.rs]): region routing with its cache, following the
    leader of a static cluster, and the calls with their retries.

    A call is a program ([Prog]) on the client's state, which all clones of it share, and on
    the network: it awaits answers of the placement driver and of data nodes.  A channel is
    the URI it is connected to, lazily.  Errors have no interpolated values, except for what
    the caller is given back. *)

From stdpp Require Import base list numbers strings gmap.
From Stdlib Require Import Strings.Byte.
From S2P Require Import Prelude Encoding Keys Sstable PdRegion PdCluster PdFsm Ap Grpc Prog KvService.

(** * Statuses and errors *)

(** [Panicked] is no error of the source: it is where an index or an [expect] would panic. *)
Inductive ClientError :=
  | CeRpc (s : TStatus)
  | CeKey (msg : string)
  | CeNoLeader
  | CeUnreachable
  | CeUnknownTable (table : bytes)
  | CeNotHosted
  | CeUndetermined
  | Panicked.

Definition key_error (ke : KeyError) : ClientError :=
  match ke with
  | KeUndetermined => CeUndetermined
  | KeConflict detail => CeKey ("conflict: " +:+ detail)
  | KeLocked _ _ _ => CeKey "locked by primary"
  | KeInvalid s => CeKey ("invalid: " +:+ s)
  | KeRetryable s => CeKey ("retryable: " +:+ s)
  | KeNotLeader _ => CeKey "not leader"
  | KeRegionStale _ => CeKey "region stale"
  | KeUnspecified => CeKey "unspecified key error"
  end.

Definition is_reroute (ke : KeyError) : bool :=
  match ke with KeRegionStale _ | KeNotLeader _ => true | _ => false end.

Definition try_next_node (s : TStatus) : bool :=
  if ts_source s || bool_decide (ts_code s = DeadlineExceededCode) then true else
  starts_with "not the region leader" (ts_message s)
  || starts_with "region not hosted" (ts_message s)
  || starts_with "region stale" (ts_message s).

Definition client_stored_key (id : N) (key : bytes) : bytes := u32_be id ++ key.

(** * The wire *)

(** [pd::GetRegionResponse]. *)
Record RegionReply := mkRegionReply {
  rr_region_id : N; rr_start_key : bytes; rr_end_key : bytes; rr_epoch : N; rr_address : string;
}.

Record RegionInfo := mkRegionInfo { ri_id : N; ri_start_key : bytes; ri_end_key : bytes; ri_epoch : N }.

(** The requests of [KvService], by the type of their response.  A regime is an integer on
    the wire. *)
Inductive Rpc : Type → Type :=
  | RBegin : Rpc N
  | RPrewrite (r : PrewriteRequest) : Rpc (list KeyError)
  | RCommit (r : CommitRequest) : Rpc WriteResponse
  | RGet (r : GetRequest) : Rpc GetResponse
  | RPut (r : PutRequest) : Rpc WriteResponse
  | RDelete (r : DeleteRequest) : Rpc WriteResponse
  | RScan (r : ScanRequest) : Rpc (list (bytes * bytes))
  | RSplitRegion (split_key : bytes) : Rpc (option RegionInfo * option RegionInfo)
  | RMergeRegion (boundary_key : bytes) : Rpc (option RegionInfo)
  | RCreateTable (name : bytes) (regime : N) : Rpc (option RegionInfo * N)
  | RListTables : Rpc (list (N * bytes * N)).

Inductive NetCall :=
  | NetPd (key : bytes)
  | NetKv (uri : string) {T : Type} (r : Rpc T).

Definition NetAnswer (c : NetCall) : Type :=
  match c with
  | NetPd _ => TStatus + RegionReply
  | @NetKv _ T _ => TStatus + T
  end.

(** * Routing *)

Record CachedRegion := mkCachedRegion {
  cr_id : N; cr_start : bytes; cr_end : bytes; cr_epoch : N; cr_address : string;
}.

Definition cr_contains (r : CachedRegion) (key : bytes) : bool :=
  bytes_leb (cr_start r) key && (is_empty (cr_end r) || bytes_ltb key (cr_end r)).

Definition ranges_overlap (a b : CachedRegion) : bool :=
  let a_before_b := negb (is_empty (cr_end a)) && bytes_leb (cr_end a) (cr_start b) in
  let b_before_a := negb (is_empty (cr_end b)) && bytes_leb (cr_end b) (cr_start a) in
  negb (a_before_b || b_before_a).

Definition cache_lookup (key : bytes) (c : list CachedRegion) : option CachedRegion :=
  match partition_point (λ r, bytes_leb (cr_start r) key) c with
  | O => None
  | S idx => r ← c !! idx; if cr_contains r key then Some r else None
  end.

Definition cache_insert (region : CachedRegion) (c : list CachedRegion) : list CachedRegion :=
  let c := List.filter (λ r, negb (ranges_overlap r region)) c in
  let pos := partition_point (λ r, bytes_ltb (cr_start r) (cr_start region)) c in
  take pos c ++ region :: drop pos c.

Definition cache_invalidate (key : bytes) (c : list CachedRegion) : list CachedRegion :=
  List.filter (λ r, negb (cr_contains r key)) c.

Record Routing := mkRouting {
  rt_cache : list CachedRegion;
  rt_pool : gmap string string;
  rt_fallback_kv : option string;
}.

#[export] Instance eta_routing : Eta Routing := λ r, mkRouting (rt_cache r) (rt_pool r) (rt_fallback_kv r).

Record ClusterRouting := mkClusterRouting {
  cl_endpoints : list string;
  cl_leader : nat;
  cl_pool : gmap nat string;
}.

#[export] Instance eta_cluster : Eta ClusterRouting := λ r, mkClusterRouting (cl_endpoints r) (cl_leader r) (cl_pool r).

Record Client := mkClient {
  c_routing : option Routing;
  c_direct : option string;
  c_cluster : option ClusterRouting;
  c_tables : gmap bytes N;
}.

#[export] Instance eta_client : Eta Client := λ c, mkClient (c_routing c) (c_direct c) (c_cluster c) (c_tables c).

Definition DEFAULT_LEASE : N := N.shiftl 1 32.
Definition MAX_ROUTING_ATTEMPTS : nat := 5.

Definition seeded_tables : gmap bytes N :=
  <[DEFAULT_TABLE_NAME := DEFAULT_TABLE_ID]> (<[[] := DEFAULT_TABLE_ID]> ∅).

(** [rotate]; an empty set of endpoints would be a division by zero. *)
Definition rotate (c : ClusterRouting) : ClusterRouting :=
  c <| cl_leader := (cl_leader c + 1) mod length (cl_endpoints c) |>%nat.

Definition cluster_current_endpoint (c : ClusterRouting) : option string := cl_endpoints c !! cl_leader c.

(** The outer [option] is the [expect] of an index. *)
Definition current_endpoint (c : Client) : option (option string) :=
  cluster_current_endpoint <$> c_cluster c.

Section client.
(** [Channel::from_shared] accepts the URI; the state of the rest of the system. *)
Context (valid_uri : string → bool) {W : Type}.

Definition lazy_channel (uri : string) : ClientError + string :=
  if valid_uri uri then inr uri else inl (CeKey "invalid endpoint").

(** [Routing::client_for]. *)
Definition client_for (address : string) (r : Routing) : Routing * (ClientError + string) :=
  let open address :=
    match rt_pool r !! address with
    | Some ch => (r, inr ch)
    | None =>
      match lazy_channel address with
      | inl e => (r, inl e)
      | inr ch => (r <| rt_pool := <[address := ch]> (rt_pool r) |>, inr ch)
      end
    end in
  if bool_decide (address = EmptyString) then
    match rt_fallback_kv r with
    | None => (r, inl (CeKey "region has no node address and no fallback"))
    | Some address => open address
    end
  else open address.

(** [ClusterRouting::current]. *)
Definition cluster_current (c : ClusterRouting) : ClusterRouting * (ClientError + string) :=
  match cl_pool c !! cl_leader c with
  | Some ch => (c, inr ch)
  | None =>
    match cl_endpoints c !! cl_leader c with
    | None => (c, inl Panicked)
    | Some uri =>
      match lazy_channel uri with
      | inl e => (c, inl e)
      | inr ch => (c <| cl_pool := <[cl_leader c := ch]> (cl_pool c) |>, inr ch)
      end
    end
  end.

(** * Calls *)

Abbreviation Sys := (Client * W)%type.
Abbreviation CM := (Fallible NetAnswer ClientError Sys).

Definition on_client {A} (f : Client → Client * A) : CM A :=
  k_step (λ s, let '(c, a) := f s.1 in ((c, s.2), a)).
Definition of_client {A} (f : Client → A) : CM A := on_client (λ c, (c, f c)).

(** A step under the lock of a routing's field, which is there in this mode. *)
Definition on_routing {A} (f : Routing → Routing * A) : CM A :=
  r ← on_client (λ c,
    match c_routing c with
    | Some r => let '(r, a) := f r in (c <| c_routing := Some r |>, Some a)
    | None => (c, None)
    end);
  match r with Some a => mret a | None => k_fail Panicked end.

Definition on_cluster {A} (f : ClusterRouting → ClusterRouting * A) : CM A :=
  r ← on_client (λ c,
    match c_cluster c with
    | Some r => let '(r, a) := f r in (c <| c_cluster := Some r |>, Some a)
    | None => (c, None)
    end);
  match r with Some a => mret a | None => k_fail Panicked end.

Definition resolve (key : bytes) : CM (Context_ * string) :=
  hit ← on_routing (λ r, (r, cache_lookup key (rt_cache r)));
  match hit with
  | Some r =>
    client ← on_routing (client_for (cr_address r));
    client ← k_lift client;
    mret (mkContext (cr_id r) (cr_epoch r), client)
  | None =>
    resp ← p_await (NetPd key);
    match resp with
    | inl s => k_fail (CeRpc s)
    | inr resp =>
      let region := mkCachedRegion (rr_region_id resp) (rr_start_key resp) (rr_end_key resp) (rr_epoch resp) (rr_address resp) in
      client ← on_routing (client_for (cr_address region));
      client ← k_lift client;
      let ctx := mkContext (cr_id region) (cr_epoch region) in
      _ ← on_routing (λ r, (r <| rt_cache := cache_insert region (rt_cache r) |>, tt));
      mret (ctx, client)
    end
  end.

(** Whether [cluster] and [routing] are set, which no call changes. *)
Definition is_cluster (c : Client) : bool := match c_cluster c with Some _ => true | None => false end.
Definition is_routed (c : Client) : bool := match c_routing c with Some _ => true | None => false end.

Definition prepare (key : bytes) : CM (option Context_ * string) :=
  clustered ← of_client is_cluster;
  if clustered : bool then
    client ← on_cluster cluster_current;
    client ← k_lift client;
    mret (None, client)
  else
  routed ← of_client is_routed;
  if routed : bool then
    out ← resolve key;
    mret (Some out.1, out.2)
  else
    direct ← of_client c_direct;
    match direct with
    | Some client => mret (None, client)
    | None => k_fail Panicked
    end.

Definition invalidate (key : bytes) : CM unit :=
  clustered ← of_client is_cluster;
  if clustered : bool then on_cluster (λ c, (rotate c, tt)) else
  routed ← of_client is_routed;
  if routed : bool then on_routing (λ r, (r <| rt_cache := cache_invalidate key (rt_cache r) |>, tt)) else
  mret tt.

Definition reroute (key : bytes) (ke : KeyError) : CM unit :=
  direct ← of_client (λ c, negb (is_cluster c) && negb (is_routed c));
  if (direct : bool) && match ke with KeRegionStale _ => true | _ => false end then k_fail CeNotHosted else
  invalidate key.

Definition exhausted (reached_a_node : bool) : ClientError :=
  if reached_a_node then CeNoLeader else CeUnreachable.

(** The end of an attempt: [failover] is whether a failed call moves to the next node of a
    cluster, [reply] finds the error in a response, and [again] is the next attempt. *)
Definition settle {T A} (failover reached_a_node : bool) (key : bytes) (reply : T → KeyError + A)
    (again : bool → CM A) (resp : TStatus + T) : CM A :=
  match resp with
  | inl status =>
    clustered ← of_client is_cluster;
    if failover && (clustered : bool) && try_next_node status then
      _ ← invalidate key;
      again reached_a_node
    else k_fail (CeRpc status)
  | inr resp =>
    match reply resp with
    | inl ke =>
      if is_reroute ke then
        _ ← reroute key ke;
        again true
      else k_fail (key_error ke)
    | inr a => mret a
    end
  end.

(** The loop of the calls: [n] attempts. *)
Fixpoint attempts {T A} (n : nat) (failover reached_a_node : bool) (key : bytes)
    (request : option Context_ → Rpc T) (reply : T → KeyError + A) : CM A :=
  match n with
  | O => k_fail (exhausted reached_a_node)
  | S n =>
    out ← prepare key;
    resp ← p_await (NetKv out.2 (request out.1));
    settle failover reached_a_node key reply (λ reached, attempts n failover reached key request reply) resp
  end.

(** One attempt per endpoint. *)
Definition on_any_node {T} (request : Rpc T) : CM T :=
  n ← of_client (λ c, match c_cluster c with Some c => Nat.max (length (cl_endpoints c)) 1 | None => 1%nat end);
  attempts n true false [] (λ _, request) inr.

Definition begin : CM N := on_any_node RBegin.

Definition prewrite (start_ts : N) (primary : bytes) (mutations : list KvMutation) (ttl : N) : CM unit :=
  attempts MAX_ROUTING_ATTEMPTS false true primary
    (λ ctx, RPrewrite (mkPrewriteRequest mutations primary start_ts ttl ctx))
    (λ errors, match errors with ke :: _ => inl ke | [] => inr tt end).

Definition write_reply (r : WriteResponse) : KeyError + N :=
  match wr_error r with Some ke => inl ke | None => inr (wr_commit_ts r) end.

Definition commit (start_ts : N) (primary : bytes) (keys : list bytes) : CM N :=
  attempts MAX_ROUTING_ATTEMPTS false true primary
    (λ ctx, RCommit (mkCommitRequest primary keys start_ts ctx)) write_reply.

(** [Regime::try_from(..).unwrap_or(Cp)]. *)
Definition regime_of_wire (n : N) : Regime := if n =? 1 then PdCluster.Ap else Cp.

Definition list_tables : CM (list (N * bytes * Regime)) :=
  tables ← on_any_node RListTables;
  mret ((λ '(id, name, regime), (id, name, regime_of_wire regime)) <$> tables).

Definition table_id (table : bytes) : CM N :=
  cached ← of_client (λ c, c_tables c !! table);
  match cached with
  | Some id => mret id
  | None =>
    listed ← list_tables;
    _ ← on_client (λ c, (c <| c_tables := fold_left (λ m '(id, name, _), <[name := id]> m) listed (c_tables c) |>, tt));
    cached ← of_client (λ c, c_tables c !! table);
    match cached with Some id => mret id | None => k_fail (CeUnknownTable table) end
  end.

Definition put_mutation (table key value : bytes) : CM KvMutation :=
  id ← table_id table;
  mret (mkKvMutation 0 (client_stored_key id key) value).

Definition delete_mutation (table key : bytes) : CM KvMutation :=
  id ← table_id table;
  mret (mkKvMutation 1 (client_stored_key id key) []).

Definition get_reply (r : GetResponse) : KeyError + option bytes :=
  match gr_error r with Some ke => inl ke | None => inr (if gr_found r then Some (gr_value r) else None) end.

Definition get_at (table bare_key : bytes) (read_ts : N) : CM (option bytes) :=
  id ← table_id table;
  attempts MAX_ROUTING_ATTEMPTS true false (client_stored_key id bare_key)
    (λ ctx, RGet (mkGet table bare_key read_ts ctx)) get_reply.

Definition get (table key : bytes) : CM (option bytes) := get_at table key 0.

Definition put (table bare_key value : bytes) : CM N :=
  id ← table_id table;
  attempts MAX_ROUTING_ATTEMPTS true false (client_stored_key id bare_key)
    (λ ctx, RPut (mkPut table bare_key value ctx)) write_reply.

Definition delete (table bare_key : bytes) : CM N :=
  id ← table_id table;
  attempts MAX_ROUTING_ATTEMPTS true false (client_stored_key id bare_key)
    (λ ctx, RDelete (mkDelete table bare_key ctx)) write_reply.

Definition scan (table start_key end_key : bytes) (limit : N) : CM (list (bytes * bytes)) :=
  id ← table_id table;
  attempts MAX_ROUTING_ATTEMPTS true false (client_stored_key id start_key)
    (λ ctx, RScan (mkScan table start_key end_key 0 limit ctx)) inr.

Definition or_rpc {A} (r : TStatus + A) : CM A := k_lift (match r with inl s => inl (CeRpc s) | inr a => inr a end).

Definition split_region (split_key : bytes) : CM (N * N) :=
  out ← prepare split_key;
  resp ← p_await (NetKv out.2 (RSplitRegion split_key));
  resp ← or_rpc resp;
  _ ← invalidate split_key;
  mret (default 0 (ri_id <$> resp.1), default 0 (ri_id <$> resp.2)).

Definition merge_region (boundary_key : bytes) : CM N :=
  out ← prepare boundary_key;
  resp ← p_await (NetKv out.2 (RMergeRegion boundary_key));
  resp ← or_rpc resp;
  _ ← invalidate boundary_key;
  mret (default 0 (ri_id <$> resp)).

Definition create_table (name : bytes) (regime : N) : CM (N * N * bytes * bytes) :=
  resp ← on_any_node (RCreateTable name regime);
  match resp.1 with
  | None => k_fail (CeKey "create_table: no region in response")
  | Some region =>
    _ ← on_client (λ c, (c <| c_tables := <[name := resp.2]> (c_tables c) |>, tt));
    mret (resp.2, ri_id region, ri_start_key region, ri_end_key region)
  end.

Definition transact (mutations : list KvMutation) : CM N :=
  match mutations with
  | [] => k_fail (CeKey "empty transaction")
  | m :: _ =>
    let primary := km_key m in
    let keys := km_key <$> mutations in
    start_ts ← begin;
    let ttl := N.min (start_ts + DEFAULT_LEASE) u64_max in
    _ ← prewrite start_ts primary mutations ttl;
    commit start_ts primary keys
  end.

(** * Clients *)

Definition connect (uri : string) : ClientError + Client :=
  match lazy_channel uri with
  | inl e => inl e
  | inr channel => inr (mkClient None (Some channel) None seeded_tables)
  end.

Definition connect_cluster (endpoints : list string) : ClientError + Client :=
  if is_empty endpoints then inl (CeKey "connect_cluster needs at least one endpoint") else
  inr (mkClient None None (Some (mkClusterRouting endpoints 0 ∅)) seeded_tables).

Definition connect_with_pd (kv_uri pd_uri : string) : ClientError + Client :=
  match lazy_channel pd_uri with
  | inl e => inl e
  | inr _ => inr (mkClient (Some (mkRouting [] ∅ (Some kv_uri))) None None seeded_tables)
  end.
End client.
