(* ===== verification/ClientCache.v ===== *)
(** What a client's call runs against, a network whose nodes answer requests, and what it
    means that a request was served; and the client's routing cache. *)

From stdpp Require Import base list numbers strings gmap sorting.
From Stdlib Require Import Strings.Byte Sorting.Sorted.
From S2P Require Import Prelude Prog KvService Grpc Client Encoding Keys Sstable SstableCorrect PdRegion PdRegionCorrect.

(** What may happen to the rest of the system between two steps of a call, and what the node
    at an endpoint may answer, with what effect. *)
Class Network (W : Type) := {
  net_moves : W → W → Prop;
  net_answer : ∀ {T}, string → Rpc T → W → TStatus + T → W → Prop;
}.

Class NetworkLaws (W : Type) `{Network W} := {
  net_moves_refl w : net_moves w w;
  net_moves_trans w1 w2 w3 : net_moves w1 w2 → net_moves w2 w3 → net_moves w1 w3;
}.

(** What the caller gets for an answer that ends the call. *)
Definition outcome {T A} (reply : T → KeyError + A) (a : TStatus + T) : ClientError + A :=
  match a with
  | inl status => inl (CeRpc status)
  | inr t => match reply t with inl ke => inl (key_error ke) | inr x => inr x end
  end.

Definition redirects {T A} (reply : T → KeyError + A) (a : TStatus + T) : Prop :=
  ∃ t ke, a = inr t ∧ reply t = inl ke ∧ is_reroute ke = true.

(** The request was served, once, between the beginning and the end of the call. *)
Definition served_once {W T A} `{Network W} (reply : T → KeyError + A) (serves : W → TStatus + T → W → Prop)
    (w0 : W) (res : ClientError + A) (w' : W) : Prop :=
  ∃ w1 a w2, net_moves w0 w1 ∧ serves w1 a w2 ∧ net_moves w2 w' ∧ res = outcome reply a.

(** * The cache

    The client's routing cache: kept sorted and disjoint, its binary search finds what a
    linear search of an unsorted cache would. *)

Implicit Types (r region : CachedRegion) (c : list CachedRegion) (key : bytes).

(** A range that holds a key, and one range before another. *)
Definition cr_ok r : Prop := cr_end r = [] ∨ bytes_lt (cr_start r) (cr_end r).
Definition before a b : Prop := cr_end a ≠ [] ∧ bytes_le (cr_end a) (cr_start b).

Definition cache_ok c : Prop := StronglySorted before c ∧ Forall cr_ok c.

Lemma cr_contains_spec r key :
  cr_contains r key = true ↔ bytes_le (cr_start r) key ∧ (cr_end r = [] ∨ bytes_lt key (cr_end r)).
Proof.
  unfold cr_contains. rewrite andb_true_iff, orb_true_iff, bytes_leb_le, bytes_ltb_lt.
  destruct (cr_end r); cbn; intuition congruence.
Qed.

Lemma ranges_overlap_spec a b : ranges_overlap a b = false ↔ before a b ∨ before b a.
Proof.
  unfold ranges_overlap, before. rewrite negb_false_iff, orb_true_iff, !andb_true_iff, !bytes_leb_le.
  destruct (cr_end a), (cr_end b); cbn; intuition congruence.
Qed.

Lemma before_start a b : cr_ok a → before a b → bytes_lt (cr_start a) (cr_start b).
Proof. intros [?|Hlt] [? Hle]; [done|]. by apply (bytes_lt_le_trans _ (cr_end a)). Qed.

Lemma before_apart a b key : before a b → cr_contains a key = true → cr_contains b key = true → False.
Proof.
  rewrite !cr_contains_spec. intros [Hne Hle] [_ [?|Ha]] [Hb _]; [done|].
  apply (bytes_lt_irrefl key). eapply bytes_lt_le_trans; [exact Ha|]. by eapply bytes_le_trans.
Qed.

Lemma overlap_common a b key : cr_contains a key = true → cr_contains b key = true → ranges_overlap a b = true.
Proof.
  intros Ha Hb. apply not_false_is_true. rewrite ranges_overlap_spec.
  intros [Hx|Hx]; by eapply before_apart.
Qed.

(** * Lists of disjoint ranges *)

Lemma cache_ok_app c1 c2 :
  cache_ok (c1 ++ c2) ↔ cache_ok c1 ∧ cache_ok c2 ∧ ∀ a b, a ∈ c1 → b ∈ c2 → before a b.
Proof.
  unfold cache_ok. rewrite Forall_app. induction c1 as [|x c1 IH]; cbn.
  - split; [|by intros (? & [? ?] & _)]. intros [? [_ ?]]. split_and!; [constructor|constructor|done..|by intros ? ? ?%elem_of_nil].
  - rewrite !Forall_cons. split.
    + intros [Hs [[Hx Hf1] Hf2]]. apply StronglySorted_inv in Hs as [Hs Hall].
      apply Forall_app in Hall as [Ha1 Ha2]. destruct IH as [IH _]. destruct IH as ([Hs1 _] & [Hs2 _] & Hb); [done|].
      split_and!; [by constructor|done..|]. intros a b [->|Ha]%elem_of_cons Hin; [|auto].
      rewrite list.Forall_forall in Ha2. auto.
    + intros ([Hs [Hx Hf1]] & [Hs2 Hf2] & Hb). apply StronglySorted_inv in Hs as [Hs Hall]. split; [|done].
      constructor.
      * apply IH. split_and!; [done..|]. intros a b Ha. apply Hb. by right.
      * apply Forall_app. split; [done|]. apply list.Forall_forall. intros b Hin. apply Hb; [by left|done].
Qed.

Lemma cache_ok_filter (f : CachedRegion → bool) c : cache_ok c → cache_ok (List.filter f c).
Proof.
  intros [Hs Hf]. unfold cache_ok. induction Hs as [|x c Hs IH Hall]; cbn; [by split; constructor|].
  apply Forall_cons in Hf as [Hx Hf]. destruct (IH Hf) as [IHs IHf].
  destruct (f x); [|done]. split; constructor; auto. apply list.Forall_forall. intros y Hy.
  rewrite list.Forall_forall in Hall. apply Hall. apply list_elem_of_In, filter_In in Hy as [Hy _]. by apply list_elem_of_In.
Qed.

Lemma elem_of_filterb {A} (f : A → bool) l x : x ∈ List.filter f l ↔ x ∈ l ∧ f x = true.
Proof. rewrite !list_elem_of_In. apply filter_In. Qed.

Lemma cache_unique c a b key : cache_ok c → a ∈ c → b ∈ c → cr_contains a key = true → cr_contains b key = true → a = b.
Proof.
  intros [Hs _] Ha Hb Hka Hkb. induction Hs as [|x c Hs IH Hall]; [by apply elem_of_nil in Ha|].
  rewrite list.Forall_forall in Hall.
  apply elem_of_cons in Ha as [->|Ha], Hb as [->|Hb]; [done|..|auto]; exfalso;
    (eapply (before_apart _ _ key); [apply Hall; eassumption|done..]).
Qed.

(** * The binary search *)

Lemma cache_lookup_iff c key r :
  cache_ok c → cache_lookup key c = Some r ↔ r ∈ c ∧ cr_contains r key = true.
Proof.
  intros Hc. unfold cache_lookup.
  destruct (partition_point_split (λ r, bytes_leb (cr_start r) key) c) as (l1 & l2 & -> & <- & Hl1 & Hl2).
  apply cache_ok_app in Hc as (Hc1 & Hc2 & Hb).
  assert (Hright : ∀ x, x ∈ l2 → cr_contains x key = true → False).
  { intros x Hx Hk. destruct l2 as [|y l2]; [by apply elem_of_nil in Hx|]. apply bytes_leb_gt in Hl2.
    destruct Hc2 as [Hs Hf]. apply StronglySorted_inv in Hs as [_ Hall]. apply Forall_cons in Hf as [Hy _].
    apply cr_contains_spec in Hk as [Hk _]. apply (bytes_lt_irrefl key). apply elem_of_cons in Hx as [->|Hx].
    - by eapply bytes_lt_le_trans.
    - rewrite list.Forall_forall in Hall. eapply bytes_lt_le_trans; [exact Hl2|]. eapply bytes_le_trans; [|exact Hk].
      apply bytes_lt_le, before_start; auto. }
  destruct l1 as [|z l1 _] using rev_ind.
  { cbn. split; [done|]. intros [Hx Hk]. by destruct (Hright r). }
  rewrite length_app, Nat.add_1_r. cbn [length]. rewrite lookup_app_l by (rewrite length_app; cbn; lia).
  rewrite lookup_app_r by lia. rewrite Nat.sub_diag. cbn.
  apply Forall_app in Hl1 as [_ Hz%Forall_cons_1]. destruct Hz as [Hz _]. apply Is_true_true, bytes_leb_le in Hz.
  split.
  - intros Hl. destruct (cr_contains z key) eqn:Hk; [|done]. injection Hl as <-. split; [|done].
    apply elem_of_app. left. apply elem_of_app. right. by left.
  - intros [Hx Hk]. apply elem_of_app in Hx as [Hx|Hx]; [|by destruct (Hright r)].
    apply elem_of_app in Hx as [Hx|Hx%list_elem_of_singleton]; [|subst; by rewrite Hk].
    exfalso. apply cache_ok_app in Hc1 as (_ & _ & Hb1). destruct (Hb1 r z) as [Hne Hle]; [done|by left|].
    apply cr_contains_spec in Hk as [_ [?|Hk]]; [done|]. apply (bytes_lt_irrefl key).
    eapply bytes_lt_le_trans; [exact Hk|]. by eapply bytes_le_trans.
Qed.

(** * Insertion and invalidation *)

Lemma elem_of_cache_insert region c r :
  r ∈ cache_insert region c ↔ r = region ∨ r ∈ c ∧ ranges_overlap r region = false.
Proof.
  unfold cache_insert. rewrite elem_of_app, elem_of_cons.
  set (c' := List.filter _ c). set (pos := partition_point _ c').
  assert (Hr : r ∈ c' ↔ r ∈ take pos c' ∨ r ∈ drop pos c') by (by rewrite <- elem_of_app, take_drop).
  rewrite <- negb_true_iff, <- (elem_of_filterb (λ r, negb (ranges_overlap r region))). fold c'. rewrite Hr. tauto.
Qed.

Lemma elem_of_cache_invalidate key c r :
  r ∈ cache_invalidate key c ↔ r ∈ c ∧ cr_contains r key = false.
Proof. unfold cache_invalidate. by rewrite elem_of_filterb, negb_true_iff. Qed.

Lemma cache_insert_ok region c : cr_ok region → cache_ok c → cache_ok (cache_insert region c).
Proof.
  intros Hr Hc. unfold cache_insert. apply (cache_ok_filter (λ r, negb (ranges_overlap r region))) in Hc.
  assert (Hd : ∀ x, x ∈ List.filter (λ r, negb (ranges_overlap r region)) c → before x region ∨ before region x).
  { intros x [_ Hx%negb_true_iff]%elem_of_filterb. by apply ranges_overlap_spec. }
  revert Hc Hd. generalize (List.filter (λ r, negb (ranges_overlap r region)) c). clear c. intros c Hc Hd.
  destruct (partition_point_split (λ r, bytes_ltb (cr_start r) (cr_start region)) c) as (l1 & l2 & -> & <- & Hl1 & Hl2).
  rewrite take_app_length, drop_app_length. apply cache_ok_app in Hc as (Hc1 & Hc2 & Hb).
  assert (H1 : ∀ x, x ∈ l1 → before x region).
  { intros x Hx. destruct (Hd x) as [?|Hbx]; [apply elem_of_app; by left|done|]. exfalso.
    rewrite list.Forall_forall in Hl1. specialize (Hl1 x Hx). apply Is_true_true, bytes_ltb_lt in Hl1.
    apply (bytes_lt_irrefl (cr_start x)). eapply bytes_lt_le_trans; [exact Hl1|]. by apply bytes_lt_le, before_start. }
  assert (H2 : ∀ x, x ∈ l2 → before region x).
  { intros x Hx. destruct (Hd x) as [Hbx|?]; [apply elem_of_app; by right| |done]. exfalso.
    destruct l2 as [|y l2]; [by apply elem_of_nil in Hx|]. apply bytes_ltb_ge in Hl2.
    destruct Hc2 as [Hs Hf]. apply StronglySorted_inv in Hs as [_ Hall].
    rewrite list.Forall_forall in Hall, Hf. assert (Hyx : bytes_le (cr_start y) (cr_start x)).
    { apply elem_of_cons in Hx as [->|Hx]; [apply bytes_le_refl|]. apply bytes_lt_le, before_start; [|auto]. apply Hf. by left. }
    apply (bytes_lt_irrefl (cr_start x)). eapply bytes_lt_le_trans; [apply before_start; [by apply Hf|exact Hbx]|].
    by eapply bytes_le_trans. }
  apply cache_ok_app. split; [done|split].
  - apply (cache_ok_app [region]). split; [|split; [done|]].
    { split; [apply (SSorted_cons _ (SSorted_nil _)); constructor|by constructor; [|constructor]]. }
    intros a b ->%list_elem_of_singleton. apply H2.
  - intros a b Ha [->|Hin]%elem_of_cons; auto.
Qed.

Lemma cache_invalidate_ok key c : cache_ok c → cache_ok (cache_invalidate key c).
Proof. apply cache_ok_filter. Qed.

(** * The reference: an unsorted list, searched from its front *)

Inductive CacheOp := OpInsert (region : CachedRegion) | OpInvalidate (key : bytes).

Definition cache_op (op : CacheOp) c : list CachedRegion :=
  match op with
  | OpInsert region => cache_insert region c
  | OpInvalidate key => cache_invalidate key c
  end.

Definition naive_op (op : CacheOp) c : list CachedRegion :=
  match op with
  | OpInsert region => region :: List.filter (λ r, negb (ranges_overlap r region)) c
  | OpInvalidate key => List.filter (λ r, negb (cr_contains r key)) c
  end.

Definition naive_lookup key c : option CachedRegion := List.find (λ r, cr_contains r key) c.

Definition op_ok (op : CacheOp) : Prop := match op with OpInsert region => cr_ok region | OpInvalidate _ => True end.

Lemma cache_op_ok op c : op_ok op → cache_ok c → cache_ok (cache_op op c).
Proof. destruct op; cbn; [apply cache_insert_ok|intros _; apply cache_invalidate_ok]. Qed.

Lemma cache_op_naive op c n : (∀ r, r ∈ c ↔ r ∈ n) → ∀ r, r ∈ cache_op op c ↔ r ∈ naive_op op n.
Proof.
  intros Heq r. destruct op; cbn.
  - by rewrite elem_of_cache_insert, elem_of_cons, elem_of_filterb, negb_true_iff, Heq.
  - by rewrite elem_of_cache_invalidate, elem_of_filterb, negb_true_iff, Heq.
Qed.

Lemma naive_lookup_eq c n key : cache_ok c → (∀ r, r ∈ c ↔ r ∈ n) → cache_lookup key c = naive_lookup key n.
Proof.
  intros Hc Heq. destruct (naive_lookup key n) as [r|] eqn:Hf.
  - apply find_some in Hf as [Hr Hk]. apply cache_lookup_iff; [done|]. split; [|done]. by apply Heq, list_elem_of_In.
  - destruct (cache_lookup key c) as [r|] eqn:Hl; [|done]. apply cache_lookup_iff in Hl as [Hr Hk]; [|done].
    apply Heq, list_elem_of_In in Hr. by rewrite (find_none _ _ Hf r Hr) in Hk.
Qed.

Lemma cache_ops_ok ops : Forall op_ok ops → ∀ c n, cache_ok c → (∀ r, r ∈ c ↔ r ∈ n) →
  cache_ok (fold_left (λ c op, cache_op op c) ops c) ∧
  ∀ r, r ∈ fold_left (λ c op, cache_op op c) ops c ↔ r ∈ fold_left (λ c op, naive_op op c) ops n.
Proof.
  induction 1 as [|op ops Hop _ IH]; intros c n Hc Heq; cbn; [done|].
  apply IH; [by apply cache_op_ok|by apply cache_op_naive].
Qed.

Lemma cache_nil_ok : cache_ok [].
Proof. by split; constructor. Qed.
