(* ===== verification/ClientRouted.v ===== *)
(** A client that routes through the placement driver, against what the cluster promises it
    ([RoutedCluster]): however stale its cache is, a call is served by the owner of its key,
    once. *)

From stdpp Require Import base list numbers strings gmap.
From Stdlib Require Import Strings.Byte.
From S2P Require Import Prelude Encoding Keys PdRegion Prog KvService Grpc Client ClientCache.

(** What a client sees of a cluster: its well-formed states, the region PD names for a key
    with the address of its owner, and the regions that a client may have cached at some
    time. *)
Class RoutedCluster (W : Type) `{Network W} := {
  rc_ok : W → Prop;
  rc_owner : W → bytes → CachedRegion;
  rc_known : CachedRegion → Prop;
}.

(** PD's regions partition the keys, and stay while the call is under way. *)
Class RoutedClusterLaws (W : Type) `{RoutedCluster W, !NetworkLaws W} := {
  rc_owner_known w key : rc_ok w → rc_known (rc_owner w key);
  rc_owner_contains w key : rc_ok w → cr_contains (rc_owner w key) key = true;
  rc_owner_same w k k' : rc_ok w → cr_contains (rc_owner w k) k' = true → rc_owner w k' = rc_owner w k;
  rc_known_ok r : rc_known r → cr_ok r;
  rc_moves_ok w w' : net_moves w w' → rc_ok w → rc_ok w';
  rc_moves_owner w w' key : net_moves w w' → rc_owner w' key = rc_owner w key;
}.

Section routed.
Context (valid_uri : string → bool) {W : Type} `{RoutedClusterLaws W}.
(** The fallback endpoint, what holds of the cached tables, and that known regions have valid
    endpoints. *)
Context (fallback : string) (tables_ok : gmap bytes N → Prop).
Implicit Types (c : Client) (w : W) (key : bytes) (x : CachedRegion).

Definition endpoint x : string := if bool_decide (cr_address x = EmptyString) then fallback else cr_address x.
Context (Hvalid : ∀ x, rc_known x → valid_uri (endpoint x) = true).

Definition route_of x : option Context_ * string := (Some (mkContext (cr_id x) (cr_epoch x)), endpoint x).

Record routing_ok (r : Routing) : Prop := mkRoutingOk {
  ro_fallback : rt_fallback_kv r = Some fallback;
  ro_cache : cache_ok (rt_cache r);
  ro_known x : x ∈ rt_cache r → rc_known x;
  ro_pool a ch : rt_pool r !! a = Some ch → ch = a;
}.

Definition routed_with (r : Routing) c : Prop := c_cluster c = None ∧ c_routing c = Some r.
Definition routed_ok c : Prop := (∃ r, routed_with r c ∧ routing_ok r) ∧ tables_ok (c_tables c).

(** No cached route of the key is stale. *)
Definition clean key c w : Prop :=
  ∀ r x, c_routing c = Some r → x ∈ rt_cache r → cr_contains x key = true → route_of x = route_of (rc_owner w key).

(** Clones of the client drop cached regions, add what PD answers, and learn of tables. *)
Definition env_routed (s s' : Client * W) : Prop :=
  net_moves s.2 s'.2 ∧
  (∀ r, routed_with r s.1 → routing_ok r → ∃ r', routed_with r' s'.1 ∧ routing_ok r' ∧
    ∀ x, x ∈ rt_cache r' → x ∈ rt_cache r ∨ ∃ k, x = rc_owner s'.2 k) ∧
  c_tables s.1 ⊆ c_tables s'.1 ∧ (tables_ok (c_tables s.1) → tables_ok (c_tables s'.1)).

Definition region_reply x : RegionReply := mkRegionReply (cr_id x) (cr_start x) (cr_end x) (cr_epoch x) (cr_address x).

Definition answers_routed (n : NetCall) (s : Client * W) : NetAnswer n → Client * W → Prop :=
  match n with
  | NetPd key => λ a s', s' = s ∧ a = inr (region_reply (rc_owner s.2 key))
  | NetKv uri r => λ a s', s'.1 = s.1 ∧ net_answer uri r s.2 a s'.2
  end.

Abbreviation wpr := (wp env_routed answers_routed).

(** The invariant of a call that started at [w0]; with [fresh], stale routes are gone. *)
Definition calling (fresh : bool) key w0 (s : Client * W) : Prop :=
  routed_ok s.1 ∧ (rc_ok w0 ∧ net_moves w0 s.2) ∧ (fresh = true → clean key s.1 s.2).

Lemma calling_rc_ok fresh key w0 s : calling fresh key w0 s → rc_ok s.2.
Proof. intros (_ & [Hok Hm] & _). by apply (rc_moves_ok w0). Qed.

Lemma calling_start key c w : routed_ok c → rc_ok w → calling false key w (c, w).
Proof. intros Hc Hw. split; [done|split; [split; [done|apply net_moves_refl]|done]]. Qed.

Lemma calling_env fresh key w0 s s' : calling fresh key w0 s → env_routed s s' → calling fresh key w0 s'.
Proof.
  intros Hcall (Hm' & Henv & _ & Ht). pose proof (calling_rc_ok _ _ _ _ Hcall) as Hrc.
  destruct Hcall as (((r & Hr & Hok) & Htab) & [Hrc0 Hm] & Hc). destruct (Henv r Hr Hok) as (r' & Hr' & Hok' & Hx).
  split; [split; [by exists r'|auto]|split; [split; [done|by eapply net_moves_trans]|]]. intros Hf r1 x Hr1 Hin Hk. destruct Hr as [_ Hr], Hr' as [_ Hr'].
  rewrite Hr' in Hr1. injection Hr1 as <-. rewrite (rc_moves_owner s.2 s'.2) by done.
  destruct (Hx x Hin) as [Hold|[k ->]]; [by apply (Hc Hf r)|].
  rewrite <- (rc_moves_owner s.2 s'.2) by done. by rewrite (rc_owner_same s'.2 k key (rc_moves_ok _ _ Hm' Hrc) Hk).
Qed.

Lemma wp_ret_r {A} (a : A) s (Q : ClientError + A → _ → Prop) : Q (inr a) s → wpr (mret a : Fallible _ _ _ A) Q s.
Proof. done. Qed.

Lemma wp_of_client {A} (f : Client → A) v fresh key w0 s (Q : ClientError + A → _ → Prop) :
  calling fresh key w0 s → (∀ c, routed_ok c → f c = v) →
  (∀ s1, calling fresh key w0 s1 → Q (inr v) s1) → wpr (of_client f) Q s.
Proof.
  intros Hc Hf HQ. apply wp_step. intros s1 He. pose proof (calling_env _ _ _ _ _ Hc He) as Hc1.
  cbn. rewrite (Hf s1.1) by apply Hc1. apply HQ. by destruct s1.
Qed.

Lemma wp_on_routing {A} (f : Routing → Routing * A) fresh key w0 s (Q : ClientError + A → _ → Prop) :
  calling fresh key w0 s →
  (∀ r s1, calling fresh key w0 s1 → routed_with r s1.1 → routing_ok r →
    Q (inr (f r).2) (s1.1 <| c_routing := Some (f r).1 |>, s1.2)) →
  wpr (on_routing f) Q s.
Proof.
  intros Hc HQ. unfold on_routing, on_client. rewrite wp_bind. apply wp_step. intros s1 He.
  pose proof (calling_env _ _ _ _ _ Hc He) as Hc1. destruct (Hc1) as (((r & [Hcl Hr] & Hok) & _) & _).
  destruct s1 as [c1 w1]. cbn in *. rewrite Hr. specialize (HQ r (c1, w1) Hc1 (conj Hcl Hr) Hok).
  destruct (f r) as [r' a]. exact HQ.
Qed.

(** The invariant after a change of the routing. *)
Lemma calling_set fresh fresh' key w0 s r r' :
  calling fresh key w0 s → routed_with r s.1 → routing_ok r' →
  (fresh' = true → ∀ x, x ∈ rt_cache r' → cr_contains x key = true → route_of x = route_of (rc_owner s.2 key)) →
  calling fresh' key w0 (s.1 <| c_routing := Some r' |>, s.2).
Proof.
  intros ([_ Ht] & Hm & _) [Hcl _] Hok Hf. split; [split; [by exists r'|done]|split; [done|]]. intros Hfr r1 x [= <-]. by apply Hf.
Qed.

Lemma client_for_ok x r :
  routing_ok r → rc_known x → ∃ pool, client_for valid_uri (cr_address x) r = (r <| rt_pool := pool |>, inr (endpoint x)) ∧
    ∀ a ch, pool !! a = Some ch → ch = a.
Proof.
  intros [Hf Hc Hk Hp] Hx. specialize (Hvalid x Hx). unfold client_for, lazy_channel.
  assert (Hopen : ∃ pool, match rt_pool r !! endpoint x with
      | Some ch => (r, inr ch)
      | None => match (if valid_uri (endpoint x) then inr (endpoint x) else inl (CeKey "invalid endpoint")) with
        | inl e => (r, inl e)
        | inr ch => (r <| rt_pool := <[endpoint x := ch]> (rt_pool r) |>, inr ch)
        end
      end = (r <| rt_pool := pool |>, inr (endpoint x)) ∧ ∀ a ch, pool !! a = Some ch → ch = a).
  { destruct (rt_pool r !! endpoint x) as [ch|] eqn:El.
    - exists (rt_pool r). split; [|done]. rewrite <- (Hp _ _ El). by destruct r.
    - rewrite Hvalid. exists (<[endpoint x := endpoint x]> (rt_pool r)). split; [done|].
      intros a ch. destruct (decide (a = endpoint x)) as [->|]; [rewrite lookup_insert_eq; congruence|].
      rewrite lookup_insert_ne by done. apply Hp. }
  unfold endpoint in *. destruct (bool_decide (cr_address x = EmptyString)); [rewrite Hf|]; exact Hopen.
Qed.

(** Opening a channel to a known region. *)
Lemma wp_client_for x fresh key w0 s (Q : ClientError + (ClientError + string) → _ → Prop) :
  calling fresh key w0 s → rc_known x → (∀ s1, calling fresh key w0 s1 → Q (inr (inr (endpoint x))) s1) →
  wpr (on_routing (client_for valid_uri (cr_address x))) Q s.
Proof.
  intros Hc Hx HQ. eapply wp_on_routing; [exact Hc|]. intros r s1 Hc1 Hr Hok.
  destruct (client_for_ok x r Hok Hx) as (pool & -> & Hp). apply HQ. apply (calling_set fresh fresh _ _ _ r); [done..| |].
  - destruct Hok. by constructor.
  - intros Hf y Hy. destruct Hc1 as (_ & _ & Hcl). destruct Hr as [_ Hr]. by apply (Hcl Hf r).
Qed.

Lemma resolve_ok fresh key w0 s (Q : ClientError + (Context_ * string) → _ → Prop) :
  calling fresh key w0 s →
  (∀ x s1, calling fresh key w0 s1 → rc_known x → cr_contains x key = true →
    (fresh = true → route_of x = route_of (rc_owner s1.2 key)) →
    Q (inr (mkContext (cr_id x) (cr_epoch x), endpoint x)) s1) →
  wpr (resolve valid_uri key) Q s.
Proof.
  intros Hc HQ. unfold resolve. rewrite wp_bind. eapply wp_on_routing; [exact Hc|].
  intros r s1 Hc1 Hr Hok. cbn [fst snd then_].
  assert (Hc1' : calling fresh key w0 (s1.1 <| c_routing := Some r |>, s1.2)).
  { apply (calling_set fresh fresh _ _ _ r); [done..|]. intros Hf y Hy. destruct Hc1 as (_ & _ & Hcl), Hr as [_ Hr].
    by apply (Hcl Hf r). }
  destruct (cache_lookup key (rt_cache r)) as [x|] eqn:El.
  - apply cache_lookup_iff in El as [Hin Hk]; [|apply Hok]. assert (Hx : rc_known x) by (by apply Hok).
    rewrite wp_bind. eapply (wp_client_for x fresh key w0); [exact Hc1'|done|].
    intros s2 Hc2. apply (HQ x); [done..|]. intros Hf.
    destruct Hc1 as (_ & [_ Hm1] & Hcl), Hr as [_ Hr]. rewrite (Hcl Hf r x) by done.
    destruct Hc2 as (_ & [_ Hm2] & _). by rewrite (rc_moves_owner _ _ _ Hm1), (rc_moves_owner _ _ _ Hm2).
  - rewrite wp_bind. cbn [wp p_await]. intros s2 a s3 He Ha.
    destruct Ha as [-> ->]. pose proof (calling_env _ _ _ _ _ Hc1' He) as Hc2.
    set (x := rc_owner s2.2 key). cbn [then_ region_reply rr_region_id rr_start_key rr_end_key rr_epoch rr_address].
    replace (mkCachedRegion (cr_id x) (cr_start x) (cr_end x) (cr_epoch x) (cr_address x)) with x by (by destruct x).
    pose proof (calling_rc_ok _ _ _ _ Hc2) as Hrc2. assert (Hx : rc_known x) by (by apply rc_owner_known).
    rewrite wp_bind. eapply (wp_client_for x fresh key w0); [exact Hc2|done|]. intros s4 Hc4.
    cbn [then_]. rewrite wp_bind. cbn [wp k_lift then_]. rewrite wp_bind. eapply wp_on_routing; [exact Hc4|].
    intros r5 s5 Hc5 Hr5 Hok5. cbn [fst snd then_]. apply wp_ret_r.
    assert (Hown : rc_owner s5.2 key = x).
    { destruct Hc2 as (_ & [_ Hm2] & _), Hc5 as (_ & [_ Hm5] & _). unfold x.
      by rewrite (rc_moves_owner _ _ _ Hm2), (rc_moves_owner _ _ _ Hm5). }
    apply (HQ x); [|done|by apply rc_owner_contains|by intros _; cbn [snd]; rewrite Hown].
    apply (calling_set fresh fresh _ _ _ r5); [done..| |].
    + destruct Hok5 as [Hf5 Hca5 Hk5 Hp5]. constructor; [done| | |done].
      * apply cache_insert_ok; [by apply rc_known_ok|done].
      * intros y [->|[Hy _]]%elem_of_cache_insert; auto.
    + intros Hf y [->|[Hy _]]%elem_of_cache_insert Hky; [by rewrite Hown|].
      destruct Hc5 as (_ & _ & Hcl), Hr5 as [_ Hr5]. by apply (Hcl Hf r5).
Qed.

Lemma prepare_ok fresh key w0 s (Q : ClientError + (option Context_ * string) → _ → Prop) :
  calling fresh key w0 s →
  (∀ x s1, calling fresh key w0 s1 → rc_known x → cr_contains x key = true →
    (fresh = true → route_of x = route_of (rc_owner s1.2 key)) → Q (inr (route_of x)) s1) →
  wpr (prepare valid_uri key) Q s.
Proof.
  intros Hc HQ. unfold prepare. rewrite wp_bind.
  eapply (wp_of_client _ false); [exact Hc|by intros c [(r & [Hcl _] & _) _]; unfold is_cluster; rewrite Hcl|].
  intros s1 Hc1. cbn [then_]. rewrite wp_bind.
  eapply (wp_of_client _ true); [exact Hc1|by intros c [(r & [_ Hr] & _) _]; unfold is_routed; rewrite Hr|].
  intros s2 Hc2. cbn [then_]. rewrite wp_bind. eapply resolve_ok; [exact Hc2|].
  intros x s3 Hc3 Hx Hk Hf. by apply HQ.
Qed.

Lemma invalidate_ok fresh key w0 s (Q : ClientError + unit → _ → Prop) :
  calling fresh key w0 s → (∀ s1, calling true key w0 s1 → Q (inr tt) s1) → wpr (invalidate key) Q s.
Proof.
  intros Hc HQ. unfold invalidate. rewrite wp_bind.
  eapply (wp_of_client _ false); [exact Hc|by intros c [(r & [Hcl _] & _) _]; unfold is_cluster; rewrite Hcl|].
  intros s1 Hc1. cbn [then_]. rewrite wp_bind.
  eapply (wp_of_client _ true); [exact Hc1|by intros c [(r & [_ Hr] & _) _]; unfold is_routed; rewrite Hr|].
  intros s2 Hc2. cbn [then_]. eapply wp_on_routing; [exact Hc2|].
  intros r s3 Hc3 Hr Hok. apply HQ. cbn [fst snd]. apply (calling_set fresh true _ _ _ r); [done..| |].
  - destruct Hok as [Hf Hca Hk Hp]. constructor; [done| | |done]; [by apply cache_invalidate_ok|].
    intros y [Hy _]%elem_of_cache_invalidate. auto.
  - intros _ y [_ Hno]%elem_of_cache_invalidate Hky. congruence.
Qed.

Lemma reroute_ok fresh key ke w0 s (Q : ClientError + unit → _ → Prop) :
  calling fresh key w0 s → (∀ s1, calling true key w0 s1 → Q (inr tt) s1) → wpr (reroute key ke) Q s.
Proof.
  intros Hc HQ. unfold reroute. rewrite wp_bind.
  eapply (wp_of_client _ false); [exact Hc| |].
  { intros c [(r & [Hcl Hr] & _) _]. unfold is_cluster, is_routed. by rewrite Hcl, Hr. }
  intros s1 Hc1. cbn [then_ andb]. by eapply invalidate_ok.
Qed.

(** * A call *)

Section call.
Context {T A : Type} (key : bytes) (request : option Context_ → Rpc T) (reply : T → KeyError + A).
(** How the owner of the key serves the request, and the state in which the call begins. *)
Context (serves : W → TStatus + T → W → Prop) (w0 : W).

(** The owner, addressed with its region's current epoch, serves the request; any other node,
    or the owner addressed with another context, redirects reply and does nothing. *)
Record answers_call : Prop := mkAnswersCall {
  ac_owner w a w' : net_moves w0 w → net_answer (endpoint (rc_owner w key)) (request (route_of (rc_owner w key)).1) w a w' →
    serves w a w' ∧ rc_ok w' ∧ ¬ redirects reply a;
  ac_other x w a w' : net_moves w0 w → rc_known x → cr_contains x key = true → route_of x ≠ route_of (rc_owner w key) →
    net_answer (endpoint x) (request (route_of x).1) w a w' → redirects reply a ∧ net_moves w w';
}.
Context (Hcall : answers_call).

Lemma not_redirected a w1 fresh again failover reached s (Q : ClientError + A → _ → Prop) :
  ¬ redirects reply a → calling fresh key w1 s → (∀ s1, calling fresh key w1 s1 → Q (outcome reply a) s1) →
  wpr (settle failover reached key reply again a) Q s.
Proof.
  intros Hn Hc HQ. destruct a as [status|t]; cbn [settle].
  - rewrite wp_bind. eapply (wp_of_client _ false); [exact Hc| |].
    { intros c [(r & [Hcl _] & _) _]. unfold is_cluster. by rewrite Hcl. }
    intros s1 Hc1. cbn [then_]. rewrite andb_false_r. by apply HQ.
  - specialize (HQ s Hc). cbn [outcome] in HQ. destruct (reply t) as [ke|x] eqn:Er; [|done].
    destruct (is_reroute ke) eqn:Ek; [|done]. destruct Hn. by exists t, ke.
Qed.

(** One attempt: served, or redirected with the stale route dropped. *)
Lemma attempt_ok n failover reached fresh s (Q : ClientError + A → _ → Prop) :
  calling fresh key w0 s →
  (∀ res s1, routed_ok s1.1 → served_once reply serves w0 res s1.2 → Q res s1) →
  (fresh = false → ∀ reached s1, calling true key w0 s1 → wpr (attempts valid_uri n failover reached key request reply) Q s1) →
  wpr (attempts valid_uri (S n) failover reached key request reply) Q s.
Proof.
  intros Hc HQ Hagain. cbn [attempts]. rewrite wp_bind. eapply prepare_ok; [exact Hc|].
  intros x s1 Hc1 Hx Hk Hf. cbn [then_]. rewrite wp_bind. cbn [wp p_await fst snd]. intros s2 a s3 He Ha.
  destruct s3 as [c3 w3]. destruct Ha as [Hs Ha]. cbn [fst snd] in Hs, Ha. subst c3.
  pose proof (calling_env _ _ _ _ _ Hc1 He) as Hc2. pose proof (calling_rc_ok _ _ _ _ Hc2) as Hrc2.
  destruct (Hc2) as (Hok2 & [Hrc0 Hm2] & Hcl2).
  assert (Hown : rc_owner s2.2 key = rc_owner s1.2 key) by (destruct He as [? _]; by apply rc_moves_owner).
  cbn [then_]. destruct (decide (route_of x = route_of (rc_owner s2.2 key))) as [Hr|Hr].
  - assert (Ha' : net_answer (endpoint (rc_owner s2.2 key)) (request (route_of (rc_owner s2.2 key)).1) s2.2 a w3).
    { rewrite <- Hr. injection Hr as _ _ <-. exact Ha. }
    apply Hcall in Ha' as (Hs & Hrc3 & Hn); [|done]. eapply (not_redirected a w3 false _ _ _ (s2.1, w3)); [done| |].
    + split_and!; [done|done|apply net_moves_refl|done].
    + intros s4 (Hok4 & [_ Hm4] & _). apply HQ; [done|]. by exists s2.2, a, w3.
  - destruct fresh; [destruct Hr; by rewrite Hown, <- Hf|].
    apply Hcall in Ha as [(t & ke & -> & Hke & Hre) Hm3]; [|done..]. cbn [settle]. rewrite Hke, Hre, wp_bind.
    eapply (reroute_ok false key ke w0); [|intros s4 Hc4; by apply Hagain].
    split_and!; [done|done|by eapply net_moves_trans|done].
Qed.

(** A request that every node serves. *)
Lemma attempts_any n failover reached c :
  (∀ x w a w', net_moves w0 w → rc_known x → net_answer (endpoint x) (request (route_of x).1) w a w' →
    serves w a w' ∧ rc_ok w' ∧ ¬ redirects reply a) →
  routed_ok c → rc_ok w0 →
  wpr (attempts valid_uri (S n) failover reached key request reply)
    (λ res s, routed_ok s.1 ∧ served_once reply serves w0 res s.2) (c, w0).
Proof.
  intros Hany Hok Hrc. cbn [attempts]. rewrite wp_bind.
  eapply (prepare_ok false key w0); [split_and!; [done..|apply net_moves_refl|done]|].
  intros x s1 Hc1 Hx Hk _. cbn [then_]. rewrite wp_bind. cbn [wp p_await fst snd]. intros s2 a [c3 w3] He [Hs Ha].
  cbn [fst snd] in Hs, Ha. subst c3. pose proof (calling_env _ _ _ _ _ Hc1 He) as Hc2.
  destruct Hc2 as (Hok2 & [_ Hm2] & _).
  apply Hany in Ha as (Hsv & Hrc3 & Hn); [|done|done].
  cbn [then_]. eapply (not_redirected a w3 false); [done|split_and!; [done..|apply net_moves_refl|done]|].
  intros s4 (Hok4 & [_ Hm4] & _). split; [done|]. by exists s2.2, a, w3.
Qed.

Lemma attempts_ok n failover reached c :
  routed_ok c → rc_ok w0 →
  wpr (attempts valid_uri (S (S n)) failover reached key request reply)
    (λ res s, routed_ok s.1 ∧ served_once reply serves w0 res s.2) (c, w0).
Proof.
  intros Hok Hrc. eapply (attempt_ok (S n) failover reached false); [|by intros res s1 Hs; split|].
  - split_and!; [done|done|apply net_moves_refl|done].
  - intros _ reached1 s1 Hc1. eapply (attempt_ok n failover reached1 true); [exact Hc1|by intros res s2 Hs; split|done].
Qed.
End call.
End routed.
