(* ===== verification/ClientCluster.v ===== *)
(** A client that follows the leader of a static cluster: from whichever node it believes in,
    a call goes round the endpoints to the one that serves it, is served once, and the client
    remembers that node. *)

From stdpp Require Import base list numbers strings gmap.
From Stdlib Require Import Strings.Byte.
From S2P Require Import Prelude Prog KvService Grpc Client ClientCache.

Section cluster.
Context (valid_uri : string → bool) {W : Type} `{NetworkLaws W}.
Context (es : list string) (Hvalid : Forall (λ uri, valid_uri uri = true) es).
Implicit Types (c : Client) (w : W).

(** The client, believing in the node at [l]. *)
Definition following (l : nat) c : Prop :=
  ∃ pool, c_cluster c = Some (mkClusterRouting es l pool) ∧ (l < length es)%nat ∧
    ∀ i uri, pool !! i = Some uri → es !! i = Some uri.

(** Nobody else uses the client's clones meanwhile; nothing is asked of PD. *)
Definition env_cluster (s s' : Client * W) : Prop := s'.1 = s.1 ∧ net_moves s.2 s'.2.

Definition answers_cluster (n : NetCall) (s : Client * W) : NetAnswer n → Client * W → Prop :=
  match n with
  | NetPd _ => λ _ _, False
  | NetKv uri r => λ a s', s'.1 = s.1 ∧ net_answer uri r s.2 a s'.2
  end.

Abbreviation wpc := (wp env_cluster answers_cluster).

Definition at_node (l : nat) w0 (s : Client * W) : Prop := following l s.1 ∧ net_moves w0 s.2.

Lemma at_node_env l w0 s s' : at_node l w0 s → env_cluster s s' → at_node l w0 s'.
Proof. intros [Hf Hm] [Hc Hm']. split; [by rewrite Hc|]. by eapply net_moves_trans. Qed.

Lemma wp_of_cluster {A} (f : Client → A) v l w0 s (Q : ClientError + A → _ → Prop) :
  at_node l w0 s → (∀ c, following l c → f c = v) → (∀ s1, at_node l w0 s1 → Q (inr v) s1) → wpc (of_client f) Q s.
Proof.
  intros Ha Hf HQ. apply wp_step. intros s1 He. pose proof (at_node_env _ _ _ _ Ha He) as Ha1.
  cbn. rewrite (Hf s1.1) by apply Ha1. apply HQ. by destruct s1.
Qed.

Lemma is_cluster_following l c : following l c → is_cluster c = true.
Proof. intros (pool & Hc & _). unfold is_cluster. by rewrite Hc. Qed.

Lemma wp_on_cluster {A} (f : ClusterRouting → ClusterRouting * A) l l' w0 s v (Q : ClientError + A → _ → Prop) :
  at_node l w0 s →
  (∀ pool, (∀ i uri, pool !! i = Some uri → es !! i = Some uri) →
    ∃ pool', f (mkClusterRouting es l pool) = (mkClusterRouting es l' pool', v) ∧ (l' < length es)%nat ∧
      ∀ i uri, pool' !! i = Some uri → es !! i = Some uri) →
  (∀ s1, at_node l' w0 s1 → Q (inr v) s1) → wpc (on_cluster f) Q s.
Proof.
  intros Ha Hf HQ. unfold on_cluster, on_client. rewrite wp_bind. apply wp_step. intros s1 He.
  destruct (at_node_env _ _ _ _ Ha He) as [(pool & Hc & Hl & Hp) Hm]. destruct s1 as [c1 w1]. cbn in *. rewrite Hc.
  destruct (Hf pool Hp) as (pool' & -> & Hl' & Hp'). apply HQ. split; [|done]. exists pool'. by split_and!.
Qed.

Lemma prepare_cluster l w0 key s (Q : ClientError + (option Context_ * string) → _ → Prop) :
  at_node l w0 s → (∀ uri s1, es !! l = Some uri → at_node l w0 s1 → Q (inr (None, uri)) s1) →
  wpc (prepare valid_uri key) Q s.
Proof.
  intros Ha HQ. unfold prepare. rewrite wp_bind.
  eapply (wp_of_cluster _ true); [exact Ha|apply is_cluster_following|]. intros s1 Ha1. cbn [then_].
  destruct (Ha1) as [(pool1 & _ & Hl & _) _]. apply lookup_lt_is_Some in Hl as [uri Huri].
  rewrite Forall_lookup in Hvalid. pose proof (Hvalid _ _ Huri) as Hv.
  rewrite wp_bind. eapply (wp_on_cluster _ l l _ _ (inr uri)); [exact Ha1| |].
  - intros pool Hp. unfold cluster_current, lazy_channel. cbn [cl_pool cl_leader cl_endpoints].
    destruct (pool !! l) as [ch|] eqn:El.
    + exists pool. split_and!; [|by eapply lookup_lt_Some|done]. pose proof (Hp _ _ El). congruence.
    + rewrite Huri, Hv. exists (<[l := uri]> pool). split_and!; [done|by eapply lookup_lt_Some|].
      intros i u. destruct (decide (i = l)) as [->|]; [by rewrite lookup_insert_eq; intros [= <-]|].
      rewrite lookup_insert_ne by done. apply Hp.
  - intros s2 Ha2. cbn [then_]. by apply HQ.
Qed.

Lemma invalidate_cluster l w0 key s (Q : ClientError + unit → _ → Prop) :
  at_node l w0 s → (∀ s1, at_node ((l + 1) mod length es)%nat w0 s1 → Q (inr tt) s1) → wpc (invalidate key) Q s.
Proof.
  intros Ha HQ. unfold invalidate. rewrite wp_bind.
  eapply (wp_of_cluster _ true); [exact Ha|apply is_cluster_following|]. intros s1 Ha1. cbn [then_].
  destruct (Ha1) as [(pool1 & _ & Hl & _) _].
  eapply (wp_on_cluster _ l _ _ _ tt); [exact Ha1| |exact HQ]. intros pool Hp. exists pool.
  split_and!; [done|apply Nat.mod_upper_bound; lia|done].
Qed.

Lemma reroute_cluster l w0 key ke s (Q : ClientError + unit → _ → Prop) :
  at_node l w0 s → (∀ s1, at_node ((l + 1) mod length es)%nat w0 s1 → Q (inr tt) s1) → wpc (reroute key ke) Q s.
Proof.
  intros Ha HQ. unfold reroute. rewrite wp_bind.
  eapply (wp_of_cluster _ false); [exact Ha|intros c Hc; by rewrite (is_cluster_following l c)|].
  intros s1 Ha1. cbn [then_ andb]. by eapply invalidate_cluster.
Qed.

Section call.
Context {T A : Type} (key : bytes) (request : option Context_ → Rpc T) (reply : T → KeyError + A) (failover : bool).
Context (serving : string → bool) (serves : W → TStatus + T → W → Prop).

(** An answer that sends the call to the next node. *)
Definition passes (a : TStatus + T) : Prop :=
  redirects reply a ∨ failover = true ∧ ∃ status, a = inl status ∧ try_next_node status = true.

(** The nodes that serve the request do; the others pass it on, or cannot be reached. *)
Record answers_round : Prop := mkAnswersRound {
  ar_serving uri w a w' : uri ∈ es → serving uri = true → net_answer uri (request None) w a w' → serves w a w' ∧ ¬ passes a;
  ar_other uri w a w' : uri ∈ es → serving uri = false → net_answer uri (request None) w a w' → passes a ∧ net_moves w w';
}.
Context (Hround : answers_round).

Lemma settle_served again reached l w0 s a (Q : ClientError + A → _ → Prop) :
  ¬ passes a → at_node l w0 s → (∀ s1, at_node l w0 s1 → Q (outcome reply a) s1) →
  wpc (settle failover reached key reply again a) Q s.
Proof.
  intros Hn Ha HQ. destruct a as [status|t]; cbn [settle].
  - rewrite wp_bind. eapply (wp_of_cluster _ true); [exact Ha|apply is_cluster_following|]. intros s1 Ha1. cbn [then_].
    rewrite andb_true_r. destruct (failover && try_next_node status) eqn:Ef; [|by apply HQ].
    apply andb_true_iff in Ef as [? ?]. destruct Hn. right. eauto.
  - specialize (HQ s Ha). cbn [outcome] in HQ. destruct (reply t) as [ke|x] eqn:Er; [|done].
    destruct (is_reroute ke) eqn:Ek; [|done]. destruct Hn. left. by exists t, ke.
Qed.

Lemma settle_passed again reached l w0 s a (Q : ClientError + A → _ → Prop) :
  passes a → at_node l w0 s → (∀ reached s1, at_node ((l + 1) mod length es)%nat w0 s1 → wpc (again reached) Q s1) →
  wpc (settle failover reached key reply again a) Q s.
Proof.
  intros [(t & ke & -> & Hke & Hre)|(Hfo & status & -> & Hst)] Ha HQ; cbn [settle].
  - rewrite Hke, Hre, wp_bind. eapply reroute_cluster; [exact Ha|]. intros s1 Ha1. by apply HQ.
  - rewrite wp_bind. eapply (wp_of_cluster _ true); [exact Ha|apply is_cluster_following|]. intros s1 Ha1. cbn [then_].
    rewrite Hfo, Hst. cbn [andb]. rewrite wp_bind. eapply invalidate_cluster; [exact Ha1|]. intros s2 Ha2. by apply HQ.
Qed.

(** From the node at [l], the first serving node is [d] further. *)
Lemma attempts_round d n reached l w0 s :
  at_node l w0 s → (d < n)%nat →
  (∃ uri, es !! ((l + d) mod length es)%nat = Some uri ∧ serving uri = true) →
  wpc (attempts valid_uri n failover reached key request reply)
    (λ res s', served_once reply serves w0 res s'.2 ∧
      ∃ l' uri, following l' s'.1 ∧ es !! l' = Some uri ∧ serving uri = true) s.
Proof.
  revert n reached l s. induction d as [|d IH]; intros [|n] reached l s Ha Hd (up & Hup & Hs); [lia| |lia|].
  all: cbn [attempts]; rewrite wp_bind; eapply prepare_cluster; [exact Ha|]; intros uri s1 Huri Ha1;
    cbn [then_ fst snd]; rewrite wp_bind; cbn [wp p_await]; intros s2 a [c3 w3] He [Hc3 Ha3]; cbn [fst snd] in Hc3, Ha3;
    subst c3; destruct (at_node_env _ _ _ _ Ha1 He) as [Hf2 Hm2]; cbn [then_];
    assert (Hin : uri ∈ es) by (by apply list_elem_of_lookup_2 in Huri);
    destruct (Hf2) as (pool2 & _ & Hl & _).
  1: rewrite Nat.add_0_r, Nat.mod_small, Huri in Hup by done; injection Hup as <-; rename Hs into Eu.
  2: destruct (serving uri) eqn:Eu.
  1, 2: destruct (ar_serving Hround uri s2.2 a w3) as [Hsv Hn]; [done..|];
    eapply (settle_served _ _ l w3); [done|split; [done|apply net_moves_refl]|];
    intros s4 [Hf4 Hm4]; split; [by exists s2.2, a, w3|by exists l, uri].
  destruct (ar_other Hround uri s2.2 a w3) as [Hp Hmv]; [done..|].
  eapply (settle_passed _ _ l w0); [done|split; [done|by eapply net_moves_trans]|].
  intros reached' s4 Ha4. apply (IH n reached' ((l + 1) mod length es)%nat); [done|lia|].
  exists up. split; [|done]. rewrite Nat.Div0.add_mod_idemp_l. by replace (l + 1 + d)%nat with (l + S d)%nat by lia.
Qed.
End call.
End cluster.
