(* ===== verification/ClientDirect.v ===== *)
(** A client routed by PD to a direct node: the node's handlers keep what [RoutedCluster]
    asks for, so the client's calls act on the node's multi-version map. *)

From stdpp Require Import base list numbers strings gmap sorting.
From Stdlib Require Import Strings.Byte.
From S2P Require Import Prelude Encoding Keys Batch Memtable Db DbCorrect EngineApi Mvcc MvccCorrect.
From S2P Require Import Cursor PdRegion PdRegionCorrect PdTso PdCluster PdFsm Catalog Ap MemLock GroupActor Prog KvService KvDirect.
From S2P Require Import Grpc Client ClientCache ClientRouted.

(** * The catalog as a client learns it *)

(** A catalog in which each name is one table's, and the default's is the default's. *)
Record names_ok (t : Tables) : Prop := mkNamesOk {
  no_listed x : x ∈ Tables_list t → t_by_name t !! tb_name x = Some (tb_id x);
  no_named name id : t_by_name t !! name = Some id → ∃ x, x ∈ Tables_list t ∧ tb_name x = name ∧ tb_id x = id;
  no_default : t_by_name t !! DEFAULT_TABLE_NAME = Some DEFAULT_TABLE_ID;
  no_empty : t_by_name t !! [] = None;
}.

(** The client's copy has the omitted name and nothing that is not in the catalog. *)
Definition agrees (t : Tables) (m : gmap bytes N) : Prop :=
  m !! [] = Some DEFAULT_TABLE_ID ∧ ∀ name id, m !! name = Some id → id_of name t = Some id.

Definition learn (listed : list (N * bytes * Regime)) (m : gmap bytes N) : gmap bytes N :=
  fold_left (λ m '(id, name, _), <[name := id]> m) listed m.

Definition table_list (t : Tables) : list (N * bytes * N) :=
  merge_sort listed_le ((λ t, (tb_id t, tb_name t, regime_to_wire (tb_regime t))) <$> Tables_list t).

Lemma elem_of_table_list t id name r :
  (id, name, r) ∈ table_list t ↔ ∃ x, x ∈ Tables_list t ∧ tb_id x = id ∧ tb_name x = name ∧ regime_to_wire (tb_regime x) = r.
Proof.
  unfold table_list. rewrite merge_sort_Permutation, list_elem_of_fmap. split.
  - intros (x & [= -> -> ->] & Hx). eauto 10.
  - intros (x & Hx & <- & <- & <-). eauto.
Qed.

Lemma learn_agrees t listed m :
  (∀ id name r, (id, name, r) ∈ listed → id_of name t = Some id) → agrees t m → agrees t (learn listed m).
Proof.
  revert m. induction listed as [|[[id name] r] listed IH]; intros m Hl [Hd Hm]; [done|]. cbn. apply IH.
  { intros id' name' r' Hin. apply (Hl id' name' r'). by right. }
  assert (Hid : id_of name t = Some id) by (apply (Hl id name r); by left). split.
  - destruct (decide (name = [])) as [->|]; [rewrite lookup_insert_eq; cbn in Hid; congruence|by rewrite lookup_insert_ne].
  - intros name' id'. destruct (decide (name' = name)) as [->|Hne].
    + rewrite lookup_insert_eq. by intros [= <-].
    + rewrite lookup_insert_ne by done. apply Hm.
Qed.

Lemma learn_knows listed m name : is_Some (m !! name) ∨ (∃ id r, (id, name, r) ∈ listed) → is_Some (learn listed m !! name).
Proof.
  revert m. induction listed as [|[[id' name'] r'] listed IH]; intros m Hn; cbn.
  - destruct Hn as [?|(id & r & Hin%elem_of_nil)]; done.
  - apply IH. destruct (decide (name = name')) as [->|Hne]; [left; rewrite lookup_insert_eq; by eexists|].
    rewrite lookup_insert_ne by done. destruct Hn as [?|(id & r & Hin)]; [by left|]. right.
    apply elem_of_cons in Hin as [[= ? ? ?]|Hin]; [done|eauto].
Qed.

Lemma id_of_named name t : name ≠ [] → id_of name t = t_by_name t !! name.
Proof. by destruct name. Qed.

Lemma listed_agrees t id name r :
  names_ok t → (id, name, r) ∈ table_list t → id_of name t = Some id.
Proof.
  intros Hn (x & Hx & <- & <- & _)%elem_of_table_list. pose proof (no_listed t Hn x Hx) as Hb.
  rewrite id_of_named; [done|]. intros He. rewrite He, (no_empty t Hn) in Hb. done.
Qed.

Lemma named_listed t id name : names_ok t → name ≠ [] → id_of name t = Some id → ∃ r, (id, name, r) ∈ table_list t.
Proof.
  intros Hn Hne. rewrite id_of_named by done. intros (x & Hx & <- & <-)%no_named; [|done].
  exists (regime_to_wire (tb_regime x)). apply elem_of_table_list. eauto.
Qed.

Lemma bootstrap_names_ok : names_ok Tables_bootstrap.
Proof.
  split; [|..|done|done].
  - intros x [->|?%elem_of_nil]%elem_of_cons; done.
  - intros name id. change (t_by_name Tables_bootstrap) with ({[DEFAULT_TABLE_NAME := DEFAULT_TABLE_ID]} : gmap bytes N).
    intros [<- <-]%lookup_singleton_Some. exists default_table. split_and!; [by left|done..].
Qed.

Lemma seeded_agrees t : names_ok t → agrees t seeded_tables.
Proof.
  intros Hn. split; [done|]. intros name id. unfold seeded_tables.
  destruct (decide (name = DEFAULT_TABLE_NAME)) as [->|]; [rewrite lookup_insert_eq|rewrite lookup_insert_ne by done].
  - intros [= <-]. by apply Hn.
  - destruct (decide (name = [])) as [->|]; [by rewrite lookup_insert_eq; intros [= <-]|].
    rewrite lookup_insert_ne by done. by rewrite lookup_empty.
Qed.

(** * The region table *)

Record regs_ok (r : RegionRegistry) : Prop := mkRegsOk {
  rg_wf : rs_wf (reg_state r);
  rg_ids : Forall (λ x, r_id x ≠ 0) (rs_regions (reg_state r));
  rg_next : rs_next_id (reg_state r) ≠ 0;
}.

Lemma split_regs_ok io k r : regs_ok r → regs_ok (split io k r).2.
Proof.
  intros [Hw Hi Hn]. split; [by apply split_wf|..];
    destruct (split_cases io k r Hw) as (l1 & t & l2 & E & Hc & [[_ ->]|[Hlt Hs]]); [done| |done|];
    cbn zeta in Hs; rewrite Hs; cbn [snd]; rewrite persist_state; cbn [rs_regions rs_next_id]; cbn; [|lia].
  rewrite E in Hi. apply Forall_app in Hi as [Hi1 Hi2%Forall_cons_1]. destruct Hi2 as [Ht Hi2].
  apply Forall_app. split; [done|]. by repeat constructor.
Qed.

Lemma merge_regs_ok io k r : regs_ok r → regs_ok (merge io k r).2.
Proof.
  intros [Hw Hi Hn]. split; [by apply merge_wf|..];
    destruct (merge_cases io k r Hw) as [[-> _]|[[_ ->]|(l1 & a & b & l2 & E & Hb & He & Hs)]]; try done;
    cbn zeta in Hs; rewrite Hs; cbn [snd]; rewrite persist_state; cbn [rs_regions rs_next_id]; cbn; [|done].
  rewrite E in Hi. apply Forall_app in Hi as [Hi1 Hi2%Forall_cons_1]. destruct Hi2 as [Ha Hi2%Forall_cons_1].
  destruct Hi2 as [_ Hi2]. apply Forall_app. split; [done|]. by constructor.
Qed.

Lemma in_memory_regs_ok : regs_ok in_memory.
Proof.
  split; [split| |done]; cbn.
  - done.
  - apply NoDup_singleton.
  - repeat constructor.
  - repeat constructor. done.
Qed.

(** * The node as the client's cluster *)

Section direct_node.
Context {E C : Type} `{EngineLaws E} `{ClockLaws C}.
Context (K : bytes → Prop) (HK : ∀ a b, K a → K b → a = b ∨ apart a b).
Context (fuel : nat) (peers_of : N → list Peer).
Abbreviation App := (AppState E C).
Implicit Types (s w : App) (h : History).

Definition node_handler {T} (r : Rpc T) : option (PM App T) :=
  match r with
  | RBegin => Some KvService.begin
  | RPrewrite r => Some (kv_prewrite r)
  | RCommit r => Some (kv_commit r)
  | RGet r => Some (kv_get fuel peers_of r)
  | RPut r => Some (kv_put r)
  | RDelete r => Some (kv_delete r)
  | RScan r => Some (kv_scan fuel r)
  | RListTables => Some kv_list_tables
  | RSplitRegion _ | RMergeRegion _ | RCreateTable _ _ => None
  end.

Definition wire {T} (x : Status + T) : TStatus + T := match x with inl s => inl (server_status s) | inr t => inr t end.

Definition unreachable : TStatus := mkTStatus true UnavailableCode "transport error".

(** Nothing that requests see has changed. *)
Record idle s s1 : Prop := mkIdle {
  id_engine : s_engine s1 = s_engine s;
  id_clock : s_clock s1 = s_clock s;
  id_regions : s_regions s1 = s_regions s;
  id_tables : s_tables s1 = s_tables s;
  id_raft : s_raft s1 = s_raft s;
  id_ap : s_ap s1 = s_ap s;
  id_flight : s_in_flight s1 = s_in_flight s;
  id_wall : wall_ok (s_wall s) → wall_ok (s_wall s1);
}.

(** The node's endpoint, and its tables and regions. *)
Context (addr : string) (Haddr : addr ≠ EmptyString) (s0 : App).

#[local] Instance node_network : Network App := {|
  net_moves := idle;
  net_answer T uri r w a w' :=
    if bool_decide (uri = addr) then
      ∃ p x, node_handler r = Some p ∧ may env_direct answers_direct p w x w' ∧ a = wire x
    else w' = w ∧ a = inl unreachable;
|}.

#[local] Instance node_network_laws : NetworkLaws App.
Proof. split; [by split|]. intros w1 w2 w3 [] []. split; (congruence || auto). Qed.

Definition cached (r : Region) : CachedRegion := mkCachedRegion (r_id r) (r_start r) (r_end r) (r_epoch r) addr.

#[local] Instance node_cluster : RoutedCluster App := {|
  rc_ok w := direct s0 w ∧ regs_ok (s_regions w);
  rc_owner w key := match route key (s_regions w) with Some r => cached r | None => mkCachedRegion 0 [] [] 0 addr end;
  rc_known x := cr_id x ≠ 0 ∧ cr_ok x ∧ cr_address x = addr;
|}.

Lemma idle_direct s s1 : idle s s1 → direct s0 s → direct s0 s1.
Proof. intros [] []. split; (congruence || auto). Qed.

Lemma direct_idle s s1 : direct s0 s → direct s0 s1 → s_engine s1 = s_engine s → s_clock s1 = s_clock s → idle s s1.
Proof. intros [] [] ? ?. split; (congruence || auto). Qed.

Lemma idle_node_at s s1 h k : idle s s1 → node_at K s0 s h k → node_at K s0 s1 h k.
Proof.
  intros Hi [Hd (lo & Hh & Hc)]. split; [by eapply idle_direct|]. exists lo. by rewrite (id_engine _ _ Hi), (id_clock _ _ Hi).
Qed.

Lemma route_owner w key : regs_ok (s_regions w) →
  ∃ r, route key (s_regions w) = Some r ∧ rc_owner w key = cached r ∧ r_contains r key = true ∧
    r ∈ rs_regions (reg_state (s_regions w)).
Proof.
  intros [Hw _ _]. destruct (route_total _ key Hw) as (l1 & x & l2 & E1 & Hr & Hc & _). exists x.
  split_and!; [done|cbn; by rewrite Hr|done|rewrite E1; apply elem_of_app; right; by left].
Qed.

Lemma tiled_nonempty lo l r : tiled lo l → r ∈ l → r_end r = [] ∨ bytes_lt (r_start r) (r_end r).
Proof.
  revert lo. induction l as [|x l IH]; intros lo Ht Hr; [by apply elem_of_nil in Hr|].
  apply elem_of_cons in Hr as [->|Hr].
  - destruct Ht as [<- Ht]. destruct l; [by left|]. right. by destruct Ht.
  - destruct l as [|y l]; [by apply elem_of_nil in Hr|]. apply tiled_cons in Ht as (_ & _ & Ht). by eapply IH.
Qed.

#[local] Instance node_cluster_laws : RoutedClusterLaws App.
Proof.
  split.
  - intros w key [_ Hr]. destruct (route_owner w key Hr) as (r & _ & -> & Hc & Hin).
    destruct Hr as [[Ht _ _] Hids _]. rewrite list.Forall_forall in Hids. split_and!; [by apply Hids| |done].
    by eapply tiled_nonempty.
  - intros w key [_ Hr]. by destruct (route_owner w key Hr) as (r & _ & -> & Hc & Hin).
  - intros w k k' [_ Hr] Hk. destruct (route_owner w k Hr) as (r & Hrt & Ho & Hc & Hin). rewrite Ho in *. cbn.
    rewrite (proj2 (route_iff _ k' r (rg_wf _ Hr))); [done|]. by split.
  - by intros r (_ & ? & _).
  - intros w w' Hi [Hd Hr]. split; [by eapply idle_direct|]. by rewrite (id_regions _ _ Hi).
  - intros w w' key Hi. cbn. by rewrite (id_regions _ _ Hi).
Qed.

(** The context check accepts the current route and no other. *)
Lemma context_current w key r :
  regs_ok (s_regions w) → route key (s_regions w) = Some r →
  check_context (Some (mkContext (r_id r) (r_epoch r))) key w = None.
Proof.
  intros [Hw Hids _] Hr. apply route_iff in Hr as [Hin Hc]; [|done]. unfold check_context. cbn.
  rewrite list.Forall_forall in Hids. destruct (N.eqb_spec (r_id r) 0) as [He|_]; [by destruct (Hids r Hin)|].
  unfold by_id. apply list_elem_of_split in Hin as (l1 & l2 & E1). rewrite E1.
  rewrite (find_unique _ l1 r l2), N.eqb_refl, Hc; [done|..|by rewrite N.eqb_refl].
  destruct Hw as [_ Hnd _]. rewrite E1, fmap_app, fmap_cons in Hnd. apply NoDup_app in Hnd as (_ & Hx & _).
  intros y Hy. apply N.eqb_neq. intros He. apply (Hx (r_id y)); [by apply list_elem_of_fmap_2|rewrite He; by left].
Qed.

Lemma context_stale w key x :
  regs_ok (s_regions w) → rc_known x → route_of addr x ≠ route_of addr (rc_owner w key) →
  ∃ e, check_context (Some (mkContext (cr_id x) (cr_epoch x))) key w = Some (KeRegionStale e).
Proof.
  intros Hr (Hid & _ & Ha) Hne. unfold check_context. cbn.
  destruct (N.eqb_spec (cr_id x) 0) as [?|_]; [done|]. unfold by_id.
  destruct (List.find _ _) as [r|] eqn:Hf; [|by eexists]. apply find_some in Hf as [Hin Hre].
  apply list_elem_of_In in Hin. apply N.eqb_eq in Hre.
  destruct ((r_epoch r =? cr_epoch x) && r_contains r key) eqn:Hb; [|by eexists].
  apply andb_true_iff in Hb as [He Hc]. apply N.eqb_eq in He. destruct Hne.
  cbn. rewrite (proj2 (route_iff _ key r (rg_wf _ Hr))); [|done]. unfold route_of, endpoint. cbn. by rewrite Ha, Hre, He.
Qed.

(** * Requests *)

Context (valid_uri : string → bool) (Hvalid : valid_uri addr = true).
Context (Hregs : regs_ok (s_regions s0)) (Hnames : names_ok (s_tables s0)).

Abbreviation wpn := (wp (env_routed addr (agrees (s_tables s0))) answers_routed).
Abbreviation client_ok := (routed_ok addr (agrees (s_tables s0))).

Lemma known_endpoint x : rc_known x → endpoint addr x = addr.
Proof. intros (_ & _ & Ha). unfold endpoint. by rewrite Ha, bool_decide_false. Qed.

Lemma known_valid x : rc_known x → valid_uri (endpoint addr x) = true.
Proof. intros Hx. by rewrite known_endpoint. Qed.

Lemma node_rc_ok w h k : node_at K s0 w h k → rc_ok w.
Proof. intros [Hd _]. split; [done|]. by rewrite (dr_regions _ _ Hd). Qed.

Lemma node_answer_at {T} x (r : Rpc T) p w a w' :
  rc_known x → node_handler r = Some p → net_answer (endpoint addr x) r w a w' →
  ∃ y, may env_direct answers_direct p w y w' ∧ a = wire y.
Proof.
  intros Hx Hp. cbn. rewrite known_endpoint, bool_decide_true by done. intros (p' & y & Hp' & Hm & ->).
  rewrite Hp in Hp'. injection Hp' as <-. eauto.
Qed.

(** The current route is accepted, and another refused, in any state of the call. *)
Lemma owner_accepted w key : direct s0 w → check_context (route_of addr (rc_owner w key)).1 key s0 = None.
Proof.
  intros Hd. rewrite <- (check_context_direct s0 _ _ w) by done.
  destruct (route_owner w key) as (r & Hr & -> & _); [by rewrite (dr_regions _ _ Hd)|].
  apply context_current; [by rewrite (dr_regions _ _ Hd)|done].
Qed.

Lemma other_refused w key x : direct s0 w → rc_known x → route_of addr x ≠ route_of addr (rc_owner w key) →
  ∃ e, check_context (route_of addr x).1 key s0 = Some (KeRegionStale e).
Proof.
  intros Hd Hx Hne. setoid_rewrite <- (check_context_direct s0 _ _ w); [|done].
  apply context_stale; [by rewrite (dr_regions _ _ Hd)|done|done].
Qed.

Section requests.
Context (w0 : App) (h : History) (k : N) (Hnode : node_at K s0 w0 h (k + 2)).
Context (table user_key key : bytes) (Hkey : stored_key table user_key s0 = inr key).

Lemma node_during w : idle w0 w → node_at K s0 w h (k + 2) ∧ direct s0 w.
Proof. intros Hi. pose proof (idle_node_at _ _ _ _ Hi Hnode) as Hn. split; [done|]. by destruct Hn. Qed.

Definition serves_write (value : Value) w (a : TStatus + WriteResponse) w' : Prop :=
  ∃ cts, a = inr (mkWriteResponse cts None) ∧ node_at K s0 w' ((key, cts, value) :: h) k ∧
    Forall (λ x : KvWrite, x.1.2 < cts) h.

Lemma write_answers value (request : option Context_ → Rpc WriteResponse) :
  (∀ ctx, node_handler (request ctx) = Some (kv_write table user_key value ctx)) →
  write_ok K s0 table user_key value →
  answers_call addr key request write_reply (serves_write value) w0.
Proof.
  intros Hreq Hok. split.
  - intros w a w' Hi Ha. destruct (node_during w Hi) as [Hn Hd].
    apply (node_answer_at _ _ _ _ _ _ (rc_owner_known w key (node_rc_ok _ _ _ Hn)) (Hreq _)) in Ha as (y & Hm & ->).
    assert (Hs : serves_write value w (wire y) w').
    { eapply (may_wp _ _ _ (λ y w', serves_write value w (wire y) w')); [exact Hm|]. apply (kv_write_ok K HK s0 w h k); [done|done|].
      intros s1 r h' Hs Hn1. unfold served_write in Hs. rewrite Hkey, owner_accepted in Hs by done.
      destruct Hs as (cts & -> & -> & Hf). by exists cts. }
    split; [done|]. destruct Hs as (cts & -> & Hn' & _). split; [by eapply node_rc_ok|].
    intros (t & ke & [= <-] & Hr & _). done.
  - intros x w a w' Hi Hx _ Hne Ha. destruct (node_during w Hi) as [_ Hd].
    apply (node_answer_at _ _ _ _ _ _ Hx (Hreq _)) in Ha as (y & Hm & ->).
    destruct (other_refused w key x Hd Hx Hne) as [e He].
    eapply (may_wp _ _ _ (λ y w', redirects write_reply (wire y) ∧ net_moves w w')); [exact Hm|].
    apply (kv_write_refused s0 w _ _ _ _ key (KeRegionStale e)); [done..|]. intros s1 Hd1 Ee Ec.
    split; [|by apply direct_idle]. by eexists _, _.
Qed.

Definition serves_get (read_ts : N) w (a : TStatus + GetResponse) w' : Prop :=
  ∃ ts, a = inr (found ts (spec_read h key ts)) ∧ reads_at read_ts h ts ∧ node_at K s0 w' h k.

Lemma get_answers read_ts :
  request_ok K s0 (RqGet (mkGet table user_key read_ts None)) →
  answers_call addr key (λ ctx, RGet (mkGet table user_key read_ts ctx)) get_reply (serves_get read_ts) w0.
Proof.
  intros Hok. assert (Hreq : ∀ ctx, node_handler (RGet (mkGet table user_key read_ts ctx)) = Some (kv_get fuel peers_of (mkGet table user_key read_ts ctx))) by done.
  split.
  - intros w a w' Hi Ha. destruct (node_during w Hi) as [Hn Hd].
    apply (node_answer_at _ _ _ _ _ _ (rc_owner_known w key (node_rc_ok _ _ _ Hn)) (Hreq _)) in Ha as (y & Hm & ->).
    assert (Hs : serves_get read_ts w (wire y) w').
    { eapply (may_wp _ _ _ (λ y w', serves_get read_ts w (wire y) w')); [exact Hm|]. apply (kv_get_ok K HK fuel peers_of s0 w h k).
      - by apply (node_at_less K s0 w h (k + 1) (k + 2)); [lia|].
      - done.
      - intros s1 r Hs Hn1. unfold served_get in Hs. cbn [gq_table gq_key gq_context] in Hs.
        rewrite Hkey, owner_accepted in Hs by done. destruct Hs as (ts & -> & Hts). by exists ts. }
    split; [done|]. destruct Hs as (ts & -> & _ & Hn'). split; [by eapply node_rc_ok|].
    intros (t & ke & [= <-] & Hr & _). by destruct (spec_read h key ts).
  - intros x w a w' Hi Hx _ Hne Ha. destruct (node_during w Hi) as [_ Hd].
    apply (node_answer_at _ _ _ _ _ _ Hx (Hreq _)) in Ha as (y & Hm & ->).
    destruct (other_refused w key x Hd Hx Hne) as [e He].
    eapply (may_wp _ _ _ (λ y w', redirects get_reply (wire y) ∧ net_moves w w')); [exact Hm|].
    apply (kv_get_refused fuel peers_of s0 w _ key (KeRegionStale e)); [done..|]. intros s1 Hd1 Ee Ec.
    split; [|by apply direct_idle]. by eexists _, _.
Qed.
End requests.

(** * Table names *)

Definition resolves (table : bytes) : ClientError + N :=
  match id_of table (s_tables s0) with Some id => inr id | None => inl (CeUnknownTable table) end.

Definition serves_list w (a : TStatus + list (N * bytes * N)) w' : Prop := a = inr (table_list (s_tables s0)) ∧ idle w w'.

Lemma list_served x w a w' :
  rc_ok w → rc_known x → net_answer (endpoint addr x) RListTables w a w' →
  serves_list w a w' ∧ rc_ok w' ∧ ¬ redirects (inr : _ → KeyError + _) a.
Proof.
  intros [Hd Hr] Hx Ha.
  apply (node_answer_at x RListTables kv_list_tables) in Ha as (y & (s1 & He & -> & ->) & ->); [|done|done].
  assert (Hi : idle w s1) by (destruct He as (wall & -> & Hw); by split).
  pose proof (idle_direct _ _ Hi Hd) as Hd1. cbn. unfold serves_list, table_list. rewrite (dr_tables _ _ Hd1).
  split; [done|split; [|by intros (t & ke & _ & Hk & _)]]. split; [done|]. by rewrite (id_regions _ _ Hi).
Qed.

Lemma on_any_list c w (Q : ClientError + list (N * bytes * N) → Client * App → Prop) :
  client_ok c → rc_ok w →
  (∀ s : Client * App, client_ok s.1 → idle w s.2 → Q (inr (table_list (s_tables s0))) s) →
  wpn (on_any_node valid_uri RListTables) Q (c, w).
Proof.
  intros Hc Hrc HQ. unfold on_any_node. rewrite wp_bind.
  eapply (wp_of_client addr (agrees (s_tables s0)) _ 1%nat false [] w); [by apply calling_start| |].
  { intros c1 [(r & [Hcl _] & _) _]. by rewrite Hcl. }
  intros [c1 w1] (Hc1 & [_ Hm1] & _). cbn [then_].
  eapply wp_mono; [|apply (attempts_any valid_uri addr (agrees (s_tables s0)) known_valid [] (λ _, RListTables) inr serves_list w1)].
  - intros res s [Hs (w2 & a & w3 & Hm2 & [-> Hm3] & Hm4 & ->)]. apply HQ; [done|].
    change (net_moves w s.2). eapply net_moves_trans; [exact Hm1|]. eapply net_moves_trans; [exact Hm2|]. by eapply net_moves_trans.
  - intros x w2 a w3 Hm2 Hx Ha. apply (list_served x); [|done|done].
    apply (rc_moves_ok w1); [done|]. by apply (rc_moves_ok w).
  - done.
  - by apply (rc_moves_ok w).
Qed.

Lemma table_id_ok table c w (Q : ClientError + N → Client * App → Prop) :
  client_ok c → rc_ok w →
  (∀ s : Client * App, client_ok s.1 → idle w s.2 → Q (resolves table) s) →
  wpn (Client.table_id valid_uri table) Q (c, w).
Proof.
  intros Hc Hrc HQ. unfold Client.table_id. rewrite wp_bind. apply wp_step. intros s1 He.
  assert (Hcall : calling addr (agrees (s_tables s0)) false [] w (c, w)) by (by apply calling_start).
  pose proof (calling_env _ _ _ _ _ _ _ Hcall He) as Hcall1. destruct s1 as [c1 w1]. cbn [fst snd then_].
  destruct (Hcall1) as (Hc1 & [_ Hm1] & _). cbn [fst snd] in Hc1, Hm1.
  destruct (c_tables c1 !! table) as [id|] eqn:El.
  { apply (HQ (c1, w1)) in Hm1; [|done]. unfold resolves in Hm1. destruct Hc1 as [_ [_ Hag]]. by rewrite (Hag _ _ El) in Hm1. }
  unfold list_tables. rewrite wp_bind, wp_bind.
  apply on_any_list; [done|by apply (rc_moves_ok w)|]. intros s2 Hc2 Hm2. cbn [then_ mret fallible_ret wp].
  rewrite wp_bind. apply wp_step. intros s3 He3. cbn [then_].
  assert (Hcall2 : calling addr (agrees (s_tables s0)) false [] w s2).
  { split; [done|split; [split; [done|by eapply net_moves_trans]|done]]. }
  pose proof (calling_env _ _ _ _ _ _ _ Hcall2 He3) as (Hc3 & [_ Hm3] & _).
  set (listed := (λ '(id, name, regime), (id, name, regime_of_wire regime)) <$> table_list (s_tables s0)).
  assert (Hlisted : ∀ id name r, (id, name, r) ∈ listed → id_of name (s_tables s0) = Some id).
  { intros id name r ([[id' name'] r'] & [= -> -> _] & Hin)%list_elem_of_fmap. by eapply listed_agrees. }
  destruct s3 as [c3 w3]. cbn [fst snd]. rewrite wp_bind. apply wp_step. intros s4 He4. cbn [then_].
  set (c3' := c3 <| c_tables := learn listed (c_tables c3) |>) in *.
  assert (Hcall3 : calling addr (agrees (s_tables s0)) false [] w (c3', w3)).
  { split; [|by split; [split|]]. destruct Hc3 as [Hr3 Hag3]. split; [done|]. by apply learn_agrees. }
  pose proof (calling_env _ _ _ _ _ _ _ Hcall3 He4) as (Hc4 & [_ Hm4] & _). destruct s4 as [c4 w4].
  destruct He4 as (_ & _ & Hsub & _). cbn [fst snd] in *.
  specialize (HQ (c4, w4) Hc4 Hm4). unfold resolves in HQ. destruct (c_tables c4 !! table) as [id|] eqn:El4.
  { destruct Hc4 as [_ [_ Hag]]. by rewrite (Hag _ _ El4) in HQ. }
  destruct (id_of table (s_tables s0)) as [id|] eqn:Ei; [|done]. exfalso.
  assert (Hk : is_Some (c_tables c3' !! table)).
  { apply learn_knows. destruct (decide (table = [])) as [->|Hne].
    - left. destruct Hc3 as [_ [Hd3 _]]. by rewrite Hd3.
    - right. destruct (named_listed _ _ _ Hnames Hne Ei) as [r Hin]. exists id, (regime_of_wire r).
      apply list_elem_of_fmap. by exists (id, table, r). }
  destruct Hk as [x Hx]. eapply lookup_weaken in Hx; [|exact Hsub]. congruence.
Qed.

(** * Calls *)

Inductive ClientCall :=
  | CcPut (table key value : bytes)
  | CcDelete (table key : bytes)
  | CcGet (table key : bytes) (read_ts : N).

Inductive ClientResult :=
  | CrWrite (r : ClientError + N)
  | CrGet (r : ClientError + option bytes).

Definition call (q : ClientCall) : Prog NetAnswer (Client * App) ClientResult :=
  match q with
  | CcPut table key value => prog_bind (Client.put valid_uri table key value) (λ r, Ret (CrWrite r))
  | CcDelete table key => prog_bind (Client.delete valid_uri table key) (λ r, Ret (CrWrite r))
  | CcGet table key read_ts => prog_bind (Client.get_at valid_uri table key read_ts) (λ r, Ret (CrGet r))
  end.

(** What the calls do to the multi-version map. *)
Definition writes (table user_key : bytes) (value : Value) h (r : ClientError + N) h' : Prop :=
  match id_of table (s_tables s0) with
  | None => r = inl (CeUnknownTable table) ∧ h' = h
  | Some id => ∃ cts, r = inr cts ∧ h' = (table_key id user_key, cts, value) :: h ∧ Forall (λ x : KvWrite, x.1.2 < cts) h
  end.

Definition called (q : ClientCall) h (x : ClientResult) h' : Prop :=
  match q, x with
  | CcPut table key value, CrWrite r => writes table key (VPut value) h r h'
  | CcDelete table key, CrWrite r => writes table key VDelete h r h'
  | CcGet table key read_ts, CrGet r => h' = h ∧
    match id_of table (s_tables s0) with
    | None => r = inl (CeUnknownTable table)
    | Some id => ∃ ts, r = inr (spec_read h (table_key id key) ts) ∧ reads_at read_ts h ts
    end
  | _, _ => False
  end.

Definition call_ok (q : ClientCall) : Prop :=
  match q with
  | CcPut table key value => write_ok K s0 table key (VPut value)
  | CcDelete table key => write_ok K s0 table key VDelete
  | CcGet table key read_ts => request_ok K s0 (RqGet (mkGet table key read_ts None))
  end.

Lemma resolves_stored table user_key id :
  id_of table (s_tables s0) = Some id → stored_key table user_key s0 = inr (client_stored_key id user_key).
Proof. intros Hid. unfold stored_key, KvService.table_id. by rewrite Hid. Qed.

(** A write, whose request is one of two. *)
Lemma write_call table user_key value (request : option Context_ → Rpc WriteResponse) c w h k
    (Q : ClientError + N → Client * App → Prop) :
  (∀ ctx, node_handler (request ctx) = Some (kv_write table user_key value ctx)) → write_ok K s0 table user_key value →
  client_ok c → node_at K s0 w h (k + 2) →
  (∀ r (s : Client * App) h', writes table user_key value h r h' → client_ok s.1 → node_at K s0 s.2 h' k → Q r s) →
  wpn (id ← Client.table_id valid_uri table;
       attempts valid_uri MAX_ROUTING_ATTEMPTS true false (client_stored_key id user_key) request write_reply) Q (c, w).
Proof.
  intros Hreq Hok Hc Hn HQ. rewrite wp_bind. apply table_id_ok; [done|by eapply node_rc_ok|].
  intros [c1 w1] Hc1 Hi. cbn [fst snd] in Hc1, Hi. pose proof (idle_node_at _ _ _ _ Hi Hn) as Hn1. unfold resolves.
  unfold writes in HQ. destruct (id_of table (s_tables s0)) as [id|] eqn:Ei; cbn [then_].
  2: { apply (HQ _ (c1, w1) h); [done|done|]. by apply (node_at_less _ _ _ _ k (k + 2)); [lia|]. }
  eapply wp_mono; [|apply (attempts_ok valid_uri addr (agrees (s_tables s0)) known_valid _ request write_reply
    (serves_write h k (client_stored_key id user_key) value) w1)].
  - intros res s [Hs (w2 & a & w3 & Hm2 & (cts & -> & Hn3 & Hf) & Hm4 & ->)].
    apply (HQ _ s ((client_stored_key id user_key, cts, value) :: h)); [by exists cts|done|by eapply idle_node_at].
  - by apply (write_answers w1 h k Hn1 table user_key _ (resolves_stored table user_key id Ei)).
  - done.
  - by eapply node_rc_ok.
Qed.

Lemma call_served q c w h k (Q : ClientResult → Client * App → Prop) :
  call_ok q → client_ok c → node_at K s0 w h (k + 2) →
  (∀ r (s : Client * App) h', called q h r h' → client_ok s.1 → node_at K s0 s.2 h' k → Q r s) →
  wpn (call q) Q (c, w).
Proof.
  intros Hok Hc Hn HQ. destruct q as [table key value|table key|table key ts]; cbn [call]; rewrite wp_prog_bind.
  - apply (write_call table key (VPut value) _ c w h k); [done..|]. intros r s h' Hw. by apply (HQ (CrWrite r)).
  - apply (write_call table key VDelete _ c w h k); [done..|]. intros r s h' Hw. by apply (HQ (CrWrite r)).
  - unfold get_at. rewrite wp_bind. apply table_id_ok; [done|by eapply node_rc_ok|].
    intros [c1 w1] Hc1 Hi. cbn [fst snd] in Hc1, Hi. pose proof (idle_node_at _ _ _ _ Hi Hn) as Hn1. unfold resolves.
    cbn [called] in HQ. destruct (id_of table (s_tables s0)) as [id|] eqn:Ei; cbn [then_].
    2: { apply (HQ (CrGet _) (c1, w1) h); [done|done|]. by apply (node_at_less _ _ _ _ k (k + 2)); [lia|]. }
    eapply wp_mono; [|apply (attempts_ok valid_uri addr (agrees (s_tables s0)) known_valid _ _ get_reply
      (serves_get h k (client_stored_key id key) ts) w1)].
    + intros res s [Hs (w2 & a & w3 & Hm2 & (t & -> & Hts & Hn3) & Hm4 & ->)].
      apply (HQ (CrGet _) s h); [|done|by eapply idle_node_at]. split; [done|]. exists t. split; [|done].
      change (table_key id key) with (client_stored_key id key). by destruct (spec_read h (client_stored_key id key) t).
    + by apply (get_answers w1 h k Hn1 table key _ (resolves_stored table key id Ei)).
    + done.
    + by eapply node_rc_ok.
Qed.
End direct_node.
