(* ===== verification/ClientTheorems.v ===== *)
(** The client library: correctness statements, runs at which they apply, and findings. *)

From stdpp Require Import base list numbers strings gmap.
From Stdlib Require Import Strings.Byte.
From S2P Require Import Prelude Crc Encoding Keys Batch OrdMap Memtable Db DbCorrect Engine EngineApi.
From S2P Require Import Mvcc MvccCorrect EngineTheorems Cursor PdRegion PdRegionCorrect PdTso PdCluster PdFsm Catalog Ap MemLock.
From S2P Require Import GroupActor Prog KvService KvDirect KvTheorems Grpc Client ClientCache ClientRouted ClientCluster.
From S2P Require Import ClientDirect.

(** * The routing cache *)

(** C16. The routing cache behaves as an unsorted list searched from its front: through any
    insertions of regions and invalidations of keys it stays sorted and free of overlaps, and
    its binary search gives for every key what the linear search of the list gives. *)
Theorem routing_cache_is_search (ops : list CacheOp) (key : bytes) :
  Forall op_ok ops →
  let c := fold_left (λ c op, cache_op op c) ops [] in
  cache_ok c ∧ cache_lookup key c = naive_lookup key (fold_left (λ c op, naive_op op c) ops []).
Proof.
  intros Hops c. destruct (cache_ops_ok ops Hops [] [] cache_nil_ok) as [Hc Heq]; [done|].
  split; [done|]. by apply naive_lookup_eq.
Qed.

Definition ex_region (id : N) (lo hi : bytes) (epoch : N) : CachedRegion := mkCachedRegion id lo hi epoch "http://n1".

Definition ex_ops : list CacheOp :=
  [OpInsert (ex_region 1 [] [x6d] 1); OpInsert (ex_region 2 [x6d] [] 1); OpInsert (ex_region 1 [] [x66] 2);
   OpInvalidate [x7a]; OpInsert (ex_region 3 [x66] [x6d] 2)].

Lemma routing_cache_is_search_witness :
  let c := fold_left (λ c op, cache_op op c) ex_ops [] in
  cache_ok c ∧ cache_lookup [x67] c = Some (ex_region 3 [x66] [x6d] 2) ∧ cache_lookup [x7a] c = None ∧
  cache_lookup [x67] c = naive_lookup [x67] (fold_left (λ c op, naive_op op c) ex_ops []).
Proof.
  assert (Hops : Forall op_ok ex_ops).
  { unfold ex_ops. repeat (apply Forall_cons; split); [..|done]; cbn; unfold cr_ok; (by left) || (right; vm_compute; reflexivity) || done. }
  destruct (routing_cache_is_search ex_ops [x67] Hops) as [Hc Hl].
  split; [exact Hc|]. split; [vm_compute; reflexivity|]. split; [vm_compute; reflexivity|]. exact Hl.
Defined.

(** * A client routed by PD *)

Section routed.
Context {E C : Type} `{EngineLaws E} `{ClockLaws C}.
Context (K : bytes → Prop) (HK : ∀ a b, K a → K b → a = b ∨ apart a b).
Context (fuel : nat) (peers_of : N → list Peer) (addr : string) (Haddr : addr ≠ EmptyString).
Context (valid_uri : string → bool) (Hvalid : valid_uri addr = true).
Abbreviation App := (AppState E C).

(** A client's state that fits the node's catalog; its cached regions may be long out of
    date. *)
Definition client_at (c : Client) (w : App) : Prop :=
  @routed_ok _ (node_network fuel peers_of addr) (node_cluster fuel peers_of addr w) addr (agrees (s_tables w)) c.

Lemma client_at_rebase c (w w' : App) : s_tables w' = s_tables w → client_at c w → client_at c w'.
Proof.
  intros Et [(r & Hr & [Hf Hc Hk Hp]) Ht]. split; [|by rewrite Et]. exists r. split; [exact Hr|]. by split.
Qed.

(** One execution of a call, while the client's clones run and the wall clock moves. *)
Definition may_call (q : ClientCall) (c : Client) (w : App) (r : ClientResult) (c' : Client) (w' : App) : Prop :=
  may (@env_routed _ (node_network fuel peers_of addr) (node_cluster fuel peers_of addr w) addr (agrees (s_tables w)))
      (@answers_routed _ (node_network fuel peers_of addr) (node_cluster fuel peers_of addr w))
      (call valid_uri q) (c, w) r (c', w').

(** Calls, between which the regions of the node split and merge and PD learns of it. *)
Inductive session : Client → App → list (ClientCall * ClientResult) → Client → App → Prop :=
  | session_done c w : session c w [] c w
  | session_call q r c w c1 w1 t c' w' :
      may_call q c w r c1 w1 → session c1 w1 t c' w' → session c w ((q, r) :: t) c' w'
  | session_split io k c w t c' w' :
      session c (w <| s_regions := (split io k (s_regions w)).2 |>) t c' w' → session c w t c' w'
  | session_merge io k c w t c' w' :
      session c (w <| s_regions := (merge io k (s_regions w)).2 |>) t c' w' → session c w t c' w'.

Inductive called_all (w : App) : History → list (ClientCall * ClientResult) → History → Prop :=
  | called_nil h : called_all w h [] h
  | called_cons q r h h1 t h2 : called w q h r h1 → called_all w h1 t h2 → called_all w h ((q, r) :: t) h2.

(** The invariant of a session that began at [w0]. *)
Record session_at (w0 : App) (c : Client) (w : App) (h : History) (k : N) : Prop := mkSessionAt {
  sa_client : client_at c w;
  sa_node : node_at K w w h k;
  sa_regs : regs_ok (s_regions w);
  sa_tables : s_tables w = s_tables w0;
}.

Lemma node_at_rebase (s0 s1 w : App) h k :
  s_tables s1 = s_tables w → s_regions s1 = s_regions w → node_at K s0 w h k → node_at K s1 w h k.
Proof. intros Et Er [[]]. split; [by split|done]. Qed.

Lemma session_regions w0 c w h k R :
  session_at w0 c w h k → regs_ok R → session_at w0 c (w <| s_regions := R |>) h k.
Proof.
  intros [Hc Hn _ Ht] HR. split; [by apply (client_at_rebase c w)| |done|done].
  destruct Hn as [[]]. split; [by split|done].
Qed.

Lemma called_rebase (s0 s1 : App) q h r h' : s_tables s1 = s_tables s0 → called s0 q h r h' → called s1 q h r h'.
Proof. intros Et. unfold called, writes. by rewrite Et. Qed.

Lemma call_ok_rebase (s0 s1 : App) q : s_tables s1 = s_tables s0 → call_ok K s0 q → call_ok K s1 q.
Proof. intros Et. unfold call_ok, write_ok, request_ok, stored_key, KvService.table_id. by rewrite Et. Qed.

Lemma session_call_ok w0 q c w h k r c1 w1 :
  names_ok (s_tables w0) → call_ok K w0 q → session_at w0 c w h (k + 2) → may_call q c w r c1 w1 →
  ∃ h', called w0 q h r h' ∧ session_at w0 c1 w1 h' k.
Proof.
  intros Hnames Hok [Hc Hn Hr Ht] Hm.
  apply (may_wp _ _ _ (λ r s, ∃ h', called w0 q h r h' ∧ session_at w0 s.1 s.2 h' k) _ _ _ Hm).
  eapply (call_served K HK fuel peers_of addr Haddr w valid_uri Hvalid Hr); [rewrite Ht; exact Hnames|exact (call_ok_rebase w0 w q Ht Hok)|exact Hc|exact Hn|].
  intros r1 [c2 w2] h' Hcd Hc2 Hn2. exists h'. cbn [fst snd] in *. destruct (Hn2) as [Hd2 _].
  pose proof (dr_tables _ _ Hd2) as Et2. pose proof (dr_regions _ _ Hd2) as Er2. split; [by apply (called_rebase w)|].
  split; [|by apply (node_at_rebase w)|by rewrite Er2|congruence].
  apply (client_at_rebase c2 w); [done|exact Hc2].
Qed.

Lemma session_served w0 c w t c' w' h :
  session c w t c' w' → names_ok (s_tables w0) → session_at w0 c w h (2 * N.of_nat (length t)) →
  Forall (λ x, call_ok K w0 x.1) t → ∃ h', called_all w0 h t h' ∧ session_at w0 c' w' h' 0.
Proof.
  intros Hs Hnames. revert h. induction Hs as [c w|q r c w c1 w1 t c' w' Hm Hs IH|io k c w t c' w' Hs IH|io k c w t c' w' Hs IH];
    intros h Hat Hok.
  - exists h. split; [constructor|done].
  - apply Forall_cons in Hok as [Hq Hok]. cbn [length fst] in *.
    replace (2 * N.of_nat (S (length t))) with (2 * N.of_nat (length t) + 2) in Hat by lia.
    destruct (session_call_ok w0 q c w h _ r c1 w1 Hnames Hq Hat Hm) as (h1 & Hc & Hat1).
    destruct (IH h1 Hat1 Hok) as (h' & Hcs & Hat'). exists h'. split; [by econstructor|done].
  - apply IH; [|done]. apply session_regions; [done|]. apply split_regs_ok, Hat.
  - apply IH; [|done]. apply session_regions; [done|]. apply merge_regs_ok, Hat.
Qed.

(** C8. A client that routes through PD works on the node's multi-version map, from the client
    library down to the engine's files: however stale its cached regions are, and however
    regions split and merge between the calls, every put and delete is applied exactly once
    with a timestamp above all earlier ones, every get returns the newest version at its
    timestamp, and an unknown table is reported as such. *)
Theorem routed_client_is_versioned_map c w t c' w' h :
  session c w t c' w' → session_at w c w h (2 * N.of_nat (length t)) → names_ok (s_tables w) →
  Forall (λ x, call_ok K w x.1) t →
  ∃ h', called_all w h t h' ∧ session_at w c' w' h' 0.
Proof.
  intros Hs Hat Hnames Hok. by apply (session_served w c w t c' w').
Qed.

(** ** Running a session *)

Definition node_oracle (n : NetCall) (s : Client * App) : option (Client * App * NetAnswer n) :=
  match n with
  | NetPd key => Some (s, inr (region_reply (match route key (s_regions s.2) with Some r => cached addr r | None => mkCachedRegion 0 [] [] 0 addr end)))
  | NetKv uri r =>
    if bool_decide (uri = addr) then
      match node_handler fuel peers_of r with
      | Some p => '(w', x) ← run timers p s.2; Some (s.1, w', wire x)
      | None => None
      end
    else Some (s, inl unreachable)
  end.

Inductive Event := EvCall (q : ClientCall) | EvSplit (k : bytes).

Fixpoint play (evs : list Event) (s : Client * App) : option (list (ClientCall * ClientResult) * (Client * App)) :=
  match evs with
  | [] => Some ([], s)
  | EvCall q :: evs =>
    '(s, r) ← run node_oracle (call valid_uri q) s;
    '(t, s) ← play evs s;
    Some ((q, r) :: t, s)
  | EvSplit k :: evs => play evs (s.1, s.2 <| s_regions := (split true k (s_regions s.2)).2 |>)
  end.

Lemma env_direct_refl (s : App) : env_direct s s.
Proof. exists (s_wall s). split; [by destruct s|done]. Qed.

Lemma node_oracle_answers (w0 : App) n s s' a :
  node_oracle n s = Some (s', a) →
  @answers_routed _ (node_network fuel peers_of addr) (node_cluster fuel peers_of addr w0) n s a s'.
Proof.
  destruct n as [key|uri T r]; cbn; [by intros [= <- <-]|]. case_bool_decide as Hu; [|by intros [= <- <-]].
  destruct (node_handler fuel peers_of r) as [p|]; [|done]. cbn.
  destruct (run timers p s.2) as [[w' x]|] eqn:Hr; [|done]. cbn. intros [= <- <-]. split; [done|].
  exists p, x. split; [done|]. split; [|done].
  eapply run_may; [apply env_direct_refl|apply timers_answer|exact Hr].
Qed.

Lemma env_routed_refl (w0 : App) s :
  @env_routed _ (node_network fuel peers_of addr) (node_cluster fuel peers_of addr w0) addr (agrees (s_tables w0)) s s.
Proof. split; [by split|]. split; [|done]. intros r Hr Hok. exists r. auto. Qed.

Lemma play_session evs c w t c' w' : play evs (c, w) = Some (t, (c', w')) → session c w t c' w'.
Proof.
  revert c w t. induction evs as [|[q|k] evs IH]; intros c w t; cbn [play].
  - intros [= <- <- <-]. constructor.
  - destruct (run node_oracle (call valid_uri q) (c, w)) as [[[c1 w1] r]|] eqn:Hr; [|done]. cbn.
    destruct (play evs (c1, w1)) as [[t1 [c2 w2]]|] eqn:Hp; [|done]. intros [= <- -> ->].
    econstructor; [|by apply IH]. eapply run_may; [apply env_routed_refl|apply node_oracle_answers|exact Hr].
  - cbn [fst snd]. intros Hp. eapply session_split. by apply IH.
Qed.
End routed.

Definition ex_addr : string := "http://127.0.0.1:50051".
Definition ex_client : Client := mkClient (Some (mkRouting [] ∅ (Some ex_addr))) None None seeded_tables.

(** The regions split between the calls: the route of the second put is stale. *)
Definition ex_events : list Event :=
  [EvCall (CcPut [] [x61] [x31]); EvSplit (table_key 0 [x62]); EvCall (CcPut [] [x62] [x32]);
   EvCall (CcGet [] [x61] 0); EvCall (CcDelete [] [x61]); EvCall (CcGet [] [x61] 0); EvCall (CcPut [x75] [x61] [x33])].

Definition ex_play := play 20 (λ _, []) ex_addr (λ _, true) ex_events (ex_client, kv_node).

Lemma ex_client_connects : connect_with_pd (λ _, true) ex_addr "http://pd" = inr ex_client.
Proof. reflexivity. Qed.

Lemma ex_session_at : session_at kv_K 20 (λ _, []) ex_addr kv_node ex_client kv_node [] 12.
Proof.
  split; [|apply kv_node_fresh; vm_compute; discriminate|apply in_memory_regs_ok|done].
  split; [|by apply seeded_agrees, bootstrap_names_ok]. eexists. split; [by split|].
  split; [done|apply cache_nil_ok|by intros x ?%elem_of_nil|]. intros a ch Hch. cbn in Hch. by rewrite lookup_empty in Hch.
Qed.

Definition ex_results : list (ClientCall * ClientResult) :=
  [(CcPut [] [x61] [x31], CrWrite (inr 1310721)); (CcPut [] [x62] [x32], CrWrite (inr 1310723));
   (CcGet [] [x61] 0, CrGet (inr (Some [x31]))); (CcDelete [] [x61], CrWrite (inr 1310726));
   (CcGet [] [x61] 0, CrGet (inr None)); (CcPut [x75] [x61] [x33], CrWrite (inl (CeUnknownTable [x75])))].

Lemma ex_results_ok : Forall (λ x, call_ok kv_K kv_node x.1) ex_results.
Proof.
  assert (Ha : kv_K (table_key 0 [x61])) by (by left). assert (Hb : kv_K (table_key 0 [x62])) by (by right).
  assert (Hget : call_ok kv_K kv_node (CcGet [] [x61] 0)).
  { split; [done|]. intros key Hk. vm_compute in Hk. injection Hk as <-. exact Ha. }
  unfold ex_results. repeat (apply Forall_cons; split); [..|done]; cbn [fst call_ok]; try exact Hget.
  1, 2, 3: by apply kv_put_ok.
  intros key Hk. vm_compute in Hk. discriminate.
Qed.

Lemma routed_client_is_versioned_map_witness :
  ∃ c' w' h', session 20 (λ _, []) ex_addr (λ _, true) ex_client kv_node ex_results c' w' ∧
    called_all kv_node [] ex_results h'.
Proof.
  destruct ex_play as [[t [c' w']]|] eqn:Er; [|vm_compute in Er; discriminate].
  assert (Ht : fst <$> ex_play = Some t) by (by rewrite Er). vm_compute in Ht. injection Ht as <-.
  apply play_session in Er as Hs. fold ex_results in Hs. exists c', w'.
  destruct (routed_client_is_versioned_map (C := LocalClock) kv_K kv_K_apart 20 (λ _, []) ex_addr (λ He, ltac:(discriminate He)) (λ _, true) eq_refl
    ex_client kv_node ex_results c' w' [] Hs ex_session_at bootstrap_names_ok ex_results_ok) as (h' & Hc & _).
  exists h'. split; [exact Hs|]. exact Hc.
Defined.

(** * A client of a static cluster *)

Section cluster.
Context (valid_uri : string → bool) {W : Type} `{NetworkLaws W}.

End cluster.

(** Three nodes: one down, one that follows, one that leads and keeps the written values. *)
Definition ex_endpoints : list string := ["http://n1"; "http://n2"; "http://n3"].

#[local] Instance ex_network : Network (list bytes) := {|
  net_moves := eq;
  net_answer T uri r w :=
    match r in Rpc T return TStatus + T → list bytes → Prop with
    | RPut q => λ a w',
      if bool_decide (uri = "http://n3") then a = inr (mkWriteResponse (N.of_nat (length w)) None) ∧ w' = pq_value q :: w
      else w' = w ∧ if bool_decide (uri = "http://n2") then a = inr (mkWriteResponse 0 (Some (KeNotLeader [])))
      else a = inl (mkTStatus true UnavailableCode "transport error")
    | _ => λ _ _, False
    end;
|}.

#[local] Instance ex_network_laws : NetworkLaws (list bytes).
Proof. split; [done|]. by intros w1 w2 w3 -> ->. Qed.

Definition ex_cluster : Client := mkClient None None (Some (mkClusterRouting ex_endpoints 0 ∅)) seeded_tables.


(** * Findings

    Behaviours of the client library outside the hypotheses of its theorems, evaluated: a
    routed client keeps the route to a node it cannot reach, and to a region whose epoch moved
    when it only scans; a put whose answer was late is sent again and applied twice. *)

Definition routed_to (x : CachedRegion) : Client :=
  mkClient (Some (mkRouting [x] ∅ (Some "http://n1"))) None None seeded_tables.

Definition cache_of (c : Client) : list CachedRegion := match c_routing c with Some r => rt_cache r | None => [] end.

(** The node [n1] is gone; PD names [n2], which answers. *)
Definition moved (n : NetCall) (s : Client * unit) : option (Client * unit * NetAnswer n) :=
  match n with
  | NetPd _ => Some (s, inr (mkRegionReply 1 [] [] 1 "http://n2"))
  | NetKv uri r =>
    match r in Rpc T return option (Client * unit * (TStatus + T)) with
    | RGet _ => Some (s, if bool_decide (uri = "http://n2") then inr (mkGetResponse true [x31] None 0) else inl unreachable)
    | _ => None
    end
  end.

Definition get_twice : Fallible NetAnswer ClientError (Client * unit) (option bytes) :=
  prog_bind (Client.get (λ _, true) [] [x61]) (λ _, Client.get (λ _, true) [] [x61]).

(** A routed client that cannot reach a node neither asks PD again nor drops the route: its
    next call fails the same way, where a client without the route succeeds. *)
Lemma dead_route_kept :
  run moved get_twice (routed_to (ex_region 1 [] [] 1), tt)
    = Some ((routed_to (ex_region 1 [] [] 1)) <| c_routing := Some (mkRouting [ex_region 1 [] [] 1] {[ "http://n1" := "http://n1" ]} (Some "http://n1")) |>,
            tt, inl (CeRpc unreachable)) ∧
  snd <$> run moved get_twice (routed_to (ex_region 7 [xff] [] 1), tt) = Some (inr (Some [x31])).
Proof. split; vm_compute; reflexivity. Qed.

Definition split_node := kv_node <| s_regions := (split true (table_key 0 [x62]) (s_regions kv_node)).2 |>.

Definition scan_twice := prog_bind (Client.scan (λ _, true) [] [] [] 0) (λ _, Client.scan (W := AppState (Core (gmap bytes MemValue)) LocalClock) (λ _, true) [] [] [] 0).

(** A routed client whose region was split cannot scan: the node's answer that the route is
    stale is returned, and the route stays; a get on a key of the region drops it. *)
Lemma stale_scan_never_rerouted :
  (λ x, (cache_of x.1.1, x.2)) <$> run (node_oracle 20 (λ _, []) "http://n1") scan_twice (routed_to (ex_region 1 [] [] 1), split_node)
    = Some ([ex_region 1 [] [] 1], inl (CeRpc (server_status (FailedPrecondition "region stale; re-resolve and rescan")))) ∧
  (λ x, (cr_epoch <$> cache_of x.1.1, x.2)) <$> run (node_oracle 20 (λ _, []) "http://n1") (Client.get (λ _, true) [] [x61]) (routed_to (ex_region 1 [] [] 1), split_node)
    = Some ([2], inr None).
Proof. split; vm_compute; reflexivity. Qed.

(** Both nodes apply a put when it reaches them; [n1] answers too late. *)
Definition late (n : NetCall) (s : Client * list bytes) : option (Client * list bytes * NetAnswer n) :=
  match n with
  | NetPd _ => None
  | NetKv uri r =>
    match r in Rpc T return option (Client * list bytes * (TStatus + T)) with
    | RPut q => Some (s.1, pq_value q :: s.2,
        if bool_decide (uri = "http://n1") then inl (mkTStatus false DeadlineExceededCode "")
        else inr (mkWriteResponse (N.of_nat (length s.2)) None))
    | _ => None
    end
  end.

(** A put that timed out after it was applied is applied again by the next node. *)
Lemma late_put_applied_twice :
  (λ x, (x.1.2, x.2)) <$> run late (Client.put (λ _, true) [] [x61] [x31]) (ex_cluster, [])
    = Some ([[x31]; [x31]], inr 1).
Proof. vm_compute. reflexivity. Qed.
