(* ===== verification/Upreplicate.v ===== *)
(** Growing and repairing a region's replica set: the membership changes that
    [server/src/upreplicate.rs] and [server/src/repair.rs] plan, and what they do to the
    voters.

    The driver of up-replication reads the group's voters and learners on each pass and
    proposes at most one change, which may be refused, or stay in doubt, and be tried again on
    a later pass; a change takes effect as [RaftNode.propose_conf_change] has it.  The supervisor's group and node handles are its inputs: the membership its leader
    publishes, the nodes it has handles and addresses for (in the order its maps give them)
    and the failure detector's verdicts. *)

From stdpp Require Import base list numbers sorting.
From Stdlib Require Import Strings.Byte.
From S2P Require Import Prelude RaftMessage RaftStorage RaftNode RaftRefine GroupActor.

(** * Up-replication *)

(** [desired.iter().copied().filter(..).collect()], sorted. *)
Definition missing_voters (voters desired : list N) : list N :=
  merge_sort N.le (List.filter (λ id, negb (contains voters id)) desired).

Definition next_step (voters learners desired : list N) (caught_up : N → bool) : option ConfChange :=
  next ← head (missing_voters voters desired);
  if negb (contains learners next) then Some (AddLearner next)
  else if caught_up next then Some (AddNode next)
  else None.

(** [under_replicated_note]: how many voters of how many, and who is missing; the text
    around them is left out. *)
Definition under_replicated_note (voters desired : list N) (target : nat) : option (nat * nat * list N) :=
  let want := Nat.max target (length desired) in
  if (want <=? length voters)%nat then None
  else Some (length voters, want, missing_voters voters desired).

(** The membership once a change is in the log. *)
Definition conf_after (c : list N * list N) (cc : ConfChange) : list N * list N :=
  let '(voters, learners) := apply_conf_change c.1 c.2 cc in (sort_dedup voters, sort_dedup learners).

(** A group as the driver meets it: its committed membership, and those that changes appended
    with an unknown outcome would make of it, each in the log of some node. *)
Record UpGroup := mkUpGroup { ug_conf : list N * list N; ug_doubt : list (list N * list N) }.

(** One pass of [drive_upreplication] over a region this node leads, with the result of its
    proposal.  A leader with a change in flight reads that change's membership too, but its
    proposal is refused; so is that of a node that leads no more. *)
Definition up_pass (desired : list N) (caught_up : N → bool) (result : ProposeResult) (g : UpGroup) : UpGroup :=
  match next_step (ug_conf g).1 (ug_conf g).2 desired caught_up with
  | Some cc =>
    match result with
    | Applied (Ok _) => mkUpGroup (conf_after (ug_conf g) cc) []
    | NotLeading _ => g
    | Applied (Err _) | Undetermined => mkUpGroup (ug_conf g) (ug_doubt g ++ [conf_after (ug_conf g) cc])
    end
  | None => g
  end.

(** A pass, or a change in doubt that a later leader commits: the others are then lost, since
    each is in a log that conflicts with it. *)
Inductive UpEvent :=
  | UpPass (caught_up : N → bool) (result : ProposeResult)
  | UpCommit (i : nat).

Definition up_event (desired : list N) (g : UpGroup) (e : UpEvent) : UpGroup :=
  match e with
  | UpPass caught_up result => up_pass desired caught_up result g
  | UpCommit i => match ug_doubt g !! i with Some c => mkUpGroup c [] | None => g end
  end.

(** * Repair *)

Record RepairPlan := mkRepairPlan { rp_dead : N; rp_spare : N }.

(** [Iterator::find]. *)
Definition find_id (p : N → bool) (l : list N) : option N := List.find p l.

(** [plan], from the membership [voters], [learners] that the region's leader publishes. *)
Definition plan (is_down : N → bool) (nodes addresses : list N) (target_rf : nat) (voters learners : list N) : option RepairPlan :=
  let live id := negb (is_down id) && contains nodes id in
  dead ← find_id is_down voters;
  spare ←
    match find_id live learners with
    | Some s => Some s
    | None =>
      match (if (target_rf <? length voters)%nat then find_id (λ v, negb (v =? dead) && live v) voters else None) with
      | Some s => Some s
      | None => find_id (λ id, negb (contains voters id) && negb (contains learners id) && live id) addresses
      end
    end;
  Some (mkRepairPlan dead spare).

(** The changes [repair] proposes, in order, each waiting for the one before; between the
    learner and its promotion it waits until the learner has caught up. *)
Definition repair_changes (p : RepairPlan) (c : list N * list N) : list ConfChange :=
  (if contains c.1 (rp_spare p) then []
   else (if contains c.2 (rp_spare p) then [] else [AddLearner (rp_spare p)]) ++ [AddNode (rp_spare p)])
  ++ [RemoveNode (rp_dead p)].

Definition repair (p : RepairPlan) (c : list N * list N) : list N * list N :=
  fold_left conf_after (repair_changes p c) c.

(** * Facts *)

Lemma contains_false l x : contains l x = false ↔ x ∉ l.
Proof. rewrite <- contains_spec. by destruct (contains l x). Qed.

Lemma elem_of_sort_dedup l x : x ∈ sort_dedup l ↔ x ∈ l.
Proof.
  unfold sort_dedup. destruct (dedup_sorted (merge_sort N.le l)) as [_ ->]; [apply StronglySorted_merge_sort; apply _|].
  by rewrite (merge_sort_Permutation N.le l).
Qed.

Lemma elem_of_filter_ne (l : list N) x y : y ∈ List.filter (λ l, negb (l =? x)) l ↔ y ∈ l ∧ y ≠ x.
Proof.
  rewrite !list_elem_of_In, filter_In. destruct (N.eqb_spec y x); cbn; split; intros [? ?]; done.
Qed.

Lemma elem_of_missing voters desired x : x ∈ missing_voters voters desired ↔ x ∈ desired ∧ x ∉ voters.
Proof.
  unfold missing_voters. rewrite (merge_sort_Permutation N.le), list_elem_of_In, filter_In, <- list_elem_of_In.
  rewrite <- contains_false. destruct (contains voters x); naive_solver.
Qed.

(** The membership that the change of a pass makes. *)
Definition pass_target (desired : list N) (c : list N * list N) (caught_up : N → bool) : list N * list N :=
  match next_step c.1 c.2 desired caught_up with Some cc => conf_after c cc | None => c end.

(** What a change does: nothing, or one change on a wanted node that is not a voter. *)
Inductive pass_effect (desired : list N) (c : list N * list N) (caught_up : N → bool) (c' : list N * list N) : Prop :=
  | pass_waits :
      c' = c → (∀ d, d ∈ desired → d ∈ c.1) ∨ (∃ d, d ∈ desired ∧ d ∉ c.1 ∧ d ∈ c.2 ∧ caught_up d = false) →
      pass_effect desired c caught_up c'
  | pass_learner d :
      d ∈ desired → d ∉ c.1 → d ∉ c.2 → (∀ x, x ∈ c'.1 ↔ x ∈ c.1) → (∀ x, x ∈ c'.2 ↔ x ∈ c.2 ∨ x = d) →
      pass_effect desired c caught_up c'
  | pass_voter d :
      d ∈ desired → d ∉ c.1 → d ∈ c.2 → caught_up d = true →
      (∀ x, x ∈ c'.1 ↔ x ∈ c.1 ∨ x = d) → (∀ x, x ∈ c'.2 ↔ x ∈ c.2 ∧ x ≠ d) → pass_effect desired c caught_up c'.

Lemma pass_target_effect desired c caught_up : pass_effect desired c caught_up (pass_target desired c caught_up).
Proof.
  unfold pass_target, next_step. pose proof (elem_of_missing c.1 desired) as Hm.
  destruct (missing_voters c.1 desired) as [|d rest]; cbn [head mbind option_bind].
  { apply pass_waits; [done|]. left. intros d Hd. destruct (decide (d ∈ c.1)); [done|]. exfalso.
    apply (not_elem_of_nil d), Hm. done. }
  destruct (proj1 (Hm d)) as [Hd Hv]; [left|]. destruct (contains c.2 d) eqn:El; cbn [negb].
  - apply contains_spec in El. destruct (caught_up d) eqn:Ec.
    2:{ apply pass_waits; [done|]. right. eauto. }
    apply (pass_voter _ _ _ _ d); [done|done|done|done|..]; unfold conf_after, apply_conf_change; cbn [fst snd].
    + rewrite (proj2 (contains_false _ _) Hv). intros x. cbn [fst].
      by rewrite elem_of_sort_dedup, elem_of_app, list_elem_of_singleton.
    + intros x. cbn [snd]. by rewrite elem_of_sort_dedup, elem_of_filter_ne.
  - apply contains_false in El. apply (pass_learner _ _ _ _ d); [done|done|done|..]; unfold conf_after, apply_conf_change;
      rewrite (proj2 (contains_false _ _) Hv), (proj2 (contains_false _ _) El); cbn [negb andb fst snd]; intros x.
    + apply elem_of_sort_dedup.
    + by rewrite elem_of_sort_dedup, elem_of_app, list_elem_of_singleton.
Qed.

(** The changes still to be made for one wanted node, and for all. *)
Definition to_do (c : list N * list N) (d : N) : nat :=
  if contains c.1 d then 0 else if contains c.2 d then 1 else 2.
Definition left_over (desired : list N) (c : list N * list N) : nat := sum_list (to_do c <$> desired).

Lemma to_do_cases c d :
  (d ∈ c.1 ∧ to_do c d = 0%nat) ∨ (d ∉ c.1 ∧ d ∈ c.2 ∧ to_do c d = 1%nat) ∨ (d ∉ c.1 ∧ d ∉ c.2 ∧ to_do c d = 2%nat).
Proof.
  unfold to_do. destruct (contains c.1 d) eqn:Ev; [apply contains_spec in Ev; auto|]. apply contains_false in Ev.
  destruct (contains c.2 d) eqn:El; [apply contains_spec in El|apply contains_false in El]; auto.
Qed.

Lemma to_do_step desired c caught_up x :
  (to_do (pass_target desired c caught_up) x ≤ to_do c x)%nat.
Proof.
  destruct (pass_target_effect desired c caught_up) as [-> _|d Hd Hv Hl Hv' Hl'|d Hd Hv Hl Hc Hv' Hl']; [lia|..];
    set (c' := pass_target desired c caught_up) in *;
    destruct (to_do_cases c x) as [(?&->)|[(?&?&->)|(?&?&->)]];
    destruct (to_do_cases c' x) as [(Hx&->)|[(Hx&Hy&->)|(Hx&Hy&->)]]; try lia; exfalso; rewrite ?Hv', ?Hl' in *;
    try tauto; destruct (decide (x = d)); subst; tauto.
Qed.

Lemma sum_list_le {A} (f g : A → nat) l : (∀ x, x ∈ l → f x ≤ g x)%nat → (sum_list (f <$> l) ≤ sum_list (g <$> l))%nat.
Proof.
  induction l as [|x l IH]; intros Hle; cbn; [lia|]. specialize (Hle x (list_elem_of_here _ _)) as Hx.
  assert (sum_list (f <$> l) ≤ sum_list (g <$> l))%nat by (apply IH; intros y Hy; apply Hle; by right). cbn in *. lia.
Qed.

Lemma sum_list_lt {A} (f g : A → nat) l d :
  (∀ x, x ∈ l → f x ≤ g x)%nat → d ∈ l → (f d < g d)%nat → (sum_list (f <$> l) < sum_list (g <$> l))%nat.
Proof.
  intros Hle Hin Hlt. apply list_elem_of_split in Hin as (l1 & l2 & ->).
  assert (Hs : ∀ h : A → nat, sum_list (h <$> l1 ++ d :: l2) = (sum_list (h <$> l1) + (h d + sum_list (h <$> l2)))%nat).
  { intros h. induction l1 as [|y l1 IH]; cbn; [done|]. assert (Hl : ∀ x, x ∈ l1 ++ d :: l2 → (f x ≤ g x)%nat)
      by (intros x Hx; apply Hle; by right). specialize (IH Hl). cbn in IH. lia. }
  rewrite !Hs.
  pose proof (sum_list_le f g l1 ltac:(intros x Hx; apply Hle, elem_of_app; by left)).
  pose proof (sum_list_le f g l2 ltac:(intros x Hx; apply Hle, elem_of_app; right; by right)). lia.
Qed.

(** A pass never undoes anything, and gets on when the learners have caught up. *)
Lemma left_over_pass desired c caught_up :
  (left_over desired (pass_target desired c caught_up) ≤ left_over desired c)%nat ∧
  (forallb caught_up desired = true → (∀ d, d ∈ desired → d ∈ c.1) ∨
    (left_over desired (pass_target desired c caught_up) < left_over desired c)%nat).
Proof.
  split; [apply sum_list_le; intros; apply to_do_step|]. intros Hc.
  assert (Hcu : ∀ d, d ∈ desired → caught_up d = true).
  { intros d Hd. by apply (proj1 (forallb_forall _ _) Hc), list_elem_of_In. }
  destruct (pass_target_effect desired c caught_up) as [Heq [Hall|(d & Hd & _ & _ & Hf)]|d Hd Hv Hl Hv' Hl'|d Hd Hv Hl Hcd Hv' Hl'].
  - by left.
  - by rewrite (Hcu d Hd) in Hf.
  - right. apply (sum_list_lt _ _ _ d); [intros; apply to_do_step|done|].
    set (c' := pass_target desired c caught_up) in *.
    destruct (to_do_cases c d) as [(?&_)|[(_&?&_)|(_&_&->)]]; [done|done|].
    destruct (to_do_cases c' d) as [(?&->)|[(_&_&->)|(_&Hn&_)]]; [lia|lia|]. exfalso. apply Hn, Hl'. by right.
  - right. apply (sum_list_lt _ _ _ d); [intros; apply to_do_step|done|].
    set (c' := pass_target desired c caught_up) in *.
    destruct (to_do_cases c d) as [(?&_)|[(_&_&->)|(_&?&_)]]; [done| |done].
    destruct (to_do_cases c' d) as [(_&->)|[(Hn&_&_)|(Hn&_)]]; [lia|..]; exfalso; apply Hn, Hv'; by right.
Qed.

Lemma left_over_bound desired c : (left_over desired c ≤ 2 * length desired)%nat.
Proof.
  unfold left_over. induction desired as [|d l IH]; cbn; [lia|].
  destruct (to_do_cases c d) as [(_&E)|[(_&_&E)|(_&_&E)]]; cbn in *; lia.
Qed.

Lemma voters_kept desired c caught_up x : x ∈ c.1 → x ∈ (pass_target desired c caught_up).1.
Proof.
  intros Hx. destruct (pass_target_effect desired c caught_up) as [-> _|d _ _ _ Hv' _|d _ _ _ _ Hv' _]; [done|..]; apply Hv'; auto.
Qed.

Lemma all_voters_left_over desired c : left_over desired c = 0%nat → ∀ d, d ∈ desired → d ∈ c.1.
Proof.
  intros Hz d Hd. destruct (to_do_cases c d) as [(?&_)|[(_&_&E)|(_&_&E)]]; [done|exfalso..];
    pose proof (sum_list_lt (λ _, 0%nat) (to_do c) desired d ltac:(cbn; intros; lia) Hd ltac:(cbn; lia)); unfold left_over in Hz; lia.
Qed.

(** A membership in doubt is that of a change of some pass. *)
Definition up_ok (desired : list N) (g : UpGroup) : Prop :=
  Forall (λ m, ∃ f, m = pass_target desired (ug_conf g) f) (ug_doubt g).

Lemma up_pass_cases desired f res g :
  up_pass desired f res g = g ∨
  up_pass desired f res g = mkUpGroup (pass_target desired (ug_conf g) f) [] ∨
  up_pass desired f res g = mkUpGroup (ug_conf g) (ug_doubt g ++ [pass_target desired (ug_conf g) f]).
Proof. unfold up_pass, pass_target. destruct (next_step _ _ _ _); [|by left]. destruct res as [[]| |]; auto. Qed.

(** What one event does to the committed membership. *)
Lemma up_event_conf desired g e :
  up_ok desired g →
  up_ok desired (up_event desired g e) ∧
  (ug_conf (up_event desired g e) = ug_conf g ∨ ∃ f, ug_conf (up_event desired g e) = pass_target desired (ug_conf g) f).
Proof.
  intros Hok. destruct e as [f res|i]; cbn [up_event].
  - destruct (up_pass_cases desired f res g) as [->|[->| ->]]; [by auto|split; [constructor|right; by exists f]|].
    split; [|by left]. apply Forall_app. split; [done|]. constructor; [by exists f|constructor].
  - destruct (ug_doubt g !! i) as [c|] eqn:Hi; [|by auto]. split; [constructor|]. right. exact (Forall_lookup_1 _ _ _ _ Hok Hi).
Qed.

(** The passes that found every wanted learner caught up and whose change was applied. *)
Definition done_pass (desired : list N) (e : UpEvent) : bool :=
  match e with UpPass f (Applied (Ok _)) => forallb f desired | _ => false end.

Lemma up_event_progress desired g e :
  up_ok desired g →
  (left_over desired (ug_conf (up_event desired g e)) ≤ left_over desired (ug_conf g) - (if done_pass desired e then 1 else 0))%nat ∨
  left_over desired (ug_conf (up_event desired g e)) = 0%nat.
Proof.
  intros Hok. destruct (done_pass desired e) eqn:Ed.
  - destruct e as [f [[[]|]| |]|]; cbn in Ed; try done. cbn [up_event].
    assert (E : ug_conf (up_pass desired f (Applied (Ok ())) g) = pass_target desired (ug_conf g) f)
      by (unfold up_pass, pass_target; by destruct (next_step _ _ _ _)).
    rewrite E. destruct (left_over_pass desired (ug_conf g) f) as [Hle Hprog]. destruct (Hprog Ed) as [Hall|Hlt]; [|left; lia].
    right. assert (Hz : left_over desired (ug_conf g) = 0%nat); [|lia].
    clear -Hall. unfold left_over. induction desired as [|d l IH]; [done|]. cbn.
    destruct (to_do_cases (ug_conf g) d) as [(_&E)|[(Hn&_)|(Hn&_)]]; [|exfalso; apply Hn, Hall; by left..].
    cbn in IH. rewrite E, IH; [done|]. intros x Hx. apply Hall. by right.
  - left. rewrite Nat.sub_0_r. destruct (up_event_conf desired g e Hok) as [_ [->|[f ->]]]; [done|].
    by apply left_over_pass.
Qed.

Lemma left_over_events desired evs g :
  up_ok desired g →
  up_ok desired (fold_left (up_event desired) evs g) ∧
  (left_over desired (ug_conf (fold_left (up_event desired) evs g)) ≤
     left_over desired (ug_conf g) - length (List.filter (done_pass desired) evs))%nat.
Proof.
  revert g. induction evs as [|e evs IH]; intros g Hok; cbn [fold_left]; [split; [done|cbn; lia]|].
  destruct (up_event_conf desired g e Hok) as [Hok1 _]. destruct (IH _ Hok1) as [Hok2 Hle]. split; [done|].
  destruct (up_event_progress desired g e Hok) as [Hp|Hp]; cbn [List.filter];
    destruct (done_pass desired e); cbn [length]; lia.
Qed.

(** A change makes at most one new voter: a wanted learner that has caught up. *)
Lemma pass_target_voter desired c f x :
  x ∈ (pass_target desired c f).1 → x ∉ c.1 →
  x ∈ desired ∧ x ∈ c.2 ∧ f x = true ∧ ∀ y, y ∈ (pass_target desired c f).1 → y ∉ c.1 → y = x.
Proof.
  intros Hx Hn. destruct (pass_target_effect desired c f) as [E _|d _ _ _ Hv' _|d Hd _ Hl Hc Hv' _].
  - by rewrite E in Hx.
  - by apply Hv' in Hx.
  - destruct (proj1 (Hv' x) Hx) as [?|Ex]; [done|]. rewrite Ex. split_and!; [done..|]. intros y Hy Hny. by destruct (proj1 (Hv' y) Hy).
Qed.

(** C34. Up-replication reaches the voters PD wants.  Over any passes of the driver, whatever
    becomes of their proposals (applied, refused, or in doubt and perhaps committed later), no
    committed voter is lost and none is added that is not wanted; the change a pass makes or
    leaves in doubt adds at most one voter, a wanted learner it found caught up; and once two
    passes per wanted node have found the learners caught up and had their change applied,
    every wanted node is a voter. *)
Theorem upreplication_converges desired evs (c : list N * list N) :
  let g := fold_left (up_event desired) evs (mkUpGroup c []) in
  (∀ x, x ∈ c.1 → x ∈ (ug_conf g).1) ∧ (∀ x, x ∈ (ug_conf g).1 → x ∈ c.1 ∨ x ∈ desired) ∧
  (∀ caught_up result m,
    m ∈ ug_conf (up_pass desired caught_up result g) :: ug_doubt (up_pass desired caught_up result g) →
    m ∈ ug_conf g :: ug_doubt g ∨
    ∀ x, x ∈ m.1 → x ∉ (ug_conf g).1 →
      x ∈ desired ∧ x ∈ (ug_conf g).2 ∧ caught_up x = true ∧ ∀ y, y ∈ m.1 → y ∉ (ug_conf g).1 → y = x) ∧
  ((2 * length desired ≤ length (List.filter (done_pass desired) evs))%nat → ∀ d, d ∈ desired → d ∈ (ug_conf g).1).
Proof.
  cbv zeta. assert (Hok : up_ok desired (mkUpGroup c [])) by constructor. split_and!.
  - change c with (ug_conf (mkUpGroup c [])) at 1. revert Hok. generalize (mkUpGroup c []) as g.
    induction evs as [|e evs IH]; intros g Hok x Hx; [done|]. cbn. destruct (up_event_conf desired g e Hok) as [Hok1 Hc].
    apply (IH _ Hok1). destruct Hc as [->|[f ->]]; [done|by apply voters_kept].
  - change c with (ug_conf (mkUpGroup c [])) at 2. revert Hok. generalize (mkUpGroup c []) as g.
    induction evs as [|e evs IH]; intros g Hok x Hx; [by left|]. cbn in Hx. destruct (up_event_conf desired g e Hok) as [Hok1 Hc].
    apply (IH _ Hok1) in Hx as [Hx|]; [|by right]. destruct Hc as [E|[f E]]; rewrite E in Hx; [by left|].
    destruct (decide (x ∈ (ug_conf g).1)); [by left|right]. by apply (pass_target_voter desired (ug_conf g) f).
  - intros f res m Hm. set (g := fold_left _ _ _) in *. pose proof (λ x, pass_target_voter desired (ug_conf g) f x) as Hpt.
    destruct (up_pass_cases desired f res g) as [E|[E|E]]; rewrite E in Hm; cbn [ug_conf ug_doubt] in Hm; [by left|..].
    + right. apply list_elem_of_singleton in Hm as ->. apply Hpt.
    + apply elem_of_cons in Hm as [->|[Hm|Hm]%elem_of_app]; [left; by left|left; by right|right].
      apply list_elem_of_singleton in Hm as ->. apply Hpt.
  - intros Hlt. destruct (left_over_events desired evs _ Hok) as [_ Hle]. apply all_voters_left_over.
    pose proof (left_over_bound desired c). cbn in *. lia.
Qed.

(** ** Repair *)

Lemma length_set_eq (l l' : list N) : NoDup l → NoDup l' → (∀ x, x ∈ l ↔ x ∈ l') → length l = length l'.
Proof. intros Hl Hl' He. by apply Permutation_length, NoDup_Permutation. Qed.

Lemma conf_after_voters c cc x :
  x ∈ (conf_after c cc).1 ↔
  match cc with AddNode d => x ∈ c.1 ∨ x = d | RemoveNode d => x ∈ c.1 ∧ x ≠ d | AddLearner _ => x ∈ c.1 end.
Proof.
  unfold conf_after. destruct cc as [d|d|d]; cbn [apply_conf_change fst snd].
  - rewrite elem_of_sort_dedup. destruct (contains c.1 d) eqn:Ed; [apply contains_spec in Ed; naive_solver|].
    by rewrite elem_of_app, list_elem_of_singleton.
  - by rewrite elem_of_sort_dedup, elem_of_filter_ne.
  - destruct (negb _ && _); cbn [fst]; apply elem_of_sort_dedup.
Qed.

Lemma find_id_some p l x : find_id p l = Some x → x ∈ l ∧ p x = true.
Proof. intros [Hin Hp]%List.find_some. by rewrite list_elem_of_In. Qed.

Lemma plan_sound is_down nodes addresses target voters learners p :
  plan is_down nodes addresses target voters learners = Some p →
  rp_dead p ∈ voters ∧ is_down (rp_dead p) = true ∧ is_down (rp_spare p) = false.
Proof.
  unfold plan. destruct (find_id is_down voters) as [dead|] eqn:Ed; [|done]. apply find_id_some in Ed as [Hdead Hdown].
  cbn [mbind option_bind].
  assert (Hl : ∀ s, negb (is_down s) && contains nodes s = true → is_down s = false).
  { intros s [Hs _]%andb_true_iff. by apply negb_true_iff. }
  destruct (find_id _ learners) as [s|] eqn:E1; [|destruct (if (_ <? _)%nat then _ else None) as [s|] eqn:E2].
  - apply find_id_some in E1 as [_ E1]. intros [= <-]. cbn. auto.
  - destruct (_ <? _)%nat; [|done]. apply find_id_some in E2 as [_ [_ E2]%andb_true_iff]. intros [= <-]. cbn. auto.
  - destruct (find_id _ addresses) as [s|] eqn:E3; [|done]. apply find_id_some in E3 as [_ [_ E3]%andb_true_iff].
    intros [= <-]. cbn. auto.
Qed.

Lemma repair_voters p voters learners x :
  rp_dead p ≠ rp_spare p →
  x ∈ (repair p (voters, learners)).1 ↔ (x ∈ voters ∧ x ≠ rp_dead p) ∨ x = rp_spare p.
Proof.
  intros Hne. unfold repair, repair_changes. rewrite fold_left_app. cbn [fold_left]. rewrite conf_after_voters. cbn [fst snd].
  destruct (contains voters (rp_spare p)) eqn:Ev; cbn [fold_left fst].
  { apply contains_spec in Ev. split; [by left|]. intros [?| ->]; [done|]. by split. }
  rewrite fold_left_app. cbn [fold_left]. rewrite conf_after_voters.
  destruct (contains learners (rp_spare p)); cbn [fold_left]; rewrite ?conf_after_voters; cbn [fst]; naive_solver.
Qed.

Lemma length_conf_voters c cc : NoDup (conf_after c cc).1.
Proof. unfold conf_after. destruct (apply_conf_change _ _ _). apply sort_dedup_NoDup. Qed.

Lemma length_remove (l : list N) x : NoDup l → x ∈ l → length (List.filter (λ v, negb (v =? x)) l) = (length l - 1)%nat.
Proof.
  intros Hnd Hin. apply list_elem_of_split in Hin as (l1 & l2 & ->). apply NoDup_app in Hnd as (_ & Hd & [Hx _]%NoDup_cons).
  assert (Hf : ∀ l : list N, x ∉ l → List.filter (λ v, negb (v =? x)) l = l).
  { intros l Hn. induction l as [|y l IH]; [done|]. apply not_elem_of_cons in Hn as [Hy Hn]. cbn.
    destruct (N.eqb_spec y x); [by subst|]. cbn. by rewrite IH. }
  rewrite List.filter_app, (Hf l1) by (intros Hi; by apply (Hd x Hi); left). cbn. rewrite N.eqb_refl. cbn. rewrite (Hf l2 Hx).
  rewrite !length_app. cbn. lia.
Qed.

(** A repair replaces a dead voter: the plan names a voter that is down and a spare that
    is not, and the changes, learner first, leave exactly the other voters and the spare; the
    number of voters is the same, or one less when the spare was already a voter beyond the
    target. *)
Lemma repair_replaces_dead is_down nodes addresses target voters learners p :
  plan is_down nodes addresses target voters learners = Some p → NoDup voters →
  let c' := repair p (voters, learners) in
  rp_dead p ∈ voters ∧ is_down (rp_dead p) = true ∧ is_down (rp_spare p) = false ∧
  (∀ x, x ∈ c'.1 ↔ (x ∈ voters ∧ x ≠ rp_dead p) ∨ x = rp_spare p) ∧
  length c'.1 = (if contains voters (rp_spare p) then length voters - 1 else length voters)%nat.
Proof.
  intros Hp Hnd c'. destruct (plan_sound _ _ _ _ _ _ _ Hp) as (Hdead & Hdown & Hup).
  assert (Hne : rp_dead p ≠ rp_spare p) by congruence.
  pose proof (repair_voters p voters learners) as Hv. split_and!; [done|done|done|by intros; apply Hv|].
  assert (Hnd' : NoDup c'.1).
  { unfold c', repair, repair_changes. rewrite fold_left_app. apply length_conf_voters. }
  set (others := List.filter (λ v, negb (v =? rp_dead p)) voters).
  assert (Ho : NoDup others) by (by apply NoDup_ListNoDup, List.NoDup_filter, NoDup_ListNoDup).
  destruct (contains voters (rp_spare p)) eqn:Es.
  - apply contains_spec in Es. rewrite <- (length_remove voters (rp_dead p)) by done. apply length_set_eq; [done|done|].
    intros x. unfold c'. rewrite (Hv x Hne), elem_of_filter_ne. naive_solver.
  - apply contains_false in Es. rewrite (length_set_eq c'.1 (rp_spare p :: others)); [|done|..].
    + cbn. unfold others. rewrite length_remove by done. destruct voters; [by apply not_elem_of_nil in Hdead|cbn; lia].
    + apply NoDup_cons. split; [|done]. unfold others. rewrite elem_of_filter_ne. naive_solver.
    + intros x. unfold c'. rewrite (Hv x Hne), elem_of_cons. unfold others. rewrite elem_of_filter_ne. tauto.
Qed.

(** * Concrete runs *)

(** Two nodes join a region founded by node 1: a first proposal is refused, one is in doubt and
    committed later, and node 3 is slow to catch up. *)
Definition joining_events : list UpEvent :=
  let slow (id : N) := negb (id =? 3) in
  [UpPass slow (NotLeading None); UpPass slow Undetermined; UpPass slow (NotLeading (Some 1)); UpCommit 0]
  ++ replicate 3 (UpPass slow (Applied (Ok ()))) ++ replicate 6 (UpPass (λ _, true) (Applied (Ok ()))).

Lemma upreplication_converges_witness :
  ug_conf (fold_left (up_event [1; 2; 3]) (take 5 joining_events) (mkUpGroup ([1], []) [])) = ([1; 2], []) ∧
  let g := fold_left (up_event [1; 2; 3]) joining_events (mkUpGroup ([1], []) []) in
  g = mkUpGroup ([1; 2; 3], []) [] ∧ ∀ d, d ∈ [1; 2; 3] → d ∈ (ug_conf g).1.
Proof.
  split; [vm_compute; reflexivity|]. split; [vm_compute; reflexivity|].
  apply (upreplication_converges [1; 2; 3] joining_events ([1], [])). vm_compute. lia.
Defined.

(** Node 2 is down and node 4 spare; the repair resumes after an interrupted learner. *)
Lemma repair_replaces_dead_witness :
  let p := mkRepairPlan 2 4 in
  plan (λ id, id =? 2) [1; 3; 4] [1; 2; 3; 4] 3 [1; 2; 3] [4] = Some p ∧
  (repair p ([1; 2; 3], [4])).1 = [1; 3; 4] ∧ length (repair p ([1; 2; 3], [4])).1 = 3%nat.
Proof.
  split; [reflexivity|]. split; [vm_compute; reflexivity|].
  apply (repair_replaces_dead (λ id, id =? 2) [1; 3; 4] [1; 2; 3; 4] 3 [1; 2; 3] [4] (mkRepairPlan 2 4)).
  - reflexivity.
  - apply (bool_decide_unpack _). vm_compute. reflexivity.
Defined.
