(* ===== verification/Repair.v ===== *)
(** The supervisor that repairs regions ([Supervisor] in [server/src/repair.rs]), as a program:
    it proposes a membership change to whichever node leads, again after a refusal or an
    unknown outcome, and waits for a new learner to catch up.

    Its state is what it works on: the failure detector, and per region the membership that is
    committed, the changes that were appended with an unknown outcome, the membership the
    leader of the moment publishes, and the learners that hold its whole log. *)

From stdpp Require Import base list numbers strings gmap.
From Stdlib Require Import Strings.Byte.
From S2P Require Import Prelude Prog RaftMessage RaftStorage RaftNode RaftRefine PdCluster GroupActor Upreplicate.

Record WatchedRegion := mkWatched { wr_region_id : N; wr_start : bytes; wr_end : bytes; wr_epoch : N; wr_target_rf : nat }.

(** A region's group as the supervisor meets it.  [rg_leader]: what the leader among the live
    nodes publishes, its voters, its learners and the peers that have caught up. *)
Record RegionView := mkRegionView {
  rg_conf : list N * list N;
  rg_pending : list ConfChange;
  rg_leader : option (list N * list N * list N);
}.

#[export] Instance eta_regionview : Eta RegionView := λ r, mkRegionView (rg_conf r) (rg_pending r) (rg_leader r).

(** A change proposed to the region's leader; a blank replica started on the spare, which the
    other live replicas are told of; the pause of 30 ms. *)
Inductive RepairCall := RcPropose (cc : ConfChange) | RcHost (spare : N) | RcPause.

Definition RepairAnswer (c : RepairCall) : Type :=
  match c with RcPropose _ => ProposeResult | RcHost _ => bool | RcPause => unit end.

Abbreviation RM := (Fallible RepairAnswer string RegionView).

Fixpoint conf_change_loop (attempts : nat) (cc : ConfChange) : RM unit :=
  match attempts with
  | O => k_fail "no leader accepted the change"
  | S attempts =>
    leader ← k_look rg_leader;
    match leader with
    | Some _ =>
      r ← p_await (RcPropose cc);
      match r with
      | Applied (Ok _) => mret tt
      | Applied (Err _) => k_fail "membership change failed to apply"
      | NotLeading _ | Undetermined => _ ← p_await RcPause; conf_change_loop attempts cc
      end
    | None => _ ← p_await RcPause; conf_change_loop attempts cc
    end
  end.

Definition conf_change (cc : ConfChange) : RM unit := conf_change_loop 400 cc.

Fixpoint await_caught_up (polls : nat) (spare : N) : RM unit :=
  match polls with
  | O => k_fail "the learner never caught up"
  | S polls =>
    ready ← k_look (λ r, match rg_leader r with Some (_, _, caught) => contains caught spare | None => false end);
    if ready : bool then mret tt else _ ← p_await RcPause; await_caught_up polls spare
  end.

(** [repair] once it has looked for the region's leader; [nodes] are those the supervisor has
    handles for. *)
Definition repair_from (nodes : list N) (p : RepairPlan) (leader : option (list N * list N * list N)) : RM unit :=
  match leader with
  | None => k_fail "the region has no live leader"
  | Some (voters, learners, _) =>
    _ ← (if contains voters (rp_spare p) then mret tt else
         _ ← (if contains learners (rp_spare p) then mret tt else
              if negb (contains nodes (rp_spare p)) then k_fail "no handle for the spare node" else
              hosted ← p_await (RcHost (rp_spare p));
              if hosted : bool then conf_change (AddLearner (rp_spare p)) else k_fail "the spare could not host the region");
         _ ← await_caught_up 600 (rp_spare p);
         conf_change (AddNode (rp_spare p)));
    conf_change (RemoveNode (rp_dead p))
  end.

Definition repair_region (nodes : list N) (p : RepairPlan) : RM unit :=
  leader ← k_look rg_leader;
  repair_from nodes p leader.

(** One region of a pass; a failed repair is left for the next. *)
Definition repair_pass (is_down : N → bool) (nodes addresses : list N) (region : WatchedRegion) : RM unit :=
  leader ← k_look rg_leader;
  match leader with
  | None => mret tt
  | Some (voters, learners, _) =>
    match plan is_down nodes addresses (wr_target_rf region) voters learners with
    | Some p => prog_bind (repair_region nodes p) (λ _, Ret (inr tt))
    | None => mret tt
    end
  end.

(** [tick]: the detector's sweep, and the pass that every watched region in turn is given, each
    on its own state. *)
Definition supervise (now timeout_ms : N) (members : Membership) (nodes addresses : list N)
    : Membership * (WatchedRegion → RM unit) :=
  let '(_, members) := sweep now timeout_ms members in
  (members, repair_pass (λ id, is_down id members) nodes addresses).

(** * What a repair does *)

Section repair.
Context (p : RepairPlan).
Abbreviation spare := (rp_spare p).
Abbreviation dead := (rp_dead p).

(** Changes of unknown outcome may be committed at any time, until a later change is: then
    they are before it in the log, or lost. *)
Definition commits (pending : list ConfChange) (c c' : list N * list N) : Prop :=
  ∃ done, done ⊆ pending ∧ c' = fold_left conf_after done c.

(** Leaders come and go, and publish what they have appended, committed or not; nobody else
    changes the membership. *)
Definition env_repair (r r' : RegionView) : Prop :=
  rg_pending r' = rg_pending r ∧ commits (rg_pending r) (rg_conf r) (rg_conf r').

(** If the leader publishes the spare as a voter, that is committed. *)
Definition promotion_committed (r : RegionView) : Prop :=
  ∀ voters learners caught, rg_leader r = Some (voters, learners, caught) → spare ∈ voters → spare ∈ (rg_conf r).1.

Definition answers_repair (c : RepairCall) (r : RegionView) : RepairAnswer c → RegionView → Prop :=
  match c with
  | RcPropose cc => λ a r',
    match a with
    | Applied (Ok _) => rg_pending r' = [] ∧ ∃ c1, commits (rg_pending r) (rg_conf r) c1 ∧ rg_conf r' = conf_after c1 cc
    | _ => rg_pending r' = rg_pending r ++ [cc] ∧ commits (rg_pending r ++ [cc]) (rg_conf r) (rg_conf r')
    end
  | RcHost _ | RcPause => λ _ r', env_repair r r'
  end.

Abbreviation wpr := (wp env_repair answers_repair).

(** The changes of a repair, and of the attempts before it. *)
Definition repairing (cc : ConfChange) : Prop := cc = AddLearner spare ∨ cc = AddNode spare ∨ cc = RemoveNode dead.

(** Only the spare and the dead voter are touched; [added]: the spare is a voter for good. *)
Record repair_inv (V : list N) (added : bool) (r : RegionView) : Prop := mkRepairInv {
  ri_pending : Forall repairing (rg_pending r);
  ri_others x : x ≠ spare → x ≠ dead → (x ∈ (rg_conf r).1 ↔ x ∈ V);
  ri_spare : added = true → spare ∈ (rg_conf r).1;
}.

Definition members_inv (V : list N) (added : bool) (c : list N * list N) : Prop :=
  (∀ x, x ≠ spare → x ≠ dead → (x ∈ c.1 ↔ x ∈ V)) ∧ (added = true → spare ∈ c.1).

Lemma repairing_inv V added cc c : dead ≠ spare → repairing cc → members_inv V added c → members_inv V added (conf_after c cc).
Proof.
  intros Hne Hcc [Ho Hs]. split.
  - intros x Hx Hd. rewrite conf_after_voters, <- (Ho x Hx Hd). destruct Hcc as [-> |[-> | ->]]; naive_solver.
  - intros Ha. rewrite conf_after_voters. specialize (Hs Ha). destruct Hcc as [-> |[-> | ->]]; naive_solver.
Qed.

Lemma commits_inv V added pending c c' :
  dead ≠ spare → Forall repairing pending → commits pending c c' → members_inv V added c → members_inv V added c'.
Proof.
  intros Hne Hp (l & Hl & ->). assert (Hall : Forall repairing l).
  { apply list.Forall_forall. intros cc Hin. exact (proj1 (list.Forall_forall _ _) Hp cc (Hl cc Hin)). }
  clear Hl. revert c. induction Hall as [|cc l Hcc Hall IH]; intros c Hc; [done|]. cbn. apply IH. by apply repairing_inv.
Qed.

Lemma env_inv V added r r' : dead ≠ spare → env_repair r r' → repair_inv V added r → repair_inv V added r'.
Proof.
  intros Hne (Hp & Hc) [H1 H2 H3].
  destruct (commits_inv V added _ _ _ Hne H1 Hc) as [Ho Hs]; [by split|]. split; [by rewrite Hp|done|done].
Qed.

Lemma wp_mret {A} (a : A) (Q : string + A → RegionView → Prop) r : Q (inr a) r → wpr (mret a : RM A) Q r.
Proof. done. Qed.

(** A change, proposed until it is known to be committed. *)
Lemma conf_change_ok V added n cc r (Q : string + unit → RegionView → Prop) :
  dead ≠ spare → repairing cc → repair_inv V added r →
  (∀ e r', repair_inv V added r' → Q (inl e) r') →
  (∀ r' c, members_inv V added c → rg_conf r' = conf_after c cc → rg_pending r' = [] → Q (inr tt) r') →
  wpr (conf_change_loop n cc) Q r.
Proof.
  intros Hne Hcc Hr Herr HQ. revert r Hr. induction n as [|n IH]; intros r Hr; cbn [conf_change_loop]; [by apply Herr|].
  rewrite wp_bind. apply wp_look. intros r1 H1. pose proof (env_inv _ _ _ _ Hne H1 Hr) as Hr1. cbn [then_].
  assert (Hpause : ∀ r2, repair_inv V added r2 → wpr (_ ← p_await RcPause; conf_change_loop n cc) Q r2).
  { intros r2 Hr2. rewrite wp_bind. intros r3 a r4 H3 H4. cbn [then_]. apply IH.
    eauto using env_inv. }
  destruct (rg_leader r1); [|by apply Hpause]. rewrite wp_bind. intros r2 a r3 H2 Ha.
  destruct (env_inv _ _ _ _ Hne H2 Hr1) as [Hp2 Ho2 Hs2]. cbn [then_].
  assert (Hretry : rg_pending r3 = rg_pending r2 ++ [cc] ∧ commits (rg_pending r2 ++ [cc]) (rg_conf r2) (rg_conf r3) → repair_inv V added r3).
  { intros [Hp3 Hc3]. assert (Hall : Forall repairing (rg_pending r2 ++ [cc])) by (apply Forall_app; split; [done|by constructor]).
    destruct (commits_inv V added _ _ _ Hne Hall Hc3) as [Ho Hs]; [by split|]. split; [by rewrite Hp3|done|done]. }
  destruct a as [[[]|e]|hint|]; cbn in Ha.
  - destruct Ha as (Hp3 & c1 & Hc1 & Hc3). apply (HQ r3 c1); [|done..]. by apply (commits_inv V added (rg_pending r2) (rg_conf r2)).
  - by apply Herr, Hretry.
  - by apply Hpause, Hretry.
  - by apply Hpause, Hretry.
Qed.

Lemma await_ok V added n r (Q : string + unit → RegionView → Prop) :
  dead ≠ spare → repair_inv V added r → (∀ e r', repair_inv V added r' → Q (inl e) r') →
  (∀ r', repair_inv V added r' → Q (inr tt) r') → wpr (await_caught_up n spare) Q r.
Proof.
  intros Hne Hr Herr HQ. revert r Hr. induction n as [|n IH]; intros r Hr; cbn [await_caught_up]; [by apply Herr|].
  rewrite wp_bind. apply wp_look. intros r1 H1. pose proof (env_inv _ _ _ _ Hne H1 Hr) as Hr1. cbn [then_].
  destruct (match rg_leader r1 with Some _ => _ | None => _ end); [by apply HQ|]. rewrite wp_bind. intros r2 a r3 H2 H3. cbn [then_].
  apply IH. eauto using env_inv.
Qed.

(** What a repair of a group with the voters [V] leaves; [added]: the spare is known to be in. *)
Definition repaired (V : list N) (added : bool) (res : string + unit) (r' : RegionView) : Prop :=
  (∀ x, x ≠ spare → x ≠ dead → (x ∈ (rg_conf r').1 ↔ x ∈ V)) ∧
  (res = inr tt → rg_pending r' = [] ∧ dead ∉ (rg_conf r').1 ∧ (added = true → spare ∈ (rg_conf r').1)).

Lemma failed_repaired V added added' e r' : repair_inv V added r' → repaired V added' (inl e) r'.
Proof. by intros [_ Ho _]. Qed.

(** Dropping the dead voter. *)
Lemma remove_ok V added r :
  dead ≠ spare → repair_inv V added r → wpr (conf_change (RemoveNode dead)) (repaired V added) r.
Proof.
  intros Hne Hr. apply (conf_change_ok V added); [done|by right; right|done|..].
  - intros e r' Hr'. by eapply failed_repaired.
  - intros r' c [Ho Hs] Hc Hp. unfold repaired. rewrite Hc. split.
    + intros x Hx Hd. rewrite conf_after_voters, <- (Ho x Hx Hd). naive_solver.
    + intros _. rewrite !conf_after_voters. naive_solver.
Qed.

(** Adding the spare: caught up, then promoted, then the dead voter dropped. *)
Lemma promote_ok V r :
  dead ≠ spare → repair_inv V false r →
  wpr (_ ← await_caught_up 600 spare; conf_change (AddNode spare))
    (then_ env_repair answers_repair (λ _, conf_change (RemoveNode dead)) (repaired V true)) r.
Proof.
  intros Hne Hr. rewrite wp_bind. apply (await_ok V false); [done|done|intros e r1 Hr1; by eapply failed_repaired|].
  intros r1 Hr1. cbn [then_]. unfold conf_change at 1.
  apply (conf_change_ok V false); [done|by right; left|done|intros e r2 Hr2; by eapply failed_repaired|].
  intros r2 c [Ho _] Hc Hp. cbn [then_]. apply remove_ok; [done|]. split; [by rewrite Hp|..]; rewrite Hc.
  - intros x Hx Hd. rewrite conf_after_voters, <- (Ho x Hx Hd). naive_solver.
  - intros _. rewrite conf_after_voters. by right.
Qed.

(** [added]: the leader does not publish the spare as a voter, or it is one. *)
Lemma repair_from_ok nodes V added r leader :
  dead ≠ spare → repair_inv V false r →
  (added = true → ∀ voters learners caught, leader = Some (voters, learners, caught) → spare ∈ voters → spare ∈ (rg_conf r).1) →
  wpr (repair_from nodes p leader) (repaired V added) r.
Proof.
  intros Hne Hr Hadd. assert (Herr : ∀ (e : string) r', repair_inv V false r' → repaired V added (inl e) r') by (intros; by eapply failed_repaired).
  assert (Hweak : ∀ res r', repaired V true res r' → repaired V added res r') by (intros res r' [H1 H2]; split; [done|]; naive_solver).
  destruct leader as [[[vs ls] caught]|]; cbn [repair_from]; [|by apply Herr].
  rewrite wp_bind. destruct (contains vs spare) eqn:Ev.
  { apply contains_spec in Ev. apply wp_mret. cbn [then_]. apply (remove_ok V added); [done|]. destruct Hr. split; [done|done|].
    intros Ha. by eapply Hadd. }
  assert (Hrest : ∀ r2, repair_inv V false r2 → wpr (_ ← await_caught_up 600 spare; conf_change (AddNode spare))
    (then_ env_repair answers_repair (λ _, conf_change (RemoveNode dead)) (repaired V added)) r2).
  { intros r2 Hr2. eapply wp_mono; [|by apply (promote_ok V)]. intros [e|[]] r3; [apply Hweak|]. cbn [then_]. by apply wp_mono. }
  rewrite wp_bind. destruct (contains ls spare); [apply wp_mret; cbn [then_]; by apply Hrest|].
  destruct (contains nodes spare); cbn [negb]; [|by apply Herr].
  rewrite wp_bind. intros r2 hosted r3 H2 H3. assert (Hr3 : repair_inv V false r3) by eauto using env_inv.
  cbn [then_]. destruct hosted; [|by apply Herr]. unfold conf_change at 1.
  apply (conf_change_ok V false); [done|by left|done|intros e r4 Hr4; by apply Herr|].
  intros r4 c [Ho Hs] Hc Hp. cbn [then_]. apply Hrest. split; [by rewrite Hp| |done]. rewrite Hc.
  intros x Hx Hd. rewrite conf_after_voters. by apply Ho.
Qed.
End repair.

#[local] Opaque conf_change_loop await_caught_up.


(** * Runs *)

(** Node 2 of the voters 1, 2 and 3 is down and node 4 is the spare; every proposal is
    committed at once, and the leader publishes what is committed. *)
Definition committing (c : RepairCall) (r : RegionView) : option (RegionView * RepairAnswer c) :=
  match c with
  | RcPropose cc =>
    let conf := conf_after (rg_conf r) cc in
    Some (mkRegionView conf [] (Some (conf.1, conf.2, [1; 3; 4])), Applied (Ok tt))
  | RcHost _ => Some (r, true)
  | RcPause => Some (r, tt)
  end.

Definition dead_2_spare_4 : RepairPlan := mkRepairPlan 2 4.
Definition degraded : RegionView := mkRegionView ([1; 2; 3], []) [] (Some ([1; 2; 3], [], [1; 3])).


(** An earlier attempt promoted node 4, and the leader publishes it as a voter, but the change
    was never committed and the next leader does not have it: the plan takes the promotion for
    done, the repair drops the dead voter and reports success, and the group is left with two
    voters.  None of them being down, no later pass repairs it. *)
Lemma lost_promotion_shrinks_group :
  let r := mkRegionView ([1; 2; 3], [4]) [AddNode 4] (Some ([1; 2; 3; 4], [], [1; 3; 4])) in
  plan (λ id, id =? 2) [1; 3; 4] [1; 2; 3; 4] 3 [1; 2; 3; 4] [] = Some (mkRepairPlan 2 1) ∧
  (λ q, (q.2, rg_conf q.1)) <$> run committing (repair_region [1; 3; 4] (mkRepairPlan 2 1)) r = Some (inr tt, ([1; 3], [4])) ∧
  plan (λ id, id =? 2) [1; 3; 4] [1; 2; 3; 4] 3 [1; 3] [4] = None.
Proof. split_and!; vm_compute; reflexivity. Qed.
