(* ===== verification/PdService.v ===== *)
(** The placement driver's wire forms ([pd/src/convert.rs]), its requests, and its service
    ([pd/src/raft_server.rs], [pd/src/service.rs]). *)

From stdpp Require Import base list numbers strings gmap.
From Stdlib Require Import Strings.Byte.
From S2P Require Import Prelude Encoding PdRegion PdCluster Prog Grpc Cursor PdTso PdFsm RaftMessage RaftNode.

(** [pd::Region]; a regime is [0] (CP) or [1] (AP) on the wire. *)
Record PbRegion := mkPbRegion {
  pb_id : N;
  pb_start_key : bytes;
  pb_end_key : bytes;
  pb_epoch : N;
  pb_node_id : N;
  pb_address : bytes;
  pb_regime : N;
  pb_voters : list N;
  pb_desired : list N;
}.

Record PbTable := mkPbTable { pt_name : bytes; pt_regime : N; pt_id : N }.
Record PbNodeAddr := mkPbNodeAddr { pa_node_id : N; pa_address : bytes }.

Definition regime_to_proto (r : Regime) : N := match r with Cp => 0 | Ap => 1 end.
Definition regime_from_proto (n : N) : Regime := if n =? 1 then Ap else Cp.

Definition from_proto (r : PbRegion) : Region := mkRegion (pb_id r) (pb_start_key r) (pb_end_key r) (pb_epoch r).

Definition to_proto (r : Region) : PbRegion :=
  mkPbRegion (r_id r) (r_start r) (r_end r) (r_epoch r) 0 [] (regime_to_proto Cp) [] [].

Definition replica_set_to_proto (rs : ReplicaSet) : PbRegion :=
  mkPbRegion (r_id (rp_region rs)) (r_start (rp_region rs)) (r_end (rp_region rs)) (r_epoch (rp_region rs))
    0 [] (regime_to_proto (rp_regime rs)) (rp_voters rs) (rp_desired rs).

Definition replica_set_from_proto (r : PbRegion) : ReplicaSet :=
  mkReplicaSet (from_proto r) (regime_from_proto (pb_regime r)) (pb_voters r) (pb_desired r).

Definition table_to_proto (t : Table) : PbTable := mkPbTable (tb_name t) (regime_to_proto (tb_regime t)) (tb_id t).
Definition table_from_proto (t : PbTable) : Table := mkTable (pt_id t) (pt_name t) (regime_from_proto (pt_regime t)).

Definition node_addr_to_proto (node_id : N) (address : bytes) : PbNodeAddr := mkPbNodeAddr node_id address.

Definition placed_to_proto (p : PlacedRegion) : PbRegion :=
  mkPbRegion (r_id (pl_region p)) (r_start (pl_region p)) (r_end (pl_region p)) (r_epoch (pl_region p))
    (pl_node_id p) (pl_address p) (regime_to_proto (pl_regime p)) (pl_voters p) [].

(** A table that two nodes declared differently, in memory and on the wire. *)
Record TableConflict := mkTableConflict {
  tc_name : bytes; tc_regime : Regime; tc_node_id : N; tc_other_regime : Regime; tc_other_node_id : N;
}.
Record PbTableConflict := mkPbTableConflict {
  pc_name : bytes; pc_regime : N; pc_node_id : N; pc_other_regime : N; pc_other_node_id : N;
}.

Record ListTablesResponse := mkListTablesResponse { lt_tables : list PbTable; lt_conflicts : list PbTableConflict }.

Definition list_tables_response (tables : list Table) (conflicts : list TableConflict) : ListTablesResponse :=
  mkListTablesResponse (table_to_proto <$> tables)
    ((λ c, mkPbTableConflict (tc_name c) (regime_to_proto (tc_regime c)) (tc_node_id c)
             (regime_to_proto (tc_other_regime c)) (tc_other_node_id c)) <$> conflicts).

Lemma regime_roundtrip r : regime_from_proto (regime_to_proto r) = r.
Proof. by destruct r. Qed.

Lemma replica_set_roundtrip rs : replica_set_from_proto (replica_set_to_proto rs) = rs.
Proof. destruct rs as [[] r]. unfold replica_set_from_proto. cbn. by rewrite regime_roundtrip. Qed.

Lemma table_roundtrip t : table_from_proto (table_to_proto t) = t.
Proof. destruct t. unfold table_from_proto. cbn. by rewrite regime_roundtrip. Qed.

(** * Requests and responses *)

Record GetRegionResponse := mkGetRegionResponse {
  gp_region_id : N; gp_start_key : bytes; gp_end_key : bytes; gp_epoch : N; gp_node_id : N; gp_address : bytes;
}.

(** The nodes declare no tables of their own: [tables] is always empty. *)
Record HeartbeatRequest := mkHeartbeatRequest {
  hq_node_id : N; hq_regions : list PbRegion; hq_address : bytes; hq_store_id : bytes;
}.

Record HeartbeatResponse := mkHeartbeatResponse {
  hp_regions : list PbRegion;
  hp_catalog_version : N;
  hp_tables : list PbTable;
  hp_nodes : list PbNodeAddr;
  hp_replicas : N;
}.

Record CreateTableResponse := mkCreateTableResponse { ct_region : option PbRegion; ct_catalog_version : N; ct_table_id : N }.

(** The requests of [PdService], by the type of their response. *)
Inductive PdRpc : Type → Type :=
  | PGetTimestamp (count : N) : PdRpc (N * N)
  | PGetRegion (key : bytes) : PdRpc GetRegionResponse
  | PHeartbeat (r : HeartbeatRequest) : PdRpc HeartbeatResponse
  | PCreateTable (name : bytes) (regime : N) : PdRpc CreateTableResponse
  | PListTables : PdRpc ListTablesResponse
  | PListRegions : PdRpc (list PbRegion).

(** * The service

    The placement driver's service: over the Raft group of a replicated PD
    ([pd/src/raft_server.rs], and the handle of [pd/src/raft_group.rs]) and in one process
    ([pd/src/service.rs]).

    A handler is a program ([Prog]) that looks at the shared state machine, which the actor
    keeps applying entries to meanwhile, and awaits answers of the actor and of data nodes.
    Error messages have no interpolated values, but for the leader's address. *)

(** What the service asks of the group's actor, and of the nodes it tells to reconcile. *)
Inductive PdCall :=
  | PcAllocTs (count : N)
  | PcHeartbeat (node_id : N) (address : bytes) (regions : list ReplicaSet) (now : N) (store_id : bytes)
  | PcDeclareTable (name : bytes) (regime : Regime)
  | PcReconcile (address : bytes).

(** The actor's answers, [None] when it does not lead, and the version a node has applied,
    [None] when it cannot be reached. *)
Definition PdAnswer (c : PdCall) : Type :=
  match c with
  | PcAllocTs _ => option (N * N)
  | PcHeartbeat _ _ _ _ _ => option (list ReplicaSet)
  | PcDeclareTable _ _ => option (N * ReplicaSet * N)
  | PcReconcile _ => option N
  end.

(** [PdGroup]: the state machine, what the actor last published, and the voters' addresses. *)
Record PdGroup := mkPdGroup {
  pg_fsm : PdFsm;
  pg_role : Role;
  pg_leader_id : option N;
  pg_addrs : gmap N string;
  pg_wall : N;
}.

#[export] Instance eta_pdgroup : Eta PdGroup := λ g,
  mkPdGroup (pg_fsm g) (pg_role g) (pg_leader_id g) (pg_addrs g) (pg_wall g).

Definition pg_is_leader (g : PdGroup) : bool := bool_decide (pg_role g = Leader).
Definition leader_addr (g : PdGroup) : option string := id ← pg_leader_id g; pg_addrs g !! id.

Abbreviation PdM := (Fallible PdAnswer TStatus PdGroup).

Definition NOT_LEADER_AT : string := "not pd leader; leader at ".

(** [ReplicatedPdApi::redirect]. *)
Definition redirect_status (leader : option string) : TStatus :=
  match leader with
  | Some addr => mkTStatus false UnavailableCode (NOT_LEADER_AT +:+ addr)
  | None => mkTStatus false UnavailableCode "not pd leader; no leader elected yet"
  end.

Definition pd_redirect {A} : PdM A :=
  leader ← k_look leader_addr;
  k_fail (redirect_status leader).

Definition identity_conflict : TStatus :=
  mkTStatus false AlreadyExistsCode "node id already belongs to another data directory".

Definition if_leading {A} (body : PdM A) : PdM A :=
  leads ← k_look pg_is_leader;
  if leads : bool then body else pd_redirect.

(** [count] is a 32-bit integer on the wire. *)
Definition get_timestamp (count : N) : PdM (N * N) :=
  r ← p_await (PcAllocTs (N.max count 1));
  match r with
  | Some (first, n) => mret (first, as_u32 n)
  | None => pd_redirect
  end.

Definition placed_response (p : PlacedRegion) : GetRegionResponse :=
  mkGetRegionResponse (r_id (pl_region p)) (r_start (pl_region p)) (r_end (pl_region p)) (r_epoch (pl_region p))
    (pl_node_id p) (pl_address p).

Definition no_live_region : TStatus := mkTStatus false NotFoundCode "no live region covers the key".

Definition get_region (key : bytes) : PdM GetRegionResponse :=
  if_leading (
    p ← k_look (λ g, mb_route key (f_members (pg_fsm g)));
    match p with
    | Some p => mret (placed_response p)
    | None => k_fail no_live_region
    end).

(** The parts of the response are read from the state machine one after the other. *)
Definition heartbeat_response (assigned : list ReplicaSet) : PdM HeartbeatResponse :=
  version ← k_look (λ g, f_version (pg_fsm g));
  tables ← k_look (λ g, catalog (pg_fsm g));
  nodes ← k_look (λ g, node_addrs (f_members (pg_fsm g)));
  replicas ← k_look (λ g, f_replicas (pg_fsm g));
  mret (mkHeartbeatResponse (replica_set_to_proto <$> assigned) version (table_to_proto <$> tables)
    ((λ p, node_addr_to_proto p.1 p.2) <$> nodes) (as_u32 (N.of_nat replicas))).

Definition pd_heartbeat (req : HeartbeatRequest) : PdM HeartbeatResponse :=
  let conflict := λ g, store_conflict (hq_node_id req) (hq_store_id req) (pg_fsm g) in
  bound ← k_look conflict;
  match bound with
  | Some _ => k_fail identity_conflict
  | None =>
    let reported := replica_set_from_proto <$> hq_regions req in
    now ← k_look pg_wall;
    r ← p_await (PcHeartbeat (hq_node_id req) (hq_address req) reported now (hq_store_id req));
    match r with
    | None => pd_redirect
    | Some assigned =>
      bound ← k_look conflict;
      match bound with
      | Some _ => k_fail identity_conflict
      | None => heartbeat_response assigned
      end
    end
  end.

Definition pd_list_tables : PdM ListTablesResponse :=
  if_leading (tables ← k_look (λ g, catalog (pg_fsm g)); mret (list_tables_response tables [])).

Definition pd_list_regions : PdM (list PbRegion) :=
  if_leading (regions ← k_look (λ g, mb_list (f_members (pg_fsm g))); mret (placed_to_proto <$> regions)).

(** The calls of [push_reconcile] run concurrently and are awaited in the order of the node
    ids. *)
Fixpoint push_all (version : N) (nodes : list (N * bytes)) : PdM (list N) :=
  match nodes with
  | [] => mret []
  | (id, addr) :: nodes =>
    applied ← p_await (PcReconcile addr);
    confirmed ← push_all version nodes;
    mret (match applied with Some v => if version <=? v then id :: confirmed else confirmed | None => confirmed end)
  end.

Definition push_reconcile (version : N) : PdM (list N) :=
  placed ← k_look (λ g, mb_list (f_members (pg_fsm g)));
  push_all version (fold_left (λ m p, bt_insert (pl_node_id p) (pl_address p) m) placed []).

Definition reserved_name (name : bytes) : bool := is_empty name || bool_decide (name = DEFAULT_TABLE_NAME).

Definition name_reserved : TStatus := mkTStatus false InvalidArgumentCode "create_table: the name is reserved".
Definition table_exists : TStatus := mkTStatus false AlreadyExistsCode "table already exists".
Definition too_few_voters : TStatus := mkTStatus false UnavailableCode "create_table: too few voters hosted the region".

Definition pd_create_table (name : bytes) (regime : N) : PdM CreateTableResponse :=
  if_leading (
    if reserved_name name then k_fail name_reserved else
    let regime := regime_from_proto regime in
    r ← p_await (PcDeclareTable name regime);
    match r with
    | None => pd_redirect
    | Some (table_id, carved, version) =>
      if negb (bool_decide (rp_regime carved = regime)) then k_fail table_exists else
      confirmed ← push_reconcile version;
      let needed := (length (rp_voters carved) / 2 + 1)%nat in
      let ready := length (List.filter (λ v, has v confirmed) (rp_voters carved)) in
      if bool_decide (regime = Cp) && negb (is_empty (rp_voters carved)) && (ready <? needed)%nat
      then k_fail too_few_voters
      else mret (mkCreateTableResponse (Some (replica_set_to_proto carved)) version table_id)
    end).

Definition pd_serve {T} (r : PdRpc T) : PdM T :=
  match r with
  | PGetTimestamp count => get_timestamp count
  | PGetRegion key => get_region key
  | PHeartbeat req => pd_heartbeat req
  | PCreateTable name regime => pd_create_table name regime
  | PListTables => pd_list_tables
  | PListRegions => pd_list_regions
  end.

(** The failure detector of [serve_on]: the leader sweeps. *)
Definition pg_sweep (timeout_ms : N) (g : PdGroup) : list N * PdGroup :=
  if pg_is_leader g then
    let '(down, m) := sweep (pg_wall g) timeout_ms (f_members (pg_fsm g)) in
    (down, g <| pg_fsm := (pg_fsm g) <| f_members := m |> |>)
  else ([], g).

(** * A follower answers nothing itself *)

(** While the node does not lead, its actor refuses and its hint stays. *)
Definition env_follower (leader : option string) (g g' : PdGroup) : Prop :=
  pg_role g' ≠ Leader ∧ leader_addr g' = leader.

Definition answers_follower (leader : option string) (c : PdCall) (g : PdGroup) : PdAnswer c → PdGroup → Prop :=
  match c with
  | PcReconcile _ => λ _ _, False
  | PcAllocTs _ | PcHeartbeat _ _ _ _ _ | PcDeclareTable _ _ => λ a g', a = None ∧ env_follower leader g g'
  end.

Lemma wp_pd_redirect {A} leader g (Q : TStatus + A → PdGroup → Prop) :
  (∀ g', Q (inl (redirect_status leader)) g') → wp (env_follower leader) (answers_follower leader) pd_redirect Q g.
Proof.
  intros HQ. unfold pd_redirect. rewrite wp_bind. apply wp_look. intros g1 [_ <-]. apply HQ.
Qed.

Lemma wp_if_leading {A} leader g (body : PdM A) (Q : TStatus + A → PdGroup → Prop) :
  (∀ g', Q (inl (redirect_status leader)) g') → wp (env_follower leader) (answers_follower leader) (if_leading body) Q g.
Proof.
  intros HQ. unfold if_leading. rewrite wp_bind. apply wp_look. intros g1 [Hr _]. cbn [then_]. unfold pg_is_leader.
  rewrite bool_decide_false by done. by apply wp_pd_redirect.
Qed.

Lemma follower_redirects {T} (r : PdRpc T) leader g :
  match r with PHeartbeat _ => False | _ => True end →
  wp (env_follower leader) (answers_follower leader) (pd_serve r) (λ res _, res = inl (redirect_status leader)) g.
Proof.
  destruct r; cbn [pd_serve]; intros Hr; try (by apply wp_if_leading); [|done].
  unfold get_timestamp. rewrite wp_bind. cbn [wp p_await]. intros g1 a g2 _ [-> _]. cbn [then_]. by apply wp_pd_redirect.
Qed.

(** * The single-process PD *)

(** [PdApi]: the oracle and the members; [io] is whether a write to the oracle's file succeeds. *)
Record PdApi := mkPdApi { ps_tso : Tso; ps_members : Membership }.

Definition solo_get_timestamp (clock : N) (io : bool) (count : N) (s : PdApi) : (TStatus + N * N) * PdApi :=
  let count := N.max count 1 in
  match alloc clock io count (ps_tso s) with
  | (inl first, t) => (inr (first, count), mkPdApi t (ps_members s))
  | (inr _, t) => (inl (mkTStatus false InternalCode "tso alloc failed"), mkPdApi t (ps_members s))
  end.

Definition solo_get_region (key : bytes) (s : PdApi) : TStatus + GetRegionResponse :=
  match mb_route key (ps_members s) with
  | Some p => inr (placed_response p)
  | None => inl no_live_region
  end.

Definition solo_heartbeat (now : N) (req : HeartbeatRequest) (s : PdApi) : HeartbeatResponse * PdApi :=
  let '(assigned, m) := heartbeat (hq_node_id req) (hq_address req) (replica_set_from_proto <$> hq_regions req) now (ps_members s) in
  (mkHeartbeatResponse (replica_set_to_proto <$> assigned) 0 [] [] 0, mkPdApi (ps_tso s) m).

Definition solo_create_table : TStatus := mkTStatus false UnimplementedCode "create_table needs a replicated PD".
Definition solo_list_tables : ListTablesResponse := list_tables_response [] [].
Definition solo_list_regions (s : PdApi) : list PbRegion := placed_to_proto <$> mb_list (ps_members s).
