(* ===== verification/PdLink.v ===== *)
(** A node's link to the placement driver ([server/src/pd_link.rs]): it follows PD's leader
    through redirects, past nodes that cannot be reached. *)

From stdpp Require Import base list numbers strings gmap.
From Stdlib Require Import Strings.Ascii.
From S2P Require Import Prelude Prog Grpc PdFsm RaftNode PdService.

Record PdLink := mkPdLink { lk_endpoints : list string; lk_current : nat }.

#[export] Instance eta_pdlink : Eta PdLink := λ l, mkPdLink (lk_endpoints l) (lk_current l).

Definition as_uri (s : string) : string := if contains_str "://" s then s else "http://" +:+ s.

(** [None]: another status; [Some None]: no leader yet. *)
Definition redirect (s : TStatus) : option (option string) :=
  if negb (bool_decide (ts_code s = UnavailableCode)) then None else
  if negb (starts_with "not pd leader" (ts_message s)) then None else
  Some (trim <$> after_first "leader at " (ts_message s)).

Definition current_endpoint (l : PdLink) : option string :=
  lk_endpoints l !! (lk_current l mod length (lk_endpoints l))%nat.

(** [iter().position]. *)
Fixpoint position_of (a : string) (l : list string) : option nat :=
  match l with
  | [] => None
  | x :: l => if bool_decide (x = a) then Some 0%nat else S <$> position_of a l
  end.

Definition follow (addr : string) (l : PdLink) : PdLink :=
  let addr := as_uri addr in
  match position_of addr (lk_endpoints l) with
  | Some i => l <| lk_current := i |>
  | None => mkPdLink (lk_endpoints l ++ [addr]) (length (lk_endpoints l))
  end.

(** The second half of [rotate]: [n] is the number of endpoints it read, under a lock of its own. *)
Definition rotate (n : nat) (l : PdLink) : PdLink := l <| lk_current := ((lk_current l + 1) mod n)%nat |>.

(** The requests, and the pause after a node that has no leader to name. *)
Inductive LinkCall :=
  | LRpc (uri : string) {T : Type} (r : PdRpc T)
  | LPause.

Definition LinkAnswer (c : LinkCall) : Type :=
  match c with
  | @LRpc _ T _ => TStatus + T
  | LPause => unit
  end.

(** [LPanic]: where the [expect] of an endpoint would panic. *)
Inductive LinkError := LStatus (s : TStatus) | LPanic.

Section link.
(** [Endpoint::from_shared] accepts the URI; the state of the rest of the system. *)
Context (valid_uri : string → bool) {W : Type}.

Definition PdLink_new (endpoints : list string) : string + PdLink :=
  let endpoints := as_uri <$> endpoints in
  if (length endpoints =? 0)%nat then inl "--pd needs at least one address" else
  if forallb valid_uri endpoints then inr (mkPdLink endpoints 0) else inl "invalid PD address".

Definition PdLink_parse (arg : string) : string + PdLink :=
  PdLink_new (List.filter (λ s, negb (bool_decide (s = EmptyString))) (trim <$> split_char ","%char arg)).

Abbreviation LM := (Fallible LinkAnswer LinkError (PdLink * W)).

Definition on_link {A} (f : PdLink → PdLink * A) : LM A :=
  k_step (λ s, let '(l, a) := f s.1 in ((l, s.2), a)).

Definition link_client : LM string :=
  uri ← on_link (λ l, (l, current_endpoint l));
  match uri with
  | Some uri => if valid_uri uri then mret uri else k_fail LPanic
  | None => k_fail LPanic
  end.

(** Never reached PD. *)
Definition unreached (s : TStatus) : bool := ts_source s || bool_decide (ts_code s = DeadlineExceededCode).

Definition move_on : LM unit :=
  n ← on_link (λ l, (l, length (lk_endpoints l)));
  _ ← on_link (λ l, (rotate n l, tt));
  p_await LPause.

(** What an answer does: [again] is the next attempt, with the status it failed with. *)
Definition on_answer {T} (again : TStatus → LM T) (resp : TStatus + T) : LM T :=
  match resp with
  | inr t => mret t
  | inl s =>
    match redirect s with
    | Some (Some leader) => _ ← on_link (λ l, (follow leader l, tt)); again s
    | Some None => _ ← move_on; again s
    | None => if unreached s then _ ← move_on; again s else k_fail (LStatus s)
    end
  end.

Fixpoint call_loop {T} (n : nat) (last : TStatus) (r : PdRpc T) : LM T :=
  match n with
  | O => k_fail (LStatus last)
  | S n =>
    uri ← link_client;
    resp ← p_await (LRpc uri r);
    on_answer (λ s, call_loop n s r) resp
  end.

Definition link_call {T} (r : PdRpc T) : LM T :=
  n ← on_link (λ l, (l, 2 * length (lk_endpoints l) + 1)%nat);
  call_loop n (mkTStatus false UnavailableCode "PD is unreachable") r.
End link.

(** * Redirects *)

(** The link understands the service's redirect. *)
Lemma redirect_named addr : redirect (redirect_status (Some addr)) = Some (Some (trim addr)).
Proof. reflexivity. Qed.

Lemma redirect_unnamed : redirect (redirect_status None) = Some None.
Proof. reflexivity. Qed.

Lemma position_of_spec a l i : position_of a l = Some i → l !! i = Some a.
Proof.
  revert i. induction l as [|x l IH]; intros i; cbn; [done|]. case_bool_decide as Hx; [intros [= <-]; cbn; by subst|].
  destruct (position_of a l) as [j|]; [|done]. intros [= <-]. by apply IH.
Qed.

Lemma follow_current addr l : lk_endpoints l ≠ [] → current_endpoint (follow addr l) = Some (as_uri addr).
Proof.
  intros Hne. unfold follow, current_endpoint. destruct (position_of _ _) as [i|] eqn:Hp.
  - apply position_of_spec in Hp. cbn. rewrite Nat.mod_small; [done|]. by eapply lookup_lt_Some.
  - cbn. rewrite Nat.mod_small by (rewrite length_app; cbn; lia). rewrite lookup_app_r by lia. by rewrite Nat.sub_diag.
Qed.

(** * Finding the leader *)

Section leader.
Context (valid_uri : string → bool) {W : Type} (moves : W → W → Prop) `{!PreOrder moves}.
(** What the PD node at an endpoint may answer, with what effect. *)
Context (answer : ∀ T, string → PdRpc T → W → TStatus + T → W → Prop).
Context {T : Type} (r : PdRpc T) (lead : string) (names : string → bool) (serves : W → TStatus + T → W → Prop).
Implicit Types (l : PdLink) (w : W) (b n d : nat).

(** A status that is the leader's own answer. *)
Definition final (a : TStatus + T) : Prop := ∀ s, a = inl s → redirect s = None ∧ unreached s = false.

(** The leader serves the request.  Another node redirects to it if it knows it, or knows no
    leader, or cannot be reached; in any case it does nothing else. *)
Record pd_answers : Prop := mkPdAnswers {
  pa_valid : valid_uri lead = true;
  pa_leader w a w' : answer _ lead r w a w' → serves w a w' ∧ final a;
  pa_names uri w a w' : uri ≠ lead → names uri = true → answer _ uri r w a w' →
    moves w w' ∧ ∃ addr, a = inl (redirect_status (Some addr)) ∧ as_uri (trim addr) = lead;
  pa_other uri w a w' : uri ≠ lead → names uri = false → answer _ uri r w a w' →
    moves w w' ∧ (a = inl (redirect_status None) ∨ ∃ s, a = inl s ∧ redirect s = None ∧ unreached s = true);
}.
Context (Hpd : pd_answers).

(** A step of another call on the shared link: it follows a redirect to the leader, or moves on
    after it read the number of endpoints. *)
Definition link_op l l' : Prop :=
  (∃ addr, as_uri addr = lead ∧ l' = follow addr l) ∨
  (∃ n, (0 < n ≤ length (lk_endpoints l))%nat ∧ l' = rotate n l).

(** The state is the link, how many more times other calls move it, and the rest of the system. *)
Abbreviation LS := (PdLink * (nat * W))%type.

(** Other calls move the link at most as often as the budget says. *)
Definition env_few (s s' : LS) : Prop :=
  ∃ k, s.2.1 = (k + s'.2.1)%nat ∧ nsteps link_op k s.1 s'.1 ∧ moves s.2.2 s'.2.2.

(** Other calls move the link as often as they like. *)
Definition env_shared (s s' : LS) : Prop := rtc link_op s.1 s'.1 ∧ moves s.2.2 s'.2.2.

Definition answers_link (c : LinkCall) (s : LS) : LinkAnswer c → LS → Prop :=
  match c with
  | LRpc uri r => λ a s', s'.1 = s.1 ∧ s'.2.1 = s.2.1 ∧ answer _ uri r s.2.2 a s'.2.2
  | LPause => λ _ s', s' = s
  end.

Definition link_served w0 (res : LinkError + T) w' : Prop :=
  ∃ w1 a w2, moves w0 w1 ∧ serves w1 a w2 ∧ moves w2 w' ∧
    res = match a with inl s => inl (LStatus s) | inr t => inr t end.

(** ** Any number of other calls *)

Definition link_ok l : Prop := lk_endpoints l ≠ [] ∧ Forall (λ uri, valid_uri uri = true) (lk_endpoints l).

Lemma link_op_ok l l' : link_op l l' → link_ok l → link_ok l'.
Proof.
  intros [(addr & Ha & ->)|(n & Hn & ->)] [Hne Hv]; [|done]. unfold follow. rewrite Ha.
  destruct (position_of _ _); [done|]. split; cbn; [by destruct (lk_endpoints l)|].
  apply Forall_app. split; [done|]. constructor; [apply Hpd|constructor].
Qed.

Lemma link_ops_ok l l' : rtc link_op l l' → link_ok l → link_ok l'.
Proof. induction 1; eauto using link_op_ok. Qed.

Lemma link_ok_current l : link_ok l → ∃ uri, current_endpoint l = Some uri ∧ valid_uri uri = true.
Proof.
  intros [Hne Hv]. destruct (lookup_lt_is_Some_2 (lk_endpoints l) (lk_current l mod length (lk_endpoints l))%nat) as [uri Hu].
  { apply Nat.mod_upper_bound. by destruct (lk_endpoints l). }
  exists uri. split; [exact Hu|]. by eapply Forall_lookup in Hv.
Qed.

Definition served_or_not w0 (res : LinkError + T) (s : LS) : Prop :=
  link_served w0 res s.2.2 ∨ (∃ st, res = inl (LStatus st)) ∧ moves w0 s.2.2.

(** A step of the call itself, in the company of any others. *)
Lemma wp_shared_step {A} (f : PdLink → PdLink * A) w0 (s : LS) (Q : LinkError + A → LS → Prop) :
  link_ok s.1 → moves w0 s.2.2 →
  (∀ l bw, link_ok l → moves w0 bw.2 → Q (inr (f l).2) ((f l).1, bw)) → wp env_shared answers_link (on_link f) Q s.
Proof.
  intros Hok Hm HQ. apply wp_step. intros [l1 bw] [Hl Hw]. cbn [fst snd] in *.
  specialize (HQ l1 bw (link_ops_ok _ _ Hl Hok) (transitivity Hm Hw)). destruct (f l1). exact HQ.
Qed.

Lemma client_shared w0 (s : LS) (Q : LinkError + string → LS → Prop) :
  link_ok s.1 → moves w0 s.2.2 → (∀ uri s1, link_ok s1.1 → moves w0 s1.2.2 → Q (inr uri) s1) →
  wp env_shared answers_link (link_client valid_uri) Q s.
Proof.
  intros Hok Hm HQ. unfold link_client. rewrite wp_bind. apply (wp_shared_step _ w0); [done..|]. intros l1 bw1 Hok1 Hm1.
  cbn [fst snd then_]. destruct (link_ok_current l1 Hok1) as (uri & -> & ->). by apply HQ.
Qed.

Lemma move_on_shared w0 (s : LS) (Q : LinkError + unit → LS → Prop) :
  link_ok s.1 → moves w0 s.2.2 → (∀ s1, link_ok s1.1 → moves w0 s1.2.2 → Q (inr tt) s1) → wp env_shared answers_link move_on Q s.
Proof.
  intros Hok Hm HQ. unfold move_on. rewrite wp_bind. apply (wp_shared_step _ w0); [done..|]. intros l1 bw1 Hok1 Hm1.
  cbn [fst snd then_]. rewrite wp_bind. apply (wp_shared_step _ w0); [done..|]. intros l2 bw2 Hok2 Hm2.
  cbn [fst snd then_ p_await wp]. intros [l3 bw3] [] s4 [Hl Hw] ->. cbn [fst snd] in *.
  apply HQ; cbn [fst snd]; [by eapply link_ops_ok|by transitivity bw2.2].
Qed.

Lemma call_shared n last w0 (s : LS) :
  link_ok s.1 → moves w0 s.2.2 → wp env_shared answers_link (call_loop valid_uri n last r) (served_or_not w0) s.
Proof.
  revert last s. induction n as [|n IH]; intros last s Hok Hm; cbn [call_loop].
  { right. eauto. }
  rewrite wp_bind. apply (client_shared w0); [done..|]. intros uri [l1 bw1] Hok1 Hm1. cbn [then_]. rewrite wp_bind. cbn [wp p_await].
  intros [l2 [b2 w2]] a [l3 [b3 w3]] [Hl2 Hw2] (Hl3 & Hb3 & Ha). cbn [fst snd then_] in *. subst l3 b3.
  pose proof (link_ops_ok _ _ Hl2 Hok1) as Hok2. assert (Hm2 : moves w0 w2) by (by transitivity bw1.2).
  assert (Hagain : ∀ st (s1 : LS), link_ok s1.1 → moves w0 s1.2.2 → wp env_shared answers_link (call_loop valid_uri n st r) (served_or_not w0) s1)
    by (intros; by apply IH).
  destruct (decide (uri = lead)) as [->|Hne].
  { apply Hpd in Ha as [Hs Hf]. destruct a as [st|t]; cbn [on_answer].
    - destruct (Hf st eq_refl) as [-> ->]. left. by exists w2, (inl st), w3.
    - left. by exists w2, (inr t), w3. }
  destruct (names uri) eqn:En.
  - apply (pa_names Hpd) in Ha as (Hm3 & addr & -> & Hlead); [|done..]. cbn [on_answer]. rewrite redirect_named, wp_bind.
    apply (wp_shared_step _ w0); [done|by transitivity w2|]. intros l4 bw4 Hok4 Hm4. cbn [fst snd then_]. apply Hagain; [|done].
    eapply link_op_ok; [|exact Hok4]. left. eauto.
  - apply (pa_other Hpd) in Ha as (Hm3 & Ha); [|done..].
    assert (Hon : wp env_shared answers_link (on_answer (λ s, call_loop valid_uri n s r) a) (served_or_not w0) (l2, (b2, w3))).
    { destruct Ha as [->|(st & -> & Hr & Hu)]; cbn [on_answer]; [rewrite redirect_unnamed|rewrite Hr, Hu]; rewrite wp_bind;
        (apply (move_on_shared w0); [done|by transitivity w2|]); intros s1 Hok4 Hm4; by apply Hagain. }
    exact Hon.
Qed.

(** ** At most one move by another call *)

(** [c] attempts find the leader if no other call moves the link. *)
Inductive reach : PdLink → nat → Prop :=
  | reach_lead l c : current_endpoint l = Some lead → reach l (S c)
  | reach_names l uri c : current_endpoint l = Some uri → names uri = true → reach l (S (S c))
  | reach_next l c : reach (rotate (length (lk_endpoints l)) l) c → reach l (S c).

Lemma reach_pos l c : reach l c → (0 < c)%nat.
Proof. intros []; lia. Qed.

Lemma reach_le l c c' : reach l c → (c ≤ c')%nat → reach l c'.
Proof.
  intros Hr. revert c'. induction Hr as [l c Hc|l uri c Hc Hn|l c Hr IH]; intros c' Hle.
  - destruct c' as [|c']; [lia|]. by apply reach_lead.
  - destruct c' as [|[|c']]; [lia..|]. by eapply reach_names.
  - destruct c' as [|c']; [lia|]. apply reach_next, IH. lia.
Qed.

(** The attempts an endpoint [d] further takes. *)
Lemma reach_from d l uri :
  lk_endpoints l !! ((lk_current l + d) mod length (lk_endpoints l))%nat = Some uri →
  (uri = lead → reach l (S d)) ∧ (names uri = true → reach l (S (S d))).
Proof.
  revert l. induction d as [|d IH]; intros l Hu.
  - rewrite Nat.add_0_r in Hu. split; [intros ->; by apply reach_lead|]. by eapply reach_names.
  - destruct (IH (rotate (length (lk_endpoints l)) l)) as [H1 H2]; [|split; intros; apply reach_next; auto].
    cbn. rewrite Nat.Div0.add_mod_idemp_l. by replace (lk_current l + 1 + d)%nat with (lk_current l + S d)%nat by lia.
Qed.

Lemma reach_member l uri :
  uri ∈ lk_endpoints l →
  (uri = lead → reach l (length (lk_endpoints l))) ∧ (names uri = true → reach l (S (length (lk_endpoints l)))).
Proof.
  intros [j Hj]%list_elem_of_lookup. pose proof (lookup_lt_Some _ _ _ Hj) as Hlt. set (m := length (lk_endpoints l)) in *.
  pose proof (Nat.mod_upper_bound (lk_current l) m) as Hc. set (i := (lk_current l mod m)%nat) in *.
  destruct (reach_from ((j + m - i) mod m) l uri) as [H1 H2].
  { fold m. rewrite <- Nat.Div0.add_mod_idemp_l, Nat.Div0.add_mod_idemp_r. fold i.
    replace (i + (j + m - i))%nat with (j + 1 * m)%nat by lia. by rewrite Nat.Div0.mod_add, Nat.mod_small. }
  pose proof (Nat.mod_upper_bound (j + m - i) m).
  split; intros Hu; (eapply reach_le; [eauto|lia]).
Qed.

(** What a move by another call leaves of a link with [N] endpoints. *)
Definition known N l : Prop :=
  link_ok l ∧
  (length (lk_endpoints l) = N ∧ (∃ uri, uri ∈ lk_endpoints l ∧ (uri = lead ∨ names uri = true)) ∨
   length (lk_endpoints l) = S N ∧ lead ∈ lk_endpoints l).

Lemma known_reach N l : known N l → reach l (S N).
Proof.
  intros [_ [(Hl & uri & Hin & Hu)|(Hl & Hin)]].
  - apply reach_member in Hin as [H1 H2]. rewrite Hl in H1, H2. destruct Hu as [Hu|Hu]; [|by apply H2].
    eapply reach_le; [by apply H1|lia].
  - apply reach_member in Hin as [H1 _]. rewrite <- Hl. by apply H1.
Qed.

Lemma known_rotate N n l : known N l → known N (rotate n l).
Proof. done. Qed.

Lemma known_follow N addr l : as_uri addr = lead → known N l → known N (follow addr l).
Proof.
  intros Ha [Hok Hk]. split; [by eapply link_op_ok; [left; eauto|]|]. unfold follow. rewrite Ha.
  destruct (position_of _ _) as [i|] eqn:Hp; [exact Hk|]. cbn. rewrite length_app. cbn.
  destruct Hk as [(Hl & _)|(Hl & Hin)]; [right; split; [lia|set_solver]|].
  exfalso. revert Hp Hin. generalize (lk_endpoints l) as eps. intros eps. induction eps as [|x eps IH]; cbn; intros Hp Hin; [set_solver|]. revert Hp. case_bool_decide; [done|].
  destruct (position_of lead eps); [done|]. intros _. apply IH; [done|]. set_solver.
Qed.

Lemma known_op N l l' : link_op l l' → known N l → known N l'.
Proof. intros [(addr & Ha & ->)|(n & Hn & ->)]; [by apply known_follow|by apply known_rotate]. Qed.

Lemma follow_reach addr l n : link_ok l → as_uri addr = lead → reach (follow addr l) (S n).
Proof. intros [Hne _] Ha. apply reach_lead. rewrite follow_current by done. by rewrite Ha. Qed.

(** What other calls do before a step. *)
Lemma env_few_cases N (s s1 : LS) :
  env_few s s1 → (s.2.1 ≤ 1)%nat → known N s.1 →
  moves s.2.2 s1.2.2 ∧ known N s1.1 ∧ (s1.1 = s.1 ∧ s1.2.1 = s.2.1 ∨ s.2.1 = 1%nat ∧ s1.2.1 = 0%nat).
Proof.
  intros (k & Hb & Hk & Hm) Hle Hkn. split; [done|]. destruct k as [|[|k]]; [| |lia].
  - assert (E : s.1 = s1.1) by (by inversion Hk). rewrite <- E. auto.
  - apply nsteps_once_inv in Hk. split; [by eapply known_op|]. right. lia.
Qed.

Abbreviation wpl := (wp env_few answers_link).

(** The answer of the leader, and where the link points if no other call moved it. *)
Definition found_by w0 (res : LinkError + T) (s : LS) : Prop :=
  link_served w0 res s.2.2 ∧ (s.2.1 = 1%nat → current_endpoint s.1 = Some lead).

Lemma wp_few_step {A} (f : PdLink → PdLink * A) N (s : LS) (Q : LinkError + A → LS → Prop) :
  (s.2.1 ≤ 1)%nat → known N s.1 →
  (∀ s1, moves s.2.2 s1.2.2 → known N s1.1 → (s1.1 = s.1 ∧ s1.2.1 = s.2.1 ∨ s.2.1 = 1%nat ∧ s1.2.1 = 0%nat) →
    Q (inr (f s1.1).2) ((f s1.1).1, s1.2)) → wpl (on_link f) Q s.
Proof.
  intros Hb Hk HQ. apply wp_step. intros s1 Henv. destruct (env_few_cases _ _ _ Henv Hb Hk) as (Hm & Hk1 & Hc).
  specialize (HQ s1 Hm Hk1 Hc). destruct (f s1.1). exact HQ.
Qed.

(** Moving on to the next address. *)
Lemma move_on_few N (s : LS) (Q : LinkError + unit → LS → Prop) :
  (s.2.1 ≤ 1)%nat → known N s.1 →
  (∀ s1, moves s.2.2 s1.2.2 → known N s1.1 →
    (s1.1 = rotate (length (lk_endpoints s.1)) s.1 ∧ s1.2.1 = s.2.1 ∨ s.2.1 = 1%nat ∧ s1.2.1 = 0%nat) → Q (inr tt) s1) →
  wpl move_on Q s.
Proof.
  intros Hb Hk HQ. unfold move_on. rewrite wp_bind. apply (wp_few_step _ N); [done..|]. intros s1 Hm1 Hk1 Hc1.
  cbn [fst snd then_]. rewrite wp_bind. apply (wp_few_step _ N); [cbn; lia|done|]. intros s2 Hm2 Hk2 Hc2. cbn [fst snd] in *.
  cbn [then_ p_await wp]. intros s3 [] s4 Henv ->.
  destruct (env_few_cases N _ _ Henv) as (Hm3 & Hk3 & Hc3); cbn [fst snd] in *; [lia|done|].
  apply HQ; [by transitivity s1.2.2; [|transitivity s2.2.2]|done|].
  destruct Hc1 as [[E1 B1]|?], Hc2 as [[E2 B2]|?], Hc3 as [[E3 B3]|?]; try (right; lia). left. split; [|lia]. by rewrite E3, E2, E1.
Qed.

(** [n] attempts are left, and suffice: no other call has moved the link, and another round is
    left if one does; or one has. *)
Definition enough N n (s : LS) : Prop :=
  known N s.1 ∧ (s.2.1 = 1%nat ∧ (∃ c, reach s.1 c ∧ (c + N ≤ n)%nat) ∨ s.2.1 = 0%nat ∧ reach s.1 n).

(** The same when [uri] was asked, and refused: the link points there unless another call moved it. *)
Definition enough_after N n uri (s : LS) : Prop :=
  known N s.1 ∧
  (s.2.1 = 1%nat ∧ current_endpoint s.1 = Some uri ∧ (∃ c, reach s.1 c ∧ (c + N ≤ S n)%nat) ∨
   s.2.1 = 0%nat ∧ (current_endpoint s.1 = Some uri ∧ reach s.1 (S n) ∨ (S N ≤ n)%nat)).

Lemma enough_moved N n (s : LS) : known N s.1 → s.2.1 = 0%nat → (S N ≤ n)%nat → enough N n s.
Proof. intros Hk Hb Hn. split; [done|]. right. split; [done|]. eapply reach_le; [by apply known_reach|done]. Qed.

(** One attempt less, past an endpoint that does not lead there. *)
Lemma reach_past l uri c : reach l c → current_endpoint l = Some uri → uri ≠ lead → names uri = false →
  ∃ c', c = S c' ∧ reach (rotate (length (lk_endpoints l)) l) c'.
Proof. intros [l' c' Hc|l' u c' Hc Hn|l' c' Hr] Hu Hne Hnn; [congruence..|eauto]. Qed.

Lemma reach_two l uri c : reach l c → current_endpoint l = Some uri → uri ≠ lead → (2 ≤ c)%nat.
Proof. intros [l' c' Hc|l' u c' Hc Hn|l' c' Hr] Hu Hne; [congruence|lia|]. apply reach_pos in Hr. lia. Qed.

Lemma enough_rotate N n uri (s s1 : LS) :
  enough_after N n uri s → uri ≠ lead → names uri = false → known N s1.1 →
  (s1.1 = rotate (length (lk_endpoints s.1)) s.1 ∧ s1.2.1 = s.2.1 ∨ s.2.1 = 1%nat ∧ s1.2.1 = 0%nat) → enough N n s1.
Proof.
  intros [Hk Hc] Hne Hn Hk1 Hs1. destruct Hc as [(Hb & Hu & c & Hr & Hle)|[Hb Hc]].
  - pose proof (reach_two _ _ _ Hr Hu Hne). destruct Hs1 as [[E1 B1]|[_ B1]]; [|apply enough_moved; [done..|lia]].
    destruct (reach_past _ _ _ Hr Hu Hne Hn) as (c' & -> & Hr'). split; [done|]. left. split; [lia|]. exists c'. rewrite E1. split; [done|lia].
  - destruct Hs1 as [[E1 B1]|[? _]]; [|lia]. destruct Hc as [[Hu Hr]|Hle]; [|apply enough_moved; [done|lia..]].
    destruct (reach_past _ _ _ Hr Hu Hne Hn) as (c' & [= <-] & Hr'). split; [done|]. right. split; [lia|]. by rewrite E1.
Qed.

Lemma enough_follow N n uri addr (s s1 : LS) :
  enough_after N n uri s → uri ≠ lead → as_uri addr = lead → known N s1.1 →
  (s1.1 = s.1 ∧ s1.2.1 = s.2.1 ∨ s.2.1 = 1%nat ∧ s1.2.1 = 0%nat) → enough N n (follow addr s1.1, s1.2).
Proof.
  intros [Hk Hc] Hne Ha Hk1 Hs1. assert (Hn : (1 ≤ n)%nat ∧ (s.2.1 = 1%nat → S N ≤ n)%nat).
  { destruct Hc as [(Hb & Hu & c & Hr & Hle)|[Hb [[Hu Hr]|Hle]]]; [..|lia]; pose proof (reach_two _ _ _ Hr Hu Hne); lia. }
  assert (Hr : ∀ m, reach (follow addr s1.1) (S m)) by (intros m; apply follow_reach; [apply Hk1|done]).
  split; [by apply known_follow|]. cbn [fst snd]. destruct (decide (s1.2.1 = 1%nat)) as [E|E].
  - left. split; [done|]. exists 1%nat. split; [apply Hr|]. lia.
  - right. split; [destruct Hc as [?|[? _]], Hs1 as [?|?]; lia|]. destruct n; [lia|]. apply Hr.
Qed.

Lemma enough_step N n (s s1 : LS) :
  enough N n s → known N s1.1 → (s1.1 = s.1 ∧ s1.2.1 = s.2.1 ∨ s.2.1 = 1%nat ∧ s1.2.1 = 0%nat) → enough N n s1.
Proof.
  intros [Hk He] Hk1 [[E B]|[B1 B]]; [split; [done|]; by rewrite E, B|].
  destruct He as [(_ & c & Hr & Hle)|[? _]]; [|lia]. apply reach_pos in Hr. apply enough_moved; [done..|lia].
Qed.

Lemma enough_ask N n uri (s s1 : LS) :
  enough N (S n) s → current_endpoint s.1 = Some uri → uri ≠ lead → known N s1.1 →
  (s1.1 = s.1 ∧ s1.2.1 = s.2.1 ∨ s.2.1 = 1%nat ∧ s1.2.1 = 0%nat) → enough_after N n uri s1.
Proof.
  intros [Hk He] Hu Hne Hk1 [[E B]|[B1 B]]; (split; [done|]).
  - rewrite E, B. destruct He as [(Hb & c & Hr & Hle)|[Hb Hr]]; [left|right]; eauto 6.
  - right. split; [done|]. right. destruct He as [(_ & c & Hr & Hle)|[? _]]; [|lia].
    pose proof (reach_two _ _ _ Hr Hu Hne). lia.
Qed.

(** After the answer of a node that does not lead. *)
Lemma refused_few N n uri a w0 (s : LS) w w' :
  (∀ last s, enough N n s → moves w0 s.2.2 → wpl (call_loop valid_uri n last r) (found_by w0) s) →
  enough_after N n uri s → uri ≠ lead → answer _ uri r w a w' → moves w0 w → s.2.2 = w' →
  wpl (on_answer (λ s, call_loop valid_uri n s r) a) (found_by w0) s.
Proof.
  intros IH He Hne Ha Hm Ew. assert (Hb : (s.2.1 ≤ 1)%nat) by (destruct He as [_ [?|?]]; lia).
  assert (Hk : known N s.1) by apply He. destruct (names uri) eqn:En.
  - apply (pa_names Hpd) in Ha as (Hm2 & addr & -> & Hlead); [|done..]. cbn [on_answer]. rewrite redirect_named, wp_bind.
    apply (wp_few_step _ N); [done..|]. intros s1 Hm1 Hk1 Hs1. cbn [then_ fst snd]. apply IH; [by eapply enough_follow|].
    cbn. transitivity w; [done|]. transitivity w'; [done|]. by subst w'.
  - apply (pa_other Hpd) in Ha as (Hm2 & Ha); [|done..].
    assert (Hon : ∀ st, wpl (_ ← move_on; call_loop valid_uri n st r) (found_by w0) s).
    { intros st. rewrite wp_bind. apply (move_on_few N); [done..|]. intros s1 Hm1 Hk1 Hs1. cbn [then_].
      apply IH; [by eapply enough_rotate|]. transitivity w; [done|]. transitivity w'; [done|]. by subst w'. }
    destruct Ha as [->|(st & -> & Hr & Hu)]; cbn [on_answer]; [rewrite redirect_unnamed|rewrite Hr, Hu]; apply Hon.
Qed.

Lemma call_few N n last w0 (s : LS) :
  enough N n s → moves w0 s.2.2 → wpl (call_loop valid_uri n last r) (found_by w0) s.
Proof.
  revert last s. induction n as [|n IH]; intros last s He Hm.
  { exfalso. destruct He as [_ [(_ & c & Hr & Hle)|[_ Hr]]]; apply reach_pos in Hr; lia. }
  assert (Hb : (s.2.1 ≤ 1)%nat) by (destruct He as [_ [?|?]]; lia).
  cbn [call_loop]. rewrite wp_bind. unfold link_client. rewrite wp_bind. apply (wp_few_step _ N); [done|apply He|].
  intros s1 Hm1 Hk1 Hs1. cbn [fst snd then_]. pose proof (enough_step _ _ _ _ He Hk1 Hs1) as He1.
  destruct (link_ok_current s1.1 (proj1 Hk1)) as (uri & Hu & Hv). rewrite Hu, Hv.
  change (wpl (resp ← p_await (LRpc uri r); on_answer (λ s, call_loop valid_uri n s r) resp) (found_by w0) (s1.1, s1.2)).
  rewrite wp_bind. cbn [wp p_await]. intros s2 a s3 Henv (El & Eb & Ha).
  destruct (env_few_cases N _ _ Henv) as (Hm2 & Hk2 & Hs2); cbn [fst snd] in *; [lia|done|].
  assert (Hm02 : moves w0 s2.2.2) by (transitivity s.2.2; [done|]; by transitivity s1.2.2).
  cbn [then_]. destruct (decide (uri = lead)) as [->|Hne].
  - assert (Hf : ∀ res, res = match a with inl s => inl (LStatus s) | inr t => inr t end → found_by w0 res s3).
    { intros res ->. split; [exists s2.2.2, a, s3.2.2; split; [done|]; split; [by apply Hpd|done]|].
      intros Hb3. rewrite El. destruct Hs2 as [[-> _]|[_ ?]]; [done|lia]. }
    apply Hpd in Ha as [_ Hfin]. destruct a as [st|t]; cbn [on_answer]; [destruct (Hfin st eq_refl) as [-> ->]|]; by apply Hf.
  - eapply (refused_few N n uri a w0 s3); [exact IH| |done|exact Ha|done|done].
    eapply (enough_ask N n uri (s1.1, s1.2)); [by destruct s1|done|done|by rewrite El|]. rewrite El, Eb. exact Hs2.
Qed.

End leader.
(** * A run *)

(** A PD group of three: one down, one that follows, one that leads and counts timestamps.  The
    link was given the first two. *)
Definition ex_follower : PdGroup := mkPdGroup PdFsm_new Follower (Some 3) {[ 3 := "127.0.0.1:2381" ]} 0.

Definition ex_pd (T : Type) (uri : string) (r : PdRpc T) (w : N) (a : TStatus + T) (w' : N) : Prop :=
  if bool_decide (uri = "http://127.0.0.1:2381") then
    match r in PdRpc T return TStatus + T → Prop with
    | PGetTimestamp count => λ a, a = inr (w, count) ∧ w' = w + count
    | _ => λ _, False
    end a
  else w' = w ∧
    if bool_decide (uri = "http://127.0.0.1:2380") then
      ∃ g', may (env_follower (leader_addr ex_follower)) (answers_follower (leader_addr ex_follower)) (pd_serve r) ex_follower a g'
    else a = inl (mkTStatus true UnavailableCode "transport error").


(** * Two calls of one link *)

Section lockstep.
Context {Call : Type} {Answer : Call → Type} {S : Type} (oracle : ∀ c : Call, S → option (S * Answer c)).

(** Two programs on one state, taking turns. *)
Fixpoint lockstep {A B} (p : Prog Answer S A) (q : Prog Answer S B) (s : S) : option (S * (A * B)) :=
  match p, q with
  | Ret a, Ret b => Some (s, (a, b))
  | Step f k, Step g k' => let '(s, x) := f s in let '(s, y) := g s in lockstep (k x) (k' y) s
  | Await c k, Await d k' =>
    match oracle c s with
    | Some (s, x) => match oracle d s with Some (s, y) => lockstep (k x) (k' y) s | None => None end
    | None => None
    end
  | _, _ => None
  end.
End lockstep.

(** A PD group of two: the first is down, the second leads. *)
Definition half_down (c : LinkCall) (s : PdLink * unit) : option ((PdLink * unit) * LinkAnswer c) :=
  match c with
  | LRpc uri r => Some (s, if bool_decide (uri = "http://a:1")
      then inl (mkTStatus true UnavailableCode "transport error")
      else match r in PdRpc T return TStatus + T with
           | PGetTimestamp count => inr (7, count)
           | _ => inl (mkTStatus false NotFoundCode "")
           end)
  | LPause => Some (s, tt)
  end.

(** Two calls that share a link and find the first node down together skip the leader together,
    every time, until both have no attempt left; alone, the call is served at its second attempt. *)
Lemma lockstep_calls_miss_leader :
  let link := mkPdLink ["http://a:1"; "http://b:1"] 0 in
  let get : Fallible LinkAnswer LinkError (PdLink * unit) (N * N) := link_call (λ _, true) (PGetTimestamp 1) in
  let down := inl (LStatus (mkTStatus true UnavailableCode "transport error")) in
  lockstep half_down get get (link, ()) = Some ((link, ()), (down, down)) ∧
  run half_down get (link, ()) = Some ((mkPdLink ["http://a:1"; "http://b:1"] 1, ()), inr (7, 1)).
Proof. by split; vm_compute. Qed.
