(* ===== verification/NodeAdmin.v ===== *)
(** The administration of a data node ([AppState] and [KvApi] in [server/src/lib.rs], with
    [server/src/multiraft.rs] and the registry of [server/src/ap.rs]): its heartbeat with PD,
    the regions it founds, joins and routes, and the requests that change them.

    The operations are programs ([Prog]): PD, the node's files and its groups answer them, and
    other tasks of the node run between the steps.  A Raft group is what it was started with
    and what its actor publishes; an AP region is the addresses of its peers.  Log output is
    left out. *)

From stdpp Require Import base list numbers strings gmap sorting.
From Stdlib Require Import Strings.Byte.
From S2P Require Import Prelude Prog Grpc Cursor PdRegion PdCluster PdFsm PdService Catalog RaftMessage RaftNode GroupActor Upreplicate.

(** * The node *)

(** A hosted Raft group: its range and the configuration it was started with, the peers it can
    reach, and what it publishes. *)
Record HostedGroup := mkHostedGroup {
  hg_start : bytes;
  hg_end : bytes;
  hg_voters : list N;
  hg_peers : gmap N bytes;
  hg_obs : Observable;
}.

#[export] Instance eta_hosted : Eta HostedGroup := λ g,
  mkHostedGroup (hg_start g) (hg_end g) (hg_voters g) (hg_peers g) (hg_obs g).

(** [PdHandle], but for the link, which the calls to PD go through. *)
Record PdHandle := mkPdHandle { ph_node_id : N; ph_address : bytes; ph_adopt_assignment : bool }.

(** The fields of [AppState] that placement uses.  [nd_raft] and [nd_ap] are [MultiRaft] and
    [ApReplication]. *)
Record Node := mkNode {
  nd_id : N;
  nd_store_id : bytes;
  nd_regions : RegionRegistry;
  nd_raft : option (gmap N HostedGroup);
  nd_ap : option (gmap N (gmap N bytes));
  nd_tables : Tables;
  nd_voters : list N;
  nd_peers : gmap N bytes;
  nd_applied : N;
  nd_desired : gmap N (list N);
  nd_pd : option PdHandle;
}.

#[export] Instance eta_node : Eta Node := λ n,
  mkNode (nd_id n) (nd_store_id n) (nd_regions n) (nd_raft n) (nd_ap n) (nd_tables n) (nd_voters n) (nd_peers n)
    (nd_applied n) (nd_desired n) (nd_pd n).

(** [multiraft::RegionPlacement]. *)
Record RegionPlacement := mkPlacement {
  rl_region : Region; rl_regime : Regime; rl_voters : list N; rl_peers : gmap N bytes;
}.

(** * Programs *)

(** A call to PD through the link, the opening of a group's log, a write of the region table,
    and requests to a group. *)
Inductive AdminCall :=
  | NcPd {T : Type} (r : PdRpc T)
  | NcOpenWal (region : N)
  | NcPersist
  | NcCampaign (region : N)
  | NcConfChange (region : N) (cc : ConfChange).

Definition AdminAnswer (c : AdminCall) : Type :=
  match c with
  | @NcPd T _ => TStatus + T
  | NcOpenWal _ | NcPersist => bool
  | NcCampaign _ | NcConfChange _ _ => unit
  end.

(** [Box<dyn Error>]: a status of PD, a failure of a file, a refusal. *)
Inductive AdminError := AeStatus (s : TStatus) | AeIo | AeMsg (msg : string).

Abbreviation AM := (Fallible AdminAnswer AdminError Node).

Definition pd_call {T} (r : PdRpc T) : AM T :=
  resp ← p_await (NcPd r);
  match resp with inl s => k_fail (AeStatus s) | inr t => mret t end.

(** [MultiRaft::group] and [MultiRaft::insert]; [ApReplication::hosts] and [insert]. *)
Definition nd_group (region : N) (n : Node) : option HostedGroup := groups ← nd_raft n; groups !! region.
Definition nd_hosts (region : N) (n : Node) : bool :=
  match regions ← nd_ap n; regions !! region with Some _ => true | None => false end.

Definition mr_insert (region : N) (g : HostedGroup) (n : Node) : Node :=
  match nd_raft n with
  | Some groups => match groups !! region with Some _ => n | None => n <| nd_raft := Some (<[region := g]> groups) |> end
  | None => n
  end.

Definition ap_insert (region : N) (peers : gmap N bytes) (n : Node) : Node :=
  match nd_ap n with
  | Some regions => n <| nd_ap := Some (<[region := peers]> regions) |>
  | None => n
  end.

(** [RegionRegistry::adopt] on the node. *)
Definition adopt_regions (regions : list Region) : AM unit :=
  io ← p_await NcPersist;
  r ← k_step (λ n, let '(r, reg) := adopt io regions (nd_regions n) in (n <| nd_regions := reg |>, r));
  match r with inl _ => mret tt | inr _ => k_fail AeIo end.

(** * Groups *)

(** A new actor publishes a follower of its bootstrap configuration. *)
Definition fresh_observable (voters : list N) : Observable := mkObservable Follower None voters [] [].

Definition start_cp_group (region : N) (start end_ : bytes) (voters : list N) (peers : gmap N bytes) : AM unit :=
  replicated ← k_look (λ n, match nd_raft n with Some _ => true | None => false end);
  if negb (replicated : bool) then k_fail (AeMsg "node is not in replicated (multiraft) mode") else
  hosted ← k_look (nd_group region);
  match hosted with
  | Some _ => mret tt
  | None =>
    opened ← p_await (NcOpenWal region);
    if opened : bool then
      k_step (λ n, (mr_insert region (mkHostedGroup start end_ voters peers (fresh_observable voters)) n, tt))
    else k_fail AeIo
  end.

Definition host_region (p : RegionPlacement) : AM unit :=
  let region := rl_region p in
  hosted ← k_look (nd_group (r_id region));
  match hosted with
  | Some _ => mret tt
  | None =>
    regions ← k_look (λ n, list_regions (nd_regions n));
    _ ← adopt_regions (regions ++ [region]);
    start_cp_group (r_id region) (r_start region) (r_end region) [] (rl_peers p)
  end.

(** [AppState::found_region]. *)
Definition found_group (region : Region) (voters : list N) (peers : gmap N bytes) : AM unit :=
  start_cp_group (r_id region) (r_start region) (r_end region) voters peers.

(** The smallest of a list. *)
Definition lowest (l : list N) : option N :=
  match l with [] => None | x :: l => Some (fold_left N.min l x) end.

(** The body of the loop of [found_missing_regions], and what it founded. *)
Definition found_missing (tables : Tables) (founded : list N) (region : Region) : AM (list N) :=
  hosted ← k_look (nd_group (r_id region));
  match hosted with
  | Some _ => mret founded
  | None =>
    ap ← k_look (nd_hosts (r_id region));
    if ap : bool then mret founded else
    leaderless ← k_look (λ n, match nd_ap n with Some _ => bool_decide (regime_of_key (r_start region) tables = Ap) | None => false end);
    if leaderless : bool then
      _ ← k_step (λ n, (ap_insert (r_id region) (nd_peers n) n, tt));
      mret founded
    else
      voters ← k_look nd_voters;
      peers ← k_look nd_peers;
      _ ← found_group region voters peers;
      mret (founded ++ [r_id region])
  end.

Fixpoint found_all (tables : Tables) (founded : list N) (regions : list Region) : AM (list N) :=
  match regions with
  | [] => mret founded
  | region :: regions => founded ← found_missing tables founded region; found_all tables founded regions
  end.

(** Campaigns of the groups whose lowest voter is this node, or that have no voters. *)
Fixpoint campaign_all (ids : list N) : AM unit :=
  match ids with
  | [] => mret tt
  | id :: ids =>
    mine ← k_look (λ n, match lowest (nd_voters n) with Some v => v =? nd_id n | None => true end);
    hosted ← k_look (nd_group id);
    _ ← match hosted with Some _ => if mine : bool then p_await (NcCampaign id) else mret tt | None => mret tt end;
    campaign_all ids
  end.

Definition found_missing_regions : AM unit :=
  replicated ← k_look (λ n, match nd_raft n with Some _ => true | None => false end);
  if negb (replicated : bool) then mret tt else
  tables ← k_look nd_tables;
  regions ← k_look (λ n, list_regions (nd_regions n));
  founded ← found_all tables [] regions;
  campaign_all founded.

(** * Topology *)

(** [RaftGroup::add_peer] for each address: a peer that is known keeps the client it has. *)
Definition add_peers (me : N) (addrs : gmap N bytes) (g : HostedGroup) : HostedGroup :=
  g <| hg_peers := hg_peers g ∪ filter (λ p, p.1 ≠ me) addrs |>.

Definition adopt_topology (voters : list N) (addrs : gmap N bytes) (n : Node) : Node :=
  let n := if is_empty voters then n else n <| nd_voters := voters |> in
  if bool_decide (addrs = ∅) then n else
  let n := match nd_raft n with
           | Some groups => n <| nd_raft := Some (add_peers (nd_id n) addrs <$> groups) |>
           | None => n
           end in
  n <| nd_peers := addrs |>.

Definition peers_among (ids : list N) (n : Node) : gmap N bytes :=
  list_to_map (omap (λ id, (λ a, (id, a)) <$> nd_peers n !! id) (List.filter (λ id, negb (id =? nd_id n)) ids)).

Definition hosted_region_ids (n : Node) : list N := merge_sort N.le (r_id <$> list_regions (nd_regions n)).

(** * Heartbeats *)

Definition reported_regions (n : Node) : list PbRegion :=
  (λ r,
    let regime := if nd_hosts (r_id r) n then Ap else Cp in
    let voters := match nd_group (r_id r) n with
                  | Some g => if bool_decide (o_role (hg_obs g) = Leader) then merge_sort N.le (o_voters (hg_obs g)) else []
                  | None => []
                  end in
    replica_set_to_proto (mkReplicaSet r regime voters [])) <$> list_regions (nd_regions n).

Definition heartbeat_request (pd : PdHandle) (n : Node) : HeartbeatRequest :=
  mkHeartbeatRequest (ph_node_id pd) (reported_regions n) (ph_address pd) (nd_store_id n).

Record Assignment := mkAssignment {
  as_regions : list ReplicaSet; as_tables : list Table; as_nodes : gmap N bytes; as_version : N; as_replicas : N;
}.

Definition assignment_of (resp : HeartbeatResponse) : Assignment :=
  mkAssignment (replica_set_from_proto <$> hp_regions resp) (table_from_proto <$> hp_tables resp)
    (list_to_map (rev ((λ a, (pa_node_id a, pa_address a)) <$> hp_nodes resp))) (hp_catalog_version resp) (hp_replicas resp).

Definition fetch_assignment (pd : PdHandle) : AM Assignment :=
  req ← k_look (heartbeat_request pd);
  resp ← pd_call (PHeartbeat req);
  mret (assignment_of resp).

(** One region of the assignment: what is founded is campaigned for later. *)
Definition take_on (founded : list N) (rs : ReplicaSet) : AM (list N) :=
  let region := rp_region rs in
  match rp_regime rs with
  | Ap =>
    _ ← k_step (λ n, (ap_insert (r_id region) (peers_among (rp_desired rs) n) n, tt));
    mret founded
  | Cp =>
    hosted ← k_look (nd_group (r_id region));
    match hosted with
    | Some _ => mret founded
    | None =>
      me ← k_look nd_id;
      if has me (rp_voters rs) then
        peers ← k_look nd_peers;
        _ ← found_group region (rp_voters rs) peers;
        mret (founded ++ [r_id region])
      else if has me (rp_desired rs) then
        peers ← k_look nd_peers;
        _ ← host_region (mkPlacement region Cp [] peers);
        mret founded
      else mret founded
    end
  end.

Fixpoint take_on_all (founded : list N) (assigned : list ReplicaSet) : AM (list N) :=
  match assigned with
  | [] => mret founded
  | rs :: assigned => founded ← take_on founded rs; take_on_all founded assigned
  end.

(** The founder with the lowest id campaigns. *)
Fixpoint campaign_founded (assigned : list ReplicaSet) (ids : list N) : AM unit :=
  match ids with
  | [] => mret tt
  | id :: ids =>
    first ← k_look (λ n, match List.find (λ rs, r_id (rp_region rs) =? id) assigned with
                         | Some rs => bool_decide (lowest (rp_voters rs) = Some (nd_id n))
                         | None => false
                         end);
    hosted ← k_look (nd_group id);
    _ ← match hosted with Some _ => if first : bool then p_await (NcCampaign id) else mret tt | None => mret tt end;
    campaign_founded assigned ids
  end.

Definition desired_of (assigned : list ReplicaSet) : gmap N (list N) :=
  fold_left (λ m rs, <[r_id (rp_region rs) := rp_desired rs]> m) assigned ∅.

Definition reconcile : AM N :=
  applied ← k_look nd_applied;
  pd ← k_look nd_pd;
  match pd with
  | None => mret applied
  | Some pd =>
    a ← fetch_assignment pd;
    if (as_version a =? 0) || (as_version a <=? applied) then mret applied else
    _ ← k_step (λ n, (n <| nd_tables := install (as_tables a) (nd_tables n) |>, tt));
    _ ← k_step (λ n, (adopt_topology [] (as_nodes a) n, tt));
    _ ← k_step (λ n, (n <| nd_desired := desired_of (as_regions a) |>, tt));
    founded ← take_on_all [] (as_regions a);
    _ ← adopt_regions (rp_region <$> as_regions a);
    _ ← k_step (λ n, (n <| nd_applied := as_version a |>, tt));
    _ ← campaign_founded (as_regions a) founded;
    mret (as_version a)
  end.

(** [RaftGroup::peer_caught_up], as published. *)
Definition caught_up (o : Observable) (peer : N) : bool :=
  match bt_get peer (o_progress o) with Some (matched, last) => last <=? matched | None => false end.

(** The regions in the order in which the map gives them; each is on its own. *)
Fixpoint drive_regions (desired : list (N * list N)) : AM unit :=
  match desired with
  | [] => mret tt
  | (region, want) :: desired =>
    change ← k_look (λ n,
      match nd_group region n with
      | Some g =>
        if bool_decide (o_role (hg_obs g) = Leader) then
          next_step (o_voters (hg_obs g)) (o_learners (hg_obs g)) want (caught_up (hg_obs g))
        else None
      | None => None
      end);
    _ ← match change with Some cc => p_await (NcConfChange region cc) | None => mret tt end;
    drive_regions desired
  end.

Definition drive_upreplication : AM unit :=
  desired ← k_look (λ n, match nd_raft n with Some _ => map_to_list (nd_desired n) | None => [] end);
  drive_regions desired.

(** A node that PD places keeps its own region at a newer epoch. *)
Definition keep_newer (n : Node) (r : Region) : Region :=
  match by_id (r_id r) (nd_regions n) with
  | Some local => if r_epoch r <? r_epoch local then local else r
  | None => r
  end.

Definition node_heartbeat : AM unit :=
  pd ← k_look nd_pd;
  match pd with
  | None => mret tt
  | Some pd =>
    if negb (ph_adopt_assignment pd) then
      _ ← reconcile;
      drive_upreplication
    else
      req ← k_look (heartbeat_request pd);
      resp ← pd_call (PHeartbeat req);
      assigned ← k_look (λ n, keep_newer n ∘ from_proto <$> hp_regions resp);
      adopt_regions assigned
  end.

(** [attach_pd]; [parse_error] is what [PdLink::parse] refuses the addresses with, the clock's
    swap is [KvService]'s.  A refusal by PD is surfaced as its text. *)
Definition attach_pd (parse_error : option string) (address : bytes) : AM unit :=
  match parse_error with
  | Some e => k_fail (AeMsg e)
  | None =>
    fresh ← k_step (λ n, match nd_pd n with
                         | Some _ => (n, false)
                         | None => (n <| nd_pd := Some (mkPdHandle (nd_id n) address false) |>, true)
                         end);
    if fresh : bool then
      prog_bind node_heartbeat (λ r, Ret (match r with inl (AeStatus s) => inl (AeMsg (ts_message s)) | r => r end))
    else k_fail (AeMsg "attach_pd: this node is already connected to PD")
  end.

(** * Requests *)

Abbreviation HM := (Fallible AdminAnswer TStatus Node).

Definition map_err {A} (f : AdminError → TStatus) (p : AM A) : HM A :=
  prog_bind p (λ r, Ret (match r with inl e => inl (f e) | inr a => inr a end)).

Definition internal (msg : string) : TStatus := mkTStatus false InternalCode msg.

(** [reject_if_pd_owns_the_region_table]. *)
Definition reject_if_pd_owns : HM unit :=
  owned ← k_look (λ n, match nd_pd n, nd_raft n with Some _, Some _ => true | _, _ => false end);
  if owned : bool then k_fail (mkTStatus false FailedPreconditionCode "PD owns the region table") else mret tt.

Definition kv_split_region (split_key : bytes) : HM (Region * Region) :=
  _ ← reject_if_pd_owns;
  io ← p_await NcPersist;
  r ← k_step (λ n, let '(r, reg) := split io split_key (nd_regions n) in (n <| nd_regions := reg |>, r));
  match r with
  | inr _ => k_fail (mkTStatus false InvalidArgumentCode "split")
  | inl halves =>
    _ ← map_err (λ _, internal "split") found_missing_regions;
    _ ← map_err (λ _, internal "split applied but PD heartbeat failed") node_heartbeat;
    mret halves
  end.

Definition kv_merge_region (boundary : bytes) : HM Region :=
  _ ← reject_if_pd_owns;
  io ← p_await NcPersist;
  r ← k_step (λ n, let '(r, reg) := merge io boundary (nd_regions n) in (n <| nd_regions := reg |>, r));
  match r with
  | inr _ => k_fail (mkTStatus false InvalidArgumentCode "merge")
  | inl merged =>
    _ ← map_err (λ _, internal "merge applied but PD heartbeat failed") node_heartbeat;
    mret merged
  end.

(** PD's own answers keep their code. *)
Definition pd_status (s : TStatus) : TStatus :=
  if ts_source s then mkTStatus false UnavailableCode "PD is unreachable — tables can only be created while PD is up"
  else mkTStatus false (ts_code s) (ts_message s).

(** Errors of the link are statuses. *)
Definition status_of (e : AdminError) : TStatus :=
  match e with AeStatus s => pd_status s | AeIo => internal "i/o" | AeMsg m => internal m end.

Definition create_table_via_pd (name : bytes) (regime : Regime) : HM (option PbRegion * N) :=
  pd ← k_look nd_pd;
  match pd with
  | None => k_fail (internal "create_table: PD handle vanished")
  | Some _ =>
    resp ← map_err status_of (pd_call (PCreateTable name (regime_to_proto regime)));
    match ct_region resp with
    | None => k_fail (internal "create_table: PD returned no region")
    | Some region =>
      _ ← prog_bind reconcile (λ _, Ret (inr tt));
      let actual := regime_from_proto (pb_regime region) in
      _ ← k_step (λ n, (n <| nd_tables := Catalog_insert (mkTable (ct_table_id resp) name actual) (nd_tables n) |>, tt));
      mret (Some region, ct_table_id resp)
    end
  end.

(** [Regime::try_from]. *)
Definition regime_of_request (n : N) : option Regime := if n =? 0 then Some Cp else if n =? 1 then Some Ap else None.

Definition kv_create_table (name : bytes) (regime : N) : HM (option PbRegion * N) :=
  if is_empty name || bool_decide (name = DEFAULT_TABLE_NAME)
  then k_fail (mkTStatus false InvalidArgumentCode "create_table: the name is reserved") else
  match regime_of_request regime with
  | None => k_fail (mkTStatus false InvalidArgumentCode "create_table: invalid regime")
  | Some regime =>
    pd ← k_look nd_pd;
    match pd with
    | None => k_fail (mkTStatus false FailedPreconditionCode "create_table: PD allocates table ids, and this node has none")
    | Some _ =>
      existing ← k_look (λ n, Tables_regime_of name (nd_tables n));
      match existing with
      | Some existing =>
        if negb (bool_decide (existing = regime)) then k_fail (mkTStatus false AlreadyExistsCode "table already exists")
        else create_table_via_pd name regime
      | None => create_table_via_pd name regime
      end
    end
  end.

Definition kv_reconcile : HM (N * list N) :=
  version ← map_err (λ _, internal "reconcile") reconcile;
  ids ← k_look (λ n, r_id <$> list_regions (nd_regions n));
  mret (version, ids).

(** * Opening a node *)

(** The groups and AP regions of [open_multiraft], over an empty region table; [log_ok] is
    whether the log of each region opens. *)
Fixpoint open_placements (log_ok : N → bool) (ps : list RegionPlacement)
    (acc : gmap N HostedGroup * gmap N (gmap N bytes)) : option (gmap N HostedGroup * gmap N (gmap N bytes)) :=
  match ps with
  | [] => Some acc
  | p :: ps =>
    let id := r_id (rl_region p) in
    match rl_regime p with
    | Cp =>
      if log_ok id then
        open_placements log_ok ps
          (<[id := mkHostedGroup (r_start (rl_region p)) (r_end (rl_region p)) (rl_voters p) (rl_peers p) (fresh_observable (rl_voters p))]> acc.1, acc.2)
      else None
    | Ap => open_placements log_ok ps (acc.1, <[id := rl_peers p]> acc.2)
    end
  end.

Definition open_multiraft (node_id : N) (store_id : bytes) (registry : RegionRegistry) (io : bool) (log_ok : N → bool)
    (placements : list RegionPlacement) : option Node :=
  match adopt io (rl_region <$> placements) registry with
  | (inr _, _) => None
  | (inl _, regions) =>
    let voters := match placements with p :: _ => rl_voters p | [] => [node_id] end in
    let peers := match placements with p :: _ => rl_peers p | [] => ∅ end in
    '(groups, ap) ← open_placements log_ok placements (∅, ∅);
    Some (mkNode node_id store_id regions (Some groups) (Some ap) Tables_bootstrap voters peers 0 ∅ None)
  end.

Definition open_replicated (node_id : N) (store_id : bytes) (registry : RegionRegistry) (io : bool) (log_ok : N → bool)
    (voters : list N) (peers : gmap N bytes) : option Node :=
  open_multiraft node_id store_id registry io log_ok [mkPlacement (whole_keyspace 1) Cp voters peers].

Definition open_pd_node (node_id : N) (store_id : bytes) (registry : RegionRegistry) (io : bool) : option Node :=
  open_multiraft node_id store_id registry io (λ _, true) [].

(** A node placed by PD: what it starts as, and its first heartbeat. *)
Definition open_with_pd (node_id : N) (store_id address : bytes) (registry : RegionRegistry) : Node * AM unit :=
  (mkNode node_id store_id registry None None Tables_bootstrap [node_id] ∅ 0 ∅ (Some (mkPdHandle node_id address true)),
   node_heartbeat).

Definition declare_tables (tables : list Table) (n : Node) : Node := n <| nd_tables := install tables (nd_tables n) |>.

(** The placements of [open_catalog_node]: one region per table, the default's first. *)
Definition catalog_placements (voters : list N) (peers : gmap N bytes) (tables : list (bytes * Regime)) : list RegionPlacement :=
  let first := mkPlacement (mkRegion 1 [] (if is_empty tables then [] else (table_range (DEFAULT_TABLE_ID + 1)).1) 1) Cp voters peers in
  first :: imap (λ i t,
    let id := N.of_nat i + 1 in
    let '(start, end_) := table_range id in
    let last := (S i =? length tables)%nat in
    mkPlacement (mkRegion (id + 1) start (if last then [] else end_) 1) t.2 voters peers) tables.

Definition catalog_tables (tables : list (bytes * Regime)) : list Table :=
  imap (λ i t, mkTable (N.of_nat i + 1) t.1 t.2) tables.

Definition open_catalog_node (node_id : N) (store_id : bytes) (registry : RegionRegistry) (io : bool) (log_ok : N → bool)
    (voters : list N) (peers : gmap N bytes) (tables : list (bytes * Regime)) : option Node :=
  let voters := if is_empty voters then [node_id] else voters in
  n ← open_multiraft node_id store_id registry io log_ok (catalog_placements voters peers tables);
  Some (declare_tables (catalog_tables tables) n).

(** * Serving *)

(** The background tasks of [serve_on], decided when it starts: heartbeats, and anti-entropy. *)
Definition serve_tasks : AM (bool * bool) :=
  k_look (λ n, (match nd_pd n with Some _ => true | None => false end,
                match nd_ap n with Some regions => negb (bool_decide (regions = ∅)) | None => false end)).

(** [serve_catalog], from the node that [open_pd_node] gives. *)
Definition serve_catalog (parse_error : option string) (address : bytes) : AM (bool * bool) :=
  _ ← attach_pd parse_error address;
  serve_tasks.
