(* ===== verification/NodeTheorems.v ===== *)
(** A node's reconciliation with PD: it serves every region it routes, with the configuration
    PD decided; the theorem with its witness, and behaviours outside its hypotheses. *)

From stdpp Require Import base list numbers strings gmap sorting.
From Stdlib Require Import Strings.Byte.
From S2P Require Import Prelude Prog Grpc Cursor PdRegion PdRegionCorrect PdCluster PdFsm PdService Catalog RaftMessage.
From S2P Require Import RaftNode GroupActor Upreplicate NodeAdmin PdLink.

Implicit Types (n : Node) (rs : ReplicaSet).

(** How a group was founded. *)
Definition config (g : HostedGroup) : bytes * bytes * list N := (hg_start g, hg_end g, hg_voters g).
Definition configs n : option (gmap N (bytes * bytes * list N)) := (λ gs : gmap N HostedGroup, config <$> gs) <$> nd_raft n.

(** Between two steps the groups run: what they publish changes, and the peers they know. *)
Definition quiet n n' : Prop :=
  n' = n <| nd_raft := nd_raft n' |> ∧ configs n' = configs n.

Lemma configs_Some n cs : configs n = Some cs → ∃ gs, nd_raft n = Some gs ∧ config <$> gs = cs.
Proof. unfold configs. destruct (nd_raft n) as [gs|]; [|done]. intros [= <-]. eauto. Qed.

Lemma nd_group_configs id n : config <$> nd_group id n = configs n ≫= (!!) id.
Proof. unfold nd_group, configs. destruct (nd_raft n) as [gs|]; [|done]. cbn. by rewrite lookup_fmap. Qed.

Lemma nd_group_quiet id n n' : quiet n n' → config <$> nd_group id n' = config <$> nd_group id n.
Proof. intros [_ Hc]. by rewrite !nd_group_configs, Hc. Qed.

(** The answer of PD's service to a heartbeat, from one state of its state machine. *)
Definition assignment_response (f : PdFsm) (node_id : N) : HeartbeatResponse :=
  mkHeartbeatResponse (replica_set_to_proto <$> assignment_for node_id f) (f_version f) (table_to_proto <$> catalog f)
    ((λ p, node_addr_to_proto p.1 p.2) <$> node_addrs (f_members f)) (as_u32 (N.of_nat (f_replicas f))).

(** So it is, unless the state machine applies a command between the reads. *)
Lemma heartbeat_response_at f id (answers : ∀ c, PdGroup → PdAnswer c → PdGroup → Prop) g (Q : TStatus + HeartbeatResponse → PdGroup → Prop) :
  pg_fsm g = f → (∀ g', pg_fsm g' = f → Q (inr (assignment_response f id)) g') →
  wp (λ g g', pg_fsm g' = pg_fsm g) answers (heartbeat_response (assignment_for id f)) Q g.
Proof.
  intros <- HQ. unfold heartbeat_response. rewrite wp_bind. apply wp_look. intros g1 H1. cbn [then_].
  rewrite wp_bind. apply wp_look. intros g2 H2. cbn [then_]. rewrite wp_bind. apply wp_look. intros g3 H3. cbn [then_].
  rewrite wp_bind. apply wp_look. intros g4 H4. cbn [then_]. rewrite H4, H3, H2, H1. apply HQ. congruence.
Qed.

Section reconcile.
(** The state of PD's state machine when it answers. *)
Context (f : PdFsm).

Definition answers_admin (c : AdminCall) n : AdminAnswer c → Node → Prop :=
  match c with
  | NcPd r => λ a n', n' = n ∧
    match r in PdRpc T return TStatus + T → Prop with
    | PHeartbeat req => λ a, a = inr (assignment_response f (hq_node_id req)) ∨ ∃ s, a = inl s
    | _ => λ _, True
    end a
  | NcOpenWal _ | NcPersist => λ _ n', n' = n
  | NcCampaign _ | NcConfChange _ _ => λ _ n', quiet n n'
  end.

Abbreviation wpa := (wp quiet answers_admin).

(** ** Steps *)

(** A predicate that the groups' running does not change. *)
Class Stable (P : Node → Prop) := stable n n' : quiet n n' → P n → P n'.

Lemma wp_look_stable {A} (g : Node → A) P `{!Stable P} n (Q : AdminError + A → Node → Prop) :
  P n → (∀ n1, P n1 → Q (inr (g n1)) n1) → wpa (k_look g) Q n.
Proof. intros HP HQ. apply wp_look. intros n1 Hq. apply HQ. by eapply stable. Qed.

Lemma wp_step_stable {A} (g : Node → Node * A) P `{!Stable P} n (Q : AdminError + A → Node → Prop) :
  P n → (∀ n1, P n1 → Q (inr (g n1).2) (g n1).1) → wpa (k_step g) Q n.
Proof. intros HP HQ. apply wp_step. intros n1 Hq. apply HQ. by eapply stable. Qed.

Lemma wp_io_stable (c : AdminCall) P `{!Stable P} n (Q : AdminError + AdminAnswer c → Node → Prop) :
  (match c with NcPd _ => False | _ => True end) → P n → (∀ a n1, P n1 → Q (inr a) n1) → wpa (p_await c) Q n.
Proof.
  intros Hc HP HQ. cbn [wp p_await]. intros n1 a n2 Hq Ha. assert (HP1 : P n1) by (by eapply stable).
  apply HQ. destruct c; cbn in Ha; [done|by subst|by subst|by eapply stable|by eapply stable].
Qed.

(** ** Groups *)

(** The group of a region exists, with some configuration or with this one. *)
Definition has_group (id : N) n : Prop := is_Some (nd_group id n).

(** The node while it takes on regions: [n0] is where it began, [done] what it has taken on. *)
Record taking (n0 : Node) (done : list ReplicaSet) n : Prop := mkTaking {
  tk_id : nd_id n = nd_id n0;
  tk_pd : nd_pd n = nd_pd n0;
  tk_tables : nd_tables n = nd_tables n0;
  tk_applied : nd_applied n = nd_applied n0;
  tk_desired : nd_desired n = nd_desired n0;
  tk_raft : ∃ cs0 cs, configs n0 = Some cs0 ∧ configs n = Some cs ∧ cs0 ⊆ cs ∧
    (∀ id c, cs !! id = Some c → cs0 !! id = Some c ∨
      ∃ rs, rs ∈ done ∧ rp_regime rs = Cp ∧ r_id (rp_region rs) = id ∧
        c = (r_start (rp_region rs), r_end (rp_region rs), if has (nd_id n0) (rp_voters rs) then rp_voters rs else [])) ∧
    (∀ rs, rs ∈ done → rp_regime rs = Cp → has (nd_id n0) (rp_voters rs) || has (nd_id n0) (rp_desired rs) = true →
      is_Some (cs !! r_id (rp_region rs)));
  tk_ap : ∃ ap, nd_ap n = Some ap ∧ ∀ rs, rs ∈ done → rp_regime rs = Ap → is_Some (ap !! r_id (rp_region rs));
}.

#[local] Instance taking_stable n0 done : Stable (taking n0 done).
Proof.
  intros n n' [-> Hc] [Hi Hp Ht Ha Hd (cs0 & cs & Hr) Hap]. split; [done..| |done].
  exists cs0, cs. destruct Hr as (? & ? & ?). split; [done|]. split; [|done]. by rewrite Hc.
Qed.

Definition lacks (id : N) n : Prop := nd_group id n = None.

#[local] Instance lacks_stable id : Stable (lacks id).
Proof.
  intros n n' Hq%(nd_group_quiet id) Hl. unfold lacks in *. rewrite Hl in Hq. by destruct (nd_group id n').
Qed.

#[local] Instance has_stable id : Stable (has_group id).
Proof.
  intros n n' Hq%(nd_group_quiet id) [g Hg]. unfold has_group. rewrite Hg in Hq. destruct (nd_group id n') as [g'|]; [by exists g'|done].
Qed.

(** The group of the next region is still to be started. *)
Definition unstarted n0 done (id : N) n : Prop := taking n0 done n ∧ lacks id n.

#[local] Instance unstarted_stable n0 done id : Stable (unstarted n0 done id).
Proof. intros n n' Hq [HP HQ]. split; by eapply stable. Qed.

Lemma mr_insert_configs id g n cs :
  configs n = Some cs → lacks id n → configs (mr_insert id g n) = Some (<[id := config g]> cs).
Proof.
  intros (gs & Hr & <-)%configs_Some Hl. unfold lacks, nd_group in Hl. rewrite Hr in Hl. cbn in Hl.
  unfold mr_insert, configs. rewrite Hr, Hl. cbn. by rewrite fmap_insert.
Qed.

Lemma mr_insert_frame id g n : mr_insert id g n = n <| nd_raft := nd_raft (mr_insert id g n) |>.
Proof. unfold mr_insert. destruct n as [??? [gs|] ???????]; cbn; [|done]. by destruct (gs !! id). Qed.

Lemma taking_regions n0 done n R : taking n0 done n → taking n0 done (n <| nd_regions := R |>).
Proof. intros []. by split. Qed.

(** Taking on one more region. *)
Lemma taking_skip n0 done n rs :
  taking n0 done n → rp_regime rs = Cp →
  (has (nd_id n0) (rp_voters rs) || has (nd_id n0) (rp_desired rs) = true → has_group (r_id (rp_region rs)) n) →
  taking n0 (done ++ [rs]) n.
Proof.
  intros [Hi Hp Ht Ha Hd (cs0 & cs & H0 & Hcs & Hsub & Hfrom & Hdone) (ap & Hap & Hapd)] Hcp Hg. split; [done..| |].
  - exists cs0, cs. split_and!; [done..| |].
    + intros id c Hc. destruct (Hfrom id c Hc) as [?|(rs' & Hin & Hr)]; [by left|]. right. exists rs'. split; [|done].
      apply elem_of_app. by left.
    + intros rs' [Hin| ->%list_elem_of_singleton]%elem_of_app Hr Hv; [by apply Hdone|]. specialize (Hg Hv) as [g Hg].
      pose proof (nd_group_configs (r_id (rp_region rs)) n) as Hc. rewrite Hg, Hcs in Hc. cbn in Hc. rewrite <- Hc. by eexists.
  - exists ap. split; [done|]. intros rs' [Hin| ->%list_elem_of_singleton]%elem_of_app Hr; [by apply Hapd|congruence].
Qed.

Lemma taking_found n0 done n rs peers obs :
  taking n0 done n → rp_regime rs = Cp → lacks (r_id (rp_region rs)) n →
  taking n0 (done ++ [rs]) (mr_insert (r_id (rp_region rs))
    (mkHostedGroup (r_start (rp_region rs)) (r_end (rp_region rs))
      (if has (nd_id n0) (rp_voters rs) then rp_voters rs else []) peers obs) n).
Proof.
  intros [Hi Hp Ht Ha Hd (cs0 & cs & H0 & Hcs & Hsub & Hfrom & Hdone) (ap & Hap & Hapd)] Hcp Hl.
  set (id := r_id (rp_region rs)) in *. set (g := mkHostedGroup _ _ _ _ _).
  pose proof (mr_insert_configs id g n cs Hcs Hl) as Hins. pose proof (mr_insert_frame id g n) as Hfr.
  assert (Hnone : cs !! id = None).
  { pose proof (nd_group_configs id n) as Hc. rewrite Hl, Hcs in Hc. cbn in Hc. by rewrite <- Hc. }
  split; [by rewrite Hfr..| |].
  - exists cs0, (<[id := config g]> cs). split; [done|]. split; [done|]. split; [|split].
    + etransitivity; [exact Hsub|]. by apply insert_subseteq.
    + intros id' c. destruct (decide (id' = id)) as [->|Hne].
      * rewrite lookup_insert_eq. intros [= <-]. right. exists rs. split; [|done]. apply elem_of_app. right. by left.
      * rewrite lookup_insert_ne by done. intros Hc. destruct (Hfrom id' c Hc) as [?|(rs' & Hin & Hr)]; [by left|].
        right. exists rs'. split; [|done]. apply elem_of_app. by left.
    + intros rs' [Hin| ->%list_elem_of_singleton]%elem_of_app Hr Hv.
      * destruct (Hdone rs' Hin Hr Hv) as [c Hc]. destruct (decide (r_id (rp_region rs') = id)) as [->|Hne];
          [rewrite lookup_insert_eq|rewrite lookup_insert_ne by done]; by eexists.
      * rewrite lookup_insert_eq. by eexists.
  - exists ap. rewrite Hfr. split; [done|]. intros rs' [Hin| ->%list_elem_of_singleton]%elem_of_app Hr; [by apply Hapd|congruence].
Qed.

Lemma taking_ap n0 done n rs peers :
  taking n0 done n → rp_regime rs = Ap → taking n0 (done ++ [rs]) (ap_insert (r_id (rp_region rs)) peers n).
Proof.
  intros [Hi Hp Ht Ha Hd (cs0 & cs & H0 & Hcs & Hsub & Hfrom & Hdone) (ap & Hap & Hapd)] Hr. unfold ap_insert. rewrite Hap.
  split; [done..| |].
  - exists cs0, cs. split_and!; [done..| |].
    + intros id c Hc. destruct (Hfrom id c Hc) as [?|(rs' & Hin & Hx)]; [by left|]. right. exists rs'. split; [|done].
      apply elem_of_app. by left.
    + intros rs' [Hin| ->%list_elem_of_singleton]%elem_of_app Hr' Hv; [by apply Hdone|congruence].
  - exists (<[r_id (rp_region rs) := peers]> ap). split; [done|].
    intros rs' [Hin| ->%list_elem_of_singleton]%elem_of_app Hr'; [|rewrite lookup_insert_eq; by eexists].
    destruct (Hapd rs' Hin Hr') as [x Hx]. destruct (decide (r_id (rp_region rs') = r_id (rp_region rs))) as [->|Hne];
      [rewrite lookup_insert_eq|rewrite lookup_insert_ne by done]; by eexists.
Qed.

(** ** The operations *)

(** A group is started, or its log does not open. *)
Lemma start_group_ok n0 done rs peers n (Q : AdminError + unit → Node → Prop) :
  taking n0 done n → rp_regime rs = Cp → lacks (r_id (rp_region rs)) n →
  (∀ e n1, taking n0 done n1 → Q (inl e) n1) → (∀ n1, taking n0 (done ++ [rs]) n1 → Q (inr tt) n1) →
  wpa (start_cp_group (r_id (rp_region rs)) (r_start (rp_region rs)) (r_end (rp_region rs))
    (if has (nd_id n0) (rp_voters rs) then rp_voters rs else []) peers) Q n.
Proof.
  intros Ht Hcp Hl Herr HQ. unfold start_cp_group.
  assert (HP : unstarted n0 done (r_id (rp_region rs)) n) by done.
  rewrite wp_bind. apply (wp_look_stable _ (unstarted n0 done (r_id (rp_region rs)))); [exact HP|]. intros n1 HP1. cbn [then_].
  destruct (HP1) as [[_ _ _ _ _ (cs0 & cs & _ & Hcs & _) _] _]. destruct (configs_Some _ _ Hcs) as (gs & Hgs & _). rewrite Hgs. cbn [negb].
  rewrite wp_bind. apply (wp_look_stable _ (unstarted n0 done (r_id (rp_region rs)))); [exact HP1|]. intros n2 HP2. cbn [then_]. destruct (HP2) as [Ht2 Hl2].
  unfold lacks in Hl2. rewrite Hl2. rewrite wp_bind. apply (wp_io_stable (NcOpenWal _) (unstarted n0 done (r_id (rp_region rs)))); [done|exact HP2|].
  intros opened n3 HP3. cbn [then_]. destruct opened; [|by apply Herr, HP3].
  apply (wp_step_stable _ (unstarted n0 done (r_id (rp_region rs)))); [exact HP3|]. intros n4 [Ht4 Hl4]. apply HQ. by apply taking_found.
Qed.

Lemma adopt_regions_ok regions P `{!Stable P} n (Q : AdminError + unit → Node → Prop) :
  P n → (∀ n1 R, P n1 → Q (inl AeIo) (n1 <| nd_regions := R |>)) →
  (∀ n1 R, P n1 → rs_regions (reg_state R) = merge_sort start_le regions → Q (inr tt) (n1 <| nd_regions := R |>)) →
  wpa (adopt_regions regions) Q n.
Proof.
  intros HP Herr HQ. unfold adopt_regions. rewrite wp_bind. apply (wp_io_stable NcPersist P); [done|exact HP|].
  intros io n1 HP1. cbn [then_]. rewrite wp_bind. apply (wp_step_stable _ P); [exact HP1|]. intros n2 HP2.
  destruct (adopt io regions (nd_regions n2)) as [r R] eqn:Ea. cbn [fst snd then_].
  assert (HR : rs_regions (reg_state R) = merge_sort start_le regions).
  { unfold adopt in Ea. pose proof (persist_state io (replace regions (nd_regions n2))) as Hp. rewrite Ea in Hp. cbn in Hp. by rewrite Hp. }
  destruct r; [by apply HQ|by apply Herr].
Qed.

Lemma take_on_ok n0 done founded rs n (Q : AdminError + list N → Node → Prop) :
  taking n0 done n → (∀ e n1, taking n0 done n1 → Q (inl e) n1) →
  (∀ l n1, taking n0 (done ++ [rs]) n1 → Q (inr l) n1) → wpa (take_on founded rs) Q n.
Proof.
  intros Ht Herr HQ. unfold take_on. destruct (rp_regime rs) eqn:Er.
  2: { rewrite wp_bind. apply (wp_step_stable _ (taking n0 done)); [done|]. intros n1 Ht1. cbn [fst snd then_].
       apply HQ. by apply taking_ap. }
  rewrite wp_bind. apply wp_look. intros n1 Hq. pose proof (stable _ _ Hq Ht) as Ht1. cbn [then_].
  destruct (nd_group (r_id (rp_region rs)) n1) as [g|] eqn:Eg.
  { apply HQ. apply taking_skip; [done..|]. intros _. by exists g. }
  assert (HP : unstarted n0 done (r_id (rp_region rs)) n1) by done.
  rewrite wp_bind. apply (wp_look_stable _ (unstarted n0 done (r_id (rp_region rs)))); [exact HP|]. intros n2 HP2. cbn [then_].
  rewrite (tk_id _ _ _ (proj1 HP2)). destruct (has (nd_id n0) (rp_voters rs)) eqn:Ev.
  - rewrite wp_bind. apply (wp_look_stable _ (unstarted n0 done (r_id (rp_region rs)))); [exact HP2|]. intros n3 [Ht3 Hl3]. cbn [then_].
    rewrite wp_bind. unfold found_group.
    pose proof (start_group_ok n0 done rs (nd_peers n3) n3) as Hs. rewrite Ev in Hs. apply Hs; [done..| |]; clear Hs.
    + intros e n4 Ht4. by apply Herr.
    + intros n4 Ht4. by apply HQ.
  - destruct (has (nd_id n0) (rp_desired rs)) eqn:Ed.
    2: { apply HQ. apply taking_skip; [apply HP2|done|]. by rewrite Ev, Ed. }
    rewrite wp_bind. apply (wp_look_stable _ (unstarted n0 done (r_id (rp_region rs)))); [exact HP2|]. intros n3 HP3. cbn [then_]. rewrite wp_bind.
    unfold host_region. cbn [rl_region rl_peers]. rewrite wp_bind. apply (wp_look_stable _ (unstarted n0 done (r_id (rp_region rs)))); [exact HP3|].
    intros n4 HP4. cbn [then_]. destruct (HP4) as [_ Hl4]. unfold lacks in Hl4. rewrite Hl4.
    rewrite wp_bind. apply (wp_look_stable _ (unstarted n0 done (r_id (rp_region rs)))); [exact HP4|]. intros n5 HP5. cbn [then_]. rewrite wp_bind.
    apply (adopt_regions_ok _ (unstarted n0 done (r_id (rp_region rs)))); [exact HP5|..].
    + intros n6 R [Ht6 _]. apply Herr. by apply taking_regions.
    + intros n6 R [Ht6 Hl6] _. cbn [then_]. pose proof (start_group_ok n0 done rs (nd_peers n3) (n6 <| nd_regions := R |>)) as Hs.
      rewrite Ev in Hs. apply Hs; [by apply taking_regions|done|done| |]; clear Hs.
      * intros e n7 Ht7. by apply Herr.
      * intros n7 Ht7. by apply HQ.
Qed.
Lemma take_on_all_ok n0 assigned (Q : AdminError + list N → Node → Prop) done founded n :
  taking n0 done n → (∀ e don n1, taking n0 don n1 → don ⊆ done ++ assigned → Q (inl e) n1) →
  (∀ l n1, taking n0 (done ++ assigned) n1 → Q (inr l) n1) → wpa (take_on_all founded assigned) Q n.
Proof.
  revert done founded n. induction assigned as [|rs assigned IH]; intros done founded n Ht Herr HQ; cbn [take_on_all].
  { apply HQ. by rewrite app_nil_r. }
  rewrite wp_bind. apply (take_on_ok n0 done); [done|..].
  - intros e n1 Ht1. apply (Herr e done); [done|]. apply list_subseteq_app_l. done.
  - intros l n1 Ht1. cbn [then_]. apply (IH (done ++ [rs])); [done|..].
    + intros e don n2 Ht2 Hd. apply (Herr e don); [done|]. by rewrite <- app_assoc in Hd.
    + intros l' n2 Ht2. apply HQ. by rewrite <- app_assoc in Ht2.
Qed.

Lemma campaign_founded_ok assigned ids P `{!Stable P} n (Q : AdminError + unit → Node → Prop) :
  P n → (∀ n1, P n1 → Q (inr tt) n1) → wpa (campaign_founded assigned ids) Q n.
Proof.
  intros HP HQ. revert n HP. induction ids as [|id ids IH]; intros n HP; cbn [campaign_founded]; [by apply HQ|].
  rewrite wp_bind. apply (wp_look_stable _ P); [done|]. intros n1 HP1. cbn [then_].
  rewrite wp_bind. apply (wp_look_stable _ P); [done|]. intros n2 HP2. cbn [then_]. rewrite wp_bind.
  destruct (nd_group id n2); [|by apply IH]. destruct (match List.find _ _ with Some _ => _ | None => _ end); [|by apply IH].
  apply (wp_io_stable (NcCampaign _) P); [done|done|]. intros [] n3 HP3. by apply IH.
Qed.

(** ** Reconciliation *)

(** The region is served here: by a group, or without a leader. *)
Definition serves n rs : Prop :=
  match rp_regime rs with Cp => has_group (r_id (rp_region rs)) n | Ap => nd_hosts (r_id (rp_region rs)) n = true end.

(** The groups of [n'] are those of [n], and groups that PD's state [f] decides: founded with
    the voters PD chose, or blank until their leader adds the node. *)
Definition decided n n' : Prop :=
  (∀ id g, nd_group id n = Some g → ∃ g', nd_group id n' = Some g' ∧ config g' = config g) ∧
  (∀ id g', nd_group id n' = Some g' → (∃ g, nd_group id n = Some g ∧ config g' = config g) ∨
    ∃ rs, rs ∈ assignment_for (nd_id n) f ∧ rp_regime rs = Cp ∧ r_id (rp_region rs) = id ∧
      config g' = (r_start (rp_region rs), r_end (rp_region rs), if has (nd_id n) (rp_voters rs) then rp_voters rs else [])).

(** What a reconciliation that began at [n] leaves. *)
Definition reconciled n (r : AdminError + N) n' : Prop :=
  decided n n' ∧
  match r with
  | inl _ => nd_applied n' = nd_applied n
  | inr v =>
    if f_version f <=? nd_applied n then v = nd_applied n ∧ nd_applied n' = v ∧ nd_regions n' = nd_regions n ∧ nd_tables n' = nd_tables n
    else
      v = f_version f ∧ nd_applied n' = v ∧ nd_tables n' = Tables_from (catalog f) ∧
      nd_desired n' = desired_of (assignment_for (nd_id n) f) ∧
      list_regions (nd_regions n') = merge_sort start_le (rp_region <$> assignment_for (nd_id n) f) ∧
      ∀ rs, rs ∈ assignment_for (nd_id n) f → serves n' rs
  end.

(** Every region PD sends a node beyond version 0 has the node among its voters or its
    desired replicas. *)
Lemma assigned_here id rs :
  f_version f ≠ 0 → rs ∈ assignment_for id f → has id (rp_voters rs) || has id (rp_desired rs) = true.
Proof.
  intros Hv. unfold assignment_for. destruct (N.eqb_spec (f_version f) 0); [done|].
  intros [_ Hb]%list_elem_of_In%filter_In. done.
Qed.

Lemma taking_decided n n0 done n' :
  nd_id n0 = nd_id n → configs n0 = configs n → done ⊆ assignment_for (nd_id n) f → taking n0 done n' → decided n n'.
Proof.
  intros Hid Hcs Hd [_ _ _ _ _ (cs0 & cs & H0 & H1 & Hsub & Hfrom & _) _]. rewrite Hcs in H0. split.
  - intros id g Hg. pose proof (nd_group_configs id n) as Hc. rewrite Hg, H0 in Hc. cbn in Hc.
    pose proof (nd_group_configs id n') as Hc'. rewrite H1 in Hc'. cbn in Hc'.
    rewrite (lookup_weaken _ _ _ _ (eq_sym Hc) Hsub) in Hc'. destruct (nd_group id n') as [g'|]; [|done].
    apply (inj Some) in Hc'. by exists g'.
  - intros id g' Hg. pose proof (nd_group_configs id n') as Hc'. rewrite Hg, H1 in Hc'. cbn in Hc'.
    destruct (Hfrom id _ (eq_sym Hc')) as [Ho|(rs & Hin & Hcp & Hr & Hc)]; [left|right].
    + pose proof (nd_group_configs id n) as Hc. rewrite H0 in Hc. cbn in Hc. rewrite Ho in Hc.
      destruct (nd_group id n) as [g|]; [|done]. apply (inj Some) in Hc. by exists g.
    + exists rs. rewrite <- Hid. split_and!; [by rewrite Hid; apply Hd|done..].
Qed.

Lemma taking_serves n0 done n' rs :
  taking n0 done n' → rs ∈ done → has (nd_id n0) (rp_voters rs) || has (nd_id n0) (rp_desired rs) = true → serves n' rs.
Proof.
  intros [_ _ _ _ _ (cs0 & cs & _ & H1 & _ & _ & Hcp) (ap & Hap & Hdone)] Hin Hh. unfold serves.
  destruct (rp_regime rs) eqn:Er.
  - destruct (Hcp rs Hin Er Hh) as [c Hc]. pose proof (nd_group_configs (r_id (rp_region rs)) n') as Hg.
    rewrite H1 in Hg. cbn in Hg. rewrite Hc in Hg. unfold has_group. destruct (nd_group _ n') as [g|]; [by exists g|done].
  - unfold nd_hosts. rewrite Hap. cbn. by destruct (Hdone rs Hin Er) as [x ->].
Qed.

(** The node before it takes on regions: as it was at [n], with these tables and desired
    replicas. *)
Record began n (T : Tables) (D : gmap N (list N)) n' : Prop := mkBegan {
  bg_id : nd_id n' = nd_id n;
  bg_pd : nd_pd n' = nd_pd n;
  bg_applied : nd_applied n' = nd_applied n;
  bg_regions : nd_regions n' = nd_regions n;
  bg_ap : nd_ap n' = nd_ap n;
  bg_configs : configs n' = configs n;
  bg_tables : nd_tables n' = T;
  bg_desired : nd_desired n' = D;
}.

#[export] Instance began_stable n T D : Stable (began n T D).
Proof. intros n1 n2 [-> Hc] []. split; try done. by rewrite Hc. Qed.

Lemma began_refl n : began n (nd_tables n) (nd_desired n) n.
Proof. by split. Qed.

Lemma began_tables n T T' D n' : began n T D n' → began n T' D (n' <| nd_tables := T' |>).
Proof. intros []. by split. Qed.

Lemma began_desired n T D D' n' : began n T D n' → began n T D' (n' <| nd_desired := D' |>).
Proof. intros []. by split. Qed.

Lemma began_topology n T D addrs n' : began n T D n' → began n T D (adopt_topology [] addrs n').
Proof.
  intros [????? Hc ??]. unfold adopt_topology. cbn. destruct (bool_decide (addrs = ∅)); [by split|].
  unfold configs in Hc |- *. destruct n' as [??? [gs|] ???????]; cbn in *; split; cbn; try done.
  rewrite <- map_fmap_compose. exact Hc.
Qed.

Lemma began_taking n T D n' ap : is_Some (nd_raft n) → nd_ap n = Some ap → began n T D n' → taking n' [] n'.
Proof.
  intros [gs Hg] Hap [???? Ha Hc ??]. split; [done..| |].
  - assert (Hcs : configs n' = Some (config <$> gs)) by (rewrite Hc; unfold configs; by rewrite Hg).
    exists (config <$> gs), (config <$> gs). split_and!; [done..| |]; [by left|]. intros rs Hrs. by apply not_elem_of_nil in Hrs.
  - exists ap. rewrite Ha. split; [done|]. intros rs Hrs. by apply not_elem_of_nil in Hrs.
Qed.

(** Groups that only ran are the groups there were. *)
Lemma began_decided n T D n' : began n T D n' → decided n n'.
Proof.
  intros Hb. split; intros id g Hg; pose proof (nd_group_configs id n) as H1; pose proof (nd_group_configs id n') as H2;
    rewrite (bg_configs _ _ _ _ Hb), <- H1, Hg in H2; cbn in H2.
  - destruct (nd_group id n') as [g'|]; [|done]. apply (inj Some) in H2. by exists g'.
  - destruct (nd_group id n) as [g0|]; [|done]. apply (inj Some) in H2. left. by exists g0.
Qed.

#[local] Instance decided_stable n : Stable (decided n).
Proof.
  intros n1 n2 Hq [Hold Hnew]. split; intros id g Hg; pose proof (nd_group_quiet id _ _ Hq) as Hc.
  - destruct (Hold id g Hg) as (g1 & Hg1 & H1). rewrite Hg1 in Hc. cbn in Hc. destruct (nd_group id n2) as [g2|]; [|done].
    apply (inj Some) in Hc. exists g2. by rewrite Hc.
  - rewrite Hg in Hc. cbn in Hc. destruct (nd_group id n1) as [g1|] eqn:Hg1; [|done]. apply (inj Some) in Hc.
    destruct (Hnew id g1 Hg1) as [(g0 & ? & ?)|(rs & ? & ? & ? & ?)]; [left; exists g0|right; exists rs]; by rewrite Hc.
Qed.

#[local] Instance serves_stable rs : Stable (λ n, serves n rs).
Proof.
  intros n1 n2 Hq. unfold serves. destruct (rp_regime rs); [by apply has_stable|]. by destruct Hq as [-> _].
Qed.

#[local] Instance reconciled_stable n r : Stable (reconciled n r).
Proof.
  intros n1 n2 Hq [Hd Hr]. split; [by eapply stable|]. destruct (Hq) as [E _]. destruct r as [e|v]; [by rewrite E|].
  destruct (f_version f <=? nd_applied n); [by rewrite E|]. destruct Hr as (? & ? & ? & ? & ? & Hs). rewrite E.
  split_and!; [done..|]. rewrite <- E. intros rs Hrs. eapply (serves_stable rs n1); [done|]. by apply Hs.
Qed.

(** The regions are taken on and routed. *)
Definition settled n n0 n' : Prop :=
  taking n0 (assignment_for (nd_id n) f) n' ∧
  list_regions (nd_regions n') = merge_sort start_le (rp_region <$> assignment_for (nd_id n) f).

#[local] Instance settled_stable n n0 : Stable (settled n n0).
Proof. intros n1 n2 Hq [HP HR]. split; [by eapply stable|]. by destruct Hq as [-> _]. Qed.

Lemma settled_reconciled n n0 n' :
  (f_version f <=? nd_applied n) = false → began n (Tables_from (catalog f)) (desired_of (assignment_for (nd_id n) f)) n0 →
  settled n n0 n' → reconciled n (inr (f_version f)) (n' <| nd_applied := f_version f |>).
Proof.
  intros Hv [Hid _ _ _ _ Hc HT HD] [Ht HR].
  assert (Hd : decided n n') by (by eapply taking_decided).
  split; [exact Hd|]. rewrite Hv. split; [done|]. split; [done|]. split; [cbn; by rewrite (tk_tables _ _ _ Ht)|].
  split; [cbn; by rewrite (tk_desired _ _ _ Ht)|]. split; [exact HR|]. intros rs Hrs.
  eapply (taking_serves n0 _ n'); [done..|]. rewrite Hid. apply assigned_here; [|done]. apply N.leb_gt in Hv. lia.
Qed.

(** What the node reads of PD's answer. *)
Lemma assignment_of_response id :
  let a := assignment_of (assignment_response f id) in
  as_regions a = assignment_for id f ∧ as_tables a = catalog f ∧ as_version a = f_version f.
Proof.
  cbn. split_and!; [..|done]; rewrite <- list_fmap_compose;
    (etransitivity; [apply list_fmap_ext; intros ? x _|apply list_fmap_id]); [apply replica_set_roundtrip|apply table_roundtrip].
Qed.

(** The end of a reconciliation with a newer version. *)
Lemma take_up_ok n founded n0 :
  (f_version f <=? nd_applied n) = false → began n (Tables_from (catalog f)) (desired_of (assignment_for (nd_id n) f)) n0 →
  taking n0 [] n0 →
  wpa (founded ← take_on_all founded (assignment_for (nd_id n) f);
       _ ← adopt_regions (rp_region <$> assignment_for (nd_id n) f);
       _ ← k_step (λ n, (n <| nd_applied := f_version f |>, tt));
       _ ← campaign_founded (assignment_for (nd_id n) f) founded;
       mret (f_version f)) (reconciled n) n0.
Proof.
  intros Hv Hb Ht.
  assert (Herr : ∀ (e : AdminError) don n1, taking n0 don n1 → don ⊆ assignment_for (nd_id n) f → reconciled n (inl e) n1).
  { intros e don n1 Ht1 Hd. split; [by eapply taking_decided; [apply Hb|apply Hb|..]|].
    rewrite (tk_applied _ _ _ Ht1). apply Hb. }
  rewrite wp_bind. apply (take_on_all_ok n0 _ _ []); [done|exact Herr|]. intros l n1 Ht1. cbn [then_].
  rewrite wp_bind. apply (adopt_regions_ok _ (taking n0 (assignment_for (nd_id n) f))); [done|..].
  { intros n2 R Ht2. eapply Herr; [by apply taking_regions|done]. }
  intros n2 R Ht2 HR. cbn [then_]. rewrite wp_bind.
  apply (wp_step_stable _ (settled n n0)); [split; [by apply taking_regions|done]|]. intros n3 Hs. cbn [fst snd then_].
  rewrite wp_bind. apply (campaign_founded_ok _ _ (reconciled n (inr (f_version f)))); [by eapply settled_reconciled|].
  intros n4 Hr. done.
Qed.
End reconcile.

(** * Theorems

    The properties of a node's administration. *)

Lemma wp_fetch f pd P `{!Stable P} n (Q : AdminError + Assignment → Node → Prop) :
  P n → (∀ s n1, P n1 → Q (inl (AeStatus s)) n1) →
  (∀ n1, P n1 → Q (inr (assignment_of (assignment_response f (ph_node_id pd)))) n1) →
  wp quiet (answers_admin f) (fetch_assignment pd) Q n.
Proof.
  intros HP Herr HQ. unfold fetch_assignment. rewrite wp_bind. apply (wp_look_stable f _ P); [done|]. intros n1 HP1. cbn [then_].
  unfold pd_call. rewrite !wp_bind. cbn [wp p_await]. intros n2 a n3 Hq [-> [-> | [s ->]]]; cbn.
  - apply HQ. by eapply stable.
  - apply Herr. by eapply stable.
Qed.

(** C30. A node that reconciles with PD ([AppState::reconcile]) serves what it routes.  PD
    answers from one state [f] of its state machine, or fails; any log and any file of the node
    may fail; the node's groups run meanwhile, and no other reconciliation does.  When [f] is
    at a newer version than the node applied, the call returns that version and records it; the
    node's tables are PD's catalog, its region table is exactly the regions PD assigns to the
    node, and each of them is served here, by a Raft group or as a leaderless region.  At the
    same version nothing changes, and on any error the version stays, so that the next
    heartbeat tries again.  In every case the groups the node had keep their configuration, and
    a new group was founded with exactly the voters PD decided, the node among them, or blank. *)
Theorem reconcile_adopts_assignment f n pd :
  nd_pd n = Some pd → ph_node_id pd = nd_id n → is_Some (nd_raft n) → is_Some (nd_ap n) →
  wp quiet (answers_admin f) reconcile (reconciled f n) n.
Proof.
  intros Hpd Hid Hraft [ap Hap].
  pose proof (began_refl n) as Hb. unfold reconcile.
  rewrite wp_bind. apply (wp_look_stable f _ (began n (nd_tables n) (nd_desired n))); [done|]. intros n1 Hb1. cbn [then_].
  rewrite (bg_applied _ _ _ _ Hb1).
  rewrite wp_bind. apply (wp_look_stable f _ (began n (nd_tables n) (nd_desired n))); [done|]. intros n2 Hb2. cbn [then_].
  rewrite (bg_pd _ _ _ _ Hb2), Hpd, wp_bind. apply (wp_fetch f pd (began n (nd_tables n) (nd_desired n))); [done|..].
  { intros s n3 Hb3. split; [by eapply began_decided|apply Hb3]. }
  intros n3 Hb3. cbn [then_]. destruct (assignment_of_response f (ph_node_id pd)) as (Hr & HT & Hv).
  rewrite Hr, HT, Hv, Hid. destruct (f_version f <=? nd_applied n) eqn:Hle.
  { rewrite orb_true_r. split; [by eapply began_decided|]. rewrite Hle. split_and!; [done|apply Hb3..]. }
  destruct (N.eqb_spec (f_version f) 0) as [E|_]; [apply N.leb_gt in Hle; lia|]. cbn [orb].
  rewrite wp_bind. apply (wp_step_stable f _ (began n (nd_tables n) (nd_desired n))); [done|]. intros n4 Hb4%(began_tables _ _ (Tables_from (catalog f))). cbn [fst snd then_].
  rewrite wp_bind. apply (wp_step_stable f _ (began n (Tables_from (catalog f)) (nd_desired n))); [done|]. intros n5 Hb5. cbn [fst snd then_].
  apply (began_topology _ _ _ (as_nodes (assignment_of (assignment_response f (nd_id n))))) in Hb5.
  rewrite wp_bind. apply (wp_step_stable f _ (began n (Tables_from (catalog f)) (nd_desired n))); [done|]. intros n6 Hb6. cbn [fst snd then_].
  apply (began_desired _ _ _ (desired_of (assignment_for (nd_id n) f))) in Hb6.
  apply take_up_ok; [done..|]. by eapply began_taking.
Qed.

(** * Witness *)

(** PD once the first node has joined, two tables are declared and a second node has joined;
    the second node as it attaches to PD; and an answer to each of its calls. *)
Definition two_node_pd : PdFsm :=
  fold_left (λ f c, apply_cmd c f)
    [Heartbeat 1 [x61] [] 5 []; DeclareTable [x6f] Cp; DeclareTable [x63] Ap; Heartbeat 2 [x62] [] 6 []]
    PdFsm_new.

Definition joining_node : Node :=
  mkNode 2 [x73] in_memory (Some ∅) (Some ∅) Tables_bootstrap [2] ∅ 0 ∅ (Some (mkPdHandle 2 [x62] false)).

Definition pd_answers (f : PdFsm) (c : AdminCall) (n : Node) : option (Node * AdminAnswer c) :=
  match c with
  | NcPd r =>
    match r in PdRpc T return option (Node * (TStatus + T)) with
    | PHeartbeat req => Some (n, inr (assignment_response f (hq_node_id req)))
    | _ => None
    end
  | NcOpenWal _ | NcPersist => Some (n, true)
  | NcCampaign _ | NcConfChange _ _ => Some (n, tt)
  end.

Lemma pd_answers_ok f c n n' a : pd_answers f c n = Some (n', a) → answers_admin f c n a n'.
Proof.
  destruct c as [T r| | | |]; cbn; [|by intros [= <- <-]..|intros [= <- <-]; by destruct n|intros [= <- <-]; by destruct n].
  destruct r; try done. intros [= <- <-]. split; [done|by left].
Qed.

Definition joined : option (Node * (AdminError + N)) := run (pd_answers two_node_pd) reconcile joining_node.

Lemma quiet_refl n : quiet n n.
Proof. by destruct n. Qed.

Lemma reconcile_adopts_assignment_witness :
  (snd <$> joined = Some (inr 5) ∧ (p ← joined; hg_voters <$> nd_group 1 p.1) = Some [] ∧ (nd_hosts 3 ∘ fst <$> joined) = Some true) ∧
  ∀ n' r, joined = Some (n', r) → reconciled two_node_pd joining_node r n'.
Proof.
  split; [split_and!; vm_compute; reflexivity|]. intros n' r Hr.
  refine (run_wp quiet (answers_admin two_node_pd) (pd_answers two_node_pd) reconcile joining_node n' r _ quiet_refl (pd_answers_ok two_node_pd) Hr _).
  apply (reconcile_adopts_assignment two_node_pd joining_node (mkPdHandle 2 [x62] false)); [reflexivity|reflexivity|by eexists|by eexists].
Defined.

(** * Findings

    Behaviours of a node's administration outside the hypotheses of its theorem, evaluated:
    overlapping reconciliations, a response that PD puts together from two of its states, a
    log that does not open, and a redirect to an address that is not one. *)

(** PD before and after a second table is declared. *)
Definition pd4 : PdFsm :=
  fold_left (λ f c, apply_cmd c f) [Heartbeat 1 [x61] [] 5 []; Heartbeat 2 [x62] [] 6 []; DeclareTable [x6f] Cp] PdFsm_new.
Definition pd5 : PdFsm := apply_cmd (DeclareTable [x63] Ap) pd4.

(** A reconciliation, and what is looked at afterwards: the version, the table of the name
    [x63], whether the leaderless region 3 is hosted, and the ids of the routed regions. *)
Definition seen (n : Node) : N * option Regime * bool * list N :=
  (nd_applied n, Tables_regime_of [x63] (nd_tables n), nd_hosts 3 n, r_id <$> list_regions (nd_regions n)).

Definition reconcile_with (oracle : ∀ c, Node → option (Node * AdminAnswer c)) (n : Node) : option (Node * (AdminError + N)) :=
  run oracle reconcile n.

(** The calls to PD answered so, everything else as usual. *)
Definition with_heartbeat (answer : N → HeartbeatResponse) (after : Node → Node) (c : AdminCall) (n : Node)
    : option (Node * AdminAnswer c) :=
  match c with
  | NcPd r =>
    match r in PdRpc T return option (Node * (TStatus + T)) with
    | PHeartbeat req => Some (after n, inr (answer (hq_node_id req)))
    | _ => None
    end
  | NcOpenWal _ | NcPersist => Some (n, true)
  | NcCampaign _ | NcConfChange _ _ => Some (n, tt)
  end.

(** A node that reconciled with PD's newest state. *)
Definition node5 : Node := from_option fst joining_node (reconcile_with (pd_answers pd5) joining_node).

(** A reconciliation whose answer is late: it read the applied version before another began
    and finished.  The node goes back from version 5 to 4, and no longer knows the table it
    served. *)
Lemma late_answer_walks_back :
  seen node5 = (5, Some Ap, true, [1; 2; 3]) ∧
  seen ∘ fst <$> reconcile_with (with_heartbeat (assignment_response pd4) (λ _, node5)) joining_node =
    Some (4, None, true, [1; 2]).
Proof. split; vm_compute; reflexivity. Qed.

(** PD applies a command between two of the reads that make up a response. *)
Definition env_pd (g g' : PdGroup) : Prop := g' = g ∨ ∃ c, g' = g <| pg_fsm := apply_cmd c (pg_fsm g) |>.

Definition torn_response (f f' : PdFsm) (id : N) : HeartbeatResponse :=
  let newer := assignment_response f' id in
  mkHeartbeatResponse (hp_regions (assignment_response f id)) (hp_catalog_version newer) (hp_tables newer) (hp_nodes newer) (hp_replicas newer).

Lemma response_may_be_torn f c id (answers : ∀ c, PdGroup → PdAnswer c → PdGroup → Prop) :
  let g := λ f, mkPdGroup f Leader (Some 1) ∅ 7 in
  may env_pd answers (heartbeat_response (assignment_for id f)) (g f) (inr (torn_response f (apply_cmd c f) id)) (g (apply_cmd c f)).
Proof.
  intros g. exists (g (apply_cmd c f)). split; [right; exists c; reflexivity|].
  do 3 (exists (g (apply_cmd c f)); split; [by left|]). split; reflexivity.
Qed.

(** The node records the version of the new table without its region, and takes the right
    answer for a replay from then on. *)
Lemma torn_response_skips_region :
  let torn := from_option fst joining_node (reconcile_with (with_heartbeat (torn_response pd4 pd5) id) joining_node) in
  seen torn = (5, Some Ap, false, [1; 2]) ∧
  seen ∘ fst <$> reconcile_with (pd_answers pd5) torn = Some (5, Some Ap, false, [1; 2]) ∧
  r_id ∘ rp_region <$> assignment_for 2 pd5 = [1; 2; 3].
Proof. split_and!; vm_compute; reflexivity. Qed.

(** A peer that comes back at another address: PD reports the new one and the node records it,
    but a group that already runs keeps the client for the old one. *)
Lemma moved_peer_not_reached :
  let moved := apply_cmd (Heartbeat 3 [x64] [] 9 []) (apply_cmd (Heartbeat 1 [x7a] [] 8 []) two_node_pd) in
  let before := from_option fst joining_node joined in
  let after := from_option fst joining_node (reconcile_with (pd_answers moved) before) in
  (nd_peers before !! 1 = Some [x61] ∧ (g ← nd_group 1 before; hg_peers g !! 1) = Some [x61]) ∧
  nd_peers after !! 1 = Some [x7a] ∧ (g ← nd_group 1 after; hg_peers g !! 1) = Some [x61].
Proof. split; [split|split]; vm_compute; reflexivity. Qed.

(** A node that serves before the first leaderless table is created: it hosts the table's
    region, and its anti-entropy never runs. *)
Lemma late_table_without_anti_entropy :
  let started := run (pd_answers pd4) (serve_catalog None [x62]) (joining_node <| nd_pd := None |>) in
  snd <$> started = Some (inr (true, false)) ∧
  (p ← started; q ← reconcile_with (pd_answers pd5) p.1; Some (q.2, nd_hosts 3 q.1)) = Some (inr 5, true).
Proof. split; vm_compute; reflexivity. Qed.

(** The log of region 2 does not open: the region is routed here with no group behind it. *)
Definition no_log_2 (c : AdminCall) (n : Node) : option (Node * AdminAnswer c) :=
  match c with
  | NcOpenWal region => Some (n, negb (region =? 2))
  | c => pd_answers two_node_pd c n
  end.

Lemma joined_region_routed_first :
  (λ p, (p.2, bool_decide (2 ∈ (r_id <$> list_regions (nd_regions p.1))), bool_decide (nd_group 2 p.1 = None)))
    <$> reconcile_with no_log_2 joining_node = Some (inl AeIo, true, true).
Proof. vm_compute. reflexivity. Qed.

(** A PD node that is told a malformed address of the leader redirects there: the link adds it
    unchecked, and building the next client panics, on this call and on every later one. *)
Definition bad_leader (c : LinkCall) (s : PdLink * unit) : option ((PdLink * unit) * LinkAnswer c) :=
  match c with
  | @LRpc _ T _ => Some (s, inl (redirect_status (Some "pd one:2379")) : TStatus + T)
  | LPause => Some (s, tt)
  end.

Definition no_space (uri : string) : bool := negb (contains_str " " uri).

Lemma bad_redirect_panics :
  PdLink_parse no_space "a:2379" = inr (mkPdLink ["http://a:2379"] 0) ∧
  let after := mkPdLink ["http://a:2379"; "http://pd one:2379"] 1 in
  run bad_leader (link_call no_space (PGetTimestamp 1)) (mkPdLink ["http://a:2379"] 0, ()) = Some ((after, ()), inl LPanic) ∧
  run bad_leader (link_call no_space (PGetTimestamp 1)) (after, ()) = Some ((after, ()), inl LPanic).
Proof. split; [|split]; vm_compute; reflexivity. Qed.
