(* ===== verification/ServerFindings.v ===== *)
(** Behaviours of the CP path outside the hypotheses of its theorems, evaluated: a Raft
    snapshot carries only the latest committed value of each key, so a replica that is
    not blank, or that misses a transaction in flight, differs from the others after it
    restores one; applying a log again after a restart does not leave the state it left
    the first time; a deposed leader acknowledges a write that was overwritten; a
    stopped one answers that an appended write was not. *)

From stdpp Require Import base list numbers strings gmap.
From Stdlib Require Import Strings.Byte.
From S2P Require Import Prelude Crc Keys Batch OrdMap Memtable Db DbCorrect Engine EngineApi Mvcc Percolator Scan.
From S2P Require Import Cursor RaftMessage RaftStorage RaftNode GroupActor GroupCluster.
From S2P Require Import PdRegion Ap RaftCmd RaftCmdCorrect.

Definition run (cs : list Command) (e : Core (gmap bytes MemValue)) := apply_log (Command_encode <$> cs) e.

Definition put_at (key value : bytes) (ts : N) : Command := Autocommit (committed_batch key (VPut value) ts ts).
Definition delete_at (key : bytes) (ts : N) : Command := Autocommit (committed_batch key VDelete ts ts).

(** A replica restored from the snapshot of another. *)
Definition install (leader follower : Core (gmap bytes MemValue)) :=
  make_restore (make_snapshot 9 in_memory 99 [] [] leader) follower.

Definition read (e : Core (gmap bytes MemValue)) := mvcc_get_unresolved [x61] 200 e.

(** The follower missed the overwrite, or the deletion, of a key it has: the restored
    version is below the one it holds, which it goes on serving. *)
Lemma lagging_replica_stays_stale :
  let follower := (run [put_at [x61] [x31] 50] ex_c0).1 in
  let leader := (run [put_at [x61] [x32] 100] follower).1 in
  let leader' := (run [delete_at [x61] 100] follower).1 in
  read leader = Ok (Some [x32]) ∧ read (install leader follower) = Ok (Some [x31]) ∧
  read leader' = Ok None ∧ read (install leader' follower) = Ok (Some [x31]).
Proof. split_and!; vm_compute; reflexivity. Qed.

(** A snapshot taken between the prewrite and the commit of a transaction drops the
    prewritten value: the commit entry then exposes it everywhere but on the restored
    replica. *)
Lemma snapshot_drops_prewrite :
  let leader := (run [Prewrite [Mutation_put [x61] [x31]] [x61] 10 100] ex_c0).1 in
  let restored := install leader ex_c0 in
  let commit := [Commit [x61] [[x61]] 10 20] in
  read (run commit leader).1 = Ok (Some [x31]) ∧ read (run commit restored).1 = Ok None ∧
  (run commit leader).2 = (run commit restored).2.
Proof. split_and!; vm_compute; reflexivity. Qed.

(** A key with a committed value that is locked when the snapshot is taken: the value is not in
    the snapshot, and the restored replica has lost it, also when the transaction that held the
    lock is rolled back. *)
Lemma snapshot_drops_committed_value :
  let leader := (run [put_at [x61] [x31] 5; Prewrite [Mutation_put [x61] [x32]] [x61] 10 100] ex_c0).1 in
  let restored := install leader ex_c0 in
  let rollback := [Resolve [[x61]] 10 0] in
  read_committed [x61] 200 leader = Ok (Some [x31]) ∧ read_committed [x61] 200 restored = Ok None ∧
  read (run rollback leader).1 = Ok (Some [x31]) ∧ read (run rollback restored).1 = Ok None.
Proof. split_and!; vm_compute; reflexivity. Qed.

(** Version timestamps are not restored: the conflict check of one entry refuses it on
    the leader and accepts it on the restored replica. *)
Lemma snapshot_hides_conflict :
  let leader := (run [put_at [x61] [x31] 100] ex_c0).1 in
  let restored := install leader ex_c0 in
  let entry := [Prewrite [Mutation_put [x61] [x32]] [x61] 90 100] in
  (run entry leader).2 = [Err (Conflict "write conflict: a newer commit exists")] ∧
  (run entry restored).2 = [Ok tt].
Proof. split_and!; vm_compute; reflexivity. Qed.

(** A restarted node has applied nothing as far as its Raft node knows, and applies its
    log again to an engine that holds it.  A prewrite that met the lock of another
    transaction the first time succeeds the second time, since that transaction has
    committed by then: the replica holds a lock the others do not, and refuses a later
    transaction they accept. *)
Definition replay_log : list Command :=
  [Prewrite [Mutation_put [x61] [x31]] [x70] 10 100;
   Prewrite [Mutation_put [x61] [x32]] [x70] 12 100;
   Resolve [[x61]] 10 11].

Lemma restart_replay_diverges :
  let others := (run replay_log ex_c0).1 in
  let restarted := (run replay_log others).1 in
  let later := [Prewrite [Mutation_put [x61] [x33]] [x70] 13 100; Resolve [[x61]] 13 14] in
  read others = Ok (Some [x31]) ∧ is_ok (read restarted) = false ∧
  read (run later others).1 = Ok (Some [x33]) ∧ is_ok (read (run later restarted).1) = false ∧
  mvcc_get_unresolved [x61] 11 (run later restarted).1 = Ok (Some [x31]).
Proof. split_and!; vm_compute; reflexivity. Qed.

(** * The actor *)

Definition region := fold_left (gexec make_apply (make_snapshot 9 in_memory 99 [] []) make_restore 30).
Definition fresh : gcluster (Core (gmap bytes MemValue)) := ginit [1; 2; 3] (λ _, ex_c0).

(** Node 1 is elected and the group applies its no-op at index 1; a put is proposed to
    it, at index 2, and reaches nobody; nine ticks later it still leads. *)
Definition cut_off : list gevent :=
  [EvCampaign 1 100; EvDeliver 0 (Some 101); EvDeliver 2 None; EvDeliver 5 (Some 102); EvDeliver 6 (Some 103);
   EvDeliver 7 None; EvDeliver 8 None; EvTick 1; EvDeliver 9 None; EvDeliver 10 None;
   EvPropose 1 (Command_encode (put_at [x61] [x31] 50)) 7] ++ replicate 9 (EvTick 1).
(** Node 2 is elected by node 3 meanwhile, and commits its no-op at index 2. *)
Definition deposed : list gevent :=
  cut_off ++ replicate 20 (EvTick 2) ++
  [EvDeliver 34 (Some 104); EvDeliver 35 None; EvDeliver 39 (Some 105); EvDeliver 40 None; EvTick 2].

Definition answers_to (tx : N) (rs : list (N * Reply)) : list Reply :=
  omap (λ p, if p.1 =? tx then Some p.2 else None) rs.

(** A turn of node [i], which leads to [f]. *)
Definition turn_of {A : Type} (gc : gcluster (Core (gmap bytes MemValue))) (i : N) (cmd : Cmd)
    (f : list (N * Reply) → option (Group MemStorage (Core (gmap bytes MemValue))) → A) : option A :=
  g ← gc_groups gc i;
  let '(rs, _, og) := turn make_apply (make_snapshot 9 in_memory 99 [] []) make_restore 30 cmd g in
  Some (f rs og).

(** Its append replaces the put in the log of node 1 and commits index 2 there: the
    client of the put is told that its write was applied, which no node has. *)
Lemma overwritten_write_acknowledged :
  let gc := region deposed fresh in
  (m ← gc_net gc !! 41%nat;
   turn_of gc 1 (GStepReply m 106) (λ rs og,
     (m_from m, answers_to 7 rs,
      (λ g, (e_data <$> ms_log (n_storage (g_node g)), read (g_state g))) <$> og)))
  = Some (2, [RProposed (Applied (Ok tt))], Some ([[]; []], Ok None)).
Proof. vm_compute. reflexivity. Qed.

(** A stopped actor drops its parked proposals, which reads as not being the leader: the
    client may send the write again while the first copy still commits. *)
Lemma stopped_leader_denies_append :
  let gc := region cut_off fresh in
  (λ g, length (ms_log (n_storage (g_node g)))) <$> gc_groups gc 1 = Some 2%nat ∧
  turn_of gc 1 GStop (λ rs _, answers_to 7 rs) = Some [RProposed (NotLeading None)].
Proof. split; vm_compute; reflexivity. Qed.
